(* ===== verification/_CoqProject ===== *)
-Q . S2P
Prelude.v
Binary.v
Wire.v
Sha256.v
Rand.v
Shuffle.v
Parallel.v
OnionBox.v
Pki.v
Noise.v
Laplace.v
Vrpc.v
Log.v
Convo.v
DeadDrops.v
ConvoRounds.v
ConvoChain.v
ConvoAdds.v
ConvoPipeline.v
Dial.v
DialChain.v
EntryApi.v
Json.v
BoxKeys.v
Conversation.v
ConvoPeers.v
Dialer.v
EntryServer.v
System.v
ClientApp.v
ClientMain.v
Histogram.v
MixServer.v
MixLock.v
MixSim.v
MixChain.v
