(* ===== verification/Prelude.v ===== *)
(** * Vuvuzela: a verification development

    Vuvuzela is a private messaging system. Clients talk through an entry server and a
    chain of mix servers. Time is divided into rounds; in every round each client
    sends one onion, an encrypted message wrapped once per mix server. A mix server
    peels its layer, drops duplicates, adds fake messages, shuffles and hands the batch
    to the next server. In a conversation round the last server swaps the messages of
    the two users of a dead drop, and the replies travel back through the chain to the
    onions they answer. In a dialing round the last server sorts introductions into
    buckets, which clients download to learn who wants to talk to them.

    This library translates the Go program into Rocq definitions, file by file, and
    proves what makes it correct: what every component computes on every branch,
    invariants of the stateful ones over all histories of calls, and what the components
    achieve together, from the configuration files to the text on the peer's screen.

    ** How Go is modelled

    A computation on a state [S] is a function [S -> outcome (A * S)] (the monad [GoM]
    below). An [outcome] is a value, a panic with its message, a wait for a lock that is
    held ([Block]), or [NoFuel] for a loop that is still running. Errors that functions
    return are values of [result]. Integers are of type [Z] with the wrap-around of
    their width written out ([u32], [u64], [i64]); bytes are bytes; floats are IEEE
    binary64; maps and sets are finite maps and sets; slices are lists, with every
    bounds check of an index, slice or [make] written out. Where slices share an array
    and the sharing matters ([Convo.alias_incoming]) or objects are shared through
    pointers (the lock and client of the two services in [MixServer], the conversations
    in [ClientApp]), the sharing is modelled. Concurrent code is a step relation over all
    interleavings ([Parallel], [Vrpc], [EntryServer], [MixLock]) or a history of events
    ([ClientApp], where the two halves of [nextConvoRequest] are events of their own).

    Code that is not part of the repository is a parameter, as a class of operations
    with a second class of the documented laws the theorems use: NaCl's box
    ([OnionBox.Box], [BoxLaws], [KeyGen], [KeyGenLaws]), the Salsa20 cipher
    ([XORKeyStream] in [Rand]), random bytes ([Rand.Reader], [FullReader], [Shuffle.LiveReader]),
    [math.Log] and the conversion of an unrepresentable float ([Laplace.FloatEnv]),
    base32 ([BoxKeys.Base32]), [fmt] and [strconv.Quote] ([Log.Fmt], [Sprintf0] and [Quote]
    in [ClientApp]), placing the views of the terminal ([SetView] and [SetCurrentView] in
    [ClientMain]). Every theorem with such laws has a
    witness in which they are instantiated by concrete functions (the modules named
    [Toy] or ending in [Toy]), so that the laws can hold together.

    ** The files

    Shared: [Prelude] (outcomes, the monad, slices, loops, integers, inevitability,
    simulation, automation), [Binary] ([encoding/binary], [bytes]), [Sha256].

    Building blocks: [Wire] ([params.go], [vuvuzela.go]), [Rand] ([rand/]), [Shuffle]
    ([shuffle.go]), [Parallel] ([internal/span.go], [internal/parallelfor.go]),
    [OnionBox] ([onionbox/onion.go]), [Pki] ([pki.go]), [BoxKeys] ([boxkey.go]),
    [Noise] ([noise.go]), [Laplace] ([laplace.go]), [Vrpc] ([vrpc/client.go]), [Log]
    ([internal/log.go], [internal/ansi.go], [internal/json.go]).

    Mix servers: [Convo] ([convo.go]) with its theorems in [DeadDrops], [ConvoRounds],
    [ConvoChain], [ConvoAdds] and [ConvoPipeline]; [Dial] ([dial.go]) with [DialChain]; [Histogram]
    ([vuvuzela-server/histogram.go]); [MixServer] ([vuvuzela-server/server.go]) with
    [MixLock], [MixSim] and [MixChain].

    Entry server: [EntryApi] ([entry_api.go], [msgtype_string.go]), [Json] (the encoding
    of its messages), [EntryServer] ([vuvuzela-entry-server/server.go]).

    Client: [Conversation] ([vuvuzela-client/conversation.go], and of [gui.go] the text of
    the main view and the log hook that prints on it) with [ConvoPeers],
    [Dialer] ([dialer.go]), [ClientApp] ([client.go] and the commands of [gui.go]),
    [ClientMain] ([main.go] and the screen of [gui.go]).

    Everything together: [System], [MixChain].

    Names are those of the source, with a prefix where two packages use the same one:
    [ConvoService] has the fields [cs_...] and the handlers [NewRound], [Open], [Add],
    [Close], [Get], [Delete]; [DialService] has [ds_...] and [Dial_NewRound], ...; a
    method [T.m] is [T_m] where [m] alone would be ambiguous.

    ** Interfaces

    [ConvoRemote] and [DialRemote] are the RPC interfaces of a mix server. The services
    are written against them (the next server) and implement them, so that chains of
    any length are types ([chain], [dchain], [mchain]). [ChainRemote] and
    [DialChainRemote] add what a server promises to the one before it; the last server
    keeps the promise, and a server in front of one that keeps it keeps it. [ConvoSim]
    and [DialSim] say that two servers answer alike. [JsonCodec] with [JsonLaws] is the
    encoding the entry server and the clients share; [Json] implements it.

    ** What the theorems show

    The whole system. [System.system_delivers]: the clients of two users, the entry
    server and the chain deliver each user's text to the other's screen, or the onion
    was lost for a stated reason. [MixChain.deployment_runs_any_schedule]: server
    processes started from configuration files complete any sequence of rounds of both
    protocols. [ConvoPeers.peers_talk] and [Dialer.dial_reaches]: the same for the two
    ends of a conversation and for dialing, without the entry server.

    The servers. [ConvoChain.convo_chain_round], [DialChain.dial_chain_round],
    [ConvoChain.convo_users_meet]: what a round through a chain of any length returns
    for every onion. [DeadDrops]: the exchange and the filter against their
    specifications. [ConvoRounds]: life cycle and invariant over all histories of calls.
    [MixLock.one_round_at_a_time]: the lock the services share, under all interleavings of
    their calls and of the two halves of [Close].
    [ConvoChain.NewRound_cover_traffic]: the fake messages. [Histogram]: the display.

    Concurrency. [EntryServer.entry_batches_exact] and [entry_answers]: the requests of a
    round and their answers under all interleavings of handlers and round loops.
    [Vrpc.CallMany_serializable] and [CallMany_inevitably_returns]: concurrent calls are
    some sequential order of them, and always end; [ConvoAdds.concurrent_adds]: for the
    calls of a conversation round every order gives the same state, which justifies the
    sequential [CallMany] in [RunConvoRound]. [ConvoPipeline.close_overlaps]: calls for
    other rounds served while [Close] waits for the next server are as good as calls
    after it. [Parallel]: every index once, every run
    ends.

    Building blocks. [Shuffle]: unshuffling aligns replies with requests, all
    permutations arise from exactly one shuffler, sampling is unbiased. [OnionBox],
    [Conversation], [EntryApi]: round trips. [Rand]: the generator is one key stream.

    The client. [ClientApp.response_routing]: responses reach the conversation recorded for
    their round, which is the one that asked unless the user switched between the halves of
    [nextConvoRequest]. [Conversation.HandleConvoResponse_safe]: what a response does to the
    state and the screen, error lines included. [ConvoPeers.outgoing_fifo], [Dialer],
    [ClientMain].

    Errors. The places where the program fails are theorems too: the panic of [Close] on
    a malformed batch ([ConvoChain.malformed_batch_panics]), the lock kept by a repeated
    [NewRound], an infinite noise sample, an unknown server name, calls made after an
    error, the race in [nextConvoRequest], a user who is not in the PKI.

    ** Fuel and bounds

    Only two loops take fuel: the rejection sampling of [Intn] and of
    [cappedFlooredLaplace], which may draw again any number of times; theorems about
    rounds assume that the fuel suffices for the source of random bytes
    ([LiveReader], [noise_live]) and prove that then every round returns. All other
    loops are structural or have a measure that is shown to be enough ([Spans],
    [TrimSpace]). Sizes are bounded where the code's integers are: a batch and the noise
    of all servers stay below 2^32 onions ([batch_ok]).

    ** What is simplified

    An RPC handler is one atomic step, and a call to the next server happens inside it
    ([ConvoPipeline] shows that rounds which overlap a [Close] do not differ, and [MixLock]
    cuts [Close] where it gives the lock back);
    a panic or a blocked call of a later server is one of the chain. The goroutine that
    makes noise in [NewRound] finishes at once: [Close] waits for it. Loops run by
    [ParallelFor] are sequential, as [Parallel] justifies. The [Add] and [Get] calls of a
    round are made in order, as [Vrpc] and [ConvoAdds] justify for [Add]; for [Get]
    another order only permutes the random bytes that fill unusable slots, and for the
    [Add] of a dialing round the order of messages that are shuffled next. Times are
    integers given by the environment.

    ** What is not modelled

    The text syntax of JSON (documents are values; texts in them are coerced to valid
    UTF-8), the output of the loggers of the servers, TCP, HTTP and web sockets (a socket
    is an identity and whether writes succeed), [net/rpc] (a call is executed), the
    geometry, colours and key bindings of the terminal libraries, [rand/cpu.go]'s choice
    of a CPU (any choice is covered), flags, and writing files. [internal/box] is an
    empty package. Cryptographic secrecy and the statistics of the noise are not
    stated: the box is a set of functions with laws, and the sampler's distribution is
    modelled only as a function of its random bytes. *)

From Stdlib Require Import Strings.Byte.
From stdpp Require Import numbers strings pretty gmap list.

Declare Scope go_scope.
Delimit Scope go_scope with go.
Set Warnings "-clear-no-such-hyp".
#[global] Open Scope Z_scope.

(** ** Outcomes of Go code

    A Go computation returns, panics, blocks on a lock that is held, or is
    still looping when the fuel of the model is used up. *)

Inductive outcome (A : Type) : Type :=
| Ret (a : A)
| Panic (msg : string)
| Block
| NoFuel.
Arguments Ret {A} a.
Arguments Panic {A} msg.
Arguments Block {A}.
Arguments NoFuel {A}.

#[export] Instance outcome_ret : MRet outcome := fun A a => Ret a.
#[export] Instance outcome_bind : MBind outcome := fun A B f m =>
  match m with
  | Ret a => f a
  | Panic s => Panic s
  | Block => Block
  | NoFuel => NoFuel
  end.

(** A Go function of type [(A, error)]: the error is the text it prints. *)
Inductive result (A : Type) : Type :=
| Ok (a : A)
| Err (e : string).
Arguments Ok {A} a.
Arguments Err {A} e.

(** Code that reads and writes a state [S]: explicit state passing. *)
Definition GoM (S A : Type) : Type := S -> outcome (A * S).

Definition gret {S A} (a : A) : GoM S A := fun s => Ret (a, s).
Definition gbind {S A B} (m : GoM S A) (f : A -> GoM S B) : GoM S B :=
  fun s => match m s with
           | Ret (a, s') => f a s'
           | Panic p => Panic p
           | Block => Block
           | NoFuel => NoFuel
           end.
Definition gget {S} : GoM S S := fun s => Ret (s, s).
Definition gput {S} (s : S) : GoM S unit := fun _ => Ret (tt, s).
Definition glift {S A} (o : outcome A) : GoM S A := fun s =>
  match o with
  | Ret a => Ret (a, s)
  | Panic p => Panic p
  | Block => Block
  | NoFuel => NoFuel
  end.

(** Code that works on a part of the state. *)
Definition gzoom {S T A} (get : S -> T) (set : T -> S -> S) (m : GoM T A) : GoM S A := fun s =>
  match m (get s) with
  | Ret (a, t) => Ret (a, set t s)
  | Panic p => Panic p
  | Block => Block
  | NoFuel => NoFuel
  end.

Notation "'let!' x ':=' m 'in' k" := (gbind m (fun x => k))
  (at level 200, x as pattern, m at level 100, k at level 200, right associativity) : go_scope.
Notation "m ';;;' k" := (gbind m (fun _ => k))
  (at level 100, right associativity) : go_scope.

(** The early return [if err != nil { return wrap(err) }]. *)
Definition on_ok {S A B} (r : result A) (wrap : string -> string)
    (k : A -> GoM S (result B)) : GoM S (result B) :=
  match r with
  | Ok a => k a
  | Err e => gret (Err (wrap e))
  end.

(** ** Bytes and machine integers *)

Notation bytes := (list byte).

#[export] Instance byte_eq_dec : EqDecision byte := Byte.byte_eq_dec.
#[export] Program Instance byte_countable : Countable byte :=
  inj_countable Byte.to_N Byte.of_N _.
Next Obligation. exact Byte.of_to_N. Qed.

Definition Z_of_byte (b : byte) : Z := Z.of_N (Byte.to_N b).
Definition byte_of_Z (z : Z) : byte := default x00 (Byte.of_N (Z.to_N (z mod 256))).

(** [uint32], [uint64] and [int] (64 bits): conversion wraps around. *)
Definition u32 (z : Z) : Z := z mod 2 ^ 32.
Definition u64 (z : Z) : Z := z mod 2 ^ 64.
Definition i64 (z : Z) : Z := (z + 2 ^ 63) mod 2 ^ 64 - 2 ^ 63.

(** [len]. *)
Definition zlen {A} (l : list A) : Z := Z.of_nat (length l).

(** ** Slices

    Indices are [int]s; the run-time checks are written out. A slice
    expression is checked against the capacity, which equals the length for
    every slice the model slices (each comes from [make([]T, n)] or from a
    composite value). *)

Definition index_panic : string := "runtime error: index out of range".
Definition slice_panic : string := "runtime error: slice bounds out of range".
Definition make_panic : string := "runtime error: makeslice: len out of range".
Definition nil_panic : string := "runtime error: invalid memory address or nil pointer dereference".
Definition unlock_panic : string := "sync: unlock of unlocked mutex".
Definition divide_panic : string := "runtime error: integer divide by zero".

(** [l[i]] *)
Definition go_index {A} (l : list A) (i : Z) : outcome A :=
  if decide (0 <= i) then
    match l !! Z.to_nat i with Some x => Ret x | None => Panic index_panic end
  else Panic index_panic.

(** [l[i] = x] *)
Definition go_store {A} (l : list A) (i : Z) (x : A) : outcome (list A) :=
  if decide (0 <= i < zlen l) then Ret (<[Z.to_nat i := x]> l) else Panic index_panic.

(** [l[lo:hi]] *)
Definition go_slice {A} (l : list A) (lo hi : Z) : outcome (list A) :=
  if decide (0 <= lo <= hi /\ hi <= zlen l) then
    Ret (take (Z.to_nat (hi - lo)) (drop (Z.to_nat lo) l))
  else Panic slice_panic.

(** [make([]T, n)] *)
Definition go_make {A} (zero : A) (n : Z) : outcome (list A) :=
  if decide (0 <= n) then Ret (replicate (Z.to_nat n) zero) else Panic make_panic.

(** [copy(dst, src)]: the new contents of [dst]; it copies [min] of the lengths. *)
Definition go_copy {A} (dst src : list A) : list A :=
  take (length dst) src ++ drop (length src) dst.

(** ** Loops *)

(** [for _, x := range l { s = body(x, s) }], leaving at the first panic. *)
Fixpoint go_for {A S} (body : A -> S -> outcome S) (l : list A) (s : S) : outcome S :=
  match l with
  | [] => Ret s
  | x :: l' => s' ← body x s; go_for body l' s'
  end.

(** The same loop over a body that also reads and writes a state. *)
Fixpoint go_each {A S} (body : A -> GoM S unit) (l : list A) : GoM S unit :=
  match l with
  | [] => gret tt
  | x :: l' => (body x ;;; go_each body l')%go
  end.

(** [for i := range dest { dest[i] = f(i) }]: the list of results in index order. *)
Fixpoint go_map {A B S} (f : A -> GoM S B) (l : list A) : GoM S (list B) :=
  match l with
  | [] => gret []
  | x :: l' => (let! y := f x in let! ys := go_map f l' in gret (y :: ys))%go
  end.

(** ** Automation *)

Create HintDb go.

(** Case analysis on the first [match] or [if] found, keeping the equation. *)
Ltac go_case :=
  match goal with
  | H : context [match ?x with _ => _ end] |- _ => destruct x eqn:?; simplify_eq/=
  | |- context [match ?x with _ => _ end] => destruct x eqn:?; simplify_eq/=
  end.

Ltac go_unfold :=
  unfold gret, gget, gput, glift in *.

(** ** Outcome lemmas *)

Lemma gbind_ret {S A B} (m : GoM S A) (f : A -> GoM S B) s b s'' :
  gbind m f s = Ret (b, s'') <-> exists a s', m s = Ret (a, s') /\ f a s' = Ret (b, s'').
Proof.
  unfold gbind. split.
  - destruct (m s) as [[a s']| | |] eqn:E; naive_solver.
  - intros (a & s' & -> & H). done.
Qed.

Lemma gbind_eq {S A B} (m : GoM S A) (f : A -> GoM S B) s a s' :
  m s = Ret (a, s') -> gbind m f s = f a s'.
Proof. unfold gbind. by intros ->. Qed.

Lemma gzoom_ret {S T A} (get : S -> T) (set : T -> S -> S) (m : GoM T A) s a s' :
  gzoom get set m s = Ret (a, s') <-> exists t, m (get s) = Ret (a, t) /\ s' = set t s.
Proof. unfold gzoom. destruct (m (get s)) as [[a' t]| | |]; naive_solver. Qed.

Lemma gzoom_eq {S T A} (get : S -> T) (set : T -> S -> S) (m : GoM T A) s a t :
  m (get s) = Ret (a, t) -> gzoom get set m s = Ret (a, set t s).
Proof. unfold gzoom. by intros ->. Qed.

Lemma obind_ret {A B} (m : outcome A) (f : A -> outcome B) b :
  m ≫= f = Ret b <-> exists a, m = Ret a /\ f a = Ret b.
Proof. destruct m; simpl; naive_solver. Qed.

Lemma glift_ret {S A} (o : outcome A) (s : S) a s' :
  glift o s = Ret (a, s') <-> o = Ret a /\ s' = s.
Proof. unfold glift. destruct o; naive_solver. Qed.

Lemma gret_ret {S A} (x : A) (s : S) a s' :
  gret x s = Ret (a, s') <-> a = x /\ s' = s.
Proof. unfold gret. naive_solver. Qed.

Lemma on_ok_ret {S A B} (r : result A) w (k : A -> GoM S (result B)) s b s' :
  on_ok r w k s = Ret (b, s') <->
  (exists a, r = Ok a /\ k a s = Ret (b, s')) \/ (exists e, r = Err e /\ b = Err (w e) /\ s' = s).
Proof. destruct r as [a|e]; cbn; unfold gret; naive_solver. Qed.

(** Inverts a computation known to return, one bind at a time. *)
Ltac go_inv H :=
  lazymatch type of H with
  | gbind _ _ _ = Ret _ =>
      let a := fresh "a" in let s := fresh "s" in let H1 := fresh "H" in
      apply gbind_ret in H as (a & s & H1 & H); cbn beta iota in H; go_inv H1; go_inv H
  | gret _ _ = Ret _ => apply gret_ret in H as [? ?]; try subst
  | glift _ _ = Ret _ => apply glift_ret in H as [? ?]; try subst
  | _ => idtac
  end.

(** ** Loop lemmas *)

Lemma go_for_app {A S} (body : A -> S -> outcome S) l1 l2 s :
  go_for body (l1 ++ l2) s = s' ← go_for body l1 s; go_for body l2 s'.
Proof.
  revert s. induction l1 as [|x l1 IH]; intros s; simpl; [done|].
  destruct (body x s); simpl; [apply IH|done..].
Qed.

(** An invariant carried through a loop that never leaves early. *)
Lemma go_for_inv {A S} (P : list A -> S -> Prop) (body : A -> S -> outcome S) l s :
  P [] s ->
  (forall done x rest s', l = done ++ x :: rest -> P done s' ->
     exists s'', body x s' = Ret s'' /\ P (done ++ [x]) s'') ->
  exists s', go_for body l s = Ret s' /\ P l s'.
Proof.
  intros H0 Hstep.
  cut (forall rest done s', l = done ++ rest -> P done s' ->
       exists s'', go_for body rest s' = Ret s'' /\ P l s'').
  { intros H. by apply (H l [] s). }
  induction rest as [|x rest IH]; intros done s' -> HP; simpl.
  { rewrite app_nil_r. eauto. }
  destruct (Hstep done x rest s') as (s'' & -> & HP'); [done..|]. simpl.
  apply (IH (done ++ [x])); [by rewrite <- app_assoc|done].
Qed.

Lemma go_map_length {A B S} (f : A -> GoM S B) l s ys s' :
  go_map f l s = Ret (ys, s') -> length ys = length l.
Proof.
  revert s ys s'. induction l as [|x l IH]; intros s ys s'; simpl.
  { intros [= <- <-]. done. }
  intros (y & s1 & _ & H)%gbind_ret. apply gbind_ret in H as (ys' & s2 & H & H').
  apply gret_ret in H' as [-> ->]. simpl. f_equal. by eapply IH.
Qed.

(** A loop whose body always returns returns, and relates each element to its
    result. *)
Lemma go_map_total {A B S} (I : S -> Prop) (Q : A -> B -> Prop) (f : A -> GoM S B) l s :
  I s ->
  (forall x s, x ∈ l -> I s -> exists y s', f x s = Ret (y, s') /\ Q x y /\ I s') ->
  exists ys s', go_map f l s = Ret (ys, s') /\ Forall2 Q l ys /\ I s'.
Proof.
  revert s. induction l as [|x l IH]; intros s Hs Hf; simpl.
  { eexists _, _. split_and!; [done|constructor|done]. }
  destruct (Hf x s) as (y & s1 & Hy & HQ & Hs1); [set_solver|done|].
  destruct (IH s1) as (ys & s2 & Hys & HQs & Hs2); [done|set_solver|].
  exists (y :: ys), s2. split_and!; [|by constructor|done].
  by rewrite (gbind_eq _ _ _ _ _ Hy), (gbind_eq _ _ _ _ _ Hys).
Qed.

(** A loop over a concatenation is one loop after the other. *)
Lemma go_map_app_ret {A B S} (f : A -> GoM S B) l1 l2 s ys s' :
  go_map f (l1 ++ l2) s = Ret (ys, s') <->
  exists ys1 s1 ys2, go_map f l1 s = Ret (ys1, s1) /\ go_map f l2 s1 = Ret (ys2, s') /\ ys = ys1 ++ ys2.
Proof.
  revert s ys. induction l1 as [|x l1 IH]; intros s ys; cbn [app go_map].
  { split; [intros H; by eexists [], s, ys|]. intros (ys1 & s1 & ys2 & [= <- <-] & H & ->). done. }
  rewrite gbind_ret. split.
  - intros (y & s1 & Hy & H). apply gbind_ret in H as (ys' & s2 & H & [-> ->]%gret_ret).
    apply IH in H as (ys1 & s3 & ys2 & H1 & H2 & ->).
    exists (y :: ys1), s3, ys2. split_and!; [|done|done].
    by rewrite (gbind_eq _ _ _ _ _ Hy), (gbind_eq _ _ _ _ _ H1).
  - intros (ys1 & s1 & ys2 & (y & s2 & Hy & H1)%gbind_ret & H2 & ->).
    apply gbind_ret in H1 as (ys1' & s3 & H1 & [-> ->]%gret_ret).
    exists y, s2. split; [done|]. rewrite (gbind_eq _ _ _ (ys1' ++ ys2) s'); [done|].
    apply IH. by eexists _, _, _.
Qed.

Lemma go_map_fmap {A A' B S} (f : A' -> GoM S B) (h : A -> A') l s :
  go_map f (h <$> l) s = go_map (fun x => f (h x)) l s.
Proof.
  revert s. induction l as [|x l IH]; intros s; cbn; [done|].
  unfold gbind. destruct (f (h x) s) as [[y s1]| | |]; [|done..]. by rewrite IH.
Qed.

Lemma go_map_ext {A B S} (f f' : A -> GoM S B) l s :
  (forall x, x ∈ l -> f x = f' x) -> go_map f l s = go_map f' l s.
Proof.
  revert s. induction l as [|x l IH]; intros s Hf; cbn; [done|].
  rewrite (Hf x) by set_solver. unfold gbind. destruct (f' x s) as [[y s1]| | |]; [|done..].
  rewrite IH by set_solver. done.
Qed.

(** A loop whose body only returns a value. *)
Lemma go_map_pure {A B S} (f : A -> GoM S B) (h : A -> B) l s :
  (forall x, x ∈ l -> f x s = Ret (h x, s)) -> go_map f l s = Ret (h <$> l, s).
Proof.
  induction l as [|x l IH]; intros Hf; cbn; [done|].
  rewrite (gbind_eq _ _ _ _ _ (Hf x ltac:(set_solver))), (gbind_eq _ _ _ (h <$> l) s); [done|].
  apply IH. set_solver.
Qed.

(** What a loop body keeps, the loop keeps. *)
Lemma go_map_keeps {A B S} (I : S -> S -> Prop) (f : A -> GoM S B) l s ys s' :
  (forall s, I s s) -> (forall s1 s2 s3, I s1 s2 -> I s2 s3 -> I s1 s3) ->
  (forall x s y s', f x s = Ret (y, s') -> I s s') ->
  go_map f l s = Ret (ys, s') -> I s s'.
Proof.
  intros Hrefl Htrans Hf. revert s ys. induction l as [|x l IH]; intros s ys; cbn.
  { intros [= _ <-]. apply Hrefl. }
  intros (y & s1 & Hy & H)%gbind_ret. apply gbind_ret in H as (ys' & s2 & H & [-> ->]%gret_ret).
  eauto.
Qed.

Lemma go_each_keeps {A S} (I : S -> S -> Prop) `{!PreOrder I} (f : A -> GoM S unit) l s u s' :
  (forall x s u s', f x s = Ret (u, s') -> I s s') -> go_each f l s = Ret (u, s') -> I s s'.
Proof.
  intros Hf. revert s. induction l as [|x l IH]; intros s; cbn.
  { intros [= _ <-]. done. }
  intros (v & s1 & Hx & H)%gbind_ret. etrans; [by eapply Hf|by apply IH].
Qed.

(** ** List lemmas *)

Lemma filter_none {A} (P : A -> Prop) `{forall x, Decision (P x)} (l : list A) :
  (forall x, x ∈ l -> ~ P x) -> filter P l = [].
Proof.
  induction l as [|x l IH]; intros Hn; [done|].
  rewrite filter_cons_False by set_solver. apply IH. set_solver.
Qed.

Lemma filter_all {A} (P : A -> Prop) `{forall x, Decision (P x)} (l : list A) :
  Forall P l -> filter P l = l.
Proof. induction 1 as [|x l Hx _ IH]; [done|]. by rewrite filter_cons_True, IH. Qed.

Lemma seqZ_snoc n : seqZ 0 (Z.of_nat (S n)) = seqZ 0 (Z.of_nat n) ++ [Z.of_nat n].
Proof. rewrite Nat2Z.inj_succ, <- Z.add_1_r, seqZ_app by lia. f_equal. Qed.

(** ** Byte and integer lemmas *)

Lemma Z_of_byte_range b : 0 <= Z_of_byte b < 256.
Proof. unfold Z_of_byte. pose proof (Byte.to_N_bounded b). lia. Qed.

Lemma byte_of_Z_of_byte b : byte_of_Z (Z_of_byte b) = b.
Proof.
  unfold byte_of_Z. rewrite Z.mod_small by apply Z_of_byte_range.
  unfold Z_of_byte. by rewrite N2Z.id, Byte.of_to_N.
Qed.

Lemma Z_of_byte_of_Z z : Z_of_byte (byte_of_Z z) = z mod 256.
Proof.
  unfold byte_of_Z, Z_of_byte.
  pose proof (Z.mod_pos_bound z 256 ltac:(lia)).
  destruct (Byte.of_N (Z.to_N (z mod 256))) as [b|] eqn:E; simpl.
  - apply Byte.to_of_N in E. lia.
  - apply Byte.of_N_None_iff in E. lia.
Qed.

#[export] Instance Z_of_byte_inj : Inj (=) (=) Z_of_byte.
Proof. intros x y H. by rewrite <- (byte_of_Z_of_byte x), H, byte_of_Z_of_byte. Qed.

Lemma u32_range z : 0 <= u32 z < 2 ^ 32.
Proof. apply Z.mod_pos_bound. lia. Qed.

Lemma u32_small z : 0 <= z < 2 ^ 32 -> u32 z = z.
Proof. apply Z.mod_small. Qed.

Lemma i64_small z : - 2 ^ 63 <= z < 2 ^ 63 -> i64 z = z.
Proof. intros. unfold i64. rewrite Z.mod_small; lia. Qed.

(** ** Slice lemmas *)

Lemma zlen_nonneg {A} (l : list A) : 0 <= zlen l.
Proof. unfold zlen. lia. Qed.

Lemma zlen_app {A} (l k : list A) : zlen (l ++ k) = zlen l + zlen k.
Proof. unfold zlen. rewrite length_app. lia. Qed.

Lemma go_index_lookup {A} (l : list A) (i : nat) x :
  l !! i = Some x -> go_index l (Z.of_nat i) = Ret x.
Proof. intros H. unfold go_index. rewrite decide_True by lia. by rewrite Nat2Z.id, H. Qed.

Lemma go_index_ret {A} (l : list A) i x :
  go_index l i = Ret x <-> 0 <= i /\ l !! Z.to_nat i = Some x.
Proof. unfold go_index. case_decide; [|naive_solver lia]. destruct (l !! Z.to_nat i); naive_solver. Qed.

Lemma go_store_ret {A} (l : list A) i x l' :
  go_store l i x = Ret l' <-> 0 <= i < zlen l /\ l' = <[Z.to_nat i := x]> l.
Proof. unfold go_store. case_decide; naive_solver. Qed.

Lemma go_slice_ret {A} (l : list A) lo hi l' :
  go_slice l lo hi = Ret l' <->
  (0 <= lo <= hi /\ hi <= zlen l) /\ l' = take (Z.to_nat (hi - lo)) (drop (Z.to_nat lo) l).
Proof. unfold go_slice. case_decide; naive_solver. Qed.

Lemma go_make_ret {A} (zero : A) n l :
  go_make zero n = Ret l <-> 0 <= n /\ l = replicate (Z.to_nat n) zero.
Proof. unfold go_make. case_decide; naive_solver. Qed.

Lemma go_copy_length {A} (dst src : list A) : length (go_copy dst src) = length dst.
Proof. unfold go_copy. rewrite length_app, length_take, length_drop. lia. Qed.

Lemma go_copy_full {A} (dst src : list A) :
  length src = length dst -> go_copy dst src = src.
Proof.
  intros H. unfold go_copy. rewrite <- H, drop_ge, app_nil_r by lia. by apply firstn_all.
Qed.

#[export] Hint Rewrite @zlen_app @length_app @length_take @length_drop @length_replicate
  @length_insert @length_fmap @go_copy_length : go.
#[export] Hint Resolve Z_of_byte_range u32_range zlen_nonneg : go.

(** ** Inevitability

    [P] is reached on every run: it holds now, or there is a step and after every
    step it is reached. *)

Inductive inevitably {S} (step : S -> S -> Prop) (P : S -> Prop) : S -> Prop :=
| inev_now s : P s -> inevitably step P s
| inev_later s s' : step s s' -> (forall s', step s s' -> inevitably step P s') -> inevitably step P s.

(** Under an invariant, steps that decrease a measure and are only missing where [P]
    holds. *)
Lemma inevitably_measure {S} (step : S -> S -> Prop) (P : S -> Prop) (m : S -> nat) (I : S -> Prop) s :
  (forall s s', I s -> step s s' -> I s') ->
  (forall s s', I s -> step s s' -> (m s' < m s)%nat) ->
  (forall s, I s -> P s \/ exists s', step s s') ->
  I s -> inevitably step P s.
Proof.
  intros HI Hm Hp. induction (Nat.lt_wf_0_projected m s) as [s _ IH]. intros Hs.
  destruct (Hp s Hs) as [?|[s' Hs']]; [by apply inev_now|].
  apply (inev_later _ _ s s' Hs'). intros s2 H2. apply IH; [by apply Hm|by eapply HI].
Qed.

(** What is reached inevitably is reached by steps. *)
Lemma inevitably_reached {S} (step : S -> S -> Prop) (P Q : S -> Prop) s :
  inevitably step P s -> (forall s', rtc step s s' -> P s' -> Q s') -> inevitably step Q s.
Proof.
  induction 1 as [s Hs|s s' Hs _ IH]; intros HQ; [apply inev_now, HQ; [done|exact Hs]|].
  apply (inev_later _ _ s s' Hs). intros s2 H2. apply IH; [done|].
  intros s3 H3. apply HQ. by eapply rtc_l.
Qed.

(** ** Simulation

    Two computations, on states related by [I], that return results related by [Q]
    and states again related by [I], or panic with the same message, or both block,
    or both run out of fuel. *)

Definition osim {A1 A2 S1 S2} (Q : A1 -> A2 -> Prop) (I : S1 -> S2 -> Prop)
    (o1 : outcome (A1 * S1)) (o2 : outcome (A2 * S2)) : Prop :=
  match o1, o2 with
  | Ret (a1, s1), Ret (a2, s2) => Q a1 a2 /\ I s1 s2
  | Panic p1, Panic p2 => p1 = p2
  | Block, Block | NoFuel, NoFuel => True
  | _, _ => False
  end.

Definition gsim {A1 A2 S1 S2} (Q : A1 -> A2 -> Prop) (I : S1 -> S2 -> Prop)
    (m1 : GoM S1 A1) (m2 : GoM S2 A2) : Prop :=
  forall s1 s2, I s1 s2 -> osim Q I (m1 s1) (m2 s2).

Section Simulation.
Context {S1 S2 : Type} (I : S1 -> S2 -> Prop).

Lemma gsim_ret {A1 A2} (Q : A1 -> A2 -> Prop) a1 a2 : Q a1 a2 -> gsim Q I (gret a1) (gret a2).
Proof. intros HQ s1 s2 Hs. by split. Qed.

Lemma gsim_lift {A} (o : outcome A) : gsim eq I (glift o) (glift o).
Proof. intros s1 s2 Hs. unfold glift. by destruct o; cbn. Qed.

Lemma gsim_bind {A1 A2 B1 B2} (Q : A1 -> A2 -> Prop) (Q' : B1 -> B2 -> Prop) m1 m2 k1 k2 :
  gsim Q I m1 m2 -> (forall a1 a2, Q a1 a2 -> gsim Q' I (k1 a1) (k2 a2)) -> gsim Q' I (gbind m1 k1) (gbind m2 k2).
Proof.
  intros Hm Hk s1 s2 Hs. unfold gbind. specialize (Hm s1 s2 Hs). unfold osim in Hm.
  destruct (m1 s1) as [[a1 t1]| | |], (m2 s2) as [[a2 t2]| | |]; try done. destruct Hm as [HQ Ht]. by apply Hk.
Qed.

Lemma gsim_bind_eq {A B1 B2} (Q' : B1 -> B2 -> Prop) (m1 : GoM S1 A) (m2 : GoM S2 A) k1 k2 :
  gsim eq I m1 m2 -> (forall a, gsim Q' I (k1 a) (k2 a)) -> gsim Q' I (gbind m1 k1) (gbind m2 k2).
Proof. intros Hm Hk. eapply gsim_bind; [exact Hm|]. intros a ? <-. apply Hk. Qed.

Lemma gsim_on_ok {A B} (r : result A) w (k1 : A -> GoM S1 (result B)) (k2 : A -> GoM S2 (result B)) :
  (forall a, gsim eq I (k1 a) (k2 a)) -> gsim eq I (on_ok r w k1) (on_ok r w k2).
Proof. intros Hk. destruct r; cbn; [apply Hk|by apply gsim_ret]. Qed.

Lemma gsim_map {A B} (f1 : A -> GoM S1 B) (f2 : A -> GoM S2 B) l :
  (forall x, gsim eq I (f1 x) (f2 x)) -> gsim eq I (go_map f1 l) (go_map f2 l).
Proof.
  intros Hf. induction l as [|x l IH]; cbn [go_map]; [by apply gsim_ret|].
  apply gsim_bind_eq; [apply Hf|]. intros y. apply gsim_bind_eq; [exact IH|]. intros ys. by apply gsim_ret.
Qed.

Lemma gsim_zoom {T1 T2 A1 A2} (J : T1 -> T2 -> Prop) (Q : A1 -> A2 -> Prop) get1 set1 get2 set2 m1 m2 :
  (forall s1 s2, I s1 s2 -> J (get1 s1) (get2 s2)) ->
  (forall s1 s2 t1 t2, I s1 s2 -> J t1 t2 -> I (set1 t1 s1) (set2 t2 s2)) ->
  gsim Q J m1 m2 -> gsim Q I (gzoom get1 set1 m1) (gzoom get2 set2 m2).
Proof.
  intros Hget Hset Hm s1 s2 Hs. unfold gzoom. specialize (Hm _ _ (Hget _ _ Hs)). unfold osim in Hm.
  destruct (m1 (get1 s1)) as [[a1 t1]| | |], (m2 (get2 s2)) as [[a2 t2]| | |]; try done.
  destruct Hm as [HQ Ht]. split; [done|]. by apply Hset.
Qed.

End Simulation.

Lemma gsim_refl {S A} (m : GoM S A) : gsim eq eq m m.
Proof. intros s ? <-. unfold osim. by destruct (m s) as [[a s']| | |]. Qed.

Lemma gsim_run {S1 S2 A} (I : S1 -> S2 -> Prop) (m1 : GoM S1 A) m2 s1 s2 a s2' :
  gsim eq I m1 m2 -> I s1 s2 -> m2 s2 = Ret (a, s2') -> exists s1', m1 s1 = Ret (a, s1') /\ I s1' s2'.
Proof.
  intros Hm Hs H2. specialize (Hm s1 s2 Hs). rewrite H2 in Hm. unfold osim in Hm.
  destruct (m1 s1) as [[a1 s1']| | |]; try done. destruct Hm as [<- ?]. eauto.
Qed.

Lemma gsim_panic {S1 S2 A} (I : S1 -> S2 -> Prop) (m1 : GoM S1 A) (m2 : GoM S2 A) s1 s2 p :
  gsim eq I m1 m2 -> I s1 s2 -> m2 s2 = Panic p -> m1 s1 = Panic p.
Proof.
  intros Hm Hs H2. specialize (Hm s1 s2 Hs). rewrite H2 in Hm. unfold osim in Hm.
  destruct (m1 s1) as [[a1 s1']| | |]; try done. by subst.
Qed.

(** A relation that says that the states are equal and satisfy [K]: a simulation for
    it is a computation that keeps [K]. *)
Definition keeping {S} (K : S -> Prop) : S -> S -> Prop := fun s s' => s = s' /\ K s.

Lemma keeping_run {S A} (K : S -> Prop) (m : GoM S A) s a s' :
  gsim eq (keeping K) m m -> K s -> m s = Ret (a, s') -> K s'.
Proof. intros Hm Hs E. specialize (Hm s s (conj eq_refl Hs)). rewrite E in Hm. by destruct Hm as (_ & _ & ?). Qed.

Lemma keeping_of {S A} (K : S -> Prop) (m : GoM S A) :
  (forall s a s', K s -> m s = Ret (a, s') -> K s') -> gsim eq (keeping K) m m.
Proof.
  intros Hm s ? [<- Hs]. unfold osim. destruct (m s) as [[a s']| | |] eqn:E; [|done..].
  split; [done|]. split; [done|by eapply Hm].
Qed.

Create HintDb sim.
#[export] Hint Resolve gsim_ret gsim_lift gsim_on_ok gsim_map : sim.

(** Goes through a computation bind by bind. *)
Ltac sim :=
  repeat (cbn beta iota zeta; intros; lazymatch goal with
  | |- gsim eq _ (gret _) (gret _) => apply gsim_ret; reflexivity
  | |- gsim eq _ (glift _) (glift _) => apply gsim_lift
  | |- gsim eq _ (on_ok _ _ _) (on_ok _ _ _) => apply gsim_on_ok
  | |- gsim eq _ (go_map _ _) (go_map _ _) => apply gsim_map
  | |- gsim eq _ (gbind _ _) (gbind _ _) => apply gsim_bind_eq
  | |- gsim eq _ (if decide ?P then _ else _) _ => destruct (decide P)
  | |- gsim eq _ (match ?x with _ => _ end) (match ?x with _ => _ end) => destruct x
  | |- gsim _ _ _ _ => solve [eauto with sim]
  end).
