(* ===== verification/Binary.v ===== *)
(** * Binary: the parts of Go's [encoding/binary] and [bytes] the code uses

    Big-endian integers ([binary.BigEndian]), variable-length signed integers
    ([binary.PutVarint], [binary.Varint]), [bytes.Compare], and the class of
    fixed-size values written by [binary.Write] and read by [binary.Read]. *)

From stdpp Require Import numbers strings gmap list.
From Stdlib Require Import Strings.Byte.
From S2P Require Import Prelude.

(** ** Big-endian integers *)

(** [n] bytes, most significant first; [be_put 4] is [PutUint32], [be_put 8] is
    [PutUint64]. *)
Fixpoint be_put (n : nat) (z : Z) : bytes :=
  match n with
  | O => []
  | S n' => be_put n' (z / 256) ++ [byte_of_Z z]
  end.

(** [Uint32] and [Uint64] on exactly the bytes they read. *)
Definition be_get (bs : bytes) : Z :=
  foldl (fun acc b => acc * 256 + Z_of_byte b) 0 bs.

(** [binary.BigEndian.Uint64(b)] and [Uint32(b)]: read the first 8 (4) bytes,
    with the run-time bounds check. *)
Definition Uint64 (b : bytes) : outcome Z :=
  if decide (8 <= length b)%nat then Ret (be_get (take 8 b)) else Panic index_panic.
Definition Uint32 (b : bytes) : outcome Z :=
  if decide (4 <= length b)%nat then Ret (be_get (take 4 b)) else Panic index_panic.

(** ** [bytes.Compare] *)

Fixpoint bytes_compare (a b : bytes) : Z :=
  match a, b with
  | [], [] => 0
  | [], _ :: _ => -1
  | _ :: _, [] => 1
  | x :: a', y :: b' =>
      if decide (Z_of_byte x < Z_of_byte y) then -1
      else if decide (Z_of_byte y < Z_of_byte x) then 1
      else bytes_compare a' b'
  end.

(** ** Fixed-size values

    [binary.Write] of a struct of fixed-size fields writes the fields one after
    another; [binary.Read] reads exactly [fsize] bytes with [io.ReadFull] and
    ignores the rest of the input. *)

Class Fixed (A : Type) := {
  fsize : nat;
  fvalid : A -> Prop;
  fput : A -> bytes;
  fget : bytes -> A;
  fput_length : forall a, fvalid a -> length (fput a) = fsize;
  fget_fput : forall a, fvalid a -> fget (fput a) = a;
  fput_fget : forall bs, length bs = fsize -> fput (fget bs) = bs;
  fget_valid : forall bs, length bs = fsize -> fvalid (fget bs);
}.

(** [binary.Read(bytes.NewReader(data), binary.BigEndian, &v)]: [io.EOF] on an
    empty input, [io.ErrUnexpectedEOF] on a short one. *)
Definition binary_Read {A} `{Fixed A} (data : bytes) : result A :=
  if decide (fsize (A := A) <= length data)%nat then Ok (fget (take (fsize (A := A)) data))
  else if decide (data = []) then Err "EOF" else Err "unexpected EOF".

(** [binary.Write] never fails on such a value. *)
Definition binary_Write {A} `{Fixed A} (a : A) : bytes := fput a.

(** ** Variable-length integers *)

(** [PutUvarint]: seven bits at a time, least significant first. The argument
    is a [uint64], so ten bytes are enough. *)
Fixpoint put_uvarint_loop (fuel : nat) (x : Z) : bytes :=
  match fuel with
  | O => []
  | S fuel' =>
      if decide (128 <= x) then byte_of_Z (Z.lor (x mod 256) 128) :: put_uvarint_loop fuel' (x / 128)
      else [byte_of_Z x]
  end.
Definition PutUvarint (x : Z) : bytes := put_uvarint_loop 10 (u64 x).

(** [PutVarint]: zig-zag, [ux := uint64(x) << 1; if x < 0 { ux = ^ux }]. *)
Definition zigzag (x : Z) : Z :=
  let ux := u64 (Z.shiftl (u64 x) 1) in
  if decide (x < 0) then 2 ^ 64 - 1 - ux else ux.
Definition PutVarint (x : Z) : bytes := PutUvarint (zigzag x).

(** [Uvarint]: the value and the number of bytes read; [0] bytes when the
    buffer ends too early, a negative number on overflow of 64 bits. *)
Fixpoint uvarint_loop (buf : bytes) (i : Z) (x s : Z) : Z * Z :=
  match buf with
  | [] => (0, 0)
  | b :: buf' =>
      if decide (Z_of_byte b < 128) then
        if decide (9 < i \/ (i = 9 /\ 1 < Z_of_byte b)) then (0, - (i + 1))
        else (Z.lor x (u64 (Z.shiftl (Z_of_byte b) s)), i + 1)
      else uvarint_loop buf' (i + 1) (Z.lor x (u64 (Z.shiftl (Z.land (Z_of_byte b) 127) s))) (s + 7)
  end.
Definition Uvarint (buf : bytes) : Z * Z := uvarint_loop buf 0 0 0.

(** [Varint]: [x := int64(ux >> 1); if ux&1 != 0 { x = ^x }]. *)
Definition Varint (buf : bytes) : Z * Z :=
  let '(ux, n) := Uvarint buf in
  let x := i64 (Z.shiftr ux 1) in
  ((if Z.testbit ux 0 then -1 - x else x), n).

(** ** Lemmas: big-endian integers *)

Lemma be_put_length n z : length (be_put n z) = n.
Proof. revert z. induction n as [|n IH]; intros z; simpl; [done|]. rewrite length_app, IH. simpl. lia. Qed.

Lemma be_get_snoc bs b : be_get (bs ++ [b]) = be_get bs * 256 + Z_of_byte b.
Proof. unfold be_get. by rewrite foldl_app. Qed.

Lemma be_get_put n z : be_get (be_put n z) = z mod 256 ^ Z.of_nat n.
Proof.
  revert z. induction n as [|n IH]; intros z.
  { simpl. by rewrite Z.mod_1_r. }
  cbn [be_put]. rewrite be_get_snoc, IH, Z_of_byte_of_Z, Nat2Z.inj_succ, Z.pow_succ_r by lia.
  rewrite Z.rem_mul_r by (try lia; apply Z.pow_nonzero; lia). lia.
Qed.

Lemma be_get_range bs : 0 <= be_get bs < 256 ^ zlen bs.
Proof.
  induction bs as [|b bs IH] using rev_ind; [done|].
  rewrite be_get_snoc, zlen_app. unfold zlen at 2. cbn.
  rewrite Z.pow_add_r by (auto with go; lia). pose proof (Z_of_byte_range b). lia.
Qed.

Lemma be_put_get bs : be_put (length bs) (be_get bs) = bs.
Proof.
  induction bs as [|b bs IH] using rev_ind; [done|].
  rewrite length_app, be_get_snoc. cbn [length]. rewrite Nat.add_1_r. cbn [be_put].
  pose proof (Z_of_byte_range b).
  rewrite Z.div_add_l, Z.div_small, Z.add_0_r, IH by lia. f_equal. f_equal.
  rewrite <- (byte_of_Z_of_byte b) at 2. unfold byte_of_Z. do 3 f_equal.
  rewrite Z.add_comm, Z_mod_plus_full. done.
Qed.

Lemma be_get_inj bs bs' : length bs = length bs' -> be_get bs = be_get bs' -> bs = bs'.
Proof. intros Hl H. by rewrite <- (be_put_get bs), Hl, H, be_put_get. Qed.

Lemma be_put_inj n z z' :
  0 <= z < 256 ^ Z.of_nat n -> 0 <= z' < 256 ^ Z.of_nat n -> be_put n z = be_put n z' -> z = z'.
Proof.
  intros ?? H. apply (f_equal be_get) in H. rewrite !be_get_put in H.
  by rewrite !Z.mod_small in H.
Qed.

(** ** Lemmas: [bytes.Compare] *)

Lemma bytes_compare_eq a b : bytes_compare a b = 0 <-> a = b.
Proof.
  revert b. induction a as [|x a IH]; intros [|y b]; simpl; try done.
  repeat case_decide; try (split; [done|]; intros [=]; subst; lia).
  rewrite IH. assert (Z_of_byte x = Z_of_byte y) as ->%(inj _) by lia. naive_solver.
Qed.

Lemma bytes_compare_antisym a b : bytes_compare b a = - bytes_compare a b.
Proof.
  revert b. induction a as [|x a IH]; intros [|y b]; simpl; try done.
  repeat case_decide; try lia. apply IH.
Qed.

#[export] Hint Rewrite be_put_length be_get_put : go.

(** ** Lemmas: variable-length integers *)

Lemma continuation_byte y :
  0 <= y < 256 -> 128 <= Z.lor y 128 < 256 /\ Z.land (Z.lor y 128) 127 = y mod 128.
Proof.
  assert (Forall (fun y => 128 <= Z.lor y 128 < 256 /\ Z.land (Z.lor y 128) 127 = y mod 128)
    (seqZ 0 256)) as H.
  { apply Forall_forall. intros z Hz.
    assert (forallb (fun y => (128 <=? Z.lor y 128) && (Z.lor y 128 <? 256) &&
      (Z.land (Z.lor y 128) 127 =? y mod 128)) (seqZ 0 256) = true) as Hb by (vm_compute; reflexivity).
    rewrite forallb_forall in Hb. specialize (Hb z ltac:(by apply list_elem_of_In)). lia. }
  intros Hy. rewrite Forall_forall in H. apply H, elem_of_seqZ. lia.
Qed.

(** Setting bits above the ones in use is addition. *)
Lemma lor_shiftl_add acc b s : 0 <= s -> 0 <= acc < 2 ^ s -> Z.lor acc (Z.shiftl b s) = acc + b * 2 ^ s.
Proof.
  intros Hs Hacc. rewrite <- Z.shiftl_mul_pow2 by done.
  assert (Z.land acc (Z.shiftl b s) = 0) as Hl.
  { apply Z.bits_inj'. intros k Hk. rewrite Z.land_spec, Z.bits_0, Z.shiftl_spec by done.
    destruct (decide (k < s)).
    - rewrite (Z.testbit_neg_r b) by lia. apply andb_false_r.
    - rewrite <- (Z.mod_small acc (2 ^ s)) by done. by rewrite Z.mod_pow2_bits_high by lia. }
  by rewrite <- Z.lxor_lor, Z.add_nocarry_lxor.
Qed.

(** The reader is in step with the writer: after [i] bytes [acc] holds the low
    [7 * i] bits. *)
Lemma uvarint_put fuel x i acc rest :
  0 <= i -> i + Z.of_nat fuel = 10 -> (0 < fuel)%nat ->
  0 <= x -> x * 2 ^ (7 * i) < 2 ^ 64 -> 0 <= acc < 2 ^ (7 * i) ->
  uvarint_loop (put_uvarint_loop fuel x ++ rest) i acc (7 * i) =
  (acc + x * 2 ^ (7 * i), i + zlen (put_uvarint_loop fuel x)).
Proof.
  revert x i acc. induction fuel as [|fuel IH]; intros x i acc Hi Hf Hp Hx Hb Ha; [lia|].
  assert (0 < 2 ^ (7 * i)) as Hpos by (apply Z.pow_pos_nonneg; lia).
  assert (i = 9 -> x < 2) as H9 by (intros ->; change (2 ^ (7 * 9)) with (2 ^ 63) in Hb; lia).
  cbn [put_uvarint_loop]. case_decide as Hx'.
  - destruct (continuation_byte (x mod 256) (Z.mod_pos_bound x 256 eq_refl)) as [Hc Hl].
    cbn [app uvarint_loop]. rewrite Z_of_byte_of_Z, (Z.mod_small (Z.lor _ _)) by lia.
    rewrite decide_False by lia. rewrite Hl.
    assert (x mod 256 mod 128 = x mod 128) as -> by (symmetry; apply Znumtheory.Zmod_div_mod; [lia..|by exists 2]).
    assert (0 <= x mod 128 <= x) by (split; [apply Z.mod_pos_bound; lia | apply Z.mod_le; lia]).
    assert (x = 128 * (x / 128) + x mod 128) by (apply Z.div_mod; lia).
    assert (x mod 128 < 128) by (apply Z.mod_pos_bound; lia).
    assert (u64 (Z.shiftl (x mod 128) (7 * i)) = Z.shiftl (x mod 128) (7 * i)) as ->.
    { unfold u64. rewrite Z.shiftl_mul_pow2 by lia. apply Z.mod_small. nia. }
    rewrite lor_shiftl_add by lia. replace (7 * i + 7) with (7 * (i + 1)) by lia.
    assert (2 ^ (7 * (i + 1)) = 128 * 2 ^ (7 * i)) as Hs.
    { replace (7 * (i + 1)) with (7 + 7 * i) by lia. rewrite Z.pow_add_r by lia. done. }
    assert (fuel <> 0%nat) by (intros ->; lia).
    rewrite IH by (first [lia | rewrite Hs; nia]).
    unfold zlen. cbn [length]. f_equal; [|lia]. rewrite Hs. nia.
  - cbn [app uvarint_loop]. rewrite Z_of_byte_of_Z, Z.mod_small by lia.
    rewrite decide_True by lia. rewrite decide_False by lia.
    assert (u64 (Z.shiftl x (7 * i)) = Z.shiftl x (7 * i)) as ->.
    { unfold u64. rewrite Z.shiftl_mul_pow2 by lia. apply Z.mod_small. nia. }
    rewrite lor_shiftl_add by lia. unfold zlen. cbn [length]. done.
Qed.

Lemma put_uvarint_length fuel x : (length (put_uvarint_loop fuel x) <= fuel)%nat.
Proof.
  revert x. induction fuel as [|fuel IH]; intros x; cbn [put_uvarint_loop]; [done|].
  case_decide; cbn [length]; [specialize (IH (x / 128))|]; lia.
Qed.

Lemma zigzag_range x : - 2 ^ 63 <= x < 2 ^ 63 -> zigzag x = if decide (x < 0) then -2 * x - 1 else 2 * x.
Proof.
  intros Hx. unfold zigzag, u64. rewrite Z.shiftl_mul_pow2 by lia. change (2 ^ 1) with 2.
  case_decide; [|rewrite Z.mod_small; rewrite Z.mod_small; lia].
  assert (x mod 2 ^ 64 = x + 2 ^ 64) as ->.
  { rewrite <- (Z.mod_small (x + 2 ^ 64) (2 ^ 64)) by lia.
    replace (x + 2 ^ 64) with (x + 1 * 2 ^ 64) by lia. by rewrite Z.mod_add. }
  replace ((x + 2 ^ 64) * 2) with ((2 * x + 2 ^ 64) + 1 * 2 ^ 64) by lia.
  rewrite Z.mod_add, Z.mod_small; lia.
Qed.

Lemma PutVarint_length x : (length (PutVarint x) <= 10)%nat.
Proof. apply put_uvarint_length. Qed.

(** [Varint] undoes [PutVarint] on every [int64], whatever follows in the buffer. *)
Lemma Varint_PutVarint x rest :
  - 2 ^ 63 <= x < 2 ^ 63 -> Varint (PutVarint x ++ rest) = (x, zlen (PutVarint x)).
Proof.
  intros Hx. unfold Varint, Uvarint, PutVarint, PutUvarint. rewrite zigzag_range by done.
  set (ux := if decide (x < 0) then _ else _).
  assert (0 <= ux < 2 ^ 64) as Hu by (unfold ux; case_decide; lia).
  unfold u64. rewrite (Z.mod_small ux) by done.
  pose proof (uvarint_put 10 ux 0 0 rest) as H. change (2 ^ (7 * 0)) with 1 in H. change (7 * 0) with 0 in H.
  rewrite H by lia. f_equal. rewrite Z.mul_1_r, Z.add_0_l, Z.bit0_odd, Z.shiftr_div_pow2 by lia.
  change (2 ^ 1) with 2. unfold ux. case_decide.
  - replace (-2 * x - 1) with (1 + 2 * (- x - 1)) by lia. rewrite Z.odd_add_mul_2. cbn [Z.odd].
    rewrite <- (Z.div_unique_pos (1 + 2 * (- x - 1)) 2 (- x - 1) 1), i64_small by lia. lia.
  - replace (2 * x) with (0 + 2 * x) at 1 by lia. rewrite Z.odd_add_mul_2. cbn [Z.odd].
    rewrite <- (Z.div_unique_pos (2 * x) 2 x 0), i64_small by lia. done.
Qed.
