(* ===== verification/Wire.v ===== *)
(** * Wire: message formats, nonces and parameters

    Models [params.go] and [vuvuzela.go]: the sizes, the three structs that
    travel inside onions with their [Marshal] and [Unmarshal], the nonces of the
    two directions and the dialing bucket of a key. *)

From stdpp Require Import numbers strings gmap list.
From Stdlib Require Import Strings.Byte.
From S2P Require Import Prelude Binary.

(** ** Parameters *)

Definition SizeMessage : Z := 240.
Definition TotalDialBuckets : Z := 1.
Definition DefaultServerPort : string := "2718".

(** [box.Overhead], a documented constant of NaCl's box (the authenticator). *)
Definition box_Overhead : Z := 16.

(** [onionbox.Overhead]: one onion layer adds a public key and an authenticator. *)
Definition onionbox_Overhead : Z := 32 + box_Overhead.

(** [unsafe.Sizeof] of the structs below is the sum of their fields' sizes:
    byte arrays and leading [uint32]s need no padding. *)
Definition SizeEncryptedMessage : Z := SizeMessage + box_Overhead.
Definition SizeConvoExchange : Z := 16 + SizeEncryptedMessage.
Definition SizeIntroduction : Z := 4 + 32.
Definition SizeEncryptedIntro : Z := SizeIntroduction + onionbox_Overhead.
Definition SizeDialExchange : Z := 4 + SizeEncryptedIntro.

(** Arrays are byte lists; the [valid] predicates give their lengths. *)
Abbreviation BoxKey := bytes.
Abbreviation DeadDrop := bytes.
Abbreviation Nonce := bytes.

Definition zero_key : BoxKey := replicate 32 x00.

(** ** Structs *)

Record ConvoExchange := mkConvoExchange {
  ce_DeadDrop : DeadDrop;
  ce_EncryptedMessage : bytes;
}.

Record Introduction := mkIntroduction {
  in_Rendezvous : Z;
  in_LongTermKey : BoxKey;
}.

Record DialExchange := mkDialExchange {
  de_Bucket : Z;
  de_EncryptedIntro : bytes;
}.

#[export] Instance ConvoExchange_eq_dec : EqDecision ConvoExchange.
Proof. solve_decision. Defined.
#[export] Instance Introduction_eq_dec : EqDecision Introduction.
Proof. solve_decision. Defined.
#[export] Instance DialExchange_eq_dec : EqDecision DialExchange.
Proof. solve_decision. Defined.

(** [new(ConvoExchange)]: the zero value. *)
Definition zero_exchange : ConvoExchange :=
  mkConvoExchange (replicate 16 x00) (replicate (Z.to_nat SizeEncryptedMessage) x00).

Definition exchange_valid (e : ConvoExchange) : Prop :=
  length (ce_DeadDrop e) = 16%nat /\
  length (ce_EncryptedMessage e) = Z.to_nat SizeEncryptedMessage.
Definition intro_valid (i : Introduction) : Prop :=
  0 <= in_Rendezvous i < 2 ^ 32 /\ length (in_LongTermKey i) = 32%nat.
Definition dial_valid (e : DialExchange) : Prop :=
  0 <= de_Bucket e < 2 ^ 32 /\
  length (de_EncryptedIntro e) = Z.to_nat SizeEncryptedIntro.

Definition exchange_put (e : ConvoExchange) : bytes :=
  ce_DeadDrop e ++ ce_EncryptedMessage e.
Definition exchange_get (bs : bytes) : ConvoExchange :=
  mkConvoExchange (take 16 bs) (drop 16 bs).
Definition intro_put (i : Introduction) : bytes :=
  be_put 4 (in_Rendezvous i) ++ in_LongTermKey i.
Definition intro_get (bs : bytes) : Introduction :=
  mkIntroduction (be_get (take 4 bs)) (drop 4 bs).
Definition dial_put (e : DialExchange) : bytes :=
  be_put 4 (de_Bucket e) ++ de_EncryptedIntro e.
Definition dial_get (bs : bytes) : DialExchange :=
  mkDialExchange (be_get (take 4 bs)) (drop 4 bs).

(** ** Fixed-size instances *)

Lemma be32_range bs : length bs = 4%nat -> 0 <= be_get bs < 2 ^ 32.
Proof. intros H. pose proof (be_get_range bs) as R. unfold zlen in R. by rewrite H in R. Qed.

Lemma be32_roundtrip z : 0 <= z < 2 ^ 32 -> be_get (be_put 4 z) = z.
Proof. intros H. rewrite be_get_put. by apply Z.mod_small. Qed.

Lemma be32_put_get bs rest : length (take 4 bs) = 4%nat -> rest = drop 4 bs ->
  be_put 4 (be_get (take 4 bs)) ++ rest = bs.
Proof. intros H ->. rewrite <- H at 1. by rewrite be_put_get, take_drop. Qed.

#[export] Program Instance exchange_fixed : Fixed ConvoExchange := {|
  fsize := Z.to_nat SizeConvoExchange; fvalid := exchange_valid;
  fput := exchange_put; fget := exchange_get |}.
Next Obligation. intros [d m] [Hd Hm]. unfold exchange_put. by rewrite length_app, Hd, Hm. Qed.
Next Obligation.
  intros [d m] [Hd Hm]. cbn in *. unfold exchange_get, exchange_put. cbn.
  by rewrite <- Hd, take_app_length, drop_app_length.
Qed.
Next Obligation. intros bs _. unfold exchange_put, exchange_get. cbn. apply take_drop. Qed.
Next Obligation. intros bs H. unfold exchange_valid. cbn. rewrite length_take, length_drop, H. done. Qed.

#[export] Program Instance intro_fixed : Fixed Introduction := {|
  fsize := Z.to_nat SizeIntroduction; fvalid := intro_valid;
  fput := intro_put; fget := intro_get |}.
Next Obligation. intros [r k] [_ Hk]. unfold intro_put. by rewrite length_app, be_put_length, Hk. Qed.
Next Obligation.
  intros [r k] [Hr Hk]. unfold intro_get, intro_put. cbn [in_Rendezvous in_LongTermKey] in *.
  rewrite take_app_length', drop_app_length' by (by rewrite be_put_length). by rewrite be32_roundtrip.
Qed.
Next Obligation.
  intros bs H. unfold intro_put, intro_get. cbn [in_Rendezvous in_LongTermKey].
  apply be32_put_get; [|done]. by rewrite length_take, H.
Qed.
Next Obligation.
  intros bs H. split; cbn [in_Rendezvous in_LongTermKey intro_get].
  - apply be32_range. by rewrite length_take, H.
  - by rewrite length_drop, H.
Qed.

#[export] Program Instance dial_fixed : Fixed DialExchange := {|
  fsize := Z.to_nat SizeDialExchange; fvalid := dial_valid;
  fput := dial_put; fget := dial_get |}.
Next Obligation. intros [b c] [_ Hc]. unfold dial_put. by rewrite length_app, be_put_length, Hc. Qed.
Next Obligation.
  intros [b c] [Hb Hc]. unfold dial_get, dial_put. cbn [de_Bucket de_EncryptedIntro] in *.
  rewrite take_app_length', drop_app_length' by (by rewrite be_put_length). by rewrite be32_roundtrip.
Qed.
Next Obligation.
  intros bs H. unfold dial_put, dial_get. cbn [de_Bucket de_EncryptedIntro].
  apply be32_put_get; [|done]. by rewrite length_take, H.
Qed.
Next Obligation.
  intros bs H. split; cbn [de_Bucket de_EncryptedIntro dial_get].
  - apply be32_range. by rewrite length_take, H.
  - by rewrite length_drop, H.
Qed.

(** ** Marshal and Unmarshal *)

Definition ConvoExchange_Marshal (e : ConvoExchange) : bytes := binary_Write e.
Definition ConvoExchange_Unmarshal (data : bytes) : result ConvoExchange := binary_Read data.
Definition Introduction_Marshal (i : Introduction) : bytes := binary_Write i.
Definition Introduction_Unmarshal (data : bytes) : result Introduction := binary_Read data.
Definition DialExchange_Marshal (e : DialExchange) : bytes := binary_Write e.
Definition DialExchange_Unmarshal (data : bytes) : result DialExchange := binary_Read data.

(** ** Nonces and buckets *)

(** [var nonce [24]byte; PutUint32(nonce[0:4], round); nonce[4] = 0]. *)
Definition ForwardNonce (round : Z) : Nonce :=
  <[4%nat := x00]> (be_put 4 round ++ drop 4 (replicate 24 x00)).
Definition BackwardNonce (round : Z) : Nonce :=
  <[4%nat := x01]> (be_put 4 round ++ drop 4 (replicate 24 x00)).

(** [binary.BigEndian.Uint32(key[28:32]) % buckets]. *)
Definition KeyDialBucket (key : BoxKey) (buckets : Z) : outcome Z :=
  b ← go_slice key 28 32;
  x ← Uint32 b;
  if decide (buckets = 0) then Panic divide_panic else Ret (x mod buckets).

(** ** Lemmas shared by the components *)

Lemma Read_Write {A} `{Fixed A} (a : A) rest :
  fvalid a -> binary_Read (binary_Write a ++ rest) = Ok a.
Proof.
  intros Hv. unfold binary_Read, binary_Write. pose proof (fput_length a Hv) as Hl.
  rewrite decide_True by (rewrite length_app, Hl; lia).
  by rewrite <- Hl, take_app_length, fget_fput.
Qed.

Lemma Write_Read {A} `{Fixed A} data (a : A) :
  length data = fsize (A := A) -> binary_Read data = Ok a -> binary_Write a = data /\ fvalid a.
Proof.
  intros Hl. unfold binary_Read, binary_Write. rewrite Hl, decide_True by done.
  rewrite <- Hl, firstn_all. intros [= <-]. split; [by apply fput_fget | by apply fget_valid].
Qed.

Lemma Read_short {A} `{Fixed A} data :
  (length data < fsize (A := A))%nat -> exists e, binary_Read (A := A) data = Err e.
Proof. intros Hl. unfold binary_Read. rewrite decide_False by lia. case_decide; eauto. Qed.

Lemma ForwardNonce_length r : length (ForwardNonce r) = 24%nat.
Proof. unfold ForwardNonce. by rewrite length_insert, length_app, be_put_length. Qed.
Lemma BackwardNonce_length r : length (BackwardNonce r) = 24%nat.
Proof. unfold BackwardNonce. by rewrite length_insert, length_app, be_put_length. Qed.

Lemma nonce_shape r b :
  <[4%nat := b]> (be_put 4 r ++ drop 4 (replicate 24 x00)) = be_put 4 r ++ b :: replicate 19 x00.
Proof. rewrite insert_app_r_alt by (rewrite be_put_length; lia). by rewrite be_put_length. Qed.

#[export] Hint Rewrite ForwardNonce_length BackwardNonce_length : go.

(** ** Theorems *)

(** The wire format of a conversation exchange is lossless in both
    directions: a valid exchange marshals to exactly [SizeConvoExchange] bytes
    (dead drop first) and unmarshals to itself, whatever follows it; and every
    [SizeConvoExchange] bytes are the image of exactly one valid exchange. *)
Lemma ConvoExchange_roundtrip (e : ConvoExchange) (rest data : bytes) :
  exchange_valid e ->
  zlen data = SizeConvoExchange ->
  (zlen (ConvoExchange_Marshal e) = SizeConvoExchange /\
   take 16 (ConvoExchange_Marshal e) = ce_DeadDrop e /\
   ConvoExchange_Unmarshal (ConvoExchange_Marshal e ++ rest) = Ok e) /\
  exists e', ConvoExchange_Unmarshal data = Ok e' /\ exchange_valid e' /\
             ConvoExchange_Marshal e' = data.
Proof.
  intros Hv Hd. assert (length data = fsize (A := ConvoExchange)) as Hd'
    by (unfold zlen in Hd; cbn; lia).
  split; [split_and!|].
  - unfold zlen, ConvoExchange_Marshal, binary_Write. by rewrite (@fput_length _ exchange_fixed e Hv).
  - destruct Hv as [Hv _]. unfold ConvoExchange_Marshal, binary_Write. cbn. unfold exchange_put.
    by rewrite <- Hv, take_app_length.
  - by apply Read_Write.
  - unfold ConvoExchange_Unmarshal, ConvoExchange_Marshal.
    destruct (binary_Read data) as [e'|] eqn:E.
    + exists e'. destruct (Write_Read _ _ Hd' E). done.
    + unfold binary_Read in E. rewrite decide_True in E by lia. done.
Qed.

Lemma ConvoExchange_roundtrip_witness :
  exchange_valid zero_exchange /\ zlen (replicate 272 x01) = SizeConvoExchange /\
  ConvoExchange_Unmarshal (ConvoExchange_Marshal zero_exchange ++ [x07]) = Ok zero_exchange.
Proof.
  assert (exchange_valid zero_exchange) as H by (split; reflexivity).
  assert (zlen (replicate 272 x01) = SizeConvoExchange) as H' by reflexivity.
  split_and!; [done|done|].
  exact (proj2 (proj2 (proj1 (ConvoExchange_roundtrip zero_exchange [x07] (replicate 272 x01) H H')))).
Defined.

(** Nonces never repeat: over all rounds ([uint32]) the forward and backward
    nonces are pairwise distinct, so the two directions of one round and
    different rounds never encrypt under the same nonce. *)
Lemma nonces_distinct (r r' : Z) :
  0 <= r < 2 ^ 32 -> 0 <= r' < 2 ^ 32 ->
  (ForwardNonce r = ForwardNonce r' <-> r = r') /\
  (BackwardNonce r = BackwardNonce r' <-> r = r') /\
  ForwardNonce r <> BackwardNonce r' /\
  length (ForwardNonce r) = 24%nat /\ length (BackwardNonce r) = 24%nat.
Proof.
  intros Hr Hr'. unfold ForwardNonce, BackwardNonce. rewrite !nonce_shape.
  assert (forall b b', be_put 4 r ++ b :: replicate 19 x00 = be_put 4 r' ++ b' :: replicate 19 x00 ->
          r = r' /\ b = b') as Hinj.
  { intros b b' [H1 [= H2]]%app_inj_1; [|by rewrite !be_put_length].
    split; [|done]. by apply (be_put_inj 4). }
  split_and!; [by split; [intros [? _]%Hinj | intros ->] | by split; [intros [? _]%Hinj | intros ->]
    | intros [_ [=]]%Hinj | ..];
    by rewrite length_app, be_put_length.
Qed.

Lemma nonces_distinct_witness : ForwardNonce 7 <> BackwardNonce 7.
Proof. apply (nonces_distinct 7 7); lia. Defined.
