(* ===== verification/Sha256.v ===== *)
(** * Sha256: SHA-256 and HMAC

    The parts of Go's [crypto/sha256] and [crypto/hmac] that
    [vuvuzela-client/conversation.go] uses to derive dead drops, after FIPS 180-4
    and RFC 2104: executable, on 32-bit words kept as integers. *)

From stdpp Require Import numbers strings gmap list.
From Stdlib Require Import Strings.Byte.
From S2P Require Import Prelude Binary.

(** ** Words *)

Definition rotr (n : Z) (x : Z) : Z := Z.lor (Z.shiftr x n) (u32 (Z.shiftl x (32 - n))).
Definition not32 (x : Z) : Z := 2 ^ 32 - 1 - x.

Definition Ch (x y z : Z) : Z := Z.lxor (Z.land x y) (Z.land (not32 x) z).
Definition Maj (x y z : Z) : Z := Z.lxor (Z.lxor (Z.land x y) (Z.land x z)) (Z.land y z).
Definition Sigma0 (x : Z) : Z := Z.lxor (Z.lxor (rotr 2 x) (rotr 13 x)) (rotr 22 x).
Definition Sigma1 (x : Z) : Z := Z.lxor (Z.lxor (rotr 6 x) (rotr 11 x)) (rotr 25 x).
Definition sigma0 (x : Z) : Z := Z.lxor (Z.lxor (rotr 7 x) (rotr 18 x)) (Z.shiftr x 3).
Definition sigma1 (x : Z) : Z := Z.lxor (Z.lxor (rotr 17 x) (rotr 19 x)) (Z.shiftr x 10).

(** The constants are the first 32 bits of the fractional parts of the cube roots
    of the first 64 primes, and of the square roots of the first 8. *)
Definition is_prime (p : Z) : bool :=
  (2 <=? p) && forallb (fun d => negb (p mod d =? 0)) (seqZ 2 (Z.sqrt p - 1)).
Definition first_primes (n : nat) : list Z := take n (List.filter is_prime (seqZ 2 400)).

(** The largest [r] with [r ^ 3 <= x], bit by bit. *)
Fixpoint cube_root (bits : nat) (x r : Z) : Z :=
  match bits with
  | O => r
  | S bits' =>
      let r' := r + 2 ^ Z.of_nat bits' in
      cube_root bits' x (if r' ^ 3 <=? x then r' else r)
  end.

Definition sha_K : list Z := Eval vm_compute in
  (fun p => u32 (cube_root 40 (p * 2 ^ 96) 0)) <$> first_primes 64.
Definition sha_H0 : list Z := Eval vm_compute in
  (fun p => u32 (Z.sqrt (p * 2 ^ 64))) <$> first_primes 8.

(** ** One block *)

(** The message schedule, latest word first, extended by one word. *)
Definition schedule_step (w : list Z) : list Z :=
  u32 (sigma1 (nth 1 w 0) + nth 6 w 0 + sigma0 (nth 14 w 0) + nth 15 w 0) :: w.
Definition schedule (words : list Z) : list Z := reverse (Nat.iter 48 schedule_step (reverse words)).

Definition sha_round (h : list Z) (kw : Z * Z) : list Z :=
  match h with
  | [a; b; c; d; e; f; g; hh] =>
      let t1 := hh + Sigma1 e + Ch e f g + kw.1 + kw.2 in
      let t2 := Sigma0 a + Maj a b c in
      [u32 (t1 + t2); a; b; c; u32 (d + t1); e; f; g]
  | _ => h
  end.

(** Cutting a list into pieces of [n]; [fuel] pieces at most. *)
Fixpoint pieces {A} (fuel n : nat) (l : list A) : list (list A) :=
  match fuel with
  | O => []
  | S fuel' => match l with [] => [] | _ => take n l :: pieces fuel' n (drop n l) end
  end.

Definition compress (h : list Z) (block : bytes) : list Z :=
  let w := schedule (be_get <$> pieces 16 4 block) in
  zip_with (fun x y => u32 (x + y)) h (foldl sha_round h (zip sha_K w)).

(** ** The hash *)

(** A one bit, zeroes up to 8 bytes before the end of a block, and the length in bits. *)
Definition sha_pad (m : bytes) : bytes :=
  m ++ x80 :: replicate (Z.to_nat ((55 - zlen m) mod 64)) x00 ++ be_put 8 (8 * zlen m).

Definition Sum256 (m : bytes) : bytes :=
  let p := sha_pad m in
  foldl compress sha_H0 (pieces (length p) 64 p) ≫= be_put 4.

(** ** HMAC *)

(** [hmac.New(sha256.New, key)], [Write(m)], [Sum(nil)]. *)
Definition hmac_sha256 (key m : bytes) : bytes :=
  let key := if decide (64 < zlen key) then Sum256 key else key in
  let key := key ++ replicate (64 - length key) x00 in
  let mask (c : Z) := (fun b => byte_of_Z (Z.lxor (Z_of_byte b) c)) <$> key in
  Sum256 (mask 0x5c ++ Sum256 (mask 0x36 ++ m)).

(** ** Lemmas *)

Lemma sha_round_length h kw : length (sha_round h kw) = length h.
Proof. unfold sha_round. by destruct h as [|? [|? [|? [|? [|? [|? [|? [|? [|]]]]]]]]]. Qed.

Lemma sha_rounds_length l h : length (foldl sha_round h l) = length h.
Proof. revert h. induction l as [|kw l IH]; intros h; cbn; [done|]. by rewrite IH, sha_round_length. Qed.

Lemma compress_length h block : length (compress h block) = length h.
Proof. unfold compress. rewrite length_zip_with, sha_rounds_length. lia. Qed.

Lemma compress_blocks_length l h : length (foldl compress h l) = length h.
Proof. revert h. induction l as [|b l IH]; intros h; cbn; [done|]. by rewrite IH, compress_length. Qed.

Lemma Sum256_length m : length (Sum256 m) = 32%nat.
Proof.
  unfold Sum256. set (l := foldl _ _ _).
  assert (length l = 8%nat) as Hl by apply compress_blocks_length. clearbody l.
  assert (forall l, length (l ≫= be_put 4) = (4 * length l)%nat) as H.
  { clear. induction l as [|x l IH]; [done|]. rewrite bind_cons, length_app, be_put_length, IH. cbn [length]. lia. }
  by rewrite H, Hl.
Qed.

Lemma hmac_sha256_length key m : length (hmac_sha256 key m) = 32%nat.
Proof. apply Sum256_length. Qed.

(** ** Test vectors of FIPS 180-4 and RFC 4231 *)

Example sha256_abc :
  be_get (Sum256 [x61; x62; x63]) = 0xba7816bf8f01cfea414140de5dae2223b00361a396177a9cb410ff61f20015ad.
Proof. vm_compute. reflexivity. Qed.

Example sha256_empty :
  be_get (Sum256 []) = 0xe3b0c44298fc1c149afbf4c8996fb92427ae41e4649b934ca495991b7852b855.
Proof. vm_compute. reflexivity. Qed.

Example hmac_vector_1 :
  be_get (hmac_sha256 (replicate 20 x0b) [x48; x69; x20; x54; x68; x65; x72; x65]) =
  0xb0344c61d8db38535ca8afceaf0bf12b881dc200c9833da726e9376c2e32cff7.
Proof. vm_compute. reflexivity. Qed.
