(* ===== verification/Rand.v ===== *)
(** * Rand: sources of random bytes

    The interface [io.Reader] as the code relies on it, and the generator of
    [rand/salsa20rand.go]: [Salsa20Rand] (a Salsa20 key stream in blocks of 16
    KiB), [MutexReader], [PerCPUReader] and the package's [Read]. The Salsa20
    cipher itself is a parameter. *)

From stdpp Require Import numbers strings gmap list.
From Stdlib Require Import Strings.Byte.
From S2P Require Import Prelude Binary.

(** ** The interface *)

(** [Read(d)] with [len(d) = n]: the [n] bytes stored in [d], or an error, and
    the new state. *)
Class Reader (R : Type) := Read : nat -> GoM R (result bytes).

(** What the code that does not check for short reads relies on: from a state
    that satisfies [reader_ok] every read fills the whole buffer without error. *)
Class FullReader (R : Type) `{Reader R} := {
  reader_ok : R -> Prop;
  read_full : forall n r, reader_ok r ->
    exists bs r', Read n r = Ret (Ok bs, r') /\ length bs = n /\ reader_ok r';
}.

(** [rand.Read(b)], which is [io.ReadFull(Reader, b)]; its callers ignore the
    error, and a buffer that a failed read did not fill keeps its zeroes. *)
Definition rand_Read {R} `{Reader R} (n : nat) : GoM R bytes :=
  (let! r := Read n in
   match r with
   | Ok bs => gret bs
   | Err _ => gret (replicate n x00)
   end)%go.

(** ** Salsa20Rand *)

Section Salsa.

(** [golang.org/x/crypto/salsa20]'s [XORKeyStream(out, in, nonce, key)]: the new
    contents of [out]. *)
Context (XORKeyStream : bytes -> bytes -> bytes -> bytes).

Record Salsa20Rand := mkSalsa20Rand {
  sr_zeroes : bytes;
  sr_buffer : bytes;
  sr_bufferOffset : Z;
  sr_key : bytes;
  sr_nonce : Z;
}.

Definition salsa_n : nat := 16 * 1024.

Definition fill (sr : Salsa20Rand) : Salsa20Rand :=
  let nonce := be_put 8 (sr_nonce sr) in
  mkSalsa20Rand (sr_zeroes sr) (XORKeyStream (sr_zeroes sr) nonce (sr_key sr)) 0
    (sr_key sr) (u64 (sr_nonce sr + 1)).

(** [NewSalsa20Rand(base)]: the key comes from one read of [base]. When that read
    is short without an error, [err.Error()] dereferences nil. *)
Definition NewSalsa20Rand {B} `{Reader B} : GoM B Salsa20Rand :=
  (let! r := Read 32 in
   match r with
   | Ok key =>
       if decide (length key = 32%nat) then
         gret (fill (mkSalsa20Rand (replicate salsa_n x00) (replicate salsa_n x00)
                      (Z.of_nat salsa_n) key 0))
       else glift (Panic nil_panic)
   | Err e => glift (Panic ("NewSalsa20Rand: " +:+ e))
   end)%go.

(** The loop of [Read]: one iteration copies what is left of the buffer or of
    the destination, refilling an empty buffer first. *)
Fixpoint salsa_loop (fuel : nat) (d : nat) (sr : Salsa20Rand) : outcome (bytes * Salsa20Rand) :=
  match d with
  | O => Ret ([], sr)
  | S _ =>
      match fuel with
      | O => NoFuel
      | S fuel' =>
          let sr := if decide (sr_bufferOffset sr = zlen (sr_buffer sr)) then fill sr else sr in
          b ← go_slice (sr_buffer sr) (sr_bufferOffset sr) (zlen (sr_buffer sr));
          let got := take d b in
          let m := length got in
          p ← salsa_loop fuel' (d - m)
                (mkSalsa20Rand (sr_zeroes sr) (sr_buffer sr) (sr_bufferOffset sr + Z.of_nat m)
                   (sr_key sr) (sr_nonce sr));
          Ret (got ++ p.1, p.2)
      end
  end.

(** [d] iterations are enough: each copies at least one byte. *)
Definition Salsa20Rand_Read (d : nat) (sr : Salsa20Rand) : outcome (bytes * Salsa20Rand) :=
  salsa_loop d d sr.

#[export] Instance salsa_reader : Reader Salsa20Rand := fun n sr =>
  p ← Salsa20Rand_Read n sr; Ret (Ok p.1, p.2).

(** Several reads one after another, with their outputs joined. *)
Fixpoint salsa_reads (ds : list nat) (sr : Salsa20Rand) : outcome (bytes * Salsa20Rand) :=
  match ds with
  | [] => Ret ([], sr)
  | d :: ds' =>
      p ← Salsa20Rand_Read d sr;
      q ← salsa_reads ds' p.2;
      Ret (p.1 ++ q.1, q.2)
  end.

(** ** The abstract key stream *)

(** Block [k] (modulo 2^64) of the generator keyed by [key], and byte [p] of the
    stream the blocks make up. *)
Definition salsa_block (key : bytes) (k : Z) : bytes :=
  XORKeyStream (replicate salsa_n x00) (be_put 8 (u64 k)) key.
Definition salsa_stream (key : bytes) (p : Z) : byte :=
  nth (Z.to_nat (p mod Z.of_nat salsa_n)) (salsa_block key (p / Z.of_nat salsa_n)) x00.

(** The generator stands at position [p] of the stream of [key]. *)
Definition salsa_at (sr : Salsa20Rand) (key : bytes) (p : Z) : Prop :=
  sr_zeroes sr = replicate salsa_n x00 /\ sr_key sr = key /\
  exists k, sr_nonce sr = u64 (k + 1) /\ sr_buffer sr = salsa_block key k /\
            0 <= sr_bufferOffset sr <= Z.of_nat salsa_n /\
            p = k * Z.of_nat salsa_n + sr_bufferOffset sr.

(** Documented: the output is as long as the input. *)
Hypothesis XORKeyStream_length : forall i n k, length (XORKeyStream i n k) = length i.

#[local] Opaque salsa_n.

Lemma salsa_block_length key k : length (salsa_block key k) = salsa_n.
Proof. unfold salsa_block. by rewrite XORKeyStream_length, length_replicate. Qed.

Lemma u64_u64_add a b : u64 (u64 a + b) = u64 (a + b).
Proof. unfold u64. by rewrite Zplus_mod_idemp_l. Qed.

Lemma fill_at sr key p :
  salsa_at sr key p -> sr_bufferOffset sr = zlen (sr_buffer sr) ->
  salsa_at (fill sr) key p /\ sr_bufferOffset (fill sr) = 0.
Proof.
  intros (Hz & Hk & k & Hn & Hb & Ho & Hp) Hfull. split; [|done].
  unfold zlen in Hfull. rewrite Hb, salsa_block_length in Hfull.
  split_and!; [done|done|]. exists (k + 1). unfold fill; cbn.
  rewrite Hn, Hz, Hk, u64_u64_add. split_and!; [done|done|lia|lia|lia].
Qed.

(** What one copy of the loop delivers is the next stretch of the stream. *)
Lemma stream_chunk key k o d :
  0 <= o < Z.of_nat salsa_n ->
  take d (drop (Z.to_nat o) (salsa_block key k)) =
  (fun i => salsa_stream key (k * Z.of_nat salsa_n + o + i)) <$>
    seqZ 0 (Z.min (Z.of_nat d) (Z.of_nat salsa_n - o)).
Proof.
  intros Ho. pose proof (salsa_block_length key k) as Hl.
  apply list_eq_same_length with (n := Nat.min d (salsa_n - Z.to_nat o)).
  { rewrite length_fmap, length_seqZ. lia. }
  { by rewrite length_take, length_drop, Hl. }
  intros i x y Hi Hx Hy.
  apply list_lookup_fmap_Some in Hy as (z & -> & Hz). apply lookup_seqZ in Hz as [-> Hz].
  rewrite lookup_take_lt, lookup_drop in Hx by lia.
  unfold salsa_stream.
  replace (k * Z.of_nat salsa_n + o + (0 + Z.of_nat i)) with (o + Z.of_nat i + k * Z.of_nat salsa_n) by lia.
  rewrite Z_mod_plus_full, Z.div_add, Z.div_small, Z.mod_small, Z.add_0_l by lia.
  symmetry. apply nth_lookup_Some with (d := x00) in Hx.
  rewrite <- Hx. f_equal. lia.
Qed.

Lemma salsa_loop_stream key fuel d sr p :
  (d <= fuel)%nat -> salsa_at sr key p ->
  exists sr', salsa_loop fuel d sr =
    Ret ((fun i => salsa_stream key (p + i)) <$> seqZ 0 (Z.of_nat d), sr') /\
    salsa_at sr' key (p + Z.of_nat d).
Proof.
  revert d sr p. induction fuel as [|fuel IH]; intros [|d] sr p Hd Hat; try lia.
  1,2: eexists; split; [done|]; by rewrite Z.add_0_r.
  cbn [salsa_loop].
  set (sr1 := if decide _ then _ else sr).
  assert (salsa_at sr1 key p /\ sr_bufferOffset sr1 < Z.of_nat salsa_n) as [Hat1 Hlt].
  { unfold sr1. case_decide as Hc; [destruct (fill_at _ _ _ Hat Hc) as [? ->]; done|].
    split; [done|]. destruct Hat as (_ & _ & k & _ & Hb & Ho & _).
    unfold zlen in Hc. rewrite Hb, salsa_block_length in Hc. lia. }
  clearbody sr1. destruct Hat1 as (Hz & Hk & k & Hn & Hb & Ho & Hp).
  assert (zlen (sr_buffer sr1) = Z.of_nat salsa_n) as Hlen
    by (unfold zlen; by rewrite Hb, salsa_block_length).
  unfold go_slice. rewrite decide_True by lia. cbn [mbind outcome_bind].
  rewrite (take_ge (drop _ (sr_buffer sr1))) by (rewrite length_drop; unfold zlen in *; lia).
  rewrite Hb, stream_chunk, length_fmap, length_seqZ by lia.
  set (m := Z.min (Z.of_nat (S d)) (Z.of_nat salsa_n - sr_bufferOffset sr1)).
  destruct (IH (S d - Z.to_nat m)%nat
    (mkSalsa20Rand (sr_zeroes sr1) (salsa_block key k) (sr_bufferOffset sr1 + Z.of_nat (Z.to_nat m))
       (sr_key sr1) (sr_nonce sr1)) (p + m)) as (sr' & Hloop & Hat').
  { lia. }
  { split_and!; [done|done|]. exists k. cbn. split_and!; [done|done|lia..]. }
  rewrite Hloop. cbn [mbind outcome_bind fst snd]. exists sr'. split.
  2: { replace (p + Z.of_nat (S d)) with (p + m + Z.of_nat (S d - Z.to_nat m)) by lia. done. }
  do 2 f_equal. replace (seqZ 0 (Z.of_nat (S d))) with (seqZ 0 (m + Z.of_nat (S d - Z.to_nat m))) by (f_equal; lia).
  rewrite seqZ_app, fmap_app by lia. f_equal.
  - apply list_fmap_ext. intros i x _. f_equal. lia.
  - replace (seqZ (0 + m)) with (seqZ (m + 0)) by (f_equal; lia).
    rewrite <- fmap_add_seqZ, <- list_fmap_compose.
    apply list_fmap_ext. intros i x _. cbn. f_equal. lia.
Qed.

Lemma new_salsa_at {B} `{Reader B} (base base' : B) sr :
  NewSalsa20Rand base = Ret (sr, base') ->
  exists key, Read 32 base = Ret (Ok key, base') /\ length key = 32%nat /\ salsa_at sr key 0.
Proof.
  unfold NewSalsa20Rand. intros ([key|e] & b1 & Hr & Hk)%gbind_ret; [|done].
  case_decide as Hl; [|done]. apply gret_ret in Hk as [-> ->]. exists key. split_and!; [done..|].
  split_and!; [done..|]. exists 0. split_and!; try done; cbn; lia.
Qed.

Lemma stream_segment_app key p m n : 0 <= m -> 0 <= n ->
  ((fun i => salsa_stream key (p + i)) <$> seqZ 0 m) ++
  ((fun i => salsa_stream key (p + m + i)) <$> seqZ 0 n) =
  (fun i => salsa_stream key (p + i)) <$> seqZ 0 (m + n).
Proof.
  intros ??. rewrite seqZ_app, fmap_app by lia. f_equal.
  replace (seqZ (0 + m)) with (seqZ (m + 0)) by (f_equal; lia).
  rewrite <- fmap_add_seqZ, <- list_fmap_compose.
  apply list_fmap_ext. intros i x _. cbn. f_equal. lia.
Qed.

Lemma salsa_reads_stream key ds sr p :
  salsa_at sr key p ->
  exists sr', salsa_reads ds sr =
    Ret ((fun i => salsa_stream key (p + i)) <$> seqZ 0 (Z.of_nat (sum_list ds)), sr').
Proof.
  revert sr p. induction ds as [|d ds IH]; intros sr p Hat; [by eexists|]. cbn [salsa_reads].
  destruct (salsa_loop_stream key d d sr p) as (sr1 & Hd & Hat1); [lia|done|].
  unfold Salsa20Rand_Read. rewrite Hd. cbn [mbind outcome_bind fst snd].
  destruct (IH _ _ Hat1) as (sr2 & ->). cbn [mbind outcome_bind fst snd]. exists sr2.
  rewrite stream_segment_app by lia.
  replace (Z.of_nat d + Z.of_nat (sum_list ds)) with (Z.of_nat (sum_list (d :: ds)))
    by (simpl; lia). done.
Qed.

(** C38. The generator delivers one key stream, however it is read: after
    [NewSalsa20Rand] has taken its key from [base], any sequence of reads of any
    sizes terminates and yields, joined, the first bytes of the Salsa20 stream of
    that key under the block nonces 0, 1, 2, ... (no byte is skipped or repeated
    at the 16 KiB refills). *)
Theorem Salsa20Rand_is_stream {B} `{Reader B} (base base' : B) (sr : Salsa20Rand) (ds : list nat) :
  NewSalsa20Rand base = Ret (sr, base') ->
  exists key sr', Read 32 base = Ret (Ok key, base') /\
    salsa_reads ds sr = Ret (salsa_stream key <$> seqZ 0 (Z.of_nat (sum_list ds)), sr').
Proof.
  intros (key & Hr & _ & Hat)%new_salsa_at.
  destruct (salsa_reads_stream key ds sr 0 Hat) as (sr' & ->). by eauto.
Qed.

(** The generator discharges the interface. *)
#[export] Program Instance salsa_full : FullReader Salsa20Rand := {|
  reader_ok sr := exists key p, salsa_at sr key p |}.
Next Obligation.
  intros n sr (key & p & Hat).
  destruct (salsa_loop_stream key n n sr p) as (sr' & Hl & Hat'); [lia|done|].
  unfold Read, salsa_reader, Salsa20Rand_Read. rewrite Hl. cbn.
  eexists _, _. split_and!; [done| |eauto].
  rewrite length_fmap, length_seqZ. lia.
Qed.

End Salsa.

(** ** MutexReader and PerCPUReader *)

Section Wrappers.

Context {A : Type} `{Reader A}.

Record MutexReader := mkMutexReader { mr_mu : bool; mr_reader : A }.

Definition NewMutexReader (reader : A) : MutexReader := mkMutexReader false reader.

(** [Lock], the inner read, [Unlock]; a reader whose lock is held blocks. *)
#[export] Instance mutex_reader : Reader MutexReader := fun n mr =>
  if mr_mu mr then Block
  else p ← Read n (mr_reader mr); Ret (p.1, mkMutexReader false p.2).

(** [pcr_cpu k] is the core on which the [k]-th read runs. *)
Record PerCPUReader := mkPerCPUReader {
  pcr_readers : list MutexReader;
  pcr_cpu : nat -> Z;
  pcr_calls : nat;
}.

Definition NewPerCPUReader {B} (NumCPU : nat) (cpu : nat -> Z) (initfunc : GoM B A) : GoM B PerCPUReader :=
  (let! readers := go_map (fun _ => let! r := initfunc in gret (NewMutexReader r)) (seq 0 NumCPU) in
   gret (mkPerCPUReader readers cpu 0))%go.

(** [pcr.readers[thiscpu%uint64(runtime.NumCPU())].Read(d)] *)
#[export] Instance percpu_reader : Reader PerCPUReader := fun n pcr =>
  let thiscpu := u64 (pcr_cpu pcr (pcr_calls pcr)) in
  let NumCPU := zlen (pcr_readers pcr) in
  if decide (NumCPU = 0) then Panic divide_panic else
  mr ← go_index (pcr_readers pcr) (thiscpu mod NumCPU);
  p ← Read n mr;
  readers ← go_store (pcr_readers pcr) (thiscpu mod NumCPU) p.2;
  Ret (p.1, mkPerCPUReader readers (pcr_cpu pcr) (S (pcr_calls pcr))).

#[export] Program Instance percpu_full `{!FullReader A} : FullReader PerCPUReader := {|
  reader_ok pcr := pcr_readers pcr <> [] /\
    Forall (fun mr => mr_mu mr = false /\ reader_ok (mr_reader mr)) (pcr_readers pcr) |}.
Next Obligation.
  intros HF n pcr [Hne Hok]. unfold Read, percpu_reader.
  set (N := zlen (pcr_readers pcr)). set (i := u64 _ mod N).
  assert (0 < N) as HN by (unfold N, zlen; destruct (pcr_readers pcr); [done|simpl; lia]).
  assert (0 <= i < N) as Hi by (by apply Z.mod_pos_bound).
  rewrite decide_False by lia.
  destruct (lookup_lt_is_Some_2 (pcr_readers pcr) (Z.to_nat i)) as [mr Hmr].
  { unfold N, zlen in Hi. lia. }
  pose proof (Forall_lookup_1 _ _ _ _ Hok Hmr) as [Hmu Hmok].
  rewrite (proj2 (go_index_ret _ _ mr)) by (split; [lia|done]). cbn [mbind outcome_bind].
  destruct (read_full n (mr_reader mr) Hmok) as (bs & r' & Hr & Hl & Hok').
  unfold Read at 1, mutex_reader. rewrite Hmu, Hr. cbn [mbind outcome_bind fst snd].
  rewrite (proj2 (go_store_ret _ _ _ _)) by (split; [exact Hi|done]). cbn [mbind outcome_bind].
  eexists _, _. split_and!; [done|done| |]; cbn.
  - intros He%(f_equal length). rewrite length_insert in He. unfold N, zlen in HN. cbn in He. lia.
  - apply Forall_insert; [done|]. done.
Qed.

End Wrappers.
Arguments MutexReader A : clear implicits.
Arguments PerCPUReader A : clear implicits.

(** ** Using a source *)

Lemma rand_Read_full {R} `{FullReader R} n r :
  reader_ok r -> exists bs r', rand_Read n r = Ret (bs, r') /\ length bs = n /\ reader_ok r'.
Proof.
  intros Hok. destruct (read_full n r Hok) as (bs & r' & Hr & Hl & Hok').
  exists bs, r'. unfold rand_Read. by rewrite (gbind_eq _ _ _ _ _ Hr).
Qed.

(** ** A concrete source for the witnesses: the byte stream 0, 1, ..., 255, 0, ... *)

Definition counter_reader : Reader Z := fun n c =>
  Ret (Ok (byte_of_Z <$> seqZ c (Z.of_nat n)), c + Z.of_nat n).

Program Definition counter_full : @FullReader Z counter_reader :=
  {| reader_ok c := True |}.
Next Obligation.
  intros n r _. eexists _, _. split_and!; [done| |done].
  rewrite length_fmap, length_seqZ. lia.
Qed.

(** The constant source of one byte. *)
Definition const_reader (c : byte) : Reader unit := fun n _ => Ret (Ok (replicate n c), tt).
Program Definition const_full (c : byte) : @FullReader unit (const_reader c) := {| reader_ok _ := True |}.
Next Obligation. intros c n r _. eexists _, _. by rewrite length_replicate. Qed.

Lemma Salsa20Rand_is_stream_witness :
  exists sr, @NewSalsa20Rand (fun i n k => i) Z counter_reader 0 = Ret (sr, 32) /\
  exists key sr', salsa_reads (fun i n k => i) [3; 20000]%nat sr =
    Ret (salsa_stream (fun i n k => i) key <$> seqZ 0 20003, sr').
Proof.
  eexists. split; [reflexivity|].
  destruct (@Salsa20Rand_is_stream (fun i n k => i) (fun i n k => eq_refl) Z counter_reader 0 32 _
              [3; 20000]%nat eq_refl) as (key & sr' & _ & H).
  exists key, sr'. exact H.
Defined.
