(* ===== verification/Shuffle.v ===== *)
(** * Shuffle: the mix's permutation

    Models [shuffle.go]: [Intn] (rejection sampling on [uint32]), [NewShuffler],
    [Shuffle] and [Unshuffle]. Shows that a shuffler permutes, that [Unshuffle]
    carries replies back to the positions of their requests, that every
    permutation comes from exactly one shuffler, and that [Intn] is unbiased. *)

From stdpp Require Import numbers strings gmap list.
From Stdlib Require Import Strings.Byte.
From S2P Require Import Prelude Binary Rand.

(** ** Intn *)

Definition max_uint32 : Z := 2 ^ 32 - 1.

(** The values of [x] the loop of [Intn] accepts. *)
Definition intn_bound (n : Z) : Z := max_uint32 - max_uint32 mod u32 n.

(** The loop: draw four bytes until the value is below [max-m]. *)
Fixpoint Intn_loop {R} `{Reader R} (fuel : nat) (n : Z) : GoM R Z :=
  match fuel with
  | O => fun _ => NoFuel
  | S fuel' =>
      (let! rd := Read 4 in
       match rd with
       | Err e => glift (Panic e)
       | Ok r =>
           let! x := glift (Uint32 r) in
           if decide (x < intn_bound n) then gret (x mod u32 n)
           else Intn_loop fuel' n
       end)%go
  end.

(** [max % uint32(n)] panics when [uint32(n)] is zero. *)
Definition Intn {R} `{Reader R} (fuel : nat) (n : Z) : GoM R Z :=
  if decide (u32 n = 0) then glift (Panic divide_panic) else Intn_loop fuel n.

(** ** Shufflers *)

Abbreviation Shuffler := (list Z).

Definition NewShuffler {R} `{Reader R} (fuel : nat) (n : Z) : GoM R Shuffler :=
  (let! p := glift (go_make 0 n) in
   go_map (fun i => Intn fuel (i + 1)) (seqZ 0 (zlen p)))%go.

(** [x[i], x[j] = x[j], x[i]] *)
Definition swap {A} (x : list A) (i j : Z) : outcome (list A) :=
  xj ← go_index x j;
  xi ← go_index x i;
  x' ← go_store x i xj;
  go_store x' j xi.

Definition Shuffle {A} (s : Shuffler) (x : list A) : outcome (list A) :=
  go_for (fun i x => j ← go_index s i; swap x i j) (seqZ 0 (zlen x)) x.

Definition Unshuffle {A} (s : Shuffler) (x : list A) : outcome (list A) :=
  go_for (fun i x => j ← go_index s i; swap x i j) (reverse (seqZ 0 (zlen x))) x.

(** A shuffler of [n] positions: entry [i] is in [0..i]. *)
Definition shuffler_ok (s : Shuffler) : Prop :=
  forall i j, s !! i = Some j -> 0 <= j <= Z.of_nat i.

(** ** Swapping *)

(** The pure exchange of two positions. *)
Definition swapn {A} (x : list A) (i j : nat) : list A :=
  match x !! i, x !! j with
  | Some xi, Some xj => <[j := xi]> (<[i := xj]> x)
  | _, _ => x
  end.

Lemma swap_swapn {A} (x : list A) (i j : nat) :
  (i < length x)%nat -> (j < length x)%nat ->
  swap x (Z.of_nat i) (Z.of_nat j) = Ret (swapn x i j).
Proof.
  intros Hi Hj. unfold swap, swapn.
  destruct (lookup_lt_is_Some_2 _ _ Hi) as [xi Exi]. destruct (lookup_lt_is_Some_2 _ _ Hj) as [xj Exj].
  rewrite (go_index_lookup _ _ _ Exi), (go_index_lookup _ _ _ Exj), Exi, Exj. cbn [mbind outcome_bind].
  unfold go_store, zlen. rewrite decide_True by lia. cbn [mbind outcome_bind].
  rewrite length_insert, decide_True by lia. by rewrite !Nat2Z.id.
Qed.

Lemma swapn_length {A} (x : list A) i j : length (swapn x i j) = length x.
Proof. unfold swapn. repeat case_match; by rewrite ?length_insert. Qed.

(** Which element a position holds after an exchange. *)
Definition swap_pos (i j k : nat) : nat :=
  if decide (k = i) then j else if decide (k = j) then i else k.

Lemma swap_pos_invol i j k : swap_pos i j (swap_pos i j k) = k.
Proof. unfold swap_pos. repeat case_decide; congruence. Qed.

Lemma lookup_swapn {A} (x : list A) (i j k : nat) :
  (i < length x)%nat -> (j < length x)%nat -> swapn x i j !! k = x !! swap_pos i j k.
Proof.
  intros Hi Hj. unfold swapn, swap_pos.
  destruct (lookup_lt_is_Some_2 _ _ Hi) as [xi Exi]. destruct (lookup_lt_is_Some_2 _ _ Hj) as [xj Exj].
  rewrite Exi, Exj. destruct (decide (k = j)) as [->|].
  - rewrite list_lookup_insert_eq by (by rewrite length_insert). case_decide; congruence.
  - rewrite list_lookup_insert_ne by done. case_decide as Hk; [subst k|].
    + by rewrite list_lookup_insert_eq.
    + by rewrite list_lookup_insert_ne.
Qed.

Lemma swapn_invol {A} (x : list A) (i j : nat) :
  (i < length x)%nat -> (j < length x)%nat -> swapn (swapn x i j) i j = x.
Proof.
  intros Hi Hj. apply list_eq. intros k.
  rewrite !lookup_swapn, swap_pos_invol by (rewrite ?swapn_length; done). done.
Qed.

Lemma swapn_perm {A} (x : list A) (i j : nat) :
  (i < length x)%nat -> (j < length x)%nat -> swapn x i j ≡ₚ x.
Proof.
  intros Hi Hj. apply Permutation_inj. split; [by rewrite swapn_length|].
  exists (swap_pos i j). split.
  - intros a b H. by rewrite <- (swap_pos_invol i j a), H, swap_pos_invol.
  - intros k. by rewrite lookup_swapn.
Qed.

Lemma swapn_app {A} (x y : list A) (i j : nat) :
  (i < length x)%nat -> (j < length x)%nat -> swapn (x ++ y) i j = swapn x i j ++ y.
Proof.
  intros Hi Hj. unfold swapn. rewrite !lookup_app_l by done.
  destruct (lookup_lt_is_Some_2 _ _ Hi) as [xi ->]. destruct (lookup_lt_is_Some_2 _ _ Hj) as [xj ->].
  rewrite insert_app_l by done. by rewrite insert_app_l by (by rewrite length_insert).
Qed.

(** Exchanging positions on one side of a pointwise relation is the same as
    exchanging them on the other. *)
Lemma swapn_Forall2 {A B} (Q : A -> B -> Prop) x y (i j : nat) :
  (i < length x)%nat -> (j < length x)%nat ->
  Forall2 Q (swapn x i j) y -> Forall2 Q x (swapn y i j).
Proof.
  intros Hi Hj HQ. pose proof (Forall2_length _ _ _ HQ) as Hl. rewrite swapn_length in Hl.
  apply Forall2_lookup. intros k. rewrite (lookup_swapn y) by lia.
  rewrite Forall2_lookup in HQ. specialize (HQ (swap_pos i j k)).
  by rewrite lookup_swapn, swap_pos_invol in HQ.
Qed.

(** ** The loops as iterated exchanges *)

Definition entry (s : Shuffler) (i : nat) : nat := Z.to_nat (nth i s 0).

Fixpoint shuf {A} (s : Shuffler) (n : nat) (x : list A) : list A :=
  match n with
  | O => x
  | S n' => swapn (shuf s n' x) n' (entry s n')
  end.

Fixpoint unshuf {A} (s : Shuffler) (n : nat) (x : list A) : list A :=
  match n with
  | O => x
  | S n' => unshuf s n' (swapn x n' (entry s n'))
  end.

Lemma entry_le s i : shuffler_ok s -> (entry s i <= i)%nat.
Proof.
  intros Hs. unfold entry. destruct (s !! i) as [j|] eqn:E.
  - rewrite (nth_lookup_Some _ _ _ _ E). specialize (Hs _ _ E). lia.
  - rewrite nth_overflow by (by apply lookup_ge_None). lia.
Qed.

Lemma go_index_entry s (i : nat) :
  shuffler_ok s -> (i < length s)%nat -> go_index s (Z.of_nat i) = Ret (Z.of_nat (entry s i)).
Proof.
  intros Hs Hi. destruct (lookup_lt_is_Some_2 _ _ Hi) as [j E].
  rewrite (go_index_lookup _ _ _ E). unfold entry. rewrite (nth_lookup_Some _ _ _ _ E).
  specialize (Hs _ _ E). f_equal. lia.
Qed.

Lemma shuf_length {A} s n (x : list A) : length (shuf s n x) = length x.
Proof. induction n; simpl; [done|]. by rewrite swapn_length. Qed.

Section Loops.
Context {A : Type} (s : Shuffler) (Hs : shuffler_ok s).

Lemma step_swapn (x : list A) (i : nat) :
  (i < length s)%nat -> (i < length x)%nat ->
  (j ← go_index s (Z.of_nat i); swap x (Z.of_nat i) j) = Ret (swapn x i (entry s i)).
Proof using Hs.
  intros. pose proof (entry_le s i Hs). rewrite go_index_entry by done.
  cbn [mbind outcome_bind]. apply swap_swapn; lia.
Qed.

Lemma Shuffle_loop (x : list A) n :
  (n <= length x)%nat -> (n <= length s)%nat ->
  go_for (fun i x => j ← go_index s i; swap x i j) (seqZ 0 (Z.of_nat n)) x = Ret (shuf s n x).
Proof using Hs.
  induction n as [|n IH]; intros; [done|]. rewrite seqZ_snoc, go_for_app, IH by lia.
  cbn [mbind outcome_bind go_for]. rewrite step_swapn by (rewrite ?shuf_length; lia). done.
Qed.

Lemma Unshuffle_loop (x : list A) n :
  (n <= length x)%nat -> (n <= length s)%nat ->
  go_for (fun i x => j ← go_index s i; swap x i j) (reverse (seqZ 0 (Z.of_nat n))) x =
  Ret (unshuf s n x).
Proof using Hs.
  revert x. induction n as [|n IH]; intros x ??; [done|].
  rewrite seqZ_snoc, reverse_snoc. cbn [go_for]. rewrite step_swapn by lia.
  cbn [mbind outcome_bind]. apply IH; rewrite ?swapn_length; lia.
Qed.

Lemma Shuffle_shuf (x : list A) :
  (length x <= length s)%nat -> Shuffle s x = Ret (shuf s (length x) x).
Proof using Hs. intros. by apply Shuffle_loop. Qed.

Lemma Unshuffle_unshuf (x : list A) :
  (length x <= length s)%nat -> Unshuffle s x = Ret (unshuf s (length x) x).
Proof using Hs. intros. by apply Unshuffle_loop. Qed.

Lemma shuf_perm n (x : list A) : (n <= length x)%nat -> shuf s n x ≡ₚ x.
Proof using Hs.
  induction n as [|n IH]; intros; simpl; [done|]. pose proof (entry_le s n Hs).
  rewrite swapn_perm by (rewrite shuf_length; lia). apply IH. lia.
Qed.

Lemma shuf_app n (x y : list A) : (n <= length x)%nat -> shuf s n (x ++ y) = shuf s n x ++ y.
Proof using Hs.
  induction n as [|n IH]; intros; simpl; [done|]. pose proof (entry_le s n Hs).
  rewrite IH, swapn_app by (rewrite ?shuf_length; lia). done.
Qed.

End Loops.

(** Where position [k] of a batch goes. *)
Fixpoint shuf_pos (s : Shuffler) (n k : nat) : nat :=
  match n with
  | O => k
  | S n' => swap_pos n' (entry s n') (shuf_pos s n' k)
  end.

Lemma shuf_pos_inj s n k k' : shuf_pos s n k = shuf_pos s n k' -> k = k'.
Proof.
  induction n as [|n IH]; cbn; [done|]. intros H%(f_equal (swap_pos n (entry s n))).
  rewrite !swap_pos_invol in H. auto.
Qed.

Lemma lookup_shuf {A} s n (x : list A) k :
  shuffler_ok s -> (n <= length x)%nat -> shuf s n x !! shuf_pos s n k = x !! k.
Proof.
  intros Hs. induction n as [|n IH]; intros Hn; cbn [shuf shuf_pos]; [done|].
  pose proof (entry_le s n Hs). rewrite lookup_swapn by (rewrite shuf_length; lia).
  rewrite swap_pos_invol. apply IH. lia.
Qed.

Lemma lookup_unshuf {A} s n (x : list A) k :
  shuffler_ok s -> (n <= length x)%nat -> unshuf s n x !! k = x !! shuf_pos s n k.
Proof.
  intros Hs. revert x. induction n as [|n IH]; intros x Hn; cbn [unshuf shuf_pos]; [done|].
  pose proof (entry_le s n Hs). rewrite IH by (rewrite swapn_length; lia).
  by rewrite lookup_swapn by lia.
Qed.

Lemma unshuf_length {A} s n (x : list A) : length (unshuf s n x) = length x.
Proof. revert x. induction n as [|n IH]; intros x; cbn; [done|]. by rewrite IH, swapn_length. Qed.

Lemma shuf_Forall2 {A B} (Q : A -> B -> Prop) s n x y :
  shuffler_ok s -> (n <= length x)%nat ->
  Forall2 Q (shuf s n x) y -> Forall2 Q x (unshuf s n y).
Proof.
  intros Hs. revert y. induction n as [|n IH]; intros y Hn H; simpl in *; [done|].
  pose proof (entry_le s n Hs).
  apply IH; [lia|]. apply swapn_Forall2; rewrite ?shuf_length; try lia. done.
Qed.

(** Shufflers that agree on the first [n] entries act alike on them. *)
Lemma shuf_prefix {A} s s' n (x : list A) :
  (forall i, (i < n)%nat -> entry s i = entry s' i) -> shuf s n x = shuf s' n x.
Proof. induction n as [|n IH]; intros H; simpl; [done|]. rewrite IH, H by auto with lia. done. Qed.

(** ** Shufflers and permutations *)

Lemma shuffler_ok_snoc s j :
  shuffler_ok (s ++ [j]) <-> shuffler_ok s /\ 0 <= j <= Z.of_nat (length s).
Proof.
  unfold shuffler_ok. split.
  - intros H. split.
    + intros i j' Hi. apply H. by apply lookup_app_l_Some.
    + apply H. by rewrite list_lookup_middle.
  - intros [H Hj] i j' [Hi|[Hl [Hi <-]%list_lookup_singleton_Some]]%lookup_app_Some; [by apply H|].
    lia.
Qed.

Lemma shuf_snoc {A} s (j : nat) (x : list A) a :
  shuffler_ok s -> length s = length x ->
  shuf (s ++ [Z.of_nat j]) (S (length x)) (x ++ [a]) =
  swapn (shuf s (length x) x ++ [a]) (length x) j.
Proof.
  intros Hs Hl. cbn [shuf].
  assert (entry (s ++ [Z.of_nat j]) (length x) = j) as ->.
  { unfold entry. rewrite <- Hl, nth_middle. lia. }
  f_equal. rewrite <- shuf_app by done. apply shuf_prefix.
  intros i Hi. unfold entry. by rewrite app_nth1 by lia.
Qed.

(** Putting the last element [a] of a rearrangement [y] of [x ++ [a]] in place. *)
Lemma perm_last_split {A} (x y : list A) a (j : nat) :
  y ≡ₚ x ++ [a] -> y !! j = Some a ->
  exists y0, swapn y (length x) j = y0 ++ [a] /\ y0 ≡ₚ x /\ length y0 = length x.
Proof.
  intros Hp Hj. pose proof (Permutation_length Hp) as Hl. rewrite length_app in Hl. simpl in Hl.
  apply lookup_lt_Some in Hj as Hjl.
  assert (swapn y (length x) j !! length x = Some a) as Ha.
  { rewrite lookup_swapn by lia. unfold swap_pos. by rewrite decide_True. }
  exists (take (length x) (swapn y (length x) j)).
  assert (swapn y (length x) j = take (length x) (swapn y (length x) j) ++ [a]) as Heq.
  { rewrite <- (take_S_r _ _ a) by done. symmetry. apply take_ge. rewrite swapn_length. lia. }
  split_and!; [done| |rewrite length_take, swapn_length; lia].
  apply (Permutation_app_inv_r [a]). rewrite <- Heq, swapn_perm by lia. done.
Qed.

Lemma shuf_bij {A} (x y : list A) :
  NoDup x -> y ≡ₚ x ->
  exists s, (shuffler_ok s /\ length s = length x /\ shuf s (length x) x = y) /\
    forall s', shuffler_ok s' -> length s' = length x -> shuf s' (length x) x = y -> s' = s.
Proof.
  revert y. induction x as [|a x IH] using rev_ind; intros y Hnd Hp.
  { apply Permutation_nil_r in Hp as ->. exists []. split; [by split_and!; [intros ?? ?| |]|].
    intros s' _ Hl _. by apply nil_length_inv. }
  assert (a ∈ y) as [j Hj]%list_elem_of_lookup_1 by (rewrite Hp; set_solver).
  destruct (perm_last_split x y a j Hp Hj) as (y0 & Hy & Hp0 & Hl0).
  apply NoDup_app in Hnd as Hnd'. destruct Hnd' as (Hnd0 & _ & _).
  destruct (IH y0 Hnd0 Hp0) as (s & (Hs & Hsl & Hsy) & Huniq).
  apply lookup_lt_Some in Hj as Hjl. pose proof (Permutation_length Hp) as Hyl.
  rewrite !length_app in *. simpl in *. rewrite Nat.add_1_r in *.
  exists (s ++ [Z.of_nat j]). split; [split_and!|].
  - apply shuffler_ok_snoc. split; [done|lia].
  - rewrite length_app. simpl. lia.
  - rewrite shuf_snoc, Hsy, <- Hy by done. apply swapn_invol; lia.
  - intros s' Hok Hl' Hy'. destruct s' as [|j' s0 _] using rev_ind; [simpl in Hl'; lia|].
    apply shuffler_ok_snoc in Hok as [Hok Hj']. rewrite length_app in Hl'. simpl in Hl'.
    rewrite <- (Z2Nat.id j') in Hy' |- * by lia. rewrite shuf_snoc in Hy' by (done || lia).
    set (k := Z.to_nat j') in *.
    assert (length (shuf s0 (length x) x ++ [a]) = S (length x)) as Hln
      by (rewrite length_app, shuf_length; simpl; lia).
    assert (y !! k = Some a) as Hk.
    { rewrite <- Hy', lookup_swapn by lia.
      replace (swap_pos (length x) k k) with (length x)
        by (unfold swap_pos; repeat case_decide; congruence).
      rewrite lookup_app_r by (rewrite shuf_length; lia).
      by rewrite shuf_length, Nat.sub_diag. }
    assert (NoDup y) as Hndy by (by rewrite Hp).
    assert (k = j) as -> by (by eapply NoDup_lookup).
    rewrite <- Hy' in Hy. rewrite swapn_invol in Hy by lia. apply app_inj_tail in Hy as [Hy _].
    rewrite (Huniq s0) by (done || lia). done.
Qed.

(** ** Theorems: Shuffle and Unshuffle *)

Lemma shuffle_there_and_back {A B} (Q : A -> B -> Prop) (s : Shuffler) (x : list A) :
  shuffler_ok s -> length s = length x ->
  exists y, Shuffle s x = Ret y /\ y ≡ₚ x /\
    forall z, Forall2 Q y z -> exists w, Unshuffle s z = Ret w /\ Forall2 Q x w.
Proof.
  intros Hs Hl. exists (shuf s (length x) x). split_and!.
  - apply Shuffle_shuf; [done|lia].
  - by apply shuf_perm.
  - intros z Hz. pose proof (Forall2_length _ _ _ Hz) as Hzl. rewrite shuf_length in Hzl.
    rewrite Hzl in Hz.
    eexists. split; [apply Unshuffle_unshuf; [done|lia]|]. apply shuf_Forall2; [done|lia|done].
Qed.

(** C16. [Unshuffle] carries each reply back to the position of the request it
    answers: shuffling [x] with a valid shuffler of its length succeeds and
    permutes it; and if a second list [z] (the replies) answers the shuffled list
    pointwise, under any relation [Q], then unshuffling [z] with the same shuffler
    succeeds and yields a list that answers the original [x] pointwise. *)
Theorem Unshuffle_aligns {A B} (Q : A -> B -> Prop) (s : Shuffler) (x : list A) :
  shuffler_ok s -> length s = length x ->
  exists y, Shuffle s x = Ret y /\ y ≡ₚ x /\
    forall z, Forall2 Q y z -> exists w, Unshuffle s z = Ret w /\ Forall2 Q x w.
Proof. apply shuffle_there_and_back. Qed.

Lemma Unshuffle_aligns_witness :
  shuffler_ok [0; 0; 1] /\
  exists y, Shuffle [0; 0; 1] ["a"; "b"; "c"]%string = Ret y /\ y = ["b"; "c"; "a"]%string /\
  exists w, Unshuffle [0; 0; 1] y = Ret w /\ Forall2 eq ["a"; "b"; "c"]%string w.
Proof.
  assert (shuffler_ok [0; 0; 1]) as H.
  { intros [|[|[|i]]] j [= <-]; lia. }
  split; [exact H|].
  destruct (Unshuffle_aligns (B := string) eq [0; 0; 1] ["a"; "b"; "c"]%string H eq_refl)
    as (y & Hy & _ & Hw).
  exists y. split; [exact Hy|]. split; [vm_compute in Hy; congruence|].
  apply Hw. apply Forall_Forall2_diag, Forall_forall. done.
Defined.

(** C17. Every ordering of the batch comes from exactly one shuffler: for distinct
    elements, shufflers of the batch's length and permutations of it correspond
    one to one, so independent uniform entries give a uniform permutation. *)
Theorem Shuffle_bijective {A} (x y : list A) :
  NoDup x -> y ≡ₚ x ->
  exists s, (shuffler_ok s /\ length s = length x /\ Shuffle s x = Ret y) /\
    forall s', shuffler_ok s' -> length s' = length x -> Shuffle s' x = Ret y -> s' = s.
Proof.
  intros Hnd Hp. destruct (shuf_bij x y Hnd Hp) as (s & (Hs & Hl & Hy) & Hu).
  exists s. split; [split_and!; [done|done|]|].
  - rewrite Shuffle_shuf, Hy by (done || lia). done.
  - intros s' Hs' Hl' H. rewrite Shuffle_shuf in H by (done || lia). apply Hu; [done|done|congruence].
Qed.

Lemma Shuffle_bijective_witness :
  exists s, (shuffler_ok s /\ length s = 3%nat /\ Shuffle s [1; 2; 3] = Ret [3; 1; 2]) /\
    forall s', shuffler_ok s' -> length s' = 3%nat -> Shuffle s' [1; 2; 3] = Ret [3; 1; 2] -> s' = s.
Proof.
  apply (Shuffle_bijective [1; 2; 3] [3; 1; 2]).
  - apply (bool_decide_unpack _). vm_compute. exact I.
  - exact (Permutation_cons_append [1; 2] 3).
Defined.

(** ** Intn *)

Lemma u32_id n : 0 < n < 2 ^ 32 -> u32 n = n.
Proof. intros. apply u32_small. lia. Qed.

Lemma intn_bound_facts n : 0 < n < 2 ^ 32 ->
  intn_bound n = max_uint32 / n * n /\ 2 ^ 31 <= intn_bound n <= max_uint32.
Proof.
  intros Hn. unfold intn_bound. rewrite u32_id by done.
  pose proof (Z.div_mod max_uint32 n ltac:(lia)) as Hdm.
  pose proof (Z.mod_pos_bound max_uint32 n ltac:(lia)).
  assert (1 <= max_uint32 / n).
  { apply Z.div_le_lower_bound; unfold max_uint32; lia. }
  split; [lia|]. split; [|lia]. unfold max_uint32 in *. nia.
Qed.

Lemma Uint32_draw bs : length bs = 4%nat ->
  Uint32 bs = Ret (be_get bs) /\ 0 <= be_get bs < 2 ^ 32.
Proof.
  intros Hl. unfold Uint32. rewrite decide_True, take_ge by lia. split; [done|].
  pose proof (be_get_range bs) as Hr. unfold zlen in Hr. by rewrite Hl in Hr.
Qed.

(** [k] successive draws of four bytes. *)
Definition draw {R} `{Reader R} : GoM R Z :=
  (let! rd := Read 4 in
   match rd with Ok r => glift (Uint32 r) | Err e => glift (Panic e) end)%go.
Fixpoint draws {R} `{Reader R} (k : nat) : GoM R (list Z) :=
  match k with
  | O => gret []
  | S k' => (let! x := draw in let! xs := draws k' in gret (x :: xs))%go
  end.

(** One residue class of a block of [n] consecutive integers has one member. *)
Lemma filter_residue_block n v q : 0 < n -> 0 <= v < n ->
  filter (fun x => x mod n = v) (seqZ (q * n) n) = [q * n + v].
Proof.
  intros Hn Hv. replace (seqZ (q * n) n) with (seqZ (q * n) (v + (1 + (n - v - 1)))) by (f_equal; lia).
  rewrite !seqZ_app, !filter_app by lia.
  assert (forall a b, q * n <= a -> a + b <= (q + 1) * n -> (a + b <= q * n + v \/ q * n + v < a) ->
          filter (fun x => x mod n = v) (seqZ a b) = []) as Hnil.
  { intros a b Ha Hb Hab. apply filter_none. intros x [Hx1 Hx2]%elem_of_seqZ Hm.
    assert (x / n = q) by (symmetry; apply Z.div_unique with (x - q * n); lia).
    pose proof (Z.div_mod x n ltac:(lia)). nia. }
  rewrite (Hnil (q * n) v), (Hnil (q * n + v + 1)) by lia.
  rewrite app_nil_r, app_nil_l, (seqZ_cons (q * n + v)) by lia.
  rewrite filter_cons_True; [done|]. rewrite Z.add_comm, Z_mod_plus_full. by apply Z.mod_small.
Qed.

Lemma count_residues n v (q : nat) : 0 < n -> 0 <= v < n ->
  length (filter (fun x => x mod n = v) (seqZ 0 (Z.of_nat q * n))) = q.
Proof.
  intros Hn Hv. induction q as [|q IH]; [done|].
  replace (Z.of_nat (S q) * n) with (Z.of_nat q * n + n) by lia.
  rewrite seqZ_app, filter_app, length_app, IH, Z.add_0_l, filter_residue_block by lia.
  simpl. lia.
Qed.

Section IntnLoop.
Context {R : Type} `{FullReader R}.

(** One iteration of the loop. *)
Lemma Intn_loop_step (n : Z) (r : R) :
  reader_ok r -> exists x r', 0 <= x < 2 ^ 32 /\ reader_ok r' /\
    draw r = Ret (x, r') /\
    forall fuel, Intn_loop (S fuel) n r =
      if decide (x < intn_bound n) then Ret (x mod u32 n, r') else Intn_loop fuel n r'.
Proof.
  intros Hok. destruct (read_full 4 r Hok) as (bs & r' & Hr & Hl & Hok').
  destruct (Uint32_draw bs Hl) as [Hu Hrange].
  exists (be_get bs), r'. split_and!; try lia; try done.
  - unfold draw. by rewrite (gbind_eq _ _ _ _ _ Hr), Hu.
  - intros fuel. cbn [Intn_loop]. rewrite (gbind_eq _ _ _ _ _ Hr), Hu.
    unfold gbind, glift. case_decide; done.
Qed.

(** [Intn] returns as soon as it draws an accepted value: with a reader that
    fills its buffers, the result is the first of the drawn values below the
    bound, modulo [n], hence in [0..n-1], and the loop goes on only while every
    value drawn so far was rejected. *)
Lemma Intn_first_accepted (n : Z) (r : R) (fuel : nat) :
  reader_ok r -> 0 < n < 2 ^ 32 ->
  (exists k xs x r', (k < fuel)%nat /\ reader_ok r' /\
     draws (S k) r = Ret (xs ++ [x], r') /\ length xs = k /\
     Forall (fun y => intn_bound n <= y) xs /\ x < intn_bound n /\
     Intn fuel n r = Ret (x mod n, r') /\ 0 <= x mod n < n) \/
  (exists xs r', draws fuel r = Ret (xs, r') /\ length xs = fuel /\
     Forall (fun y => intn_bound n <= y) xs /\ Intn fuel n r = NoFuel).
Proof.
  intros Hok Hn. unfold Intn. rewrite decide_False by (rewrite u32_id; lia).
  revert r Hok. induction fuel as [|fuel IH]; intros r Hok.
  { right. exists [], r. done. }
  destruct (Intn_loop_step n r Hok) as (x & r1 & Hx & Hok1 & Hd & Hstep). rewrite Hstep.
  assert (forall m ys r2, draws m r1 = Ret (ys, r2) -> draws (S m) r = Ret (x :: ys, r2)) as Hcons.
  { intros m ys r2 Hm. cbn [draws]. by rewrite (gbind_eq _ _ _ _ _ Hd), (gbind_eq _ _ _ _ _ Hm). }
  case_decide as Hacc.
  - left. exists 0%nat, [], x, r1. rewrite u32_id by done.
    split_and!; try done; try lia; [by apply (Hcons 0%nat [])|..]; apply Z.mod_pos_bound; lia.
  - destruct (IH r1 Hok1) as [(k & xs & y & r2 & ? & ? & Hds & ? & ? & ? & ? & ?)|(xs & r2 & Hds & ? & ? & ?)].
    + left. exists (S k), (x :: xs), y, r2. split_and!; try done; try lia; try (by simpl; f_equal).
      * by apply Hcons in Hds.
      * constructor; [lia|done].
    + right. exists (x :: xs), r2. split_and!; try done; [by apply Hcons|by simpl; f_equal|].
      constructor; [lia|done].
Qed.

End IntnLoop.

Lemma Intn_first_accepted_witness :
  exists v r', @Intn Z counter_reader 1 10 0 = Ret (v, r') /\ v = 66051 mod 10.
Proof.
  destruct (@Intn_first_accepted Z counter_reader counter_full 10 0 1)
    as [(k & xs & x & r' & _ & _ & _ & _ & _ & _ & H & _)|(xs & r' & _ & _ & _ & H)];
    [exact I | lia | |].
  - exists (x mod 10), r'. split; [exact H|]. vm_compute in H. vm_compute. congruence.
  - exfalso. vm_compute in H. discriminate H.
Defined.

(** ** One draw of [Intn] *)

(** A source that delivers the number [x], and what [Intn] makes of it in one turn of
    its loop: the result it returns, or [None] when it draws again. *)
Definition value_reader : Reader Z := fun k x => Ret (Ok (be_put k x), x).
Definition intn_once (n x : Z) : option Z :=
  match @Intn Z value_reader 1 n x with Ret (v, _) => Some v | _ => None end.

Lemma Intn_draw {R} `{Reader R} n fuel (r r' : R) bs : 0 < n < 2 ^ 32 ->
  length bs = 4%nat -> Read 4 r = Ret (Ok bs, r') ->
  Intn (S fuel) n r = if decide (be_get bs < intn_bound n) then Ret (be_get bs mod n, r') else Intn fuel n r'.
Proof.
  intros Hn Hl Hr. unfold Intn. rewrite !decide_False by (rewrite u32_id; lia). cbn [Intn_loop].
  destruct (Uint32_draw bs Hl) as [Hu _]. rewrite (gbind_eq _ _ _ _ _ Hr), Hu. unfold gbind, glift.
  rewrite u32_id by done. rewrite (decide_False (P := n = 0)) by lia. by case_decide.
Qed.

Lemma intn_once_eq n x : 0 < n < 2 ^ 32 -> 0 <= x < 2 ^ 32 ->
  intn_once n x = if decide (x < intn_bound n) then Some (x mod n) else None.
Proof.
  intros Hn Hx. unfold intn_once. rewrite (@Intn_draw Z value_reader n 0 x x (be_put 4 x) Hn) by (done || apply be_put_length).
  rewrite be_get_put. change (256 ^ Z.of_nat 4) with (2 ^ 32). rewrite Z.mod_small by done. case_decide; [done|]. unfold Intn.
  by rewrite decide_False by (rewrite u32_id; lia).
Qed.

Lemma filter_ext_in {A} (P Q : A -> Prop) `{!forall x, Decision (P x), !forall x, Decision (Q x)} (l : list A) :
  (forall x, x ∈ l -> P x <-> Q x) -> filter P l = filter Q l.
Proof.
  induction l as [|x l IH]; intros HPQ; [done|]. rewrite !filter_cons, IH by (intros; apply HPQ; set_solver).
  pose proof (HPQ x ltac:(set_solver)). repeat case_decide; tauto.
Qed.

(** The draws below the bound are the ones that decide. *)
Lemma filter_once n (P : option Z -> Prop) `{!forall o, Decision (P o)} : 0 < n < 2 ^ 32 -> ~ P None ->
  filter (fun x => P (intn_once n x)) (seqZ 0 (2 ^ 32)) =
  filter (fun x => P (Some (x mod n))) (seqZ 0 (intn_bound n)).
Proof.
  intros Hn HP. destruct (intn_bound_facts n Hn) as [_ Hb].
  replace (2 ^ 32) with (intn_bound n + (2 ^ 32 - intn_bound n)) by lia.
  rewrite seqZ_app, filter_app by (unfold max_uint32 in *; lia).
  rewrite (filter_none _ (seqZ (0 + _) _)), app_nil_r.
  - apply filter_ext_in. intros x Hx%elem_of_seqZ.
    by rewrite intn_once_eq, decide_True by (unfold max_uint32 in *; lia).
  - intros x Hx%elem_of_seqZ. rewrite intn_once_eq, decide_False by (unfold max_uint32 in *; lia). done.
Qed.

(** C18. [Intn] is unbiased: with any source, one turn of the loop returns or draws
    again depending on the four bytes drawn alone; of the 2^32 possible draws, exactly
    [max / n] return the result [v], the same number for each [v] in [0..n-1]; no
    other result is ever returned; and at least half of the draws return. *)
Theorem Intn_unbiased (n v : Z) :
  0 < n < 2 ^ 32 -> 0 <= v < n ->
  (forall R `{Reader R} fuel (r r' : R) bs, length bs = 4%nat -> Read 4 r = Ret (Ok bs, r') ->
     Intn (S fuel) n r = match intn_once n (be_get bs) with Some w => Ret (w, r') | None => Intn fuel n r' end) /\
  length (filter (fun x => intn_once n x = Some v) (seqZ 0 (2 ^ 32))) = Z.to_nat (max_uint32 / n) /\
  (forall x w, 0 <= x < 2 ^ 32 -> intn_once n x = Some w -> 0 <= w < n) /\
  2 ^ 31 <= zlen (filter (fun x => is_Some (intn_once n x)) (seqZ 0 (2 ^ 32))).
Proof.
  intros Hn Hv. destruct (intn_bound_facts n Hn) as [Hb Hge]. split_and!.
  - intros R HR fuel r r' bs Hl Hr. rewrite (Intn_draw n fuel r r' bs Hn Hl Hr).
    rewrite intn_once_eq by (done || apply (Uint32_draw bs Hl)). by case_decide.
  - etrans; [refine (f_equal length (filter_once n (fun o => o = Some v) Hn _)); done|].
    rewrite (list_filter_iff _ (fun x => x mod n = v)) by (intros x; split; [by intros [= ->]|by intros ->]).
    rewrite Hb. assert (0 <= max_uint32 / n) by (apply Z.div_pos; unfold max_uint32; lia).
    rewrite <- (Z2Nat.id (max_uint32 / n)) at 1 by done. apply count_residues; lia.
  - intros x w Hx. rewrite intn_once_eq by done. case_decide; [|done]. intros [= <-]. apply Z.mod_pos_bound. lia.
  - assert (filter (fun x => is_Some (intn_once n x)) (seqZ 0 (2 ^ 32)) = seqZ 0 (intn_bound n)) as ->.
    + etrans; [refine (filter_once n is_Some Hn _); by intros [? [=]]|]. apply filter_all, Forall_forall. intros x _. by eexists.
    + unfold zlen. rewrite length_seqZ. lia.
Qed.

Lemma Intn_unbiased_witness :
  @Intn Z counter_reader 2 1000000000 0 =
    match intn_once 1000000000 66051 with Some w => Ret (w, 4) | None => @Intn Z counter_reader 1 1000000000 4 end /\
  2 ^ 31 <= zlen (filter (fun x => is_Some (intn_once 1000000000 x)) (seqZ 0 (2 ^ 32))).
Proof.
  destruct (Intn_unbiased 1000000000 5) as (H1 & _ & _ & H2).
  - lia.
  - lia.
  - split; [|exact H2]. exact (H1 Z counter_reader 1%nat 0 4 [x00; x01; x02; x03] eq_refl eq_refl).
Defined.

(** ** NewShuffler *)

(** A source from which [Intn] gets an accepted value within [fuel] draws,
    whatever the modulus. A uniform source misses with probability at most
    [2^-fuel]. *)
Class LiveReader (R : Type) `{FullReader R} (fuel : nat) := intn_live :
  forall n r, reader_ok r -> 0 < n < 2 ^ 32 ->
    exists v r', Intn fuel n r = Ret (v, r') /\ 0 <= v < n /\ reader_ok r'.

Lemma shuffler_ok_Forall2 n s :
  Forall2 (fun i j => 0 <= j < i + 1) (seqZ 0 n) s -> shuffler_ok s /\ zlen s = Z.max 0 n.
Proof.
  intros H. split.
  - intros i j Hj. destruct (Forall2_lookup_r _ _ _ _ _ H Hj) as (z & Hz & ?).
    apply lookup_seqZ in Hz as [-> _]. lia.
  - apply Forall2_length in H. rewrite length_seqZ in H. unfold zlen. lia.
Qed.

Lemma NewShuffler_ret {R} `{LiveReader R fuel} (n : Z) (r : R) :
  reader_ok r -> 0 <= n < 2 ^ 32 ->
  exists s r', NewShuffler fuel n r = Ret (s, r') /\ shuffler_ok s /\ zlen s = n /\ reader_ok r'.
Proof.
  intros Hok Hn. unfold NewShuffler, go_make. rewrite decide_True by lia.
  unfold glift, gbind. assert (zlen (replicate (Z.to_nat n) 0) = n) as ->.
  { unfold zlen. rewrite length_replicate. lia. }
  destruct (go_map_total reader_ok (fun i j => 0 <= j < i + 1) (fun i => Intn fuel (i + 1)) (seqZ 0 n) r Hok)
    as (s & r' & Hm & Hf & Hok').
  - intros i r1 Hi%elem_of_seqZ Hok1. apply intn_live; [done|lia].
  - apply shuffler_ok_Forall2 in Hf as [Hs Hl]. exists s, r'. split_and!; [done|done|lia|done].
Qed.

(** [NewShuffler] terminates and builds a valid shuffler: for any batch of
    fewer than 2^32 messages, a live source gives a shuffler with one entry per
    message, entry [i] in [0..i], as [Shuffle] and [Unshuffle] need. *)
Lemma NewShuffler_valid {R} `{LiveReader R fuel} (n : Z) (r : R) :
  reader_ok r -> 0 <= n < 2 ^ 32 ->
  exists s r', NewShuffler fuel n r = Ret (s, r') /\ shuffler_ok s /\ zlen s = n /\ reader_ok r'.
Proof. apply NewShuffler_ret. Qed.

(** A constant source of a byte below 128 is live: its draws are below 2^31. *)
Lemma const_live (c : byte) :
  Z_of_byte c < 128 -> @LiveReader unit (const_reader c) (const_full c) 1.
Proof.
  intros Hc n r _ Hn. unfold Intn. rewrite decide_False by (rewrite u32_id; lia).
  destruct (@Intn_loop_step unit (const_reader c) (const_full c) n r I) as (x & r' & Hx & _ & Hd & Hs).
  assert (x < 2 ^ 31) as Hlt.
  { injection Hd as <- _. unfold be_get. cbn [replicate take foldl]. pose proof (Z_of_byte_range c). lia. }
  rewrite (Hs 0%nat). pose proof (intn_bound_facts n Hn).
  rewrite decide_True, u32_id by lia. exists (x mod n), r'. split_and!; [done|..|done].
  all: apply Z.mod_pos_bound; lia.
Qed.

Lemma NewShuffler_valid_witness :
  exists s r', @NewShuffler unit (const_reader x40) 1 3 tt = Ret (s, r') /\ shuffler_ok s /\ zlen s = 3.
Proof.
  destruct (@NewShuffler_valid unit (const_reader x40) (const_full x40) 1 (const_live x40 eq_refl) 3 tt I) as (s & r' & H1 & H2 & H3 & _);
    [lia|]. by exists s, r'.
Defined.
