(* ===== verification/Parallel.v ===== *)
(** * Parallel: spans and the parallel loop

    Models [internal/span.go] ([Spans]) and [internal/parallelfor.go]: [GP.Next]
    and [P.Next], and [ParallelFor] as a step relation in which the workers'
    calls of [Next] interleave in any order. Shows that every index is handed
    out exactly once under every schedule, so that loops whose body writes only
    [dest[i]] behave like the sequential loop; the other files model them so. *)

From stdpp Require Import numbers strings gmap relations list.
From S2P Require Import Prelude.

(** ** Spans *)

Record Span := mkSpan { sp_Start : Z; sp_Count : Z }.

#[export] Instance Span_eq_dec : EqDecision Span.
Proof. solve_decision. Defined.

(** The loop [for i := 0; i < total; i += c]. *)
Fixpoint Spans_loop (fuel : nat) (total spanSize i : Z) : outcome (list Span) :=
  if decide (i < total) then
    match fuel with
    | O => NoFuel
    | S fuel' =>
        let c := if decide (i64 (i + spanSize) <= total) then spanSize else i64 (total - i) in
        rest ← Spans_loop fuel' total spanSize (i64 (i + c));
        Ret (mkSpan i c :: rest)
    end
  else Ret [].

(** [make([]Span, 0, (total+spanSize-1)/spanSize)] panics on a zero divisor or a
    negative capacity. One unit of fuel per element of [total] is enough when
    [spanSize] is positive. *)
Definition Spans (total spanSize : Z) : outcome (list Span) :=
  if decide (spanSize = 0) then Panic divide_panic
  else if decide (Z.quot (i64 (total + spanSize - 1)) spanSize < 0) then Panic make_panic
  else Spans_loop (Z.to_nat total) total spanSize 0.

(** The indices a span covers. *)
Definition span_range (s : Span) : list Z := seqZ (sp_Start s) (sp_Count s).

(** ** Next *)

Record GP := mkGP { gp_max : Z; gp_current : Z; gp_step : Z }.

(** [base := atomic.AddInt64(&gp.current, gp.step) - gp.step] *)
Definition GP_Next (gp : GP) : (Z * bool) * GP :=
  let current' := i64 (gp_current gp + gp_step gp) in
  let base := i64 (current' - gp_step gp) in
  let gp' := mkGP (gp_max gp) current' (gp_step gp) in
  if decide (gp_max gp <= base) then ((0, false), gp') else ((base, true), gp').

Record P := mkP { p_max : Z; p_current : Z }.

(** [P.Next]: a fresh range from [gp] when the worker's own is used up. *)
Definition P_Next (p : P) (gp : GP) : (Z * bool) * P * GP :=
  if decide (p_max p <= p_current p) then
    let '((r, ok), gp') := GP_Next gp in
    if ok then
      let pmax := i64 (r + gp_step gp) in
      let pmax := if decide (gp_max gp < pmax) then gp_max gp else pmax in
      ((r, true), mkP pmax (i64 (r + 1)), gp')
    else ((0, false), p, gp')
  else ((p_current p, true), mkP (p_max p) (i64 (p_current p + 1)), gp).

(** ** ParallelFor *)

(** The state: the shared counter, the workers ([None] once its loop has ended),
    and the indices handed out so far, latest last. *)
Record PF := mkPF {
  pf_gp : GP;
  pf_workers : list (option P);
  pf_log : list Z;
}.

Definition pf_init (n NumCPU : Z) : PF :=
  let step := Z.quot (Z.quot n NumCPU) 100 in
  let step := if decide (step < 10) then 10 else step in
  mkPF (mkGP n 0 step) (replicate (Z.to_nat NumCPU) (Some (mkP 0 0))) [].

(** One call of [p.Next()] by worker [w], with the body run on the index it
    returns; the worker ends at the first [false]. *)
Definition pf_run (w : nat) (p : P) (st : PF) : PF :=
  let '((i, ok), p', gp') := P_Next p (pf_gp st) in
  if ok then mkPF gp' (<[w := Some p']> (pf_workers st)) (pf_log st ++ [i])
  else mkPF gp' (<[w := None]> (pf_workers st)) (pf_log st).

(** Any running worker may move next. *)
Inductive pf_step : relation PF :=
| pf_step_worker w p st :
    pf_workers st !! w = Some (Some p) -> pf_step st (pf_run w p st).

(** [gp.wg.Wait()] returns once every worker has ended. *)
Definition pf_done (st : PF) : Prop := Forall (fun o => o = None) (pf_workers st).

(** A loop body that writes [dest[i] = f(i)], run on the indices in the order of
    the log. *)
Definition fill_by {A} (f : Z -> A) (log : list Z) (dest : list A) : list A :=
  foldl (fun d i => <[Z.to_nat i := f i]> d) dest log.

(** ** Spans: lemmas and theorem *)

Lemma Spans_loop_cover total spanSize fuel i :
  0 <= i -> 0 < spanSize -> total + spanSize < 2 ^ 63 -> total - i <= Z.of_nat fuel ->
  exists l, Spans_loop fuel total spanSize i = Ret l /\
    l ≫= span_range = seqZ i (total - i) /\
    Forall (fun s => i <= sp_Start s /\ 0 < sp_Count s <= spanSize /\ sp_Start s + sp_Count s <= total) l /\
    Z.of_nat (length l) = Z.max 0 ((total - i + spanSize - 1) / spanSize).
Proof.
  intros Hi Hs Hb. revert i Hi. induction fuel as [|fuel IH]; intros i Hi Hf; cbn [Spans_loop].
  all: case_decide as Hlt; [try lia|].
  all: try (exists []; split_and!; [done|by rewrite seqZ_nil by lia|constructor|];
    assert ((total - i + spanSize - 1) / spanSize < 1) by (apply Z.div_lt_upper_bound; lia);
    simpl; lia).
  rewrite (i64_small (i + spanSize)), (i64_small (total - i)) by lia.
  set (c := if decide _ then _ else _).
  assert (0 < c <= spanSize /\ i + c <= total /\ (c = spanSize \/ i + c = total)) as (Hc & Hic & Hcase).
  { unfold c. case_decide; lia. }
  clearbody c. rewrite i64_small by lia.
  destruct (IH (i + c)) as (l & -> & Hcov & Hall & Hlen); [lia|lia|].
  eexists. split; [done|]. cbn [mbind outcome_bind]. split_and!.
  - rewrite bind_cons, Hcov. unfold span_range; cbn. replace (total - i) with (c + (total - (i + c))) by lia.
    by rewrite seqZ_app by lia.
  - constructor; [cbn; lia|]. eapply Forall_impl; [exact Hall|]. cbn. lia.
  - cbn [length]. rewrite Nat2Z.inj_succ, Hlen. destruct Hcase as [->| He].
    + replace (total - i + spanSize - 1) with (total - (i + spanSize) + spanSize - 1 + 1 * spanSize) by lia.
      rewrite Z.div_add by lia.
      assert (0 <= (total - (i + spanSize) + spanSize - 1) / spanSize) by (apply Z.div_pos; lia). lia.
    + replace (total - (i + c) + spanSize - 1) with (spanSize - 1) by lia.
      rewrite Z.div_small by lia.
      replace (total - i + spanSize - 1) with (c - 1 + 1 * spanSize) by lia.
      rewrite Z.div_add, Z.div_small by lia. done.
Qed.

(** Consecutive non-empty spans from [i] to [total]. *)
Inductive covers (total : Z) : Z -> list Span -> Prop :=
| covers_nil : covers total total []
| covers_cons i c l : 0 <= i -> 0 < c -> i + c <= total -> covers total (i + c) l ->
    covers total i (mkSpan i c :: l).

Lemma Spans_loop_covers total spanSize fuel i :
  0 <= i <= total -> 0 < spanSize -> total + spanSize < 2 ^ 63 -> total - i <= Z.of_nat fuel ->
  exists l, Spans_loop fuel total spanSize i = Ret l /\ covers total i l.
Proof.
  intros Hi Hs Hb. revert i Hi. induction fuel as [|fuel IH]; intros i Hi Hf; cbn [Spans_loop].
  all: case_decide as Hlt; [try lia|].
  all: try (exists []; split; [done|]; replace i with total by lia; constructor).
  rewrite (i64_small (i + spanSize)), (i64_small (total - i)) by lia.
  set (c := if decide _ then _ else _).
  assert (0 < c /\ i + c <= total) as [Hc Hic] by (unfold c; case_decide; lia).
  clearbody c. rewrite i64_small by lia.
  destruct (IH (i + c)) as (l & -> & Hcov); [lia|lia|].
  eexists. split; [done|]. constructor; (done || lia).
Qed.

Lemma Spans_covers total spanSize :
  0 <= total -> 0 < spanSize -> total + spanSize < 2 ^ 63 ->
  exists l, Spans total spanSize = Ret l /\ covers total 0 l.
Proof.
  intros Ht Hs Hb. unfold Spans. rewrite decide_False, decide_False by
    (try lia; rewrite i64_small by lia; pose proof (Z.quot_pos (total + spanSize - 1) spanSize); lia).
  apply Spans_loop_covers; lia.
Qed.

(** [Spans] cuts a batch into consecutive pieces: for a non-negative total and
    a positive span size it terminates, the spans one after another cover exactly
    the indices [0..total-1] in order, every span is non-empty, at most [spanSize]
    long and inside the batch, and there are [ceil(total/spanSize)] of them. *)
Lemma Spans_partition (total spanSize : Z) :
  0 <= total -> 0 < spanSize -> total + spanSize < 2 ^ 63 ->
  exists l, Spans total spanSize = Ret l /\
    l ≫= span_range = seqZ 0 total /\
    Forall (fun s => 0 <= sp_Start s /\ 0 < sp_Count s <= spanSize /\ sp_Start s + sp_Count s <= total) l /\
    Z.of_nat (length l) = (total + spanSize - 1) / spanSize.
Proof.
  intros Ht Hs Hb. unfold Spans. rewrite decide_False, decide_False.
  - destruct (Spans_loop_cover total spanSize (Z.to_nat total) 0) as (l & Hl & Hc & Ha & Hn); [lia..|].
    exists l. rewrite Z.sub_0_r in *. split_and!; [done..|]. rewrite Hn.
    assert (0 <= (total + spanSize - 1) / spanSize) by (apply Z.div_pos; lia). lia.
  - rewrite i64_small by lia. pose proof (Z.quot_pos (total + spanSize - 1) spanSize). lia.
  - lia.
Qed.

Lemma Spans_partition_witness :
  exists l, Spans 8001 4000 = Ret l /\ Z.of_nat (length l) = 3.
Proof.
  destruct (Spans_partition 8001 4000) as (l & H & _ & _ & Hn); [lia|lia|lia|].
  exists l. split; [exact H|]. rewrite Hn. reflexivity.
Defined.

(** ** ParallelFor: the invariant *)

(** What a worker still has to hand out of its own range. *)
Definition left_of (o : option P) : list Z :=
  match o with Some p => seqZ (p_current p) (p_max p - p_current p) | None => [] end.

Definition running (ws : list (option P)) : nat := length (omap id ws).

Record pf_inv (n step : Z) (ncpu : nat) (st : PF) : Prop := {
  inv_max : gp_max (pf_gp st) = n;
  inv_step : gp_step (pf_gp st) = step;
  inv_workers : length (pf_workers st) = ncpu;
  inv_current : 0 <= gp_current (pf_gp st) <= n + step * (1 + Z.of_nat ncpu - Z.of_nat (running (pf_workers st)));
  inv_range : Forall (fun o => match o with Some p => 0 <= p_current p /\ p_max p <= n | None => True end)
                (pf_workers st);
  inv_over : (running (pf_workers st) < ncpu)%nat -> n <= gp_current (pf_gp st);
  inv_perm : pf_log st ++ (pf_workers st ≫= left_of) ++
             seqZ (gp_current (pf_gp st)) (n - gp_current (pf_gp st)) ≡ₚ seqZ 0 n;
}.

Section ParallelForInv.
Context (n step : Z) (ncpu : nat).
Hypothesis Hn : 0 <= n.
Hypothesis Hstep : 0 < step.
Hypothesis Hbound : n + step * (2 + Z.of_nat ncpu) < 2 ^ 63.

Lemma running_le ws : (running ws <= length ws)%nat.
Proof. unfold running. induction ws as [|[p|] ws IH]; cbn; lia. Qed.

Lemma running_insert ws w p o :
  ws !! w = Some (Some p) ->
  running (<[w := o]> ws) = (running ws - 1 + length (option_list o))%nat /\ (0 < running ws)%nat.
Proof.
  intros Hw. pose proof (lookup_lt_Some _ _ _ Hw).
  rewrite insert_take_drop by done.
  assert (running ws = running (take w ws) + 1 + running (drop (S w) ws))%nat as ->.
  { rewrite <- (take_drop_middle ws w (Some p) Hw) at 1. unfold running.
    rewrite !omap_app, !length_app. cbn. lia. }
  unfold running. rewrite !omap_app, !length_app. destruct o; cbn; lia.
Qed.

Lemma left_insert ws w p o :
  ws !! w = Some (Some p) ->
  exists rest, ws ≫= left_of ≡ₚ left_of (Some p) ++ rest /\
               <[w := o]> ws ≫= left_of ≡ₚ left_of o ++ rest.
Proof.
  intros Hw. pose proof (lookup_lt_Some _ _ _ Hw).
  exists ((take w ws ≫= left_of) ++ (drop (S w) ws ≫= left_of)).
  rewrite insert_take_drop by done. rewrite <- (take_drop_middle ws w (Some p) Hw) at 1.
  rewrite !bind_app, !bind_cons. split; solve_Permutation.
Qed.

(** One call of [Next] from a state that satisfies the invariant. *)
Lemma P_Next_cases st w p :
  pf_inv n step ncpu st -> pf_workers st !! w = Some (Some p) ->
  let cur := gp_current (pf_gp st) in
  (p_current p < p_max p /\
   pf_run w p st = mkPF (pf_gp st) (<[w := Some (mkP (p_max p) (p_current p + 1))]> (pf_workers st))
                     (pf_log st ++ [p_current p])) \/
  (p_max p <= p_current p /\ cur < n /\
   pf_run w p st = mkPF (mkGP n (cur + step) step)
                     (<[w := Some (mkP (Z.min n (cur + step)) (cur + 1))]> (pf_workers st))
                     (pf_log st ++ [cur])) \/
  (p_max p <= p_current p /\ n <= cur /\
   pf_run w p st = mkPF (mkGP n (cur + step) step) (<[w := None]> (pf_workers st)) (pf_log st)).
Proof using Hn Hstep Hbound.
  intros [Hmax Hst Hl Hc Hr _ _] Hw cur. pose proof (Forall_lookup_1 _ _ _ _ Hr Hw) as [Hp0 Hpm]. cbn in *.
  pose proof (running_insert _ _ _ None Hw) as [_ Hpos]. pose proof (running_le (pf_workers st)).
  assert (cur + step < 2 ^ 63) as Hov by nia.
  unfold pf_run, P_Next, GP_Next. rewrite Hmax, Hst. fold cur.
  case_decide as Hd.
  - right. rewrite (i64_small (cur + step)) by lia.
    replace (cur + step - step) with cur by lia. rewrite (i64_small cur) by lia.
    case_decide; [right; by split_and!|left]. split_and!; [lia|lia|].
    rewrite (i64_small (cur + step)), (i64_small (cur + 1)) by lia. do 4 f_equal. case_decide; lia.
  - left. split; [lia|]. rewrite i64_small by lia. by destruct (pf_gp st).
Qed.

Lemma pf_inv_step st st' :
  pf_inv n step ncpu st -> pf_step st st' -> pf_inv n step ncpu st'.
Proof using Hn Hstep Hbound.
  intros Hinv Hs. destruct Hs as [w p st0 Hw]. pose proof (P_Next_cases _ _ _ Hinv Hw) as Hcases.
  destruct Hinv as [Hmax Hst Hl Hc Hr Ho Hp].
  pose proof (Forall_lookup_1 _ _ _ _ Hr Hw) as [Hp0 Hpm]. cbn in *.
  set (cur := gp_current (pf_gp st0)) in *.
  destruct Hcases as [[Hlt ->]|[(Hlt & Hcur & ->)|(Hlt & Hcur & ->)]].
  - set (o := Some (mkP (p_max p) (p_current p + 1))).
    pose proof (running_insert _ _ _ o Hw) as [Hrun Hpos].
    destruct (left_insert _ _ _ o Hw) as (rest & H1 & H2).
    split; cbn [pf_gp pf_workers pf_log]; [done|done|by rewrite length_insert| | | |].
    + rewrite Hrun. simpl. fold cur. split; [lia|]. etrans; [apply Hc|]. nia.
    + apply Forall_insert; [done|]. cbn. lia.
    + rewrite Hrun. simpl. intros. assert (n <= cur) by (apply Ho; lia). lia.
    + rewrite <- Hp, H1, H2. cbn. fold cur. rewrite (seqZ_cons (p_current p)) by lia.
      replace (Z.pred (p_max p - p_current p)) with (p_max p - (p_current p + 1)) by lia.
      unfold Z.succ. solve_Permutation.
  - set (o := Some (mkP (Z.min n (cur + step)) (cur + 1))).
    pose proof (running_insert _ _ _ o Hw) as [Hrun Hpos].
    destruct (left_insert _ _ _ o Hw) as (rest & H1 & H2).
    split; cbn [pf_gp pf_workers pf_log gp_max gp_step gp_current]; [done|done|by rewrite length_insert| | | |].
    + rewrite Hrun. pose proof (running_le (pf_workers st0)). simpl. nia.
    + apply Forall_insert; [done|]. cbn. lia.
    + rewrite Hrun. simpl. intros. assert (n <= cur) by (apply Ho; lia). lia.
    + rewrite <- Hp, H1, H2. cbn. rewrite (seqZ_nil (p_current p)) by lia.
      replace (n - cur) with (1 + ((Z.min n (cur + step) - (cur + 1)) + (n - Z.min n (cur + step)))) by lia.
      rewrite !seqZ_app by lia. replace (seqZ cur 1) with [cur] by (by rewrite seqZ_cons).
      replace (cur + 1 + (Z.min n (cur + step) - (cur + 1))) with (Z.min n (cur + step)) by lia.
      assert (seqZ (cur + step) (n - (cur + step)) = seqZ (Z.min n (cur + step)) (n - Z.min n (cur + step))) as ->.
      { destruct (decide (cur + step <= n)); [by rewrite Z.min_r by lia|].
        by rewrite !seqZ_nil by lia. }
      solve_Permutation.
  - pose proof (running_insert _ _ _ None Hw) as [Hrun Hpos].
    destruct (left_insert _ _ _ None Hw) as (rest & H1 & H2).
    split; cbn [pf_gp pf_workers pf_log gp_max gp_step gp_current]; [done|done|by rewrite length_insert| | | |].
    + rewrite Hrun. pose proof (running_le (pf_workers st0)). simpl. nia.
    + by apply Forall_insert.
    + intros _. lia.
    + rewrite <- Hp, H1, H2. cbn. rewrite (seqZ_nil (p_current p)), !(seqZ_nil _ (n - _)) by lia. done.
Qed.

Lemma pf_inv_log st : pf_inv n step ncpu st -> Z.of_nat (length (pf_log st)) <= n.
Proof using Hn.
  intros [_ _ _ _ _ _ Hp]. apply Permutation_length in Hp. rewrite length_app, length_seqZ in Hp. lia.
Qed.

(** Each step hands out an index or ends a worker. *)
Lemma pf_step_measure st st' :
  pf_inv n step ncpu st -> pf_step st st' ->
  Z.of_nat (length (pf_log st')) - Z.of_nat (running (pf_workers st')) =
  Z.of_nat (length (pf_log st)) - Z.of_nat (running (pf_workers st)) + 1.
Proof using Hn Hstep Hbound.
  intros Hinv Hs. destruct Hs as [w p st0 Hw]. pose proof (P_Next_cases _ _ _ Hinv Hw) as Hcases. cbn in Hcases.
  destruct Hcases as [[Hlt ->]|[(Hlt & Hcur & ->)|(Hlt & Hcur & ->)]]; cbn [pf_log pf_workers];
    match goal with |- context [<[w := ?o]> _] => destruct (running_insert _ _ _ o Hw) as [-> ?] end;
    rewrite ?length_app; simpl; lia.
Qed.

End ParallelForInv.

Lemma running_replicate k : running (replicate k (Some (mkP 0 0))) = k.
Proof. unfold running. induction k as [|k IH]; cbn; [done|]. by rewrite IH. Qed.

Lemma left_replicate k : replicate k (Some (mkP 0 0)) ≫= left_of = [].
Proof. induction k as [|k IH]; [done|]. cbn [replicate]. by rewrite bind_cons, IH. Qed.

(** The step of [ParallelFor] and the absence of overflow for realistic sizes. *)
Lemma pf_init_step n NumCPU :
  0 <= n < 2 ^ 62 -> 0 < NumCPU < 2 ^ 32 ->
  let step := gp_step (pf_gp (pf_init n NumCPU)) in
  0 < step /\ n + step * (2 + Z.of_nat (Z.to_nat NumCPU)) < 2 ^ 63.
Proof.
  intros Hn Hc. cbn. rewrite Z2Nat.id by lia. case_decide as Hd; [lia|].
  rewrite !Z.quot_div_nonneg in * by (try lia; apply Z.quot_pos; lia).
  split; [lia|].
  assert (n / NumCPU / 100 * NumCPU <= n / 100).
  { rewrite Z.div_div, (Z.mul_comm NumCPU), <- Z.div_div by lia.
    rewrite Z.mul_comm. apply Z.mul_div_le. lia. }
  assert (n / NumCPU / 100 <= n / 100).
  { apply Z.div_le_mono; [lia|]. apply Z.div_le_upper_bound; nia. }
  assert (n / 100 <= n) by (apply Z.div_le_upper_bound; lia).
  assert (3 * (n / 100) <= n) by (pose proof (Z.mul_div_le n 100); lia). lia.
Qed.

Lemma pf_init_inv n NumCPU :
  0 <= n -> 0 < NumCPU ->
  pf_inv n (gp_step (pf_gp (pf_init n NumCPU))) (Z.to_nat NumCPU) (pf_init n NumCPU).
Proof.
  intros Hn Hc. split; cbn [pf_init pf_gp pf_workers pf_log gp_max gp_step gp_current].
  - done.
  - done.
  - by rewrite length_replicate.
  - rewrite running_replicate. case_decide; lia.
  - apply Forall_replicate. cbn. lia.
  - rewrite running_replicate. lia.
  - by rewrite left_replicate, Z.sub_0_r.
Qed.

Lemma pf_reachable_inv n NumCPU st :
  0 <= n < 2 ^ 62 -> 0 < NumCPU < 2 ^ 32 -> rtc pf_step (pf_init n NumCPU) st ->
  pf_inv n (gp_step (pf_gp (pf_init n NumCPU))) (Z.to_nat NumCPU) st.
Proof.
  intros Hn Hc Hr. destruct (pf_init_step n NumCPU Hn Hc) as [Hs Hb].
  pose proof (pf_init_inv n NumCPU ltac:(lia) ltac:(lia)) as Hinv.
  set (step := gp_step _) in *. clearbody step.
  induction Hr as [|x y z Hxy _ IH]; [done|]. apply IH. by eapply pf_inv_step; [lia|..].
Qed.

Lemma done_left ws : Forall (fun o => o = None) ws -> ws ≫= left_of = [] /\ running ws = 0%nat.
Proof. induction 1 as [|o ws -> _ [IH1 IH2]]; [done|]. rewrite bind_cons. cbn. by rewrite IH1. Qed.

Lemma pf_done_perm n NumCPU st :
  0 <= n < 2 ^ 62 -> 0 < NumCPU < 2 ^ 32 -> rtc pf_step (pf_init n NumCPU) st -> pf_done st ->
  pf_log st ≡ₚ seqZ 0 n.
Proof.
  intros Hn Hc Hr Hd. destruct (pf_reachable_inv _ _ _ Hn Hc Hr) as [_ _ Hl _ _ Ho Hp].
  destruct (done_left _ Hd) as [Hleft Hrun]. rewrite <- Hp, Hleft.
  assert (n <= gp_current (pf_gp st)) by (apply Ho; lia). by rewrite seqZ_nil, !app_nil_r by lia.
Qed.

(** C37. The parallel loop visits every index exactly once, under every
    interleaving of its workers: in any reachable state the indices handed out
    are distinct and inside [0..n-1], and once all workers have ended they are
    all of [0..n-1]. *)
Theorem ParallelFor_exactly_once (n NumCPU : Z) (st : PF) :
  0 <= n < 2 ^ 62 -> 0 < NumCPU < 2 ^ 32 -> rtc pf_step (pf_init n NumCPU) st ->
  NoDup (pf_log st) /\ (forall i, i ∈ pf_log st -> 0 <= i < n) /\
  (pf_done st -> pf_log st ≡ₚ seqZ 0 n).
Proof.
  intros Hn Hc Hr. destruct (pf_reachable_inv _ _ _ Hn Hc Hr) as [Hm Hs Hl Hcur Hrg Ho Hp]. split_and!.
  - assert (NoDup (seqZ 0 n)) as Hnd by apply NoDup_seqZ. rewrite <- Hp in Hnd.
    by apply NoDup_app in Hnd as [? _].
  - intros i Hi. assert (i ∈ seqZ 0 n) as ?%elem_of_seqZ by (rewrite <- Hp; set_solver). lia.
  - by eapply pf_done_perm.
Qed.

(** The parallel loop ends: no run of the workers is longer than [n + NumCPU]
    calls of [Next], and as long as some worker has not ended another call can
    be made, so [Wait] returns after finitely many calls whatever the schedule. *)
Lemma ParallelFor_terminates (n NumCPU : Z) (k : nat) (st : PF) :
  0 <= n < 2 ^ 62 -> 0 < NumCPU < 2 ^ 32 -> nsteps pf_step k (pf_init n NumCPU) st ->
  Z.of_nat k <= n + NumCPU /\ (pf_done st \/ exists st', pf_step st st').
Proof.
  intros Hn Hc Hk. destruct (pf_init_step n NumCPU Hn Hc) as [Hs Hb].
  assert (forall st0, pf_inv n (gp_step (pf_gp (pf_init n NumCPU))) (Z.to_nat NumCPU) st0 ->
    nsteps pf_step k st0 st ->
    Z.of_nat k = (Z.of_nat (length (pf_log st)) - Z.of_nat (running (pf_workers st))) -
                 (Z.of_nat (length (pf_log st0)) - Z.of_nat (running (pf_workers st0)))) as Hlen.
  { set (step := gp_step _) in *. clearbody step. clear Hk. intros st0 Hinv Hk.
    induction Hk as [|k x y z Hxy Hyz IH]; [lia|].
    rewrite Nat2Z.inj_succ, IH by (by eapply pf_inv_step; [lia|..]).
    pose proof (pf_step_measure _ _ _ (proj1 Hn) Hs Hb _ _ Hinv Hxy). lia. }
  specialize (Hlen _ (pf_init_inv n NumCPU ltac:(lia) ltac:(lia)) Hk).
  assert (rtc pf_step (pf_init n NumCPU) st) as Hr by (eapply rtc_nsteps; eauto).
  pose proof (pf_inv_log _ _ _ (proj1 Hn) _ (pf_reachable_inv _ _ _ Hn Hc Hr)).
  unfold pf_init in Hlen. cbn [pf_workers pf_log] in Hlen. rewrite running_replicate in Hlen.
  split; [simpl in Hlen; lia|].
  unfold pf_done. destruct (decide (Forall (fun o => o = None) (pf_workers st))) as [|Hnd]; [by left|].
  right. apply not_Forall_Exists in Hnd; [|apply _].
  apply Exists_exists in Hnd as ([p|] & Hp & ?); [|by cbn in *].
  apply list_elem_of_lookup_1 in Hp as [w Hw]. eexists. by eapply pf_step_worker.
Qed.

(** ** Parallel loops that fill a slice *)

Lemma fill_by_length {A} (f : Z -> A) log dest : length (fill_by f log dest) = length dest.
Proof.
  unfold fill_by. revert dest. induction log as [|i log IH]; intros dest; [done|].
  cbn. by rewrite IH, length_insert.
Qed.

Lemma fill_by_lookup {A} (f : Z -> A) log dest (i : nat) :
  (forall z, z ∈ log -> 0 <= z) -> (i < length dest)%nat ->
  fill_by f log dest !! i = if decide (Z.of_nat i ∈ log) then Some (f (Z.of_nat i)) else dest !! i.
Proof.
  unfold fill_by. revert dest. induction log as [|z log IH]; intros dest Hpos Hi; [done|].
  cbn. rewrite IH; [|set_solver|by rewrite length_insert].
  destruct (decide (Z.of_nat i ∈ log)) as [Hin|Hin]; [by rewrite decide_True by set_solver|].
  destruct (decide (z = Z.of_nat i)) as [->|Hne].
  - rewrite decide_True by set_solver. rewrite Nat2Z.id. by apply list_lookup_insert_eq.
  - rewrite decide_False by set_solver. apply list_lookup_insert_ne.
    assert (0 <= z) by set_solver. lia.
Qed.

(** A parallel loop that stores [f(i)] in [dest[i]] computes what the
    sequential loop computes, in every complete run. *)
Lemma ParallelFor_fill {A} (f : Z -> A) (dest : list A) (n NumCPU : Z) (st : PF) :
  0 <= n < 2 ^ 62 -> 0 < NumCPU < 2 ^ 32 -> zlen dest = n ->
  rtc pf_step (pf_init n NumCPU) st -> pf_done st ->
  fill_by f (pf_log st) dest = f <$> seqZ 0 n.
Proof.
  intros Hn Hc Hd Hr Hdone.
  pose proof (pf_done_perm _ _ _ Hn Hc Hr Hdone) as Hp.
  apply list_eq. intros i. destruct (decide (i < length dest)%nat) as [Hi|Hi].
  - rewrite fill_by_lookup; [|intros z Hz; rewrite Hp in Hz; apply elem_of_seqZ in Hz; lia|done].
    unfold zlen in Hd. rewrite decide_True by (rewrite Hp; apply elem_of_seqZ; lia).
    rewrite list_lookup_fmap, lookup_seqZ_lt by lia. done.
  - unfold zlen in Hd. rewrite !lookup_ge_None_2; [done| |].
    + rewrite length_fmap, length_seqZ. lia.
    + rewrite fill_by_length. lia.
Qed.

(** ** Witnesses: a run of two workers over three indices *)

Fixpoint pf_schedule (ws : list nat) (st : PF) : PF :=
  match ws with
  | [] => st
  | w :: ws' =>
      match pf_workers st !! w with
      | Some (Some p) => pf_schedule ws' (pf_run w p st)
      | _ => pf_schedule ws' st
      end
  end.

Lemma pf_schedule_rtc ws st : rtc pf_step st (pf_schedule ws st).
Proof.
  revert st. induction ws as [|w ws IH]; intros st; cbn; [done|].
  destruct (pf_workers st !! w) as [[p|]|] eqn:E; [|done..].
  eapply rtc_l; [by constructor|done].
Qed.

Definition pf_example : PF := pf_schedule [0; 1; 0; 0; 0]%nat (pf_init 3 2).

Lemma ParallelFor_exactly_once_witness : pf_done pf_example /\ pf_log pf_example ≡ₚ seqZ 0 3.
Proof.
  assert (pf_done pf_example) as Hd by (repeat constructor).
  split; [exact Hd|].
  apply (ParallelFor_exactly_once 3 2 pf_example); [lia|lia|apply pf_schedule_rtc|exact Hd].
Defined.

Lemma ParallelFor_terminates_witness : Z.of_nat 0 <= 3 + 2.
Proof. apply (ParallelFor_terminates 3 2 0 (pf_init 3 2)); [lia|lia|constructor]. Defined.

Lemma ParallelFor_fill_witness :
  fill_by (fun i => i * i) (pf_log pf_example) [7; 7; 7] = [0; 1; 4].
Proof.
  rewrite (ParallelFor_fill (fun i => i * i) [7; 7; 7] 3 2 pf_example);
    [reflexivity|lia|lia|reflexivity|apply pf_schedule_rtc|repeat constructor].
Defined.
