(* ===== verification/OnionBox.v ===== *)
(** * OnionBox: layered encryption

    Models [onionbox/onion.go] ([Seal], [Open]) over NaCl's box, which is a
    parameter: the classes [Box] and [KeyGen] name its functions, [BoxLaws] and
    [KeyGenLaws] what its documentation promises. *)

From stdpp Require Import numbers strings gmap list.
From Stdlib Require Import Strings.Byte.
From S2P Require Import Prelude Binary Wire Rand.

(** ** NaCl's box *)

Class Box := {
  (** [box.Precompute(sharedKey, peersPublicKey, privateKey)] *)
  Precompute : BoxKey -> BoxKey -> BoxKey;
  (** [box.SealAfterPrecomputation(out, message, nonce, sharedKey)] appends this to [out]. *)
  SealAfterPrecomputation : bytes -> Nonce -> BoxKey -> bytes;
  (** [box.OpenAfterPrecomputation(nil, box, nonce, sharedKey)]; [None] is [ok = false]. *)
  OpenAfterPrecomputation : bytes -> Nonce -> BoxKey -> option bytes;
}.

(** [box.Seal] and [box.Open]: the same with the shared key computed on the way. *)
Definition box_Seal `{Box} (message : bytes) (nonce : Nonce) (peersPublicKey privateKey : BoxKey) : bytes :=
  SealAfterPrecomputation message nonce (Precompute peersPublicKey privateKey).
Definition box_Open `{Box} (ctxt : bytes) (nonce : Nonce) (peersPublicKey privateKey : BoxKey) : option bytes :=
  OpenAfterPrecomputation ctxt nonce (Precompute peersPublicKey privateKey).

(** [box.GenerateKey(rand)]: a public and a private key. *)
Class KeyGen (R : Type) := GenerateKey : GoM R (result (BoxKey * BoxKey)).

(** Documented: two parties compute the same shared key from each other's public
    keys; opening undoes sealing; a box is [box.Overhead] bytes longer than its
    message. *)
Class BoxLaws `{Box} := {
  keypair : BoxKey -> BoxKey -> Prop;
  Precompute_agree : forall pa sa pb sb, keypair pa sa -> keypair pb sb ->
    Precompute pa sb = Precompute pb sa;
  Seal_length : forall m n k, zlen (SealAfterPrecomputation m n k) = zlen m + box_Overhead;
  Open_Seal : forall m n k, OpenAfterPrecomputation (SealAfterPrecomputation m n k) n k = Some m;
  Open_length : forall c n k m, OpenAfterPrecomputation c n k = Some m -> zlen c = zlen m + box_Overhead;
}.

(** Documented: a fresh key pair of 32-byte keys. *)
Class KeyGenLaws (R : Type) `{FullReader R, BoxLaws, !KeyGen R} := GenerateKey_ok :
  forall r : R, reader_ok r -> exists pk sk r',
    GenerateKey r = Ret (Ok (pk, sk), r') /\ keypair pk sk /\ length pk = 32%nat /\ reader_ok r'.

(** ** Seal and Open *)

(** The loop [for i := len(publicKeys) - 1; i >= 0; i--]: the innermost layer,
    for the last key, first. A nil key is dereferenced by [Precompute]. *)
Fixpoint onion_Seal `{Box, KeyGen R} (message : bytes) (nonce : Nonce)
    (publicKeys : list (option BoxKey)) : GoM R (bytes * list BoxKey) :=
  match publicKeys with
  | [] => gret (message, [])
  | publicKey :: publicKeys' =>
      (let! (onion, sharedKeys) := onion_Seal message nonce publicKeys' in
       let! kp := GenerateKey in
       match kp with
       | Err e => glift (Panic e)
       | Ok (myPublicKey, myPrivateKey) =>
           match publicKey with
           | None => glift (Panic nil_panic)
           | Some pk =>
               let sharedKey := Precompute pk myPrivateKey in
               gret (myPublicKey ++ SealAfterPrecomputation onion nonce sharedKey,
                     sharedKey :: sharedKeys)
           end
       end)%go
  end.

Fixpoint onion_Open `{Box} (onion : bytes) (nonce : Nonce) (sharedKeys : list BoxKey) : option bytes :=
  match sharedKeys with
  | [] => Some onion
  | sharedKey :: sharedKeys' =>
      match OpenAfterPrecomputation onion nonce sharedKey with
      | Some message => onion_Open message nonce sharedKeys'
      | None => None
      end
  end.

(** ** What the servers do with an onion *)

(** A server takes the first 32 bytes as the sender's public key and opens the
    rest (the step [ConvoService.Add] and [DialService.Add] perform). *)
Definition peel_key `{Box} (privateKey : BoxKey) (onion : bytes) : BoxKey :=
  Precompute (take 32 onion) privateKey.
Definition peel `{Box} (privateKey : BoxKey) (nonce : Nonce) (onion : bytes) : option bytes :=
  OpenAfterPrecomputation (drop 32 onion) nonce (peel_key privateKey onion).

(** All servers in order: the innermost message and the shared keys they computed. *)
Fixpoint peel_all `{Box} (privateKeys : list BoxKey) (nonce : Nonce) (onion : bytes)
    : option (bytes * list BoxKey) :=
  match privateKeys with
  | [] => Some (onion, [])
  | sk :: sks =>
      inner ← peel sk nonce onion;
      p ← peel_all sks nonce inner;
      Some (p.1, peel_key sk onion :: p.2)
  end.

(** The reply on its way back: each server seals what it gets from the next one. *)
Definition wrap_all `{Box} (sharedKeys : list BoxKey) (nonce : Nonce) (reply : bytes) : bytes :=
  foldr (fun k m => SealAfterPrecomputation m nonce k) reply sharedKeys.

(** ** Lemmas *)

Section Onions.
Context {R : Type} `{KeyGenLaws R}.

Lemma peel_layer pk sk epk esk onion nonce :
  keypair pk sk -> keypair epk esk -> length epk = 32%nat ->
  let layered := epk ++ SealAfterPrecomputation onion nonce (Precompute pk esk) in
  peel_key sk layered = Precompute pk esk /\ peel sk nonce layered = Some onion.
Proof.
  intros Hk He Hl layered. unfold peel, peel_key, layered.
  rewrite take_app_length', drop_app_length' by done.
  rewrite (Precompute_agree epk esk pk sk He Hk), Open_Seal. done.
Qed.

Lemma onion_Seal_peel message nonce (keys : list (BoxKey * BoxKey)) (r : R) :
  reader_ok r -> Forall (fun k => keypair k.1 k.2) keys ->
  exists onion shared r',
    onion_Seal message nonce ((fun k => Some k.1) <$> keys) r = Ret ((onion, shared), r') /\
    zlen onion = zlen message + zlen keys * onionbox_Overhead /\
    length shared = length keys /\
    peel_all (snd <$> keys) nonce onion = Some (message, shared) /\ reader_ok r'.
Proof.
  intros Hok Hkeys. revert r Hok. induction Hkeys as [|[pk sk] keys Hk _ IH]; intros r Hok.
  { eexists _, _, _. split_and!; [done|unfold zlen; simpl; lia|done..]. }
  cbn in Hk. destruct (IH r Hok) as (onion & shared & r1 & Hs & Hlen & Hsh & Hp & Hok1).
  destruct (GenerateKey_ok r1 Hok1) as (epk & esk & r2 & Hg & Hek & Hel & Hok2).
  destruct (peel_layer pk sk epk esk onion nonce Hk Hek Hel) as [Hpk Hpeel].
  eexists _, _, r2. cbn [onion_Seal fmap list_fmap fst]. split_and!.
  - rewrite (gbind_eq _ _ _ _ _ Hs), (gbind_eq _ _ _ _ _ Hg). done.
  - rewrite zlen_app, Seal_length, Hlen. unfold zlen, onionbox_Overhead. cbn [length]. lia.
  - cbn [length]. by rewrite Hsh.
  - cbn [peel_all fmap list_fmap snd]. rewrite Hpeel. cbn. rewrite Hp. cbn. by rewrite Hpk.
  - done.
Qed.

Lemma onion_Open_wrap shared nonce reply :
  onion_Open (wrap_all shared nonce reply) nonce shared = Some reply.
Proof. induction shared as [|k shared IH]; cbn; [done|]. by rewrite Open_Seal. Qed.

Lemma wrap_all_length shared nonce reply :
  zlen (wrap_all shared nonce reply) = zlen reply + zlen shared * box_Overhead.
Proof.
  induction shared as [|k shared IH]; [unfold zlen; cbn; lia|].
  cbn [wrap_all foldr]. rewrite Seal_length. fold (wrap_all shared nonce reply). rewrite IH.
  unfold zlen. cbn [length]. lia.
Qed.

(** C21. An onion passes through the servers and the reply comes back: sealing for
    servers with key pairs [keys] succeeds; the onion is 48 bytes per server longer
    than the message; the servers, each with its own private key, peel it in order
    down to the message and compute the very shared keys the sender holds; and a
    reply sealed by the servers in reverse order is opened by the sender, 16
    bytes per server longer on the way. *)
Theorem onion_roundtrip (message reply : bytes) (nonce nonce' : Nonce)
    (keys : list (BoxKey * BoxKey)) (r : R) :
  reader_ok r -> Forall (fun k => keypair k.1 k.2) keys ->
  exists onion shared r',
    onion_Seal message nonce ((fun k => Some k.1) <$> keys) r = Ret ((onion, shared), r') /\
    zlen onion = zlen message + zlen keys * onionbox_Overhead /\
    peel_all (snd <$> keys) nonce onion = Some (message, shared) /\
    zlen (wrap_all shared nonce' reply) = zlen reply + zlen keys * box_Overhead /\
    onion_Open (wrap_all shared nonce' reply) nonce' shared = Some reply.
Proof.
  intros Hok Hk. destruct (onion_Seal_peel message nonce keys r Hok Hk)
    as (onion & shared & r' & Hs & Hl & Hsh & Hp & _).
  exists onion, shared, r'. split_and!; [done..| |apply onion_Open_wrap].
  rewrite wrap_all_length. unfold zlen. by rewrite Hsh.
Qed.

End Onions.

(** ** A concrete box for the witnesses

    Key pairs are equal keys, the shared key is the bytewise sum, and a box is
    the message behind a 16-byte tag of the key and the nonce. *)

Definition toy_add (a b : bytes) : bytes :=
  zip_with (fun x y => byte_of_Z (Z_of_byte x + Z_of_byte y)) a b.
Definition toy_tag (n k : bytes) : bytes := take 16 (toy_add k n ++ replicate 16 x00).

#[local] Instance toy_box : Box := {|
  Precompute := toy_add;
  SealAfterPrecomputation m n k := toy_tag n k ++ m;
  OpenAfterPrecomputation c n k :=
    if decide (take 16 c = toy_tag n k) then Some (drop 16 c) else None |}.

Lemma toy_tag_length n k : length (toy_tag n k) = 16%nat.
Proof. unfold toy_tag. rewrite length_take, length_app, length_replicate. lia. Qed.

Lemma toy_add_comm a b : toy_add a b = toy_add b a.
Proof.
  unfold toy_add. revert b. induction a as [|x a IH]; intros [|y b]; cbn; [done..|].
  by rewrite IH, Z.add_comm.
Qed.

#[local] Program Instance toy_laws : BoxLaws := {| keypair pk sk := pk = sk |}.
Next Obligation. intros pa sa pb sb -> ->. apply toy_add_comm. Qed.
Next Obligation. intros m n k. cbn. rewrite zlen_app. unfold zlen. rewrite toy_tag_length. unfold box_Overhead. lia. Qed.
Next Obligation.
  intros m n k. cbn. rewrite take_app_length', drop_app_length' by (by rewrite toy_tag_length).
  by rewrite decide_True.
Qed.
Next Obligation.
  intros c n k m. cbn. case_decide as Ht; [|done]. intros [= <-].
  apply (f_equal length) in Ht. rewrite toy_tag_length, length_take in Ht.
  unfold zlen, box_Overhead. rewrite length_drop. lia.
Qed.

Definition toy_keygen : KeyGen Z := fun r =>
  let k := byte_of_Z <$> seqZ r 32 in Ret (Ok (k, k), r + 32).

Lemma toy_keygen_laws : @KeyGenLaws Z counter_reader counter_full toy_box toy_laws toy_keygen.
Proof. intros r _. eexists _, _, _. split_and!; [done|done|done|exact I]. Qed.

(** The source of zeroes generates a fixed pair. *)
Definition zero_keygen : KeyGen unit := fun _ =>
  Ret (Ok (replicate 32 x01, replicate 32 x01), tt).

Lemma onion_roundtrip_witness :
  exists onion shared r',
    @onion_Seal toy_box Z toy_keygen [x48; x69] (ForwardNonce 1)
      [Some (replicate 32 x03); Some (replicate 32 x05)] 0 = Ret ((onion, shared), r') /\
    zlen onion = 2 + 2 * onionbox_Overhead /\
    onion_Open (wrap_all shared (BackwardNonce 1) [x6f; x6b]) (BackwardNonce 1) shared = Some [x6f; x6b].
Proof.
  destruct (@onion_roundtrip Z counter_reader counter_full toy_box toy_laws toy_keygen toy_keygen_laws
    [x48; x69] [x6f; x6b] (ForwardNonce 1) (BackwardNonce 1)
    [(replicate 32 x03, replicate 32 x03); (replicate 32 x05, replicate 32 x05)] 0 I)
    as (onion & shared & r' & H1 & H2 & _ & _ & H3); [repeat constructor|].
  exists onion, shared, r'. split; [exact H1|]. split; [exact H2|exact H3].
Defined.
