(* ===== verification/Pki.v ===== *)
(** * Pki: the list of servers

    Models [pki.go] and the key list helpers of [boxkey.go]: validation of the
    configuration, the position of a server in the chain, the keys of the servers
    after it and the sizes its onions must have. *)

From stdpp Require Import numbers strings gmap list.
From Stdlib Require Import Strings.Byte Strings.Ascii.
From S2P Require Import Prelude Binary Wire Rand OnionBox.

Record ServerInfo := mkServerInfo {
  si_Address : string;
  si_PublicKey : option BoxKey;
}.

(** The values of the two maps are non-nil pointers; [PublicKey] may be nil. *)
Record PKI := mkPKI {
  pki_People : gmap string BoxKey;
  pki_Servers : gmap string ServerInfo;
  pki_ServerOrder : list string;
  pki_EntryServer : string;
}.

(** [keys.Keys()]: the same pointers at another type. *)
Definition Keys (keys : list (option BoxKey)) : list (option BoxKey) :=
  (fun k => k) <$> keys.

(** ** ReadPKI, after the JSON has been decoded *)

(** [strings.IndexByte(addr, ':') == -1] *)
Fixpoint has_byte (c : ascii) (s : string) : bool :=
  match s with
  | EmptyString => false
  | String a s' => if decide (a = c) then true else has_byte c s'
  end.

(** [net.JoinHostPort]: brackets around a host with a colon. *)
Definition JoinHostPort (host port : string) : string :=
  if has_byte ":" host then "[" +:+ host +:+ "]:" +:+ port else host +:+ ":" +:+ port.

(** The loop over [ServerOrder]; [Err] is [log.Fatalf], which ends the process. The texts
    are those of its formats without the path in front and the quotes around the name. *)
Fixpoint check_servers (order : list string) (servers : gmap string ServerInfo)
    : result (gmap string ServerInfo) :=
  match order with
  | [] => Ok servers
  | s :: order' =>
      match servers !! s with
      | None => Err ("server " +:+ s +:+ " not found")
      | Some info =>
          if decide (si_Address info = "") then
            Err ("server " +:+ s +:+ " does not specify an Address")
          else
            let info' := if has_byte ":" (si_Address info) then info
                         else mkServerInfo (JoinHostPort (si_Address info) DefaultServerPort)
                                           (si_PublicKey info) in
            check_servers order' (<[s := info']> servers)
      end
  end.

Definition ReadPKI (pki : PKI) : result PKI :=
  if decide (pki_ServerOrder pki = []) then Err "ServerOrder must contain at least one server"
  else
    match check_servers (pki_ServerOrder pki) (pki_Servers pki) with
    | Ok servers => Ok (mkPKI (pki_People pki) servers (pki_ServerOrder pki) (pki_EntryServer pki))
    | Err e => Err e
    end.

(** ** Lookups *)

(** [pki.Servers[s]], dereferenced: nil when [s] is absent. *)
Definition server_info (pki : PKI) (s : string) : outcome ServerInfo :=
  match pki_Servers pki !! s with Some info => Ret info | None => Panic nil_panic end.

(** The loops of [ServerKeys] and [NextServerKeys] over part of the order. *)
Fixpoint server_keys (pki : PKI) (order : list string) : outcome (list (option BoxKey)) :=
  match order with
  | [] => Ret []
  | s :: order' =>
      info ← server_info pki s;
      keys ← server_keys pki order';
      Ret (si_PublicKey info :: keys)
  end.

Definition ServerKeys (pki : PKI) : outcome (list (option BoxKey)) :=
  server_keys pki (pki_ServerOrder pki).

Definition FirstServer (pki : PKI) : outcome string :=
  s ← go_index (pki_ServerOrder pki) 0;
  info ← server_info pki s;
  Ret (si_Address info).

Definition LastServer_addr (pki : PKI) : outcome string :=
  s ← go_index (pki_ServerOrder pki) (zlen (pki_ServerOrder pki) - 1);
  info ← server_info pki s;
  Ret (si_Address info).

(** [for i, s = range pki.ServerOrder { if s == serverName { break } }]: [i] keeps
    the last index when no entry matches, and 0 when there is none. *)
Fixpoint index_loop (order : list string) (serverName : string) (i last : Z) : Z :=
  match order with
  | [] => last
  | s :: order' => if decide (s = serverName) then i else index_loop order' serverName (i + 1) i
  end.
Definition Index (pki : PKI) (serverName : string) : Z :=
  index_loop (pki_ServerOrder pki) serverName 0 0.

(** The address of the next server, empty for the last one. *)
Definition NextServer (pki : PKI) (serverName : string) : outcome string :=
  let i := Index pki serverName in
  if decide (i < zlen (pki_ServerOrder pki) - 1) then
    s ← go_index (pki_ServerOrder pki) (i + 1);
    info ← server_info pki s;
    Ret (si_Address info)
  else Ret "".

Definition NextServerKeys (pki : PKI) (serverName : string) : outcome (list (option BoxKey)) :=
  let i := Index pki serverName in
  order ← go_slice (pki_ServerOrder pki) (i + 1) (zlen (pki_ServerOrder pki));
  server_keys pki order.

Definition IncomingOnionOverhead (pki : PKI) (serverName : string) : Z :=
  (zlen (pki_ServerOrder pki) - Index pki serverName) * onionbox_Overhead.

Definition OutgoingOnionOverhead (pki : PKI) (serverName : string) : Z :=
  (zlen (pki_ServerOrder pki) - Index pki serverName) * box_Overhead.

(** ** Well-formedness *)

(** The keys of the chain, in order: what [ReadPKI] leaves unchecked is that each
    server has a key and that no server is listed twice. *)
Definition pki_keys (pki : PKI) (keys : list BoxKey) : Prop :=
  Forall2 (fun s k => exists addr, pki_Servers pki !! s = Some (mkServerInfo addr (Some k)))
    (pki_ServerOrder pki) keys.

Definition pki_wf (pki : PKI) (keys : list BoxKey) : Prop :=
  pki_ServerOrder pki <> [] /\ NoDup (pki_ServerOrder pki) /\ pki_keys pki keys.

(** ** Lemmas *)

Lemma index_loop_found order name (j : nat) i last :
  NoDup order -> order !! j = Some name -> index_loop order name i last = i + Z.of_nat j.
Proof.
  intros Hnd. revert j i last. induction Hnd as [|s order Hs Hnd IH]; intros [|j] i last Hj; simplify_eq/=.
  - rewrite decide_True by done. lia.
  - rewrite decide_False.
    + rewrite (IH j) by done. lia.
    + intros ->. apply Hs. by eapply list_elem_of_lookup_2.
Qed.

Lemma index_loop_missing order name i last :
  name ∉ order -> index_loop order name i last = if decide (order = []) then last else i + zlen order - 1.
Proof.
  revert i last. induction order as [|s order IH]; intros i last Hn; [done|].
  cbn [index_loop]. rewrite (decide_False (P := s = name)) by set_solver. rewrite IH by set_solver.
  rewrite (decide_False (P := s :: order = [])) by done. unfold zlen.
  case_decide as He; [subst; simpl; lia|]. cbn [length]. lia.
Qed.

Lemma Index_found pki (j : nat) name :
  NoDup (pki_ServerOrder pki) -> pki_ServerOrder pki !! j = Some name -> Index pki name = Z.of_nat j.
Proof. intros. unfold Index. by rewrite (index_loop_found _ _ j). Qed.

Lemma server_keys_ret pki order keys :
  Forall2 (fun s k => exists addr, pki_Servers pki !! s = Some (mkServerInfo addr (Some k))) order keys ->
  server_keys pki order = Ret (Some <$> keys).
Proof.
  induction 1 as [|s k order keys (addr & Hs) _ IH]; cbn; [done|].
  unfold server_info. rewrite Hs. cbn. by rewrite IH.
Qed.

Lemma pki_keys_length pki keys : pki_keys pki keys -> length keys = length (pki_ServerOrder pki).
Proof. intros H. symmetry. by eapply Forall2_length. Qed.

Lemma NextServerKeys_drop pki keys (j : nat) name :
  pki_wf pki keys -> pki_ServerOrder pki !! j = Some name ->
  NextServerKeys pki name = Ret (Some <$> drop (S j) keys).
Proof.
  intros (_ & Hnd & Hk) Hj. unfold NextServerKeys. rewrite (Index_found _ _ _ Hnd Hj).
  apply lookup_lt_Some in Hj as Hlt. unfold go_slice, zlen.
  rewrite decide_True by lia. cbn [mbind outcome_bind].
  replace (Z.to_nat (Z.of_nat j + 1)) with (S j) by lia.
  rewrite take_ge by (rewrite length_drop; lia). apply server_keys_ret. by apply Forall2_drop.
Qed.

Lemma Incoming_overhead pki keys (j : nat) name :
  pki_wf pki keys -> pki_ServerOrder pki !! j = Some name ->
  IncomingOnionOverhead pki name = zlen (drop j keys) * onionbox_Overhead /\
  OutgoingOnionOverhead pki name = zlen (drop j keys) * box_Overhead.
Proof.
  intros (_ & Hnd & Hk) Hj. unfold IncomingOnionOverhead, OutgoingOnionOverhead.
  rewrite (Index_found _ _ _ Hnd Hj). apply lookup_lt_Some in Hj.
  apply pki_keys_length in Hk. unfold zlen. rewrite length_drop, Hk.
  split; f_equal; lia.
Qed.

(** What [ReadPKI] accepts has an address for every server, and the same keys. *)
Lemma check_servers_ok order servers servers' :
  check_servers order servers = Ok servers' ->
  (forall s info, servers !! s = Some info ->
     exists info', servers' !! s = Some info' /\ si_PublicKey info' = si_PublicKey info /\
       (si_Address info <> "" -> si_Address info' <> "")) /\
  (forall s, s ∈ order -> exists info', servers' !! s = Some info' /\ si_Address info' <> "").
Proof.
  revert servers. induction order as [|s0 order IH]; intros servers H; cbn [check_servers] in H.
  { injection H as <-. split; [eauto|by intros s ?%elem_of_nil]. }
  destruct (servers !! s0) as [info0|] eqn:E0; [|done]. case_decide as Ha; [done|].
  set (info1 := if has_byte ":" (si_Address info0) then _ else _) in H.
  assert (si_Address info1 <> "" /\ si_PublicKey info1 = si_PublicKey info0) as [Ha1 Hk1].
  { unfold info1. destruct (has_byte ":" (si_Address info0)); [done|]. cbn. split; [|done].
    unfold JoinHostPort. destruct (has_byte ":" (si_Address info0)); [done|]. by destruct (si_Address info0). }
  apply IH in H as [H1 H2]. split.
  - intros s info Hs. destruct (decide (s = s0)) as [->|Hne].
    + destruct (H1 s0 info1) as (info' & Hl & Hk & Hne); [by rewrite lookup_insert_eq|].
      exists info'. simplify_eq. rewrite Hk, Hk1. auto.
    + apply H1. by rewrite lookup_insert_ne.
  - intros s [->|Hin]%elem_of_cons; [|by apply H2].
    destruct (H1 s0 info1) as (info' & Hl & Hk & Hne); [by rewrite lookup_insert_eq|]. eauto.
Qed.

Lemma ReadPKI_wf pki pki' keys :
  pki_wf pki keys -> ReadPKI pki = Ok pki' ->
  pki_wf pki' keys /\ pki_ServerOrder pki' = pki_ServerOrder pki /\
  (forall s, s ∈ pki_ServerOrder pki -> exists info, pki_Servers pki' !! s = Some info /\ si_Address info <> "").
Proof.
  intros (Hne & Hnd & Hk). unfold ReadPKI. case_decide; [done|].
  destruct (check_servers _ _) as [servers|] eqn:E; [|done]. intros [= <-]. apply check_servers_ok in E as [H1 H2].
  split_and!; [|reflexivity|exact H2]. split; [exact Hne|]. split; [exact Hnd|]. unfold pki_keys in *. cbn.
  eapply Forall2_impl; [exact Hk|]. cbn. intros s k (addr & Hs). destruct (H1 _ _ Hs) as ([addr' k'] & Hl & Hp & _).
  cbn in Hp. subst. eauto.
Qed.

(** The next server of the chain, by address. *)
Lemma NextServer_next pki (j : nat) name :
  NoDup (pki_ServerOrder pki) -> pki_ServerOrder pki !! j = Some name ->
  (forall s, s ∈ pki_ServerOrder pki -> exists info, pki_Servers pki !! s = Some info /\ si_Address info <> "") ->
  match pki_ServerOrder pki !! S j with
  | None => NextServer pki name = Ret ""
  | Some s => exists info, pki_Servers pki !! s = Some info /\ si_Address info <> "" /\
                NextServer pki name = Ret (si_Address info)
  end.
Proof.
  intros Hnd Hj Hs. unfold NextServer. rewrite (Index_found _ _ _ Hnd Hj). apply lookup_lt_Some in Hj.
  destruct (pki_ServerOrder pki !! S j) as [s|] eqn:E.
  - destruct (Hs s) as (info & Hi & Ha); [by eapply list_elem_of_lookup_2|]. exists info. split_and!; [done|done|].
    apply lookup_lt_Some in E as Hlt. rewrite decide_True by (unfold zlen; lia). unfold go_index.
    rewrite decide_True by lia. replace (Z.to_nat (Z.of_nat j + 1)) with (S j) by lia. rewrite E. cbn.
    unfold server_info. by rewrite Hi.
  - apply lookup_ge_None in E. by rewrite decide_False by (unfold zlen; lia).
Qed.

(** A PKI that [ReadPKI] accepted has a first and a last server. *)
Lemma ReadPKI_ends pki pki' : ReadPKI pki = Ok pki' ->
  exists first last, FirstServer pki' = Ret first /\ LastServer_addr pki' = Ret last /\ first <> "" /\ last <> "".
Proof.
  unfold ReadPKI. case_decide as Hne; [done|].
  destruct (check_servers _ _) as [servers|] eqn:E; [|done]. intros [= <-]. apply check_servers_ok in E as [_ H2].
  assert (forall i s, pki_ServerOrder pki !! i = Some s -> exists addr,
    (s0 ← go_index (pki_ServerOrder pki) (Z.of_nat i);
     info ← server_info (mkPKI (pki_People pki) servers (pki_ServerOrder pki) (pki_EntryServer pki)) s0;
     Ret (si_Address info)) = Ret addr /\ addr <> "") as Hget.
  { intros i s Hs. destruct (H2 s) as (info & Hi & Ha); [by eapply list_elem_of_lookup_2|].
    exists (si_Address info). split; [|done]. rewrite (go_index_lookup _ _ _ Hs). cbn. unfold server_info. cbn. by rewrite Hi. }
  destruct (pki_ServerOrder pki) as [|s0 order] eqn:Eo; [done|].
  destruct (Hget 0%nat s0 eq_refl) as (first & H1 & Hf).
  destruct (lookup_lt_is_Some_2 (s0 :: order) (length order)) as [s1 Hs1]; [cbn; lia|].
  destruct (Hget (length order) s1 Hs1) as (last & Hl & Hla). exists first, last. split; [exact H1|]. split; [|done].
  unfold LastServer_addr. cbn [pki_ServerOrder]. rewrite <- Hl. do 2 f_equal. unfold zlen. cbn [length]. lia.
Qed.

(** ** Theorems *)

(** The configured chain determines keys and sizes consistently: in a
    well-formed PKI the server at position [j] is found at index [j]; the keys it
    uses for its noise are those of the servers after it; clients use all keys;
    and the overhead it expects on incoming onions is exactly what sealing for
    the servers from [j] on adds, whatever the message, as the overhead of its
    replies is what those servers' seals add. *)
Lemma pki_chain_consistent {R} `{KeyGenLaws R} (pki : PKI) (kps : list (BoxKey * BoxKey))
    (j : nat) (name : string) (m reply : bytes) (nonce : Nonce) (r : R) :
  pki_wf pki (fst <$> kps) -> Forall (fun k => keypair k.1 k.2) kps ->
  pki_ServerOrder pki !! j = Some name -> reader_ok r ->
  Index pki name = Z.of_nat j /\
  ServerKeys pki = Ret (Some <$> (fst <$> kps)) /\
  NextServerKeys pki name = Ret (Some <$> drop (S j) (fst <$> kps)) /\
  exists onion shared r',
    onion_Seal m nonce (Some <$> drop j (fst <$> kps)) r = Ret ((onion, shared), r') /\
    zlen onion = IncomingOnionOverhead pki name + zlen m /\
    zlen (wrap_all shared nonce reply) = OutgoingOnionOverhead pki name + zlen reply.
Proof.
  intros Hwf Hkp Hj Hok. destruct (Incoming_overhead _ _ _ _ Hwf Hj) as [Hin Hout].
  split; [by apply Index_found; [apply Hwf|]|]. split; [by apply server_keys_ret, Hwf|].
  split; [by apply NextServerKeys_drop|].
  destruct (onion_Seal_peel m nonce (drop j kps) r Hok) as (onion & shared & r' & Hs & Hl & Hsh & _ & _).
  { by apply Forall_drop. }
  exists onion, shared, r'. rewrite <- fmap_drop, <- list_fmap_compose. split; [exact Hs|].
  rewrite Hin, Hout, wrap_all_length, Hl. unfold zlen.
  rewrite Hsh, <- fmap_drop, length_fmap. lia.
Qed.

Definition example_pki : PKI := mkPKI ∅
  (<["first" := mkServerInfo "localhost" (Some (replicate 32 x03))]>
     (<["last" := mkServerInfo "localhost:2720" (Some (replicate 32 x05))]> ∅))
  ["first"; "last"]%string "ws://localhost:8080".

Lemma example_pki_wf : pki_wf example_pki [replicate 32 x03; replicate 32 x05].
Proof.
  split_and!; [done| |].
  - cbn. rewrite !NoDup_cons. split_and!; [set_solver|set_solver|constructor].
  - repeat constructor; eexists; vm_compute; reflexivity.
Qed.

Lemma pki_chain_consistent_witness :
  Index example_pki "last" = 1 /\
  exists onion shared r', @onion_Seal toy_box Z toy_keygen [x48] (ForwardNonce 3) [Some (replicate 32 x05)] 0 =
    Ret ((onion, shared), r') /\ zlen onion = IncomingOnionOverhead example_pki "last" + 1.
Proof.
  destruct (@pki_chain_consistent Z counter_reader counter_full toy_box toy_laws toy_keygen toy_keygen_laws
    example_pki [(replicate 32 x03, replicate 32 x03); (replicate 32 x05, replicate 32 x05)]
    1 "last" [x48] [x49] (ForwardNonce 3) 0) as (H1 & _ & _ & onion & shared & r' & H2 & H3 & _).
  - exact example_pki_wf.
  - repeat constructor.
  - reflexivity.
  - exact I.
  - split; [exact H1|]. exists onion, shared, r'. split; [exact H2|exact H3].
Defined.

(** C40. A server name that is not in the order is silently taken for the last
    server: [Index] returns the last position, [NextServer] the empty address
    that makes the server run as the last of the chain, and the expected onion
    overhead is that of one layer. *)
Theorem unknown_server_is_last (pki : PKI) (name : string) :
  pki_ServerOrder pki <> [] -> name ∉ pki_ServerOrder pki ->
  Index pki name = zlen (pki_ServerOrder pki) - 1 /\
  NextServer pki name = Ret "" /\
  NextServerKeys pki name = Ret [] /\
  IncomingOnionOverhead pki name = onionbox_Overhead.
Proof.
  intros Hne Hn. assert (Index pki name = zlen (pki_ServerOrder pki) - 1) as Hi.
  { unfold Index. rewrite index_loop_missing, decide_False by done. lia. }
  unfold NextServer, NextServerKeys, IncomingOnionOverhead. rewrite Hi. split_and!; [done| | |lia].
  - by rewrite decide_False by lia.
  - unfold go_slice. pose proof (zlen_nonneg (pki_ServerOrder pki)).
    rewrite decide_True by lia. cbn [mbind outcome_bind].
    by replace (Z.to_nat (zlen (pki_ServerOrder pki) - (zlen (pki_ServerOrder pki) - 1 + 1))) with 0%nat by lia.
Qed.

Lemma unknown_server_is_last_witness :
  Index example_pki "middle" = 1 /\ NextServer example_pki "middle" = Ret "".
Proof.
  destruct (unknown_server_is_last example_pki "middle") as (H1 & H2 & _).
  - discriminate.
  - cbn. set_solver.
  - split; [exact H1|exact H2].
Defined.
