(* ===== verification/Noise.v ===== *)
(** * Noise: cover traffic

    Models [noise.go]: fake exchanges with a dead drop of their own, pairs of
    fake exchanges that share a dead drop, and fake introductions per bucket. The
    parallel loops are modelled as sequential ones (see [Parallel]); since the
    source of random bytes is arbitrary, any assignment of random bytes to the
    iterations is covered. *)

From stdpp Require Import numbers strings gmap list.
From Stdlib Require Import Strings.Byte.
From S2P Require Import Prelude Binary Wire Rand Shuffle OnionBox.

Section Noise.
Context {R : Type} `{Reader R, Box, !KeyGen R}.

Definition convo_size : nat := Z.to_nat SizeConvoExchange.
Definition intro_size : nat := Z.to_nat SizeEncryptedIntro.

(** The body of the loop of [FillWithFakeSingles]. *)
Definition fake_single (nonce : Nonce) (nextKeys : list (option BoxKey)) : GoM R bytes :=
  (let! exchange := rand_Read convo_size in
   let! (onion, _) := onion_Seal exchange nonce nextKeys in
   gret onion)%go.

(** The new contents of [dest]. *)
Definition FillWithFakeSingles (dest : list bytes) (nonce : Nonce) (nextKeys : list (option BoxKey))
    : GoM R (list bytes) :=
  go_map (fun _ => fake_single nonce nextKeys) dest.

(** One iteration of [FillWithFakeDoubles]: the second exchange copies the first
    16 bytes of the first. *)
Definition fake_double (nonce : Nonce) (nextKeys : list (option BoxKey)) : GoM R (bytes * bytes) :=
  (let! exchange1 := rand_Read convo_size in
   let! tail := rand_Read (convo_size - 16) in
   let exchange2 := take 16 exchange1 ++ tail in
   let! (onion1, _) := onion_Seal exchange1 nonce nextKeys in
   let! (onion2, _) := onion_Seal exchange2 nonce nextKeys in
   gret (onion1, onion2))%go.

(** [dest[i*2]] and [dest[i*2+1]] for [i < len(dest)/2]; a last odd slot is left. *)
Definition FillWithFakeDoubles (dest : list bytes) (nonce : Nonce) (nextKeys : list (option BoxKey))
    : GoM R (list bytes) :=
  (let! pairs := go_map (fun _ => fake_double nonce nextKeys) (seq 0 (length dest / 2)) in
   gret ((pairs ≫= fun p => [p.1; p.2]) ++ drop (2 * (length dest / 2)) dest))%go.

(** [buckets[idx] = b; idx++], [count] times for each [b]. *)
Fixpoint intro_buckets (noiseCounts : list Z) (b idx : Z) (buckets : list Z) : outcome (list Z) :=
  match noiseCounts with
  | [] => Ret buckets
  | count :: counts =>
      buckets' ← go_for (fun i bs => go_store bs (idx + i) b) (seqZ 0 count) buckets;
      intro_buckets counts (b + 1) (idx + Z.max 0 count) buckets'
  end.

Definition fake_intro (nonce : Nonce) (nextKeys : list (option BoxKey)) (bucket : Z) : GoM R bytes :=
  (let! tail := rand_Read intro_size in
   let exchange := be_put 4 (u32 bucket) ++ tail in
   let! (onion, _) := onion_Seal exchange nonce nextKeys in
   gret onion)%go.

Definition FillWithFakeIntroductions (dest : list bytes) (noiseCounts : list Z) (nonce : Nonce)
    (nextKeys : list (option BoxKey)) : GoM R (list bytes) :=
  (let! buckets := glift (go_make 0 (zlen dest)) in
   let! buckets := glift (intro_buckets noiseCounts 0 0 buckets) in
   go_map (fake_intro nonce nextKeys) buckets)%go.

End Noise.

(** ** What noise looks like to the servers it is sealed for *)

(** [onion] carries [m] through the servers with the key pairs [kps]. *)
Definition carries `{Box} (kps : list (BoxKey * BoxKey)) (nonce : Nonce) (onion m : bytes) : Prop :=
  zlen onion = zlen m + zlen kps * onionbox_Overhead /\
  exists shared, peel_all (snd <$> kps) nonce onion = Some (m, shared) /\ length shared = length kps.

Lemma pairs_length {A} (ps : list (A * A)) :
  length (ps ≫= fun p => [p.1; p.2]) = (2 * length ps)%nat.
Proof. induction ps as [|p ps IH]; [done|]. rewrite bind_cons, length_app, IH. simpl. lia. Qed.

Lemma pairs_lookup {A} (ps : list (A * A)) (i : nat) p :
  ps !! i = Some p ->
  (ps ≫= fun p => [p.1; p.2]) !! (2 * i)%nat = Some p.1 /\
  (ps ≫= fun p => [p.1; p.2]) !! (2 * i + 1)%nat = Some p.2.
Proof.
  revert i. induction ps as [|q ps IH]; intros [|i] Hp; [done..|by simplify_eq/=|].
  replace (2 * S i)%nat with (S (S (2 * i))) by lia. by apply IH.
Qed.

(** The bucket of every slot: [count] slots for each bucket in turn. *)
Fixpoint bucket_list (noiseCounts : list Z) (b : Z) : list Z :=
  match noiseCounts with
  | [] => []
  | count :: counts => replicate (Z.to_nat count) b ++ bucket_list counts (b + 1)
  end.

Lemma store_run b (pre rest : list Z) (c : nat) :
  (c <= length rest)%nat ->
  go_for (fun i bs => go_store bs (zlen pre + i) b) (seqZ 0 (Z.of_nat c)) (pre ++ rest) =
  Ret (pre ++ replicate c b ++ drop c rest).
Proof.
  induction c as [|c IH]; intros Hc; [done|]. rewrite seqZ_snoc, go_for_app, IH by lia.
  cbn [mbind outcome_bind go_for]. unfold go_store, zlen.
  rewrite !length_app, length_replicate, length_drop, decide_True by lia. cbn [mbind outcome_bind].
  f_equal. replace (Z.to_nat (Z.of_nat (length pre) + Z.of_nat c)) with (length pre + c)%nat by lia.
  rewrite insert_app_r. f_equal.
  replace c with (length (replicate c b) + 0)%nat at 1 by (rewrite length_replicate; lia).
  rewrite insert_app_r, replicate_S_end, <- app_assoc. f_equal.
  destruct (drop c rest) as [|x l] eqn:E.
  { apply (f_equal length) in E. rewrite length_drop in E. simpl in E. lia. }
  cbn. f_equal. replace (S c) with (c + 1)%nat by lia. by rewrite <- drop_drop, E.
Qed.

Lemma intro_buckets_list counts b (pre rest : list Z) :
  Forall (fun c => 0 <= c) counts -> zlen rest = foldr Z.add 0 counts ->
  intro_buckets counts b (zlen pre) (pre ++ rest) = Ret (pre ++ bucket_list counts b).
Proof.
  intros Hpos. revert b pre rest. induction Hpos as [|c counts Hc Hpos IH]; intros b pre rest Hl; cbn in *.
  { by rewrite (nil_length_inv rest) by (unfold zlen in Hl; lia). }
  assert (0 <= foldr Z.add 0 counts) by (clear -Hpos; induction Hpos; cbn; lia).
  unfold zlen in Hl. rewrite <- (Z2Nat.id c) at 1 by done. rewrite store_run by lia.
  cbn [mbind outcome_bind]. rewrite app_assoc, <- app_assoc with (l := pre).
  replace (zlen pre + Z.max 0 c) with (zlen (pre ++ replicate (Z.to_nat c) b)).
  - rewrite app_assoc, IH; [by rewrite <- app_assoc|]. unfold zlen. rewrite length_drop. lia.
  - rewrite zlen_app. unfold zlen at 2. rewrite length_replicate. lia.
Qed.

Lemma bucket_list_length counts b :
  Forall (fun c => 0 <= c) counts -> zlen (bucket_list counts b) = foldr Z.add 0 counts.
Proof.
  intros Hpos. revert b. induction Hpos as [|c counts Hc _ IH]; intros b; cbn [bucket_list foldr]; [done|].
  rewrite zlen_app, IH. unfold zlen. rewrite length_replicate. lia.
Qed.

(** Bucket [b + j] gets [counts[j]] slots. *)
Lemma bucket_list_count counts b (j : nat) c :
  counts !! j = Some c ->
  length (filter (fun x => x = b + Z.of_nat j) (bucket_list counts b)) = Z.to_nat c.
Proof.
  assert (forall counts b x, x < b -> filter (fun y => y = x) (bucket_list counts b) = []) as Hnone.
  { clear. intros counts. induction counts as [|c counts IH]; intros b x Hx; [done|]. cbn.
    rewrite filter_app, IH by lia. rewrite filter_none; [done|].
    intros y [-> _]%elem_of_replicate. lia. }
  revert b j. induction counts as [|c0 counts IH]; intros b [|j] Hj; simplify_eq/=;
    rewrite filter_app, length_app.
  - rewrite (Hnone counts) by lia. rewrite Z.add_0_r. simpl.
    assert (filter (fun x => x = b) (replicate (Z.to_nat c) b) = replicate (Z.to_nat c) b) as ->.
    { clear. induction (Z.to_nat c) as [|k IHk]; [done|].
      cbn [replicate]. by rewrite filter_cons_True, IHk. }
    rewrite length_replicate. lia.
  - rewrite filter_none.
    + replace (b + Z.of_nat (S j)) with (b + 1 + Z.of_nat j) by lia. by rewrite IH.
    + intros y [-> _]%elem_of_replicate. lia.
Qed.

Section NoiseLemmas.
Context {R : Type} `{KeyGenLaws R}.
Context (kps : list (BoxKey * BoxKey)) (nonce : Nonce).
Hypothesis Hkps : Forall (fun k => keypair k.1 k.2) kps.

#[local] Abbreviation pks := ((fun k : BoxKey * BoxKey => Some k.1) <$> kps).

Lemma onion_Seal_carries m (r : R) : reader_ok r ->
  exists onion shared r', onion_Seal m nonce pks r = Ret ((onion, shared), r') /\
    carries kps nonce onion m /\ reader_ok r'.
Proof.
  intros Hok. destruct (onion_Seal_peel m nonce kps r Hok Hkps)
    as (onion & shared & r' & Hs & Hl & Hsh & Hp & Hok').
  exists onion, shared, r'. split_and!; [done| |done]. split; [done|]. eauto.
Qed.

Lemma fake_single_ok (r : R) : reader_ok r ->
  exists onion r', fake_single nonce pks r = Ret (onion, r') /\
    (exists m, zlen m = SizeConvoExchange /\ carries kps nonce onion m) /\ reader_ok r'.
Proof.
  intros Hok. destruct (rand_Read_full convo_size r Hok) as (m & r1 & Hm & Hl & Hok1).
  destruct (onion_Seal_carries m r1 Hok1) as (onion & shared & r2 & Hs & Hc & Hok2).
  exists onion, r2. unfold fake_single.
  rewrite (gbind_eq _ _ _ _ _ Hm), (gbind_eq _ _ _ _ _ Hs). split_and!; [done| |done].
  exists m. split; [|done]. unfold zlen. by rewrite Hl.
Qed.

Definition is_double (p : bytes * bytes) : Prop :=
  exists m1 m2, zlen m1 = SizeConvoExchange /\ zlen m2 = SizeConvoExchange /\
    take 16 m1 = take 16 m2 /\ carries kps nonce p.1 m1 /\ carries kps nonce p.2 m2.

Lemma fake_double_ok (r : R) : reader_ok r ->
  exists p r', fake_double nonce pks r = Ret (p, r') /\ is_double p /\ reader_ok r'.
Proof.
  intros Hok. destruct (rand_Read_full convo_size r Hok) as (m1 & r1 & Hm & Hl & Hok1).
  destruct (rand_Read_full (convo_size - 16) r1 Hok1) as (t & r2 & Ht & Hlt & Hok2).
  destruct (onion_Seal_carries m1 r2 Hok2) as (o1 & sh1 & r3 & Hs1 & Hc1 & Hok3).
  destruct (onion_Seal_carries (take 16 m1 ++ t) r3 Hok3) as (o2 & sh2 & r4 & Hs2 & Hc2 & Hok4).
  exists (o1, o2), r4. unfold fake_double.
  rewrite (gbind_eq _ _ _ _ _ Hm), (gbind_eq _ _ _ _ _ Ht), (gbind_eq _ _ _ _ _ Hs1),
    (gbind_eq _ _ _ _ _ Hs2).
  split_and!; [done| |done]. exists m1, (take 16 m1 ++ t). split_and!; [..|done|done].
  - unfold zlen. by rewrite Hl.
  - unfold zlen. rewrite length_app, length_take, Hl, Hlt. done.
  - rewrite take_app_length'; [done|]. rewrite length_take, Hl. done.
Qed.

Lemma fake_intro_ok bucket (r : R) : reader_ok r ->
  exists onion r', fake_intro nonce pks bucket r = Ret (onion, r') /\
    (exists m, zlen m = SizeDialExchange /\ take 4 m = be_put 4 (u32 bucket) /\
               carries kps nonce onion m) /\ reader_ok r'.
Proof.
  intros Hok. destruct (rand_Read_full intro_size r Hok) as (t & r1 & Ht & Hl & Hok1).
  destruct (onion_Seal_carries (be_put 4 (u32 bucket) ++ t) r1 Hok1) as (o & sh & r2 & Hs & Hc & Hok2).
  exists o, r2. unfold fake_intro.
  rewrite (gbind_eq _ _ _ _ _ Ht), (gbind_eq _ _ _ _ _ Hs). split_and!; [done| |done].
  exists (be_put 4 (u32 bucket) ++ t). split_and!; [| |done].
  - unfold zlen. rewrite length_app, be_put_length, Hl. done.
  - apply take_app_length'. by rewrite be_put_length.
Qed.

Lemma fill_noise_ok (dest1 dest2 : list bytes) (r : R) :
  reader_ok r -> (length dest2 mod 2 = 0)%nat ->
  exists singles doubles r1 r2,
    FillWithFakeSingles dest1 nonce pks r = Ret (singles, r1) /\
    FillWithFakeDoubles dest2 nonce pks r1 = Ret (doubles, r2) /\
    length singles = length dest1 /\ length doubles = length dest2 /\
    Forall (fun o => exists m, zlen m = SizeConvoExchange /\ carries kps nonce o m) singles /\
    (forall i, (2 * i + 1 < length dest2)%nat -> exists o1 o2,
       doubles !! (2 * i)%nat = Some o1 /\ doubles !! (2 * i + 1)%nat = Some o2 /\ is_double (o1, o2)) /\ reader_ok r2.
Proof.
  intros Hok Heven.
  destruct (go_map_total reader_ok
    (fun _ o => exists m, zlen m = SizeConvoExchange /\ carries kps nonce o m)
    (fun _ => fake_single nonce pks) dest1 r Hok) as (singles & r1 & Hs & Hf & Hok1).
  { intros _ r0 _. apply fake_single_ok. }
  destruct (go_map_total reader_ok (fun _ p => is_double p) (fun _ => fake_double nonce pks)
    (seq 0 (length dest2 / 2)) r1 Hok1) as (pairs & r2 & Hd & Hf2 & Hok2).
  { intros _ r0 _. apply fake_double_ok. }
  pose proof (Forall2_length _ _ _ Hf2) as Hpl. rewrite length_seq in Hpl.
  pose proof (pairs_length pairs) as Hbl.
  exists singles, ((pairs ≫= fun p => [p.1; p.2]) ++ drop (2 * (length dest2 / 2)) dest2), r1, r2.
  split_and!.
  - done.
  - unfold FillWithFakeDoubles. by rewrite (gbind_eq _ _ _ _ _ Hd).
  - symmetry. by eapply Forall2_length.
  - rewrite length_app, Hbl, length_drop, <- Hpl. pose proof (Nat.div_mod_eq (length dest2) 2). lia.
  - by eapply Forall2_Forall_r; [|apply Forall_true; intros ? ? H'; apply H'].
  - intros i Hi. destruct (lookup_lt_is_Some_2 pairs i) as [p Hp].
    { rewrite <- Hpl. pose proof (Nat.div_mod_eq (length dest2) 2). lia. }
    destruct (Forall2_lookup_r _ _ _ _ _ Hf2 Hp) as (? & _ & Hdbl).
    exists p.1, p.2. destruct (pairs_lookup _ _ _ Hp) as [H1' H2'].
    split_and!; [by apply lookup_app_l_Some..|by destruct p].
  - done.
Qed.

(** Conversation noise is accepted by the servers and counted as intended:
    sealed for the following servers, the singles fill every slot with an onion
    of the size the next server expects that carries a full exchange, and the
    doubles (an even number of them) fill every slot so that slots [2i] and
    [2i+1] carry exchanges for the same dead drop. *)
Lemma convo_noise_wellformed (dest1 dest2 : list bytes) (r : R) :
  reader_ok r -> (length dest2 mod 2 = 0)%nat ->
  exists singles doubles r1 r2,
    FillWithFakeSingles dest1 nonce pks r = Ret (singles, r1) /\
    FillWithFakeDoubles dest2 nonce pks r1 = Ret (doubles, r2) /\
    length singles = length dest1 /\ length doubles = length dest2 /\
    Forall (fun o => exists m, zlen m = SizeConvoExchange /\ carries kps nonce o m) singles /\
    (forall i, (2 * i + 1 < length dest2)%nat -> exists o1 o2,
       doubles !! (2 * i)%nat = Some o1 /\ doubles !! (2 * i + 1)%nat = Some o2 /\ is_double (o1, o2)).
Proof.
  intros Hok Heven. destruct (fill_noise_ok dest1 dest2 r Hok Heven)
    as (s & d & r1 & r2 & H1' & H2' & H3' & H4' & H5' & H6' & _).
  by exists s, d, r1, r2.
Qed.

Lemma fill_intros_ok (dest : list bytes) (noiseCounts : list Z) (r : R) :
  reader_ok r -> Forall (fun c => 0 <= c) noiseCounts -> zlen dest = foldr Z.add 0 noiseCounts ->
  exists noise r',
    FillWithFakeIntroductions dest noiseCounts nonce pks r = Ret (noise, r') /\
    Forall2 (fun bucket o => exists m, zlen m = SizeDialExchange /\
               take 4 m = be_put 4 (u32 bucket) /\ carries kps nonce o m)
      (bucket_list noiseCounts 0) noise /\
    (forall j c, noiseCounts !! j = Some c ->
       length (filter (fun x => x = Z.of_nat j) (bucket_list noiseCounts 0)) = Z.to_nat c) /\
    reader_ok r'.
Proof.
  intros Hok Hpos Hl.
  destruct (go_map_total reader_ok (fun bucket o => exists m, zlen m = SizeDialExchange /\
      take 4 m = be_put 4 (u32 bucket) /\ carries kps nonce o m)
    (fake_intro nonce pks) (bucket_list noiseCounts 0) r Hok) as (noise & r' & Hm & Hf & Hok').
  { intros b r0 _. apply fake_intro_ok. }
  exists noise, r'. split_and!; [|done| |done].
  - unfold FillWithFakeIntroductions, go_make. pose proof (zlen_nonneg dest).
    rewrite decide_True by done. unfold glift at 1. cbn [gbind]. unfold gbind at 1.
    pose proof (intro_buckets_list noiseCounts 0 [] (replicate (Z.to_nat (zlen dest)) 0) Hpos) as Hb.
    cbn [app] in Hb. change (zlen (@nil Z)) with 0 in Hb. rewrite Hb.
    + exact Hm.
    + unfold zlen. rewrite length_replicate. unfold zlen in Hl. lia.
  - intros j c Hj. by apply (bucket_list_count noiseCounts 0 j c).
Qed.

(** Dialing noise fills the buckets as drawn: for non-negative counts whose sum
    is the number of slots, every slot gets an onion of the size the next server
    expects that carries an introduction, addressed to the buckets in order, so
    that bucket [j] gets exactly [noiseCounts[j]] of them. *)
Lemma dial_noise_buckets (dest : list bytes) (noiseCounts : list Z) (r : R) :
  reader_ok r -> Forall (fun c => 0 <= c) noiseCounts -> zlen dest = foldr Z.add 0 noiseCounts ->
  exists noise r',
    FillWithFakeIntroductions dest noiseCounts nonce pks r = Ret (noise, r') /\
    Forall2 (fun bucket o => exists m, zlen m = SizeDialExchange /\
               take 4 m = be_put 4 (u32 bucket) /\ carries kps nonce o m)
      (bucket_list noiseCounts 0) noise /\
    (forall j c, noiseCounts !! j = Some c ->
       length (filter (fun x => x = Z.of_nat j) (bucket_list noiseCounts 0)) = Z.to_nat c) /\
    reader_ok r'.
Proof. apply fill_intros_ok. Qed.

End NoiseLemmas.

(** ** Witnesses *)

Lemma convo_noise_wellformed_witness :
  exists singles doubles r1 r2,
    @FillWithFakeSingles Z counter_reader toy_box toy_keygen [[]; []] (ForwardNonce 1)
      [Some (replicate 32 x05)] 0 = Ret (singles, r1) /\
    @FillWithFakeDoubles Z counter_reader toy_box toy_keygen [[]; []] (ForwardNonce 1)
      [Some (replicate 32 x05)] r1 = Ret (doubles, r2) /\
    length singles = 2%nat /\ length doubles = 2%nat.
Proof.
  destruct (@convo_noise_wellformed Z counter_reader counter_full toy_box toy_laws toy_keygen toy_keygen_laws
    [(replicate 32 x05, replicate 32 x05)] (ForwardNonce 1)) with (dest1 := [[]; []] : list bytes)
      (dest2 := [[]; []] : list bytes) (r := 0)
    as (s & d & r1 & r2 & H1 & H2 & H3 & H4 & _); [repeat constructor|exact I|reflexivity|].
  exists s, d, r1, r2. split; [exact H1|]. split; [exact H2|]. split; [exact H3|exact H4].
Defined.

Lemma dial_noise_buckets_witness :
  exists noise r', @FillWithFakeIntroductions Z counter_reader toy_box toy_keygen [[]; []; []] [2; 1]
      (ForwardNonce 1) [Some (replicate 32 x05)] 0 = Ret (noise, r') /\
    length (filter (fun x => x = 0) (bucket_list [2; 1] 0)) = 2%nat.
Proof.
  destruct (@dial_noise_buckets Z counter_reader counter_full toy_box toy_laws toy_keygen toy_keygen_laws
    [(replicate 32 x05, replicate 32 x05)] (ForwardNonce 1)) with (dest := [[]; []; []] : list bytes)
      (noiseCounts := [2; 1]) (r := 0)
    as (noise & r' & H1 & _ & H2 & _); [repeat constructor|exact I|repeat constructor; lia|reflexivity|].
  exists noise, r'. split; [exact H1|]. exact (H2 0%nat 2 eq_refl).
Defined.
