(* ===== verification/Laplace.v ===== *)
(** * Laplace: the noise distribution

    Models [laplace.go] with IEEE binary64 arithmetic ([SpecFloat], round to
    nearest even, no fused operations). [math.Log] is a parameter, as is the
    conversion to [int] of a float that no [int] represents, which the Go
    specification leaves to the implementation. *)

From stdpp Require Import numbers strings gmap list.
From Stdlib Require Import Strings.Byte SpecFloat.
From S2P Require Import Prelude Binary Rand.

Abbreviation float64 := spec_float.

Class FloatEnv := {
  math_Log : float64 -> float64;
  int_unrepresentable : float64 -> Z;
}.

(** ** float64 *)

Definition fadd : float64 -> float64 -> float64 := SFadd 53 1024.
Definition fsub : float64 -> float64 -> float64 := SFsub 53 1024.
Definition fmul : float64 -> float64 -> float64 := SFmul 53 1024.
Definition fdiv : float64 -> float64 -> float64 := SFdiv 53 1024.

(** [float64(x)] of an integer. *)
Definition float_of_Z (x : Z) : float64 := binary_normalize 53 1024 x 0 false.

Definition fone : float64 := float_of_Z 1.
Definition ftwo : float64 := float_of_Z 2.
Definition fhalf : float64 := fdiv fone ftwo.
Definition fzero : float64 := S754_zero false.

(** The integer part, towards zero, of a finite float. *)
Definition ftrunc (x : float64) : option Z :=
  match x with
  | S754_zero _ => Some 0
  | S754_finite s m e =>
      let a := if decide (0 <= e) then Z.pos m * 2 ^ e else Z.pos m / 2 ^ (- e) in
      Some (if s then - a else a)
  | _ => None
  end.

(** [int(x)] *)
Definition int_of_float `{FloatEnv} (x : float64) : Z :=
  match ftrunc x with
  | Some z => if decide (- 2 ^ 63 <= z < 2 ^ 63) then z else int_unrepresentable x
  | None => int_unrepresentable x
  end.

(** ** The sampler *)

Section Laplace.
Context {R : Type} `{Reader R, FloatEnv}.

(** The value computed from one 64-bit random integer. *)
Definition laplace_of (mu b : float64) (x : Z) : float64 :=
  let u := fsub (fdiv (float_of_Z x) (float_of_Z (2 ^ 64 - 1))) fhalf in
  let '(abs, sign) := if SFltb u fzero then (SFopp u, SFopp fone) else (u, fone) in
  fsub mu (fmul (fmul b sign) (math_Log (fsub fone (fmul ftwo abs)))).

Definition laplace (mu b : float64) : GoM R float64 :=
  (let! rd := Read 8 in
   match rd with
   | Err e => glift (Panic e)
   | Ok r =>
       let! x := glift (Uint64 r) in
       gret (laplace_of mu b x)
   end)%go.

(** Negative samples are drawn again. *)
Fixpoint cappedFlooredLaplace (fuel : nat) (mu b : float64) : GoM R Z :=
  match fuel with
  | O => fun _ => NoFuel
  | S fuel' =>
      (let! x := laplace mu b in
       if SFltb x fzero then cappedFlooredLaplace fuel' mu b
       else gret (int_of_float x))%go
  end.

End Laplace.

(** ** Lemmas and theorems *)

Lemma nonneg_trunc x z : SFltb x fzero = false -> ftrunc x = Some z -> 0 <= z.
Proof.
  destruct x as [s|s| |s m e]; cbn; [intros _ [= <-]; lia|done|done|].
  destruct s; [done|]. intros _ [= <-]. case_decide; [|apply Z.div_pos]; nia.
Qed.

Section LaplaceFacts.
Context {R : Type} `{FullReader R, FloatEnv}.

Lemma laplace_step (mu b : float64) (r : R) :
  reader_ok r -> exists bs r', Read 8 r = Ret (Ok bs, r') /\ reader_ok r' /\
    laplace mu b r = Ret (laplace_of mu b (be_get bs), r').
Proof.
  intros Hok. destruct (read_full 8 r Hok) as (bs & r' & Hr & Hl & Hok').
  exists bs, r'. split_and!; [done|done|]. unfold laplace. rewrite (gbind_eq _ _ _ _ _ Hr).
  unfold Uint64. rewrite decide_True, take_ge by lia. done.
Qed.

(** The number of fake messages is the first sample that is not negative,
    rounded down: whenever the sampler returns, its result is the integer part of
    a Laplace sample that is not below zero, and it is not negative if that sample
    fits an [int]; while it does not return, all samples drawn were negative. *)
Lemma cappedFlooredLaplace_sample (fuel : nat) (mu b : float64) (r : R) :
  reader_ok r ->
  (exists x r', reader_ok r' /\ SFltb (laplace_of mu b x) fzero = false /\
     cappedFlooredLaplace fuel mu b r = Ret (int_of_float (laplace_of mu b x), r') /\
     forall z, ftrunc (laplace_of mu b x) = Some z -> z < 2 ^ 63 ->
       int_of_float (laplace_of mu b x) = z /\ 0 <= z) \/
  cappedFlooredLaplace fuel mu b r = NoFuel.
Proof.
  revert r. induction fuel as [|fuel IH]; intros r Hok; [by right|].
  destruct (laplace_step mu b r Hok) as (bs & r1 & _ & Hok1 & Hl).
  cbn [cappedFlooredLaplace]. rewrite (gbind_eq _ _ _ _ _ Hl).
  destruct (SFltb (laplace_of mu b (be_get bs)) fzero) eqn:Hneg; [by apply IH|].
  left. exists (be_get bs), r1. split_and!; [done|done|done|].
  intros z Hz Hlt. pose proof (nonneg_trunc _ _ Hneg Hz).
  unfold int_of_float. rewrite Hz, decide_True by lia. done.
Qed.

(** C39. The sampler can leave the range of [int]: when the eight random bytes are
    all [0xff] the sample is plus infinity for every finite [mu] and positive
    finite [b] (as [math.Log(0)] is minus infinity), it is not negative, and
    the count of fake messages is whatever the implementation makes of
    [int(+Inf)]. *)
Theorem laplace_all_ones_infinite (fuel : nat) (sm : bool) (mm mb : positive) (em eb : Z) (r r' : R) :
  let mu := S754_finite sm mm em in
  let b := S754_finite false mb eb in
  math_Log fzero = S754_infinity true -> fmul b fone = b ->
  Read 8 r = Ret (Ok (replicate 8 xff), r') ->
  cappedFlooredLaplace (S fuel) mu b r = Ret (int_unrepresentable (S754_infinity false), r').
Proof.
  intros mu b Hlog Hb Hr. cbn [cappedFlooredLaplace].
  assert (laplace mu b r = Ret (S754_infinity false, r')) as Hl.
  { unfold laplace. rewrite (gbind_eq _ _ _ _ _ Hr).
    change (Uint64 (replicate 8 xff)) with (Ret (2 ^ 64 - 1)). cbn [glift gbind].
    unfold gbind, glift, gret. do 2 f_equal. unfold laplace_of.
    change (fsub (fdiv (float_of_Z (2 ^ 64 - 1)) (float_of_Z (2 ^ 64 - 1))) fhalf) with fhalf.
    change (SFltb fhalf fzero) with false. cbn iota.
    change (fsub fone (fmul ftwo fhalf)) with fzero. rewrite Hb, Hlog. done. }
  by rewrite (gbind_eq _ _ _ _ _ Hl).
Qed.

End LaplaceFacts.

(** ** Witnesses

    A logarithm that is exact at the points evaluated: minus infinity at zero
    and zero elsewhere; the conversion of amd64. *)

Definition toy_float : FloatEnv := {|
  math_Log x := match x with S754_zero _ => S754_infinity true | _ => S754_zero false end;
  int_unrepresentable _ := - 2 ^ 63 |}.

Lemma cappedFlooredLaplace_sample_witness :
  exists x r', @cappedFlooredLaplace unit (const_reader x40) toy_float 1 (float_of_Z 1000) (float_of_Z 4) tt
    = Ret (@int_of_float toy_float (@laplace_of toy_float (float_of_Z 1000) (float_of_Z 4) x), r').
Proof.
  destruct (@cappedFlooredLaplace_sample unit (const_reader x40) (const_full x40) toy_float
    1 (float_of_Z 1000) (float_of_Z 4) tt I) as [(x & r' & _ & _ & H & _)|H].
  - exists x, r'. exact H.
  - exfalso. vm_compute in H. discriminate H.
Defined.

Example sample_1000 :
  @cappedFlooredLaplace unit (const_reader x40) toy_float 1 (float_of_Z 1000) (float_of_Z 4) tt
    = Ret (1000, tt).
Proof. vm_compute. reflexivity. Qed.

Lemma laplace_all_ones_infinite_witness :
  S754_finite false 8796093022208000 (-43) = float_of_Z 1000 /\
  @cappedFlooredLaplace unit (const_reader xff) toy_float 1
    (S754_finite false 8796093022208000 (-43)) (S754_finite false 4503599627370496 (-50)) tt
    = Ret (@int_unrepresentable toy_float (S754_infinity false), tt).
Proof.
  split; [vm_compute; reflexivity|].
  apply (@laplace_all_ones_infinite unit (const_reader xff) toy_float); vm_compute; reflexivity.
Defined.
