(* ===== verification/Vrpc.v ===== *)
(** * Vrpc: many remote calls at once

    Models [vrpc/client.go]. A client is a list of connections to one server.
    [CallMany] runs three kinds of goroutines over two channels: one hands the calls
    to a channel with room for four, one per connection takes calls from it and
    starts them, and the caller collects the results. All their steps, and the
    execution of the calls by the server, interleave freely here. [Convo] and [Dial]
    use [CallMany] as the calls one after another; the theorems below relate the
    two. *)

From stdpp Require Import numbers strings gmap list relations.
From Stdlib Require Import Wellfounded.
From S2P Require Import Prelude.

(** ** Connections *)

(** [rpc.Dial], a connection or an error. *)
Definition Vrpc_Dial {K} (dialed : list (result K)) : result (list K) :=
  foldr (fun r acc =>
    match r with
    | Err e => Err e
    | Ok c => match acc with Ok cs => Ok (c :: cs) | Err e => Err e end
    end) (Ok []) dialed.

(** [c.rpcClients[0].Call(...)]. *)
Definition Vrpc_Call {K C A B} (rpcClients : list K) (rpc : A -> GoM C (result B)) (args : A) : GoM C (result B) :=
  (glift (go_index rpcClients 0) ;;; rpc args)%go.

(** ** CallMany *)

(** The calls one after another, up to the first error: what the rest of the
    development uses for [client.CallMany(calls)]. *)
Fixpoint CallMany {C A B} (call : A -> GoM C (result B)) (calls : list A) : GoM C (result (list B)) :=
  match calls with
  | [] => gret (Ok [])
  | a :: calls' =>
      (let! r := call a in
       on_ok r (fun e => e) (fun b =>
       let! rs := CallMany call calls' in
       on_ok rs (fun e => e) (fun bs => gret (Ok (b :: bs)))))%go
  end.

Section Many.
Context {C A B : Type} (rpc : A -> GoM C (result B)).

(** What the goroutines share. [cm_todo]: the calls not yet handed over.
    [cm_chan], [cm_closed]: [callChan]. [cm_flight]: calls started and not yet
    executed. [cm_replies]: calls executed whose reply has not arrived.
    [cm_results]: the channel [results]. [cm_done]: [done] is closed. [cm_ret]: what
    [CallMany] returned. [cm_net]: the server. Two fields record the past:
    [cm_skipped], the calls dropped after [done], and [cm_exec], the calls executed
    with their results, in order. *)
Record many := mkMany {
  cm_todo : list A;
  cm_chan : list A;
  cm_closed : bool;
  cm_flight : list A;
  cm_replies : list (A * result B);
  cm_results : list (A * result B);
  cm_received : nat;
  cm_done : bool;
  cm_ret : option (result unit);
  cm_net : C;
  cm_skipped : list A;
  cm_exec : list (A * result B);
}.

Definition callChan_cap : nat := 4.

(** Before the first step: without calls [CallMany] has already returned. *)
Definition cm_init (calls : list A) (net : C) : many :=
  match calls with
  | [] => mkMany [] [] true [] [] [] 0 true (Some (Ok tt)) net [] []
  | _ => mkMany calls [] false [] [] [] 0 false None net [] []
  end.

(** [workers]: the number of connections; [n]: [len(calls)], the capacity of
    [results]. *)
Inductive cm_step (workers n : nat) : many -> many -> Prop :=
| cm_send c todo chan fl rep res rcv dn ret net sk ex :
    (length chan < callChan_cap)%nat ->
    cm_step workers n (mkMany (c :: todo) chan false fl rep res rcv dn ret net sk ex)
                      (mkMany todo (chan ++ [c]) false fl rep res rcv dn ret net sk ex)
| cm_skip c todo chan fl rep res rcv ret net sk ex :
    (* case <-done: the break leaves the select, and the loop goes on *)
    cm_step workers n (mkMany (c :: todo) chan false fl rep res rcv true ret net sk ex)
                      (mkMany todo chan false fl rep res rcv true ret net (sk ++ [c]) ex)
| cm_close chan fl rep res rcv dn ret net sk ex :
    cm_step workers n (mkMany [] chan false fl rep res rcv dn ret net sk ex)
                      (mkMany [] chan true fl rep res rcv dn ret net sk ex)
| cm_start c todo chan cl fl rep res rcv dn ret net sk ex :
    (0 < workers)%nat ->
    cm_step workers n (mkMany todo (c :: chan) cl fl rep res rcv dn ret net sk ex)
                      (mkMany todo chan cl (fl ++ [c]) rep res rcv dn ret net sk ex)
| cm_execute k c r todo chan cl fl rep res rcv dn ret net net' sk ex :
    fl !! k = Some c -> rpc c net = Ret (r, net') ->
    cm_step workers n (mkMany todo chan cl fl rep res rcv dn ret net sk ex)
                      (mkMany todo chan cl (delete k fl) (rep ++ [(c, r)]) res rcv dn ret net' sk (ex ++ [(c, r)]))
| cm_reply k p todo chan cl fl rep res rcv dn ret net sk ex :
    (* call.Done <- call: the reply is put on the channel if there is room *)
    rep !! k = Some p ->
    cm_step workers n (mkMany todo chan cl fl rep res rcv dn ret net sk ex)
                      (mkMany todo chan cl fl (delete k rep) (if decide (length res < n)%nat then res ++ [p] else res)
                              rcv dn ret net sk ex)
| cm_error c e todo chan cl fl rep res rcv dn net sk ex :
    cm_step workers n (mkMany todo chan cl fl rep ((c, Err e) :: res) rcv dn None net sk ex)
                      (mkMany todo chan cl fl rep res rcv true (Some (Err e)) net sk ex)
| cm_receive c b todo chan cl fl rep res rcv dn net sk ex :
    S rcv <> n ->
    cm_step workers n (mkMany todo chan cl fl rep ((c, Ok b) :: res) rcv dn None net sk ex)
                      (mkMany todo chan cl fl rep res (S rcv) dn None net sk ex)
| cm_last c b todo chan cl fl rep res rcv dn net sk ex :
    S rcv = n ->
    cm_step workers n (mkMany todo chan cl fl rep ((c, Ok b) :: res) rcv dn None net sk ex)
                      (mkMany todo chan cl fl rep res (S rcv) true (Some (Ok tt)) net sk ex).

(** ** The invariant *)

Definition succeeded (p : A * result B) : Prop := match p.2 with Ok _ => True | Err _ => False end.

(** Every call is in exactly one place; the server's state is that of executing the
    calls of [cm_exec] in order; no reply is lost while [CallMany] waits, and when it
    has returned without error no call is left anywhere. *)
Record cm_inv (calls : list A) (net0 : C) (s : many) : Prop := mkInv {
  inv_calls : calls ≡ₚ cm_skipped s ++ cm_todo s ++ cm_chan s ++ cm_flight s ++ (fst <$> cm_exec s);
  inv_net : go_map rpc (fst <$> cm_exec s) net0 = Ret (snd <$> cm_exec s, cm_net s);
  inv_cap : (length (cm_chan s) <= callChan_cap)%nat;
  inv_closed : cm_closed s = true -> cm_todo s = [];
  inv_ret : match cm_ret s with
            | None => cm_done s = false /\ cm_skipped s = [] /\ (cm_received s < length calls)%nat /\
                exists got, cm_exec s ≡ₚ got ++ cm_results s ++ cm_replies s /\
                  length got = cm_received s /\ Forall succeeded got
            | Some (Ok _) => Forall succeeded (cm_exec s) /\ length (cm_exec s) = length calls /\
                cm_results s = [] /\ cm_replies s = []
            | Some (Err e) => cm_done s = true /\ exists c, (c, Err e) ∈ cm_exec s
            end;
}.

Lemma cm_init_inv calls net : cm_inv calls net (cm_init calls net).
Proof.
  destruct calls as [|c calls]; split; cbn; try done; [lia|by rewrite app_nil_r|lia|].
  split_and!; [done|done|lia|]. by exists [].
Qed.

Lemma go_map_snoc {X Y S} (f : X -> GoM S Y) l x s ys s1 y s2 :
  go_map f l s = Ret (ys, s1) -> f x s1 = Ret (y, s2) -> go_map f (l ++ [x]) s = Ret (ys ++ [y], s2).
Proof.
  intros Hl Hx. apply go_map_app_ret. exists ys, s1, [y]. split_and!; [done| |done].
  cbn. by rewrite (gbind_eq _ _ _ _ _ Hx).
Qed.

(** No more calls have been executed than there are. *)
Lemma inv_count calls net0 s : cm_inv calls net0 s ->
  length calls = (length (cm_skipped s) + length (cm_todo s) + length (cm_chan s) + length (cm_flight s) +
                  length (cm_exec s))%nat.
Proof. intros [Hc _ _ _ _]. apply Permutation_length in Hc. rewrite !length_app, length_fmap in Hc. lia. Qed.

Lemma cm_step_inv w calls net0 s s' :
  cm_inv calls net0 s -> cm_step w (length calls) s s' -> cm_inv calls net0 s'.
Proof.
  intros HI Hs. pose proof (inv_count _ _ _ HI) as Hcount. destruct HI as [Hc Hn Hcap Hcl Hr].
  destruct Hs; cbn in *; split; cbn; try done; try lia.
  - rewrite Hc. solve_Permutation.
  - rewrite length_app. cbn. lia.
  - rewrite Hc. solve_Permutation.
  - destruct ret as [[]|]; [done..|]. by destruct Hr as [? _].
  - rewrite Hc. solve_Permutation.
  - rewrite Hc, fmap_app. cbn. rewrite (delete_Permutation fl k c) at 1 by done. solve_Permutation.
  - rewrite !fmap_app. cbn. by eapply go_map_snoc.
  - destruct ret as [[]|].
    + destruct Hr as (Hall & Hlen & _). exfalso. apply lookup_lt_Some in H. lia.
    + destruct Hr as (? & c0 & Hc0). split; [done|]. exists c0. apply elem_of_app. by left.
    + destruct Hr as (? & ? & ? & got & Hp & ? & ?). split_and!; [done..|]. exists got. split_and!; [|done..].
      rewrite Hp. solve_Permutation.
  - destruct ret as [[]|]; [|done|].
    + destruct Hr as (? & ? & -> & ->). by rewrite lookup_nil in H.
    + destruct Hr as (? & ? & ? & got & Hp & ? & ?). split_and!; [done..|]. exists got. split_and!; [|done..].
      rewrite decide_True.
      * rewrite Hp, (delete_Permutation rep k p) at 1 by done. solve_Permutation.
      * apply lookup_lt_Some in H. apply Permutation_length in Hp. rewrite !length_app in Hp. lia.
  - destruct Hr as (_ & _ & _ & got & Hp & _ & _). split; [done|]. exists c. rewrite Hp. set_solver.
  - destruct Hr as (? & ? & ? & got & Hp & ? & ?). split_and!; [done..|lia|]. exists (got ++ [(c, Ok b)]).
    rewrite Hp, length_app, Forall_app. cbn. split_and!; [solve_Permutation|lia|done|by repeat constructor].
  - destruct Hr as (_ & _ & _ & got & Hp & Hlen & Hall).
    pose proof (Permutation_length Hp) as Hl. rewrite !length_app in Hl. cbn in Hl. rewrite length_app in Hl.
    assert (res = []) as -> by (apply nil_length_inv; lia). assert (rep = []) as -> by (apply nil_length_inv; lia).
    cbn in *. rewrite Hl, Hp, Forall_app, Forall_singleton. split_and!; [done|done|lia|done|done].
Qed.

Lemma cm_reach_inv w calls net0 s :
  rtc (cm_step w (length calls)) (cm_init calls net0) s -> cm_inv calls net0 s.
Proof.
  intros Hr. pose proof (cm_init_inv calls net0) as Hi.
  induction Hr as [s|s1 s2 s3 Hs Hr IH]; [done|]. apply IH. by eapply cm_step_inv.
Qed.

(** Executing calls that all succeed is the sequential [CallMany]. *)
Lemma go_map_CallMany calls rs net net' :
  go_map rpc calls net = Ret (rs, net') -> Forall (fun r => exists b, r = Ok b) rs ->
  exists bs, rs = Ok <$> bs /\ CallMany rpc calls net = Ret (Ok bs, net').
Proof.
  revert rs net. induction calls as [|c calls IH]; cbn [go_map CallMany]; intros rs net Hm Hall.
  { unfold gret in Hm. simplify_eq. by exists []. }
  apply gbind_ret in Hm as (r & s1 & Hc & Hm). apply gbind_ret in Hm as (rs' & s2 & Hm & Hret).
  unfold gret in Hret. simplify_eq. apply Forall_cons in Hall as [[b ->] Hall].
  destruct (IH _ _ Hm Hall) as (bs & -> & Hs). exists (b :: bs). split; [done|].
  rewrite (gbind_eq _ _ _ _ _ Hc). cbn [on_ok]. by rewrite (gbind_eq _ _ _ _ _ Hs).
Qed.

(** C12. Whatever the interleaving of the goroutines, the connections and the
    server: when [CallMany] returns without error, every call was executed exactly
    once and the server is in the state of the calls made one after another in some
    order, all successful; when it returns an error, it is the error of an executed
    call, and the calls executed so far are some of the calls, one after another. *)
Theorem CallMany_serializable w calls net0 s r :
  rtc (cm_step w (length calls)) (cm_init calls net0) s -> cm_ret s = Some r ->
  match r with
  | Ok _ => exists order bs, order ≡ₚ calls /\ CallMany rpc order net0 = Ret (Ok bs, cm_net s)
  | Err e => exists order rs c, order ⊆+ calls /\ go_map rpc order net0 = Ret (rs, cm_net s) /\
               (c, Err e) ∈ zip order rs
  end.
Proof.
  intros Hr Hret. pose proof (cm_reach_inv _ _ _ _ Hr) as HI. pose proof (inv_count _ _ _ HI) as Hcount.
  destruct HI as [Hc Hn _ _ Hi]. rewrite Hret in Hi. destruct r as [[]|e].
  - destruct Hi as (Hall & Hlen & _ & _).
    destruct (go_map_CallMany _ _ _ _ Hn) as (bs & _ & Hs).
    { apply Forall_fmap. eapply Forall_impl; [exact Hall|]. intros [? []]; [|done]. by eexists. }
    eexists _, bs. split; [|exact Hs]. rewrite Hc.
    rewrite (nil_length_inv (cm_skipped s)), (nil_length_inv (cm_todo s)), (nil_length_inv (cm_chan s)),
      (nil_length_inv (cm_flight s)) by lia. done.
  - destruct Hi as (_ & c & Hin). exists (fst <$> cm_exec s), (snd <$> cm_exec s), c. split_and!; [|exact Hn|].
    + rewrite Hc. rewrite !app_assoc. apply submseteq_inserts_l. done.
    + by rewrite zip_fst_snd.
Qed.

(** ** Every run ends *)

(** A bound on the steps left: every call moves forward at every step about it. *)
Definition cm_measure (s : many) : nat :=
  6 * length (cm_todo s) + 4 * length (cm_chan s) + 3 * length (cm_flight s) + 2 * length (cm_replies s) +
  length (cm_results s) + (if cm_closed s then 0 else 1).

Lemma cm_step_measure w n s s' : cm_step w n s s' -> (cm_measure s' < cm_measure s)%nat.
Proof.
  intros Hs. destruct Hs; unfold cm_measure; cbn [cm_todo cm_chan cm_closed cm_flight cm_replies cm_results length];
    rewrite ?length_app; cbn [length]; try lia.
  - pose proof (length_delete fl k (mk_is_Some _ _ H)). pose proof (lookup_lt_Some _ _ _ H). lia.
  - pose proof (length_delete rep k (mk_is_Some _ _ H)). pose proof (lookup_lt_Some _ _ _ H).
    case_decide; rewrite ?length_app; cbn; lia.
Qed.

(** [CallMany] has returned, every call handed over was executed, and no goroutine is
    left: the sender has closed [callChan] and the workers have drained it. *)
Definition cm_finished (s : many) : Prop :=
  cm_ret s <> None /\ cm_closed s = true /\ cm_chan s = [] /\ cm_flight s = [].

(** The server answers every call, in whatever order the calls reach it. *)
Definition answers (calls : list A) (net0 : C) : Prop :=
  forall ran c rs net, ran ++ [c] ⊆+ calls -> go_map rpc ran net0 = Ret (rs, net) ->
    exists r net', rpc c net = Ret (r, net').

Lemma cm_progress w calls net0 s : (0 < w)%nat -> answers calls net0 -> cm_inv calls net0 s ->
  cm_finished s \/ exists s', cm_step w (length calls) s s'.
Proof.
  intros Hw Hans HI. pose proof (inv_count _ _ _ HI) as Hcount. destruct HI as [Hc Hn _ Hcl Hr].
  destruct s as [todo chan cl fl rep res rcv dn ret net sk ex]; cbn in *.
  destruct chan as [|c chan]; [|right; eexists; by constructor].
  destruct fl as [|c fl].
  2:{ assert ((fst <$> ex) ++ [c] ⊆+ calls) as Hsub.
      { rewrite Hc. apply submseteq_inserts_l, submseteq_inserts_l. rewrite (Permutation_app_comm _ [c]).
        apply submseteq_skip. by apply submseteq_inserts_l. }
      destruct (Hans _ _ _ _ Hsub Hn) as (r & net' & Hx).
      right. eexists. by apply (cm_execute _ _ 0 c r). }
  destruct cl; [rewrite (Hcl eq_refl) in *; clear Hcl|].
  2:{ right. destruct todo as [|c todo]; eexists; constructor. cbn. unfold callChan_cap. lia. }
  destruct ret as [r|]; [by left|]. right. destruct Hr as (_ & -> & Hlt & got & Hp & Hgot & _). cbn in Hcount.
  destruct res as [|[c [b|e]] res].
  - destruct rep as [|p rep]; [|eexists; by apply (cm_reply _ _ 0 p)].
    apply Permutation_length in Hp. rewrite !app_nil_r in Hp. lia.
  - destruct (decide (S rcv = length calls)); eexists; by constructor.
  - eexists; by constructor.
Qed.

Lemma cm_inevitably w calls net0 s : (0 < w)%nat -> answers calls net0 -> cm_inv calls net0 s ->
  inevitably (cm_step w (length calls)) cm_finished s.
Proof.
  intros Hw Hans. apply (inevitably_measure _ _ cm_measure).
  - intros s1 s2. apply cm_step_inv.
  - intros s1 s2 _. apply cm_step_measure.
  - intros s1 HI. by apply (cm_progress w calls net0).
Qed.

(** C13. With at least one connection and a server that answers every call,
    [CallMany] always returns, whatever the interleaving; and then no goroutine stays
    behind: every call handed over was executed and the channels are drained. *)
Theorem CallMany_inevitably_returns w calls net0 :
  (0 < w)%nat -> answers calls net0 ->
  inevitably (cm_step w (length calls)) cm_finished (cm_init calls net0).
Proof. intros Hw Hans. apply (cm_inevitably w calls net0); [done|done|apply cm_init_inv]. Qed.

(** ** After an error *)

Lemma cm_drain w n todo chan cl fl rep res rcv dn ret net sk ex : (0 < w)%nat ->
  rtc (cm_step w n) (mkMany todo chan cl fl rep res rcv dn ret net sk ex)
                    (mkMany todo [] cl (fl ++ chan) rep res rcv dn ret net sk ex).
Proof.
  intros Hw. revert fl. induction chan as [|c chan IH]; intros fl; [by rewrite app_nil_r|].
  eapply rtc_l; [by constructor|]. rewrite (cons_middle c fl chan), app_assoc. apply IH.
Qed.

(** C33. The [break] in the [select] of the sending goroutine leaves the [select] and
    not the loop: after [CallMany] has returned an error and the goroutine has seen
    [done] and dropped the call at hand, it goes on with the next call, which can be
    handed over, started and executed by the server, while every further call is still
    to come. *)
Theorem CallMany_error_continues w calls net0 s e c c' todo :
  (0 < w)%nat -> answers calls net0 -> rtc (cm_step w (length calls)) (cm_init calls net0) s ->
  cm_ret s = Some (Err e) -> cm_todo s = c :: c' :: todo ->
  exists s1 s' r, cm_step w (length calls) s s1 /\ cm_skipped s1 = cm_skipped s ++ [c] /\ cm_todo s1 = c' :: todo /\
    rtc (cm_step w (length calls)) s1 s' /\ cm_ret s' = Some (Err e) /\ cm_skipped s' = cm_skipped s1 /\
    cm_todo s' = todo /\ cm_exec s' = cm_exec s ++ [(c', r)].
Proof.
  intros Hw Hans Hr Hret Htodo. pose proof (cm_reach_inv _ _ _ _ Hr) as [Hp Hn _ Hcl Hi].
  destruct s as [todo' chan cl fl rep res rcv dn ret net sk ex]; cbn in *; subst.
  destruct cl; [by specialize (Hcl eq_refl)|]. destruct Hi as [-> _].
  assert ((fst <$> ex) ++ [c'] ⊆+ calls) as Hsub.
  { rewrite Hp. apply submseteq_inserts_l. cbn. apply submseteq_cons. rewrite (Permutation_app_comm _ [c']).
    apply submseteq_skip. by do 3 apply submseteq_inserts_l. }
  destruct (Hans _ _ _ _ Hsub Hn) as (r & net' & Hc).
  eexists _, _, r. split; [by apply cm_skip|]. split; [done|]. split; [done|]. split.
  - etrans; [by apply cm_drain|]. eapply rtc_l; [apply cm_send; cbn; unfold callChan_cap; lia|].
    eapply rtc_l; [by apply cm_start|].
    apply rtc_once, (cm_execute _ _ (length (fl ++ chan)) c' r); [|done]. by rewrite list_lookup_middle.
  - done.
Qed.

End Many.

(** ** A small server *)

(** A server that sums the positive numbers it is sent and refuses the others. *)
Module VrpcToy.

Definition sum_rpc (a : Z) : GoM Z (result unit) := fun s =>
  if decide (0 < a) then Ret (Ok tt, s + a) else Ret (Err "not positive", s).

Lemma sum_answers calls net0 : answers sum_rpc calls net0.
Proof. intros ran c rs net _ _. unfold sum_rpc. case_decide; by eexists _, _. Qed.

(** Two calls over two connections, the second executed first. *)
Definition swapped : @many Z Z unit :=
  mkMany [] [] true [] [] [] 2 true (Some (Ok tt)) 12 [] [(7, Ok tt); (5, Ok tt)].

Lemma swapped_run : rtc (cm_step sum_rpc 2 2) (cm_init [5; 7] 0) swapped.
Proof.
  eapply rtc_l; [apply cm_send; cbn; unfold callChan_cap; lia|].
  eapply rtc_l; [apply cm_send; cbn; unfold callChan_cap; lia|]. eapply rtc_l; [apply cm_close|].
  eapply rtc_l; [apply cm_start; lia|]. eapply rtc_l; [apply cm_start; lia|].
  eapply rtc_l; [by apply (cm_execute _ _ _ 1 7 (Ok tt))|]. eapply rtc_l; [by apply (cm_execute _ _ _ 0 5 (Ok tt))|].
  eapply rtc_l; [by apply (cm_reply _ _ _ 0 (7, Ok tt))|]. eapply rtc_l; [by apply (cm_reply _ _ _ 0 (5, Ok tt))|].
  eapply rtc_l; [by apply cm_receive|]. apply rtc_once. by apply cm_last.
Qed.

Lemma CallMany_serializable_witness :
  exists order bs, order ≡ₚ [5; 7] /\ CallMany sum_rpc order 0 = Ret (Ok bs, 12).
Proof. exact (CallMany_serializable sum_rpc 2 [5; 7] 0 swapped (Ok tt) swapped_run eq_refl). Defined.

Lemma CallMany_inevitably_returns_witness :
  inevitably (cm_step sum_rpc 1 3) cm_finished (cm_init [5; -7; 9] 0).
Proof. exact (CallMany_inevitably_returns sum_rpc 1 [5; -7; 9] 0 ltac:(lia) (sum_answers _ _)). Defined.

(** The first call of three fails before the others are handed over. *)
Definition failing : @many Z Z unit :=
  mkMany [5; 7] [] false [] [] [] 0 true (Some (Err "not positive")) 0 [] [(-1, Err "not positive")].

Lemma failing_run : rtc (cm_step sum_rpc 1 3) (cm_init [-1; 5; 7] 0) failing.
Proof.
  eapply rtc_l; [apply cm_send; cbn; unfold callChan_cap; lia|]. eapply rtc_l; [apply cm_start; lia|].
  eapply rtc_l; [by apply (cm_execute _ _ _ 0 (-1) (Err "not positive"))|].
  eapply rtc_l; [by apply (cm_reply _ _ _ 0 (-1, Err "not positive"))|]. apply rtc_once. by apply cm_error.
Qed.

Lemma CallMany_error_continues_witness :
  exists s1 s' r, cm_step sum_rpc 1 3 failing s1 /\ cm_skipped s1 = [5] /\
    rtc (cm_step sum_rpc 1 3) s1 s' /\ cm_ret s' = Some (Err "not positive") /\
    cm_exec s' = [(-1, Err "not positive")] ++ [(7, r)].
Proof.
  destruct (CallMany_error_continues sum_rpc 1 [-1; 5; 7] 0 failing "not positive" 5 7 []
           ltac:(lia) (sum_answers _ _) failing_run eq_refl eq_refl) as (s1 & s' & r & H1 & H2 & _ & H3 & H4 & _ & _ & H5).
  exists s1, s', r. split; [exact H1|]. split; [exact H2|]. split; [exact H3|]. split; [exact H4|exact H5].
Defined.

End VrpcToy.
