(* ===== verification/Log.v ===== *)
(** * Log: the lines the servers and the client print

    Models [internal/log.go], [internal/ansi.go] and [internal/json.go]: the two
    formatters that turn a log entry into a line, the terminal colours, and how the
    configuration files are read. The [fmt] package appears as what it prints for one
    value under one format; the order in which Go walks a map is an argument. *)

From stdpp Require Import numbers strings pretty gmap list.
From S2P Require Import Prelude.

(** ** Values and formats *)

(** The dynamic types the formatters tell apart. *)
Inductive field :=
| FString (s : string)
| FError (s : string)
| FBool (b : bool)
| FUint32 (n : Z)
| FOther (printed : string).

(** [fmt.Sprintf(format, v)] for a format with one verb, and [fmt.Sprint(v)]. *)
Class Fmt := {
  Sprintf1 : string -> field -> string;
  Sprint : field -> string;
}.

Class FmtLaws `{Fmt} : Prop := {
  Sprintf_s s : Sprintf1 "%s" (FString s) = s;
  Sprintf_d n : Sprintf1 "%d" (FUint32 n) = pretty n;
}.

(** ** Colours *)

Definition ansiReset : Z := 0.
Definition ansiReverse : Z := 7.
Definition red : Z := 31.
Definition green : Z := 32.
Definition yellow : Z := 33.
Definition blue : Z := 34.
Definition magenta : Z := 35.
Definition cyan : Z := 36.
Definition allColors : list Z := [red; green; yellow; blue; magenta; cyan].

(** What [color] returns: the value itself or an [ansiFormatter]. *)
Inductive colored := Plain (v : field) | Ansi (v : field) (codes : list Z).

Definition color (value : field) (codes : list Z) : colored :=
  match codes with [] => Plain value | _ => Ansi value codes end.

(** The state [fmt] passes to [Format]: the flags that are set, width and precision. *)
Record fmt_state := mkFmtState {
  fs_Flag : list string;
  fs_Width : option Z;
  fs_Precision : option Z;
}.
Definition no_flags : fmt_state := mkFmtState [] None None.

Definition all_flags : list string := ["-"; "+"; "#"; " "; "0"]%string.

(** The format string [Format] reconstructs. *)
Definition rebuild (f : fmt_state) (verb : string) : string :=
  "%" +:+ String.concat "" (filter (fun x => x ∈ fs_Flag f) all_flags)
    +:+ (match fs_Width f with Some w => pretty w | None => "" end)
    +:+ (match fs_Precision f with Some p => "." +:+ pretty p | None => "" end) +:+ verb.

Definition esc : string := String (Ascii.ascii_of_nat 27) EmptyString.
Definition newline : string := String (Ascii.ascii_of_nat 10) EmptyString.

Section Formatters.
Context `{Fmt}.

Definition ansi_Format (v : field) (codes : list Z) (f : fmt_state) (verb : string) : string :=
  let format := rebuild f verb in
  match codes with
  | [] => Sprintf1 format v
  | c :: codes' =>
      esc +:+ "[" +:+ pretty c +:+ String.concat "" ((fun code => ";" +:+ pretty code) <$> codes') +:+ "m"
      +:+ Sprintf1 format v +:+ esc +:+ "[0m"
  end.

(** [fmt.Fprintf(buf, "%s", color(...))] *)
Definition print_colored (verb : string) (c : colored) : string :=
  match c with
  | Plain v => Sprintf1 (rebuild no_flags verb) v
  | Ansi v codes => ansi_Format v codes no_flags verb
  end.

(** ** Entries *)

Inductive level := PanicLevel | FatalLevel | ErrorLevel | WarnLevel | InfoLevel | DebugLevel.

Definition level_String (l : level) : string :=
  match l with
  | PanicLevel => "panic" | FatalLevel => "fatal" | ErrorLevel => "error"
  | WarnLevel => "warning" | InfoLevel => "info" | DebugLevel => "debug"
  end.

(** [en_Time]: the time as [15:04:05] prints it. *)
Record entry := mkEntry {
  en_Time : string;
  en_Level : level;
  en_Message : string;
  en_Data : gmap string field;
}.

(** [writeMap], walking the map in the order [order]. *)
Definition write_field (k : string) (v : field) : string :=
  k +:+ "=" +:+ (match v with
                 | FString _ | FError _ => Sprintf1 "%q" v
                 | _ => Sprint v
                 end) +:+ " ".
Definition writeMap (order : list string) (m : gmap string field) : string :=
  String.concat "" (omap (fun k => write_field k <$> m !! k) order).

Definition get_string (m : gmap string field) (k : string) : option string :=
  match m !! k with Some (FString s) => Some s | _ => None end.

(** The optional word of a line. *)
Definition word (o : option string) : string := match o with Some s => s +:+ " " | None => "" end.
Definition message_word (e : entry) : string := if decide (en_Message e = "") then "" else en_Message e +:+ " ".

Definition rest (order : list string) (m : gmap string field) : string :=
  if decide (m = ∅) then "" else "| " +:+ writeMap order m.

(** The line, and the fields left in the entry: [Format] deletes those it printed
    itself from the caller's map. *)
Definition ServerFormatter_Format (order : list string) (e : entry) : outcome (string * gmap string field) :=
  let data := en_Data e in
  let tsColor := (match en_Level e with ErrorLevel | FatalLevel | PanicLevel => [red] | _ => [] end)
                 ++ (match data !! "bug" with Some (FBool true) => [ansiReverse] | _ => [] end) in
  let service := default "" (get_string data "service") in
  round ← (match data !! "round" with
           | Some (FUint32 r) =>
               c ← go_index allColors (Z.rem r (zlen allColors));
               Ret (print_colored "d" (color (FUint32 r)
                      (if decide (service = "dial") then [c; ansiReverse] else [c])) +:+ " ")
           | _ => Ret ""
           end);
  let data' := foldr delete data ["service"; "round"; "rpc"; "call"]%string in
  Ret (print_colored "s" (color (FString (en_Time e)) tsColor) +:+ " | " +:+ round
         +:+ word (get_string data "rpc") +:+ word (get_string data "call") +:+ message_word e
         +:+ rest order data' +:+ newline, data').

Definition GuiFormatter_Format (order : list string) (e : entry) : string * gmap string field :=
  let data := en_Data e in
  let data' := delete "call" data in
  (en_Time e +:+ " " +:+ level_String (en_Level e) +:+ " | " +:+ word (get_string data "call") +:+ message_word e
     +:+ rest order data' +:+ newline, data').

(** ** ReadJSONFile *)

(** [None] of [file]: it cannot be opened. [Err] is [log.Fatal], which ends the
    process. *)
Definition ReadJSONFile {J V} (file : result J) (decode : J -> result V) : result V :=
  match file with
  | Err e => Err e
  | Ok doc => match decode doc with Ok v => Ok v | Err e => Err ("json decoding error: " +:+ e) end
  end.

(** ** The lines *)

Context `{HL : !FmtLaws}.

(** The keys a server line prints by itself. *)
Definition own_keys : list string := ["service"; "round"; "rpc"; "call"]%string.

Lemma foldr_delete_lookup (m : gmap string field) ks k :
  foldr delete m ks !! k = if decide (k ∈ ks) then None else m !! k.
Proof.
  induction ks as [|k0 ks IH]; cbn [foldr]; [by rewrite decide_False by set_solver|].
  destruct (decide (k = k0)) as [->|Hne].
  - by rewrite lookup_delete_eq, decide_True by set_solver.
  - rewrite lookup_delete_ne, IH by done. by repeat case_decide; set_solver.
Qed.

Lemma color_index r : 0 <= r -> exists c, go_index allColors (Z.rem r (zlen allColors)) = Ret c /\ c ∈ allColors.
Proof.
  intros Hr. change (zlen allColors) with 6. pose proof (Z.rem_bound_pos r 6 Hr ltac:(lia)) as Hb.
  unfold go_index. rewrite decide_True by lia.
  destruct (lookup_lt_is_Some_2 allColors (Z.to_nat (Z.rem r 6))) as [c Hc]; [cbn [allColors length]; lia|].
  rewrite Hc. exists c. split; [done|by eapply list_elem_of_lookup_2].
Qed.

(** How a line shows the round: in the colour of the round, reversed for dialing. *)
Definition round_text (c : Z) (service : string) (r : Z) : string :=
  esc +:+ "[" +:+ pretty c +:+ (if decide (service = "dial") then ";7" else "") +:+ "m" +:+ pretty r +:+ esc +:+ "[0m ".

Lemma str_app_assoc (a b c : string) : a +:+ (b +:+ c) = (a +:+ b) +:+ c.
Proof.
  induction a as [|x a IH]; [done|].
  change (String x (a +:+ (b +:+ c)) = String x ((a +:+ b) +:+ c)). by rewrite IH.
Qed.

Lemma print_round c service r :
  print_colored "d" (color (FUint32 r) (if decide (service = "dial") then [c; ansiReverse] else [c])) +:+ " " =
  round_text c service r.
Proof.
  unfold round_text. case_decide; cbn [color print_colored ansi_Format fmap list_fmap];
    change (rebuild no_flags "d") with "%d"; rewrite Sprintf_d; cbn [String.concat];
    rewrite <- !str_app_assoc; done.
Qed.

Lemma round_ok (data : gmap string field) service :
  (forall r, data !! "round" = Some (FUint32 r) -> 0 <= r < 2 ^ 32) ->
  exists c,
    (match data !! "round" with
     | Some (FUint32 r) =>
         c ← go_index allColors (Z.rem r (zlen allColors));
         Ret (print_colored "d" (color (FUint32 r)
                (if decide (service = "dial") then [c; ansiReverse] else [c])) +:+ " ")
     | _ => Ret ""
     end) = Ret (match data !! "round" with Some (FUint32 r) => round_text c service r | _ => "" end) /\
    c ∈ allColors.
Proof using HL.
  intros Hb. destruct (data !! "round") as [[s|s|b|r|p]|]; try (exists red; split; [done|by constructor]).
  destruct (color_index r) as (c & Hc & Hin); [specialize (Hb r eq_refl); lia|].
  exists c. split; [|done]. rewrite Hc. cbn [mbind outcome_bind]. by rewrite print_round.
Qed.

Lemma omap_fields (m : gmap string field) (order : list string) :
  Forall (fun k => is_Some (m !! k)) order ->
  omap (fun k => write_field k <$> m !! k) order =
  (fun p => write_field p.1 p.2) ∘ (fun k => (k, default (FBool false) (m !! k))) <$> order.
Proof.
  induction 1 as [|k order [v Hv] _ IH]; [done|]. rewrite fmap_cons, <- IH. unfold compose. cbn [fst snd]. rewrite Hv.
  change (k :: order) with ([k] ++ order). rewrite omap_app. cbn -[lookup]. by rewrite Hv.
Qed.

(** A server's log line never fails and loses nothing but the name of the
    service: for every entry whose round, if any, is a [uint32], the formatter
    returns one line made of the time (coloured exactly for errors and bugs), the
    round in a colour chosen by its number, the RPC, the call and the message, then
    every other field of the entry once, and a final newline; the fields it prints by
    itself are deleted from the caller's entry and no other field is touched. *)
Lemma server_line_complete (order : list string) (e : entry) :
  order ≡ₚ (map_to_list (foldr delete (en_Data e) own_keys)).*1 ->
  (forall r, en_Data e !! "round" = Some (FUint32 r) -> 0 <= r < 2 ^ 32) ->
  exists c line data,
    ServerFormatter_Format order e = Ret (line, data) /\ c ∈ allColors /\
    line = print_colored "s" (color (FString (en_Time e))
             ((match en_Level e with ErrorLevel | FatalLevel | PanicLevel => [red] | _ => [] end)
              ++ (match en_Data e !! "bug" with Some (FBool true) => [ansiReverse] | _ => [] end)))
           +:+ " | " +:+ (match en_Data e !! "round" with
                          | Some (FUint32 r) => round_text c (default "" (get_string (en_Data e) "service")) r
                          | _ => ""
                          end)
           +:+ word (get_string (en_Data e) "rpc") +:+ word (get_string (en_Data e) "call") +:+ message_word e
           +:+ rest order data +:+ newline /\
    (forall k, data !! k = if decide (k ∈ own_keys) then None else en_Data e !! k) /\
    exists fields, map_to_list data ≡ₚ fields /\ writeMap order data = String.concat "" ((fun p => write_field p.1 p.2) <$> fields).
Proof.
  intros Hord Hb. destruct (round_ok (en_Data e) (default "" (get_string (en_Data e) "service")) Hb) as (c & Hc & Hin).
  set (data := foldr delete (en_Data e) own_keys) in *. exists c. eexists. exists data.
  unfold ServerFormatter_Format. rewrite Hc. cbn [mbind outcome_bind].
  split; [reflexivity|]. split; [done|]. split; [reflexivity|]. split; [intros k; exact (foldr_delete_lookup _ own_keys k)|].
  exists ((fun k => (k, default (FBool false) (data !! k))) <$> order). split.
  - rewrite Hord, <- list_fmap_compose. rewrite <- (list_fmap_id (map_to_list data)) at 1.
    apply Permutation_refl'. apply list_fmap_ext. intros i [k v] Hi. unfold compose. cbn [fst snd id].
    apply list_elem_of_lookup_2, elem_of_map_to_list in Hi. by rewrite Hi.
  - unfold writeMap. f_equal. rewrite <- list_fmap_compose.
    assert (Forall (fun k => is_Some (data !! k)) order) as Hall.
    { rewrite Hord. apply Forall_forall. intros k ([k' v] & -> & Hk)%list_elem_of_fmap.
      apply elem_of_map_to_list in Hk. by eexists. }
    clear Hord. by apply omap_fields.
Qed.

End Formatters.

Module LogToy.

#[local] Instance plain_fmt : Fmt := {|
  Sprintf1 _ v := match v with FString s | FError s | FOther s => s | FBool b => if b then "true" else "false" | FUint32 n => pretty n end;
  Sprint v := match v with FString s | FError s | FOther s => s | FBool b => if b then "true" else "false" | FUint32 n => pretty n end;
|}.

#[local] Instance plain_laws : FmtLaws.
Proof. split; done. Qed.

(** [convo.go], line 129. *)
Definition open_entry : entry := mkEntry "15:04:05" InfoLevel ""
  (<["service" := FString "convo"]> (<["rpc" := FString "Open"]> (<["round" := FUint32 44]>
     (<["incoming" := FOther "3"]> ∅)))).

Lemma server_line_complete_witness :
  exists c line data, ServerFormatter_Format ["incoming"] open_entry = Ret (line, data) /\ c ∈ allColors.
Proof.
  destruct (server_line_complete ["incoming"] open_entry) as (c & line & data & H1 & H2 & _).
  - vm_compute. reflexivity.
  - intros r Hr. vm_compute in Hr. injection Hr as <-. lia.
  - exists c, line, data. split; [exact H1|exact H2].
Defined.

Example open_line :
  match ServerFormatter_Format ["incoming"] open_entry with
  | Ret (line, _) => line = "15:04:05 | " +:+ esc +:+ "[33m44" +:+ esc +:+ "[0m Open | incoming=3 " +:+ newline
  | _ => False
  end.
Proof. vm_compute. reflexivity. Qed.

End LogToy.
