(* ===== verification/Convo.v ===== *)
(** * Convo: the conversation service of a mix server

    Models [convo.go]: the state of [ConvoService] and its rounds, the RPC
    handlers [NewRound], [Open], [Add], [Close], [Get] and [Delete], the filter on
    incoming messages, the dead-drop exchange of the last server, and the client
    side [NewConvoRound] and [RunConvoRound]. A handler is one state transformer;
    the next server is reached through the interface [ConvoRemote], which the
    service itself implements, so that a chain of servers is the service over
    the service over ... the last service. *)

From stdpp Require Import numbers strings pretty gmap list.
From Stdlib Require Import Strings.Byte.
From S2P Require Import Prelude Binary Wire Rand Shuffle Parallel OnionBox Pki Noise Laplace Vrpc.

(** ** Data *)

Inductive convoStatus := convoRoundNew | convoRoundOpen | convoRoundClosed.

#[export] Instance convoStatus_eq_dec : EqDecision convoStatus.
Proof. solve_decision. Defined.

(** [iota + 1] *)
Definition status_num (s : convoStatus) : Z :=
  match s with convoRoundNew => 1 | convoRoundOpen => 2 | convoRoundClosed => 3 end.

Record AccessCount := mkAccessCount { ac_Singles : Z; ac_Doubles : Z }.

(** A nil message is [None] in [incoming], where the code tests for nil, and the
    empty list in [replies] and [noise], where it does not. *)
Record ConvoRound := mkConvoRound {
  cr_status : convoStatus;
  cr_numIncoming : Z;
  cr_sharedKeys : list (option BoxKey);
  cr_incoming : list (option bytes);
  cr_incomingIndex : list Z;
  cr_replies : list bytes;
  cr_numFakeSingles : Z;
  cr_numFakeDoubles : Z;
  cr_noise : list bytes;
}.

(** [Idle] is the state of the mutex it points to; [Client] the next server as
    seen through the connection to it. *)
Record ConvoService (C : Type) := mkConvoService {
  cs_rounds : gmap Z ConvoRound;
  cs_Idle : bool;
  cs_LaplaceMu : float64;
  cs_LaplaceB : float64;
  cs_PKI : PKI;
  cs_ServerName : string;
  cs_PrivateKey : BoxKey;
  cs_Client : C;
  cs_LastServer : bool;
  cs_AccessCounts : list AccessCount;
}.
Arguments mkConvoService {C}.
Arguments cs_rounds {C}. Arguments cs_Idle {C}. Arguments cs_LaplaceMu {C}.
Arguments cs_LaplaceB {C}. Arguments cs_PKI {C}. Arguments cs_ServerName {C}.
Arguments cs_PrivateKey {C}. Arguments cs_Client {C}. Arguments cs_LastServer {C}.
Arguments cs_AccessCounts {C}.

Definition set_rounds {C} (m : gmap Z ConvoRound) (s : ConvoService C) : ConvoService C :=
  mkConvoService m (cs_Idle s) (cs_LaplaceMu s) (cs_LaplaceB s) (cs_PKI s) (cs_ServerName s)
    (cs_PrivateKey s) (cs_Client s) (cs_LastServer s) (cs_AccessCounts s).
Definition set_Idle {C} (b : bool) (s : ConvoService C) : ConvoService C :=
  mkConvoService (cs_rounds s) b (cs_LaplaceMu s) (cs_LaplaceB s) (cs_PKI s) (cs_ServerName s)
    (cs_PrivateKey s) (cs_Client s) (cs_LastServer s) (cs_AccessCounts s).
Definition set_Client {C} (c : C) (s : ConvoService C) : ConvoService C :=
  mkConvoService (cs_rounds s) (cs_Idle s) (cs_LaplaceMu s) (cs_LaplaceB s) (cs_PKI s) (cs_ServerName s)
    (cs_PrivateKey s) c (cs_LastServer s) (cs_AccessCounts s).
Definition set_AccessCounts {C} (l : list AccessCount) (s : ConvoService C) : ConvoService C :=
  mkConvoService (cs_rounds s) (cs_Idle s) (cs_LaplaceMu s) (cs_LaplaceB s) (cs_PKI s) (cs_ServerName s)
    (cs_PrivateKey s) (cs_Client s) (cs_LastServer s) l.

(** [InitConvoService]: an empty map of rounds and an empty channel. *)
Definition InitConvoService {C} (srv : ConvoService C) : ConvoService C :=
  set_AccessCounts [] (set_rounds ∅ srv).

Record ConvoOpenArgs := mkConvoOpenArgs { oa_Round : Z; oa_NumIncoming : Z }.
Record ConvoAddArgs := mkConvoAddArgs { aa_Round : Z; aa_Offset : Z; aa_Onions : list bytes }.
Record ConvoGetArgs := mkConvoGetArgs { ga_Round : Z; ga_Offset : Z; ga_Count : Z }.

(** ** The interface to the next server *)

Class ConvoRemote (C : Type) := {
  rpc_NewRound : Z -> GoM C (result unit);
  rpc_Open : ConvoOpenArgs -> GoM C (result unit);
  rpc_Add : ConvoAddArgs -> GoM C (result unit);
  rpc_Close : Z -> GoM C (result unit);
  rpc_Get : ConvoGetArgs -> GoM C (result (list bytes));
  rpc_Delete : Z -> GoM C (result unit);
}.

Definition NewConvoRound {C} `{ConvoRemote C} (round : Z) : GoM C (result unit) := rpc_NewRound round.

(** [copy(replies[span.Start:span.Start+span.Count], onions)] *)
Definition copy_span (span : Span) (onions : list bytes) (replies : list bytes) : outcome (list bytes) :=
  let hi := i64 (sp_Start span + sp_Count span) in
  dst ← go_slice replies (sp_Start span) hi;
  Ret (take (Z.to_nat (sp_Start span)) replies ++ go_copy dst onions ++ drop (Z.to_nat hi) replies).

Definition RunConvoRound {C} `{ConvoRemote C} (round : Z) (onions : list bytes)
    : GoM C (result (list bytes)) :=
  (let! err := rpc_Open (mkConvoOpenArgs round (zlen onions)) in
   on_ok err (fun e => "Open: " +:+ e) (fun _ =>
   let! spans := glift (Spans (zlen onions) 4000) in
   let! calls := go_map (fun span =>
       let! os := glift (go_slice onions (sp_Start span) (i64 (sp_Start span + sp_Count span))) in
       gret (mkConvoAddArgs round (sp_Start span) os)) spans in
   let! err := CallMany rpc_Add calls in
   on_ok err (fun e => "Add: " +:+ e) (fun _ =>
   let! err := rpc_Close round in
   on_ok err (fun e => "Close: " +:+ e) (fun _ =>
   let! err := CallMany rpc_Get ((fun span => mkConvoGetArgs round (sp_Start span) (sp_Count span)) <$> spans) in
   on_ok err (fun e => "Get: " +:+ e) (fun results =>
   let! replies := glift (go_for (fun '(span, res) rs => copy_span span res rs) (zip spans results)
                            (replicate (length onions) [])) in
   let! err := rpc_Delete round in
   on_ok err (fun e => "Delete: " +:+ e) (fun _ =>
   gret (Ok replies)))))))%go.

(** ** The filter on incoming messages *)

(** [binary.BigEndian.Uint64(msg[len(msg)-8:])] *)
Definition msg_key (msg : bytes) : outcome Z :=
  t ← go_slice msg (zlen msg - 8) (zlen msg);
  Uint64 t.

(** The loop of [filterIncoming] from position [v] of [incomingValid] on: the
    messages it stores there and the indices it stores. *)
Fixpoint filter_loop (incoming : list (option bytes)) (seen : gset Z) (v : Z)
    : outcome (list bytes * list Z) :=
  match incoming with
  | [] => Ret ([], [])
  | None :: incoming' =>
      p ← filter_loop incoming' seen v;
      Ret (p.1, -1 :: p.2)
  | Some msg :: incoming' =>
      msgkey ← msg_key msg;
      if decide (msgkey ∈ seen) then
        p ← filter_loop incoming' seen v;
        Ret (p.1, -1 :: p.2)
      else
        p ← filter_loop incoming' ({[msgkey]} ∪ seen) (v + 1);
        Ret (msg :: p.1, v :: p.2)
  end.

Definition filterIncoming (round : ConvoRound) : outcome ConvoRound :=
  p ← filter_loop (cr_incoming round) ∅ 0;
  Ret (mkConvoRound (cr_status round) (cr_numIncoming round) (cr_sharedKeys round)
         (Some <$> p.1) p.2 (cr_replies round) (cr_numFakeSingles round)
         (cr_numFakeDoubles round) (cr_noise round)).

(** ** The dead-drop exchange of the last server *)

(** [exchanges[i].Unmarshal(round.incoming[i])]; the zero value stays on error. *)
Definition unmarshal_exchange (msg : bytes) : ConvoExchange :=
  match ConvoExchange_Unmarshal msg with Ok e => e | Err _ => zero_exchange end.

(** The accesses to each dead drop (the first two are kept) and the counters. *)
Fixpoint access_loop (exchanges : list ConvoExchange) (i : Z)
    (deadDrops : gmap DeadDrop (list Z)) (singles doubles : Z) : gmap DeadDrop (list Z) * Z * Z :=
  match exchanges with
  | [] => (deadDrops, singles, doubles)
  | ex :: exchanges' =>
      let drop := default [] (deadDrops !! ce_DeadDrop ex) in
      if decide (length drop = 0%nat) then
        access_loop exchanges' (i + 1) (<[ce_DeadDrop ex := drop ++ [i]]> deadDrops) (singles + 1) doubles
      else if decide (length drop = 1%nat) then
        access_loop exchanges' (i + 1) (<[ce_DeadDrop ex := drop ++ [i]]> deadDrops)
          (singles - 1) (doubles + 1)
      else access_loop exchanges' (i + 1) deadDrops singles doubles
  end.

(** The reply to exchange [i]. *)
Definition drop_reply (exchanges : list ConvoExchange) (deadDrops : gmap DeadDrop (list Z))
    (i : Z) (ex : ConvoExchange) : outcome bytes :=
  match default [] (deadDrops !! ce_DeadDrop ex) with
  | [_] => Ret (ce_EncryptedMessage ex)
  | [d0; d1] =>
      let k := if decide (i = d0) then d1 else d0 in
      other ← go_index exchanges k;
      Ret (ce_EncryptedMessage other)
  | _ => Ret []
  end.

Fixpoint drop_replies (exchanges : list ConvoExchange) (deadDrops : gmap DeadDrop (list Z))
    (i : Z) (rest : list ConvoExchange) : outcome (list bytes) :=
  match rest with
  | [] => Ret []
  | ex :: rest' =>
      r ← drop_reply exchanges deadDrops i ex;
      rs ← drop_replies exchanges deadDrops (i + 1) rest';
      Ret (r :: rs)
  end.

Definition exchange_all (incoming : list bytes) : outcome (list bytes * AccessCount) :=
  let exchanges := unmarshal_exchange <$> incoming in
  let '(deadDrops, singles, doubles) := access_loop exchanges 0 ∅ 0 0 in
  replies ← drop_replies exchanges deadDrops 0 exchanges;
  Ret (replies, mkAccessCount singles doubles).

(** ** The handlers *)

(** Fuel for the two sampling loops. *)
Class Fuel := fuel : nat.

Section Handlers.
Context {C R : Type} `{Fuel, Reader R, Box, !KeyGen R, FloatEnv, ConvoRemote C}.

Definition cstate : Type := ConvoService C * R.

Definition on_rand {A} : GoM R A -> GoM cstate A := gzoom snd (fun r s => (s.1, r)).
Definition on_client {A} : GoM C A -> GoM cstate A :=
  gzoom (fun s => cs_Client s.1) (fun c s => (set_Client c s.1, s.2)).
Definition get_srv : GoM cstate (ConvoService C) := fun s => Ret (s.1, s).
Definition put_srv (f : ConvoService C -> ConvoService C) : GoM cstate unit :=
  fun s => Ret (tt, (f s.1, s.2)).
Definition put_round (Round : Z) (r : ConvoRound) : GoM cstate unit :=
  put_srv (fun srv => set_rounds (<[Round := r]> (cs_rounds srv)) srv).

Definition Idle_Lock : GoM cstate unit := fun s =>
  if cs_Idle s.1 then Block else Ret (tt, (set_Idle true s.1, s.2)).
Definition Idle_Unlock : GoM cstate unit := fun s =>
  if cs_Idle s.1 then Ret (tt, (set_Idle false s.1, s.2)) else Panic unlock_panic.

Definition err_not_found (round : Z) : string := "round " +:+ pretty round +:+ " not found".
Definition err_status (round : Z) (got want : convoStatus) : string :=
  "round " +:+ pretty round +:+ ": status " +:+ pretty (status_num got) +:+
  ", expecting " +:+ pretty (status_num want).
Definition err_exists (round : Z) : string := "round " +:+ pretty round +:+ " already exists".
Definition err_overflow (offset onions incoming : Z) : string :=
  "overflowing onions (offset=" +:+ pretty offset +:+ ", onions=" +:+ pretty onions +:+
  ", incoming=" +:+ pretty incoming +:+ ")".

Definition getRound (round : Z) (expectedStatus : convoStatus) : GoM cstate (result ConvoRound) :=
  (let! srv := get_srv in
   match cs_rounds srv !! round with
   | None => gret (Err (err_not_found round))
   | Some r =>
       if decide (cr_status r = expectedStatus) then gret (Ok r)
       else gret (Err (err_status round (cr_status r) expectedStatus))
   end)%go.

(** A new round without noise. *)
Definition empty_round : ConvoRound := mkConvoRound convoRoundNew 0 [] [] [] [] 0 0 [].

(** The noise of a server that is not the last: the goroutine that fills
    [round.noise] finishes before [Close] reads it ([noiseWg]), so its work is done
    here at once. *)
Definition new_noise (Round : Z) (srv : ConvoService C) : GoM cstate ConvoRound :=
  (let! numFakeSingles := on_rand (cappedFlooredLaplace fuel (cs_LaplaceMu srv) (cs_LaplaceB srv)) in
   let! numFakeDoubles := on_rand (cappedFlooredLaplace fuel (cs_LaplaceMu srv) (cs_LaplaceB srv)) in
   let numFakeDoubles := i64 (numFakeDoubles + Z.rem numFakeDoubles 2) in
   let! noise := glift (go_make [] (i64 (numFakeSingles + numFakeDoubles))) in
   let nonce := ForwardNonce Round in
   let! keys := glift (NextServerKeys (cs_PKI srv) (cs_ServerName srv)) in
   let nextKeys := Keys keys in
   let! dest1 := glift (go_slice noise 0 numFakeSingles) in
   let! dest2 := glift (go_slice noise numFakeSingles (zlen noise)) in
   let! singles := on_rand (FillWithFakeSingles dest1 nonce nextKeys) in
   let! doubles := on_rand (FillWithFakeDoubles dest2 nonce nextKeys) in
   gret (mkConvoRound convoRoundNew 0 [] [] [] [] numFakeSingles numFakeDoubles (singles ++ doubles)))%go.

Definition NewRound (Round : Z) : GoM cstate (result unit) :=
  (Idle_Lock ;;;
   let! srv := get_srv in
   match cs_rounds srv !! Round with
   | Some _ => gret (Err (err_exists Round))
   | None =>
       let! round := (if cs_LastServer srv then gret empty_round else new_noise Round srv) in
       put_round Round round ;;;
       gret (Ok tt)
   end)%go.

Definition Open (args : ConvoOpenArgs) : GoM cstate (result unit) :=
  (let! round := getRound (oa_Round args) convoRoundNew in
   on_ok round (fun e => e) (fun round =>
   let! sharedKeys := glift (go_make None (oa_NumIncoming args)) in
   let! incoming := glift (go_make None (oa_NumIncoming args)) in
   put_round (oa_Round args)
     (mkConvoRound convoRoundOpen (oa_NumIncoming args) sharedKeys incoming (cr_incomingIndex round)
        (cr_replies round) (cr_numFakeSingles round) (cr_numFakeDoubles round) (cr_noise round)) ;;;
   gret (Ok tt)))%go.

(** The two slices [Add] writes. *)
Abbreviation slots := (list (option BoxKey) * list (option bytes))%type.

(** One iteration of the loop of [Add]. *)
Definition add_onion (privateKey : BoxKey) (nonce : Nonce) (expectedOnionSize Offset : Z)
    (ko : Z * bytes) (sl : slots) : outcome slots :=
  let '(k, onion) := ko in
  let i := i64 (Offset + k) in
  sharedKeys ← go_store sl.1 i (Some zero_key);
  if decide (zlen onion = expectedOnionSize) then
    theirPublic ← go_slice onion 0 32;
    let sharedKey := Precompute theirPublic privateKey in
    sharedKeys ← go_store sharedKeys i (Some sharedKey);
    ctxt ← go_slice onion 32 (zlen onion);
    match OpenAfterPrecomputation ctxt nonce sharedKey with
    | Some message => incoming ← go_store sl.2 i (Some message); Ret (sharedKeys, incoming)
    | None => Ret (sharedKeys, sl.2)
    end
  else Ret (sharedKeys, sl.2).

Definition Add (args : ConvoAddArgs) : GoM cstate (result unit) :=
  (let! round := getRound (aa_Round args) convoRoundOpen in
   on_ok round (fun e => e) (fun round =>
   let! srv := get_srv in
   let nonce := ForwardNonce (aa_Round args) in
   let expectedOnionSize := IncomingOnionOverhead (cs_PKI srv) (cs_ServerName srv) + SizeConvoExchange in
   if decide (cr_numIncoming round < i64 (aa_Offset args + zlen (aa_Onions args))) then
     gret (Err (err_overflow (aa_Offset args) (zlen (aa_Onions args)) (cr_numIncoming round)))
   else
     let! sl := glift (go_for (add_onion (cs_PrivateKey srv) nonce expectedOnionSize (aa_Offset args))
                         (zip (seqZ 0 (zlen (aa_Onions args))) (aa_Onions args))
                         (cr_sharedKeys round, cr_incoming round)) in
     put_round (aa_Round args)
       (mkConvoRound (cr_status round) (cr_numIncoming round) sl.1 sl.2 (cr_incomingIndex round)
          (cr_replies round) (cr_numFakeSingles round) (cr_numFakeDoubles round) (cr_noise round)) ;;;
     gret (Ok tt)))%go.

(** [round.replies] and [round.status] at the end of [Close]; the other fields as
    the filter and [round.noise = nil] left them. *)
Definition closed_round (round : ConvoRound) (noise replies : list bytes) (st : convoStatus) : ConvoRound :=
  mkConvoRound st (cr_numIncoming round) (cr_sharedKeys round) (cr_incoming round)
    (cr_incomingIndex round) replies (cr_numFakeSingles round) (cr_numFakeDoubles round) noise.

(** [select { case srv.AccessCounts <- ac: default: }] on a channel of capacity 8. *)
Definition send_AccessCount (ac : AccessCount) (srv : ConvoService C) : ConvoService C :=
  if decide (length (cs_AccessCounts srv) < 8)%nat then set_AccessCounts (cs_AccessCounts srv ++ [ac]) srv
  else srv.

(** [outgoing := append(round.incoming, ...)] reuses the array of [round.incoming]
    when its capacity suffices (the length of the unfiltered batch, which is that
    of [incomingIndex]); shuffling [outgoing] in place then shuffles
    [round.incoming] too. *)
Definition alias_incoming (round : ConvoRound) (outgoing : list bytes) : ConvoRound :=
  if decide (zlen outgoing <= zlen (cr_incomingIndex round)) then
    mkConvoRound (cr_status round) (cr_numIncoming round) (cr_sharedKeys round)
      (Some <$> take (length (cr_incoming round)) outgoing) (cr_incomingIndex round)
      (cr_replies round) (cr_numFakeSingles round) (cr_numFakeDoubles round) (cr_noise round)
  else round.

(** The branch of a server that is not the last. *)
Definition close_forward (Round : Z) (round : ConvoRound) : GoM cstate (result unit) :=
  let outgoing := ((fun m => default [] m) <$> cr_incoming round) ++ cr_noise round in
  (let! shuffler := on_rand (NewShuffler fuel (zlen outgoing)) in
   let! outgoing := glift (Shuffle shuffler outgoing) in
   let round := alias_incoming (closed_round round [] (cr_replies round) (cr_status round)) outgoing in
   put_round Round round ;;;
   let! err := on_client (NewConvoRound Round) in
   on_ok err (fun e => "NewConvoRound: " +:+ e) (fun _ =>
   Idle_Unlock ;;;
   let! err := on_client (RunConvoRound Round outgoing) in
   on_ok err (fun e => "RunConvoRound: " +:+ e) (fun replies =>
   let! replies := glift (Unshuffle shuffler replies) in
   let! replies := glift (go_slice replies 0 (cr_numIncoming round)) in
   put_round Round (closed_round round [] replies convoRoundClosed) ;;;
   gret (Ok tt))))%go.

(** The branch of the last server. *)
Definition close_last (Round : Z) (round : ConvoRound) : GoM cstate (result unit) :=
  (let! (replies, ac) := glift (exchange_all ((fun m => default [] m) <$> cr_incoming round)) in
   Idle_Unlock ;;;
   put_srv (send_AccessCount ac) ;;;
   put_round Round (closed_round round (cr_noise round) replies convoRoundClosed) ;;;
   gret (Ok tt))%go.

Definition Close (Round : Z) : GoM cstate (result unit) :=
  (let! round := getRound Round convoRoundOpen in
   on_ok round (fun e => e) (fun round =>
   let! round := glift (filterIncoming round) in
   put_round Round round ;;;
   let! srv := get_srv in
   if cs_LastServer srv then close_last Round round else close_forward Round round))%go.

(** The onion of slot [i]: the sealed reply, or random bytes of the same size. *)
Definition get_onion (round : ConvoRound) (nonce : Nonce) (outgoingOnionSize i : Z) : GoM cstate bytes :=
  (let! v := glift (go_index (cr_incomingIndex round) i) in
   let! onion := (if decide (-1 < v) then
       let! reply := glift (go_index (cr_replies round) v) in
       let! sharedKey := glift (go_index (cr_sharedKeys round) i) in
       match sharedKey with
       | Some k => gret (SealAfterPrecomputation reply nonce k)
       | None => glift (Panic nil_panic)
       end
     else gret []) in
   if decide (zlen onion = outgoingOnionSize) then gret onion
   else on_rand (rand_Read (Z.to_nat outgoingOnionSize)))%go.

Definition Get (args : ConvoGetArgs) : GoM cstate (result (list bytes)) :=
  (let! round := getRound (ga_Round args) convoRoundClosed in
   on_ok round (fun e => e) (fun round =>
   let! srv := get_srv in
   let nonce := BackwardNonce (ga_Round args) in
   let outgoingOnionSize := OutgoingOnionOverhead (cs_PKI srv) (cs_ServerName srv) + SizeEncryptedMessage in
   let! onions := glift (go_make (A := bytes) [] (ga_Count args)) in
   let! onions := go_map (fun k => get_onion round nonce outgoingOnionSize (i64 (ga_Offset args + k)))
                    (seqZ 0 (zlen onions)) in
   gret (Ok onions)))%go.

Definition Delete (Round : Z) : GoM cstate (result unit) :=
  (put_srv (fun srv => set_rounds (delete Round (cs_rounds srv)) srv) ;;; gret (Ok tt))%go.

(** The service is what the server before it in the chain talks to. A panic or a
    blocked handler of a later server is one of the whole chain. *)
#[export] Instance ConvoService_remote : ConvoRemote cstate := {|
  rpc_NewRound := NewRound;
  rpc_Open := Open;
  rpc_Add := Add;
  rpc_Close := Close;
  rpc_Get := Get;
  rpc_Delete := Delete;
|}.

End Handlers.
Arguments cstate : clear implicits.
