(* ===== verification/DeadDrops.v ===== *)
(** * DeadDrops: the filter and the dead-drop exchange are correct

    Theorems about the pure parts of [Close] in [convo.go]: [filterIncoming]
    against the specification "first message with its key", and the last
    server's exchange against the specification "swap the two messages of a
    dead drop". *)

From stdpp Require Import numbers strings gmap list.
From Stdlib Require Import Strings.Byte.
From S2P Require Import Prelude Binary Wire Rand OnionBox Pki Noise Laplace Convo.

(** ** filterIncoming *)

(** The key a message is deduplicated by: its last eight bytes. *)
Definition key_of (msg : bytes) : Z := be_get (drop (length msg - 8) msg).

Lemma msg_key_ret msg : (8 <= length msg)%nat -> msg_key msg = Ret (key_of msg).
Proof.
  intros Hl. unfold msg_key, go_slice, zlen, key_of. rewrite decide_True by lia.
  cbn [mbind outcome_bind].
  replace (Z.to_nat (Z.of_nat (length msg) - 8)) with (length msg - 8)%nat by lia.
  rewrite take_ge by (rewrite length_drop; lia).
  unfold Uint64. rewrite decide_True by (rewrite length_drop; lia).
  by rewrite take_ge by (rewrite length_drop; lia).
Qed.

(** Position [i] holds the first message with its key. *)
Definition first_with_key (incoming : list (option bytes)) (i : nat) (msg : bytes) : Prop :=
  incoming !! i = Some (Some msg) /\
  forall j msg', (j < i)%nat -> incoming !! j = Some (Some msg') -> key_of msg' <> key_of msg.

Lemma first_with_key_dec incoming i :
  (exists m, first_with_key incoming i m) \/ (forall m, ~ first_with_key incoming i m).
Proof.
  unfold first_with_key. destruct (incoming !! i) as [[m|]|]; [|right; by intros m [? _]..].
  destruct (decide (Exists (fun o => (key_of <$> o) = Some (key_of m)) (take i incoming))) as [He|Hn].
  - right. intros m' [[= <-] Hf]. apply Exists_exists in He as (o & (j & Hj)%list_elem_of_lookup_1 & Ho).
    apply lookup_take_Some in Hj as [Hj Hlt]. destruct o as [m'|]; [|done]. injection Ho as Ho.
    by apply (Hf j m').
  - left. exists m. split; [done|]. intros j m' Hlt Hj Heq. apply Hn, Exists_exists.
    exists (Some m'). split; [|cbn; by rewrite Heq]. eapply list_elem_of_lookup_2.
    apply lookup_take_Some. by split.
Qed.

Definition long_enough (incoming : list (option bytes)) : Prop :=
  Forall (fun o => match o with Some m => (8 <= length m)%nat | None => True end) incoming.

(** The specification of the filter, for the loop started with keys already seen. *)
Record filtered (incoming : list (option bytes)) (seen : gset Z) (v : Z)
    (valid : list bytes) (idx : list Z) : Prop := {
  fl_length : length idx = length incoming;
  fl_order : filter (fun z => z <> -1) idx = seqZ v (zlen valid);
  fl_keys : NoDup (key_of <$> valid) /\ forall m, m ∈ valid -> key_of m ∉ seen;
  fl_slot : forall i o, incoming !! i = Some o ->
    (exists msg z, o = Some msg /\ first_with_key incoming i msg /\ key_of msg ∉ seen /\
       idx !! i = Some z /\ v <= z /\ valid !! Z.to_nat (z - v) = Some msg) \/
    (idx !! i = Some (-1) /\
     forall msg, o = Some msg -> ~ (first_with_key incoming i msg /\ key_of msg ∉ seen));
}.

Lemma first_with_key_cons o incoming i msg :
  first_with_key (o :: incoming) (S i) msg <->
  first_with_key incoming i msg /\ (forall m, o = Some m -> key_of m <> key_of msg).
Proof.
  unfold first_with_key. cbn. split.
  - intros [Hi Hf]. split; [split; [done|]|].
    + intros j m Hj Hm. by apply (Hf (S j)); [lia|].
    + intros m ->. apply (Hf 0%nat); [lia|done].
  - intros [[Hi Hf] Ho]. split; [done|]. intros [|j] m Hj Hm; simplify_eq/=.
    + by apply Ho.
    + apply (Hf j); [lia|done].
Qed.

(** Dropping a slot: nil, or a message whose key was seen. *)
Lemma filtered_skip o incoming seen v valid idx :
  0 <= v -> (forall m, o = Some m -> key_of m ∈ seen) ->
  filtered incoming seen v valid idx -> filtered (o :: incoming) seen v valid (-1 :: idx).
Proof.
  intros Hv Ho [Hl Hord Hk Hs]. split; [by cbn; f_equal| |done|].
  - by rewrite filter_cons_False by (intros []; done).
  - intros [|i] o' Hi; simplify_eq/=.
    + right. split; [done|]. intros msg -> [_ Hns]. by apply Hns, Ho.
    + destruct (Hs i o' Hi) as [(msg & z & -> & Hf & Hns & Hz & Hvz & Hval)|[Hz Hn]].
      * left. exists msg, z. split_and!; try done. apply first_with_key_cons. split; [done|].
        intros m Hm%Ho Heq. by rewrite Heq in Hm.
      * right. split; [done|]. intros msg -> [[Hf _]%first_with_key_cons Hns]. by eapply Hn.
Qed.

(** Keeping a slot: a message with a new key. *)
Lemma filtered_keep msg incoming seen v valid idx :
  0 <= v -> key_of msg ∉ seen ->
  filtered incoming ({[key_of msg]} ∪ seen) (v + 1) valid idx ->
  filtered (Some msg :: incoming) seen v (msg :: valid) (v :: idx).
Proof.
  intros Hv Hns [Hl Hord [Hnd Hk] Hs]. split; [by cbn; f_equal| | |].
  - rewrite filter_cons_True by lia. rewrite Hord. unfold zlen. cbn [length].
    rewrite (seqZ_cons v) by lia. f_equal. f_equal; lia.
  - split; [cbn; constructor; [|done]|].
    + intros (m & Heq & Hm)%list_elem_of_fmap. specialize (Hk m Hm). set_solver.
    + intros m [->|Hm]%elem_of_cons; [done|]. specialize (Hk m Hm). set_solver.
  - intros [|i] o' Hi; simplify_eq/=.
    + left. exists msg, v. rewrite Z.sub_diag. split_and!; try done.
      split; [done|]. intros j m Hj. lia.
    + destruct (Hs i o' Hi) as [(m & z & -> & Hf & Hns' & Hz & Hvz & Hval)|[Hz Hn]].
      * left. exists m, z. split_and!; try done; [| |lia|].
        -- apply first_with_key_cons. split; [done|]. intros m' [= <-] Heq. set_solver.
        -- set_solver.
        -- replace (Z.to_nat (z - v)) with (S (Z.to_nat (z - (v + 1)))) by lia. done.
      * right. split; [done|]. intros m -> [[Hf Hne]%first_with_key_cons Hns'].
        apply (Hn m); [done|]. split; [done|]. specialize (Hne msg eq_refl). set_solver.
Qed.

Lemma filter_loop_ok incoming seen v :
  0 <= v -> long_enough incoming ->
  exists valid idx, filter_loop incoming seen v = Ret (valid, idx) /\ filtered incoming seen v valid idx.
Proof.
  intros Hv Hlen. revert seen v Hv. induction Hlen as [|o incoming Ho _ IH]; intros seen v Hv.
  { exists [], []. split; [done|]. split; [done|done|split; [constructor|set_solver]|done]. }
  destruct o as [msg|]; cbn [filter_loop].
  - rewrite msg_key_ret by done. cbn [mbind outcome_bind]. case_decide as Hs.
    + destruct (IH seen v Hv) as (valid & idx & -> & Hf). eexists _, _. split; [done|].
      apply filtered_skip; [done|congruence|done].
    + destruct (IH ({[key_of msg]} ∪ seen) (v + 1)) as (valid & idx & -> & Hf); [lia|].
      eexists _, _. split; [done|]. by apply filtered_keep.
  - destruct (IH seen v Hv) as (valid & idx & -> & Hf). eexists _, _. split; [done|].
    by apply filtered_skip.
Qed.

(** C27. [filterIncoming] keeps exactly the first message with each key: on messages
    of at least eight bytes it does not panic; the kept messages have pairwise
    distinct keys; the entries of [incomingIndex] other than -1 are 0, 1, 2, ...
    in order, one per kept message; a slot that holds the first message with its
    key points to that message among the kept ones, and every other slot (nil or
    a repeated key) is -1. *)
Theorem filterIncoming_first_with_key (round : ConvoRound) :
  long_enough (cr_incoming round) ->
  exists round' valid, filterIncoming round = Ret round' /\
    cr_incoming round' = Some <$> valid /\
    length (cr_incomingIndex round') = length (cr_incoming round) /\
    NoDup (key_of <$> valid) /\
    filter (fun z => z <> -1) (cr_incomingIndex round') = seqZ 0 (zlen valid) /\
    (forall i msg, first_with_key (cr_incoming round) i msg ->
       exists z, cr_incomingIndex round' !! i = Some z /\ 0 <= z /\ valid !! Z.to_nat z = Some msg) /\
    (forall i o, cr_incoming round !! i = Some o ->
       (forall msg, o = Some msg -> ~ first_with_key (cr_incoming round) i msg) ->
       cr_incomingIndex round' !! i = Some (-1)).
Proof.
  intros Hl. destruct (filter_loop_ok (cr_incoming round) ∅ 0) as (valid & idx & Hf & [H1 H2 H3 H4]);
    [lia|done|].
  unfold filterIncoming. rewrite Hf. eexists _, valid. split_and!; try done; cbn; try apply H3.
  - intros i msg Hfirst. destruct (H4 i (Some msg) (proj1 Hfirst))
      as [(m & z & [= <-] & _ & _ & Hz & Hle & Hv)|[_ Hn]].
    + exists z. by rewrite Z.sub_0_r in Hv.
    + exfalso. apply (Hn msg eq_refl). split; [done|set_solver].
  - intros i o Ho Hn. destruct (H4 i o Ho) as [(m & z & -> & Hf' & _)|[Hz _]]; [|done].
    exfalso. by eapply Hn.
Qed.

Definition example_round : ConvoRound := mkConvoRound convoRoundOpen 4 [] 
  [Some (replicate 8 x01); None; Some (replicate 9 x01); Some (replicate 8 x02)] [] [] 0 0 [].

Lemma filterIncoming_first_with_key_witness :
  exists round' valid, filterIncoming example_round = Ret round' /\
    cr_incoming round' = Some <$> valid /\ cr_incomingIndex round' = [0; -1; -1; 1].
Proof.
  destruct (filterIncoming_first_with_key example_round) as (round' & valid & H1 & H2 & _).
  - repeat constructor.
  - exists round', valid. split; [exact H1|]. split; [exact H2|]. vm_compute in H1.
    injection H1 as <-. reflexivity.
Defined.

(** ** The dead-drop exchange *)

(** The positions at which the exchanges access dead drop [dd], in order. *)
Fixpoint accesses (dd : DeadDrop) (exs : list ConvoExchange) (i : Z) : list Z :=
  match exs with
  | [] => []
  | ex :: exs' =>
      if decide (dd = ce_DeadDrop ex) then i :: accesses dd exs' (i + 1) else accesses dd exs' (i + 1)
  end.

Lemma accesses_app dd exs exs' i :
  accesses dd (exs ++ exs') i = accesses dd exs i ++ accesses dd exs' (i + zlen exs).
Proof.
  revert i. induction exs as [|ex exs IH]; intros i; cbn [accesses app].
  { unfold zlen. simpl. by rewrite Z.add_0_r. }
  rewrite IH. replace (i + 1 + zlen exs) with (i + zlen (ex :: exs)) by (unfold zlen; cbn [length]; lia).
  by case_decide.
Qed.

Lemma accesses_spec dd exs i z :
  z ∈ accesses dd exs i <->
  i <= z /\ exists ex, exs !! Z.to_nat (z - i) = Some ex /\ ce_DeadDrop ex = dd.
Proof.
  revert i. induction exs as [|ex exs IH]; intros i; cbn [accesses].
  { split; [set_solver|]. intros (_ & ex & H & _). by rewrite lookup_nil in H. }
  assert (z ∈ accesses dd exs (i + 1) <->
    i < z /\ exists ex', (ex :: exs) !! Z.to_nat (z - i) = Some ex' /\ ce_DeadDrop ex' = dd) as Hrest.
  { rewrite IH. split; intros [Hle Hex]; (split; [lia|]);
      replace (Z.to_nat (z - i)) with (S (Z.to_nat (z - (i + 1)))) in * by lia; done. }
  case_decide as Hd; rewrite ?elem_of_cons, Hrest.
  - split.
    + intros [->|[Hlt Hex]]; [|split; [lia|done]]. split; [lia|]. exists ex. by rewrite Z.sub_diag.
    + intros [Hle Hex]. destruct (decide (z = i)); [by left|right]. split; [lia|done].
  - split; [intros [Hlt Hex]; split; [lia|done]|].
    intros [Hle (ex' & Hex & Heq)]. destruct (decide (z = i)) as [->|]; [|split; [lia|eauto]].
    rewrite Z.sub_diag in Hex. simplify_eq/=.
Qed.

(** How many dead drops of the map have [n] recorded accesses. *)
Definition drops_with (n : nat) (m : gmap DeadDrop (list Z)) : nat :=
  size (filter (fun p : DeadDrop * list Z => length p.2 = n) m).

Lemma drops_with_fresh n m dd l :
  m !! dd = None ->
  drops_with n (<[dd := l]> m) = (drops_with n m + if decide (length l = n) then 1 else 0)%nat.
Proof.
  intros Hm. unfold drops_with. case_decide as Hl.
  - rewrite map_filter_insert_True by done.
    rewrite map_size_insert_None; [lia|]. apply map_lookup_filter_None. left. done.
  - rewrite map_filter_insert_False by done. rewrite delete_id by done. lia.
Qed.

Lemma drops_with_update n m dd l l' :
  m !! dd = Some l ->
  (drops_with n (<[dd := l']> m) + (if decide (length l = n) then 1 else 0) =
   drops_with n m + (if decide (length l' = n) then 1 else 0))%nat.
Proof.
  intros Hm. rewrite <- (insert_delete_id m dd l Hm) at 2.
  rewrite <- insert_delete_eq, !drops_with_fresh by apply lookup_delete_eq. lia.
Qed.

(** The map and the counters after the exchanges [exs]. *)
Definition counted (exs : list ConvoExchange) (m : gmap DeadDrop (list Z)) (singles doubles : Z) : Prop :=
  (forall dd, m !! dd = match accesses dd exs 0 with [] => None | l => Some (take 2 l) end) /\
  singles = Z.of_nat (drops_with 1 m) /\ doubles = Z.of_nat (drops_with 2 m).

Lemma counted_step exs ex m s d :
  counted exs m s d ->
  let drop := default [] (m !! ce_DeadDrop ex) in
  let i := zlen exs in
  if decide (length drop = 0%nat) then counted (exs ++ [ex]) (<[ce_DeadDrop ex := drop ++ [i]]> m) (s + 1) d
  else if decide (length drop = 1%nat) then
    counted (exs ++ [ex]) (<[ce_DeadDrop ex := drop ++ [i]]> m) (s - 1) (d + 1)
  else counted (exs ++ [ex]) m s d.
Proof.
  intros (Hm & -> & ->). set (dd0 := ce_DeadDrop ex). cbn zeta.
  assert (forall dd, accesses dd (exs ++ [ex]) 0 =
    accesses dd exs 0 ++ if decide (dd = dd0) then [zlen exs] else []) as Hacc.
  { intros dd. rewrite accesses_app, Z.add_0_l. cbn [accesses]. unfold dd0. by case_decide. }
  assert (forall l, m !! dd0 = l -> (forall dd, <[dd0 := default [] l ++ [zlen exs]]> m !! dd =
     match accesses dd (exs ++ [ex]) 0 with [] => None | l => Some (take 2 l) end) \/
     (2 <= length (default [] l))%nat) as Hins.
  { intros l Hl. destruct (decide (2 <= length (default [] l))%nat) as [|Hlt]; [by right|left].
    intros dd. rewrite Hacc. case_decide as Hdd; [subst dd|].
    - rewrite lookup_insert_eq. rewrite Hm in Hl.
      destruct (accesses dd0 exs 0) as [|a [|b r]]; simplify_eq/=; done.
    - rewrite lookup_insert_ne by done. by rewrite app_nil_r. }
  destruct (m !! dd0) as [l|] eqn:Hl; cbn [from_option] in *; unfold id in *.
  - assert (l <> []) as Hne.
    { intros ->. rewrite Hm in Hl. by destruct (accesses dd0 exs 0) as [|a [|b r]]. }
    rewrite decide_False by (by destruct l). case_decide as H1.
    + destruct (Hins _ eq_refl) as [Hins'|]; [|simpl in *; lia].
      pose proof (drops_with_update 1 m dd0 l (l ++ [zlen exs]) Hl) as U1.
      pose proof (drops_with_update 2 m dd0 l (l ++ [zlen exs]) Hl) as U2.
      rewrite length_app, H1 in U1, U2. simpl in U1, U2.
      split_and!; [exact Hins'|lia|lia].
    + split_and!; [|done|done]. intros dd. rewrite Hacc, Hm. case_decide as Hdd; [subst dd|by rewrite app_nil_r].
      rewrite Hm in Hl. destruct (accesses dd0 exs 0) as [|a [|b r]]; simplify_eq/=; done.
  - rewrite decide_True by done. destruct (Hins _ eq_refl) as [Hins'|]; [|simpl in *; lia].
    split_and!; [exact Hins'| |].
    + rewrite drops_with_fresh, decide_True by done. lia.
    + rewrite drops_with_fresh, decide_False by done. lia.
Qed.

Lemma access_loop_counted rest exs m s d :
  counted exs m s d ->
  exists m' s' d', access_loop rest (zlen exs) m s d = (m', s', d') /\ counted (exs ++ rest) m' s' d'.
Proof.
  revert exs m s d. induction rest as [|ex rest IH]; intros exs m s d Hc; cbn [access_loop].
  { rewrite app_nil_r. by eexists _, _, _. }
  pose proof (counted_step _ ex _ _ _ Hc) as Hs. cbn zeta in Hs.
  replace (zlen exs + 1) with (zlen (exs ++ [ex])) by (rewrite zlen_app; done).
  replace (exs ++ ex :: rest) with ((exs ++ [ex]) ++ rest) by (by rewrite <- app_assoc).
  repeat case_decide; by apply IH.
Qed.

(** The reply the specification gives to exchange [i]: its own message when the
    dead drop is accessed once; else the second access's message for the first
    access, and the first access's message for all others. *)
Definition reply_spec (exs : list ConvoExchange) (i : Z) (ex : ConvoExchange) : bytes :=
  match accesses (ce_DeadDrop ex) exs 0 with
  | [] => []
  | [_] => ce_EncryptedMessage ex
  | j0 :: j1 :: _ =>
      match exs !! Z.to_nat (if decide (i = j0) then j1 else j0) with
      | Some other => ce_EncryptedMessage other
      | None => []
      end
  end.

(** The distinct dead drops for which [P] holds of the number of accesses. *)
Definition count_drops (P : nat -> Prop) `{forall n, Decision (P n)} (exs : list ConvoExchange) : nat :=
  length (filter (fun dd => P (length (accesses dd exs 0))) (remove_dups (ce_DeadDrop <$> exs))).

Lemma drop_reply_spec exs m s d i ex :
  counted exs m s d -> drop_reply exs m i ex = Ret (reply_spec exs i ex).
Proof.
  intros (Hm & _ & _). unfold drop_reply, reply_spec. rewrite Hm.
  destruct (accesses (ce_DeadDrop ex) exs 0) as [|j0 [|j1 l]] eqn:Ha; [done|done|]. cbn [from_option take id].
  assert ((if decide (i = j0) then j1 else j0) ∈ accesses (ce_DeadDrop ex) exs 0) as Hk.
  { rewrite Ha. case_decide; set_solver. }
  set (k := if decide _ then _ else _) in *.
  apply accesses_spec in Hk as (Hk0 & other & Ho & _). rewrite Z.sub_0_r in Ho. rewrite Ho.
  by rewrite (proj2 (go_index_ret exs k other)).
Qed.

Lemma drop_replies_spec exs m s d rest i :
  counted exs m s d ->
  exists rs, drop_replies exs m i rest = Ret rs /\ length rs = length rest /\
    forall j ex, rest !! j = Some ex -> rs !! j = Some (reply_spec exs (i + Z.of_nat j) ex).
Proof.
  intros Hc. revert i. induction rest as [|ex rest IH]; intros i; cbn [drop_replies]; [by exists []|].
  rewrite (drop_reply_spec _ _ _ _ _ _ Hc). cbn [mbind outcome_bind].
  destruct (IH (i + 1)) as (rs & -> & Hl & Hrs). eexists. split; [done|]. split; [cbn; by f_equal|].
  intros [|j] ex' Hj; simplify_eq/=.
  - by rewrite Z.add_0_r.
  - rewrite (Hrs _ _ Hj). do 2 f_equal. lia.
Qed.

Lemma accessed_iff dd exs : accesses dd exs 0 <> [] <-> dd ∈ ce_DeadDrop <$> exs.
Proof.
  rewrite list_elem_of_fmap. split.
  - intros Hne. destruct (accesses dd exs 0) as [|z l] eqn:E; [done|].
    assert (z ∈ accesses dd exs 0) as (_ & ex & Hex & <-)%accesses_spec by (rewrite E; set_solver).
    exists ex. split; [done|]. by eapply list_elem_of_lookup_2.
  - intros (ex & -> & (i & Hi)%list_elem_of_lookup_1) Hnil.
    assert (Z.of_nat i ∈ accesses (ce_DeadDrop ex) exs 0) as Hin; [|by rewrite Hnil in Hin; set_solver].
    apply accesses_spec. split; [lia|]. exists ex. split; [|done]. by rewrite Z.sub_0_r, Nat2Z.id.
Qed.

Lemma drops_with_count (n : nat) (P : nat -> Prop) `{forall n, Decision (P n)} exs m s d :
  (0 < n)%nat -> (forall k, (0 < k)%nat -> P k <-> Nat.min 2 k = n) ->
  counted exs m s d -> drops_with n m = count_drops P exs.
Proof.
  intros Hn HP (Hm & _ & _). unfold drops_with, count_drops.
  rewrite <- size_dom, <- (size_list_to_set (C := gset DeadDrop)).
  2: { apply NoDup_filter, NoDup_remove_dups. }
  f_equal. apply set_eq. intros dd. rewrite elem_of_dom, elem_of_list_to_set.
  rewrite list_elem_of_filter, elem_of_remove_dups, <- accessed_iff.
  unfold is_Some. setoid_rewrite map_lookup_filter_Some. cbn. rewrite Hm.
  destruct (accesses dd exs 0) as [|z l] eqn:E; [naive_solver|].
  rewrite (HP (length (z :: l))) by (cbn; lia). rewrite <- length_take.
  split; [intros (x & [= <-] & Hx); done|]. intros [Hx _]. eauto.
Qed.

(** The exchange against its specification. *)
Lemma exchange_all_spec (incoming : list bytes) :
  let exs := unmarshal_exchange <$> incoming in
  exists replies ac, exchange_all incoming = Ret (replies, ac) /\
    length replies = length incoming /\
    (forall i ex, exs !! i = Some ex -> replies !! i = Some (reply_spec exs (Z.of_nat i) ex)) /\
    ac_Singles ac = Z.of_nat (count_drops (fun n => n = 1%nat) exs) /\
    ac_Doubles ac = Z.of_nat (count_drops (fun n => (2 <= n)%nat) exs).
Proof.
  unfold exchange_all. set (exs := unmarshal_exchange <$> incoming). cbn zeta.
  destruct (access_loop_counted exs [] ∅ 0 0) as (m & s & d & Hloop & Hc).
  { split_and!; [intros dd; by rewrite lookup_empty|done|done]. }
  change (zlen []) with 0 in Hloop. cbn [app] in Hc. rewrite Hloop.
  destruct (drop_replies_spec exs m s d exs 0 Hc) as (rs & -> & Hl & Hrs). cbn [mbind outcome_bind].
  eexists rs, _. split; [done|]. split; [by rewrite Hl; unfold exs; rewrite length_fmap|].
  split_and!; [exact Hrs| |]; cbn [ac_Singles ac_Doubles].
  - destruct Hc as (Hm & -> & ->). f_equal. eapply drops_with_count; [lia|lia|by split_and!].
  - destruct Hc as (Hm & -> & ->). f_equal. eapply drops_with_count; [lia|lia|by split_and!].
Qed.

(** The two users of a dead drop nobody else accesses get each other's message. *)
Lemma reply_spec_pair exs i j ei ej :
  exs !! i = Some ei -> exs !! j = Some ej ->
  accesses (ce_DeadDrop ei) exs 0 = [Z.of_nat i; Z.of_nat j] -> i <> j ->
  reply_spec exs (Z.of_nat i) ei = ce_EncryptedMessage ej /\
  reply_spec exs (Z.of_nat j) ej = ce_EncryptedMessage ei.
Proof.
  intros Hi Hj Hacc Hne.
  assert (ce_DeadDrop ej = ce_DeadDrop ei) as Hdd.
  { assert (Z.of_nat j ∈ accesses (ce_DeadDrop ei) exs 0) as (_ & ex & Hex & <-)%accesses_spec
      by (rewrite Hacc; set_solver).
    rewrite Z.sub_0_r, Nat2Z.id in Hex. congruence. }
  unfold reply_spec. rewrite Hdd, Hacc.
  rewrite decide_True by done. rewrite decide_False by lia. by rewrite !Nat2Z.id, Hi, Hj.
Qed.

(** C5. The last server's dead-drop exchange: it never panics; every message gets a
    reply; two users that meet at a dead drop nobody else accesses get each
    other's encrypted message, a user alone at a dead drop gets its own back, and
    with more than two accesses the first two swap and every later one gets the
    first's. The counters it publishes are the number of dead drops accessed
    exactly once and the number accessed at least twice. *)
Theorem deaddrop_exchange (incoming : list bytes) :
  exists replies ac, exchange_all incoming = Ret (replies, ac) /\
    length replies = length incoming /\
    (let exs := unmarshal_exchange <$> incoming in
     (forall i ex, exs !! i = Some ex -> replies !! i = Some (reply_spec exs (Z.of_nat i) ex)) /\
     (forall i j ei ej, exs !! i = Some ei -> exs !! j = Some ej ->
        accesses (ce_DeadDrop ei) exs 0 = [Z.of_nat i; Z.of_nat j] -> i <> j ->
        replies !! i = Some (ce_EncryptedMessage ej) /\ replies !! j = Some (ce_EncryptedMessage ei)) /\
     ac_Singles ac = Z.of_nat (count_drops (fun n => n = 1%nat) exs) /\
     ac_Doubles ac = Z.of_nat (count_drops (fun n => (2 <= n)%nat) exs)).
Proof.
  destruct (exchange_all_spec incoming) as (rs & ac & He & Hl & Hrs & Hs & Hd).
  exists rs, ac. split; [done|]. split; [done|]. split; [exact Hrs|]. split; [|done].
  intros i j ei ej Hi Hj Hacc Hne. destruct (reply_spec_pair _ _ _ _ _ Hi Hj Hacc Hne) as [<- <-].
  split; by apply Hrs.
Qed.

Example exchange_example :
  let m (d c : byte) := replicate 16 d ++ replicate 256 c in
  exchange_all [m x01 x41; m x02 x42; m x01 x43] =
  Ret ([replicate 256 x43; replicate 256 x42; replicate 256 x41], mkAccessCount 1 1).
Proof. vm_compute. reflexivity. Qed.
