(* ===== verification/ConvoRounds.v ===== *)
(** * ConvoRounds: the handlers of the conversation service

    Theorems about the RPC handlers of [convo.go]: the life cycle of a round and
    the errors outside it, the invariant every history of calls keeps, what each
    handler computes, and what the client side [RunConvoRound] makes of them. *)

From stdpp Require Import numbers strings pretty gmap list.
From Stdlib Require Import Strings.Byte.
From S2P Require Import Prelude Binary Wire Rand Shuffle Parallel OnionBox Pki Noise Laplace Vrpc Convo DeadDrops.

(** ** What [Add] makes of one onion *)

(** The shared key and the message of a slot, given the size onions must have. *)
Definition slot_key `{Box} (sk : BoxKey) (size : Z) (onion : bytes) : BoxKey :=
  if decide (zlen onion = size) then peel_key sk onion else zero_key.
Definition slot_msg `{Box} (sk : BoxKey) (nonce : Nonce) (size : Z) (onion : bytes) : option bytes :=
  if decide (zlen onion = size) then peel sk nonce onion else None.

(** The slot after the onion: a slot is only written when the onion opens. *)
Definition slot_update `{Box} (sk : BoxKey) (nonce : Nonce) (size : Z) (onion : bytes)
    (old : option bytes) : option bytes :=
  match slot_msg sk nonce size onion with Some m => Some m | None => old end.

Lemma add_onion_step `{Box} sk nonce size Offset k onion (pre1 post1 : list (option BoxKey))
    (pre2 post2 : list (option bytes)) o1 o2 :
  32 <= size -> zlen pre1 = Offset + k -> zlen pre2 = Offset + k -> Offset + k < 2 ^ 63 ->
  add_onion sk nonce size Offset (k, onion) (pre1 ++ o1 :: post1, pre2 ++ o2 :: post2) =
  Ret (pre1 ++ Some (slot_key sk size onion) :: post1,
       pre2 ++ slot_update sk nonce size onion o2 :: post2).
Proof.
  intros Hsize H1 H2 Hlt. unfold add_onion. pose proof (zlen_nonneg pre1).
  rewrite i64_small by lia. cbn [fst snd].
  assert (forall A (pre post : list A) x y, zlen pre = Offset + k ->
    go_store (pre ++ x :: post) (Offset + k) y = Ret (pre ++ y :: post)) as Hstore.
  { intros A pre post x y Hp. apply go_store_ret. rewrite <- Hp. unfold zlen.
    rewrite length_app. cbn [length]. split; [lia|]. rewrite Nat2Z.id.
    by rewrite insert_app_r_alt, Nat.sub_diag by lia. }
  rewrite (Hstore _ pre1) by done. cbn [mbind outcome_bind].
  unfold slot_key, slot_update, slot_msg. case_decide as Hs; [|done].
  unfold go_slice. rewrite !decide_True by lia. cbn [mbind outcome_bind].
  rewrite (Hstore _ pre1) by done. cbn [mbind outcome_bind].
  unfold peel, peel_key. rewrite drop_0. change (Z.to_nat (32 - 0)) with 32%nat.
  change (Z.to_nat 32) with 32%nat. rewrite (take_ge (drop 32 onion)) by
    (rewrite length_drop; unfold zlen; lia).
  destruct (OpenAfterPrecomputation _ _ _) as [m|]; [|done].
  by rewrite (Hstore _ pre2).
Qed.

(** The loop of [Add] on a range of slots. *)
Lemma add_range `{Box} sk nonce size Offset k onions pre1 mid1 post1 pre2 mid2 post2 :
  32 <= size -> zlen pre1 = Offset + k -> zlen pre2 = Offset + k ->
  Offset + k + zlen onions < 2 ^ 63 -> length mid1 = length onions -> length mid2 = length onions ->
  go_for (add_onion sk nonce size Offset) (zip (seqZ k (zlen onions)) onions)
    (pre1 ++ mid1 ++ post1, pre2 ++ mid2 ++ post2) =
  Ret (pre1 ++ ((fun o => Some (slot_key sk size o)) <$> onions) ++ post1,
       pre2 ++ zip_with (slot_update sk nonce size) onions mid2 ++ post2).
Proof.
  intros Hsize. revert k pre1 mid1 pre2 mid2.
  induction onions as [|o onions IH]; intros k pre1 [|o1 mid1] pre2 [|o2 mid2] H1 H2 Hlt Hl1 Hl2;
    try discriminate; [by rewrite seqZ_nil by done|].
  assert (zlen (o :: onions) = 1 + zlen onions) as Hz by (unfold zlen; cbn [length]; lia).
  pose proof (zlen_nonneg onions).
  rewrite Hz, seqZ_cons by lia. cbn [zip_with go_for app].
  rewrite add_onion_step by (done || lia). cbn [mbind outcome_bind].
  replace (Z.pred (1 + zlen onions)) with (zlen onions) by lia. replace (Z.succ k) with (k + 1) by lia.
  rewrite (cons_middle _ pre1), (cons_middle _ pre2), (app_assoc pre1), (app_assoc pre2).
  cbn [length] in *. rewrite IH; [|rewrite ?zlen_app; unfold zlen in *; cbn [length]; lia..].
  cbn [fmap list_fmap zip_with app]. by rewrite <- !app_assoc.
Qed.

(** ** Sizes *)

Lemma index_loop_bound order name i last :
  0 <= last <= i -> 0 <= index_loop order name i last <= i + zlen order.
Proof.
  revert i last. induction order as [|s order IH]; intros i last Hl; cbn [index_loop].
  { unfold zlen. cbn. lia. }
  case_decide; [unfold zlen; cbn [length]; lia|].
  pose proof (IH (i + 1) i ltac:(lia)). unfold zlen in *. cbn [length]. lia.
Qed.

Definition onion_size {C} (srv : ConvoService C) : Z :=
  IncomingOnionOverhead (cs_PKI srv) (cs_ServerName srv) + SizeConvoExchange.
Definition reply_size {C} (srv : ConvoService C) : Z :=
  OutgoingOnionOverhead (cs_PKI srv) (cs_ServerName srv) + SizeEncryptedMessage.

Lemma onion_size_min {C} (srv : ConvoService C) : 272 <= onion_size srv /\ 256 <= reply_size srv.
Proof.
  unfold onion_size, reply_size, IncomingOnionOverhead, OutgoingOnionOverhead, Index.
  pose proof (index_loop_bound (pki_ServerOrder (cs_PKI srv)) (cs_ServerName srv) 0 0 ltac:(lia)).
  unfold SizeConvoExchange, SizeEncryptedMessage, SizeMessage, onionbox_Overhead, box_Overhead. nia.
Qed.

(** ** Phases of a round *)

Definition status_at {C} (srv : ConvoService C) (round : Z) : option convoStatus :=
  cr_status <$> cs_rounds srv !! round.

(** The error of [getRound], if any. *)
Definition phase_error {C} (srv : ConvoService C) (round : Z) (expected : convoStatus) : option string :=
  match status_at srv round with
  | None => Some (err_not_found round)
  | Some st => if decide (st = expected) then None else Some (err_status round st expected)
  end.

(** Replacing the two slices [Add] writes. *)
Definition set_slots (ks : list (option BoxKey)) (ms : list (option bytes)) (rd : ConvoRound) : ConvoRound :=
  mkConvoRound (cr_status rd) (cr_numIncoming rd) ks ms (cr_incomingIndex rd) (cr_replies rd)
    (cr_numFakeSingles rd) (cr_numFakeDoubles rd) (cr_noise rd).

(** The record [Open] leaves. *)
Definition opened (n : Z) (rd : ConvoRound) : ConvoRound :=
  mkConvoRound convoRoundOpen n (replicate (Z.to_nat n) None) (replicate (Z.to_nat n) None)
    (cr_incomingIndex rd) (cr_replies rd) (cr_numFakeSingles rd) (cr_numFakeDoubles rd) (cr_noise rd).

Section Handlers.
Context {C R : Type} `{HF : Fuel, HR : Reader R, HB : Box, HK : !KeyGen R, HE : FloatEnv, HC : ConvoRemote C}.
Implicit Types (srv : ConvoService C) (g : R) (rd : ConvoRound).

Definition with_round (round : Z) rd srv : ConvoService C :=
  set_rounds (<[round := rd]> (cs_rounds srv)) srv.

Lemma with_round_lookup round rd srv : cs_rounds (with_round round rd srv) !! round = Some rd.
Proof. apply lookup_insert_eq. Qed.

Lemma with_round_twice round rd rd' srv :
  with_round round rd' (with_round round rd srv) = with_round round rd' srv.
Proof. unfold with_round, set_rounds. cbn. by rewrite insert_insert_eq. Qed.

Lemma getRound_ok round st srv g rd :
  cs_rounds srv !! round = Some rd -> cr_status rd = st ->
  getRound round st (srv, g) = Ret (Ok rd, (srv, g)).
Proof.
  intros Hr Hs. unfold getRound, get_srv, gbind. cbn [fst]. rewrite Hr. by rewrite decide_True.
Qed.

Lemma getRound_err round st srv g e :
  phase_error srv round st = Some e -> getRound round st (srv, g) = Ret (Err e, (srv, g)).
Proof.
  unfold phase_error, status_at, getRound, get_srv, gbind. cbn [fst].
  destruct (cs_rounds srv !! round) as [rd|]; cbn [fmap option_fmap option_map].
  - by case_decide; [|intros [= <-]].
  - by intros [= <-].
Qed.

(** [getRound] either fails and changes nothing or gives the round in the phase. *)
Lemma getRound_cases round st srv g :
  (exists e, phase_error srv round st = Some e) \/
  (exists rd, cs_rounds srv !! round = Some rd /\ cr_status rd = st /\
     phase_error srv round st = None).
Proof.
  unfold phase_error, status_at.
  destruct (cs_rounds srv !! round) as [rd|]; cbn; [case_decide|]; eauto 10.
Qed.

Lemma Open_eq round n srv g rd :
  cs_rounds srv !! round = Some rd -> cr_status rd = convoRoundNew -> 0 <= n ->
  Open (mkConvoOpenArgs round n) (srv, g) = Ret (Ok tt, (with_round round (opened n rd) srv, g)).
Proof.
  intros Hr Hs Hn. unfold Open. cbn [oa_Round oa_NumIncoming].
  rewrite (gbind_eq _ _ _ _ _ (getRound_ok _ _ _ _ _ Hr Hs)). cbn [on_ok].
  unfold go_make. rewrite !decide_True by done. done.
Qed.

(** [Add] in range: the slots [Offset..Offset+len-1] are updated one by one. *)
Lemma Add_eq round Offset onions srv g rd pre1 mid1 post1 pre2 mid2 post2 :
  cs_rounds srv !! round = Some rd -> cr_status rd = convoRoundOpen ->
  0 <= Offset -> Offset + zlen onions <= cr_numIncoming rd -> cr_numIncoming rd < 2 ^ 63 ->
  cr_sharedKeys rd = pre1 ++ mid1 ++ post1 -> cr_incoming rd = pre2 ++ mid2 ++ post2 ->
  zlen pre1 = Offset -> zlen pre2 = Offset ->
  length mid1 = length onions -> length mid2 = length onions ->
  Add (mkConvoAddArgs round Offset onions) (srv, g) =
  Ret (Ok tt, (with_round round (set_slots
    (pre1 ++ ((fun o => Some (slot_key (cs_PrivateKey srv) (onion_size srv) o)) <$> onions) ++ post1)
    (pre2 ++ zip_with (slot_update (cs_PrivateKey srv) (ForwardNonce round) (onion_size srv)) onions mid2 ++ post2)
    rd) srv, g)).
Proof.
  intros Hr Hs Ho Hle Hn Hks Hms Hp1 Hp2 Hm1 Hm2. unfold Add. cbn [aa_Round aa_Offset aa_Onions].
  rewrite (gbind_eq _ _ _ _ _ (getRound_ok _ _ _ _ _ Hr Hs)). cbn [on_ok].
  pose proof (zlen_nonneg onions). pose proof (onion_size_min srv).
  unfold get_srv at 1, gbind at 1. cbn [fst]. rewrite i64_small by lia.
  rewrite decide_False by lia. fold (onion_size srv). rewrite Hks, Hms.
  rewrite add_range by (done || lia). done.
Qed.

(** ** The client side: spans of a batch *)

(** The record after all onions of a batch were added to fresh slots. *)
Definition filled (srv : ConvoService C) (round : Z) (onions : list bytes) (rd : ConvoRound) : ConvoRound :=
  set_slots ((fun o => Some (slot_key (cs_PrivateKey srv) (onion_size srv) o)) <$> onions)
    (slot_msg (cs_PrivateKey srv) (ForwardNonce round) (onion_size srv) <$> onions)
    (opened (zlen onions) rd).

(** The same with only the first [i] onions added. *)
Definition partly_filled (srv : ConvoService C) (round i : Z) (onions : list bytes) (rd : ConvoRound) : ConvoRound :=
  set_slots
    (((fun o => Some (slot_key (cs_PrivateKey srv) (onion_size srv) o)) <$> take (Z.to_nat i) onions)
       ++ replicate (Z.to_nat (zlen onions - i)) None)
    ((slot_msg (cs_PrivateKey srv) (ForwardNonce round) (onion_size srv) <$> take (Z.to_nat i) onions)
       ++ replicate (Z.to_nat (zlen onions - i)) None)
    (opened (zlen onions) rd).

Lemma slot_update_fresh sk nonce size onions :
  zip_with (slot_update sk nonce size) onions (replicate (length onions) None) =
  slot_msg sk nonce size <$> onions.
Proof.
  induction onions as [|o onions IH]; cbn; [done|]. rewrite IH. f_equal.
  unfold slot_update. by destruct (slot_msg sk nonce size o).
Qed.

(** The onions of a span. *)
Definition span_onions (onions : list bytes) (sp : Span) : list bytes :=
  take (Z.to_nat (sp_Count sp)) (drop (Z.to_nat (sp_Start sp)) onions).

Lemma Add_span round i c srv g rd onions :
  0 <= i -> 0 < c -> i + c <= zlen onions -> zlen onions < 2 ^ 63 ->
  Add (mkConvoAddArgs round i (span_onions onions (mkSpan i c)))
    (with_round round (partly_filled srv round i onions rd) srv, g) =
  Ret (Ok tt, (with_round round (partly_filled srv round (i + c) onions rd) srv, g)).
Proof.
  intros Hi Hc Hle Hlt. unfold span_onions. cbn [sp_Start sp_Count].
  set (os := take (Z.to_nat c) (drop (Z.to_nat i) onions)).
  assert (length os = Z.to_nat c) as Hos.
  { unfold os. rewrite length_take, length_drop. unfold zlen in *. lia. }
  set (rest := replicate (A := option bytes) (Z.to_nat (zlen onions - (i + c))) None).
  set (ks := (fun o => Some (slot_key (cs_PrivateKey srv) (onion_size srv) o)) <$> take (Z.to_nat i) onions).
  set (ms := slot_msg (cs_PrivateKey srv) (ForwardNonce round) (onion_size srv) <$> take (Z.to_nat i) onions).
  rewrite (Add_eq round i os _ g (partly_filled srv round i onions rd)
    ks (replicate (length os) None) rest ms (replicate (length os) None) rest (with_round_lookup _ _ _) eq_refl);
    try done.
  - rewrite with_round_twice. rewrite slot_update_fresh.
    repeat f_equal. unfold partly_filled, set_slots. cbn. unfold onion_size. cbn.
    replace (take (Z.to_nat (i + c)) onions) with (take (Z.to_nat i) onions ++ os).
    { by rewrite !fmap_app, <- !app_assoc. }
    unfold os. rewrite take_take_drop. f_equal. lia.
  - cbn. unfold zlen in *. rewrite Hos. lia.
  - cbn. unfold partly_filled, rest. cbn. f_equal. rewrite <- replicate_add. f_equal. lia.
  - cbn. unfold partly_filled, rest. cbn. f_equal. rewrite <- replicate_add. f_equal. lia.
  - unfold ks, zlen in *. rewrite length_fmap, length_take. lia.
  - unfold ms, zlen in *. rewrite length_fmap, length_take. lia.
  - by rewrite length_replicate.
  - by rewrite length_replicate.
Qed.

Lemma covers_elem total i l sp :
  covers total i l -> sp ∈ l -> 0 <= sp_Start sp /\ 0 < sp_Count sp /\ sp_Start sp + sp_Count sp <= total.
Proof.
  induction 1 as [|i c l Hi Hc Hle _ IH]; [by intros ?%elem_of_nil|].
  intros [->|Hin]%elem_of_cons; [done|auto].
Qed.

Lemma Add_spans round i spans srv g rd onions :
  zlen onions < 2 ^ 63 -> 0 <= i -> covers (zlen onions) i spans ->
  CallMany Add ((fun sp => mkConvoAddArgs round (sp_Start sp) (span_onions onions sp)) <$> spans)
    (with_round round (partly_filled srv round i onions rd) srv, g) =
  Ret (Ok (replicate (length spans) tt), (with_round round (filled srv round onions rd) srv, g)).
Proof.
  intros Hlt Hi Hc. revert Hi. induction Hc as [|i c l Hi0 Hc Hle _ IH]; intros Hi; cbn [fmap list_fmap CallMany].
  - unfold gret. do 4 f_equal. unfold partly_filled, filled. unfold zlen.
    rewrite Nat2Z.id, firstn_all, Z.sub_diag. by rewrite !app_nil_r.
  - rewrite (gbind_eq _ _ _ _ _ (Add_span _ _ _ _ _ _ _ Hi Hc Hle Hlt)). cbn [on_ok].
    rewrite (gbind_eq _ _ _ _ _ (IH ltac:(lia))). done.
Qed.

(** [get_onion] draws random bytes and touches nothing else. *)
Lemma get_onion_srv rd nonce size i srv g o s' :
  get_onion rd nonce size i (srv, g) = Ret (o, s') -> s'.1 = srv.
Proof.
  unfold get_onion, on_rand. intros H. apply gbind_ret in H as (v & s1 & [_ ->]%glift_ret & H).
  apply gbind_ret in H as (onion & s2 & H1 & H).
  assert (s2 = (srv, g)) as ->.
  { clear H. case_decide; [|by apply gret_ret in H1 as [_ ->]].
    apply gbind_ret in H1 as (rep & s3 & [_ ->]%glift_ret & H1).
    apply gbind_ret in H1 as (k & s4 & [_ ->]%glift_ret & H1).
    destruct k; [by apply gret_ret in H1 as [_ ->]|done]. }
  clear H1. case_decide; [by apply gret_ret in H as [_ ->]|]. by apply gzoom_ret in H as (t & _ & ->).
Qed.

Lemma get_onions_srv rd nonce size l srv g os s' :
  go_map (get_onion rd nonce size) l (srv, g) = Ret (os, s') -> s'.1 = srv.
Proof.
  apply (go_map_keeps (fun s s' => s'.1 = s.1)); [done|congruence|].
  intros i [srv1 g1] o s1 H. by apply get_onion_srv in H.
Qed.

(** [Get] on a closed round is a segment of one loop over all slots. *)
Lemma Get_eq round Offset Count srv g rd onions s' :
  cs_rounds srv !! round = Some rd -> cr_status rd = convoRoundClosed ->
  0 <= Offset -> 0 <= Count -> Offset + Count < 2 ^ 63 ->
  go_map (get_onion rd (BackwardNonce round) (reply_size srv)) (seqZ Offset Count) (srv, g) = Ret (onions, s') ->
  Get (mkConvoGetArgs round Offset Count) (srv, g) = Ret (Ok onions, s').
Proof.
  intros Hr Hs Ho Hc Hlt Hm. unfold Get. cbn [ga_Round ga_Offset ga_Count].
  rewrite (gbind_eq _ _ _ _ _ (getRound_ok _ _ _ _ _ Hr Hs)). cbn [on_ok].
  unfold get_srv at 1, gbind at 1. cbn [fst]. unfold go_make. rewrite decide_True by done.
  unfold glift at 1, gbind at 1. fold (reply_size srv).
  assert (zlen (replicate (A := bytes) (Z.to_nat Count) []) = Count) as ->.
  { unfold zlen. rewrite length_replicate. lia. }
  rewrite (gbind_eq _ _ _ onions s'); [done|]. rewrite <- Hm.
  replace (seqZ Offset Count) with ((fun k => Offset + k) <$> seqZ 0 Count).
  - rewrite go_map_fmap. apply go_map_ext. intros k Hk%elem_of_seqZ. by rewrite i64_small by lia.
  - rewrite fmap_add_seqZ. by rewrite Z.add_0_r.
Qed.

Lemma copy_span_eq (pre mid post onions : list bytes) (i c : Z) :
  zlen pre = i -> zlen mid = c -> length onions = length mid -> i + c < 2 ^ 63 ->
  copy_span (mkSpan i c) onions (pre ++ mid ++ post) = Ret (pre ++ onions ++ post).
Proof.
  intros <- <- Hl Hlt. unfold copy_span. cbn [sp_Start sp_Count].
  pose proof (zlen_nonneg pre). pose proof (zlen_nonneg mid). rewrite i64_small by lia.
  unfold go_slice. rewrite decide_True by (rewrite !zlen_app; pose proof (zlen_nonneg post); lia).
  cbn [mbind outcome_bind]. unfold zlen in *.
  replace (Z.to_nat (Z.of_nat (length pre) + Z.of_nat (length mid) - Z.of_nat (length pre)))
    with (length mid) by lia.
  replace (Z.to_nat (Z.of_nat (length pre) + Z.of_nat (length mid))) with (length pre + length mid)%nat by lia.
  rewrite Nat2Z.id, drop_app_length, take_app_length, take_app_length.
  rewrite go_copy_full by done. do 3 f_equal. by rewrite app_assoc, <- length_app, drop_app_length.
Qed.

(** All [Get]s of a batch, reassembled. *)
Lemma Get_spans round total i spans srv g rd onions s' pre :
  cs_rounds srv !! round = Some rd -> cr_status rd = convoRoundClosed ->
  total < 2 ^ 63 -> 0 <= i -> covers total i spans -> zlen pre = i ->
  go_map (get_onion rd (BackwardNonce round) (reply_size srv)) (seqZ i (total - i)) (srv, g) = Ret (onions, s') ->
  exists results,
    CallMany Get ((fun sp => mkConvoGetArgs round (sp_Start sp) (sp_Count sp)) <$> spans) (srv, g)
      = Ret (Ok results, s') /\
    go_for (fun '(sp, res) rs => copy_span sp res rs) (zip spans results)
      (pre ++ replicate (Z.to_nat (total - i)) []) = Ret (pre ++ onions).
Proof.
  intros Hr Hs Hlt Hi Hc. revert Hi g onions pre.
  induction Hc as [|i c l Hi0 Hc Hle Hcov IH]; intros Hi g onions pre Hp Hm; cbn [fmap list_fmap CallMany].
  { rewrite Z.sub_diag in *. injection Hm as <- <-. by exists []. }
  replace (total - i) with (c + (total - (i + c))) in Hm by lia. rewrite seqZ_app in Hm by lia.
  apply go_map_app_ret in Hm as (os1 & [srv1 g1] & os2 & H1 & H2 & ->).
  pose proof (get_onions_srv _ _ _ _ _ _ _ _ H1) as Hsrv. cbn in Hsrv. subst srv1.
  pose proof (go_map_length _ _ _ _ _ H1) as Hl1. rewrite length_seqZ in Hl1.
  destruct (IH ltac:(lia) g1 os2 (pre ++ os1)) as (results & Hcall & Hfor).
  { rewrite zlen_app. unfold zlen in *. lia. }
  { exact H2. }
  exists (os1 :: results). split.
  - rewrite (gbind_eq _ _ _ _ _ (Get_eq _ _ _ _ _ _ _ _ Hr Hs Hi (Z.lt_le_incl _ _ Hc) ltac:(cbn; lia) H1)).
    cbn [on_ok]. rewrite (gbind_eq _ _ _ _ _ Hcall). done.
  - cbn [zip_with go_for]. replace (Z.to_nat (total - i)) with (Z.to_nat c + Z.to_nat (total - (i + c)))%nat by lia.
    rewrite replicate_add. rewrite copy_span_eq by
      (try done; unfold zlen; rewrite ?length_replicate; lia).
    cbn [mbind outcome_bind]. rewrite (app_assoc pre), Hfor. by rewrite <- app_assoc.
Qed.

(** ** One whole round of a service, as its client drives it *)

Definition delete_round (round : Z) (srv : ConvoService C) : ConvoService C :=
  set_rounds (delete round (cs_rounds srv)) srv.

(** [RunConvoRound] up to [Close]. *)
Lemma RunConvoRound_to_Close round onions srv g rd :
  cs_rounds srv !! round = Some rd -> cr_status rd = convoRoundNew -> zlen onions + 4000 < 2 ^ 63 ->
  exists spans, covers (zlen onions) 0 spans /\
  RunConvoRound round onions (srv, g) =
  (let! err := Close round in
   on_ok err (fun e => "Close: " +:+ e) (fun _ =>
   let! err := CallMany Get ((fun span => mkConvoGetArgs round (sp_Start span) (sp_Count span)) <$> spans) in
   on_ok err (fun e => "Get: " +:+ e) (fun results =>
   let! replies := glift (go_for (fun '(span, res) rs => copy_span span res rs) (zip spans results)
                            (replicate (length onions) [])) in
   let! err := Delete round in
   on_ok err (fun e => "Delete: " +:+ e) (fun _ =>
   gret (Ok replies)))))%go (with_round round (filled srv round onions rd) srv, g).
Proof.
  intros Hr Hs Hlt. pose proof (zlen_nonneg onions) as Hz.
  destruct (Spans_covers (zlen onions) 4000) as (spans & Hsp & Hcov); [lia..|].
  exists spans. split; [done|]. unfold RunConvoRound. cbn [rpc_Open rpc_Add rpc_Close rpc_Get rpc_Delete ConvoService_remote].
  rewrite (gbind_eq _ _ _ _ _ (Open_eq _ _ _ _ _ Hr Hs Hz)). cbn [on_ok].
  rewrite Hsp. unfold glift at 1, gbind at 1.
  rewrite (gbind_eq _ _ _
    ((fun sp => mkConvoAddArgs round (sp_Start sp) (span_onions onions sp)) <$> spans)
    (with_round round (opened (zlen onions) rd) srv, g)).
  2: { apply go_map_pure. intros sp Hin. unfold span_onions.
       destruct (covers_elem _ _ _ _ Hcov Hin) as (H1 & H2 & H3).
       rewrite i64_small by lia. unfold go_slice. rewrite decide_True by lia.
       unfold glift, gbind, gret.
       by replace (sp_Start sp + sp_Count sp - sp_Start sp) with (sp_Count sp) by lia. }
  assert (opened (zlen onions) rd = partly_filled srv round 0 onions rd) as ->.
  { unfold partly_filled, set_slots, opened. cbn. by rewrite Z.sub_0_r. }
  rewrite (gbind_eq _ _ _ _ _ (Add_spans round 0 spans srv g rd onions ltac:(lia) ltac:(lia) Hcov)).
  done.
Qed.

(** A round whose [Close] succeeds and whose [Get] loop returns. *)
Lemma RunConvoRound_eq round onions srv g rd srv2 g2 rd2 replies g3 :
  cs_rounds srv !! round = Some rd -> cr_status rd = convoRoundNew -> zlen onions + 4000 < 2 ^ 63 ->
  Close round (with_round round (filled srv round onions rd) srv, g) = Ret (Ok tt, (srv2, g2)) ->
  cs_rounds srv2 !! round = Some rd2 -> cr_status rd2 = convoRoundClosed ->
  go_map (get_onion rd2 (BackwardNonce round) (reply_size srv2)) (seqZ 0 (zlen onions)) (srv2, g2) =
    Ret (replies, (srv2, g3)) ->
  RunConvoRound round onions (srv, g) = Ret (Ok replies, (delete_round round srv2, g3)).
Proof.
  intros Hr Hs Hlt Hclose Hr2 Hs2 Hget.
  destruct (RunConvoRound_to_Close round onions srv g rd Hr Hs Hlt) as (spans & Hcov & ->).
  rewrite (gbind_eq _ _ _ _ _ Hclose). cbn [on_ok].
  destruct (Get_spans round (zlen onions) 0 spans srv2 g2 rd2 replies (srv2, g3) [] Hr2 Hs2)
    as (results & Hcall & Hfor); [lia|lia|done|done|by rewrite Z.sub_0_r|].
  rewrite (gbind_eq _ _ _ _ _ Hcall). cbn [on_ok]. cbn [app] in Hfor.
  rewrite Z.sub_0_r in Hfor. unfold zlen in Hfor at 1. rewrite Nat2Z.id in Hfor. rewrite Hfor. done.
Qed.

(** A [Close] that does not return makes [RunConvoRound] not return alike. *)
Lemma RunConvoRound_panic round onions srv g rd p :
  cs_rounds srv !! round = Some rd -> cr_status rd = convoRoundNew -> zlen onions + 4000 < 2 ^ 63 ->
  Close round (with_round round (filled srv round onions rd) srv, g) = Panic p ->
  RunConvoRound round onions (srv, g) = Panic p.
Proof.
  intros Hr Hs Hlt Hclose.
  destruct (RunConvoRound_to_Close round onions srv g rd Hr Hs Hlt) as (spans & Hcov & ->).
  unfold gbind at 1. by rewrite Hclose.
Qed.

End Handlers.

(** ** Histories of calls *)

Inductive convo_op :=
| OpNewRound (Round : Z)
| OpOpen (args : ConvoOpenArgs)
| OpAdd (args : ConvoAddArgs)
| OpClose (Round : Z)
| OpGet (args : ConvoGetArgs)
| OpDelete (Round : Z).

Definition op_round (op : convo_op) : Z :=
  match op with
  | OpNewRound r | OpClose r | OpDelete r => r
  | OpOpen a => oa_Round a
  | OpAdd a => aa_Round a
  | OpGet a => ga_Round a
  end.

(** The phase a call needs (for [NewRound]: that the round does not exist) and
    the phase it leaves, when it succeeds. *)
Definition op_before (op : convo_op) : option (option convoStatus) :=
  match op with
  | OpNewRound _ => Some None
  | OpOpen _ => Some (Some convoRoundNew)
  | OpAdd _ | OpClose _ => Some (Some convoRoundOpen)
  | OpGet _ => Some (Some convoRoundClosed)
  | OpDelete _ => None
  end.
Definition op_after (op : convo_op) : option convoStatus :=
  match op with
  | OpNewRound _ => Some convoRoundNew
  | OpOpen _ | OpAdd _ => Some convoRoundOpen
  | OpClose _ | OpGet _ => Some convoRoundClosed
  | OpDelete _ => None
  end.

(** The configuration of a server, which no call changes. *)
Definition config {C} (srv : ConvoService C) :=
  (cs_LaplaceMu srv, cs_LaplaceB srv, cs_PKI srv, cs_ServerName srv, cs_PrivateKey srv, cs_LastServer srv).

Section Histories.
Context {C R : Type} `{HF : Fuel, HR : Reader R, HB : Box, HK : !KeyGen R, HE : FloatEnv, HC : ConvoRemote C}.
Implicit Types (srv : ConvoService C) (g : R) (rd : ConvoRound).

Definition forget {A} (m : GoM (cstate C R) (result A)) (out : A -> list bytes) : GoM (cstate C R) (result (list bytes)) :=
  (let! r := m in on_ok r (fun e => e) (fun a => gret (Ok (out a))))%go.

(** A call as the RPC server runs it. *)
Definition serve (op : convo_op) : GoM (cstate C R) (result (list bytes)) :=
  match op with
  | OpNewRound r => forget (NewRound r) (fun _ => [])
  | OpOpen a => forget (Open a) (fun _ => [])
  | OpAdd a => forget (Add a) (fun _ => [])
  | OpClose r => forget (Close r) (fun _ => [])
  | OpGet a => Get a
  | OpDelete r => forget (Delete r) (fun _ => [])
  end.

Lemma forget_ret {A} (m : GoM (cstate C R) (result A)) out s res s' :
  forget m out s = Ret (res, s') <->
  (exists a, m s = Ret (Ok a, s') /\ res = Ok (out a)) \/ (exists e, m s = Ret (Err e, s') /\ res = Err e).
Proof.
  unfold forget. rewrite gbind_ret. split.
  - intros ([a|e] & s1 & Hm & [-> ->]%gret_ret); eauto.
  - intros [(a & Hm & ->)|(e & Hm & ->)]; eauto.
Qed.

(** The states of the server differ at most in one round, the lock, the channel
    of counters, and what the next server and the random source did. *)
Definition same_but (round : Z) (s s' : cstate C R) : Prop :=
  config s'.1 = config s.1 /\
  forall r, r <> round -> cs_rounds s'.1 !! r = cs_rounds s.1 !! r.

#[global] Instance same_but_preorder round : PreOrder (same_but round).
Proof.
  split; [done|]. intros s1 s2 s3 [H1 H2] [H3 H4]. split; [congruence|].
  intros r Hr. by rewrite H4, H2.
Qed.

Lemma put_round_same round rd s u s' :
  put_round round rd s = Ret (u, s') -> same_but round s s'.
Proof. intros [= _ <-]. split; [done|]. intros r Hr. cbn. by rewrite lookup_insert_ne by done. Qed.

Lemma getRound_ret round st srv g res s' :
  getRound round st (srv, g) = Ret (res, s') ->
  s' = (srv, g) /\
  ((exists rd, res = Ok rd /\ cs_rounds srv !! round = Some rd /\ cr_status rd = st /\
      phase_error srv round st = None) \/
   (exists e, res = Err e /\ phase_error srv round st = Some e)).
Proof.
  intros H. destruct (getRound_cases (R := R) round st srv g) as [[e He]|(rd & Hr & Hs & Hp)].
  - rewrite (getRound_err _ _ _ _ _ He) in H. injection H as <- <-. eauto.
  - rewrite (getRound_ok _ _ _ _ _ Hr Hs) in H. injection H as <- <-. eauto 10.
Qed.

(** *** What a call that returns has done *)

Lemma on_rand_ret {A} (m : GoM R A) srv g a (s' : cstate C R) :
  on_rand m (srv, g) = Ret (a, s') <-> exists g', m g = Ret (a, g') /\ s' = (srv, g').
Proof. unfold on_rand. rewrite gzoom_ret. done. Qed.

Lemma on_client_ret {A} (m : GoM C A) srv g a (s' : cstate C R) :
  on_client m (srv, g) = Ret (a, s') <-> exists c, m (cs_Client srv) = Ret (a, c) /\ s' = (set_Client c srv, g).
Proof. unfold on_client. rewrite gzoom_ret. done. Qed.

(** The fields a new round starts with, apart from its noise. *)
Definition fresh_round rd : Prop :=
  cr_status rd = convoRoundNew /\ cr_numIncoming rd = 0 /\ cr_sharedKeys rd = [] /\ cr_incoming rd = [] /\
  cr_incomingIndex rd = [] /\ cr_replies rd = [].

Lemma new_noise_ret round srv0 srv g rd s' :
  new_noise round srv0 (srv, g) = Ret (rd, s') -> s'.1 = srv /\ fresh_round rd.
Proof.
  unfold new_noise. intros H.
  apply gbind_ret in H as (n1 & s1 & (g1 & _ & ->)%on_rand_ret & H).
  apply gbind_ret in H as (n2 & s2 & (g2 & _ & ->)%on_rand_ret & H).
  apply gbind_ret in H as (noise & s3 & [_ ->]%glift_ret & H).
  apply gbind_ret in H as (keys & s4 & [_ ->]%glift_ret & H).
  apply gbind_ret in H as (d1 & s5 & [_ ->]%glift_ret & H).
  apply gbind_ret in H as (d2 & s6 & [_ ->]%glift_ret & H).
  apply gbind_ret in H as (si & s7 & (g3 & _ & ->)%on_rand_ret & H).
  apply gbind_ret in H as (db & s8 & (g4 & _ & ->)%on_rand_ret & H).
  apply gret_ret in H as [-> ->]. done.
Qed.

Lemma NewRound_ret round srv g res s' :
  NewRound round (srv, g) = Ret (res, s') ->
  cs_Idle srv = false /\
  ((exists rd, cs_rounds srv !! round = Some rd /\ res = Err (err_exists round) /\ s' = (set_Idle true srv, g)) \/
   (cs_rounds srv !! round = None /\ res = Ok tt /\ exists rd g',
      fresh_round rd /\ s' = (with_round round rd (set_Idle true srv), g'))).
Proof.
  unfold NewRound, Idle_Lock. intros H. apply gbind_ret in H as (u & s1 & Hl & H). cbn [fst snd] in Hl.
  destruct (cs_Idle srv); [done|]. injection Hl as _ <-. split; [done|].
  unfold get_srv at 1, gbind at 1 in H. cbn [fst cs_rounds set_Idle] in H.
  destruct (cs_rounds srv !! round) as [rd|] eqn:Hr.
  { apply gret_ret in H as [-> ->]. left. eauto. }
  right. split; [done|]. apply gbind_ret in H as (rd & [srv2 g2] & Hrd & H).
  assert (srv2 = set_Idle true srv /\ fresh_round rd) as [-> Hf].
  { destruct (cs_LastServer _); [|by apply new_noise_ret in Hrd].
    by apply gret_ret in Hrd as [-> [= -> ->]]. }
  apply gbind_ret in H as (u' & s3 & [= _ <-] & H). apply gret_ret in H as [-> ->]. eauto.
Qed.

Lemma Open_ret args srv g res s' :
  Open args (srv, g) = Ret (res, s') ->
  (exists e, phase_error srv (oa_Round args) convoRoundNew = Some e /\ res = Err e /\ s' = (srv, g)) \/
  (exists rd, cs_rounds srv !! oa_Round args = Some rd /\ cr_status rd = convoRoundNew /\
     0 <= oa_NumIncoming args /\ res = Ok tt /\
     s' = (with_round (oa_Round args) (opened (oa_NumIncoming args) rd) srv, g)).
Proof.
  unfold Open. intros H. apply gbind_ret in H as (r & s1 & Hg & H).
  apply getRound_ret in Hg as [-> [(rd & -> & Hr & Hs & _)|(e & -> & He)]]; cbn [on_ok] in H.
  - right. exists rd. apply gbind_ret in H as (ks & s2 & [Hk ->]%glift_ret & H).
    apply gbind_ret in H as (ms & s3 & [Hm ->]%glift_ret & H).
    apply go_make_ret in Hk as [Hn ->]. apply go_make_ret in Hm as [_ ->].
    apply gbind_ret in H as (u & s4 & [= _ <-] & H). by apply gret_ret in H as [-> ->].
  - left. apply gret_ret in H as [-> ->]. eauto.
Qed.

Lemma Add_ret args srv g res s' :
  Add args (srv, g) = Ret (res, s') ->
  (exists e, phase_error srv (aa_Round args) convoRoundOpen = Some e /\ res = Err e /\ s' = (srv, g)) \/
  (exists rd, cs_rounds srv !! aa_Round args = Some rd /\ cr_status rd = convoRoundOpen /\
    ((cr_numIncoming rd < i64 (aa_Offset args + zlen (aa_Onions args)) /\ s' = (srv, g) /\
      res = Err (err_overflow (aa_Offset args) (zlen (aa_Onions args)) (cr_numIncoming rd))) \/
     (exists sl, go_for (add_onion (cs_PrivateKey srv) (ForwardNonce (aa_Round args)) (onion_size srv) (aa_Offset args))
          (zip (seqZ 0 (zlen (aa_Onions args))) (aa_Onions args)) (cr_sharedKeys rd, cr_incoming rd) = Ret sl /\
        res = Ok tt /\ s' = (with_round (aa_Round args) (set_slots sl.1 sl.2 rd) srv, g)))).
Proof.
  unfold Add. intros H. apply gbind_ret in H as (r & s1 & Hg & H).
  apply getRound_ret in Hg as [-> [(rd & -> & Hr & Hs & _)|(e & -> & He)]]; cbn [on_ok] in H.
  - right. exists rd. split; [done|]. split; [done|].
    unfold get_srv at 1, gbind at 1 in H. cbn [fst] in H. case_decide as Hov.
    { apply gret_ret in H as [-> ->]. by left. }
    right. apply gbind_ret in H as (sl & s2 & [Hf ->]%glift_ret & H). exists sl. split; [exact Hf|].
    apply gbind_ret in H as (u & s4 & [= _ <-] & H). by apply gret_ret in H as [-> ->].
  - left. apply gret_ret in H as [-> ->]. eauto.
Qed.

Lemma Get_ret args srv g res s' :
  Get args (srv, g) = Ret (res, s') ->
  s'.1 = srv /\
  ((exists e, phase_error srv (ga_Round args) convoRoundClosed = Some e /\ res = Err e) \/
   (exists onions, status_at srv (ga_Round args) = Some convoRoundClosed /\ res = Ok onions)).
Proof.
  unfold Get. intros H. apply gbind_ret in H as (r & s1 & Hg & H).
  apply getRound_ret in Hg as [-> [(rd & -> & Hr & Hs & _)|(e & -> & He)]]; cbn [on_ok] in H.
  - unfold get_srv at 1, gbind at 1 in H. cbn [fst] in H.
    apply gbind_ret in H as (os & s2 & [_ ->]%glift_ret & H).
    apply gbind_ret in H as (os' & s3 & Hm & [-> ->]%gret_ret). split.
    + eapply (go_map_keeps (fun s s' => s'.1 = s.1)) in Hm; [done|done|congruence|].
      intros i [srv1 g1] o s1 Ho. by apply get_onion_srv in Ho.
    + right. eexists. split; [|done]. unfold status_at. rewrite Hr. cbn. by rewrite Hs.
  - apply gret_ret in H as [-> ->]. eauto.
Qed.

Lemma copy_span_length sp onions (rs rs' : list bytes) :
  copy_span sp onions rs = Ret rs' -> length rs' = length rs.
Proof.
  unfold copy_span. intros (dst & [Hb ->]%go_slice_ret & [= <-])%obind_ret.
  rewrite !length_app, go_copy_length, length_take, length_drop, length_take, length_drop.
  unfold zlen in Hb. lia.
Qed.

Lemma copy_spans_length sps (rs rs' : list bytes) :
  go_for (fun '(sp, res) rs => copy_span sp res rs) sps rs = Ret rs' -> length rs' = length rs.
Proof.
  revert rs. induction sps as [|[sp res] sps IH]; intros rs; cbn; [by intros [= <-]|].
  intros (rs1 & H1 & H)%obind_ret. apply copy_span_length in H1. apply IH in H. congruence.
Qed.

(** The client side returns one reply per onion, whatever the server does. *)
Lemma RunConvoRound_length round onions (c : C) replies c' :
  RunConvoRound round onions c = Ret (Ok replies, c') -> length replies = length onions.
Proof.
  assert (forall A B (r : result A) w (k : A -> GoM C (result B)) s b s',
    on_ok r w k s = Ret (Ok b, s') -> exists a, r = Ok a /\ k a s = Ret (Ok b, s')) as Hok.
  { intros A B [a|e] w k s b s' H; cbn in H; [eauto|done]. }
  unfold RunConvoRound. intros H.
  apply gbind_ret in H as (? & ? & _ & (? & _ & H)%Hok).
  apply gbind_ret in H as (spans & ? & _ & H). apply gbind_ret in H as (? & ? & _ & H).
  apply gbind_ret in H as (? & ? & _ & (? & _ & H)%Hok).
  apply gbind_ret in H as (? & ? & _ & (? & _ & H)%Hok).
  apply gbind_ret in H as (? & ? & _ & (results & _ & H)%Hok).
  apply gbind_ret in H as (rs & ? & [Hf _]%glift_ret & H).
  apply gbind_ret in H as (? & ? & _ & (? & _ & H)%Hok). apply gret_ret in H as [[= ->] _].
  apply copy_spans_length in Hf. by rewrite length_replicate in Hf.
Qed.

Lemma go_for_keeps {A S} (I : S -> S -> Prop) (body : A -> S -> outcome S) l s s' :
  (forall s, I s s) -> (forall s1 s2 s3, I s1 s2 -> I s2 s3 -> I s1 s3) ->
  (forall x s s', x ∈ l -> body x s = Ret s' -> I s s') -> go_for body l s = Ret s' -> I s s'.
Proof.
  intros Hr Ht. revert s. induction l as [|x l IH]; intros s Hb; cbn; [by intros [= <-]|].
  intros (s1 & H1 & H2)%obind_ret. eapply Ht; [by apply (Hb x); [set_solver|]|].
  apply IH; [set_solver|done].
Qed.

Lemma swap_length {A} (x y : list A) i j : swap x i j = Ret y -> length y = length x.
Proof.
  unfold swap. intros (xj & _ & H)%obind_ret. apply obind_ret in H as (xi & _ & H).
  apply obind_ret in H as (x' & [_ ->]%go_store_ret & [_ ->]%go_store_ret). by rewrite !length_insert.
Qed.

Lemma Unshuffle_length {A} sh (x y : list A) : Unshuffle sh x = Ret y -> length y = length x.
Proof.
  apply (go_for_keeps (fun x y : list A => length y = length x)); [done|congruence|].
  intros i x1 x2 _ (j & _ & H)%obind_ret. by apply swap_length in H.
Qed.

(** What [Close] keeps of the round it filters. *)
Definition same_slots rd rd' : Prop :=
  cr_numIncoming rd' = cr_numIncoming rd /\ cr_sharedKeys rd' = cr_sharedKeys rd /\
  cr_incomingIndex rd' = cr_incomingIndex rd.

Lemma alias_incoming_same rd outgoing :
  same_slots rd (alias_incoming rd outgoing) /\ cr_status (alias_incoming rd outgoing) = cr_status rd.
Proof. unfold alias_incoming. by case_decide. Qed.

Lemma close_forward_ret round rd srv g res s' :
  cs_rounds srv !! round = Some rd ->
  close_forward round rd (srv, g) = Ret (res, s') ->
  same_but round (srv, g) s' /\
  ((exists e, res = Err e /\ status_at s'.1 round = Some (cr_status rd)) \/
   (exists rd', res = Ok tt /\ cs_Idle srv = true /\ cs_Idle s'.1 = false /\
      cs_rounds s'.1 !! round = Some rd' /\ same_slots rd rd' /\ cr_status rd' = convoRoundClosed /\
      zlen (cr_replies rd') = cr_numIncoming rd)).
Proof.
  intros Hr. unfold close_forward. intros H.
  apply gbind_ret in H as (sh & s1 & (g1 & _ & ->)%on_rand_ret & H).
  apply gbind_ret in H as (out & s2 & [_ ->]%glift_ret & H).
  set (rd1 := alias_incoming _ out) in H.
  assert (same_slots rd rd1 /\ cr_status rd1 = cr_status rd) as [Hs1 Hst].
  { destruct (alias_incoming_same (closed_round rd [] (cr_replies rd) (cr_status rd)) out). done. }
  clearbody rd1. apply gbind_ret in H as (u & s3 & Hp & H).
  pose proof (put_round_same _ _ _ _ _ Hp) as Hsame. injection Hp as _ <-.
  apply gbind_ret in H as (err & s4 & (c1 & _ & ->)%on_client_ret & H). cbn [fst snd] in *.
  fold (with_round round rd1 srv) in *. apply on_ok_ret in H as [(v & -> & H)|(e & -> & -> & ->)].
  2: { split; [done|]. left. eexists. split; [done|]. unfold status_at. cbn. rewrite lookup_insert_eq. cbn. by rewrite Hst. }
  unfold Idle_Unlock in H. apply gbind_ret in H as (u' & s5 & Hu & H). cbn in Hu.
  destruct (cs_Idle srv) eqn:Hidle; [|done]. injection Hu as _ <-.
  apply gbind_ret in H as (err & s6 & (c2 & Hrun & ->)%on_client_ret & H). cbn [fst snd] in *.
  apply on_ok_ret in H as [(replies & -> & H)|(e & -> & -> & ->)].
  2: { split; [done|]. left. eexists. split; [done|]. unfold status_at. cbn. rewrite lookup_insert_eq. cbn. by rewrite Hst. }
  apply gbind_ret in H as (rs & s7 & [Hus ->]%glift_ret & H).
  apply gbind_ret in H as (rs' & s8 & [[Hb ->]%go_slice_ret ->]%glift_ret & H).
  apply gbind_ret in H as (u'' & s9 & [= _ <-] & [-> ->]%gret_ret). split.
  { destruct Hsame as [Hc Hsame]. split; [done|]. intros r Hne. cbn. rewrite lookup_insert_ne by done.
    by apply Hsame. }
  right. eexists. split; [done|]. split; [done|]. split; [done|].
  split; [apply lookup_insert_eq|]. split; [exact Hs1|]. split; [done|]. cbn.
  destruct Hs1 as (Hn & _ & _). rewrite Hn in *. unfold zlen in *. rewrite length_take, length_drop. lia.
Qed.

Lemma send_AccessCount_same ac srv :
  config (send_AccessCount ac srv) = config srv /\ cs_rounds (send_AccessCount ac srv) = cs_rounds srv /\
  cs_Idle (send_AccessCount ac srv) = cs_Idle srv.
Proof. unfold send_AccessCount. by case_decide. Qed.

Lemma close_last_ret round rd srv g res s' :
  close_last round rd (srv, g) = Ret (res, s') ->
  same_but round (srv, g) s' /\ res = Ok tt /\ cs_Idle srv = true /\ cs_Idle s'.1 = false /\
  exists rd', cs_rounds s'.1 !! round = Some rd' /\ same_slots rd rd' /\ cr_status rd' = convoRoundClosed /\
    zlen (cr_replies rd') = zlen (cr_incoming rd).
Proof.
  unfold close_last, Idle_Unlock. intros H.
  destruct (exchange_all_spec ((fun m => default [] m) <$> cr_incoming rd)) as (rs & ac & He & Hl & _).
  rewrite He in H. apply gbind_ret in H as (p & s1 & [[= <-] ->]%glift_ret & H).
  apply gbind_ret in H as (u & s2 & Hu & H). cbn [fst snd] in Hu.
  destruct (cs_Idle srv); [|done]. injection Hu as _ <-.
  apply gbind_ret in H as (? & s3 & [= _ <-] & H). apply gbind_ret in H as (? & s4 & [= _ <-] & [-> ->]%gret_ret).
  cbn [fst snd]. destruct (send_AccessCount_same ac (set_Idle false srv)) as (Hc & Hr & Hi).
  split; [split; [done|]|].
  { intros r Hne. cbn. rewrite lookup_insert_ne by done. by rewrite Hr. }
  split_and!; [done|done|done|]. eexists. split; [apply lookup_insert_eq|]. split_and!; try done.
  unfold zlen. cbn. by rewrite Hl, length_fmap.
Qed.

Lemma filterIncoming_ret rd rd1 :
  filterIncoming rd = Ret rd1 ->
  exists valid idx, filter_loop (cr_incoming rd) ∅ 0 = Ret (valid, idx) /\
    rd1 = mkConvoRound (cr_status rd) (cr_numIncoming rd) (cr_sharedKeys rd) (Some <$> valid) idx
            (cr_replies rd) (cr_numFakeSingles rd) (cr_numFakeDoubles rd) (cr_noise rd).
Proof. unfold filterIncoming. intros ([valid idx] & H & [= <-])%obind_ret. eauto. Qed.

Lemma Close_ret round srv g res s' :
  Close round (srv, g) = Ret (res, s') ->
  (exists e, phase_error srv round convoRoundOpen = Some e /\ res = Err e /\ s' = (srv, g)) \/
  (exists rd rd1, cs_rounds srv !! round = Some rd /\ cr_status rd = convoRoundOpen /\
    filterIncoming rd = Ret rd1 /\ same_but round (srv, g) s' /\
    ((exists e, res = Err e /\ status_at s'.1 round = Some convoRoundOpen) \/
     (exists rd', res = Ok tt /\ cs_Idle srv = true /\ cs_Idle s'.1 = false /\
        cs_rounds s'.1 !! round = Some rd' /\ same_slots rd1 rd' /\ cr_status rd' = convoRoundClosed /\
        (zlen (cr_replies rd') = cr_numIncoming rd1 \/ zlen (cr_replies rd') = zlen (cr_incoming rd1))))).
Proof.
  unfold Close. intros H. apply gbind_ret in H as (r & s1 & Hg & H).
  apply getRound_ret in Hg as [-> [(rd & -> & Hr & Hs & _)|(e & -> & He)]]; cbn [on_ok] in H.
  2: { left. apply gret_ret in H as [-> ->]. eauto. }
  right. apply gbind_ret in H as (rd1 & s2 & [Hf ->]%glift_ret & H). exists rd, rd1.
  assert (cr_status rd1 = convoRoundOpen) as Hs1.
  { apply filterIncoming_ret in Hf as (v & i & _ & ->). done. }
  do 3 (split; [done|]). apply gbind_ret in H as (u & s3 & Hp & H).
  pose proof (put_round_same _ _ _ _ _ Hp) as Hsame. injection Hp as _ <-. cbn [fst snd] in *.
  fold (with_round round rd1 srv) in *. unfold get_srv at 1, gbind at 1 in H. cbn [fst] in H.
  destruct (cs_LastServer _).
  - apply close_last_ret in H as (Hsame' & -> & Hi & Hi' & rd' & Hl & Hss & Hst & Hz).
    split; [by etrans|]. right. exists rd'. split_and!; try done; [apply Hss..|by right].
  - apply close_forward_ret in H as (Hsame' & H); [|apply with_round_lookup]. split; [by etrans|].
    destruct H as [(e & -> & Hst)|(rd' & -> & Hi & Hi' & Hl & Hss & Hst & Hz)].
    + left. exists e. by rewrite Hs1 in Hst.
    + right. exists rd'. split_and!; try done; [apply Hss..|by left].
Qed.

(** ** The life cycle of a round *)

Lemma status_of srv round rd : cs_rounds srv !! round = Some rd -> status_at srv round = Some (cr_status rd).
Proof. unfold status_at. by intros ->. Qed.

Lemma phase_error_none srv round st : phase_error srv round st = None -> status_at srv round = Some st.
Proof. unfold phase_error. destruct (status_at srv round); [case_decide|]; congruence. Qed.

Lemma status_with_round srv round rd : status_at (with_round round rd srv) round = Some (cr_status rd).
Proof. apply status_of, with_round_lookup. Qed.

Lemma with_round_same round rd srv g g' : same_but round (srv, g) (with_round round rd srv, g').
Proof. split; [done|]. intros r Hr. cbn. by rewrite lookup_insert_ne. Qed.

(** C19. A round moves through its phases in one direction: [NewRound] makes a round
    that did not exist new, [Open] opens a new one, [Add] needs an open one and
    keeps it open, [Close] closes an open one, [Get] needs a closed one and keeps
    it, [Delete] removes it. A call that returns an error leaves the phase of its
    round as it was, and no call ever changes another round or the server's
    configuration. *)
Theorem convo_lifecycle (op : convo_op) (s s' : cstate C R) (res : result (list bytes)) :
  serve op s = Ret (res, s') ->
  same_but (op_round op) s s' /\
  match res with
  | Ok _ => (forall b, op_before op = Some b -> status_at s.1 (op_round op) = b) /\
            status_at s'.1 (op_round op) = op_after op
  | Err _ => status_at s'.1 (op_round op) = status_at s.1 (op_round op)
  end.
Proof.
  destruct s as [srv g].
  destruct op as [r|a|a|r|a|r]; cbn [serve op_round op_before op_after]; intros H;
    try (apply forget_ret in H as [(u & H & ->)|(e & H & ->)]).
  - apply NewRound_ret in H as (_ & [(rd & _ & [=] & _)|(Hn & _ & rd & g' & Hf & ->)]).
    split; [exact (with_round_same r rd (set_Idle true srv) g g')|]. cbn [fst]. rewrite status_with_round.
    split; [|by rewrite (proj1 Hf)]. intros b [= <-]. unfold status_at. cbn. by rewrite Hn.
  - by apply NewRound_ret in H as (_ & [(rd & Hr & _ & ->)|(_ & [=] & _)]).
  - apply Open_ret in H as [(e & _ & [=] & _)|(rd & Hr & Hs & _ & _ & ->)].
    split; [apply with_round_same|]. cbn [fst]. rewrite status_with_round. cbn. rewrite (status_of _ _ _ Hr).
    split; [intros b [= <-]; by rewrite Hs|by rewrite ?Hs, ?Hst].
  - by apply Open_ret in H as [(e' & _ & _ & ->)|(rd & _ & _ & _ & [=] & _)].
  - apply Add_ret in H as [(e & _ & [=] & _)|(rd & Hr & Hs & [(_ & _ & [=])|(sl & _ & _ & ->)])].
    split; [apply with_round_same|]. cbn [fst]. rewrite status_with_round. cbn. rewrite (status_of _ _ _ Hr).
    split; [intros b [= <-]; by rewrite Hs|by rewrite ?Hs, ?Hst].
  - by apply Add_ret in H as [(e' & _ & _ & ->)|(rd & _ & _ & [(_ & -> & _)|(sl & _ & [=] & _)])].
  - apply Close_ret in H as [(e & _ & [=] & _)|(rd & rd1 & Hr & Hs & _ & Hsame & [(e & [=] & _)|(rd' & _ & _ & _ & Hl & _ & Hst & _)])].
    split; [done|]. rewrite (status_of _ _ _ Hl). cbn. rewrite (status_of _ _ _ Hr).
    split; [intros b [= <-]; by rewrite Hs|by rewrite ?Hs, ?Hst].
  - apply Close_ret in H as [(e' & _ & _ & ->)|(rd & rd1 & Hr & Hs & _ & Hsame & [(e' & _ & Hst)|(rd' & [=] & _)])]; [done|].
    split; [done|]. cbn. by rewrite Hst, (status_of _ _ _ Hr), Hs.
  - destruct s' as [srv' g']. apply Get_ret in H as (Hsrv & [(e & _ & ->)|(os & Hs & ->)]); cbn in *; subst srv'; [done|].
    split; [done|]. split; [by intros b [= <-]|done].
  - injection H as _ <-. split; [|split; [done|unfold status_at; cbn; by rewrite lookup_delete_eq]].
    split; [done|]. intros r' Hr'. cbn. by rewrite lookup_delete_ne.
  - done.
Qed.

(** A call in the wrong phase is rejected: unless the round exists and is in the
    phase [Open], [Add], [Close] or [Get] needs, the call returns the error that
    names the round and the two phases, and changes nothing. [Add] also rejects
    onions beyond the announced number without storing any of them. *)
Lemma convo_rejections (srv : ConvoService C) (g : R) :
  (forall op st e, op_before op = Some (Some st) -> phase_error srv (op_round op) st = Some e ->
     serve op (srv, g) = Ret (Err e, (srv, g))) /\
  (forall args rd, cs_rounds srv !! aa_Round args = Some rd -> cr_status rd = convoRoundOpen ->
     cr_numIncoming rd < i64 (aa_Offset args + zlen (aa_Onions args)) ->
     serve (OpAdd args) (srv, g) =
     Ret (Err (err_overflow (aa_Offset args) (zlen (aa_Onions args)) (cr_numIncoming rd)), (srv, g))).
Proof.
  split.
  - intros op st e Hb He. destruct op as [r|a|a|r|a|r]; cbn in *; try discriminate; injection Hb as <-;
      unfold forget, Open, Add, Close, Get; unfold gbind;
      rewrite (getRound_err _ _ _ _ _ He); done.
  - intros args rd Hr Hs Hlt. cbn. unfold forget, Add.
    unfold gbind. rewrite (getRound_ok _ _ _ _ _ Hr Hs). cbn [on_ok]. unfold get_srv. cbn [fst].
    by rewrite decide_True.
Qed.

(** ** The lock [Idle] *)

(** One call other than [Close]. *)
Definition other_step (s s' : cstate C R) : Prop :=
  exists op res, serve op s = Ret (res, s') /\ forall r, op <> OpClose r.

Lemma other_step_locked s s' : other_step s s' -> cs_Idle s.1 = true -> cs_Idle s'.1 = true.
Proof.
  intros (op & res & H & Hne) Hid. destruct s as [srv g], s' as [srv' g']. cbn [fst] in *.
  destruct op as [r|a|a|r|a|r]; cbn [serve] in H;
    try (apply forget_ret in H as [(u & H & ->)|(e & H & ->)]).
  - apply NewRound_ret in H as [Hf _]. congruence.
  - apply NewRound_ret in H as [Hf _]. congruence.
  - by apply Open_ret in H as [(e & _ & _ & [= -> _])|(rd & _ & _ & _ & _ & [= -> _])].
  - by apply Open_ret in H as [(e' & _ & _ & [= -> _])|(rd & _ & _ & _ & _ & [= -> _])].
  - by apply Add_ret in H as [(e & _ & _ & [= -> _])|(rd & _ & _ & [(_ & [= -> _] & _)|(sl & _ & _ & [= -> _])])].
  - by apply Add_ret in H as [(e' & _ & _ & [= -> _])|(rd & _ & _ & [(_ & [= -> _] & _)|(sl & _ & _ & [= -> _])])].
  - by destruct (Hne r).
  - by destruct (Hne r).
  - apply Get_ret in H as (Hsrv & _). cbn in Hsrv. by subst.
  - by injection H as _ <- _.
  - done.
Qed.

Lemma other_steps_locked s s' : rtc other_step s s' -> cs_Idle s.1 = true -> cs_Idle s'.1 = true.
Proof. induction 1; eauto using other_step_locked. Qed.

(** C30. A repeated [NewRound] blocks the service: on an idle server, [NewRound] of a
    round that exists returns the error but keeps the lock [Idle] it took; from
    then on, whatever other calls are made, every [NewRound] blocks, until a
    [Close] releases the lock on behalf of some other round. *)
Theorem duplicate_NewRound_blocks (round : Z) (srv : ConvoService C) (g : R) (rd : ConvoRound) :
  cs_Idle srv = false -> cs_rounds srv !! round = Some rd ->
  exists s1, NewRound round (srv, g) = Ret (Err (err_exists round), s1) /\
    forall s2 round', rtc other_step s1 s2 -> NewRound round' s2 = Block.
Proof.
  intros Hid Hr. exists (set_Idle true srv, g). split.
  - unfold NewRound, Idle_Lock, gbind. cbn [fst snd]. rewrite Hid. unfold get_srv. cbn. by rewrite Hr.
  - intros [srv2 g2] round' Hs. apply other_steps_locked in Hs; [|done]. cbn in Hs.
    unfold NewRound, Idle_Lock, gbind. cbn [fst snd]. by rewrite Hs.
Qed.

End Histories.

(** ** The invariant of the service *)

Definition pending (st : convoStatus) : Prop := st = convoRoundNew \/ st = convoRoundOpen.

(** An open round: one slot per announced onion; a stored message has the size a
    layer less than an onion, and its shared key is there. *)
Record open_ok (size : Z) (rd : ConvoRound) : Prop := {
  oo_keys : zlen (cr_sharedKeys rd) = cr_numIncoming rd;
  oo_msgs : zlen (cr_incoming rd) = cr_numIncoming rd;
  oo_slot : forall i m, cr_incoming rd !! i = Some (Some m) ->
    zlen m = size - onionbox_Overhead /\ exists k, cr_sharedKeys rd !! i = Some (Some k);
}.

(** A closed round: one index per announced onion, which is -1 or points to a
    reply, and then the slot has its shared key. *)
Record closed_ok (rd : ConvoRound) : Prop := {
  co_index : zlen (cr_incomingIndex rd) = cr_numIncoming rd;
  co_slot : forall i v, cr_incomingIndex rd !! i = Some v ->
    v = -1 \/ (0 <= v /\ exists rep k, cr_replies rd !! Z.to_nat v = Some rep /\ cr_sharedKeys rd !! i = Some (Some k));
}.

Definition round_ok (size : Z) (rd : ConvoRound) : Prop :=
  match cr_status rd with
  | convoRoundNew => True
  | convoRoundOpen => open_ok size rd
  | convoRoundClosed => closed_ok rd
  end.

Record service_ok {C} (srv : ConvoService C) : Prop := {
  so_rounds : forall r rd, cs_rounds srv !! r = Some rd -> round_ok (onion_size srv) rd;
  so_one : forall r r' st st', status_at srv r = Some st -> status_at srv r' = Some st' ->
    pending st -> pending st' -> r = r';
  so_idle : forall r st, status_at srv r = Some st -> pending st -> cs_Idle srv = true;
}.

Section Invariant.
Context {C R : Type} `{HF : Fuel, HR : Reader R, HFR : !FullReader R, HB : Box, HL : !BoxLaws, HK : !KeyGen R,
  HE : FloatEnv, HC : ConvoRemote C}.
Implicit Types (srv : ConvoService C) (g : R) (rd : ConvoRound).

(** One call that returns; a [Close] of an open round must succeed. *)
Definition clean_step (s s' : cstate C R) : Prop :=
  exists op res, serve op s = Ret (res, s') /\
    (forall r, op = OpClose r -> status_at s.1 r = Some convoRoundOpen -> exists a, res = Ok a).

Lemma onion_size_config srv srv' : config srv' = config srv -> onion_size srv' = onion_size srv.
Proof. unfold config, onion_size. intros [= _ _ -> -> _ _]. done. Qed.

(** An onion of the right size that opens gives a message one layer smaller. *)
Lemma slot_msg_length sk nonce size onion m :
  32 <= size -> slot_msg sk nonce size onion = Some m -> zlen m = size - onionbox_Overhead.
Proof.
  unfold slot_msg, peel. intros Hs. case_decide as Hl; [|done]. intros Ho%Open_length.
  unfold onionbox_Overhead, zlen in *. rewrite length_drop in Ho. lia.
Qed.

Definition slots_ok (size : Z) (sl : list (option BoxKey) * list (option bytes)) : Prop :=
  forall i m, sl.2 !! i = Some (Some m) -> zlen m = size - onionbox_Overhead /\ exists k, sl.1 !! i = Some (Some k).

Lemma add_onion_ok sk nonce size Offset ko sl sl' :
  32 <= size -> add_onion sk nonce size Offset ko sl = Ret sl' ->
  length sl'.1 = length sl.1 /\ length sl'.2 = length sl.2 /\ (slots_ok size sl -> slots_ok size sl').
Proof.
  intros Hsize. destruct ko as [k onion], sl as [ks ms]. unfold add_onion. cbn [fst snd].
  intros (ks1 & [Hi1 ->]%go_store_ret & H)%obind_ret. case_decide as Hs.
  - apply obind_ret in H as (pk & [_ ->]%go_slice_ret & H).
    apply obind_ret in H as (ks2 & [Hi2 ->]%go_store_ret & H).
    apply obind_ret in H as (ct & [_ ->]%go_slice_ret & H). set (i := Z.to_nat (i64 (Offset + k))) in *.
    rewrite list_insert_insert_eq in H. unfold zlen in Hi1.
    destruct (OpenAfterPrecomputation _ _ _) as [m|] eqn:Ho.
    + apply obind_ret in H as (ms1 & [_ ->]%go_store_ret & [= <-]). cbn. rewrite !length_insert.
      split_and!; [done|done|]. intros Hok j m' Hj. cbn in *. destruct (decide (j = i)) as [->|Hne].
      * apply list_lookup_insert_Some in Hj as [(_ & [= ->] & _)|(? & _)]; [|done]. split.
        -- apply Open_length in Ho. unfold onionbox_Overhead, zlen in *.
           rewrite length_take, length_drop in Ho. lia.
        -- eexists. apply list_lookup_insert_eq. lia.
      * rewrite list_lookup_insert_ne in Hj by done. rewrite list_lookup_insert_ne by done. by apply Hok.
    + injection H as <-. cbn. rewrite !length_insert. split_and!; [done|done|]. intros Hok j m' Hj. cbn in *.
      destruct (Hok j m' Hj) as [Hz [k' Hk]]. split; [done|]. destruct (decide (j = i)) as [->|Hne].
      * eexists. apply list_lookup_insert_eq. lia.
      * rewrite list_lookup_insert_ne by done. eauto.
  - injection H as <-. cbn. rewrite !length_insert. split_and!; [done|done|]. intros Hok j m' Hj. cbn in *.
    destruct (Hok j m' Hj) as [Hz [k' Hk]]. split; [done|]. unfold zlen in Hi1.
    destruct (decide (j = Z.to_nat (i64 (Offset + k)))) as [->|Hne].
    + eexists. apply list_lookup_insert_eq. lia.
    + rewrite list_lookup_insert_ne by done. eauto.
Qed.

Lemma add_loop_ok sk nonce size Offset l sl sl' :
  32 <= size -> go_for (add_onion sk nonce size Offset) l sl = Ret sl' ->
  length sl'.1 = length sl.1 /\ length sl'.2 = length sl.2 /\ (slots_ok size sl -> slots_ok size sl').
Proof.
  intros Hsize. apply (go_for_keeps (fun sl sl' => length sl'.1 = length sl.1 /\ length sl'.2 = length sl.2 /\
    (slots_ok size sl -> slots_ok size sl'))).
  - done.
  - intros s1 s2 s3 (H1 & H2 & H3) (H4 & H5 & H6). split_and!; [congruence..|auto].
  - intros ko s1 s2 _. by apply add_onion_ok.
Qed.

(** Filtering an open round and storing enough replies gives a closed one. *)
Lemma filter_closed_ok size rd rd1 rd' :
  open_ok size rd -> 272 <= size -> filterIncoming rd = Ret rd1 -> same_slots rd1 rd' ->
  zlen (cr_replies rd') = cr_numIncoming rd1 \/ zlen (cr_replies rd') = zlen (cr_incoming rd1) ->
  closed_ok rd'.
Proof.
  intros Hopen Hsize Hf (Hn & Hks & Hix) Hrep. destruct Hopen as [Hk Hm Hs].
  apply filterIncoming_ret in Hf as (valid & idx & Hf & ->). cbn in *.
  destruct (filter_loop_ok (cr_incoming rd) ∅ 0) as (valid' & idx' & Hf' & [Hl Hord _ Hslot]); [lia| |].
  { apply Forall_lookup. intros i [m|] Hi; [|done]. destruct (Hs i m Hi) as [Hz _].
    unfold zlen, onionbox_Overhead, box_Overhead in Hz. lia. }
  rewrite Hf in Hf'. injection Hf' as <- <-.
  assert (zlen valid <= zlen (cr_incoming rd)) as Hvl.
  { apply (f_equal length) in Hord. rewrite length_seqZ in Hord. unfold zlen in *. rewrite Nat2Z.id in Hord.
    rewrite <- Hord, <- Hl. pose proof (length_filter (fun z => z <> -1) idx). lia. }
  assert (zlen valid <= zlen (cr_replies rd')) as Hvr.
  { destruct Hrep as [-> | ->]; [by rewrite <- Hm|]. unfold zlen. by rewrite length_fmap. }
  split.
  - rewrite Hix, Hn. unfold zlen in *. lia.
  - intros i v Hv. rewrite Hix in Hv. rewrite Hks.
    apply lookup_lt_Some in Hv as Hlt. rewrite Hl in Hlt.
    destruct (lookup_lt_is_Some_2 _ _ Hlt) as [o Ho].
    destruct (Hslot i o Ho) as [(msg & z & -> & _ & _ & Hz & H0 & Hval)|[Hz _]].
    + right. rewrite Hv in Hz. injection Hz as <-. split; [done|]. rewrite Z.sub_0_r in Hval.
      apply lookup_lt_Some in Hval. destruct (lookup_lt_is_Some_2 (cr_replies rd') (Z.to_nat v)) as [rep Hrp].
      { unfold zlen in *. lia. }
      destruct (Hs i msg Ho) as [_ [k Hkk]]. eauto.
    + left. congruence.
Qed.

(** Round [r] is pending. *)
Definition pending_at srv (r : Z) : Prop := exists st, status_at srv r = Some st /\ pending st.

(** A call that touches only round [r] keeps the invariant if it leaves that round
    well formed and the lock held while the round is pending. *)
Lemma service_ok_update r srv srv' :
  service_ok srv -> config srv' = config srv ->
  (forall r', r' <> r -> cs_rounds srv' !! r' = cs_rounds srv !! r') ->
  (forall rd, cs_rounds srv' !! r = Some rd -> round_ok (onion_size srv) rd) ->
  (pending_at srv' r -> cs_Idle srv' = true /\ (cs_Idle srv = false \/ pending_at srv r)) ->
  (cs_Idle srv' = true \/ cs_Idle srv = false \/ pending_at srv r) ->
  service_ok srv'.
Proof.
  intros [H1 H2 H3] Hc Hsame Hr Hp Hi.
  assert (forall r', r' <> r -> status_at srv' r' = status_at srv r') as Hst.
  { intros r' Hne. unfold status_at. by rewrite Hsame. }
  assert (forall r', r' <> r -> pending_at srv' r' -> pending_at srv r' /\ cs_Idle srv = true /\ ~ pending_at srv r) as Hother.
  { intros r' Hne (st & Hs & Hps). rewrite Hst in Hs by done. split; [by exists st|]. split; [by eapply H3|].
    intros (st0 & Hs0 & Hp0). apply Hne. by eapply H2. }
  split.
  - intros r' rd Hl. rewrite (onion_size_config _ _ Hc). destruct (decide (r' = r)) as [->|Hne]; [by apply Hr|].
    rewrite Hsame in Hl by done. by apply (H1 r').
  - intros r1 r2 st1 st2 Hs1 Hs2 Hp1 Hp2.
    destruct (decide (r1 = r)) as [->|Hn1], (decide (r2 = r)) as [->|Hn2]; [done|..].
    + destruct (Hother r2 Hn2) as (_ & Hid & Hnp); [by exists st2|].
      destruct (Hp ltac:(by exists st1)) as (_ & [?|?]); [congruence|done].
    + destruct (Hother r1 Hn1) as (_ & Hid & Hnp); [by exists st1|].
      destruct (Hp ltac:(by exists st2)) as (_ & [?|?]); [congruence|done].
    + rewrite Hst in Hs1, Hs2 by done. by eapply H2.
  - intros r' st Hs Hps. destruct (decide (r' = r)) as [->|Hne]; [apply Hp; by exists st|].
    destruct (Hother r' Hne ltac:(by exists st)) as (_ & Hid & Hnp).
    destruct Hi as [?|[?|?]]; [done|congruence|done].
Qed.

Lemma round_ok_of srv r rd : service_ok srv -> cs_rounds srv !! r = Some rd -> round_ok (onion_size srv) rd.
Proof. intros [H _ _]. apply H. Qed.

Lemma pending_at_of srv r rd : cs_rounds srv !! r = Some rd -> pending (cr_status rd) -> pending_at srv r.
Proof. intros Hr Hp. exists (cr_status rd). split; [by apply status_of|done]. Qed.

(** A call that stores a pending round where one was pending. *)
Lemma service_ok_store r rd rd' srv :
  service_ok srv -> cs_rounds srv !! r = Some rd -> pending (cr_status rd) ->
  round_ok (onion_size srv) rd' -> service_ok (with_round r rd' srv).
Proof.
  intros Hok Hr Hp Hrd. pose proof (pending_at_of _ _ _ Hr Hp) as Hpa.
  assert (cs_Idle srv = true) as Hid by (destruct Hok as [_ _ H3], Hpa as (st & ? & ?); by eapply H3).
  apply (service_ok_update r srv); [done|done| | | |by left].
  - intros r' Hne. cbn. by rewrite lookup_insert_ne.
  - intros rd0. rewrite with_round_lookup. by intros [= <-].
  - intros _. split; [done|]. by right.
Qed.

Lemma opened_ok size n rd : 0 <= n -> open_ok size (opened n rd).
Proof.
  intros Hn. split; cbn.
  - unfold zlen. rewrite length_replicate. lia.
  - unfold zlen. rewrite length_replicate. lia.
  - intros i m [[=] _]%lookup_replicate.
Qed.

Lemma NewRound_keeps r srv g res srv' g' :
  service_ok srv -> NewRound r (srv, g) = Ret (res, (srv', g')) -> service_ok srv'.
Proof.
  intros Hok H. apply NewRound_ret in H as (Hid & [(rd & Hr & _ & [= -> _])|(Hn & _ & rd & g1 & Hf & [= -> _])]).
  - apply (service_ok_update r srv); [done|done|done| | |by left].
    + intros rd0 Hl. by apply (round_ok_of _ r).
    + intros Hp. split; [done|by left].
  - apply (service_ok_update r srv); [done|done| | | |by left].
    + intros r' Hne. cbn. by rewrite lookup_insert_ne.
    + intros rd0. rewrite with_round_lookup. intros [= <-]. unfold round_ok. by rewrite (proj1 Hf).
    + intros Hp. split; [done|by left].
Qed.

Lemma Close_keeps r srv g a srv' g' :
  service_ok srv -> Close r (srv, g) = Ret (Ok a, (srv', g')) -> service_ok srv'.
Proof.
  intros Hok H. apply Close_ret in H as [(e & _ & [=] & _)|
    (rd & rd1 & Hr & Hs & Hf & Hsame & [(e & [=] & _)|(rd' & _ & Hi & Hi' & Hl & Hss & Hst & Hz)])].
  destruct Hsame as [Hc Hsame]. cbn [fst] in *. apply (service_ok_update r srv); [done|done|done| | |].
  - intros rd0. rewrite Hl. intros [= <-]. unfold round_ok. rewrite Hst.
    pose proof (round_ok_of _ _ _ Hok Hr) as Hro. unfold round_ok in Hro. rewrite Hs in Hro.
    eapply filter_closed_ok; [exact Hro|apply onion_size_min|done..].
  - intros (st & Hs' & [->| ->]); rewrite (status_of _ _ _ Hl), Hst in Hs'; discriminate.
  - right. right. apply (pending_at_of _ _ _ Hr). rewrite Hs. by right.
Qed.

Lemma clean_step_keeps s s' : clean_step s s' -> service_ok s.1 -> service_ok s'.1.
Proof.
  intros (op & res & H & Hclean) Hok. destruct s as [srv g], s' as [srv' g']. cbn [fst] in *.
  destruct op as [r|a|a|r|a|r]; cbn [serve] in H;
    try (apply forget_ret in H as [(u & H & ->)|(e & H & ->)]).
  - by eapply NewRound_keeps.
  - by eapply NewRound_keeps.
  - apply Open_ret in H as [(e & _ & [=] & _)|(rd & Hr & Hs & Hn & _ & [= -> _])].
    eapply service_ok_store; [done|done|rewrite Hs; by left|]. by apply opened_ok.
  - apply Open_ret in H as [(e' & _ & _ & [= -> _])|(rd & _ & _ & _ & [=] & _)]. done.
  - apply Add_ret in H as [(e & _ & [=] & _)|(rd & Hr & Hs & [(_ & _ & [=])|(sl & Hf & _ & [= -> _])])].
    pose proof (round_ok_of _ _ _ Hok Hr) as Hro. unfold round_ok in Hro. rewrite Hs in Hro.
    eapply service_ok_store; [done|done|rewrite Hs; by right|]. unfold round_ok. cbn. rewrite Hs.
    destruct Hro as [H1 H2 H3]. apply add_loop_ok in Hf as (Hl1 & Hl2 & Hsl);
      [|pose proof (onion_size_min srv); lia].
    split; cbn; [unfold zlen in *; cbn in *; congruence..|]. by apply Hsl.
  - apply Add_ret in H as [(e' & _ & _ & [= -> _])|(rd & _ & _ & [(_ & [= -> _] & _)|(sl & _ & [=] & _)])]; done.
  - by eapply Close_keeps.
  - apply Close_ret in H as [(e' & _ & _ & [= -> _])|(rd & rd1 & Hr & Hs & _)]; [done|].
    destruct (Hclean r eq_refl) as [? [=]]. by rewrite (status_of _ _ _ Hr), Hs.
  - apply Get_ret in H as (Hsrv & _). cbn in Hsrv. by subst.
  - injection H as _ <- _. apply (service_ok_update r srv); [done|done| | | |].
    + intros r' Hne. cbn. by rewrite lookup_delete_ne.
    + intros rd. cbn. by rewrite lookup_delete_eq.
    + intros (st & Hs & _). unfold status_at in Hs. cbn in Hs. by rewrite lookup_delete_eq in Hs.
    + cbn. destruct (cs_Idle srv); auto.
  - done.
Qed.

Lemma clean_steps_keep s s' : rtc clean_step s s' -> service_ok s.1 -> service_ok s'.1.
Proof. induction 1; eauto using clean_step_keeps. Qed.

(** ** Reading a closed round *)

(** [get_onion] on a closed round returns an onion of the right size: the sealed
    reply of the slot when the sizes match, random bytes otherwise. *)
Lemma get_onion_ok rd nonce size i srv g :
  closed_ok rd -> 0 <= size -> 0 <= i < cr_numIncoming rd -> reader_ok g ->
  exists o g', get_onion rd nonce size i (srv, g) = Ret (o, (srv, g')) /\ reader_ok g' /\ zlen o = size /\
    forall v rep k, cr_incomingIndex rd !! Z.to_nat i = Some v -> 0 <= v ->
      cr_replies rd !! Z.to_nat v = Some rep -> cr_sharedKeys rd !! Z.to_nat i = Some (Some k) ->
      zlen rep + box_Overhead = size -> o = SealAfterPrecomputation rep nonce k.
Proof.
  intros [Hix Hslot] Hsize Hi Hok. unfold get_onion.
  destruct (lookup_lt_is_Some_2 (cr_incomingIndex rd) (Z.to_nat i)) as [v Hv].
  { unfold zlen in Hix. lia. }
  rewrite (proj2 (go_index_ret _ _ v)) by (split; [lia|done]). unfold glift at 1, gbind at 1.
  assert (forall o0, exists o g', (if decide (zlen o0 = size) then gret o0
     else on_rand (rand_Read (Z.to_nat size))) (srv, g) = Ret (o, (srv, g')) /\ reader_ok g' /\ zlen o = size /\
     (zlen o0 = size -> o = o0)) as Hfin.
  { intros o0. case_decide as Hz; [by exists o0, g|].
    destruct (rand_Read_full (Z.to_nat size) g Hok) as (bs & g' & Hr & Hl & Hok'). exists bs, g'.
    split_and!; [|done|unfold zlen; lia|done]. apply on_rand_ret. eauto. }
  destruct (Hslot _ _ Hv) as [->|(Hv0 & rep & k & Hrep & Hk)].
  - rewrite decide_False by lia. destruct (Hfin []) as (o & g' & Ho & Hok' & Hz & _).
    exists o, g'. split_and!; [exact Ho|done|done|]. intros v rep k Hv'. rewrite Hv in Hv'. injection Hv' as <-. lia.
  - rewrite decide_True by lia. rewrite (proj2 (go_index_ret (cr_replies rd) v rep)) by done.
    rewrite (proj2 (go_index_ret (cr_sharedKeys rd) i (Some k))) by (split; [lia|done]).
    destruct (Hfin (SealAfterPrecomputation rep nonce k)) as (o & g' & Ho & Hok' & Hz & Heq).
    exists o, g'. split_and!; [exact Ho|done|done|].
    intros v' rep' k' Hv' _ Hrep' Hk' Hsz. simplify_eq. apply Heq.
    by rewrite Seal_length.
Qed.

(** The reply an onion slot gets. *)
Definition slot_reply rd (nonce : Nonce) (size : Z) (i : nat) (o : bytes) : Prop :=
  zlen o = size /\
  forall v rep k, cr_incomingIndex rd !! i = Some v -> 0 <= v ->
    cr_replies rd !! Z.to_nat v = Some rep -> cr_sharedKeys rd !! i = Some (Some k) ->
    zlen rep + box_Overhead = size -> o = SealAfterPrecomputation rep nonce k.

Lemma get_onions_ok rd nonce size i n srv g :
  closed_ok rd -> 0 <= size -> 0 <= i -> i + n <= cr_numIncoming rd -> reader_ok g ->
  exists os g', go_map (get_onion rd nonce size) (seqZ i n) (srv, g) = Ret (os, (srv, g')) /\
    Forall2 (fun i o => slot_reply rd nonce size (Z.to_nat i) o) (seqZ i n) os /\ reader_ok g'.
Proof.
  intros Hcl Hsize Hi Hn Hok.
  destruct (go_map_total (fun s => s.1 = srv /\ reader_ok s.2)
    (fun i o => slot_reply rd nonce size (Z.to_nat i) o) (get_onion rd nonce size) (seqZ i n) (srv, g))
    as (os & [srv' g'] & Hm & Hf & [Hs Hok']); [done| |].
  - intros j [srv1 g1] Hj%elem_of_seqZ [Hs1 Hok1]. cbn in Hs1, Hok1. subst srv1.
    destruct (get_onion_ok rd nonce size j srv g1 Hcl Hsize ltac:(lia) Hok1) as (o & g2 & Ho & Hok2 & Hz & Hc).
    exists o, (srv, g2). done.
  - cbn in Hs, Hok'. subst srv'. eauto.
Qed.

(** C20. After any history of calls from an idle server (in which no [Close] of an
    open round fails), in any order and on any rounds: at most one round is
    collecting messages, and while one is the lock [Idle] is held; and reading a
    closed round inside its bounds always succeeds: [Get] returns [Count] onions,
    all of the size the server before expects, and changes nothing else. *)
Theorem convo_history_safe (srv0 : ConvoService C) (g0 : R) (s : cstate C R) :
  cs_rounds srv0 = ∅ -> cs_Idle srv0 = false -> rtc clean_step (srv0, g0) s ->
  (forall r r', pending_at s.1 r -> cs_Idle s.1 = true /\ (pending_at s.1 r' -> r' = r)) /\
  (forall args rd, cs_rounds s.1 !! ga_Round args = Some rd -> cr_status rd = convoRoundClosed ->
     0 <= ga_Offset args -> 0 <= ga_Count args -> ga_Offset args + ga_Count args <= cr_numIncoming rd ->
     cr_numIncoming rd < 2 ^ 63 -> reader_ok s.2 ->
     exists onions g', serve (OpGet args) s = Ret (Ok onions, (s.1, g')) /\
       zlen onions = ga_Count args /\ Forall (fun o => zlen o = reply_size s.1) onions).
Proof.
  intros Hr0 Hi0 Hs.
  assert (service_ok s.1) as Hok.
  { apply (clean_steps_keep _ _ Hs). cbn.
    split; unfold status_at; cbn; intros *; rewrite ?Hr0, ?lookup_empty; done. }
  destruct s as [srv g]. cbn [fst snd] in *. split.
  - intros r r' (st & Hst & Hp). destruct Hok as [_ H2 H3]. split; [by eapply H3|].
    intros (st' & Hst' & Hp'). by eapply H2.
  - intros [r off cnt] rd Hr Hst Ho Hc Hle Hlt Hrok. cbn [ga_Round ga_Offset ga_Count] in *.
    pose proof (round_ok_of _ _ _ Hok Hr) as Hro. unfold round_ok in Hro. rewrite Hst in Hro.
    pose proof (onion_size_min srv) as [_ Hrs].
    destruct (get_onions_ok rd (BackwardNonce r) (reply_size srv) off cnt srv g) as (os & g' & Hm & Hf & _);
      [done|lia|done|done|done|].
    exists os, g'. split_and!.
    + cbn. apply (Get_eq _ _ _ _ _ _ _ _ Hr Hst Ho Hc ltac:(lia) Hm).
    + apply Forall2_length in Hf. rewrite length_seqZ in Hf. unfold zlen. lia.
    + apply Forall_lookup. intros i o Hlo. destruct (Forall2_lookup_r _ _ _ _ _ Hf Hlo) as (? & _ & Hsl & _). done.
Qed.

End Invariant.
