(* ===== verification/ConvoChain.v ===== *)
(** * ConvoChain: a whole chain of conversation servers

    The servers of a chain talk to each other through the interface
    [ConvoRemote]; [ChainRemote] adds what a server promises to the server (or
    coordinator) before it: a round that was started can be run, and the replies
    are the batch, peeled, mixed, exchanged at the dead drops and sealed again.
    The last server keeps the promise; a server whose next server keeps it keeps
    it too; so a chain of any length does. *)

From stdpp Require Import numbers strings pretty gmap list.
From Stdlib Require Import Strings.Byte.
From S2P Require Import Prelude Binary Wire Rand Shuffle Parallel OnionBox Pki Noise Laplace Convo DeadDrops ConvoRounds.

(** ** What happens to a batch *)

(** Sizes in front of [n] servers. *)
Definition onion_len (n : Z) : Z := n * onionbox_Overhead + SizeConvoExchange.
Definition reply_len (n : Z) : Z := n * box_Overhead + SizeEncryptedMessage.

Section Relations.
Context `{HB : Box}.

(** The messages the first of the servers [sks] finds in a batch of onions. *)
Definition hop_msgs (r : Z) (sk : BoxKey) (sks : list BoxKey) (batch : list bytes) : list (option bytes) :=
  slot_msg sk (ForwardNonce r) (onion_len (zlen (sk :: sks))) <$> batch.

(** Onion [i] of the batch is accepted: it opens to [m], and no earlier onion opens
    to a message with the same last eight bytes. *)
Definition accepted (r : Z) (sk : BoxKey) (sks : list BoxKey) (batch : list bytes) (i : nat) (m : bytes) : Prop :=
  first_with_key (hop_msgs r sk sks batch) i m.

(** An onion of cover traffic: it carries an exchange through all of [sks]. *)
Definition is_noise (r : Z) (sks : list BoxKey) (onion : bytes) : Prop :=
  exists m shared, zlen m = SizeConvoExchange /\ peel_all sks (ForwardNonce r) onion = Some (m, shared).

(** One server: every onion gets a reply of the right length; accepted onions go to
    distinct positions [pos] of the inner batch, and their reply is the inner
    reply sealed with the key shared with their sender. The inner batch is a
    permutation of the accepted messages, one per key, and of noise, of which the
    last server adds none. *)
Record hop (r : Z) (sk : BoxKey) (sks : list BoxKey) (batch : list bytes) (pos : nat -> nat)
    (inner inner_replies replies : list bytes) : Prop := {
  hop_length : length replies = length batch;
  hop_sizes : Forall (fun o => zlen o = reply_len (zlen (sk :: sks))) replies;
  hop_inner : exists valid noise, inner ≡ₚ valid ++ noise /\ NoDup (key_of <$> valid) /\
    (forall m, m ∈ valid <-> exists i, accepted r sk sks batch i m) /\
    Forall (is_noise r sks) noise /\ (sks = [] -> noise = []);
  hop_inj : forall i j mi mj, accepted r sk sks batch i mi -> accepted r sk sks batch j mj ->
    pos i = pos j -> i = j;
  hop_reply : forall i m, accepted r sk sks batch i m ->
    inner !! pos i = Some m /\
    exists onion rep, batch !! i = Some onion /\ inner_replies !! pos i = Some rep /\
      replies !! i = Some (SealAfterPrecomputation rep (BackwardNonce r) (peel_key sk onion));
}.

(** All servers: [hops] are the batch each receives and the positions it moves the
    onions to, [msgs] the messages of the dead-drop exchange. *)
Abbreviation hops_t := (list (list bytes * (nat -> nat))).

Definition first_batch (hops : hops_t) (msgs : list bytes) : list bytes :=
  match hops with [] => msgs | (batch, _) :: _ => batch end.

Fixpoint chain_rel (r : Z) (sks : list BoxKey) (hops : hops_t) (msgs replies : list bytes) : Prop :=
  match sks, hops with
  | [], [] => exists ac, exchange_all msgs = Ret (replies, ac)
  | sk :: sks', (batch, pos) :: hops' =>
      exists inner_replies, hop r sk sks' batch pos (first_batch hops' msgs) inner_replies replies /\
                            chain_rel r sks' hops' msgs inner_replies
  | _, _ => False
  end.

(** Where onion [i] ends up among the messages of the exchange. *)
Fixpoint route (hops : hops_t) (i : nat) : nat :=
  match hops with [] => i | (_, pos) :: hops' => route hops' (pos i) end.

(** An onion that does not reach the dead drops: some server does not accept it. *)
Fixpoint lost (r : Z) (sks : list BoxKey) (hops : hops_t) (i : nat) : Prop :=
  match sks, hops with
  | sk :: sks', (batch, pos) :: hops' =>
      (forall m, ~ accepted r sk sks' batch i m) \/ lost r sks' hops' (pos i)
  | _, _ => False
  end.

Lemma accepted_dec r sk sks batch i :
  (exists m, accepted r sk sks batch i m) \/ (forall m, ~ accepted r sk sks batch i m).
Proof. apply first_with_key_dec. Qed.

(** An accepted onion peels. *)
Lemma accepted_peel r sk sks batch i m onion :
  accepted r sk sks batch i m -> batch !! i = Some onion -> peel sk (ForwardNonce r) onion = Some m.
Proof.
  intros [Hm _] Ho. unfold hop_msgs in Hm. rewrite list_lookup_fmap, Ho in Hm. cbn in Hm.
  injection Hm as Hm. unfold slot_msg in Hm. by case_decide.
Qed.

(** The relation end to end: an onion is lost or delivered. *)
Lemma chain_rel_deliver r sks hops msgs replies i onion :
  chain_rel r sks hops msgs replies -> first_batch hops msgs !! i = Some onion ->
  lost r sks hops i \/
  exists m shared rs ac rep, exchange_all msgs = Ret (rs, ac) /\
    peel_all sks (ForwardNonce r) onion = Some (m, shared) /\
    msgs !! route hops i = Some m /\ rs !! route hops i = Some rep /\
    replies !! i = Some (wrap_all shared (BackwardNonce r) rep).
Proof.
  revert hops replies i onion. induction sks as [|sk sks IH]; intros [|[batch pos] hops] replies i onion Hc Ho;
    cbn in Hc; try done; cbn [first_batch] in Ho.
  - destruct Hc as [ac He]. right. pose proof (exchange_all_spec msgs) as (rs & ac' & He' & Hl & _).
    rewrite He in He'. injection He' as <- <-.
    destruct (lookup_lt_is_Some_2 replies i) as [rep Hrep].
    { rewrite Hl. by eapply lookup_lt_Some. }
    exists onion, [], replies, ac, rep. done.
  - destruct Hc as (inner & [_ _ _ _ Hrep] & Hc). cbn [lost].
    destruct (accepted_dec r sk sks batch i) as [[m Hm]|]; [|by left; left].
    destruct (Hrep i m Hm) as (Hin & onion' & rep & Ho' & Hir & Hr). rewrite Ho in Ho'. injection Ho' as <-.
    destruct (IH hops inner (pos i) m Hc Hin) as [Hlost|(m' & shared & rs & ac & rep' & He & Hp & Hm' & Hrs & Hrep')].
    { left. by right. }
    right. exists m', (peel_key sk onion :: shared), rs, ac, rep'. split_and!; try done.
    + cbn [peel_all]. rewrite (accepted_peel _ _ _ _ _ _ _ Hm Ho). cbn [mbind option_bind]. by rewrite Hp.
    + rewrite Hr. rewrite Hir in Hrep'. by injection Hrep' as ->.
Qed.

(** Delivered onions end up at distinct positions. *)
Lemma route_inj r sks hops msgs replies i j :
  chain_rel r sks hops msgs replies -> ~ lost r sks hops i -> ~ lost r sks hops j ->
  route hops i = route hops j -> i = j.
Proof.
  revert hops replies i j. induction sks as [|sk sks IH]; intros [|[batch pos] hops] replies i j Hc Hi Hj Heq;
    cbn in Hc; try done.
  destruct Hc as (inner & [_ _ _ Hinj _] & Hc). cbn [lost route] in *.
  destruct (accepted_dec r sk sks batch i) as [[mi Hmi]|]; [|tauto].
  destruct (accepted_dec r sk sks batch j) as [[mj Hmj]|]; [|tauto].
  eapply Hinj; [done|done|]. eapply IH; [done|tauto|tauto|done].
Qed.

End Relations.

(** ** A well-configured server *)

(** The number of fake messages drawn is at most [cap], and drawing it takes at
    most the fuel given. *)
Definition noise_live {R} `{Fuel, FullReader R, FloatEnv} (cap : Z) (mu b : float64) : Prop :=
  forall g, reader_ok g -> exists n g', cappedFlooredLaplace fuel mu b g = Ret (n, g') /\ 0 <= n <= cap /\ reader_ok g'.

(** The server in front of the chain with the key pairs [kps], its own first. *)
Definition server_cfg {C R} `{Fuel, FullReader R, FloatEnv, BoxLaws} (cap : Z) (kps : list (BoxKey * BoxKey))
    (srv : ConvoService C) : Prop :=
  onion_size srv = onion_len (zlen kps) /\ reply_size srv = reply_len (zlen kps) /\
  Forall (fun k => keypair k.1 k.2) kps /\
  match kps with
  | [] => False
  | (pk, sk) :: kps' =>
      cs_PrivateKey srv = sk /\ cs_LastServer srv = bool_decide (kps' = []) /\
      NextServerKeys (cs_PKI srv) (cs_ServerName srv) = Ret ((fun k => Some k.1) <$> kps') /\
      (kps' <> [] -> noise_live (R := R) cap (cs_LaplaceMu srv) (cs_LaplaceB srv))
  end.
Arguments server_cfg {C} R {_ _ _ _ _ _} cap kps srv.

(** [server_cfg] is what a well-formed PKI gives the server at position [j]. *)
Lemma server_cfg_pki {C R} `{Fuel, FullReader R, FloatEnv, BoxLaws} cap kps (srv : ConvoService C) (j : nat) pk :
  pki_wf (cs_PKI srv) (fst <$> kps) -> Forall (fun k => keypair k.1 k.2) kps ->
  pki_ServerOrder (cs_PKI srv) !! j = Some (cs_ServerName srv) ->
  kps !! j = Some (pk, cs_PrivateKey srv) ->
  cs_LastServer srv = bool_decide (S j = length kps) ->
  noise_live (R := R) cap (cs_LaplaceMu srv) (cs_LaplaceB srv) ->
  server_cfg R cap (drop j kps) srv.
Proof.
  intros Hwf Hkp Hj Hk Hlast Hnoise. destruct (Incoming_overhead _ _ _ _ Hwf Hj) as [Hin Hout].
  unfold server_cfg, onion_size, reply_size, onion_len, reply_len. rewrite Hin, Hout.
  rewrite <- fmap_drop. unfold zlen. rewrite length_fmap. split_and!; [done|done|by apply Forall_drop|].
  rewrite (drop_S _ _ _ Hk). split_and!; [done| | |done].
  - rewrite Hlast. apply bool_decide_ext. split; intros He.
    + apply drop_ge. lia.
    + apply (f_equal length) in He. rewrite length_drop in He. cbn in He. apply lookup_lt_Some in Hk. lia.
  - rewrite (NextServerKeys_drop _ _ _ _ Hwf Hj). by rewrite <- fmap_drop, <- list_fmap_compose.
Qed.

Lemma even_up n : 0 <= n -> n + Z.rem n 2 = 2 * ((n + 1) / 2) /\ n <= n + Z.rem n 2 <= n + 1.
Proof. intros Hn. rewrite Z.rem_mod_nonneg by lia. Z.div_mod_to_equations. lia. Qed.

Lemma onion_len_min n : 0 <= n -> 272 <= onion_len n.
Proof. unfold onion_len, SizeConvoExchange, SizeEncryptedMessage, SizeMessage, onionbox_Overhead, box_Overhead. lia. Qed.

(** The replies of the exchange have the size of an encrypted message. *)
Lemma unmarshal_exchange_size msg : zlen (ce_EncryptedMessage (unmarshal_exchange msg)) = SizeEncryptedMessage.
Proof.
  unfold unmarshal_exchange, ConvoExchange_Unmarshal, binary_Read. case_decide as Hl.
  - cbn [fget exchange_fixed exchange_get ce_EncryptedMessage fsize] in *. unfold zlen.
    rewrite length_drop, length_take. unfold fsize in Hl. cbn in Hl.
    change (Z.to_nat SizeConvoExchange) with 272%nat in *. change SizeEncryptedMessage with 256. lia.
  - by case_decide.
Qed.

Lemma exchange_all_sizes msgs rs ac :
  exchange_all msgs = Ret (rs, ac) -> Forall (fun o => zlen o = SizeEncryptedMessage) rs.
Proof.
  intros He. destruct (exchange_all_spec msgs) as (rs' & ac' & He' & Hl & Hrs & _).
  rewrite He in He'. injection He' as <- <-. apply Forall_lookup. intros i o Ho.
  apply lookup_lt_Some in Ho as Hlt. rewrite Hl in Hlt. destruct (lookup_lt_is_Some_2 _ _ Hlt) as [m Hm].
  set (exs := unmarshal_exchange <$> msgs) in *.
  assert (exs !! i = Some (unmarshal_exchange m)) as Hex by (unfold exs; by rewrite list_lookup_fmap, Hm).
  rewrite (Hrs i _ Hex) in Ho. injection Ho as <-. unfold reply_spec.
  assert (forall ex, ex ∈ exs -> zlen (ce_EncryptedMessage ex) = SizeEncryptedMessage) as Hall.
  { intros ex (m' & -> & _)%list_elem_of_fmap. apply unmarshal_exchange_size. }
  destruct (accesses _ exs 0) as [|j0 [|j1 l]] eqn:Ha.
  - exfalso. eapply (proj2 (accessed_iff (ce_DeadDrop (unmarshal_exchange m)) exs)); [|done].
    apply list_elem_of_fmap. eexists. split; [done|]. by eapply list_elem_of_lookup_2.
  - apply unmarshal_exchange_size.
  - assert ((if decide (Z.of_nat i = j0) then j1 else j0) ∈ accesses (ce_DeadDrop (unmarshal_exchange m)) exs 0) as Hin.
    { rewrite Ha. case_decide; set_solver. }
    apply accesses_spec in Hin as (_ & ex & Hex' & _). rewrite Z.sub_0_r in Hex'. rewrite Hex'.
    apply Hall. by eapply list_elem_of_lookup_2.
Qed.

Section Server.
Context {C R : Type} `{HF : Fuel, HR : Reader R, HFR : !FullReader R, HB : Box, HL : !BoxLaws, HK : !KeyGen R,
  HKL : !KeyGenLaws R, HE : FloatEnv, HC : ConvoRemote C}.
Context (cap : Z) (Hcap : 0 <= cap < 2 ^ 31).
Implicit Types (srv : ConvoService C) (g : R) (rd : ConvoRound).

Lemma server_cfg_config kps srv srv' :
  config srv' = config srv -> server_cfg R cap kps srv -> server_cfg R cap kps srv'.
Proof.
  unfold config, server_cfg, onion_size, reply_size. intros [= -> -> -> -> -> ->]. done.
Qed.

(** [n] noise onions of which the last [nd] come in pairs for one dead drop. *)
Definition noise_ok (kps' : list (BoxKey * BoxKey)) (r ns nd : Z) (noise : list bytes) : Prop :=
  zlen noise = ns + nd /\
  Forall (fun o => exists m, zlen m = SizeConvoExchange /\ carries kps' (ForwardNonce r) o m) (take (Z.to_nat ns) noise) /\
  (forall i, 2 * Z.of_nat i + 1 < nd -> exists o1 o2,
     drop (Z.to_nat ns) noise !! (2 * i)%nat = Some o1 /\ drop (Z.to_nat ns) noise !! (2 * i + 1)%nat = Some o2 /\
     is_double kps' (ForwardNonce r) (o1, o2)).

(** Every onion of it is noise. *)
Lemma noise_ok_all kps' r ns n2 noise :
  0 <= ns -> 0 <= n2 -> noise_ok kps' r ns (n2 + Z.rem n2 2) noise -> Forall (is_noise r (snd <$> kps')) noise.
Proof.
  intros Hns Hn2 (Hl & Hs & Hd). destruct (even_up n2 Hn2) as [He _].
  assert (forall o m, zlen m = SizeConvoExchange -> carries kps' (ForwardNonce r) o m -> is_noise r (snd <$> kps') o) as Hc.
  { intros o m Hm (_ & shared & Hp & _). by exists m, shared. }
  rewrite <- (take_drop (Z.to_nat ns) noise). apply Forall_app. split.
  - eapply Forall_impl; [exact Hs|]. intros o (m & Hm & Hcar). eauto.
  - apply Forall_lookup. intros k o Hk. apply lookup_lt_Some in Hk as Hlt. rewrite length_drop in Hlt. unfold zlen in Hl.
    assert (2 * Z.of_nat (k / 2) + 1 < n2 + Z.rem n2 2) as Hk2.
    { pose proof (Nat.div_mod_eq k 2). pose proof (Nat.mod_upper_bound k 2). lia. }
    destruct (Hd (k / 2)%nat Hk2) as (o1 & o2 & Ho1 & Ho2 & m1 & m2 & Hm1 & Hm2 & _ & Hc1 & Hc2).
    pose proof (Nat.div_mod_eq k 2) as Hdm. pose proof (Nat.mod_upper_bound k 2 ltac:(lia)).
    destruct (k mod 2)%nat as [|[|]]; [| |lia].
    + replace k with (2 * (k / 2))%nat in Hk by lia. rewrite Ho1 in Hk. injection Hk as <-. eauto.
    + replace k with (2 * (k / 2) + 1)%nat in Hk by lia. rewrite Ho2 in Hk. injection Hk as <-. eauto.
Qed.

Lemma new_noise_ok r pk sk kps' srv0 srv g :
  server_cfg R cap ((pk, sk) :: kps') srv0 -> kps' <> [] -> reader_ok g ->
  exists n1 n2 rd g', new_noise r srv0 (srv, g) = Ret (rd, (srv, g')) /\ reader_ok g' /\ fresh_round rd /\
    0 <= n1 <= cap /\ 0 <= n2 <= cap /\ cr_numFakeSingles rd = n1 /\ cr_numFakeDoubles rd = n2 + Z.rem n2 2 /\
    noise_ok kps' r n1 (n2 + Z.rem n2 2) (cr_noise rd) /\
    exists g1 g2, cappedFlooredLaplace fuel (cs_LaplaceMu srv0) (cs_LaplaceB srv0) g = Ret (n1, g1) /\
      cappedFlooredLaplace fuel (cs_LaplaceMu srv0) (cs_LaplaceB srv0) g1 = Ret (n2, g2).
Proof.
  intros (_ & _ & Hkp & _ & _ & Hkeys & Hlive) Hne Hok.
  destruct (Hlive Hne g Hok) as (n1 & g1 & Hn1 & Hr1 & Hok1).
  destruct (Hlive Hne g1 Hok1) as (n2 & g2 & Hn2 & Hr2 & Hok2).
  destruct (even_up n2) as [He Hle]; [lia|]. set (nd := n2 + Z.rem n2 2) in *.
  inversion Hkp as [|? ? _ Hkp']; subst.
  destruct (fill_noise_ok kps' (ForwardNonce r) Hkp' (replicate (Z.to_nat n1) []) (replicate (Z.to_nat nd) []) g2 Hok2)
    as (singles & doubles & g3 & g4 & Hf1 & Hf2 & Hl1 & Hl2 & Hs & Hd & Hok4).
  { rewrite length_replicate. rewrite He, Z2Nat.inj_mul by lia.
    rewrite Nat.mul_comm. apply Nat.Div0.mod_mul. }
  rewrite length_replicate in Hl1, Hl2, Hd.
  exists n1, n2, (mkConvoRound convoRoundNew 0 [] [] [] [] n1 nd (singles ++ doubles)), g4.
  split_and!; try done; try lia.
  - unfold new_noise.
    assert (forall A (m : GoM R A) g a g', m g = Ret (a, g') -> on_rand (C := C) m (srv, g) = Ret (a, (srv, g'))) as Hrand.
    { intros A m g' a g'' Hm. apply on_rand_ret. eauto. }
    rewrite (gbind_eq _ _ _ _ _ (Hrand _ _ _ _ _ Hn1)), (gbind_eq _ _ _ _ _ (Hrand _ _ _ _ _ Hn2)).
    cbn beta zeta. fold nd. rewrite (i64_small nd), i64_small by lia. unfold go_make. rewrite decide_True by lia.
    unfold glift at 1, gbind at 1. rewrite Hkeys. unfold glift at 1, gbind at 1.
    assert (zlen (replicate (A := bytes) (Z.to_nat (n1 + nd)) []) = n1 + nd) as Hz.
    { unfold zlen. rewrite length_replicate. lia. }
    rewrite (proj2 (go_slice_ret _ 0 n1 (replicate (Z.to_nat n1) []))).
    2: { rewrite Hz. split; [lia|]. rewrite drop_0, Z.sub_0_r, take_replicate. f_equal. lia. }
    rewrite (proj2 (go_slice_ret _ n1 _ (replicate (Z.to_nat nd) []))).
    2: { rewrite Hz. split; [lia|]. rewrite drop_replicate, take_replicate. f_equal. lia. }
    unfold glift at 1, gbind at 1. unfold glift at 1, gbind at 1. unfold Keys. rewrite list_fmap_id.
    rewrite (gbind_eq _ _ _ _ _ (Hrand _ _ _ _ _ Hf1)), (gbind_eq _ _ _ _ _ (Hrand _ _ _ _ _ Hf2)). done.
  - cbn [cr_noise]. fold nd. unfold noise_ok. split_and!.
    + unfold zlen. rewrite length_app. lia.
    + rewrite take_app_length' by lia. done.
    + intros i Hi. rewrite drop_app_length' by lia. apply Hd. lia.
  - eauto.
Qed.

(** C28. The cover traffic of a round: at a server that is not the last, [NewRound]
    draws the number of single accesses and then the number of double accesses
    from the configured distribution, rounds the second up to an even number, and
    stores that many onions, each of which the following servers peel to a full
    exchange; the double ones come in pairs with the same dead drop. The lock
    [Idle] is held afterwards, and the round is new and empty otherwise. *)
Theorem NewRound_cover_traffic (r : Z) (pk sk : BoxKey) (kps' : list (BoxKey * BoxKey)) srv g :
  server_cfg R cap ((pk, sk) :: kps') srv -> kps' <> [] -> reader_ok g ->
  cs_Idle srv = false -> cs_rounds srv !! r = None ->
  exists n1 n2 rd g' g1 g2,
    cappedFlooredLaplace fuel (cs_LaplaceMu srv) (cs_LaplaceB srv) g = Ret (n1, g1) /\
    cappedFlooredLaplace fuel (cs_LaplaceMu srv) (cs_LaplaceB srv) g1 = Ret (n2, g2) /\
    NewRound r (srv, g) = Ret (Ok tt, (with_round r rd (set_Idle true srv), g')) /\
    fresh_round rd /\ cr_numFakeSingles rd = n1 /\ cr_numFakeDoubles rd = n2 + Z.rem n2 2 /\
    Z.even (cr_numFakeDoubles rd) = true /\ noise_ok kps' r n1 (cr_numFakeDoubles rd) (cr_noise rd).
Proof.
  intros Hcfg Hne Hok Hidle Hfree.
  destruct (new_noise_ok r pk sk kps' (set_Idle true srv) (set_Idle true srv) g)
    as (n1 & n2 & rd & g' & Hn & Hok' & Hf & H1 & H2 & Hs & Hd & Hno & g1 & g2 & Hl1 & Hl2);
    [by eapply server_cfg_config|done|done|].
  exists n1, n2, rd, g', g1, g2. split_and!; try done; try apply Hf.
  - unfold NewRound, Idle_Lock, gbind at 1. cbn [fst snd]. rewrite Hidle.
    unfold get_srv at 1, gbind at 1. cbn [fst snd cs_rounds set_Idle]. rewrite Hfree.
    destruct Hcfg as (_ & _ & _ & _ & Hlast & _).
    change (cs_LastServer _) with (cs_LastServer srv). rewrite Hlast, bool_decide_false by done.
    by rewrite (gbind_eq _ _ _ _ _ Hn).
  - rewrite Hd. destruct (even_up n2) as [-> _]; [lia|]. by rewrite Z.even_mul.
  - by rewrite Hd.
Qed.

End Server.

(** ** One server's part of the relation *)

Section Hop.
Context {C : Type} `{HB : Box, HL : !BoxLaws}.

Lemma hop_msgs_long r sk sks batch : long_enough (hop_msgs r sk sks batch).
Proof.
  apply Forall_fmap, Forall_forall. intros o _. cbn.
  destruct (slot_msg _ _ _ _) as [m|] eqn:Hm; [|done].
  pose proof (onion_len_min (zlen (sk :: sks)) (zlen_nonneg _)) as Hmin.
  apply slot_msg_length in Hm; [|lia]. unfold onionbox_Overhead, box_Overhead, zlen in *. lia.
Qed.

(** The kept messages are the accepted ones. *)
Lemma filtered_valid incoming valid idx m :
  filtered incoming ∅ 0 valid idx -> m ∈ valid <-> exists i, first_with_key incoming i m.
Proof.
  intros [Hl Hord _ Hslot]. split.
  - intros (k & Hk)%list_elem_of_lookup_1. apply lookup_lt_Some in Hk as Hlt.
    assert (Z.of_nat k ∈ filter (fun z => z <> -1) idx) as [_ (i & Hi)%list_elem_of_lookup_1]%list_elem_of_filter.
    { rewrite Hord. apply elem_of_seqZ. unfold zlen. lia. }
    apply lookup_lt_Some in Hi as Hlti. rewrite Hl in Hlti.
    destruct (lookup_lt_is_Some_2 _ _ Hlti) as [o Ho].
    destruct (Hslot i o Ho) as [(m' & z & -> & Hf & _ & Hz & _ & Hv)|[Hz _]]; [|rewrite Hi in Hz; injection Hz; lia].
    rewrite Hi in Hz. injection Hz as <-. rewrite Z.sub_0_r, Nat2Z.id, Hk in Hv. injection Hv as <-. eauto.
  - intros (i & Hf). destruct (Hslot i (Some m) (proj1 Hf)) as [(m' & z & [= <-] & _ & _ & _ & _ & Hv)|[_ Hn]].
    + by eapply list_elem_of_lookup_2.
    + exfalso. apply (Hn m eq_refl). split; [done|set_solver].
Qed.

(** From the closed round of a server to the relation. [rd2] is the filled round
    after filtering, with replies that agree with [inner_replies] up to the
    permutation [pos]. *)
Lemma filled_hop r sk sks (srv : ConvoService C) onions rd valid idx rd2 pos inner inner_replies replies :
  cs_PrivateKey srv = sk -> onion_size srv = onion_len (zlen (sk :: sks)) ->
  filtered (hop_msgs r sk sks onions) ∅ 0 valid idx ->
  cr_incomingIndex rd2 = idx -> cr_sharedKeys rd2 = cr_sharedKeys (filled srv r onions rd) ->
  (exists noise, inner ≡ₚ valid ++ noise /\ Forall (is_noise r sks) noise /\ (sks = [] -> noise = [])) ->
  (forall i j, pos i = pos j -> i = j) ->
  (forall v m, valid !! v = Some m -> inner !! pos v = Some m /\
     exists rep, inner_replies !! pos v = Some rep /\ cr_replies rd2 !! v = Some rep) ->
  Forall (fun o => zlen o = reply_len (zlen sks)) inner_replies ->
  Forall2 (fun i o => slot_reply rd2 (BackwardNonce r) (reply_len (zlen (sk :: sks))) (Z.to_nat i) o)
    (seqZ 0 (zlen onions)) replies ->
  hop r sk sks onions (fun i => pos (Z.to_nat (nth i idx 0))) inner inner_replies replies.
Proof.
  intros Hsk Hsize Hfil Hidx Hks Hinner Hinj Hval Hsizes Hrep. pose proof Hfil as [Hl _ [Hkeys _] Hslot].
  assert (forall i m, accepted r sk sks onions i m -> exists z, idx !! i = Some z /\ 0 <= z /\
    nth i idx 0 = z /\ valid !! Z.to_nat z = Some m) as Hacc.
  { intros i m Hm. destruct (Hslot i (Some m) (proj1 Hm)) as [(m' & z & [= <-] & _ & _ & Hz & H0 & Hv)|[_ Hn]].
    - exists z. rewrite Z.sub_0_r in Hv. rewrite (nth_lookup_Some _ _ _ _ Hz). done.
    - exfalso. apply (Hn m eq_refl). split; [done|set_solver]. }
  pose proof (Forall2_length _ _ _ Hrep) as Hlr. rewrite length_seqZ in Hlr.
  split.
  - unfold zlen in Hlr. lia.
  - apply Forall_lookup. intros i o Ho. by destruct (Forall2_lookup_r _ _ _ _ _ Hrep Ho) as (? & _ & ? & _).
  - destruct Hinner as (noise & Hp & Hno & Hn0). exists valid, noise. split_and!; try done.
    intros m. apply (filtered_valid _ _ _ _ Hfil).
  - intros i j mi mj Hi Hj Heq. destruct (Hacc i mi Hi) as (zi & _ & Hi0 & Hni & Hvi).
    destruct (Hacc j mj Hj) as (zj & _ & Hj0 & Hnj & Hvj). rewrite Hni, Hnj in Heq. apply Hinj in Heq.
    rewrite Heq, Hvj in Hvi. injection Hvi as ->.
    destruct (Nat.lt_trichotomy i j) as [Hlt|[|Hlt]]; [|done|]; exfalso.
    + by apply (proj2 Hj i mi Hlt (proj1 Hi)).
    + by apply (proj2 Hi j mi Hlt (proj1 Hj)).
  - intros i m Hm. destruct (Hacc i m Hm) as (z & Hz & Hz0 & Hn & Hv). rewrite Hn.
    destruct (Hval _ _ Hv) as (Hin & rep & Hir & Hcr). split; [done|].
    destruct Hm as [Hm _]. unfold hop_msgs in Hm. rewrite list_lookup_fmap in Hm.
    destruct (onions !! i) as [onion|] eqn:Ho; [|done]. cbn in Hm. injection Hm as Hm.
    exists onion, rep. split; [done|]. split; [done|].
    destruct (lookup_lt_is_Some_2 replies i) as [o Hoi].
    { apply lookup_lt_Some in Ho. unfold zlen in Hlr. lia. }
    destruct (Forall2_lookup_r _ _ _ _ _ Hrep Hoi) as (i' & [-> _]%lookup_seqZ & _ & Hsr).
    rewrite Hoi. f_equal. rewrite Z.add_0_l, Nat2Z.id in Hsr.
    apply (Hsr z rep); [by rewrite Hidx|done|done| |].
    + rewrite Hks. cbn. rewrite list_lookup_fmap, Ho. cbn. rewrite Hsk, Hsize. unfold slot_key.
      unfold slot_msg in Hm. by case_decide.
    + rewrite (Forall_lookup_1 _ _ _ _ Hsizes Hir). unfold reply_len, zlen. cbn [length]. lia.
Qed.

End Hop.

(** ** The interface between servers *)

(** A batch small enough that with the noise of all servers it stays below 2^32. *)
Definition batch_ok (cap : Z) (kps : list (BoxKey * BoxKey)) (batch : list bytes) : Prop :=
  zlen batch + zlen kps * (2 * cap + 1) < 2 ^ 32.

(** What running a started round gives: replies as the relation says, or the panic
    of a server that dropped more onions than it had noise. *)
Definition run_post {C} `{Box} (ready : C -> Prop) (r : Z) (kps : list (BoxKey * BoxKey)) (onions : list bytes)
    (o : outcome (result (list bytes) * C)) : Prop :=
  o = Panic slice_panic \/
  exists replies c' hops msgs, o = Ret (Ok replies, c') /\ ready c' /\
    first_batch hops msgs = onions /\ chain_rel r (snd <$> kps) hops msgs replies.

(** What a server promises to the one before it. [ready P c]: the servers are idle
    and none of the rounds in [P] exists on them; [started P r c]: round [r] was
    made on the first of them. *)
Class ChainRemote (C : Type) `{ConvoRemote C, Box} (cap : Z) (kps : list (BoxKey * BoxKey)) := {
  ready : (Z -> Prop) -> C -> Prop;
  started : (Z -> Prop) -> Z -> C -> Prop;
  chain_NewRound : forall P r c, ready P c -> P r ->
    exists c', NewConvoRound r c = Ret (Ok tt, c') /\ started P r c';
  chain_Run : forall P r c onions, started P r c -> batch_ok cap kps onions ->
    run_post (ready P) r kps onions (RunConvoRound r onions c);
}.

Section ServerReady.
Context {C R : Type} `{HF : Fuel, HR : Reader R, HFR : !FullReader R, HLR : !LiveReader R fuel, HB : Box, HL : !BoxLaws, HK : !KeyGen R,
  HKL : !KeyGenLaws R, HE : FloatEnv, HC : ConvoRemote C}.
Context (cap : Z) (Hcap : 0 <= cap < 2 ^ 31).
Context (next_ready : (Z -> Prop) -> C -> Prop).
Implicit Types (srv : ConvoService C) (g : R) (rd : ConvoRound) (P : Z -> Prop).

Definition server_ready (kps : list (BoxKey * BoxKey)) P (s : cstate C R) : Prop :=
  server_cfg R cap kps s.1 /\ cs_Idle s.1 = false /\ (forall r, P r -> cs_rounds s.1 !! r = None) /\
  reader_ok s.2 /\ next_ready P (cs_Client s.1).

Definition server_started (kps : list (BoxKey * BoxKey)) P (r : Z) (s : cstate C R) : Prop :=
  server_cfg R cap kps s.1 /\ cs_Idle s.1 = true /\ P r /\
  (forall r', P r' -> r' <> r -> cs_rounds s.1 !! r' = None) /\
  (exists rd, cs_rounds s.1 !! r = Some rd /\ fresh_round rd /\ zlen (cr_noise rd) <= 2 * cap + 1 /\
     Forall (is_noise r (snd <$> tail kps)) (cr_noise rd)) /\
  reader_ok s.2 /\ next_ready P (cs_Client s.1).

Lemma NewRound_started kps P r s :
  server_ready kps P s -> P r ->
  exists s', NewRound r s = Ret (Ok tt, s') /\ server_started kps P r s'.
Proof using Hcap HKL.
  destruct s as [srv g]. intros (Hcfg & Hidle & Hfree & Hok & Hnext) HP. cbn [fst snd] in *.
  destruct kps as [|[pk sk] kps']; [by destruct Hcfg as (_ & _ & _ & [])|].
  set (srv1 := set_Idle true srv).
  assert (exists rd g', (if cs_LastServer srv1 then gret empty_round else new_noise r srv1) (srv1, g) =
    Ret (rd, (srv1, g')) /\ fresh_round rd /\ (zlen (cr_noise rd) <= 2 * cap + 1 /\
    Forall (is_noise r (snd <$> kps')) (cr_noise rd)) /\ reader_ok g') as (rd & g' & Hrd & Hf & Hn & Hok').
  { pose proof Hcfg as (_ & _ & _ & _ & Hlast & _). cbn. rewrite Hlast. case_bool_decide as He.
    - exists empty_round, g. split_and!; [done..|change (zlen (cr_noise empty_round)) with 0; lia|constructor|done].
    - destruct (new_noise_ok cap Hcap r pk sk kps' srv1 srv1 g) as (n1 & n2 & rd & g' & Hr & Hok' & Hf & H6 & H7 & _ & _ & Hz & _);
        [by eapply server_cfg_config|done|done|]. exists rd, g'.
      split_and!; [done|done| |by eapply noise_ok_all; [..|exact Hz]; lia|done]. destruct Hz as [Hz _].
      pose proof (even_up n2 ltac:(lia)). lia. }
  exists (with_round r rd srv1, g'). split.
  - unfold NewRound, Idle_Lock, gbind at 1. cbn [fst snd]. rewrite Hidle.
    unfold get_srv at 1, gbind at 1. cbn [fst snd]. fold srv1. cbn [cs_rounds srv1 set_Idle].
    rewrite (Hfree r HP). by rewrite (gbind_eq _ _ _ _ _ Hrd).
  - split_and!; try done.
    + intros r' HP' Hne. cbn. rewrite lookup_insert_ne by done. by apply Hfree.
    + exists rd. split; [apply with_round_lookup|done].
Qed.

(** [Close] of a filled round reaches the branch with the filtered round. *)
Lemma Close_filled pk sk kps' r srv g onions rd :
  server_cfg R cap ((pk, sk) :: kps') srv ->
  exists valid idx, filtered (hop_msgs r sk (snd <$> kps') onions) ∅ 0 valid idx /\
  let rd1 := mkConvoRound convoRoundOpen (zlen onions) (cr_sharedKeys (filled srv r onions rd)) (Some <$> valid) idx
               (cr_replies rd) (cr_numFakeSingles rd) (cr_numFakeDoubles rd) (cr_noise rd) in
  Close r (with_round r (filled srv r onions rd) srv, g) =
  (if cs_LastServer srv then close_last r rd1 else close_forward r rd1) (with_round r rd1 srv, g).
Proof using HL.
  intros (Hsize & _ & _ & Hsk & _). set (rd0 := filled srv r onions rd).
  assert (cr_incoming rd0 = hop_msgs r sk (snd <$> kps') onions) as Hmsgs.
  { cbn. unfold hop_msgs. rewrite Hsk, Hsize. unfold zlen. cbn [length]. by rewrite length_fmap. }
  destruct (filter_loop_ok (cr_incoming rd0) ∅ 0) as (valid & idx & Hf & Hfil).
  { lia. }
  { rewrite Hmsgs. apply hop_msgs_long. }
  exists valid, idx. rewrite <- Hmsgs. split; [done|]. cbn zeta. unfold Close.
  rewrite (gbind_eq _ _ _ _ _ (getRound_ok r convoRoundOpen (with_round r rd0 srv) g rd0
    (with_round_lookup _ _ _) eq_refl)). cbn [on_ok].
  unfold filterIncoming. rewrite Hf. unfold glift at 1, gbind at 1. cbn [mbind outcome_bind fst snd].
  unfold put_round, put_srv at 1, gbind at 1. cbn [fst snd].
  unfold get_srv at 1, gbind at 1. cbn [fst snd].
  set (rd1 := mkConvoRound _ _ _ _ _ _ _ _ _).
  pose proof (with_round_twice r rd0 rd1 srv) as Htw. unfold with_round at 1 in Htw.
  cbn [cs_LastServer with_round set_rounds] in *. by rewrite Htw.
Qed.

(** A filtered batch with enough replies can be read. *)
Lemma filtered_closed_ok r sk sks srv onions rd valid idx rd2 :
  filtered (hop_msgs r sk sks onions) ∅ 0 valid idx ->
  cr_incomingIndex rd2 = idx -> cr_sharedKeys rd2 = cr_sharedKeys (filled srv r onions rd) ->
  cr_numIncoming rd2 = zlen onions -> zlen valid <= zlen (cr_replies rd2) -> closed_ok rd2.
Proof.
  intros [Hl _ _ Hslot] Hidx Hks Hn Hrep. unfold hop_msgs in Hl. rewrite length_fmap in Hl. split.
  - rewrite Hidx, Hn. unfold zlen. lia.
  - intros i v Hv. rewrite Hidx in Hv. apply lookup_lt_Some in Hv as Hlt. rewrite Hl in Hlt.
    destruct (lookup_lt_is_Some_2 onions i Hlt) as [onion Ho].
    destruct (Hslot i (slot_msg sk (ForwardNonce r) (onion_len (zlen (sk :: sks))) onion))
      as [(m & z & _ & _ & _ & Hz & H0 & Hval)|[Hz _]].
    { unfold hop_msgs. by rewrite list_lookup_fmap, Ho. }
    + right. rewrite Hv in Hz. injection Hz as <-. split; [done|]. rewrite Z.sub_0_r in Hval.
      apply lookup_lt_Some in Hval.
      destruct (lookup_lt_is_Some_2 (cr_replies rd2) (Z.to_nat v)) as [rep Hrp]; [unfold zlen in *; lia|].
      eexists rep, _. split; [done|]. rewrite Hks. cbn. by rewrite list_lookup_fmap, Ho.
    + left. congruence.
Qed.

(** A round that closed is read and deleted. *)
Lemma finish_round pk sk kps' r srv g onions rd valid idx srv2 g2 rd2 pos inner inner_replies :
  server_cfg R cap ((pk, sk) :: kps') srv -> cs_rounds srv !! r = Some rd -> cr_status rd = convoRoundNew ->
  zlen onions < 2 ^ 32 ->
  filtered (hop_msgs r sk (snd <$> kps') onions) ∅ 0 valid idx ->
  Close r (with_round r (filled srv r onions rd) srv, g) = Ret (Ok tt, (srv2, g2)) ->
  config srv2 = config srv -> reader_ok g2 ->
  cs_rounds srv2 !! r = Some rd2 -> cr_status rd2 = convoRoundClosed ->
  cr_incomingIndex rd2 = idx -> cr_sharedKeys rd2 = cr_sharedKeys (filled srv r onions rd) ->
  cr_numIncoming rd2 = zlen onions -> zlen valid <= zlen (cr_replies rd2) ->
  (exists noise, inner ≡ₚ valid ++ noise /\ Forall (is_noise r (snd <$> kps')) noise /\ ((snd <$> kps') = [] -> noise = [])) ->
  (forall i j, pos i = pos j -> i = j) ->
  (forall v m, valid !! v = Some m -> inner !! pos v = Some m /\
     exists rep, inner_replies !! pos v = Some rep /\ cr_replies rd2 !! v = Some rep) ->
  Forall (fun o => zlen o = reply_len (zlen (snd <$> kps'))) inner_replies ->
  exists replies g3, RunConvoRound r onions (srv, g) = Ret (Ok replies, (delete_round r srv2, g3)) /\
    reader_ok g3 /\
    hop r sk (snd <$> kps') onions (fun i => pos (Z.to_nat (nth i idx 0))) inner inner_replies replies.
Proof.
  intros Hcfg Hr Hs Hlt Hfil Hclose Hconf Hok Hr2 Hs2 Hidx Hks Hn Hrep Hinner Hinj Hval Hsizes.
  assert (zlen (sk :: (snd <$> kps')) = zlen ((pk, sk) :: kps')) as Hz.
  { unfold zlen. cbn [length]. by rewrite length_fmap. }
  pose proof (server_cfg_config cap _ _ _ Hconf Hcfg) as (_ & Hrs2 & _).
  destruct Hcfg as (Hsize & _ & _ & Hsk & _). rewrite <- Hz in Hsize, Hrs2.
  pose proof (filtered_closed_ok _ _ _ _ _ _ _ _ _ Hfil Hidx Hks Hn Hrep) as Hcl.
  assert (0 <= reply_size srv2) as Hpos by (pose proof (onion_size_min srv2); lia).
  destruct (get_onions_ok rd2 (BackwardNonce r) (reply_size srv2) 0 (zlen onions) srv2 g2 Hcl Hpos)
    as (replies & g3 & Hget & Hf2 & Hok3); [lia|lia|done|].
  exists replies, g3. split_and!; [|done|].
  - eapply RunConvoRound_eq; [done|done|lia|done..].
  - rewrite Hrs2 in Hf2. eapply filled_hop; done.
Qed.

Lemma default_Some (l : list bytes) : (fun m : option bytes => default [] m) <$> (Some <$> l) = l.
Proof. rewrite <- list_fmap_compose. apply list_fmap_id. Qed.

(** After the round the server is ready again. *)
Lemma ready_again kps P r srv srv2 g3 :
  server_cfg R cap kps srv -> (forall r', P r' -> r' <> r -> cs_rounds srv !! r' = None) ->
  config srv2 = config srv -> cs_Idle srv2 = false ->
  (forall r', r' <> r -> cs_rounds srv2 !! r' = cs_rounds srv !! r') ->
  reader_ok g3 -> next_ready P (cs_Client srv2) ->
  server_ready kps P (delete_round r srv2, g3).
Proof.
  intros Hcfg Hfree Hconf Hidle Hsame Hok Hnext. split_and!; try done.
  - eapply server_cfg_config; [|exact Hcfg]. done.
  - intros r' HP. cbn. destruct (decide (r' = r)) as [->|Hne]; [by rewrite lookup_delete_eq|].
    rewrite lookup_delete_ne, Hsame by done. by apply Hfree.
Qed.

Lemma Run_last pk sk P r s onions :
  server_started [(pk, sk)] P r s -> zlen onions < 2 ^ 32 ->
  run_post (server_ready [(pk, sk)] P) r [(pk, sk)] onions (RunConvoRound r onions s).
Proof.
  destruct s as [srv g]. intros (Hcfg & Hidle & HP & Hfree & (rd & Hr & Hf & Hnoise & Hnall) & Hok & Hnext) Hlt.
  cbn [fst snd] in *. right.
  destruct (Close_filled pk sk [] r srv g onions rd Hcfg) as (valid & idx & Hfil & Hclose).
  cbn zeta in Hclose. set (rd1 := mkConvoRound convoRoundOpen _ _ _ _ _ _ _ _) in Hclose.
  pose proof Hcfg as (_ & _ & _ & _ & Hlast & _). rewrite Hlast in Hclose. cbn [bool_decide decide_rel] in Hclose.
  rewrite bool_decide_true in Hclose by done.
  destruct (exchange_all_spec valid) as (rs & ac & He & Hl & _).
  set (srv2 := with_round r (closed_round rd1 (cr_noise rd1) rs convoRoundClosed)
                 (send_AccessCount ac (set_Idle false (with_round r rd1 srv)))).
  assert (close_last r rd1 (with_round r rd1 srv, g) = Ret (Ok tt, (srv2, g))) as Hcl.
  { unfold close_last. change (cr_incoming rd1) with (Some <$> valid). rewrite default_Some, He.
    unfold glift at 1, gbind at 1. unfold Idle_Unlock, gbind at 1. cbn [fst snd cs_Idle with_round set_rounds].
    rewrite Hidle. done. }
  rewrite Hcl in Hclose. destruct (send_AccessCount_same ac (set_Idle false (with_round r rd1 srv))) as (Hc1 & Hc2 & Hc3).
  assert (forall r', r' <> r -> cs_rounds srv2 !! r' = cs_rounds srv !! r') as Hsame.
  { intros r' Hne. unfold srv2. cbn. rewrite lookup_insert_ne, Hc2 by done. cbn. by rewrite lookup_insert_ne. }
  destruct (finish_round pk sk [] r srv g onions rd valid idx srv2 g
    (closed_round rd1 (cr_noise rd1) rs convoRoundClosed) (fun i => i) valid rs)
    as (replies & g3 & Hrun & Hok3 & Hhop); try done.
  { by apply Hf. }
  { apply with_round_lookup. }
  { cbn. unfold zlen. lia. }
  { exists []. split_and!; [by rewrite app_nil_r|constructor|done]. }
  { intros v m Hv. split; [done|]. destruct (lookup_lt_is_Some_2 rs v) as [rep Hrep]; [|eauto].
    rewrite Hl. by eapply lookup_lt_Some. }
  { by apply (exchange_all_sizes valid rs ac). }
  exists replies, (delete_round r srv2, g3), [(onions, fun i => Z.to_nat (nth i idx 0))], valid.
  split_and!; [done| |done|].
  - eapply ready_again; try done. unfold srv2. cbn. unfold send_AccessCount. by case_decide.
  - cbn. exists rs. split; [done|by exists ac].
Qed.

End ServerReady.

(** ** A server in front of a chain *)

Lemma chain_rel_replies `{Box} r sks hops msgs replies :
  chain_rel r sks hops msgs replies ->
  length replies = length (first_batch hops msgs) /\ Forall (fun o => zlen o = reply_len (zlen sks)) replies.
Proof.
  destruct sks as [|sk sks], hops as [|[batch pos] hops]; cbn [chain_rel first_batch]; [|done..|].
  - intros [ac He]. split; [|by eapply exchange_all_sizes].
    destruct (exchange_all_spec msgs) as (rs & ac' & He' & Hl & _). congruence.
  - intros (inner & [Hl Hs _ _ _] & _). done.
Qed.

Lemma filtered_length incoming valid idx : filtered incoming ∅ 0 valid idx -> (length valid <= length incoming)%nat.
Proof.
  intros [Hl Hord _ _]. apply (f_equal length) in Hord. rewrite length_seqZ in Hord. unfold zlen in Hord.
  rewrite Nat2Z.id in Hord. rewrite <- Hord, <- Hl. apply length_filter.
Qed.

Section Forward.
Context {C R : Type} `{HF : Fuel, HR : Reader R, HFR : !FullReader R, HLR : !LiveReader R fuel, HB : Box, HL : !BoxLaws, HK : !KeyGen R,
  HKL : !KeyGenLaws R, HE : FloatEnv, HC : ConvoRemote C}.
Context (cap : Z) (Hcap : 0 <= cap < 2 ^ 31) (kps' : list (BoxKey * BoxKey)) (Hne : kps' <> []).
Context {HN : ChainRemote C cap kps'}.
Implicit Types (srv : ConvoService C) (g : R) (rd : ConvoRound) (P : Z -> Prop).

(** The branch of [Close] for a server that is not the last, up to [RunConvoRound]. *)
Lemma close_forward_to_run P r rd1 valid srv g :
  cr_incoming rd1 = Some <$> valid -> zlen valid + zlen (cr_noise rd1) < 2 ^ 32 ->
  cs_Idle srv = true -> P r -> reader_ok g -> ready P (cs_Client srv) ->
  exists sh rd1' c1 g2, let inner := shuf sh (length sh) (valid ++ cr_noise rd1) in
    reader_ok g2 /\ started P r c1 /\ shuffler_ok sh /\ length sh = length (valid ++ cr_noise rd1) /\
    same_slots rd1 rd1' /\
    close_forward r rd1 (srv, g) =
    (let! err := on_client (RunConvoRound r inner) in
     on_ok err (fun e => "RunConvoRound: " +:+ e) (fun replies =>
     let! replies := glift (Unshuffle sh replies) in
     let! replies := glift (go_slice replies 0 (cr_numIncoming rd1)) in
     put_round r (closed_round rd1' [] replies convoRoundClosed) ;;;
     gret (Ok tt)))%go (set_Idle false (set_Client c1 (with_round r rd1' srv)), g2).
Proof using HLR.
  intros Hinc Hlt Hidle HP Hok Hready. set (out := valid ++ cr_noise rd1).
  destruct (NewShuffler_ret (zlen out) g) as (sh & g2 & Hsh & Hsok & Hsl & Hok2); [done| |].
  { unfold out. rewrite zlen_app. pose proof (zlen_nonneg valid). pose proof (zlen_nonneg (cr_noise rd1)). lia. }
  assert (length sh = length out) as Hlen by (unfold zlen in Hsl; lia).
  set (inner := shuf sh (length sh) out).
  set (rd1' := alias_incoming (closed_round rd1 [] (cr_replies rd1) (cr_status rd1)) inner).
  assert (same_slots rd1 rd1') as Hss.
  { apply (alias_incoming_same (closed_round rd1 [] (cr_replies rd1) (cr_status rd1)) inner). }
  destruct (chain_NewRound P r (cs_Client srv) Hready HP) as (c1 & Hnew & Hstarted).
  exists sh, rd1', c1, g2. cbn zeta. split_and!; try done; [apply Hss..|].
  unfold close_forward. rewrite Hinc, default_Some. fold out.
  rewrite (gbind_eq _ _ _ sh (srv, g2)) by (apply on_rand_ret; eauto).
  rewrite Shuffle_shuf by (done || lia). unfold glift at 1, gbind at 1. cbn zeta.
  rewrite <- Hlen. fold inner. fold rd1'.
  unfold put_round at 1, put_srv at 1, gbind at 1. cbn [fst snd].
  change (set_rounds (<[r:=rd1']> (cs_rounds srv)) srv) with (with_round r rd1' srv).
  rewrite (gbind_eq _ _ _ (Ok tt) (set_Client c1 (with_round r rd1' srv), g2)) by (apply on_client_ret; eauto).
  cbn [on_ok]. unfold Idle_Unlock at 1, gbind at 1. cbn [fst snd cs_Idle set_Client with_round set_rounds].
  rewrite Hidle. destruct Hss as (-> & _). done.
Qed.

(** The branch, with the next server keeping its promise. *)
Lemma close_forward_ok P r rd1 valid srv g :
  cr_incoming rd1 = Some <$> valid ->
  zlen valid + zlen (cr_noise rd1) < 2 ^ 32 -> 0 <= cr_numIncoming rd1 ->
  batch_ok cap kps' (valid ++ cr_noise rd1) ->
  cs_Idle srv = true -> P r -> reader_ok g -> ready P (cs_Client srv) ->
  close_forward r rd1 (srv, g) = Panic slice_panic \/
  exists sh inner_replies hops msgs rd2 c2 g2,
    close_forward r rd1 (srv, g) = Ret (Ok tt, (with_round r rd2 (set_Client c2 (set_Idle false srv)), g2)) /\
    reader_ok g2 /\ ready P c2 /\ shuffler_ok sh /\ length sh = length (valid ++ cr_noise rd1) /\
    first_batch hops msgs = shuf sh (length sh) (valid ++ cr_noise rd1) /\
    chain_rel r (snd <$> kps') hops msgs inner_replies /\
    cr_status rd2 = convoRoundClosed /\ same_slots rd1 rd2 /\
    cr_numIncoming rd1 <= zlen inner_replies /\
    cr_replies rd2 = take (Z.to_nat (cr_numIncoming rd1)) (unshuf sh (length sh) inner_replies).
Proof using HLR.
  intros Hinc Hlt Hn Hb Hidle HP Hok Hready.
  destruct (close_forward_to_run P r rd1 valid srv g Hinc Hlt Hidle HP Hok Hready)
    as (sh & rd1' & c1 & g2 & Hok2 & Hstarted & Hsok & Hlen & Hss & ->).
  set (out := valid ++ cr_noise rd1) in *. set (inner := shuf sh (length sh) out).
  assert (batch_ok cap kps' inner) as Hbi.
  { unfold batch_ok, inner, zlen in *. by rewrite shuf_length. }
  destruct (chain_Run P r c1 inner Hstarted Hbi) as [Hpanic|(replies & c2 & hops & msgs & Hrun & Hready2 & Hfb & Hrel)].
  { left. unfold gbind at 1, on_client, gzoom. cbn [fst cs_Client set_Idle set_Client]. by rewrite Hpanic. }
  rewrite (gbind_eq _ _ _ (Ok replies) (set_Client c2 (set_Idle false (set_Client c1 (with_round r rd1' srv))), g2))
    by (apply on_client_ret; eauto). cbn [on_ok].
  destruct (chain_rel_replies _ _ _ _ _ Hrel) as [Hrl _]. rewrite Hfb in Hrl.
  assert (length replies = length sh) as Hrl' by (rewrite Hrl; unfold inner; rewrite shuf_length; lia).
  rewrite Unshuffle_unshuf by (done || lia). rewrite Hrl'.
  rewrite (gbind_eq _ _ _ (unshuf sh (length sh) replies) _ eq_refl).
  destruct (decide (cr_numIncoming rd1 <= zlen replies)) as [Hle|Hgt].
  - right. rewrite (proj2 (go_slice_ret (unshuf sh (length sh) replies) 0 (cr_numIncoming rd1)
      (take (Z.to_nat (cr_numIncoming rd1)) (unshuf sh (length sh) replies)))).
    2: { unfold zlen. rewrite unshuf_length, drop_0, Z.sub_0_r. unfold zlen in Hle. split; [lia|done]. }
    exists sh, replies, hops, msgs,
      (closed_round rd1' [] (take (Z.to_nat (cr_numIncoming rd1)) (unshuf sh (length sh) replies)) convoRoundClosed), c2, g2.
    split_and!; try done; try apply Hss.
    unfold glift, put_round, put_srv, gbind, gret. cbn [fst snd].
    unfold with_round, set_rounds, set_Client, set_Idle. cbn. by rewrite insert_insert_eq.
  - left. unfold go_slice. rewrite decide_False; [done|]. unfold zlen in *. rewrite unshuf_length. lia.
Qed.

Lemma Run_forward pk sk P r (s : cstate C R) onions :
  server_started cap ready ((pk, sk) :: kps') P r s -> batch_ok cap ((pk, sk) :: kps') onions ->
  run_post (server_ready cap ready ((pk, sk) :: kps') P) r ((pk, sk) :: kps') onions (RunConvoRound r onions s).
Proof using Hcap HLR Hne.
  destruct s as [srv g]. intros (Hcfg & Hidle & HP & Hfree & (rd & Hr & Hf & Hnoise & Hnall) & Hok & Hnext) Hb.
  cbn [fst snd] in *. unfold batch_ok in Hb.
  assert (zlen ((pk, sk) :: kps') = zlen kps' + 1) as Hz by (unfold zlen; cbn [length]; lia).
  pose proof (zlen_nonneg kps') as Hk0. pose proof (zlen_nonneg onions) as Ho0.
  destruct (Close_filled cap pk sk kps' r srv g onions rd Hcfg) as (valid & idx & Hfil & Hclose).
  cbn zeta in Hclose. set (rd1 := mkConvoRound convoRoundOpen _ _ _ _ _ _ _ _) in Hclose.
  pose proof Hcfg as (_ & _ & _ & _ & Hlast & _). rewrite Hlast, bool_decide_false in Hclose by done.
  pose proof (filtered_length _ _ _ Hfil) as Hvl. unfold hop_msgs in Hvl. rewrite length_fmap in Hvl.
  assert (zlen valid <= zlen onions) as Hvl' by (unfold zlen; lia).
  destruct (close_forward_ok P r rd1 valid (with_round r rd1 srv) g) as
    [Hpanic|(sh & ireps & hops & msgs & rd2 & c2 & g2 & Hcl & Hok2 & Hready2 & Hsok & Hsl & Hfb & Hrel & Hst2 & Hss & Hle & Hreps)];
    try done.
  { change (cr_noise rd1) with (cr_noise rd). nia. }
  { unfold batch_ok. rewrite zlen_app. change (cr_noise rd1) with (cr_noise rd). nia. }
  { left. rewrite Hpanic in Hclose. eapply RunConvoRound_panic; [done|by apply Hf|lia|done]. }
  rewrite Hcl in Hclose. right. destruct Hss as (Hs1 & Hs2 & Hs3).
  change (cr_noise rd1) with (cr_noise rd) in *. change (cr_numIncoming rd1) with (zlen onions) in *.
  destruct (chain_rel_replies _ _ _ _ _ Hrel) as [Hrl Hsizes]. rewrite Hfb, shuf_length in Hrl.
  set (srv2 := with_round r rd2 (set_Client c2 (set_Idle false (with_round r rd1 srv)))) in Hclose.
  destruct (finish_round cap pk sk kps' r srv g onions rd valid idx srv2 g2 rd2 (shuf_pos sh (length sh))
    (first_batch hops msgs) ireps) as (replies & g3 & Hrun & Hok3 & Hhop); try done.
  { by apply Hf. }
  { nia. }
  { apply with_round_lookup. }
  { rewrite Hreps. unfold zlen in *. rewrite length_take, unshuf_length. lia. }
  { exists (cr_noise rd). split_and!; [|done|].
    - rewrite Hfb. apply shuf_perm; [done|lia].
    - intros Hnil. exfalso. apply Hne. by apply fmap_nil_inv in Hnil. }
  { intros i j. apply shuf_pos_inj. }
  { intros v m Hv. apply lookup_lt_Some in Hv as Hvlt. rewrite Hfb, lookup_shuf by (done || lia).
    split; [by apply lookup_app_l_Some|].
    destruct (lookup_lt_is_Some_2 (unshuf sh (length sh) ireps) v) as [rep Hrep].
    { rewrite unshuf_length, Hrl, length_app. lia. }
    exists rep. split.
    - rewrite <- lookup_unshuf by (done || lia). done.
    - rewrite Hreps. apply lookup_take_Some. split; [done|]. unfold zlen. lia. }
  exists replies, (delete_round r srv2, g3),
    ((onions, fun i => shuf_pos sh (length sh) (Z.to_nat (nth i idx 0))) :: hops), msgs.
  split_and!; [done| |done|].
  - eapply ready_again; try done. intros r' Hner. cbn. by rewrite !lookup_insert_ne by done.
  - cbn. exists ireps. done.
Qed.

(** A batch in which no onion is accepted and which is larger than the noise. *)
Lemma Run_forward_starved pk sk P r (s : cstate C R) onions :
  server_started cap ready ((pk, sk) :: kps') P r s -> batch_ok cap ((pk, sk) :: kps') onions ->
  (forall onion, onion ∈ onions -> zlen onion <> onion_len (zlen ((pk, sk) :: kps'))) ->
  2 * cap + 1 < zlen onions ->
  RunConvoRound r onions s = Panic slice_panic.
Proof using Hcap HLR HKL Hne.
  destruct s as [srv g]. intros (Hcfg & Hidle & HP & Hfree & (rd & Hr & Hf & Hnoise & Hnall) & Hok & Hnext) Hb Hbad Hmany.
  cbn [fst snd] in *. unfold batch_ok in Hb.
  assert (zlen ((pk, sk) :: kps') = zlen kps' + 1) as Hz by (unfold zlen; cbn [length]; lia).
  pose proof (zlen_nonneg kps') as Hk0. pose proof (zlen_nonneg (cr_noise rd)) as Hn0.
  destruct (Close_filled cap pk sk kps' r srv g onions rd Hcfg) as (valid & idx & Hfil & Hclose).
  assert (valid = []) as ->.
  { destruct valid as [|m valid]; [done|]. exfalso.
    destruct (proj1 (filtered_valid _ _ _ m Hfil)) as (i & Hi & _); [set_solver|].
    unfold hop_msgs in Hi. rewrite list_lookup_fmap in Hi.
    destruct (onions !! i) as [onion|] eqn:Ho; [|done]. cbn in Hi. injection Hi as Hi.
    unfold slot_msg in Hi. case_decide as Hsz; [|done].
    apply (Hbad onion); [by eapply list_elem_of_lookup_2|]. rewrite Hsz. f_equal. unfold zlen. cbn [length].
    by rewrite length_fmap. }
  cbn zeta in Hclose. set (rd1 := mkConvoRound convoRoundOpen _ _ _ _ _ _ _ _) in Hclose.
  pose proof Hcfg as (_ & _ & _ & _ & Hlast & _). rewrite Hlast, bool_decide_false in Hclose by done.
  destruct (close_forward_ok P r rd1 [] (with_round r rd1 srv) g) as
    [Hpanic|(sh & ireps & hops & msgs & rd2 & c2 & g2 & _ & _ & _ & _ & Hsl & Hfb & Hrel & _ & _ & Hle & _)];
    try done.
  { change (cr_noise rd1) with (cr_noise rd). change (zlen []) with 0. lia. }
  { apply zlen_nonneg. }
  { unfold batch_ok. cbn [app]. change (cr_noise rd1) with (cr_noise rd). nia. }
  { rewrite Hpanic in Hclose. eapply RunConvoRound_panic; [done|by apply Hf|lia|done]. }
  exfalso. destruct (chain_rel_replies _ _ _ _ _ Hrel) as [Hrl _]. rewrite Hfb, shuf_length in Hrl.
  change (cr_numIncoming rd1) with (zlen onions) in Hle. change (cr_noise rd1) with (cr_noise rd) in *.
  cbn [app] in *. unfold zlen in *. lia.
Qed.

(** A server in front of a chain that keeps the promise keeps it. *)
#[export] Instance forward_chain pk sk : ChainRemote (cstate C R) cap ((pk, sk) :: kps') := {|
  ready := server_ready cap ready ((pk, sk) :: kps');
  started := server_started cap ready ((pk, sk) :: kps');
  chain_NewRound := NewRound_started cap Hcap ready ((pk, sk) :: kps');
  chain_Run P r s onions := Run_forward pk sk P r s onions |}.

End Forward.

Section Last.
Context {C R : Type} `{HF : Fuel, HR : Reader R, HFR : !FullReader R, HLR : !LiveReader R fuel, HB : Box, HL : !BoxLaws, HK : !KeyGen R,
  HKL : !KeyGenLaws R, HE : FloatEnv, HC : ConvoRemote C}.
Context (cap : Z) (Hcap : 0 <= cap < 2 ^ 31).

Lemma batch_ok_small kp onions : batch_ok cap [kp] onions -> zlen onions < 2 ^ 32.
Proof using Hcap. unfold batch_ok. change (zlen [kp]) with 1. lia. Qed.

(** The last server keeps the promise, whatever its [Client] is. *)
#[export] Instance last_chain pk sk : ChainRemote (cstate C R) cap [(pk, sk)] := {|
  ready := server_ready cap (fun _ _ => True) [(pk, sk)];
  started := server_started cap (fun _ _ => True) [(pk, sk)];
  chain_NewRound := NewRound_started cap Hcap (fun _ _ => True) [(pk, sk)];
  chain_Run P r s onions Hs Hb := Run_last cap (fun _ _ => True) pk sk P r s onions Hs (batch_ok_small (pk, sk) onions Hb) |}.

End Last.

(** ** Chains of any length *)

(** The last server has no next server: its [Client] is nil. *)
#[export] Instance nil_remote : ConvoRemote unit := {|
  rpc_NewRound _ := glift (Panic nil_panic);
  rpc_Open _ := glift (Panic nil_panic);
  rpc_Add _ := glift (Panic nil_panic);
  rpc_Close _ := glift (Panic nil_panic);
  rpc_Get _ := glift (Panic nil_panic);
  rpc_Delete _ := glift (Panic nil_panic);
|}.

(** [n] servers in front of the last one. *)
Fixpoint chain (R : Type) (n : nat) : Type :=
  match n with
  | O => cstate unit R
  | S n' => cstate (chain R n') R
  end.

Section Chain.
Context {R : Type} `{HF : Fuel, HR : Reader R, HFR : !FullReader R, HLR : !LiveReader R fuel, HB : Box, HL : !BoxLaws, HK : !KeyGen R,
  HKL : !KeyGenLaws R, HE : FloatEnv}.
Context (cap : Z).

#[export] Instance chain_remote : forall n, ConvoRemote (chain R n) :=
  fix go n := match n with
              | O => ConvoService_remote (C := unit)
              | S n' => @ConvoService_remote (chain R n') R _ _ _ _ _ (go n')
              end.

(** Every server of the chain is well configured, idle, and has none of the rounds
    in [P]. *)
Fixpoint chain_ready (n : nat) (kps : list (BoxKey * BoxKey)) (P : Z -> Prop) : chain R n -> Prop :=
  match n with
  | O => server_ready cap (fun _ _ => True) kps P
  | S n' => server_ready cap (chain_ready n' (tail kps)) kps P
  end.

Lemma server_ready_ext {C} (next next' : (Z -> Prop) -> C -> Prop) kps P (s : cstate C R) :
  (forall c, next P c <-> next' P c) -> server_ready cap next kps P s <-> server_ready cap next' kps P s.
Proof. intros Hn. unfold server_ready. by rewrite Hn. Qed.

Lemma chain_promise n kps :
  0 <= cap < 2 ^ 31 -> length kps = S n ->
  exists inst : ChainRemote (chain R n) cap kps, forall P c, @ready _ _ _ _ _ inst P c <-> chain_ready n kps P c.
Proof using HKL HLR.
  intros Hcap. revert kps. induction n as [|n IH]; intros [|[pk sk] kps'] [= Hl].
  - apply nil_length_inv in Hl as ->. by exists (last_chain cap Hcap pk sk).
  - destruct (IH kps' Hl) as [inst Hinst]. assert (kps' <> []) as Hne by (by intros ->).
    exists (forward_chain cap Hcap kps' Hne pk sk). intros P c.
    apply server_ready_ext. intros c'. apply Hinst.
Qed.

(** A round of the whole chain, in terms of the relation. *)
Lemma chain_round_rel n kps P r (c : chain R n) onions :
  0 <= cap < 2 ^ 31 -> length kps = S n -> chain_ready n kps P c -> P r -> batch_ok cap kps onions ->
  exists c1, NewConvoRound r c = Ret (Ok tt, c1) /\ run_post (chain_ready n kps P) r kps onions (RunConvoRound r onions c1).
Proof using HKL HLR.
  intros Hcap Hl Hready HP Hb. destruct (chain_promise n kps Hcap Hl) as [inst Hinst].
  destruct (chain_NewRound P r c) as (c1 & Hnew & Hst); [by apply Hinst|done|].
  exists c1. split; [done|]. destruct (chain_Run P r c1 onions Hst Hb) as [Hp|(rs & c2 & hops & msgs & H1 & H2 & H3 & H4)].
  - by left.
  - right. exists rs, c2, hops, msgs. split_and!; try done. by apply Hinst.
Qed.

Lemma convo_round_ok (n : nat) (kps : list (BoxKey * BoxKey)) (P : Z -> Prop) (r : Z)
    (c : chain R n) (onions : list bytes) :
  0 <= cap < 2 ^ 31 -> length kps = S n -> chain_ready n kps P c -> P r -> batch_ok cap kps onions ->
  exists c1, NewConvoRound r c = Ret (Ok tt, c1) /\
  (RunConvoRound r onions c1 = Panic slice_panic \/
   exists replies c2 hops msgs rs ac,
     RunConvoRound r onions c1 = Ret (Ok replies, c2) /\ chain_ready n kps P c2 /\
     length replies = length onions /\ Forall (fun o => zlen o = reply_len (zlen kps)) replies /\
     exchange_all msgs = Ret (rs, ac) /\
     first_batch hops msgs = onions /\ chain_rel r (snd <$> kps) hops msgs replies /\
     (forall i j, ~ lost r (snd <$> kps) hops i -> ~ lost r (snd <$> kps) hops j ->
        route hops i = route hops j -> i = j) /\
     (forall i onion, onions !! i = Some onion ->
        lost r (snd <$> kps) hops i \/
        exists m shared rep, peel_all (snd <$> kps) (ForwardNonce r) onion = Some (m, shared) /\
          msgs !! route hops i = Some m /\ rs !! route hops i = Some rep /\
          replies !! i = Some (wrap_all shared (BackwardNonce r) rep))).
Proof using HKL HLR.
  intros Hcap Hl Hready HP Hb. destruct (chain_round_rel n kps P r c onions Hcap Hl Hready HP Hb) as (c1 & Hnew & Hrun).
  exists c1. split; [done|]. destruct Hrun as [Hp|(replies & c2 & hops & msgs & Hrun & Hready2 & Hfb & Hrel)]; [by left|].
  right. destruct (exchange_all_spec msgs) as (rs & ac & He & _).
  destruct (chain_rel_replies _ _ _ _ _ Hrel) as [Hrl Hsz].
  exists replies, c2, hops, msgs, rs, ac. split_and!; try done.
  - by rewrite Hrl, Hfb.
  - unfold zlen in Hsz at 2. rewrite length_fmap in Hsz. exact Hsz.
  - intros i j. by eapply route_inj.
  - intros i onion Ho. rewrite <- Hfb in Ho.
    destruct (chain_rel_deliver _ _ _ _ _ _ _ Hrel Ho) as [?|(m & sh & rs' & ac' & rep & He' & H1 & H2 & H3 & H4)]; [by left|].
    rewrite He in He'. injection He' as <- <-. right. eauto 10.
Qed.


(** C29. Malformed onions crash a server: in a chain of at least two servers, a batch
    of onions of the wrong size that has more of them than the server can have
    noise makes [Close] of the first server panic at [replies[:round.numIncoming]],
    although every onion was to be dropped silently; the panic of an RPC handler
    ends the server's process. *)
Theorem malformed_batch_panics (n : nat) (kps : list (BoxKey * BoxKey)) (P : Z -> Prop) (r : Z)
    (c c1 : chain R (S n)) (onions : list bytes) :
  0 <= cap < 2 ^ 31 -> length kps = S (S n) -> chain_ready (S n) kps P c -> P r -> batch_ok cap kps onions ->
  NewConvoRound r c = Ret (Ok tt, c1) ->
  (forall onion, onion ∈ onions -> zlen onion <> onion_len (zlen kps)) -> 2 * cap + 1 < zlen onions ->
  RunConvoRound r onions c1 = Panic slice_panic.
Proof using HKL HLR.
  intros Hcap Hl Hready HP Hb Hnew Hbad Hmany. destruct kps as [|[pk sk] kps']; [done|]. injection Hl as Hl.
  destruct (chain_promise n kps' Hcap Hl) as [inst Hinst]. assert (kps' <> []) as Hne by (by intros ->).
  destruct (NewRound_started cap Hcap ready ((pk, sk) :: kps') P r c) as (c1' & Hnew' & Hst); [|done|].
  { eapply server_ready_ext; [|exact Hready]. intros c'. apply Hinst. }
  change (NewRound r c) with (NewConvoRound r c) in Hnew'. rewrite Hnew in Hnew'. injection Hnew' as <-.
  by apply (Run_forward_starved cap Hcap kps' Hne pk sk P).
Qed.

(** The two positions of a dead drop accessed exactly twice. *)
Lemma accesses_two exs p q ep eq :
  exs !! p = Some ep -> exs !! q = Some eq -> p <> q -> ce_DeadDrop ep = ce_DeadDrop eq ->
  length (accesses (ce_DeadDrop ep) exs 0) = 2%nat ->
  accesses (ce_DeadDrop ep) exs 0 = [Z.of_nat p; Z.of_nat q] \/
  accesses (ce_DeadDrop ep) exs 0 = [Z.of_nat q; Z.of_nat p].
Proof.
  intros Hp Hq Hne Hdd Hl.
  assert (forall k ek, exs !! k = Some ek -> ce_DeadDrop ek = ce_DeadDrop ep ->
    Z.of_nat k ∈ accesses (ce_DeadDrop ep) exs 0) as Hin.
  { intros k ek Hk Hd. apply accesses_spec. split; [lia|]. exists ek. by rewrite Z.sub_0_r, Nat2Z.id. }
  pose proof (Hin p ep Hp eq_refl) as Hip. pose proof (Hin q eq Hq (eq_sym Hdd)) as Hiq.
  destruct (accesses _ exs 0) as [|a [|b [|]]]; cbn in Hl; try lia.
  rewrite !elem_of_cons, elem_of_nil in Hip, Hiq.
  destruct Hip as [Hip|[Hip|[]]], Hiq as [Hiq|[Hiq|[]]]; rewrite ?Hip, ?Hiq; (lia || auto).
Qed.

(** The replies of two messages that alone share a dead drop. *)
Lemma exchange_two msgs rs ac p q mp mq :
  exchange_all msgs = Ret (rs, ac) -> msgs !! p = Some mp -> msgs !! q = Some mq -> p <> q ->
  let ep := unmarshal_exchange mp in let eq := unmarshal_exchange mq in
  ce_DeadDrop ep = ce_DeadDrop eq ->
  length (accesses (ce_DeadDrop ep) (unmarshal_exchange <$> msgs) 0) = 2%nat ->
  rs !! p = Some (ce_EncryptedMessage eq) /\ rs !! q = Some (ce_EncryptedMessage ep).
Proof.
  intros He Hp Hq Hne ep eq Hdd Hl. destruct (exchange_all_spec msgs) as (rs' & ac' & He' & _ & Hrs & _).
  rewrite He in He'. injection He' as <- <-. set (exs := unmarshal_exchange <$> msgs) in *.
  assert (exs !! p = Some ep) as Hep by (unfold exs; by rewrite list_lookup_fmap, Hp).
  assert (exs !! q = Some eq) as Heq by (unfold exs; by rewrite list_lookup_fmap, Hq).
  rewrite (Hrs _ _ Hep), (Hrs _ _ Heq).
  destruct (accesses_two exs p q ep eq Hep Heq Hne Hdd Hl) as [Ha|Ha].
  - destruct (reply_spec_pair exs p q ep eq Hep Heq Ha Hne) as [-> ->]. done.
  - rewrite Hdd in Ha. destruct (reply_spec_pair exs q p eq ep Heq Hep Ha ltac:(done)) as [-> ->]. done.
Qed.

Lemma unmarshal_marshal e : exchange_valid e -> unmarshal_exchange (ConvoExchange_Marshal e) = e.
Proof.
  intros Hv. unfold unmarshal_exchange, ConvoExchange_Unmarshal, ConvoExchange_Marshal.
  rewrite <- (app_nil_r (binary_Write e)). by rewrite Read_Write.
Qed.

(** What a client sends and keeps: the onion for an exchange and the keys to open
    the reply. *)
Definition sealed_for (kps : list (BoxKey * BoxKey)) (r : Z) (e : ConvoExchange) (onion : bytes) (shared : list BoxKey) : Prop :=
  exchange_valid e /\ exists g g' : R, reader_ok g /\
    onion_Seal (ConvoExchange_Marshal e) (ForwardNonce r) ((fun k => Some k.1) <$> kps) g = Ret ((onion, shared), g').

Lemma sealed_peel kps r e onion shared :
  Forall (fun k => keypair k.1 k.2) kps -> sealed_for kps r e onion shared ->
  peel_all (snd <$> kps) (ForwardNonce r) onion = Some (ConvoExchange_Marshal e, shared) /\
  unmarshal_exchange (ConvoExchange_Marshal e) = e.
Proof using HKL.
  intros Hkp (Hv & g & g' & Hok & Hs). split; [|by apply unmarshal_marshal].
  destruct (onion_Seal_peel (ConvoExchange_Marshal e) (ForwardNonce r) kps g Hok Hkp) as (o & sh & g2 & Hs' & _ & _ & Hp & _).
  rewrite Hs in Hs'. by injection Hs' as -> -> _.
Qed.

Lemma chain_ready_keypairs n kps P (c : chain R n) :
  chain_ready n kps P c -> Forall (fun k => keypair k.1 k.2) kps.
Proof. destruct n; intros ((_ & _ & Hkp & _) & _); done. Qed.

Lemma users_meet (n : nat) (kps : list (BoxKey * BoxKey)) (P : Z -> Prop) (r : Z)
    (c : chain R n) (onions : list bytes) (i j : nat) (ei ej : ConvoExchange)
    (oi oj : bytes) (shi shj : list BoxKey) :
  0 <= cap < 2 ^ 31 -> length kps = S n -> chain_ready n kps P c -> P r -> batch_ok cap kps onions ->
  sealed_for kps r ei oi shi -> sealed_for kps r ej oj shj -> ce_DeadDrop ei = ce_DeadDrop ej ->
  onions !! i = Some oi -> onions !! j = Some oj -> i <> j ->
  exists c1, NewConvoRound r c = Ret (Ok tt, c1) /\
  (RunConvoRound r onions c1 = Panic slice_panic \/
   exists replies c2 hops msgs,
     RunConvoRound r onions c1 = Ret (Ok replies, c2) /\
     first_batch hops msgs = onions /\ chain_rel r (snd <$> kps) hops msgs replies /\
     (~ lost r (snd <$> kps) hops i -> ~ lost r (snd <$> kps) hops j ->
      length (accesses (ce_DeadDrop ei) (unmarshal_exchange <$> msgs) 0) = 2%nat ->
      exists ri rj, replies !! i = Some ri /\ replies !! j = Some rj /\
        onion_Open ri (BackwardNonce r) shi = Some (ce_EncryptedMessage ej) /\
        onion_Open rj (BackwardNonce r) shj = Some (ce_EncryptedMessage ei))).
Proof using HKL HLR.
  intros Hcap Hl Hready HP Hb Hsi Hsj Hdd Hi Hj Hne.
  pose proof (chain_ready_keypairs _ _ _ _ Hready) as Hkp.
  destruct (sealed_peel _ _ _ _ _ Hkp Hsi) as [Hpi Hui], (sealed_peel _ _ _ _ _ Hkp Hsj) as [Hpj Huj].
  destruct (chain_round_rel n kps P r c onions Hcap Hl Hready HP Hb) as (c1 & Hnew & Hrun).
  exists c1. split; [done|]. destruct Hrun as [Hp|(replies & c2 & hops & msgs & Hrun & _ & Hfb & Hrel)]; [by left|].
  right. exists replies, c2, hops, msgs. split_and!; try done. intros Hli Hlj Hacc. rewrite <- Hfb in Hi, Hj.
  destruct (chain_rel_deliver _ _ _ _ _ _ _ Hrel Hi) as [?|(m & sh & rs & ac & rep & He & H1 & H2 & H3 & H4)]; [done|].
  destruct (chain_rel_deliver _ _ _ _ _ _ _ Hrel Hj) as [?|(m' & sh' & rs' & ac' & rep' & He' & H1' & H2' & H3' & H4')]; [done|].
  rewrite He in He'. injection He' as <- <-. rewrite Hpi in H1. injection H1 as <- <-.
  rewrite Hpj in H1'. injection H1' as <- <-.
  assert (route hops i <> route hops j) as Hr by (intros Heq; apply Hne; by eapply route_inj).
  destruct (exchange_two msgs rs ac _ _ _ _ He H2 H2' Hr) as [Hri Hrj].
  { by rewrite Hui, Huj. }
  { by rewrite Hui. }
  rewrite Hui in Hrj. rewrite Huj in Hri. rewrite H3 in Hri. rewrite H3' in Hrj.
  injection Hri as ->. injection Hrj as ->.
  eexists _, _. split; [exact H4|]. split; [exact H4'|]. split; apply onion_Open_wrap.
Qed.


End Chain.

(** ** A concrete chain of two servers *)

Module Toy.

#[export] Instance toy_fuel : Fuel := 1%nat.
#[export] Instance toy_reader : Reader unit := const_reader x40.
#[export] Instance toy_full : FullReader unit := const_full x40.
#[export] Instance toy_live : LiveReader unit fuel := const_live x40 eq_refl.
#[export] Existing Instance toy_box.
#[export] Existing Instance toy_laws.
#[export] Existing Instance toy_float.
#[export] Instance toy_keys : KeyGen unit := zero_keygen.

#[export] Instance toy_keys_laws : KeyGenLaws unit.
Proof. intros r _. eexists _, _, _. split_and!; [done|done|done|exact I]. Qed.

Definition kps : list (BoxKey * BoxKey) :=
  [(replicate 32 x03, replicate 32 x03); (replicate 32 x05, replicate 32 x05)].

Definition server {C} (name : string) (sk : BoxKey) (last : bool) (client : C) : ConvoService C :=
  mkConvoService ∅ false (float_of_Z 1) (float_of_Z 1) example_pki name sk client last [].

(** Two idle servers; each adds one single and a pair of noise messages. *)
Definition two_servers : chain unit 1 :=
  (server "first" (replicate 32 x03) false (server "last" (replicate 32 x05) true tt, tt), tt).

Lemma noise_live_toy : noise_live (R := unit) 4 (float_of_Z 1) (float_of_Z 1).
Proof. intros [] _. exists 1, tt. split; [vm_compute; reflexivity|]. split; [lia|exact I]. Qed.

Lemma kps_ok : Forall (fun k => keypair k.1 k.2) kps.
Proof. repeat constructor. Qed.

Lemma two_servers_ready : chain_ready 4 1 kps (fun r => 0 <= r) two_servers.
Proof.
  split_and!; cbn [fst snd two_servers server cs_Idle cs_rounds cs_Client]; try done.
  - apply (server_cfg_pki 4 kps _ 0 (replicate 32 x03)); try done.
    + exact example_pki_wf.
    + exact kps_ok.
    + exact noise_live_toy.
  - split_and!; cbn [fst snd server cs_Idle cs_rounds cs_Client]; try done.
    apply (server_cfg_pki 4 kps _ 1 (replicate 32 x05)); try done.
    + exact example_pki_wf.
    + exact kps_ok.
    + exact noise_live_toy.
Qed.

(** Two users who meet at a dead drop. *)
Definition exchange (b : byte) : ConvoExchange := mkConvoExchange (replicate 16 x0a) (replicate 256 b).
Definition onion_of (b : byte) : bytes * list BoxKey :=
  match onion_Seal (ConvoExchange_Marshal (exchange b)) (ForwardNonce 7) ((fun k => Some k.1) <$> kps) tt with
  | Ret (p, _) => p
  | _ => ([], [])
  end.
Definition onions : list bytes := [(onion_of x61).1; (onion_of x62).1].

Lemma onion_sealed b : sealed_for kps 7 (exchange b) (onion_of b).1 (onion_of b).2.
Proof.
  split; [split; reflexivity|]. exists tt, tt. split; [exact I|].
  assert (reader_ok tt) as Hok by exact I.
  unfold onion_of. destruct (onion_Seal_peel (ConvoExchange_Marshal (exchange b)) (ForwardNonce 7) kps tt Hok kps_ok)
    as (o & sh & [] & Hs & _). by rewrite Hs.
Qed.

(** The round as it runs. *)
Definition run_two : outcome (result (list bytes) * chain unit 1) :=
  (let! _ := NewConvoRound 7 in RunConvoRound 7 onions)%go two_servers.

Lemma run_two_ok : match run_two with Ret (Ok _, _) => true | _ => false end = true.
Proof. vm_compute. reflexivity. Qed.

Lemma run_two_no_panic c1 p :
  NewConvoRound 7 two_servers = Ret (Ok tt, c1) -> RunConvoRound 7 onions c1 <> Panic p.
Proof.
  intros Hnew Hp. pose proof run_two_ok as Hok. unfold run_two in Hok.
  by rewrite (gbind_eq _ _ _ _ _ Hnew), Hp in Hok.
Qed.


Lemma malformed_batch_panics_witness :
  exists c1, NewConvoRound 7 two_servers = Ret (Ok tt, c1) /\
    RunConvoRound 7 (replicate 10 []) c1 = Panic slice_panic.
Proof.
  destruct (NewConvoRound 7 two_servers) as [[[[]|e] c1]| | |] eqn:Hnew.
  - exists c1. split; [reflexivity|].
    apply (malformed_batch_panics 4 0 kps (fun r => 0 <= r) 7 two_servers c1 (replicate 10 [])).
    + lia.
    + reflexivity.
    + exact two_servers_ready.
    + lia.
    + reflexivity.
    + exact Hnew.
    + intros onion [-> _]%elem_of_replicate. discriminate.
    + reflexivity.
  - exfalso. pose proof run_two_ok as Hok. unfold run_two, gbind in Hok. rewrite Hnew in Hok. vm_compute in Hnew. discriminate Hnew.
  - exfalso. pose proof run_two_ok as Hok. unfold run_two, gbind in Hok. rewrite Hnew in Hok. discriminate Hok.
  - exfalso. pose proof run_two_ok as Hok. unfold run_two, gbind in Hok. rewrite Hnew in Hok. discriminate Hok.
  - exfalso. pose proof run_two_ok as Hok. unfold run_two, gbind in Hok. rewrite Hnew in Hok. discriminate Hok.
Defined.


(** In the concrete run neither onion is lost and the users do meet. *)
Example two_users_meet :
  match run_two with
  | Ret (Ok [r0; r1], _) =>
      onion_Open r0 (BackwardNonce 7) (onion_of x61).2 = Some (replicate 256 x62) /\
      onion_Open r1 (BackwardNonce 7) (onion_of x62).2 = Some (replicate 256 x61)
  | _ => False
  end.
Proof. vm_compute. split; reflexivity. Qed.

Lemma NewRound_cover_traffic_witness :
  exists rd g', NewRound 7 two_servers = Ret (Ok tt, (with_round 7 rd (set_Idle true two_servers.1), g')) /\
    cr_numFakeDoubles rd = 2 /\ zlen (cr_noise rd) = 3.
Proof.
  destruct two_servers_ready as (Hcfg & _).
  destruct (NewRound_cover_traffic 4 ltac:(lia) 7 (replicate 32 x03) (replicate 32 x03) (tail kps) two_servers.1 tt)
    as (n1 & n2 & rd & g' & g1 & g2 & H1 & H2 & Hn & _ & Hs & Hd & _ & Hno & _).
  - exact Hcfg.
  - discriminate.
  - exact I.
  - reflexivity.
  - reflexivity.
  - exists rd, g'. split; [exact Hn|].
    assert (n1 = 1) as -> by (vm_compute in H1; congruence).
    assert (n2 = 1) as -> by (vm_compute in H2; congruence).
    rewrite Hd in Hno |- *. split; [reflexivity|]. rewrite Hno. reflexivity.
Defined.

(** The last server on its own. *)
Definition last_server : cstate unit unit := (server "last" (replicate 32 x05) true tt, tt).
Definition after_new : cstate unit unit :=
  (with_round 7 empty_round (set_Idle true last_server.1), tt).
Definition after_delete : cstate unit unit := (set_rounds (delete 7 (cs_rounds after_new.1)) after_new.1, tt).

Lemma convo_lifecycle_witness :
  status_at last_server.1 7 = None /\ status_at after_new.1 7 = Some convoRoundNew.
Proof.
  destruct (convo_lifecycle (OpNewRound 7) last_server after_new (Ok [])) as (_ & H1 & H2); [reflexivity|].
  split; [exact (H1 None eq_refl)|exact H2].
Defined.

Lemma convo_rejections_witness :
  serve (OpClose 7) last_server = Ret (Err "round 7 not found", last_server) /\
  serve (OpClose 7) after_new = Ret (Err "round 7: status 1, expecting 2", after_new).
Proof.
  split.
  - apply (proj1 (convo_rejections last_server.1 last_server.2) (OpClose 7) convoRoundOpen); reflexivity.
  - apply (proj1 (convo_rejections after_new.1 after_new.2) (OpClose 7) convoRoundOpen); reflexivity.
Defined.

Lemma duplicate_NewRound_blocks_witness :
  exists s1, NewRound 7 (set_Idle false after_new.1, tt) = Ret (Err "round 7 already exists", s1) /\
    NewRound 8 s1 = Block.
Proof.
  destruct (duplicate_NewRound_blocks 7 (set_Idle false after_new.1) tt empty_round) as (s1 & H1 & H2);
    [reflexivity|reflexivity|]. exists s1. split; [exact H1|]. apply H2. apply rtc_refl.
Defined.

(** A round with one onion of the wrong size, through all phases. *)
Definition after (op : convo_op) (s : cstate unit unit) : cstate unit unit :=
  match serve op s with Ret (_, s') => s' | _ => s end.
Definition ops : list convo_op :=
  [OpNewRound 7; OpOpen (mkConvoOpenArgs 7 1); OpAdd (mkConvoAddArgs 7 0 [[]]); OpClose 7].
Definition closed_server : cstate unit unit := foldl (fun s op => after op s) last_server ops.
Definition closed_round7 : ConvoRound := default empty_round (cs_rounds closed_server.1 !! 7).

Definition accepts (op : convo_op) (s : cstate unit unit) : bool :=
  match serve op s with Ret (Ok [], _) => true | _ => false end.

(** Calls that succeed one after another are a clean history. *)
Lemma accepts_clean (l : list convo_op) (s : cstate unit unit) :
  (fix go l s := match l with [] => true | op :: l' => accepts op s && go l' (after op s) end) l s = true ->
  rtc clean_step s (foldl (fun s op => after op s) s l).
Proof.
  revert s. induction l as [|op l IH]; intros s Hl; [apply rtc_refl|].
  apply andb_true_iff in Hl as [Hop Hl]. eapply rtc_l; [|by apply IH].
  unfold accepts, after in *. destruct (serve op s) as [[[[|]|] s']| | |] eqn:E; try done.
  exists op, (Ok []). split; [done|]. eauto.
Qed.

Lemma closed_server_reached : rtc clean_step last_server closed_server.
Proof. apply accepts_clean. vm_compute. reflexivity. Qed.

Lemma convo_history_safe_witness :
  exists onions g', serve (OpGet (mkConvoGetArgs 7 0 1)) closed_server = Ret (Ok onions, (closed_server.1, g')) /\
    zlen onions = 1 /\ Forall (fun o => zlen o = 272) onions.
Proof.
  destruct (convo_history_safe last_server.1 tt closed_server eq_refl eq_refl closed_server_reached) as [_ Hget].
  assert (reply_size closed_server.1 = 272) as Hsize by (vm_compute; reflexivity).
  destruct (Hget (mkConvoGetArgs 7 0 1) closed_round7) as (onions & g' & H1 & H2 & H3).
  - vm_compute. reflexivity.
  - vm_compute. reflexivity.
  - cbn. lia.
  - cbn. lia.
  - vm_compute. discriminate.
  - vm_compute. reflexivity.
  - exact I.
  - rewrite Hsize in H3. exists onions, g'. split; [exact H1|]. split; [exact H2|exact H3].
Defined.

End Toy.
