(* ===== verification/ConvoAdds.v ===== *)
(** * ConvoAdds: the [Add] calls of a round in any order

    [RunConvoRound] in [convo.go] hands the spans of a batch to [CallMany], which
    makes the [Add] calls concurrently, over all connections. The development runs
    them one after another. Here the two are related: whatever the interleaving, all
    calls succeed and the next server's round is the one the sequential calls leave. *)

From stdpp Require Import numbers strings pretty gmap relations list.
From Stdlib Require Import Strings.Byte.
From S2P Require Import Prelude Binary Wire Rand Shuffle Parallel OnionBox Pki Noise Laplace Vrpc Convo DeadDrops ConvoRounds ConvoChain.

(** ** Spans that do not overlap *)

Definition in_span (k : Z) (sp : Span) : Prop := sp_Start sp <= k < sp_Start sp + sp_Count sp.

#[export] Instance in_span_dec k sp : Decision (in_span k sp).
Proof. unfold in_span. apply _. Defined.

(** Every index is in at most one of the spans, and the spans are inside the batch. *)
Definition apart (total : Z) (spans : list Span) : Prop :=
  (forall k, (length (filter (in_span k) spans) <= 1)%nat) /\
  Forall (fun sp => 0 <= sp_Start sp /\ 0 < sp_Count sp /\ sp_Start sp + sp_Count sp <= total) spans.

Lemma covers_filter total i spans k : covers total i spans ->
  length (filter (in_span k) spans) = if decide (i <= k < total) then 1%nat else 0%nat.
Proof.
  induction 1 as [|i c l Hi Hc Hle Hcov IH]; [by rewrite decide_False by lia|].
  rewrite filter_cons. unfold in_span at 1. cbn [sp_Start sp_Count].
  destruct (decide (i <= k < i + c)); cbn [length]; rewrite IH; repeat case_decide; lia.
Qed.

Lemma covers_apart total i spans : covers total i spans -> apart total spans.
Proof.
  intros Hc. split.
  - intros k. rewrite (covers_filter _ _ _ k Hc). case_decide; lia.
  - apply Forall_forall. intros sp Hsp. by eapply covers_elem.
Qed.

Lemma apart_submseteq total l l' : l ⊆+ l' -> apart total l' -> apart total l.
Proof.
  intros Hs [H1 H2]. split.
  - intros k. etrans; [|apply (H1 k)]. apply submseteq_length.
    apply submseteq_Permutation in Hs as (l2 & ->). rewrite filter_app. by apply submseteq_inserts_r.
  - apply submseteq_Permutation in Hs as (l2 & Hp). rewrite Hp in H2. by apply Forall_app in H2 as [? _].
Qed.

Lemma apart_head total sp done k : apart total (sp :: done) -> in_span k sp -> Forall (fun sp' => ~ in_span k sp') done.
Proof.
  intros [H1 _] Hk. specialize (H1 k). rewrite filter_cons_True in H1 by done. cbn in H1.
  apply Forall_forall. intros sp' Hsp' Hk'.
  assert (sp' ∈ filter (in_span k) done) as Hin by (by apply list_elem_of_filter).
  destruct (filter (in_span k) done); [by apply elem_of_nil in Hin|cbn in H1; lia].
Qed.

(** ** Slots filled by the spans added so far *)

(** [f x] where some span of [done] has the index, [None] elsewhere. *)
Definition fill {X Y} (f : X -> option Y) (spans : list Span) (l : list X) : list (option Y) :=
  imap (fun k x => if decide (Exists (in_span (Z.of_nat k)) spans) then f x else None) l.

Lemma length_fill {X Y} (f : X -> option Y) spans l : length (fill f spans l) = length l.
Proof. apply length_imap. Qed.

Lemma fill_nil {X Y} (f : X -> option Y) l : fill f [] l = replicate (length l) None.
Proof.
  apply list_eq. intros k. unfold fill. rewrite list_lookup_imap.
  destruct (decide (k < length l)%nat) as [Hk|Hk].
  - rewrite lookup_replicate_2 by done. apply lookup_lt_is_Some in Hk as [x ->]. cbn.
    rewrite decide_False; [done|]. by intros ?%Exists_nil.
  - rewrite (lookup_ge_None_2 l), (lookup_ge_None_2 (replicate _ _)) by (rewrite ?length_replicate; lia). done.
Qed.

Lemma fill_all {X Y} (f : X -> option Y) spans l : covers (zlen l) 0 spans -> fill f spans l = f <$> l.
Proof.
  intros Hc. apply list_eq. intros k. unfold fill. rewrite list_lookup_imap, list_lookup_fmap.
  destruct (l !! k) as [x|] eqn:E; [|done]. cbn. rewrite decide_True; [done|].
  pose proof (covers_filter _ _ _ (Z.of_nat k) Hc) as Hl. apply lookup_lt_Some in E.
  rewrite decide_True in Hl by (unfold zlen; lia).
  destruct (filter (in_span (Z.of_nat k)) spans) as [|sp ?] eqn:Ef; [done|].
  apply Exists_exists. exists sp. assert (sp ∈ filter (in_span (Z.of_nat k)) spans) as Hin by (rewrite Ef; set_solver).
  by apply list_elem_of_filter in Hin as [??].
Qed.

(** The part of the list a new span fills was empty, and is filled by it. *)
Lemma fill_split {X Y} (f : X -> option Y) sp done (l : list X) :
  apart (zlen l) (sp :: done) ->
  let i := Z.to_nat (sp_Start sp) in let c := Z.to_nat (sp_Count sp) in
  exists pre post, length pre = i /\
    fill f done l = pre ++ replicate c None ++ post /\
    fill f (sp :: done) l = pre ++ (f <$> take c (drop i l)) ++ post.
Proof.
  intros Ha i c. pose proof Ha as [_ Hb]. apply Forall_cons in Hb as [(H0 & Hc & Hle) _]. unfold zlen in Hle.
  exists (take i (fill f done l)), (drop (i + c) (fill f done l)).
  assert (length (take i (fill f done l)) = i) as Hpre by (rewrite length_take, length_fill; lia).
  split; [exact Hpre|]. split.
  - rewrite <- (take_drop i (fill f done l)) at 1. f_equal.
    rewrite <- (take_drop c (drop i (fill f done l))) at 1. rewrite drop_drop. f_equal.
    apply list_eq_same_length with c; [by rewrite length_replicate|rewrite length_take, length_drop, length_fill; lia|].
    intros k x y Hk. rewrite lookup_take_lt, lookup_drop by lia. unfold fill. rewrite list_lookup_imap.
    intros H1 H2. revert H1. apply lookup_replicate in H2 as [-> _]. intros (x0 & Hx & ->)%fmap_Some. rewrite decide_False; [done|].
    intros [sp' [Hin Hk']]%Exists_exists.
    pose proof (apart_head _ _ _ (Z.of_nat (i + k)) Ha ltac:(unfold in_span; lia)) as Hno.
    rewrite Forall_forall in Hno. by apply (Hno sp').
  - apply list_eq. intros k. unfold fill at 1. rewrite list_lookup_imap.
    destruct (decide (k < i)%nat) as [Hk|Hk].
    { rewrite lookup_app_l, lookup_take_lt by lia. unfold fill. rewrite list_lookup_imap.
      destruct (l !! k); [|done]. cbn. f_equal. apply decide_ext. rewrite Exists_cons. unfold in_span. split; [|by right].
      intros [?|?]; [lia|done]. }
    rewrite lookup_app_r, Hpre by lia.
    destruct (decide (k < i + c)%nat) as [Hk2|Hk2].
    { rewrite lookup_app_l by (rewrite length_fmap, length_take, length_drop; lia).
      rewrite list_lookup_fmap, lookup_take_lt, lookup_drop by lia. replace (i + (k - i))%nat with k by lia.
      destruct (l !! k); [|done]. cbn. rewrite decide_True; [done|]. apply Exists_cons. left. unfold in_span. lia. }
    rewrite lookup_app_r by (rewrite length_fmap, length_take, length_drop; lia).
    rewrite length_fmap, length_take, length_drop, lookup_drop.
    replace (i + c + (k - i - c `min` (length l - i)))%nat with k by lia.
    unfold fill. rewrite list_lookup_imap. destruct (l !! k); [|done]. cbn. f_equal. apply decide_ext.
    rewrite Exists_cons. unfold in_span. split; [|by right]. intros [?|?]; [lia|done].
Qed.

(** ** Any order of the calls *)

Section Adds.
Context {C R : Type} `{HF : Fuel, HR : Reader R, HB : Box, HK : !KeyGen R, HE : FloatEnv, HC : ConvoRemote C}.
Implicit Types (srv : ConvoService C) (g : R) (rd : ConvoRound).

Definition add_call (round : Z) (onions : list bytes) (sp : Span) : ConvoAddArgs :=
  mkConvoAddArgs round (sp_Start sp) (span_onions onions sp).

(** The round with the onions of some spans added. *)
Definition added srv (round : Z) (onions : list bytes) (spans : list Span) rd : ConvoRound :=
  set_slots (fill (fun o => Some (slot_key (cs_PrivateKey srv) (onion_size srv) o)) spans onions)
    (fill (slot_msg (cs_PrivateKey srv) (ForwardNonce round) (onion_size srv)) spans onions)
    (opened (zlen onions) rd).

Lemma added_none srv round onions rd : added srv round onions [] rd = opened (zlen onions) rd.
Proof. unfold added, set_slots, opened, zlen. cbn. by rewrite !fill_nil, Nat2Z.id. Qed.

Lemma added_all srv round onions spans rd :
  covers (zlen onions) 0 spans -> added srv round onions spans rd = filled srv round onions rd.
Proof. intros Hc. unfold added, filled. by rewrite !fill_all. Qed.

Lemma Add_any round onions sp done srv g rd :
  zlen onions < 2 ^ 63 -> apart (zlen onions) (sp :: done) ->
  Add (add_call round onions sp) (with_round round (added srv round onions done rd) srv, g) =
  Ret (Ok tt, (with_round round (added srv round onions (sp :: done) rd) srv, g)).
Proof.
  intros Hlt Ha. pose proof Ha as [_ Hb]. apply Forall_cons in Hb as [(H0 & Hc & Hle) _].
  assert (length (span_onions onions sp) = Z.to_nat (sp_Count sp)) as Hos.
  { unfold span_onions, zlen in *. rewrite length_take, length_drop. lia. }
  destruct (fill_split (fun o => Some (slot_key (cs_PrivateKey srv) (onion_size srv) o)) _ _ _ Ha)
    as (pre1 & post1 & Hp1 & Hk1 & Hk2).
  destruct (fill_split (slot_msg (cs_PrivateKey srv) (ForwardNonce round) (onion_size srv)) _ _ _ Ha)
    as (pre2 & post2 & Hp2 & Hm1 & Hm2).
  rewrite <- Hos in Hk1, Hm1. unfold add_call.
  rewrite (Add_eq round (sp_Start sp) (span_onions onions sp) _ g (added srv round onions done rd)
    pre1 (replicate (length (span_onions onions sp)) None) post1
    pre2 (replicate (length (span_onions onions sp)) None) post2 (with_round_lookup _ _ _) eq_refl H0);
    [|unfold zlen in *; cbn; unfold zlen; lia|done|exact Hk1|exact Hm1|unfold zlen; lia|unfold zlen; lia
     |by rewrite length_replicate|by rewrite length_replicate].
  rewrite with_round_twice, slot_update_fresh. unfold onion_size at 1 2. cbn. fold (onion_size srv).
  unfold added at 2. rewrite Hk2, Hm2. done.
Qed.

(** Any spans of the batch, in any order. *)
Lemma Add_order round onions order done srv g rd :
  zlen onions < 2 ^ 63 -> apart (zlen onions) (order ++ done) ->
  go_map Add (add_call round onions <$> order) (with_round round (added srv round onions done rd) srv, g) =
  Ret (replicate (length order) (Ok tt),
       (with_round round (added srv round onions (reverse order ++ done) rd) srv, g)).
Proof.
  intros Hlt. revert done. induction order as [|sp order IH]; intros done Ha; cbn [fmap list_fmap go_map length replicate].
  { by rewrite reverse_nil. }
  assert (sp :: done ⊆+ (sp :: order) ++ done) as H1 by (apply submseteq_skip; by apply submseteq_inserts_l).
  assert (order ++ sp :: done ⊆+ (sp :: order) ++ done) as H2 by (cbn; by rewrite <- Permutation_middle).
  rewrite (gbind_eq _ _ _ _ _ (Add_any _ _ sp done _ _ _ Hlt (apart_submseteq _ _ _ H1 Ha))).
  rewrite reverse_cons, <- app_assoc. cbn [app].
  rewrite (gbind_eq _ _ _ _ _ (IH (sp :: done) (apart_submseteq _ _ _ H2 Ha))). done.
Qed.

Lemma added_Permutation srv round onions l l' rd : l ≡ₚ l' ->
  added srv round onions l rd = added srv round onions l' rd.
Proof.
  intros Hp. unfold added. f_equal; unfold fill; apply imap_ext; intros k x _; cbn; apply decide_ext; by rewrite Hp.
Qed.

Lemma add_calls_order round onions spans ran :
  ran ⊆+ add_call round onions <$> spans -> exists order, order ⊆+ spans /\ ran = add_call round onions <$> order.
Proof.
  intros (rest & Hp)%submseteq_Permutation.
  symmetry in Hp. apply Permutation_map_inv in Hp as (l & Hl & Hp). symmetry in Hl. apply fmap_app_inv in Hl as (order & l2 & -> & -> & ->).
  exists order. split; [|done]. rewrite Hp. by apply submseteq_inserts_r.
Qed.

(** C10. The [Add] calls of a round in [RunConvoRound], made concurrently over any
    number of connections: [CallMany] always returns, never with an error, and the
    server's round is then the one all calls leave when made one after another, with
    every onion decrypted into its own slot, whatever the order of execution. *)
Theorem concurrent_adds w round onions spans srv g rd :
  (0 < w)%nat -> zlen onions + 4000 < 2 ^ 63 -> Spans (zlen onions) 4000 = Ret spans ->
  let calls := add_call round onions <$> spans in
  let net0 := (with_round round (opened (zlen onions) rd) srv, g) in
  inevitably (cm_step Add w (length calls))
    (fun s => cm_finished s /\ cm_ret s = Some (Ok tt) /\
              cm_net s = (with_round round (filled srv round onions rd) srv, g) /\
              CallMany Add calls net0 = Ret (Ok (replicate (length spans) tt), cm_net s))
    (cm_init calls net0).
Proof.
  intros Hw Hlt0 Hsp calls net0. assert (zlen onions < 2 ^ 63) as Hlt by lia.
  destruct (Spans_covers (zlen onions) 4000) as (l & Hl & Hcov); [apply zlen_nonneg|lia|lia|]. rewrite Hsp in Hl. injection Hl as <-.
  pose proof (covers_apart _ _ _ Hcov) as Hapart.
  assert (forall order, order ⊆+ spans -> go_map Add (add_call round onions <$> order) net0 =
    Ret (replicate (length order) (Ok tt), (with_round round (added srv round onions (reverse order) rd) srv, g))) as Hany.
  { intros order Ho. unfold net0. rewrite <- (added_none srv round onions rd).
    rewrite Add_order; [by rewrite app_nil_r|done|]. rewrite app_nil_r. exact (apart_submseteq _ _ _ Ho Hapart). }
  eapply inevitably_reached; [apply (cm_inevitably Add w calls net0); [done| |apply cm_init_inv]|].
  - intros ran c rs net Hs Hm. apply add_calls_order in Hs as (order & Ho & Heq).
    symmetry in Heq. apply fmap_app_inv in Heq as (o1 & o2 & -> & Hc & ->).
    pose proof (Hany _ Ho) as H2. rewrite fmap_app, <- Hc in H2.
    apply go_map_app_ret in H2 as (ys1 & s1 & ys2 & Hm1 & Hm2 & _). rewrite Hm in Hm1. injection Hm1 as <- <-.
    cbn in Hm2. apply gbind_ret in Hm2 as (r & net' & Hr & _). eauto.
  - intros s Hr Hfin. pose proof (cm_reach_inv _ _ _ _ _ Hr) as HI. pose proof (inv_count _ _ _ _ HI) as Hcount.
    destruct HI as [Hc Hn _ _ Hret]. split; [exact Hfin|].
    destruct (add_calls_order round onions spans (fst <$> cm_exec s)) as (order & Ho & Heq).
    { fold calls. rewrite Hc. by do 4 apply submseteq_inserts_l. }
    rewrite Heq in Hn. rewrite (Hany _ Ho) in Hn. injection Hn as Hrs Hnet.
    destruct (cm_ret s) as [[[]|e]|] eqn:E; [| |by destruct Hfin].
    + destruct Hret as (_ & Hlen & _). split; [done|].
      assert (order ≡ₚ spans) as Hp.
      { apply submseteq_length_Permutation; [done|]. apply (f_equal length) in Heq. unfold calls in Hlen.
        rewrite !length_fmap in *. lia. }
      assert (cm_net s = (with_round round (filled srv round onions rd) srv, g)) as Hfill.
      { rewrite <- Hnet, (added_Permutation _ _ _ _ spans), added_all; [done|done|]. by rewrite reverse_Permutation. }
      split; [exact Hfill|]. rewrite Hfill. unfold calls, net0.
      rewrite <- (Add_spans round 0 spans srv g rd onions Hlt ltac:(lia) Hcov).
      unfold add_call. do 3 f_equal. unfold partly_filled, opened, set_slots. cbn.
      by rewrite Z.sub_0_r.
    + exfalso. destruct Hret as (_ & c & Hin). apply (list_elem_of_fmap_2 snd) in Hin. rewrite <- Hrs in Hin.
      by apply elem_of_replicate in Hin as [? _].
Qed.

End Adds.

Module AddsToy.
Import Toy.

(** Two onions for the last server of the chain of two. *)
Lemma concurrent_adds_witness :
  inevitably (cm_step Add 2 1)
    (fun s => cm_ret s = Some (Ok tt))
    (cm_init [mkConvoAddArgs 7 0 onions] (with_round 7 (opened 2 empty_round) last_server.1, tt)).
Proof.
  eapply inevitably_reached.
  - apply (concurrent_adds 2 7 onions [mkSpan 0 2] last_server.1 tt empty_round).
    + lia.
    + vm_compute. reflexivity.
    + vm_compute. reflexivity.
  - intros s _ (_ & H & _). exact H.
Defined.

End AddsToy.
