(* ===== verification/ConvoPipeline.v ===== *)
(** * ConvoPipeline: rounds that overlap

    In [convo.go] the handler [Close] releases the lock [Idle] before it runs the round
    on the next server and waits for the replies. From then on the server can start
    the next round, and collect its messages, while the replies of the first are under
    way. The rest of the development treats [Close] as one step. Here it is cut at the
    release of the lock, calls for other rounds are served in between, and the outcome
    is shown to be that of [Close] in one step followed by these calls. *)

From stdpp Require Import numbers strings pretty gmap relations list.
From Stdlib Require Import Strings.Byte.
From S2P Require Import Prelude Binary Wire Rand Shuffle Parallel OnionBox Pki Noise Laplace Vrpc Convo DeadDrops ConvoRounds ConvoChain.

Section Pipeline.
Context {C R : Type} `{HF : Fuel, HR : Reader R, HB : Box, HK : !KeyGen R, HE : FloatEnv, HC : ConvoRemote C}.
Implicit Types (srv : ConvoService C) (g : R) (rd : ConvoRound).

(** ** The two halves of [Close] on a server that is not the last *)

(** Up to [srv.Idle.Unlock()]; the result is what the second half still uses. *)
Definition close_begin (Round : Z) : GoM (cstate C R) (result (Shuffler * list bytes * ConvoRound)) :=
  (let! round := getRound Round convoRoundOpen in
   on_ok round (fun e => e) (fun round =>
   let! round := glift (filterIncoming round) in
   put_round Round round ;;;
   let outgoing := ((fun m => default [] m) <$> cr_incoming round) ++ cr_noise round in
   let! shuffler := on_rand (NewShuffler fuel (zlen outgoing)) in
   let! outgoing := glift (Shuffle shuffler outgoing) in
   let round := alias_incoming (closed_round round [] (cr_replies round) (cr_status round)) outgoing in
   put_round Round round ;;;
   let! err := on_client (NewConvoRound Round) in
   on_ok err (fun e => "NewConvoRound: " +:+ e) (fun _ =>
   Idle_Unlock ;;;
   gret (Ok (shuffler, outgoing, round)))))%go.

(** From [RunConvoRound] on. *)
Definition close_end (Round : Z) (p : Shuffler * list bytes * ConvoRound) : GoM (cstate C R) (result unit) :=
  let '(shuffler, outgoing, round) := p in
  (let! err := on_client (RunConvoRound Round outgoing) in
   on_ok err (fun e => "RunConvoRound: " +:+ e) (fun replies =>
   let! replies := glift (Unshuffle shuffler replies) in
   let! replies := glift (go_slice replies 0 (cr_numIncoming round)) in
   put_round Round (closed_round round [] replies convoRoundClosed) ;;;
   gret (Ok tt)))%go.

Lemma close_split Round s : cs_LastServer s.1 = false ->
  Close Round s = (let! x := close_begin Round in on_ok x (fun e => e) (close_end Round))%go s.
Proof.
  destruct s as [srv g]. intros Hl. unfold Close, close_begin, close_end, gbind.
  destruct (getRound Round convoRoundOpen (srv, g)) as [[[rd|e] s0]| | |] eqn:Hg; [|done..].
  apply getRound_ret in Hg as [-> _]. cbn [on_ok].
  destruct (filterIncoming rd) as [rd1| | |]; [|done..].
  change (@glift (cstate C R) _ (Ret rd1) (srv, g)) with (@Ret (ConvoRound * cstate C R) (rd1, (srv, g))). cbn iota beta.
  change (put_round Round rd1 (srv, g)) with (@Ret (unit * cstate C R) (tt, (with_round Round rd1 srv, g))).
  unfold get_srv. cbn [fst snd] in *.
  change (cs_LastServer (with_round _ _ _)) with (cs_LastServer srv). rewrite Hl. unfold close_forward, gbind.
  destruct (on_rand _ _) as [[sh s2]| | |]; [|done..]. destruct (glift _ s2) as [[out s3]| | |]; [|done..].
  destruct (put_round _ _ s3) as [[[] s4]| | |]; [|done..].
  destruct (on_client _ s4) as [[[[]|e] s5]| | |]; [|done..]. cbn [on_ok].
  by destruct (Idle_Unlock s5) as [[[] s6]| | |].
Qed.

(** What the second half does to the server: the client has moved on, and the round is
    stored unless it failed. *)
Definition finished (r : Z) (c : C) (o : option ConvoRound) srv : ConvoService C :=
  match o with
  | Some rd => with_round r rd (set_Client c srv)
  | None => set_Client c srv
  end.

(** It depends on the client alone. *)
Lemma close_end_run r p srv g b s' : close_end r p (srv, g) = Ret (b, s') ->
  exists c o, forall srv2 g2, cs_Client srv2 = cs_Client srv ->
    close_end r p (srv2, g2) = Ret (b, (finished r c o srv2, g2)).
Proof.
  destruct p as [[sh out] rd]. unfold close_end, on_client. intros H. apply gbind_ret in H as (x & s1 & Hx & H).
  apply gzoom_ret in Hx as (c & Hx & ->). cbn [fst snd] in Hx. exists c. destruct x as [replies|e]; cbn [on_ok] in H.
  - apply gbind_ret in H as (reps & s2 & [Hu ->]%glift_ret & H).
    apply gbind_ret in H as (cut & s3 & [Hs ->]%glift_ret & H). apply gbind_ret in H as (u & s4 & [= _ <-] & H).
    apply gret_ret in H as [-> _]. exists (Some (closed_round rd [] cut convoRoundClosed)). intros srv2 g2 Hc.
    unfold gbind, gzoom. cbn [fst snd]. rewrite Hc, Hx. cbn [on_ok]. unfold glift. rewrite Hu, Hs. done.
  - apply gret_ret in H as [-> _]. exists None. intros srv2 g2 Hc.
    unfold gbind, gzoom. cbn [fst snd]. by rewrite Hc, Hx.
Qed.

(** ** Calls that leave round [r] and the client alone *)

(** Relations between states that differ at most in round [r] and the client, and are
    kept when the rest changes alike. *)
Record frame (r : Z) (J : cstate C R -> cstate C R -> Prop) : Prop := {
  fr_rand s1 s2 : J s1 s2 -> s2.2 = s1.2;
  fr_idle s1 s2 : J s1 s2 -> cs_Idle s2.1 = cs_Idle s1.1;
  fr_config s1 s2 : J s1 s2 -> config s2.1 = config s1.1;
  fr_rounds s1 s2 r' : J s1 s2 -> r' <> r -> cs_rounds s2.1 !! r' = cs_rounds s1.1 !! r';
  fr_set_rand s1 s2 g : J s1 s2 -> J (s1.1, g) (s2.1, g);
  fr_set_idle s1 s2 b : J s1 s2 -> J (set_Idle b s1.1, s1.2) (set_Idle b s2.1, s2.2);
  fr_insert s1 s2 r' rd : J s1 s2 -> r' <> r -> J (with_round r' rd s1.1, s1.2) (with_round r' rd s2.1, s2.2);
  fr_delete s1 s2 r' : J s1 s2 -> r' <> r ->
    J (set_rounds (delete r' (cs_rounds s1.1)) s1.1, s1.2) (set_rounds (delete r' (cs_rounds s2.1)) s2.1, s2.2);
}.

Section Framed.
Context (r : Z) (J : cstate C R -> cstate C R -> Prop) (HJ : frame r J).

Lemma frame_rand {A} (m : GoM R A) : gsim eq J (on_rand m) (on_rand m).
Proof using HJ.
  unfold on_rand. apply (gsim_zoom _ eq); [|intros s1 s2 g ? Hs <-; by apply (fr_set_rand r J HJ)|apply gsim_refl].
  intros s1 s2 Hs. symmetry. by apply (fr_rand r J HJ).
Qed.

Lemma frame_get {A} (k1 k2 : ConvoService C -> GoM (cstate C R) A) :
  (forall srv1 srv2, config srv2 = config srv1 -> (forall r', r' <> r -> cs_rounds srv2 !! r' = cs_rounds srv1 !! r') ->
     gsim eq J (k1 srv1) (k2 srv2)) ->
  gsim eq J (gbind get_srv k1) (gbind get_srv k2).
Proof using HJ.
  intros Hk. apply (gsim_bind _ (fun srv1 srv2 => config srv2 = config srv1 /\
    forall r', r' <> r -> cs_rounds srv2 !! r' = cs_rounds srv1 !! r')).
  - intros s1 s2 Hs. cbn. split; [|done]. split; [by apply (fr_config r J HJ)|]. intros r' Hr. by apply (fr_rounds r J HJ).
  - intros srv1 srv2 [? ?]. by apply Hk.
Qed.

Lemma frame_put r' rd : r' <> r -> gsim eq J (put_round r' rd) (put_round r' rd).
Proof using HJ. intros Hne s1 s2 Hs. cbn. split; [done|]. by apply (fr_insert r J HJ). Qed.

Lemma frame_lock : gsim eq J Idle_Lock Idle_Lock.
Proof using HJ.
  intros s1 s2 Hs. unfold Idle_Lock. rewrite (fr_idle r J HJ _ _ Hs). destruct (cs_Idle s1.1); [done|].
  split; [done|]. by apply (fr_set_idle r J HJ).
Qed.

Hint Resolve frame_rand frame_put frame_lock : sim.

Lemma frame_getRound r' st : r' <> r -> gsim eq J (getRound r' st) (getRound r' st).
Proof using HJ. intros Hne. unfold getRound. apply frame_get. intros srv1 srv2 _ Hr. rewrite Hr by done. sim. Qed.
Hint Resolve frame_getRound : sim.

(** Rewrites the configuration of one server to that of the other. *)
Ltac same_config Hc :=
  let H1 := fresh in let H2 := fresh in let H3 := fresh in let H4 := fresh in let H5 := fresh in let H6 := fresh in
  revert Hc; unfold config; intros [= H1 H2 H3 H4 H5 H6]; rewrite ?H1, ?H2, ?H3, ?H4, ?H5, ?H6.

Lemma frame_NewRound r' : r' <> r -> gsim eq J (NewRound r') (NewRound r').
Proof using HJ.
  intros Hne. unfold NewRound, new_noise. apply gsim_bind_eq; [sim|]. intros _. apply frame_get.
  intros srv1 srv2 Hc Hr. rewrite Hr by done. same_config Hc. sim.
Qed.

Lemma frame_Open a : oa_Round a <> r -> gsim eq J (Open a) (Open a).
Proof using HJ. intros Hne. unfold Open. sim. Qed.

Lemma frame_Add a : aa_Round a <> r -> gsim eq J (Add a) (Add a).
Proof using HJ.
  intros Hne. unfold Add. apply gsim_bind_eq; [sim|]. intros rd. apply gsim_on_ok. intros rd0. apply frame_get.
  intros srv1 srv2 Hc _. same_config Hc. sim.
Qed.

Lemma frame_get_onion rd nonce size i : gsim eq J (get_onion rd nonce size i) (get_onion rd nonce size i).
Proof using HJ. unfold get_onion. sim. Qed.
Hint Resolve frame_get_onion : sim.

Lemma frame_Get a : ga_Round a <> r -> gsim eq J (Get a) (Get a).
Proof using HJ.
  intros Hne. unfold Get. apply gsim_bind_eq; [sim|]. intros rd. apply gsim_on_ok. intros rd0. apply frame_get.
  intros srv1 srv2 Hc _. same_config Hc. sim.
Qed.

Lemma frame_Delete r' : r' <> r -> gsim eq J (Delete r') (Delete r').
Proof using HJ.
  intros Hne. unfold Delete. apply gsim_bind_eq; [|sim]. intros s1 s2 Hs. cbn. split; [done|]. by apply (fr_delete r J HJ).
Qed.
Hint Resolve frame_NewRound frame_Open frame_Add frame_Get frame_Delete : sim.

(** Every call for another round that does not itself use the client. *)
Lemma frame_serve op : op_round op <> r -> (forall r', op <> OpClose r') -> gsim eq J (serve op) (serve op).
Proof using HJ.
  intros Hne Hcl. destruct op as [r'|a|a|r'|a|r']; cbn [op_round serve] in *; unfold forget; try by sim.
  by destruct (Hcl r').
Qed.

Lemma frame_serves ops : Forall (fun op => op_round op <> r /\ forall r', op <> OpClose r') ops ->
  gsim eq J (go_map serve ops) (go_map serve ops).
Proof using HJ.
  induction 1 as [|op ops [Hne Hcl] _ IH]; cbn [go_map]; [by apply gsim_ret|].
  apply gsim_bind_eq; [by apply frame_serve|]. intros x. apply gsim_bind_eq; [exact IH|]. intros xs. by apply gsim_ret.
Qed.

End Framed.

(** The two relations used: the state after the second half, and an unchanged client. *)
Lemma frame_finished r c o : frame r (fun s1 s2 => s2 = (finished r c o s1.1, s1.2)).
Proof.
  split; intros; subst; cbn [fst snd]; try done; destruct o as [rd0|]; try done; cbn.
  - by rewrite lookup_insert_ne.
  - unfold with_round, set_rounds. cbn. by rewrite insert_insert_ne.
  - unfold with_round, set_rounds. cbn. by rewrite delete_insert_ne.
Qed.

Lemma frame_client r c : frame r (keeping (fun s : cstate C R => cs_Client s.1 = c)).
Proof. by split; intros s1 s2 *; intros [<- Hc] || intros; try done; split. Qed.

(** C11. Overlapping rounds: when, after [Close] of round [r] has released the lock,
    any calls for other rounds that do not close them are served before [Close] runs
    the round on the next server and stores the replies, then every call and [Close]
    return what they return, and leave the state they leave, when [Close] is finished
    first. *)
Theorem close_overlaps (r : Z) (ops : list convo_op) (s s1 s2 s3 : cstate C R) p results res :
  cs_LastServer s.1 = false -> Forall (fun op => op_round op <> r /\ forall r', op <> OpClose r') ops ->
  close_begin r s = Ret (Ok p, s1) -> go_map serve ops s1 = Ret (results, s2) -> close_end r p s2 = Ret (res, s3) ->
  exists s', Close r s = Ret (res, s') /\ go_map serve ops s' = Ret (results, s3).
Proof.
  intros Hlast Hops Hb Ho He. destruct s1 as [srv1 g1], s2 as [srv2 g2].
  assert (cs_Client srv2 = cs_Client srv1) as Hcl.
  { by apply (keeping_run _ _ _ _ _ (frame_serves r _ (frame_client r (cs_Client srv1)) ops Hops) (eq_refl : cs_Client (srv1, g1).1 = _) Ho). }
  destruct (close_end_run _ _ _ _ _ _ He) as (c & o & Hend).
  pose proof (Hend srv2 g2 eq_refl) as He2. rewrite He in He2. injection He2 as ->.
  exists (finished r c o srv1, g1). split.
  - rewrite (close_split _ _ Hlast), (gbind_eq _ _ _ _ _ Hb). cbn [on_ok]. by apply Hend.
  - pose proof (frame_serves r _ (frame_finished r c o) ops Hops (srv1, g1) _ eq_refl) as Hsim. rewrite Ho in Hsim.
    cbn [fst snd] in Hsim. destruct (go_map serve ops (finished r c o srv1, g1)) as [[xs s']| | |]; cbn in Hsim; try done.
    by destruct Hsim as [<- ->].
Qed.

End Pipeline.

(** ** A round that starts while the replies of another are under way *)

Module PipelineToy.
Import ConvoChain.Toy.

(** The first of two servers, with round 7 open and its two onions added. *)
Definition collected : outcome (result unit * chain unit 1) :=
  (let! _ := NewRound 7 in let! _ := Open (mkConvoOpenArgs 7 2) in Add (mkConvoAddArgs 7 0 onions))%go two_servers.
Definition at_close : chain unit 1 := match collected with Ret (_, s) => s | _ => two_servers end.

(** Round 8 starts meanwhile. *)
Definition meanwhile : list convo_op := [OpNewRound 8; OpOpen (mkConvoOpenArgs 8 1)].

Definition overlapped : bool :=
  match close_begin 7 at_close with
  | Ret (Ok p, s1) =>
      match go_map serve meanwhile s1 with
      | Ret (rs, s2) =>
          match close_end 7 p s2 with
          | Ret (Ok _, _) => match rs with [Ok []; Ok []] => true | _ => false end
          | _ => false
          end
      | _ => false
      end
  | _ => false
  end.

Lemma overlapped_ok : overlapped = true.
Proof. vm_compute. reflexivity. Qed.

Lemma close_overlaps_witness :
  exists s' s3, Close 7 at_close = Ret (Ok tt, s') /\ go_map serve meanwhile s' = Ret ([Ok []; Ok []], s3).
Proof.
  pose proof overlapped_ok as H. unfold overlapped in H.
  destruct (close_begin 7 at_close) as [[[p|e] s1]| | |] eqn:Hb; [|discriminate H..].
  destruct (go_map serve meanwhile s1) as [[rs s2]| | |] eqn:Ho; [|discriminate H..].
  destruct (close_end 7 p s2) as [[[[]|e] s3]| | |] eqn:He; [|discriminate H..].
  destruct rs as [|[[|]|] [|[[|]|] [|]]]; try discriminate H.
  destruct (close_overlaps 7 meanwhile at_close s1 s2 s3 p [Ok []; Ok []] (Ok tt)) as (s' & Hc & Hs).
  - vm_compute. reflexivity.
  - repeat constructor; cbn; discriminate.
  - exact Hb.
  - exact Ho.
  - exact He.
  - exists s', s3. split; [exact Hc|exact Hs].
Defined.

End PipelineToy.
