(* ===== verification/Dial.v ===== *)
(** * Dial: the dialing service of a mix server

    Models [dial.go]: the state of [DialService] and its rounds, the RPC handlers
    [NewRound], [Add], [Close] and [Buckets], the filter on incoming messages, and
    the client side [NewDialRound] and [RunDialRound]. As in [Convo] a handler is
    one state transformer and the next server is reached through an interface,
    [DialRemote], which the service implements. *)

From stdpp Require Import numbers strings pretty gmap list.
From Stdlib Require Import Strings.Byte.
From S2P Require Import Prelude Binary Wire Rand Shuffle Parallel OnionBox Pki Noise Laplace Vrpc Convo.

(** ** Data *)

(** A round has the zero status, which is neither, until [NewRound] returns. *)
Inductive dialStatus := dialRoundOpen | dialRoundClosed.

#[export] Instance dialStatus_eq_dec : EqDecision dialStatus.
Proof. solve_decision. Defined.

Definition dial_status_num (s : dialStatus) : Z :=
  match s with dialRoundOpen => 1 | dialRoundClosed => 2 end.

Record DialRound := mkDialRound {
  dr_status : dialStatus;
  dr_incoming : list bytes;
  dr_noise : list bytes;
}.

Record DialService (C : Type) := mkDialService {
  ds_rounds : gmap Z DialRound;
  ds_Idle : bool;
  ds_LaplaceMu : float64;
  ds_LaplaceB : float64;
  ds_PKI : PKI;
  ds_ServerName : string;
  ds_PrivateKey : BoxKey;
  ds_Client : C;
  ds_LastServer : bool;
}.
Arguments mkDialService {C}.
Arguments ds_rounds {C}. Arguments ds_Idle {C}. Arguments ds_LaplaceMu {C}.
Arguments ds_LaplaceB {C}. Arguments ds_PKI {C}. Arguments ds_ServerName {C}.
Arguments ds_PrivateKey {C}. Arguments ds_Client {C}. Arguments ds_LastServer {C}.

Definition ds_set_rounds {C} (m : gmap Z DialRound) (s : DialService C) : DialService C :=
  mkDialService m (ds_Idle s) (ds_LaplaceMu s) (ds_LaplaceB s) (ds_PKI s) (ds_ServerName s)
    (ds_PrivateKey s) (ds_Client s) (ds_LastServer s).
Definition ds_set_Idle {C} (b : bool) (s : DialService C) : DialService C :=
  mkDialService (ds_rounds s) b (ds_LaplaceMu s) (ds_LaplaceB s) (ds_PKI s) (ds_ServerName s)
    (ds_PrivateKey s) (ds_Client s) (ds_LastServer s).
Definition ds_set_Client {C} (c : C) (s : DialService C) : DialService C :=
  mkDialService (ds_rounds s) (ds_Idle s) (ds_LaplaceMu s) (ds_LaplaceB s) (ds_PKI s) (ds_ServerName s)
    (ds_PrivateKey s) c (ds_LastServer s).

Definition InitDialService {C} (srv : DialService C) : DialService C := ds_set_rounds ∅ srv.

Record DialAddArgs := mkDialAddArgs { da_Round : Z; da_Onions : list bytes }.

(** ** The interface to the next server *)

Class DialRemote (C : Type) := {
  rpc_DialNewRound : Z -> GoM C (result unit);
  rpc_DialAdd : DialAddArgs -> GoM C (result unit);
  rpc_DialClose : Z -> GoM C (result unit);
}.

Definition NewDialRound {C} `{DialRemote C} (round : Z) : GoM C (result unit) := rpc_DialNewRound round.

Definition RunDialRound {C} `{DialRemote C} (round : Z) (onions : list bytes) : GoM C (result unit) :=
  (let! spans := glift (Spans (zlen onions) 4000) in
   let! calls := go_map (fun span =>
       let! os := glift (go_slice onions (sp_Start span) (i64 (sp_Start span + sp_Count span))) in
       gret (mkDialAddArgs round os)) spans in
   let! err := CallMany rpc_DialAdd calls in
   on_ok err (fun e => "Add: " +:+ e) (fun _ =>
   let! err := rpc_DialClose round in
   on_ok err (fun e => "Close: " +:+ e) (fun _ =>
   gret (Ok tt))))%go.

(** ** The filter on incoming messages *)

Fixpoint dial_filter_loop (incoming : list bytes) (seen : gset Z) : outcome (list bytes) :=
  match incoming with
  | [] => Ret []
  | msg :: incoming' =>
      msgkey ← msg_key msg;
      if decide (msgkey ∈ seen) then dial_filter_loop incoming' seen
      else
        rest ← dial_filter_loop incoming' ({[msgkey]} ∪ seen);
        Ret (msg :: rest)
  end.

Definition dial_filterIncoming (round : DialRound) : outcome DialRound :=
  valid ← dial_filter_loop (dr_incoming round) ∅;
  Ret (mkDialRound (dr_status round) valid (dr_noise round)).

(** ** The handlers *)

Section DialHandlers.
Context {C R : Type} `{Fuel, Reader R, Box, !KeyGen R, FloatEnv, DialRemote C}.

Definition dstate : Type := DialService C * R.

Definition d_on_rand {A} : GoM R A -> GoM dstate A := gzoom snd (fun r s => (s.1, r)).
Definition d_on_client {A} : GoM C A -> GoM dstate A :=
  gzoom (fun s => ds_Client s.1) (fun c s => (ds_set_Client c s.1, s.2)).
Definition d_get_srv : GoM dstate (DialService C) := fun s => Ret (s.1, s).
Definition d_put_srv (f : DialService C -> DialService C) : GoM dstate unit :=
  fun s => Ret (tt, (f s.1, s.2)).
Definition d_put_round (Round : Z) (r : DialRound) : GoM dstate unit :=
  d_put_srv (fun srv => ds_set_rounds (<[Round := r]> (ds_rounds srv)) srv).

Definition d_Idle_Lock : GoM dstate unit := fun s =>
  if ds_Idle s.1 then Block else Ret (tt, (ds_set_Idle true s.1, s.2)).
Definition d_Idle_Unlock : GoM dstate unit := fun s =>
  if ds_Idle s.1 then Ret (tt, (ds_set_Idle false s.1, s.2)) else Panic unlock_panic.

Definition err_dial_status (round : Z) (got want : dialStatus) : string :=
  "round " +:+ pretty round +:+ ": status " +:+ pretty (dial_status_num got) +:+
  ", expecting " +:+ pretty (dial_status_num want).

Definition dial_getRound (round : Z) (expectedStatus : dialStatus) : GoM dstate (result DialRound) :=
  (let! srv := d_get_srv in
   match ds_rounds srv !! round with
   | None => gret (Err (err_not_found round))
   | Some r =>
       if decide (dr_status r = expectedStatus) then gret (Ok r)
       else gret (Err (err_dial_status round (dr_status r) expectedStatus))
   end)%go.

(** The goroutine that fills [round.noise], which [Close] waits for ([noiseWg]). *)
Definition dial_noise (Round : Z) (srv : DialService C) : GoM dstate (list bytes) :=
  (let! noiseCounts := go_map (fun _ => d_on_rand (cappedFlooredLaplace fuel (ds_LaplaceMu srv) (ds_LaplaceB srv)))
                         (seqZ 0 TotalDialBuckets) in
   let noiseTotal := foldl (fun t bmu => i64 (t + bmu)) 0 noiseCounts in
   let! noise := glift (go_make [] noiseTotal) in
   let nonce := ForwardNonce Round in
   let! keys := glift (NextServerKeys (ds_PKI srv) (ds_ServerName srv)) in
   d_on_rand (FillWithFakeIntroductions noise noiseCounts nonce (Keys keys)))%go.

Definition Dial_NewRound (Round : Z) : GoM dstate (result unit) :=
  (d_Idle_Lock ;;;
   let! srv := d_get_srv in
   match ds_rounds srv !! Round with
   | Some _ => gret (Err (err_exists Round))
   | None =>
       let! noise := dial_noise Round srv in
       d_put_round Round (mkDialRound dialRoundOpen [] noise) ;;;
       gret (Ok tt)
   end)%go.

(** What [Add] keeps of one onion. *)
Definition dial_open (privateKey : BoxKey) (nonce : Nonce) (expectedOnionSize : Z) (onion : bytes)
    : outcome (list bytes) :=
  if decide (zlen onion = expectedOnionSize) then
    theirPublic ← go_slice onion 0 32;
    ctxt ← go_slice onion 32 (zlen onion);
    match box_Open ctxt nonce theirPublic privateKey with
    | Some message => Ret [message]
    | None => Ret []
    end
  else Ret [].

Definition Dial_Add (args : DialAddArgs) : GoM dstate (result unit) :=
  (let! round := dial_getRound (da_Round args) dialRoundOpen in
   on_ok round (fun e => e) (fun round =>
   let! srv := d_get_srv in
   let nonce := ForwardNonce (da_Round args) in
   let expectedOnionSize := IncomingOnionOverhead (ds_PKI srv) (ds_ServerName srv) + SizeDialExchange in
   let! messages := glift (go_for (fun onion messages =>
       m ← dial_open (ds_PrivateKey srv) nonce expectedOnionSize onion; Ret (messages ++ m))
     (da_Onions args) []) in
   d_put_round (da_Round args)
     (mkDialRound (dr_status round) (dr_incoming round ++ messages) (dr_noise round)) ;;;
   gret (Ok tt)))%go.

Definition Dial_Close (Round : Z) : GoM dstate (result unit) :=
  (let! round := dial_getRound Round dialRoundOpen in
   on_ok round (fun e => e) (fun round =>
   let! round := glift (dial_filterIncoming round) in
   let incoming := dr_incoming round ++ dr_noise round in
   let! shuffler := d_on_rand (NewShuffler fuel (zlen incoming)) in
   let! incoming := glift (Shuffle shuffler incoming) in
   d_put_round Round (mkDialRound (dr_status round) incoming (dr_noise round)) ;;;
   let! srv := d_get_srv in
   if ds_LastServer srv then
     d_Idle_Unlock ;;;
     d_put_round Round (mkDialRound dialRoundClosed incoming []) ;;;
     gret (Ok tt)
   else
     let! err := d_on_client (NewDialRound Round) in
     on_ok err (fun e => "NewDialRound: " +:+ e) (fun _ =>
     d_Idle_Unlock ;;;
     let! err := d_on_client (RunDialRound Round incoming) in
     on_ok err (fun e => "RunDialRound: " +:+ e) (fun _ =>
     d_put_round Round (mkDialRound dialRoundClosed [] []) ;;;
     gret (Ok tt)))))%go.

Definition err_not_last : string := "Dial.Buckets can only be called on the last server".

(** One iteration of the loop of [Buckets]. *)
Definition bucket_add (m : bytes) (buckets : list (list bytes)) : outcome (list (list bytes)) :=
  if decide (zlen m = SizeDialExchange) then
    match DialExchange_Unmarshal m with
    | Err _ => Ret buckets
    | Ok ex =>
        if decide (u32 (zlen buckets) <= de_Bucket ex) then Ret buckets
        else
          b ← go_index buckets (de_Bucket ex);
          go_store buckets (de_Bucket ex) (b ++ [de_EncryptedIntro ex])
    end
  else Ret buckets.

Definition Dial_Buckets (Round : Z) : GoM dstate (result (list (list bytes))) :=
  (let! srv := d_get_srv in
   if ds_LastServer srv then
     let! round := dial_getRound Round dialRoundClosed in
     on_ok round (fun e => e) (fun round =>
     let! buckets := glift (go_make [] TotalDialBuckets) in
     let! buckets := glift (go_for bucket_add (dr_incoming round) buckets) in
     gret (Ok buckets))
   else gret (Err err_not_last))%go.

#[export] Instance DialService_remote : DialRemote dstate := {|
  rpc_DialNewRound := Dial_NewRound;
  rpc_DialAdd := Dial_Add;
  rpc_DialClose := Dial_Close;
|}.

End DialHandlers.
Arguments dstate : clear implicits.
