(* ===== verification/DialChain.v ===== *)
(** * DialChain: a dialing round through a chain of servers

    Theorems about [dial.go]: what the handlers compute, the phases of a round, and
    a whole dialing round through a chain of any length, from the onions of the
    clients to the buckets the last server publishes. The structure is that of
    [ConvoRounds] and [ConvoChain]. *)

From stdpp Require Import numbers strings pretty gmap list.
From Stdlib Require Import Strings.Byte.
From S2P Require Import Prelude Binary Wire Rand Shuffle Parallel OnionBox Pki Noise Laplace Vrpc Convo DeadDrops ConvoRounds ConvoChain Dial.

(** ** One onion, one batch *)

Lemma dial_open_eq `{Box} sk nonce size onion :
  32 <= size -> dial_open sk nonce size onion = Ret (option_list (slot_msg sk nonce size onion)).
Proof.
  intros Hs. unfold dial_open, slot_msg, peel, peel_key, box_Open. case_decide as Hl; [|done].
  unfold go_slice. rewrite !decide_True by lia. cbn [mbind outcome_bind].
  rewrite drop_0. change (Z.to_nat (32 - 0)) with 32%nat. change (Z.to_nat 32) with 32%nat.
  rewrite (take_ge (drop 32 onion)) by (rewrite length_drop; unfold zlen; lia).
  by destruct (OpenAfterPrecomputation _ _ _).
Qed.

Lemma dial_add_loop `{Box} sk nonce size onions acc :
  32 <= size ->
  go_for (fun onion messages => m ← dial_open sk nonce size onion; Ret (messages ++ m)) onions acc =
  Ret (acc ++ omap (slot_msg sk nonce size) onions).
Proof.
  intros Hs. revert acc. induction onions as [|o onions IH]; intros acc; cbn; [by rewrite app_nil_r|].
  rewrite dial_open_eq by done. cbn [mbind outcome_bind]. rewrite IH.
  destruct (slot_msg sk nonce size o); cbn; by rewrite <- ?app_assoc, ?app_nil_r.
Qed.

(** The filter is that of the conversation service on the messages alone. *)
Lemma dial_filter_eq l seen v valid idx :
  filter_loop l seen v = Ret (valid, idx) -> dial_filter_loop (omap id l) seen = Ret valid.
Proof.
  revert seen v valid idx. induction l as [|[m|] l IH]; intros seen v valid idx H; cbn in *.
  - by injection H as <- <-.
  - apply obind_ret in H as (k & -> & H). cbn [mbind outcome_bind]. case_decide.
    + apply obind_ret in H as ([v' i'] & H & [= <- <-]). by eapply IH.
    + apply obind_ret in H as ([v' i'] & H & [= <- <-]). by rewrite (IH _ _ _ _ H).
  - apply obind_ret in H as ([v' i'] & H & [= <- <-]). by eapply IH.
Qed.

Lemma omap_fmap_id {A B} (f : A -> option B) (l : list A) : omap id (f <$> l) = omap f l.
Proof. induction l as [|x l IH]; cbn; [done|]. destruct (f x); cbn; by rewrite IH. Qed.

(** ** Relations *)

Definition dial_len (n : Z) : Z := n * onionbox_Overhead + SizeDialExchange.

Section DialRelations.
Context `{HB : Box}.

Definition dial_msgs (r : Z) (sk : BoxKey) (sks : list BoxKey) (batch : list bytes) : list (option bytes) :=
  slot_msg sk (ForwardNonce r) (dial_len (zlen (sk :: sks))) <$> batch.

(** Some copy of [onion] in the batch is accepted, with message [m]. *)
Definition dial_accepted (r : Z) (sk : BoxKey) (sks : list BoxKey) (batch : list bytes) (onion m : bytes) : Prop :=
  exists i, batch !! i = Some onion /\ first_with_key (dial_msgs r sk sks batch) i m.

(** Cover traffic: a dialing exchange sealed for [sks]. *)
Definition is_dial_noise (r : Z) (sks : list BoxKey) (onion : bytes) : Prop :=
  exists m shared, zlen m = SizeDialExchange /\ peel_all sks (ForwardNonce r) onion = Some (m, shared).

(** One server: it passes on a permutation of the accepted messages, one per key,
    and of noise. *)
Definition dial_hop (r : Z) (sk : BoxKey) (sks : list BoxKey) (batch inner : list bytes) : Prop :=
  exists valid noise, inner ≡ₚ valid ++ noise /\ NoDup (key_of <$> valid) /\
    (forall m, m ∈ valid <-> exists onion, dial_accepted r sk sks batch onion m) /\
    Forall (is_dial_noise r sks) noise.

(** All servers: [batches] are the batches they receive, [final] the messages the
    last one keeps. *)
Fixpoint dial_rel (r : Z) (sks : list BoxKey) (batches : list (list bytes)) (final : list bytes) : Prop :=
  match sks, batches with
  | [], [] => True
  | sk :: sks', batch :: batches' =>
      dial_hop r sk sks' batch (default final (head batches')) /\ dial_rel r sks' batches' final
  | _, _ => False
  end.

(** No copy of the onion reaches the buckets: at some server none is accepted. *)
Fixpoint dial_lost (r : Z) (sks : list BoxKey) (batches : list (list bytes)) (onion : bytes) : Prop :=
  match sks, batches with
  | sk :: sks', batch :: batches' =>
      (forall m, ~ dial_accepted r sk sks' batch onion m) \/
      (exists m, dial_accepted r sk sks' batch onion m /\ dial_lost r sks' batches' m)
  | _, _ => False
  end.

Lemma dial_accepted_dec r sk sks batch onion :
  (exists m, dial_accepted r sk sks batch onion m) \/ (forall m, ~ dial_accepted r sk sks batch onion m).
Proof.
  assert (forall k, (exists i m, (i < k)%nat /\ batch !! i = Some onion /\ first_with_key (dial_msgs r sk sks batch) i m) \/
    (forall i m, (i < k)%nat -> batch !! i = Some onion -> ~ first_with_key (dial_msgs r sk sks batch) i m)) as Hk.
  { induction k as [|k IH]; [right; lia|]. destruct IH as [(i & m & Hi & H)|Hn]; [left; exists i, m; split; [lia|done]|].
    destruct (first_with_key_dec (dial_msgs r sk sks batch) k) as [[m Hm]|Hno].
    - destruct (decide (batch !! k = Some onion)) as [Hb|Hb]; [left; by exists k, m; split; [lia|]|].
      right. intros i m' Hi Ho. destruct (decide (i = k)) as [->|]; [done|]. apply Hn; [lia|done].
    - right. intros i m' Hi Ho. destruct (decide (i = k)) as [->|]; [apply Hno|]. apply Hn; [lia|done]. }
  destruct (Hk (length batch)) as [(i & m & _ & H)|Hn].
  - left. exists m, i. done.
  - right. intros m (i & Ho & Hf). apply (Hn i m); [by eapply lookup_lt_Some|done|done].
Qed.

Lemma dial_accepted_peel r sk sks batch onion m :
  dial_accepted r sk sks batch onion m -> peel sk (ForwardNonce r) onion = Some m.
Proof.
  intros (i & Ho & Hm & _). unfold dial_msgs in Hm. rewrite list_lookup_fmap, Ho in Hm. cbn in Hm.
  injection Hm as Hm. unfold slot_msg in Hm. by case_decide.
Qed.

Lemma dial_rel_deliver r sks batches final onion :
  dial_rel r sks batches final -> onion ∈ default final (head batches) ->
  dial_lost r sks batches onion \/
  exists m shared, peel_all sks (ForwardNonce r) onion = Some (m, shared) /\ m ∈ final.
Proof.
  revert batches onion. induction sks as [|sk sks IH]; intros [|batch batches] onion Hrel Hin;
    cbn [dial_rel head option_map] in *; try done.
  - right. by exists onion, [].
  - destruct Hrel as [(valid & noise & Hp & _ & Hv & _) Hrel]. cbn [dial_lost].
    destruct (dial_accepted_dec r sk sks batch onion) as [[m Hm]|]; [|by left; left].
    assert (m ∈ default final (head batches)) as Hin'.
    { rewrite Hp. apply elem_of_app. left. apply Hv. eauto. }
    destruct (IH batches m Hrel Hin') as [Hlost|(m' & shared & Hpeel & Hf)]; [left; right; eauto|].
    right. exists m', (peel_key sk onion :: shared). split; [|done]. cbn [peel_all].
    rewrite (dial_accepted_peel _ _ _ _ _ _ Hm). cbn [mbind option_bind]. by rewrite Hpeel.
Qed.

End DialRelations.

(** ** The handlers *)

Section DialHandlerLemmas.
Context {C R : Type} `{HF : Fuel, HR : Reader R, HB : Box, HK : !KeyGen R, HE : FloatEnv, HC : DialRemote C}.
Implicit Types (srv : DialService C) (g : R) (rd : DialRound).

Definition dwith_round (round : Z) rd srv : DialService C :=
  ds_set_rounds (<[round := rd]> (ds_rounds srv)) srv.

Lemma dwith_round_lookup round rd srv : ds_rounds (dwith_round round rd srv) !! round = Some rd.
Proof. apply lookup_insert_eq. Qed.

Lemma dwith_round_twice round rd rd' srv :
  dwith_round round rd' (dwith_round round rd srv) = dwith_round round rd' srv.
Proof. unfold dwith_round, ds_set_rounds. cbn. by rewrite insert_insert_eq. Qed.

Definition dial_status_at srv (round : Z) : option dialStatus := dr_status <$> ds_rounds srv !! round.

Definition dial_phase_error srv (round : Z) (expected : dialStatus) : option string :=
  match dial_status_at srv round with
  | None => Some (err_not_found round)
  | Some st => if decide (st = expected) then None else Some (err_dial_status round st expected)
  end.

Lemma dial_getRound_ok round st srv g rd :
  ds_rounds srv !! round = Some rd -> dr_status rd = st ->
  dial_getRound round st (srv, g) = Ret (Ok rd, (srv, g)).
Proof.
  intros Hr Hs. unfold dial_getRound, d_get_srv, gbind. cbn [fst]. rewrite Hr. by rewrite decide_True.
Qed.

Lemma dial_getRound_err round st srv g e :
  dial_phase_error srv round st = Some e -> dial_getRound round st (srv, g) = Ret (Err e, (srv, g)).
Proof.
  unfold dial_phase_error, dial_status_at, dial_getRound, d_get_srv, gbind. cbn [fst].
  destruct (ds_rounds srv !! round) as [rd|]; cbn [fmap option_fmap option_map].
  - by case_decide; [|intros [= <-]].
  - by intros [= <-].
Qed.

Definition dial_size srv : Z := IncomingOnionOverhead (ds_PKI srv) (ds_ServerName srv) + SizeDialExchange.

Lemma dial_size_min srv : 32 <= dial_size srv.
Proof.
  unfold dial_size, IncomingOnionOverhead, Index.
  pose proof (index_loop_bound (pki_ServerOrder (ds_PKI srv)) (ds_ServerName srv) 0 0 ltac:(lia)).
  unfold SizeDialExchange, SizeEncryptedIntro, SizeIntroduction, onionbox_Overhead, box_Overhead. nia.
Qed.

(** The round after more onions were added. *)
Definition dial_added srv (round : Z) (onions : list bytes) rd : DialRound :=
  mkDialRound (dr_status rd)
    (dr_incoming rd ++ omap (slot_msg (ds_PrivateKey srv) (ForwardNonce round) (dial_size srv)) onions) (dr_noise rd).

Lemma Dial_Add_eq round onions srv g rd :
  ds_rounds srv !! round = Some rd -> dr_status rd = dialRoundOpen ->
  Dial_Add (mkDialAddArgs round onions) (srv, g) =
  Ret (Ok tt, (dwith_round round (dial_added srv round onions rd) srv, g)).
Proof.
  intros Hr Hs. unfold Dial_Add. cbn [da_Round da_Onions].
  rewrite (gbind_eq _ _ _ _ _ (dial_getRound_ok _ _ _ _ _ Hr Hs)). cbn [on_ok].
  unfold d_get_srv at 1, gbind at 1. cbn [fst]. fold (dial_size srv).
  rewrite dial_add_loop by apply dial_size_min. done.
Qed.

(** All [Add]s of a batch, span by span. *)
Lemma Dial_Add_spans round i spans srv g rd onions :
  0 <= i -> covers (zlen onions) i spans ->
  ds_rounds srv !! round = Some rd -> dr_status rd = dialRoundOpen ->
  exists us, CallMany Dial_Add ((fun sp => mkDialAddArgs round (span_onions onions sp)) <$> spans) (srv, g) =
  Ret (Ok us, (if decide (spans = []) then srv else dwith_round round (dial_added srv round (drop (Z.to_nat i) onions) rd) srv, g)).
Proof.
  intros Hi Hc. revert Hi srv rd. induction Hc as [|i c l Hi0 Hc Hle Hcov IH]; intros Hi srv rd Hr Hs; cbn [fmap list_fmap CallMany].
  { by exists []. }
  rewrite (gbind_eq _ _ _ _ _ (Dial_Add_eq _ _ _ _ _ Hr Hs)). cbn [on_ok].
  set (os := span_onions onions (mkSpan i c)).
  destruct (IH ltac:(lia) (dwith_round round (dial_added srv round os rd) srv) (dial_added srv round os rd)
    (dwith_round_lookup _ _ _) Hs) as [us Hus].
  exists (tt :: us). rewrite (gbind_eq _ _ _ _ _ Hus). cbn [on_ok]. unfold gret. do 3 f_equal.
  rewrite (decide_False (P := mkSpan i c :: l = [])) by done.
  assert (drop (Z.to_nat i) onions = os ++ drop (Z.to_nat (i + c)) onions) as Hd.
  { unfold os, span_onions. cbn [sp_Start sp_Count].
    replace (Z.to_nat (i + c)) with (Z.to_nat i + Z.to_nat c)%nat by lia. by rewrite <- drop_drop, take_drop. }
  rewrite Hd. case_decide as Hl.
  - subst l. assert (i + c = zlen onions) as He by (by inversion Hcov).
    rewrite (drop_ge onions (Z.to_nat (i + c))) by (unfold zlen in He; lia). by rewrite app_nil_r.
  - rewrite dwith_round_twice. f_equal. unfold dial_added. cbn. f_equal. by rewrite omap_app, app_assoc.
Qed.

(** [RunDialRound] up to [Close]. *)
Lemma RunDialRound_to_Close round onions srv g rd :
  ds_rounds srv !! round = Some rd -> dr_status rd = dialRoundOpen -> zlen onions + 4000 < 2 ^ 63 ->
  RunDialRound (C := dstate C R) round onions (srv, g) =
  (let! err := Dial_Close round in
   on_ok err (fun e => "Close: " +:+ e) (fun _ => gret (Ok tt)))%go
    (dwith_round round (dial_added srv round onions rd) srv, g).
Proof.
  intros Hr Hs Hlt. pose proof (zlen_nonneg onions) as Hz.
  destruct (Spans_covers (zlen onions) 4000) as (spans & Hsp & Hcov); [lia..|].
  unfold RunDialRound. rewrite Hsp. unfold glift at 1, gbind at 1.
  rewrite (gbind_eq _ _ _ ((fun sp => mkDialAddArgs round (span_onions onions sp)) <$> spans) (srv, g)).
  2: { apply go_map_pure. intros sp Hin. destruct (covers_elem _ _ _ _ Hcov Hin) as (H1 & H2 & H3).
       rewrite i64_small by lia. unfold go_slice, span_onions. rewrite decide_True by lia.
       unfold glift, gbind, gret.
       by replace (sp_Start sp + sp_Count sp - sp_Start sp) with (sp_Count sp) by lia. }
  cbn [rpc_DialAdd rpc_DialClose DialService_remote].
  destruct (Dial_Add_spans round 0 spans srv g rd onions ltac:(lia) Hcov Hr Hs) as [us Hus].
  rewrite (gbind_eq _ _ _ _ _ Hus). cbn [on_ok]. case_decide as Hl; [|done].
  subst spans. inversion Hcov as [He|]. assert (onions = []) as -> by (apply nil_length_inv; unfold zlen in He; lia).
  f_equal. f_equal. unfold dwith_round, dial_added. cbn. rewrite app_nil_r.
  destruct rd. cbn. rewrite insert_id by done. by destruct srv.
Qed.

End DialHandlerLemmas.

(** ** Buckets *)

(** The introductions for bucket [b] among the messages, in order. *)
Definition intro_for (b : Z) (m : bytes) : option bytes :=
  if decide (zlen m = SizeDialExchange) then
    match DialExchange_Unmarshal m with
    | Ok ex => if decide (de_Bucket ex = b) then Some (de_EncryptedIntro ex) else None
    | Err _ => None
    end
  else None.
Definition intros_of (b : Z) (msgs : list bytes) : list bytes := omap (intro_for b) msgs.

Lemma unmarshal_dial m : zlen m = SizeDialExchange ->
  exists ex, DialExchange_Unmarshal m = Ok ex /\ 0 <= de_Bucket ex < 2 ^ 32.
Proof.
  intros Hm. assert (length m = fsize (A := DialExchange)) as Hl by (unfold zlen in Hm; cbn; lia).
  unfold DialExchange_Unmarshal. destruct (binary_Read m) as [ex|e] eqn:E.
  - exists ex. split; [done|]. by destruct (Write_Read _ _ Hl E) as [_ [Hb _]].
  - unfold binary_Read in E. rewrite decide_True in E by lia. done.
Qed.

Lemma imap_same {A} (f : nat -> A -> A) (l : list A) : (forall i x, l !! i = Some x -> f i x = x) -> imap f l = l.
Proof.
  intros Hf. apply list_eq. intros i. rewrite list_lookup_imap. destruct (l !! i) as [x|] eqn:E; [|done].
  cbn. by rewrite (Hf i x E).
Qed.

Lemma bucket_add_eq m buckets :
  zlen buckets < 2 ^ 32 ->
  bucket_add m buckets = Ret (imap (fun b l => l ++ option_list (intro_for (Z.of_nat b) m)) buckets).
Proof.
  intros Hb. unfold bucket_add, intro_for.
  assert (forall bs : list (list bytes), imap (fun b l => l ++ option_list None) bs = bs) as Hid.
  { intros bs. apply imap_same. intros i l _. apply app_nil_r. }
  case_decide as Hl; [|by rewrite Hid]. destruct (unmarshal_dial m Hl) as (ex & -> & Hr).
  pose proof (zlen_nonneg buckets). rewrite u32_small by lia. case_decide as Ho.
  - f_equal. symmetry. apply imap_same. intros i l Hi. apply lookup_lt_Some in Hi. unfold zlen in Ho.
    rewrite decide_False by lia. apply app_nil_r.
  - destruct (lookup_lt_is_Some_2 buckets (Z.to_nat (de_Bucket ex))) as [l Hlk]; [unfold zlen in Ho; lia|].
    rewrite (proj2 (go_index_ret buckets (de_Bucket ex) l)) by (split; [lia|done]). cbn [mbind outcome_bind].
    apply go_store_ret. split; [lia|]. apply list_eq. intros k. rewrite list_lookup_imap.
    destruct (decide (k = Z.to_nat (de_Bucket ex))) as [->|Hne].
    + rewrite list_lookup_insert_eq by (by eapply lookup_lt_Some). rewrite Hlk. cbn.
      by rewrite decide_True by lia.
    + rewrite list_lookup_insert_ne by done. destruct (buckets !! k) as [lk|]; [|done]. cbn.
      rewrite decide_False by lia. cbn. by rewrite app_nil_r.
Qed.

Lemma bucket_loop msgs buckets :
  zlen buckets < 2 ^ 32 ->
  go_for bucket_add msgs buckets = Ret (imap (fun b l => l ++ intros_of (Z.of_nat b) msgs) buckets).
Proof.
  revert buckets. induction msgs as [|m msgs IH]; intros buckets Hb; cbn [go_for].
  - f_equal. symmetry. apply imap_same. intros i l _. apply app_nil_r.
  - rewrite bucket_add_eq by done. cbn [mbind outcome_bind]. rewrite IH by (unfold zlen; by rewrite length_imap).
    f_equal. apply list_eq. intros i. rewrite !list_lookup_imap. destruct (buckets !! i) as [l|]; [|done]. cbn.
    rewrite <- app_assoc. do 2 f_equal. unfold intros_of. cbn. by destruct (intro_for (Z.of_nat i) m).
Qed.

Section DialBuckets.
Context {C R : Type} `{HF : Fuel, HR : Reader R, HB : Box, HK : !KeyGen R, HE : FloatEnv, HC : DialRemote C}.
Implicit Types (srv : DialService C) (g : R) (rd : DialRound).

Lemma Dial_Buckets_ok round srv g rd :
  ds_LastServer srv = true -> ds_rounds srv !! round = Some rd -> dr_status rd = dialRoundClosed ->
  exists buckets, Dial_Buckets round (srv, g) = Ret (Ok buckets, (srv, g)) /\
    length buckets = Z.to_nat TotalDialBuckets /\
    forall b, 0 <= b < TotalDialBuckets -> buckets !! Z.to_nat b = Some (intros_of b (dr_incoming rd)).
Proof.
  intros Hl Hr Hs. unfold Dial_Buckets. unfold d_get_srv at 1, gbind at 1. cbn [fst]. rewrite Hl.
  rewrite (gbind_eq _ _ _ _ _ (dial_getRound_ok _ _ _ _ _ Hr Hs)). cbn [on_ok].
  change (go_make (A := list bytes) [] TotalDialBuckets) with (Ret (replicate (Z.to_nat TotalDialBuckets) (A := list bytes) [])).
  unfold glift at 1, gbind at 1. rewrite bucket_loop by done. eexists. split; [reflexivity|].
  rewrite length_imap, length_replicate. split; [done|]. intros b Hb.
  rewrite list_lookup_imap, lookup_replicate_2 by lia. cbn. by rewrite Z2Nat.id by lia.
Qed.

(** What the last server publishes: [Buckets] on a closed round returns one bucket
    per dialing bucket; bucket [b] holds exactly the encrypted introductions of
    the messages of the right size addressed to [b], in the order of the mixed
    messages; messages of another size or for a bucket that does not exist are
    skipped. On any other server, and in any other phase, it returns the error and
    nothing changes. *)
Lemma Dial_Buckets_spec (round : Z) (srv : DialService C) (g : R) :
  (forall rd, ds_LastServer srv = true -> ds_rounds srv !! round = Some rd -> dr_status rd = dialRoundClosed ->
   exists buckets, Dial_Buckets round (srv, g) = Ret (Ok buckets, (srv, g)) /\
    length buckets = Z.to_nat TotalDialBuckets /\
    forall b, 0 <= b < TotalDialBuckets -> buckets !! Z.to_nat b = Some (intros_of b (dr_incoming rd))) /\
  (ds_LastServer srv = false -> Dial_Buckets round (srv, g) = Ret (Err err_not_last, (srv, g))) /\
  (forall e, ds_LastServer srv = true -> dial_phase_error srv round dialRoundClosed = Some e ->
   Dial_Buckets round (srv, g) = Ret (Err e, (srv, g))).
Proof.
  split; [intros rd; apply Dial_Buckets_ok|]. unfold Dial_Buckets, d_get_srv, gbind. cbn [fst]. split.
  - by intros ->.
  - intros e -> He. by rewrite (dial_getRound_err _ _ _ _ _ He).
Qed.

End DialBuckets.

(** ** A well-configured server *)

Lemma sum_counts (cap : Z) (counts : list Z) (t : Z) :
  Forall (fun c => 0 <= c <= cap) counts -> 0 <= t -> t + zlen counts * cap < 2 ^ 63 ->
  foldl (fun t bmu => i64 (t + bmu)) t counts = t + foldr Z.add 0 counts /\
  0 <= foldr Z.add 0 counts <= zlen counts * cap.
Proof.
  intros Hc. revert t. induction Hc as [|c counts Hc Hcs IH]; intros t Ht Hb; [change (zlen []) with 0; cbn [foldl foldr]; lia|].
  assert (zlen (c :: counts) = 1 + zlen counts) as Hz by (unfold zlen; cbn [length]; lia).
  pose proof (zlen_nonneg counts). rewrite Hz in *. cbn [foldl foldr].
  assert (0 <= zlen counts * cap) by nia.
  rewrite i64_small by nia. destruct (IH (t + c)) as [-> Hs]; [lia|nia|]. nia.
Qed.

Definition dial_cfg {C R} `{Fuel, FullReader R, FloatEnv, BoxLaws} (cap : Z) (kps : list (BoxKey * BoxKey))
    (srv : DialService C) : Prop :=
  dial_size srv = dial_len (zlen kps) /\ Forall (fun k => keypair k.1 k.2) kps /\
  noise_live (R := R) cap (ds_LaplaceMu srv) (ds_LaplaceB srv) /\
  match kps with
  | [] => False
  | (pk, sk) :: kps' =>
      ds_PrivateKey srv = sk /\ ds_LastServer srv = bool_decide (kps' = []) /\
      NextServerKeys (ds_PKI srv) (ds_ServerName srv) = Ret ((fun k => Some k.1) <$> kps')
  end.
Arguments dial_cfg {C} R {_ _ _ _ _ _} cap kps srv.

Lemma dial_cfg_pki {C R} `{Fuel, FullReader R, FloatEnv, BoxLaws} cap kps (srv : DialService C) (j : nat) pk :
  pki_wf (ds_PKI srv) (fst <$> kps) -> Forall (fun k => keypair k.1 k.2) kps ->
  pki_ServerOrder (ds_PKI srv) !! j = Some (ds_ServerName srv) ->
  kps !! j = Some (pk, ds_PrivateKey srv) ->
  ds_LastServer srv = bool_decide (S j = length kps) ->
  noise_live (R := R) cap (ds_LaplaceMu srv) (ds_LaplaceB srv) ->
  dial_cfg R cap (drop j kps) srv.
Proof.
  intros Hwf Hkp Hj Hk Hlast Hnoise. destruct (Incoming_overhead _ _ _ _ Hwf Hj) as [Hin _].
  unfold dial_cfg, dial_size, dial_len. rewrite Hin.
  rewrite <- fmap_drop. unfold zlen. rewrite length_fmap. split_and!; [done|by apply Forall_drop|done|].
  rewrite (drop_S _ _ _ Hk). split_and!; [done| |].
  - rewrite Hlast. apply bool_decide_ext. split; intros He.
    + apply drop_ge. lia.
    + apply (f_equal length) in He. rewrite length_drop in He. cbn in He. apply lookup_lt_Some in Hk. lia.
  - rewrite (NextServerKeys_drop _ _ _ _ Hwf Hj). by rewrite <- fmap_drop, <- list_fmap_compose.
Qed.

(** ** The interface between servers *)

Definition dial_batch_ok (cap : Z) (kps : list (BoxKey * BoxKey)) (batch : list bytes) : Prop :=
  zlen batch + zlen kps * (TotalDialBuckets * cap) < 2 ^ 32.

(** Running a started round always succeeds. [dial_buckets r c] is what the last
    server answers to [Buckets]. *)
Class DialChainRemote (C : Type) `{DialRemote C, Box} (cap : Z) (kps : list (BoxKey * BoxKey)) := {
  dial_ready : (Z -> Prop) -> C -> Prop;
  dial_started : (Z -> Prop) -> Z -> C -> Prop;
  dial_buckets : Z -> C -> outcome (result (list (list bytes)));
  dial_chain_NewRound : forall P r c, dial_ready P c -> P r ->
    exists c', NewDialRound r c = Ret (Ok tt, c') /\ dial_started P r c';
  dial_chain_Run : forall P r c onions, dial_started P r c -> dial_batch_ok cap kps onions ->
    exists c' batches final buckets, RunDialRound r onions c = Ret (Ok tt, c') /\
      dial_ready (fun r' => P r' /\ r' <> r) c' /\
      default final (head batches) = onions /\ dial_rel r (snd <$> kps) batches final /\
      dial_buckets r c' = Ret (Ok buckets) /\ length buckets = Z.to_nat TotalDialBuckets /\
      forall b, 0 <= b < TotalDialBuckets -> buckets !! Z.to_nat b = Some (intros_of b final);
}.

Section DialServer.
Context {C R : Type} `{HF : Fuel, HR : Reader R, HFR : !FullReader R, HLR : !LiveReader R fuel, HB : Box, HL : !BoxLaws, HK : !KeyGen R,
  HKL : !KeyGenLaws R, HE : FloatEnv, HC : DialRemote C}.
Context (cap : Z) (Hcap : 0 <= cap < 2 ^ 31).
Context (next_ready : (Z -> Prop) -> C -> Prop).
Implicit Types (srv : DialService C) (g : R) (rd : DialRound) (P : Z -> Prop).

Lemma d_on_rand_eq {A} (m : GoM R A) srv g a g' :
  m g = Ret (a, g') -> d_on_rand m (srv, g) = Ret (a, (srv, g')).
Proof. intros Hm. unfold d_on_rand, gzoom. cbn. by rewrite Hm. Qed.

Lemma d_on_client_eq {A} (m : GoM C A) srv g a c :
  m (ds_Client srv) = Ret (a, c) -> d_on_client m (srv, g) = Ret (a, (ds_set_Client c srv, g)).
Proof. intros Hm. unfold d_on_client, gzoom. cbn. by rewrite Hm. Qed.

Lemma dial_noise_ok r pk sk kps' srv0 srv g :
  dial_cfg R cap ((pk, sk) :: kps') srv0 -> reader_ok g ->
  exists noise g', dial_noise r srv0 (srv, g) = Ret (noise, (srv, g')) /\
    zlen noise <= TotalDialBuckets * cap /\ Forall (is_dial_noise r (snd <$> kps')) noise /\ reader_ok g'.
Proof using Hcap HKL.
  intros (_ & Hkp & Hlive & _ & _ & Hkeys) Hok.
  destruct (go_map_total (fun s => s.1 = srv /\ reader_ok s.2) (fun _ c => 0 <= c <= cap)
    (fun _ : Z => d_on_rand (cappedFlooredLaplace fuel (ds_LaplaceMu srv0) (ds_LaplaceB srv0)))
    (seqZ 0 TotalDialBuckets) (srv, g)) as (counts & [srv1 g1] & Hm & Hf & [Hs1 Hok1]); [done| |].
  { intros b [srv2 g2] _ [Hs2 Hok2]. cbn in Hs2, Hok2. subst srv2.
    destruct (Hlive g2 Hok2) as (n & g3 & Hn & Hr & Hok3). exists n, (srv, g3). split; [by apply d_on_rand_eq|done]. }
  cbn in Hs1, Hok1. subst srv1. pose proof (Forall2_length _ _ _ Hf) as Hlen.
  assert (Forall (fun c => 0 <= c <= cap) counts) as Hc.
  { apply Forall_lookup. intros i c Hi. by destruct (Forall2_lookup_r _ _ _ _ _ Hf Hi) as (? & _ & ?). }
  assert (zlen counts = TotalDialBuckets) as Hz by (unfold zlen; rewrite <- Hlen, length_seqZ; done).
  destruct (sum_counts cap counts 0 Hc) as [Hsum Hb]; [lia|rewrite Hz; unfold TotalDialBuckets; lia|].
  rewrite Z.add_0_l in Hsum. inversion Hkp as [|? ? _ Hkp']; subst.
  destruct (fill_intros_ok kps' (ForwardNonce r) Hkp'
    (replicate (Z.to_nat (foldr Z.add 0 counts)) []) counts g1 Hok1) as (noise & g2 & Hfill & Hf2 & _ & Hok2).
  { eapply Forall_impl; [exact Hc|]. cbn. lia. }
  { unfold zlen. rewrite length_replicate. lia. }
  exists noise, g2. split_and!; [| | |done].
  - unfold dial_noise. rewrite (gbind_eq _ _ _ _ _ Hm). cbn zeta. rewrite Hsum.
    unfold go_make. rewrite decide_True by lia. unfold glift at 1, gbind at 1. rewrite Hkeys.
    unfold glift at 1, gbind at 1. unfold Keys. rewrite list_fmap_id. by apply d_on_rand_eq.
  - apply Forall2_length in Hf2. unfold zlen. rewrite <- Hf2.
    pose proof (bucket_list_length counts 0) as Hbl. unfold zlen in Hbl at 1. rewrite Hbl; [lia|].
    eapply Forall_impl; [exact Hc|]. cbn. lia.
  - apply Forall_lookup. intros i o Hi. destruct (Forall2_lookup_r _ _ _ _ _ Hf2 Hi) as (? & _ & m & Hzm & _ & _ & sh & Hp & _).
    by exists m, sh.
Qed.

Definition dserver_ready (kps : list (BoxKey * BoxKey)) P (s : dstate C R) : Prop :=
  dial_cfg R cap kps s.1 /\ ds_Idle s.1 = false /\ (forall r, P r -> ds_rounds s.1 !! r = None) /\
  reader_ok s.2 /\ next_ready P (ds_Client s.1).

Definition dserver_started (kps : list (BoxKey * BoxKey)) P (r : Z) (s : dstate C R) : Prop :=
  dial_cfg R cap kps s.1 /\ ds_Idle s.1 = true /\ P r /\
  (forall r', P r' -> r' <> r -> ds_rounds s.1 !! r' = None) /\
  (exists rd, ds_rounds s.1 !! r = Some rd /\ dr_status rd = dialRoundOpen /\ dr_incoming rd = [] /\
     zlen (dr_noise rd) <= TotalDialBuckets * cap /\ Forall (is_dial_noise r (snd <$> tail kps)) (dr_noise rd)) /\
  reader_ok s.2 /\ next_ready P (ds_Client s.1).

Lemma Dial_NewRound_started kps P r s :
  dserver_ready kps P s -> P r -> exists s', Dial_NewRound r s = Ret (Ok tt, s') /\ dserver_started kps P r s'.
Proof using Hcap HKL.
  destruct s as [srv g]. intros (Hcfg & Hidle & Hfree & Hok & Hnext) HP. cbn [fst snd] in *.
  destruct kps as [|[pk sk] kps']; [by destruct Hcfg as (_ & _ & _ & [])|].
  set (srv1 := ds_set_Idle true srv).
  destruct (dial_noise_ok r pk sk kps' srv1 srv1 g) as (noise & g' & Hn & Hz & Hf & Hok'); [exact Hcfg|done|].
  exists (dwith_round r (mkDialRound dialRoundOpen [] noise) srv1, g'). split.
  - unfold Dial_NewRound, d_Idle_Lock, gbind at 1. cbn [fst snd]. rewrite Hidle.
    unfold d_get_srv at 1, gbind at 1. cbn [fst snd]. fold srv1. cbn [ds_rounds srv1 ds_set_Idle].
    rewrite (Hfree r HP). by rewrite (gbind_eq _ _ _ _ _ Hn).
  - split_and!; try done.
    + intros r' HP' Hne. cbn. rewrite lookup_insert_ne by done. by apply Hfree.
    + exists (mkDialRound dialRoundOpen [] noise). split; [apply dwith_round_lookup|done].
Qed.

Lemma dial_msgs_long r sk sks batch : long_enough (dial_msgs r sk sks batch).
Proof using HL.
  apply Forall_fmap, Forall_forall. intros o _. cbn.
  destruct (slot_msg _ _ _ _) as [m|] eqn:Hm; [|done]. pose proof (zlen_nonneg sks).
  assert (zlen (sk :: sks) = 1 + zlen sks) as Hz by (unfold zlen; cbn [length]; lia).
  unfold dial_len, SizeDialExchange, SizeEncryptedIntro, SizeIntroduction, onionbox_Overhead, box_Overhead in Hm.
  rewrite Hz in Hm. apply slot_msg_length in Hm; [|lia]. unfold onionbox_Overhead, box_Overhead, zlen in *. lia.
Qed.

(** [Close] of a round with a whole batch, up to the branch: the filtered messages and
    the noise, shuffled. *)
Lemma Dial_Close_mixed pk sk kps' r srv g onions rd :
  dial_cfg R cap ((pk, sk) :: kps') srv -> dr_status rd = dialRoundOpen -> dr_incoming rd = [] ->
  Forall (is_dial_noise r (snd <$> kps')) (dr_noise rd) ->
  zlen onions + zlen (dr_noise rd) < 2 ^ 32 -> reader_ok g ->
  exists inner g2, reader_ok g2 /\ dial_hop r sk (snd <$> kps') onions inner /\
    zlen inner <= zlen onions + zlen (dr_noise rd) /\
    Dial_Close r (dwith_round r (dial_added srv r onions rd) srv, g) =
    (if ds_LastServer srv then
       d_Idle_Unlock ;;; d_put_round r (mkDialRound dialRoundClosed inner []) ;;; gret (Ok tt)
     else
       let! err := d_on_client (NewDialRound r) in
       on_ok err (fun e => "NewDialRound: " +:+ e) (fun _ =>
       d_Idle_Unlock ;;;
       let! err := d_on_client (RunDialRound r inner) in
       on_ok err (fun e => "RunDialRound: " +:+ e) (fun _ =>
       d_put_round r (mkDialRound dialRoundClosed [] []) ;;;
       gret (Ok tt))))%go (dwith_round r (mkDialRound dialRoundOpen inner (dr_noise rd)) srv, g2).
Proof using HL HLR.
  intros (Hsize & _ & _ & Hsk & _) Hst Hinc Hnoise Hlt Hok. set (rd0 := dial_added srv r onions rd).
  set (msgs := dial_msgs r sk (snd <$> kps') onions).
  assert (dr_incoming rd0 = omap id msgs) as Hmsgs.
  { unfold rd0, msgs, dial_msgs, dial_added. cbn [dr_incoming]. rewrite Hinc, omap_fmap_id, Hsk, Hsize.
    unfold zlen. cbn [length]. by rewrite length_fmap. }
  destruct (filter_loop_ok msgs ∅ 0) as (valid & idx & Hf & Hfil); [lia|apply dial_msgs_long|].
  pose proof (filtered_length _ _ _ Hfil) as Hvl. unfold msgs, dial_msgs in Hvl. rewrite length_fmap in Hvl.
  set (out := valid ++ dr_noise rd).
  assert (zlen out <= zlen onions + zlen (dr_noise rd)) as Hzo by (unfold out; rewrite zlen_app; unfold zlen; lia).
  destruct (NewShuffler_ret (zlen out) g) as (sh & g2 & Hsh & Hsok & Hsl & Hok2); [done|pose proof (zlen_nonneg out); lia|].
  assert (length sh = length out) as Hlen by (unfold zlen in Hsl; lia).
  exists (shuf sh (length out) out), g2. split; [done|]. split; [|split].
  - exists valid, (dr_noise rd). split_and!; [by apply shuf_perm|apply Hfil| |done].
    intros m. rewrite (filtered_valid _ _ _ _ Hfil). split.
    + intros (i & Hi). assert (i < length onions)%nat as Hil.
      { destruct Hi as [Hi _]. apply lookup_lt_Some in Hi. unfold msgs, dial_msgs in Hi. by rewrite length_fmap in Hi. }
      destruct (lookup_lt_is_Some_2 _ _ Hil) as [o Ho]. exists o, i. done.
    + intros (o & i & _ & Hi). by exists i.
  - unfold zlen in *. by rewrite shuf_length.
  - unfold Dial_Close.
    rewrite (gbind_eq _ _ _ _ _ (dial_getRound_ok r dialRoundOpen (dwith_round r rd0 srv) g rd0 (dwith_round_lookup _ _ _) Hst)).
    cbn [on_ok]. unfold dial_filterIncoming. rewrite Hmsgs, (dial_filter_eq _ _ _ _ _ Hf).
    cbn [mbind outcome_bind]. unfold glift at 1, gbind at 1. cbn [dr_incoming dr_noise dr_status].
    change (dr_noise rd0) with (dr_noise rd). fold out.
    rewrite (gbind_eq _ _ _ _ _ (d_on_rand_eq _ (dwith_round r rd0 srv) _ _ _ Hsh)).
    rewrite Shuffle_shuf by (done || lia). unfold glift at 1, gbind at 1.
    unfold d_put_round at 1, d_put_srv at 1, gbind at 1. cbn [fst snd].
    change (dr_status rd0) with (dr_status rd). rewrite Hst.
    set (rd1 := mkDialRound dialRoundOpen _ (dr_noise rd)).
    pose proof (dwith_round_twice r rd0 rd1 srv) as Htw. unfold dwith_round at 1 in Htw. rewrite Htw. done.
Qed.

Lemma Dial_Run_last pk sk P r s onions :
  (forall P c, next_ready P c) ->
  dserver_started [(pk, sk)] P r s -> dial_batch_ok cap [(pk, sk)] onions ->
  exists s' final buckets, RunDialRound r onions s = Ret (Ok tt, s') /\
    dserver_ready [(pk, sk)] (fun r' => P r' /\ r' <> r) s' /\
    dial_rel r [sk] [onions] final /\
    Dial_Buckets r s' = Ret (Ok buckets, s') /\ length buckets = Z.to_nat TotalDialBuckets /\
    forall b, 0 <= b < TotalDialBuckets -> buckets !! Z.to_nat b = Some (intros_of b final).
Proof using Hcap HL HLR.
  destruct s as [srv g]. intros Hany (Hcfg & Hidle & HP & Hfree & (rd & Hr & Hst & Hinc & Hnz & Hnoise) & Hok & Hnext) Hb.
  cbn [fst snd] in *. unfold dial_batch_ok in Hb. change (zlen [(pk, sk)]) with 1 in Hb.
  destruct (Dial_Close_mixed pk sk [] r srv g onions rd Hcfg Hst Hinc Hnoise) as (inner & g2 & Hok2 & Hhop & Hzi & Hclose);
    [lia|done|].
  pose proof Hcfg as (_ & _ & _ & _ & Hlast & _). rewrite bool_decide_true in Hlast by done. rewrite Hlast in Hclose.
  set (srv2 := dwith_round r (mkDialRound dialRoundClosed inner []) (ds_set_Idle false (dwith_round r (mkDialRound dialRoundOpen inner (dr_noise rd)) srv))).
  assert (Dial_Close r (dwith_round r (dial_added srv r onions rd) srv, g) = Ret (Ok tt, (srv2, g2))) as Hcl.
  { rewrite Hclose. unfold d_Idle_Unlock, gbind at 1. cbn [fst snd ds_Idle dwith_round ds_set_rounds]. by rewrite Hidle. }
  destruct (Dial_Buckets_ok r srv2 g2 (mkDialRound dialRoundClosed inner [])) as (buckets & Hbk & Hbl & Hbs);
    [done|apply dwith_round_lookup|done|].
  exists (srv2, g2), inner, buckets. split_and!; try done.
  - rewrite (RunDialRound_to_Close _ _ _ _ _ Hr Hst) by (pose proof (zlen_nonneg (dr_noise rd)); unfold TotalDialBuckets in *; lia).
    by rewrite (gbind_eq _ _ _ _ _ Hcl).
  - split_and!; try done. intros r' [HP' Hne]. cbn. rewrite !lookup_insert_ne by done. by apply Hfree.
Qed.

End DialServer.

Section DialForward.
Context {C R : Type} `{HF : Fuel, HR : Reader R, HFR : !FullReader R, HLR : !LiveReader R fuel, HB : Box, HL : !BoxLaws, HK : !KeyGen R,
  HKL : !KeyGenLaws R, HE : FloatEnv, HC : DialRemote C}.
Context (cap : Z) (Hcap : 0 <= cap < 2 ^ 31) (kps' : list (BoxKey * BoxKey)) (Hne : kps' <> []).
Context {HN : DialChainRemote C cap kps'}.

Lemma Dial_Run_forward pk sk P r (s : dstate C R) onions :
  dserver_started cap dial_ready ((pk, sk) :: kps') P r s -> dial_batch_ok cap ((pk, sk) :: kps') onions ->
  exists s' batches final buckets, RunDialRound r onions s = Ret (Ok tt, s') /\
    dserver_ready cap dial_ready ((pk, sk) :: kps') (fun r' => P r' /\ r' <> r) s' /\
    default final (head batches) = onions /\ dial_rel r (snd <$> ((pk, sk) :: kps')) batches final /\
    dial_buckets r (ds_Client s'.1) = Ret (Ok buckets) /\ length buckets = Z.to_nat TotalDialBuckets /\
    forall b, 0 <= b < TotalDialBuckets -> buckets !! Z.to_nat b = Some (intros_of b final).
Proof using Hcap HL HLR Hne.
  destruct s as [srv g]. intros (Hcfg & Hidle & HP & Hfree & (rd & Hr & Hst & Hinc & Hnz & Hnoise) & Hok & Hnext) Hb.
  cbn [fst snd tail] in *. unfold dial_batch_ok in Hb.
  assert (zlen ((pk, sk) :: kps') = zlen kps' + 1) as Hz by (unfold zlen; cbn [length]; lia). rewrite Hz in Hb.
  pose proof (zlen_nonneg kps') as Hk0. pose proof (zlen_nonneg (dr_noise rd)) as Hn0.
  assert (0 <= zlen kps' * (TotalDialBuckets * cap)) by (unfold TotalDialBuckets; nia).
  destruct (Dial_Close_mixed cap pk sk kps' r srv g onions rd Hcfg Hst Hinc Hnoise)
    as (inner & g2 & Hok2 & Hhop & Hzi & Hclose); [lia|done|].
  pose proof Hcfg as (_ & _ & _ & _ & Hlast & _). rewrite bool_decide_false in Hlast by done. rewrite Hlast in Hclose.
  set (srv1 := dwith_round r (mkDialRound dialRoundOpen inner (dr_noise rd)) srv) in Hclose.
  destruct (dial_chain_NewRound P r (ds_Client srv1) Hnext HP) as (c1 & Hnew & Hst1).
  assert (dial_batch_ok cap kps' inner) as Hbi by (unfold dial_batch_ok; lia).
  destruct (dial_chain_Run P r c1 inner Hst1 Hbi)
    as (c2 & batches & final & buckets & Hrun & Hready & Hhead & Hrel & Hbk & Hbl & Hbs).
  set (srv2 := dwith_round r (mkDialRound dialRoundClosed [] [])
                 (ds_set_Client c2 (ds_set_Idle false (ds_set_Client c1 srv1)))).
  assert (Dial_Close r (dwith_round r (dial_added srv r onions rd) srv, g) = Ret (Ok tt, (srv2, g2))) as Hcl.
  { rewrite Hclose. rewrite (gbind_eq _ _ _ _ _ (d_on_client_eq _ srv1 g2 _ _ Hnew)). cbn [on_ok].
    unfold d_Idle_Unlock at 1, gbind at 1. cbn [fst snd]. change (ds_Idle (ds_set_Client c1 srv1)) with (ds_Idle srv).
    rewrite Hidle.
    rewrite (gbind_eq _ _ _ _ _ (d_on_client_eq _ (ds_set_Idle false (ds_set_Client c1 srv1)) g2 _ _ Hrun)). done. }
  exists (srv2, g2), (onions :: batches), final, buckets. split_and!; try done.
  - rewrite (RunDialRound_to_Close _ _ _ _ _ Hr Hst) by lia.
    by rewrite (gbind_eq _ _ _ _ _ Hcl).
  - split_and!; try done. intros r' [HP' Hner]. cbn. rewrite !lookup_insert_ne by done. by apply Hfree.
  - cbn. split; [|done]. by rewrite Hhead.
Qed.

#[export] Instance dial_forward_chain pk sk : DialChainRemote (dstate C R) cap ((pk, sk) :: kps') := {|
  dial_ready := dserver_ready cap dial_ready ((pk, sk) :: kps');
  dial_started := dserver_started cap dial_ready ((pk, sk) :: kps');
  dial_buckets r s := dial_buckets r (ds_Client s.1);
  dial_chain_NewRound := Dial_NewRound_started cap Hcap dial_ready ((pk, sk) :: kps');
  dial_chain_Run := Dial_Run_forward pk sk |}.

End DialForward.

Section DialLast.
Context {C R : Type} `{HF : Fuel, HR : Reader R, HFR : !FullReader R, HLR : !LiveReader R fuel, HB : Box, HL : !BoxLaws, HK : !KeyGen R,
  HKL : !KeyGenLaws R, HE : FloatEnv, HC : DialRemote C}.
Context (cap : Z) (Hcap : 0 <= cap < 2 ^ 31).

(** The answer of a server to [Buckets], which does not change its state. *)
Definition buckets_of (r : Z) (s : dstate C R) : outcome (result (list (list bytes))) :=
  p ← Dial_Buckets r s; Ret p.1.

#[export] Program Instance dial_last_chain pk sk : DialChainRemote (dstate C R) cap [(pk, sk)] := {|
  dial_ready := dserver_ready cap (fun _ _ => True) [(pk, sk)];
  dial_started := dserver_started cap (fun _ _ => True) [(pk, sk)];
  dial_buckets := buckets_of;
  dial_chain_NewRound := Dial_NewRound_started cap Hcap (fun _ _ => True) [(pk, sk)] |}.
Next Obligation.
  intros pk sk P r s onions Hst Hb.
  destruct (Dial_Run_last cap Hcap (fun _ _ => True) pk sk P r s onions ltac:(done) Hst Hb)
    as (s' & final & buckets & H1 & H2 & H3 & H4 & H5 & H6).
  exists s', [onions], final, buckets. split_and!; try done. unfold buckets_of. by rewrite H4.
Qed.

End DialLast.

(** ** Chains of any length *)

#[export] Instance nil_dial_remote : DialRemote unit := {|
  rpc_DialNewRound _ := glift (Panic nil_panic);
  rpc_DialAdd _ := glift (Panic nil_panic);
  rpc_DialClose _ := glift (Panic nil_panic);
|}.

Fixpoint dchain (R : Type) (n : nat) : Type :=
  match n with
  | O => dstate unit R
  | S n' => dstate (dchain R n') R
  end.

Section DialChain.
Context {R : Type} `{HF : Fuel, HR : Reader R, HFR : !FullReader R, HLR : !LiveReader R fuel, HB : Box, HL : !BoxLaws, HK : !KeyGen R,
  HKL : !KeyGenLaws R, HE : FloatEnv}.
Context (cap : Z).

#[export] Instance dchain_remote : forall n, DialRemote (dchain R n) :=
  fix go n := match n with
              | O => DialService_remote (C := unit)
              | S n' => @DialService_remote (dchain R n') R _ _ _ _ _ (go n')
              end.

Fixpoint dchain_ready (n : nat) (kps : list (BoxKey * BoxKey)) (P : Z -> Prop) : dchain R n -> Prop :=
  match n with
  | O => dserver_ready cap (fun _ _ => True) kps P
  | S n' => dserver_ready cap (dchain_ready n' (tail kps)) kps P
  end.

(** [Buckets] on the last server of the chain. *)
Fixpoint dchain_buckets (n : nat) (r : Z) : dchain R n -> outcome (result (list (list bytes))) :=
  match n with
  | O => buckets_of r
  | S n' => fun s => dchain_buckets n' r (ds_Client s.1)
  end.

Lemma dserver_ready_ext {C} (next next' : (Z -> Prop) -> C -> Prop) kps P (s : dstate C R) :
  (forall c, next P c <-> next' P c) -> dserver_ready cap next kps P s <-> dserver_ready cap next' kps P s.
Proof. intros Hn. unfold dserver_ready. by rewrite Hn. Qed.

Lemma dchain_promise n kps :
  0 <= cap < 2 ^ 31 -> length kps = S n ->
  exists inst : DialChainRemote (dchain R n) cap kps,
    (forall P c, @dial_ready _ _ _ _ _ inst P c <-> dchain_ready n kps P c) /\
    (forall r c, @dial_buckets _ _ _ _ _ inst r c = dchain_buckets n r c).
Proof using HKL HLR.
  intros Hcap. revert kps. induction n as [|n IH]; intros [|[pk sk] kps'] [= Hl].
  - apply nil_length_inv in Hl as ->. by exists (dial_last_chain cap Hcap pk sk).
  - destruct (IH kps' Hl) as [inst [Hinst Hbk]]. assert (kps' <> []) as Hne by (by intros ->).
    exists (dial_forward_chain cap Hcap kps' Hne pk sk). split.
    + intros P c. apply dserver_ready_ext. intros c'. apply Hinst.
    + intros r c. apply Hbk.
Qed.

Lemma intros_of_size b msgs : Forall (fun intro => zlen intro = SizeEncryptedIntro) (intros_of b msgs).
Proof.
  apply Forall_forall. intros x Hx. unfold intros_of in Hx. apply list_elem_of_omap in Hx as (m & _ & Hm).
  unfold intro_for in Hm. case_decide as Hl; [|done].
  assert (length m = fsize (A := DialExchange)) as Hl' by (unfold zlen in Hl; cbn; lia).
  unfold DialExchange_Unmarshal in Hm. destruct (binary_Read m) as [ex|e] eqn:E; [|done].
  destruct (Write_Read _ _ Hl' E) as [_ [_ Hv]]. case_decide; [|done]. injection Hm as <-.
  unfold zlen. by rewrite Hv.
Qed.

Lemma marshal_dial_intro e final :
  dial_valid e -> DialExchange_Marshal e ∈ final -> de_EncryptedIntro e ∈ intros_of (de_Bucket e) final.
Proof.
  intros Hv Hin. unfold intros_of. apply list_elem_of_omap. exists (DialExchange_Marshal e). split; [done|].
  unfold intro_for. assert (zlen (DialExchange_Marshal e) = SizeDialExchange) as Hz.
  { unfold zlen, DialExchange_Marshal, binary_Write. by rewrite (@fput_length _ dial_fixed e Hv). }
  rewrite decide_True by done. unfold DialExchange_Unmarshal, DialExchange_Marshal.
  rewrite <- (app_nil_r (binary_Write e)), Read_Write by done. by rewrite decide_True.
Qed.

Lemma dial_round_ok (n : nat) (kps : list (BoxKey * BoxKey)) (P : Z -> Prop) (r : Z)
    (c : dchain R n) (onions : list bytes) :
  0 <= cap < 2 ^ 31 -> length kps = S n -> dchain_ready n kps P c -> P r -> dial_batch_ok cap kps onions ->
  exists c1 c2 batches final buckets,
    NewDialRound r c = Ret (Ok tt, c1) /\ RunDialRound r onions c1 = Ret (Ok tt, c2) /\
    dchain_ready n kps (fun r' => P r' /\ r' <> r) c2 /\
    default final (head batches) = onions /\ dial_rel r (snd <$> kps) batches final /\
    dchain_buckets n r c2 = Ret (Ok buckets) /\ length buckets = Z.to_nat TotalDialBuckets /\
    Forall (Forall (fun intro => zlen intro = SizeEncryptedIntro)) buckets /\
    (forall onion m shared e, onion ∈ onions ->
       peel_all (snd <$> kps) (ForwardNonce r) onion = Some (m, shared) ->
       m = DialExchange_Marshal e -> dial_valid e -> de_Bucket e < TotalDialBuckets ->
       dial_lost r (snd <$> kps) batches onion \/
       exists bucket, buckets !! Z.to_nat (de_Bucket e) = Some bucket /\ de_EncryptedIntro e ∈ bucket).
Proof using HKL HLR.
  intros Hcap Hl Hready HP Hb. destruct (dchain_promise n kps Hcap Hl) as [inst [Hinst Hbk]].
  destruct (dial_chain_NewRound P r c) as (c1 & Hnew & Hst); [by apply Hinst|done|].
  destruct (dial_chain_Run P r c1 onions Hst Hb) as (c2 & batches & final & buckets & H1 & H2 & H3 & H4 & H5 & H6 & H7).
  exists c1, c2, batches, final, buckets. split_and!; try done; [by apply Hinst|by rewrite <- Hbk| |].
  { apply Forall_lookup. intros b bucket Hbu. pose proof (lookup_lt_Some _ _ _ Hbu) as Hlt.
    specialize (H7 (Z.of_nat b) ltac:(lia)). rewrite Nat2Z.id, Hbu in H7. injection H7 as ->.
    apply intros_of_size. }
  intros onion m shared e Hin Hp -> Hv Hlt. rewrite <- H3 in Hin.
  destruct (dial_rel_deliver _ _ _ _ _ H4 Hin) as [?|(m & sh & Hp' & Hf)]; [by left|].
  rewrite Hp in Hp'. injection Hp' as <- <-. right. destruct Hv as [Hb0 Hbl].
  exists (intros_of (de_Bucket e) final). split; [apply H7; lia|]. by apply marshal_dial_intro.
Qed.


End DialChain.

(** ** A concrete chain of two servers *)

Module DialToy.
Import Toy.

Definition dserver {C} (name : string) (sk : BoxKey) (last : bool) (client : C) : DialService C :=
  mkDialService ∅ false (float_of_Z 1) (float_of_Z 1) example_pki name sk client last.

Definition two_dial_servers : dchain unit 1 :=
  (dserver "first" (replicate 32 x03) false (dserver "last" (replicate 32 x05) true tt, tt), tt).

Lemma two_dial_servers_ready : dchain_ready 4 1 kps (fun r => 0 <= r) two_dial_servers.
Proof.
  split_and!; cbn [fst snd two_dial_servers dserver ds_Idle ds_rounds ds_Client]; try done.
  - apply (dial_cfg_pki 4 kps _ 0 (replicate 32 x03)); try done.
    + exact example_pki_wf.
    + exact kps_ok.
    + exact noise_live_toy.
  - split_and!; cbn [fst snd dserver ds_Idle ds_rounds ds_Client]; try done.
    apply (dial_cfg_pki 4 kps _ 1 (replicate 32 x05)); try done.
    + exact example_pki_wf.
    + exact kps_ok.
    + exact noise_live_toy.
Qed.

Definition dial_exchange : DialExchange := mkDialExchange 0 (replicate 84 x61).
Definition dial_onion : bytes :=
  match onion_Seal (DialExchange_Marshal dial_exchange) (ForwardNonce 7)
          ((fun k => Some k.1) <$> kps) tt with
  | Ret ((o, _), _) => o
  | _ => []
  end.


(** In the concrete run the introduction arrives, mixed with the noise. *)
Example dial_arrives :
  match (let! _ := NewDialRound 7 in RunDialRound 7 [dial_onion; []])%go two_dial_servers with
  | Ret (Ok tt, c2) =>
      match dchain_buckets 1 7 c2 with
      | Ret (Ok [bucket]) => bool_decide (replicate 84 x61 ∈ bucket) = true /\ length bucket = 3%nat
      | _ => False
      end
  | _ => False
  end.
Proof. vm_compute. split; reflexivity. Qed.

Lemma Dial_Buckets_spec_witness :
  Dial_Buckets 7 two_dial_servers = Ret (Err err_not_last, two_dial_servers).
Proof. apply (proj1 (proj2 (Dial_Buckets_spec 7 two_dial_servers.1 tt))). reflexivity. Defined.

End DialToy.
