(* ===== verification/EntryApi.v ===== *)
(** * EntryApi: messages between the clients and the entry server

    Models [entry_api.go] and [msgtype_string.go]: the message structs, the
    numbering of the message types with its [String], and the envelopes. The
    encoding of one struct as JSON is an interface, [JsonCodec], with the law that
    decoding undoes encoding. *)

From stdpp Require Import numbers strings pretty gmap list.
From Stdlib Require Import Strings.Byte.
From S2P Require Import Prelude Binary Wire.

(** ** Messages *)

Record ConvoRequest := mkConvoRequest { cq_Round : Z; cq_Onion : bytes }.
Record DialRequest := mkDialRequest { dq_Round : Z; dq_Onion : bytes }.
Record BadRequestError := mkBadRequestError { be_Err : string }.
Record ConvoError := mkConvoError { cer_Round : Z; cer_Err : string }.
Record ConvoResponse := mkConvoResponse { cp_Round : Z; cp_Onion : bytes }.
Record DialError := mkDialError { der_Round : Z; der_Err : string }.
Record DialBucket := mkDialBucket { db_Round : Z; db_Intros : list bytes }.
Record AnnounceConvoRound := mkAnnounceConvoRound { ac_Round : Z }.
Record AnnounceDialRound := mkAnnounceDialRound { ad_Round : Z; ad_Buckets : Z }.

#[export] Instance ConvoRequest_eq_dec : EqDecision ConvoRequest.
Proof. solve_decision. Defined.
#[export] Instance DialRequest_eq_dec : EqDecision DialRequest.
Proof. solve_decision. Defined.
#[export] Instance BadRequestError_eq_dec : EqDecision BadRequestError.
Proof. solve_decision. Defined.
#[export] Instance ConvoError_eq_dec : EqDecision ConvoError.
Proof. solve_decision. Defined.
#[export] Instance ConvoResponse_eq_dec : EqDecision ConvoResponse.
Proof. solve_decision. Defined.
#[export] Instance DialError_eq_dec : EqDecision DialError.
Proof. solve_decision. Defined.
#[export] Instance DialBucket_eq_dec : EqDecision DialBucket.
Proof. solve_decision. Defined.
#[export] Instance AnnounceConvoRound_eq_dec : EqDecision AnnounceConvoRound.
Proof. solve_decision. Defined.
#[export] Instance AnnounceDialRound_eq_dec : EqDecision AnnounceDialRound.
Proof. solve_decision. Defined.

(** The values of type [interface{}] that [Envelop] and [Open] deal with:
    pointers to one of the structs, or a value of another type, printed by [%T]. *)
Inductive message :=
| VConvoRequest (v : ConvoRequest)
| VDialRequest (v : DialRequest)
| VBadRequestError (v : BadRequestError)
| VConvoError (v : ConvoError)
| VConvoResponse (v : ConvoResponse)
| VDialError (v : DialError)
| VDialBucket (v : DialBucket)
| VAnnounceConvoRound (v : AnnounceConvoRound)
| VAnnounceDialRound (v : AnnounceDialRound)
| VOther (type_name : string).

#[export] Instance message_eq_dec : EqDecision message.
Proof. solve_decision. Defined.

Definition BadRequestError_Error (e : BadRequestError) : string := be_Err e.
Definition ConvoError_Error (e : ConvoError) : string :=
  "round c" +:+ pretty (cer_Round e) +:+ ": " +:+ cer_Err e.
Definition DialError_Error (e : DialError) : string :=
  "round d" +:+ pretty (der_Round e) +:+ ": " +:+ der_Err e.

(** ** Message types *)

Inductive MsgType :=
| MsgConvoRequest
| MsgDialRequest
| MsgBadRequestError
| MsgConvoError
| MsgConvoResponse
| MsgDialError
| MsgDialBucket
| MsgAnnounceConvoRound
| MsgAnnounceDialRound.

#[export] Instance MsgType_eq_dec : EqDecision MsgType.
Proof. solve_decision. Defined.

(** The [iota] of the constants; an envelope carries any [uint8]. *)
Definition MsgType_num (t : MsgType) : Z :=
  match t with
  | MsgConvoRequest => 0
  | MsgDialRequest => 1
  | MsgBadRequestError => 2
  | MsgConvoError => 3
  | MsgConvoResponse => 4
  | MsgDialError => 5
  | MsgDialBucket => 6
  | MsgAnnounceConvoRound => 7
  | MsgAnnounceDialRound => 8
  end.

(** [_MsgType_name] and [_MsgType_index] as generated. *)
Definition MsgType_name : string :=
  "MsgConvoRequestMsgDialRequestMsgBadRequestErrorMsgConvoErrorMsgConvoResponseMsgDialErrorMsgDialBucketMsgAnnounceConvoRoundMsgAnnounceDialRound".
Definition MsgType_index : list Z := [0; 15; 29; 47; 60; 76; 88; 101; 122; 142].

(** [if i >= MsgType(len(_MsgType_index)-1)], the slice of the name otherwise. *)
Definition MsgType_String (i : Z) : outcome string :=
  if decide (zlen MsgType_index - 1 <= i) then Ret ("MsgType(" +:+ pretty i +:+ ")")
  else
    lo ← go_index MsgType_index i;
    hi ← go_index MsgType_index (i + 1);
    if decide (0 <= lo <= hi /\ hi <= Z.of_nat (String.length MsgType_name)) then
      Ret (String.substring (Z.to_nat lo) (Z.to_nat (hi - lo)) MsgType_name)
    else Panic slice_panic.

(** ** Envelopes *)

(** The JSON form of one message: [json.Marshal(v)], and [json.Unmarshal(data, v)]
    into a fresh struct of the type that belongs to [t]. *)
Class JsonCodec := {
  raw : Type;
  json_Marshal : message -> result raw;
  json_Unmarshal : MsgType -> raw -> result message;
}.

Record Envelope `{JsonCodec} := mkEnvelope { env_Type : Z; env_Message : raw }.

(** The types with a case in [Open]. *)
Definition open_case (t : Z) : option MsgType :=
  if decide (t = 0) then Some MsgConvoRequest
  else if decide (t = 1) then Some MsgDialRequest
  else if decide (t = 2) then Some MsgBadRequestError
  else if decide (t = 3) then Some MsgConvoError
  else if decide (t = 4) then Some MsgConvoResponse
  else if decide (t = 6) then Some MsgDialBucket
  else if decide (t = 7) then Some MsgAnnounceConvoRound
  else if decide (t = 8) then Some MsgAnnounceDialRound
  else None.

(** The type of a message, by the cases of [Envelop]. *)
Definition msg_type (v : message) : option MsgType :=
  match v with
  | VConvoRequest _ => Some MsgConvoRequest
  | VDialRequest _ => Some MsgDialRequest
  | VBadRequestError _ => Some MsgBadRequestError
  | VConvoError _ => Some MsgConvoError
  | VConvoResponse _ => Some MsgConvoResponse
  | VDialError _ => Some MsgDialError
  | VDialBucket _ => Some MsgDialBucket
  | VAnnounceConvoRound _ => Some MsgAnnounceConvoRound
  | VAnnounceDialRound _ => Some MsgAnnounceDialRound
  | VOther _ => None
  end.

Definition type_name (v : message) : string :=
  match v with VOther s => s | _ => "" end.

Section Envelopes.
Context `{JsonCodec}.

(** [%d] of the [uint8]: [MsgType] has a [String] method, which [%d] does not use. *)
Definition Envelope_Open (e : Envelope) : result message :=
  match open_case (env_Type e) with
  | None => Err ("unknown message type: " +:+ pretty (env_Type e))
  | Some t =>
      match json_Unmarshal t (env_Message e) with
      | Ok v => Ok v
      | Err err => Err ("json.Unmarshal: " +:+ err)
      end
  end.

Definition Envelop (v : message) : result Envelope :=
  match msg_type v with
  | None => Err ("unsupported message type: " +:+ type_name v)
  | Some t =>
      match json_Marshal v with
      | Ok data => Ok (mkEnvelope _ (MsgType_num t) data)
      | Err err => Err ("json.Marshal: " +:+ err)
      end
  end.

End Envelopes.

(** [utf8.Valid]: the byte sequences that start a rune, by the table of the
    [unicode/utf8] package. *)
Definition between (lo hi : Z) (b : byte) : bool := bool_decide (lo <= Z_of_byte b <= hi).
Definition continues (b : byte) : bool := between 128 191 b.
Definition rune2 (a b : byte) : bool := between 194 223 a && continues b.
Definition rune3 (a b c : byte) : bool :=
  ((between 224 224 a && between 160 191 b) || (between 225 236 a && continues b) ||
   (between 237 237 a && between 128 159 b) || (between 238 239 a && continues b)) && continues c.
Definition rune4 (a b c d : byte) : bool :=
  ((between 240 240 a && between 144 191 b) || (between 241 243 a && continues b) ||
   (between 244 244 a && between 128 143 b)) && continues c && continues d.

Fixpoint utf8_valid (s : bytes) : bool :=
  match s with
  | [] => true
  | a :: s1 =>
      if between 0 127 a then utf8_valid s1
      else
        match s1 with
        | [] => false
        | b :: s2 =>
            if rune2 a b then utf8_valid s2
            else
              match s2 with
              | [] => false
              | c :: s3 =>
                  if rune3 a b c then utf8_valid s3
                  else match s3 with d :: s4 => rune4 a b c d && utf8_valid s4 | [] => false end
              end
        end
  end.

Definition utf8_text (s : string) : Prop := utf8_valid (String.list_byte_of_string s) = true.

(** What the documentation of [encoding/json] promises for these structs: a value
    whose integers fit their types and whose texts are valid UTF-8 encodes, and
    decoding gives it back. Other texts are coerced to valid UTF-8. *)
Definition message_valid (v : message) : Prop :=
  match v with
  | VConvoRequest r => 0 <= cq_Round r < 2 ^ 32
  | VDialRequest r => 0 <= dq_Round r < 2 ^ 32
  | VBadRequestError e => utf8_text (be_Err e)
  | VConvoError e => 0 <= cer_Round e < 2 ^ 32 /\ utf8_text (cer_Err e)
  | VConvoResponse r => 0 <= cp_Round r < 2 ^ 32
  | VDialError e => 0 <= der_Round e < 2 ^ 32 /\ utf8_text (der_Err e)
  | VDialBucket b => 0 <= db_Round b < 2 ^ 32 /\
      Forall (fun i => zlen i = SizeEncryptedIntro) (db_Intros b)
  | VAnnounceConvoRound a => 0 <= ac_Round a < 2 ^ 32
  | VAnnounceDialRound a => 0 <= ad_Round a < 2 ^ 32 /\ 0 <= ad_Buckets a < 2 ^ 32
  | VOther _ => False
  end.

Class JsonLaws `{JsonCodec} := json_roundtrip : forall v t,
  message_valid v -> msg_type v = Some t ->
  exists data, json_Marshal v = Ok data /\ json_Unmarshal t data = Ok v.

Lemma envelope_opens `{JsonLaws} (v : message) :
  message_valid v ->
  exists e, Envelop v = Ok e /\
    Envelope_Open e = match v with
                      | VDialError _ => Err "unknown message type: 5"
                      | _ => Ok v
                      end.
Proof.
  intros Hv. destruct (msg_type v) as [t|] eqn:Ht; [|by destruct v].
  destruct (json_roundtrip v t Hv Ht) as (data & Hm & Hu). unfold Envelop.
  rewrite Ht, Hm. eexists. split; [done|]. unfold Envelope_Open. cbn [env_Type env_Message].
  destruct v; [injection Ht as <-..|done].
  6: reflexivity.
  all: match goal with |- context [open_case ?t] => let x := eval vm_compute in (open_case t) in change (open_case t) with x end.
  all: cbn beta iota; by rewrite Hu.
Qed.

(** ** Theorems *)

(** C36. Envelopes: every message whose numbers fit their types and whose texts are
    valid UTF-8, of every type but one, opens to itself after it was enveloped; a dialing error can be enveloped but never opened, the
    receiver gets the error for an unknown message type; a value of another type
    is rejected by [Envelop]. *)
Theorem envelope_roundtrip `{JsonLaws} (v : message) :
  (message_valid v ->
   exists e, Envelop v = Ok e /\
     Envelope_Open e = match v with
                       | VDialError _ => Err "unknown message type: 5"
                       | _ => Ok v
                       end) /\
  (forall s, Envelop (VOther s) = Err ("unsupported message type: " +:+ s)) /\
  (forall t data, MsgType_num MsgAnnounceDialRound < t ->
     Envelope_Open (mkEnvelope _ t data) = Err ("unknown message type: " +:+ pretty t)).
Proof.
  split_and!; [apply envelope_opens|done|].
  intros t data Ht. unfold Envelope_Open, open_case. cbn [env_Type env_Message MsgType_num] in *.
  by rewrite !decide_False by lia.
Qed.
