(* ===== verification/Json.v ===== *)
(** * Json: the encoding of messages by [encoding/json]

    An instance of the interface [JsonCodec] of [EntryApi]. A document is a value
    of type [json]; the step between a document and its text is left out. What is
    kept is how Go maps structs to documents and back: [uint32] as a number, text
    as a string, [[]byte] as a base64 string, arrays as arrays of numbers; fields
    in any order, found by name without regard to case, absent ones and [null]
    left at their zero values, numbers checked against their type. *)

From stdpp Require Import numbers strings pretty gmap list.
From Stdlib Require Import Strings.Byte Strings.Ascii.
From S2P Require Import Prelude Binary Wire EntryApi.

(** Integer literals and other number literals apart: only the former can be stored
    in an integer. *)
Inductive json :=
| JNull
| JBool (b : bool)
| JNum (z : Z)
| JFrac (lit : string)
| JStr (s : string)
| JArr (l : list json)
| JObj (fields : list (string * json)).

(** ** base64.StdEncoding *)

Definition b64_char (i : Z) : ascii :=
  ascii_of_N (Z.to_N
    (if decide (i < 26) then 65 + i
     else if decide (i < 52) then 97 + (i - 26)
     else if decide (i < 62) then 48 + (i - 52)
     else if decide (i = 62) then 43 else 47)).

Definition b64_index (a : ascii) : option Z :=
  let n := Z.of_N (N_of_ascii a) in
  if decide (65 <= n <= 90) then Some (n - 65)
  else if decide (97 <= n <= 122) then Some (n - 97 + 26)
  else if decide (48 <= n <= 57) then Some (n - 48 + 52)
  else if decide (n = 43) then Some 62
  else if decide (n = 47) then Some 63
  else None.

(** The four characters of three bytes. *)
Definition b64_quad (a b c : Z) : list ascii :=
  [b64_char (a / 4); b64_char (a mod 4 * 16 + b / 16); b64_char (b mod 16 * 4 + c / 64); b64_char (c mod 64)].

Fixpoint b64_encode (bs : bytes) : list ascii :=
  match bs with
  | [] => []
  | [a] => take 2 (b64_quad (Z_of_byte a) 0 0) ++ ["="%char; "="%char]
  | [a; b] => take 3 (b64_quad (Z_of_byte a) (Z_of_byte b) 0) ++ ["="%char]
  | a :: b :: c :: bs' => b64_quad (Z_of_byte a) (Z_of_byte b) (Z_of_byte c) ++ b64_encode bs'
  end.

(** Padding may only end the input; the spare bits before it are ignored. *)
Fixpoint b64_quanta (s : list ascii) : option bytes :=
  match s with
  | [] => Some []
  | w :: x :: y :: z :: s' =>
      i ← b64_index w; j ← b64_index x;
      let b0 := byte_of_Z (i * 4 + j / 16) in
      match decide (y = "="%char), decide (z = "="%char) with
      | left _, left _ => if decide (s' = []) then Some [b0] else None
      | left _, right _ => None
      | right _, left _ =>
          k ← b64_index y;
          if decide (s' = []) then Some [b0; byte_of_Z (j mod 16 * 16 + k / 4)] else None
      | right _, right _ =>
          k ← b64_index y; l ← b64_index z;
          r ← b64_quanta s';
          Some (b0 :: byte_of_Z (j mod 16 * 16 + k / 4) :: byte_of_Z (k mod 4 * 64 + l) :: r)
      end
  | _ => None
  end.

(** Line breaks are skipped. *)
Definition b64_decode (s : list ascii) : option bytes :=
  b64_quanta (filter (fun a => a <> "010"%char /\ a <> "013"%char) s).

(** ** Decoding values *)

Definition json_kind (v : json) : string :=
  match v with
  | JNull => "null" | JBool _ => "bool" | JNum z => "number " +:+ pretty z
  | JFrac lit => "number " +:+ lit | JStr _ => "string" | JArr _ => "array" | JObj _ => "object"
  end.
Definition json_mismatch (v : json) (field ty : string) : string :=
  "json: cannot unmarshal " +:+ json_kind v +:+ " into Go struct field " +:+ field +:+ " of type " +:+ ty.

(** An unsigned integer of [w] bits; [null] leaves [old]. *)
Definition get_uint (w : Z) (field ty : string) (v : json) (old : Z) : result Z :=
  match v with
  | JNull => Ok old
  | JNum z => if decide (0 <= z < 2 ^ w) then Ok z else Err (json_mismatch v field ty)
  | _ => Err (json_mismatch v field ty)
  end.

Definition get_string (field : string) (v : json) (old : string) : result string :=
  match v with
  | JNull => Ok old
  | JStr s => Ok s
  | _ => Err (json_mismatch v field "string")
  end.

(** The elements of an array of bytes. *)
Fixpoint get_byte_list (field : string) (l : list json) : result bytes :=
  match l with
  | [] => Ok []
  | v :: l' =>
      match get_uint 8 field "uint8" v 0, get_byte_list field l' with
      | Ok z, Ok bs => Ok (byte_of_Z z :: bs)
      | Err e, _ => Err e
      | _, Err e => Err e
      end
  end.

(** [[]byte]: a base64 string, or an array of numbers. *)
Definition get_bytes (field : string) (v : json) : result bytes :=
  match v with
  | JNull => Ok []
  | JStr s =>
      match b64_decode (String.list_ascii_of_string s) with
      | Some bs => Ok bs
      | None => Err "illegal base64 data"
      end
  | JArr l => get_byte_list field l
  | _ => Err (json_mismatch v field "[]uint8")
  end.

(** [[n]byte]: elements beyond the array are skipped, missing ones are zeroed. *)
Definition get_array (n : nat) (field : string) (v : json) : result bytes :=
  match v with
  | JNull => Ok (replicate n x00)
  | JArr l =>
      match get_byte_list field (take n l) with
      | Ok bs => Ok (go_copy (replicate n x00) bs)
      | Err e => Err e
      end
  | _ => Err (json_mismatch v field ("[" +:+ pretty n +:+ "]uint8"))
  end.

Fixpoint get_arrays (n : nat) (field : string) (l : list json) : result (list bytes) :=
  match l with
  | [] => Ok []
  | v :: l' =>
      match get_array n field v, get_arrays n field l' with
      | Ok a, Ok r => Ok (a :: r)
      | Err e, _ => Err e
      | _, Err e => Err e
      end
  end.

Definition get_slice_of_arrays (n : nat) (field : string) (v : json) : result (list bytes) :=
  match v with
  | JNull => Ok []
  | JArr l => get_arrays n field l
  | _ => Err (json_mismatch v field ("[][" +:+ pretty n +:+ "]uint8"))
  end.

(** ** Decoding structs *)

Definition lower (a : ascii) : ascii :=
  let n := N_of_ascii a in
  if decide (65 <= n <= 90)%N then ascii_of_N (n + 32) else a.
Definition same_name (a b : string) : bool :=
  bool_decide (lower <$> String.list_ascii_of_string a = lower <$> String.list_ascii_of_string b).

(** Goes through the members of the object; the first error is the one reported. *)
Fixpoint get_fields {A} (store : string -> json -> A -> result A) (fields : list (string * json)) (a : A)
    : result A :=
  match fields with
  | [] => Ok a
  | (name, v) :: fields' =>
      match store name v a with
      | Ok a' => get_fields store fields' a'
      | Err e => Err e
      end
  end.

Definition get_struct {A} (ty : string) (store : string -> json -> A -> result A) (zero : A) (v : json) : result A :=
  match v with
  | JNull => Ok zero
  | JObj fields => get_fields store fields zero
  | _ => Err ("json: cannot unmarshal " +:+ json_kind v +:+ " into Go value of type vuvuzela." +:+ ty)
  end.

Definition res_map {A B} (f : A -> B) (r : result A) : result B :=
  match r with Ok a => Ok (f a) | Err e => Err e end.

(** A struct of a round and an onion; of a round and a text. *)
Definition get_round_onion (ty : string) : json -> result (Z * bytes) :=
  get_struct ty (fun name v a =>
    if same_name name "Round" then res_map (fun z => (z, a.2)) (get_uint 32 (ty +:+ ".Round") "uint32" v a.1)
    else if same_name name "Onion" then res_map (fun o => (a.1, o)) (get_bytes (ty +:+ ".Onion") v)
    else Ok a) (0, []).
Definition get_round_err (ty : string) : json -> result (Z * string) :=
  get_struct ty (fun name v a =>
    if same_name name "Round" then res_map (fun z => (z, a.2)) (get_uint 32 (ty +:+ ".Round") "uint32" v a.1)
    else if same_name name "Err" then res_map (fun s => (a.1, s)) (get_string (ty +:+ ".Err") v a.2)
    else Ok a) (0, "").

Definition put_round_onion (round : Z) (onion : bytes) : json :=
  JObj [("Round", JNum round); ("Onion", JStr (String.string_of_list_ascii (b64_encode onion)))].

(** ** Text *)

(** The encoder writes the replacement character U+FFFD for every byte that does not
    belong to valid UTF-8. *)
Definition replacement : bytes := [xef; xbf; xbd].
Fixpoint coerce_utf8 (s : bytes) : bytes :=
  match s with
  | [] => []
  | a :: s1 =>
      if between 0 127 a then a :: coerce_utf8 s1
      else
        match s1 with
        | [] => replacement
        | b :: s2 =>
            if rune2 a b then a :: b :: coerce_utf8 s2
            else
              match s2 with
              | [] => replacement ++ coerce_utf8 s1
              | c :: s3 =>
                  if rune3 a b c then a :: b :: c :: coerce_utf8 s3
                  else
                    match s3 with
                    | [] => replacement ++ coerce_utf8 s1
                    | d :: s4 =>
                        if rune4 a b c d then a :: b :: c :: d :: coerce_utf8 s4
                        else replacement ++ coerce_utf8 s1
                    end
              end
        end
  end.
Definition put_string (s : string) : json :=
  JStr (String.string_of_list_byte (coerce_utf8 (String.list_byte_of_string s))).

Lemma coerce_valid s : utf8_valid s = true -> coerce_utf8 s = s.
Proof.
  revert s. fix IH 1. intros [|a s1]; [done|]. cbn [utf8_valid coerce_utf8].
  destruct (between 0 127 a); [intros H; f_equal; by apply IH|]. destruct s1 as [|b s2]; [done|].
  destruct (rune2 a b); [intros H; do 2 f_equal; by apply IH|]. destruct s2 as [|c s3]; [done|].
  destruct (rune3 a b c); [intros H; do 3 f_equal; by apply IH|]. destruct s3 as [|d s4]; [done|].
  destruct (rune4 a b c d); [|done]. intros H. do 4 f_equal. by apply IH.
Qed.

Lemma put_string_valid s : utf8_text s -> put_string s = JStr s.
Proof. intros H. unfold put_string. by rewrite coerce_valid, String.string_of_list_byte_of_string. Qed.

(** ** The codec *)

Definition put_round_err (round : Z) (err : string) : json :=
  JObj [("Round", JNum round); ("Err", put_string err)].

Definition message_to_json (v : message) : result json :=
  match v with
  | VConvoRequest r => Ok (put_round_onion (cq_Round r) (cq_Onion r))
  | VDialRequest r => Ok (put_round_onion (dq_Round r) (dq_Onion r))
  | VConvoResponse r => Ok (put_round_onion (cp_Round r) (cp_Onion r))
  | VBadRequestError e => Ok (JObj [("Err", put_string (be_Err e))])
  | VConvoError e => Ok (put_round_err (cer_Round e) (cer_Err e))
  | VDialError e => Ok (put_round_err (der_Round e) (der_Err e))
  | VDialBucket b =>
      Ok (JObj [("Round", JNum (db_Round b));
                ("Intros", JArr ((fun i => JArr ((fun x => JNum (Z_of_byte x)) <$> i)) <$> db_Intros b))])
  | VAnnounceConvoRound a => Ok (JObj [("Round", JNum (ac_Round a))])
  | VAnnounceDialRound a => Ok (JObj [("Round", JNum (ad_Round a)); ("Buckets", JNum (ad_Buckets a))])
  | VOther s => Err ("json: unsupported type: " +:+ s)
  end.

Definition message_of_json (t : MsgType) (v : json) : result message :=
  match t with
  | MsgConvoRequest => res_map (fun p => VConvoRequest (mkConvoRequest p.1 p.2)) (get_round_onion "ConvoRequest" v)
  | MsgDialRequest => res_map (fun p => VDialRequest (mkDialRequest p.1 p.2)) (get_round_onion "DialRequest" v)
  | MsgConvoResponse => res_map (fun p => VConvoResponse (mkConvoResponse p.1 p.2)) (get_round_onion "ConvoResponse" v)
  | MsgConvoError => res_map (fun p => VConvoError (mkConvoError p.1 p.2)) (get_round_err "ConvoError" v)
  | MsgDialError => res_map (fun p => VDialError (mkDialError p.1 p.2)) (get_round_err "DialError" v)
  | MsgBadRequestError =>
      res_map (fun s => VBadRequestError (mkBadRequestError s))
        (get_struct "BadRequestError" (fun name v a =>
           if same_name name "Err" then get_string "BadRequestError.Err" v a else Ok a) "" v)
  | MsgDialBucket =>
      res_map (fun p => VDialBucket (mkDialBucket p.1 p.2))
        (get_struct "DialBucket" (fun name v a =>
           if same_name name "Round" then res_map (fun z => (z, a.2)) (get_uint 32 "DialBucket.Round" "uint32" v a.1)
           else if same_name name "Intros" then
             res_map (fun l => (a.1, l)) (get_slice_of_arrays (Z.to_nat SizeEncryptedIntro) "DialBucket.Intros" v)
           else Ok a) (0, []) v)
  | MsgAnnounceConvoRound =>
      res_map (fun z => VAnnounceConvoRound (mkAnnounceConvoRound z))
        (get_struct "AnnounceConvoRound" (fun name v a =>
           if same_name name "Round" then get_uint 32 "AnnounceConvoRound.Round" "uint32" v a else Ok a) 0 v)
  | MsgAnnounceDialRound =>
      res_map (fun p => VAnnounceDialRound (mkAnnounceDialRound p.1 p.2))
        (get_struct "AnnounceDialRound" (fun name v a =>
           if same_name name "Round" then res_map (fun z => (z, a.2)) (get_uint 32 "AnnounceDialRound.Round" "uint32" v a.1)
           else if same_name name "Buckets" then
             res_map (fun z => (a.1, z)) (get_uint 32 "AnnounceDialRound.Buckets" "uint32" v a.2)
           else Ok a) (0, 0) v)
  end.

#[export] Instance json_codec : JsonCodec := {|
  raw := json; json_Marshal := message_to_json; json_Unmarshal := message_of_json |}.

(** ** base64 round trip *)

Lemma b64_index_char i : 0 <= i < 64 ->
  b64_index (b64_char i) = Some i /\ b64_char i <> "="%char /\
  b64_char i <> "010"%char /\ b64_char i <> "013"%char.
Proof.
  intros Hi.
  assert (forallb (fun i => bool_decide (b64_index (b64_char i) = Some i /\ b64_char i <> "="%char /\
    b64_char i <> "010"%char /\ b64_char i <> "013"%char)) (seqZ 0 64) = true) as H by (vm_compute; reflexivity).
  rewrite forallb_forall in H. specialize (H i). rewrite bool_decide_eq_true in H.
  apply H, list_elem_of_In, elem_of_seqZ. lia.
Qed.

(** The indices of the four characters and what they decode to. *)
Lemma b64_quad_ok a b c :
  0 <= a < 256 -> 0 <= b < 256 -> 0 <= c < 256 ->
  let i := a / 4 in let j := a mod 4 * 16 + b / 16 in
  let k := b mod 16 * 4 + c / 64 in let l := c mod 64 in
  (0 <= i < 64 /\ 0 <= j < 64 /\ 0 <= k < 64 /\ 0 <= l < 64) /\
  i * 4 + j / 16 = a /\ j mod 16 * 16 + k / 4 = b /\ k mod 4 * 64 + l = c.
Proof.
  intros Ha Hb Hc. cbn zeta.
  assert (forall x d, 0 < d -> 0 <= x mod d < d /\ x = d * (x / d) + x mod d) as Hdm
    by (intros x d Hd; split; [by apply Z.mod_pos_bound | apply Z.div_mod; lia]).
  destruct (Hdm a 4), (Hdm b 16), (Hdm c 64); [lia..|].
  rewrite !Z.div_add_l, !(Z.add_comm (_ * _) (_ / _)), !Z_mod_plus_full by lia.
  rewrite (Z.div_small (b / 16)), (Z.div_small (c / 64)), (Z.mod_small (b / 16)), (Z.mod_small (c / 64)) by lia. lia.
Qed.

Lemma bytes_ind3 (P : bytes -> Prop) :
  P [] -> (forall a, P [a]) -> (forall a b, P [a; b]) ->
  (forall a b c l, P l -> P (a :: b :: c :: l)) -> forall l, P l.
Proof.
  intros H0 H1 H2 H3. fix IH 1. intros [|a [|b [|c l]]]; [done..|]. apply H3, IH.
Qed.

Lemma b64_encode_plain bs :
  filter (fun a => a <> "010"%char /\ a <> "013"%char) (b64_encode bs) = b64_encode bs.
Proof.
  apply filter_all. induction bs as [|a|a b|a b c bs IH] using bytes_ind3; [constructor|..];
    repeat match goal with b : byte |- _ => lazymatch goal with
      | _ : 0 <= Z_of_byte b < 256 |- _ => fail | _ => pose proof (Z_of_byte_range b) end end.
  - destruct (b64_quad_ok (Z_of_byte a) 0 0) as [(?&?&?&?) _]; [lia..|]. cbn.
    repeat constructor; first [by apply b64_index_char | done].
  - destruct (b64_quad_ok (Z_of_byte a) (Z_of_byte b) 0) as [(?&?&?&?) _]; [lia..|]. cbn.
    repeat constructor; first [by apply b64_index_char | done].
  - destruct (b64_quad_ok (Z_of_byte a) (Z_of_byte b) (Z_of_byte c)) as [(?&?&?&?) _]; [lia..|].
    cbn [b64_encode]. apply Forall_app. split; [|done]. repeat constructor; by apply b64_index_char.
Qed.

Lemma b64_decode_encode bs : b64_decode (b64_encode bs) = Some bs.
Proof.
  unfold b64_decode. rewrite b64_encode_plain.
  induction bs as [|a|a b|a b c bs IH] using bytes_ind3; [done|..];
    repeat match goal with b : byte |- _ => lazymatch goal with
      | _ : 0 <= Z_of_byte b < 256 |- _ => fail | _ => pose proof (Z_of_byte_range b) end end.
  - destruct (b64_quad_ok (Z_of_byte a) 0 0) as [(Hi&Hj&Hk&Hl) (E1&E2&E3)]; [lia..|].
    destruct (b64_index_char _ Hi) as (Ii & _), (b64_index_char _ Hj) as (Ij & _).
    unfold b64_encode, b64_quad. cbn [take app b64_quanta]. rewrite Ii, Ij. cbn [mbind option_bind].
    cbn -[Z.div Z.modulo byte_of_Z Z.mul Z.add]. rewrite E1. by rewrite byte_of_Z_of_byte.
  - destruct (b64_quad_ok (Z_of_byte a) (Z_of_byte b) 0) as [(Hi&Hj&Hk&Hl) (E1&E2&E3)]; [lia..|].
    destruct (b64_index_char _ Hi) as (Ii & _), (b64_index_char _ Hj) as (Ij & _),
      (b64_index_char _ Hk) as (Ik & Nk & _).
    unfold b64_encode, b64_quad. cbn [take app b64_quanta]. rewrite Ii, Ij. cbn [mbind option_bind].
    destruct (decide (b64_char _ = _)) as [?|_]; [done|]. rewrite Ik.
    cbn -[Z.div Z.modulo byte_of_Z Z.mul Z.add]. rewrite E1, E2. by rewrite !byte_of_Z_of_byte.
  - destruct (b64_quad_ok (Z_of_byte a) (Z_of_byte b) (Z_of_byte c)) as [(Hi&Hj&Hk&Hl) (E1&E2&E3)]; [lia..|].
    destruct (b64_index_char _ Hi) as (Ii & _), (b64_index_char _ Hj) as (Ij & _),
      (b64_index_char _ Hk) as (Ik & Nk & _), (b64_index_char _ Hl) as (Il & Nl & _).
    cbn [b64_encode]. unfold b64_quad. cbn [app b64_quanta]. rewrite Ii, Ij. cbn [mbind option_bind].
    destruct (decide (b64_char _ = _)) as [?|_]; [done|]. rewrite Ik. cbn [mbind option_bind].
    destruct (decide (b64_char _ = _)) as [?|_]; [done|]. rewrite Il. cbn [mbind option_bind].
    rewrite IH. cbn [mbind option_bind]. rewrite E1, E2, E3. by rewrite !byte_of_Z_of_byte.
Qed.

(** ** The codec satisfies the laws *)

Lemma get_bytes_ok field o :
  get_bytes field (JStr (String.string_of_list_ascii (b64_encode o))) = Ok o.
Proof. cbn. by rewrite String.list_ascii_of_string_of_list_ascii, b64_decode_encode. Qed.

Lemma get_byte_list_ok field bs :
  get_byte_list field ((fun x => JNum (Z_of_byte x)) <$> bs) = Ok bs.
Proof.
  induction bs as [|b bs IH]; [done|]. cbn [fmap list_fmap get_byte_list get_uint].
  rewrite decide_True by apply Z_of_byte_range. fold (fmap (M := list) (fun x => JNum (Z_of_byte x)) bs).
  by rewrite IH, byte_of_Z_of_byte.
Qed.

Lemma get_arrays_ok n field l :
  Forall (fun i : bytes => length i = n) l ->
  get_arrays n field ((fun i : bytes => JArr ((fun x => JNum (Z_of_byte x)) <$> i)) <$> l) = Ok l.
Proof.
  induction 1 as [|i l Hi Hl IH]; [done|]. cbn [fmap list_fmap get_arrays get_array].
  fold (fmap (M := list) (fun x => JNum (Z_of_byte x)) i).
  fold (fmap (M := list) (fun i : bytes => JArr ((fun x => JNum (Z_of_byte x)) <$> i)) l).
  rewrite take_ge by (rewrite length_fmap; lia).
  rewrite get_byte_list_ok, IH, go_copy_full by (by rewrite length_replicate). done.
Qed.

Lemma get_uint_ok w field ty z old : 0 <= z < 2 ^ w -> get_uint w field ty (JNum z) old = Ok z.
Proof. intros H. cbn. by rewrite decide_True. Qed.

#[export] Instance json_laws : JsonLaws.
Proof.
  intros v t Hv Ht.
  destruct v; [injection Ht as <-..|done]; cbn [message_valid] in Hv;
    (eexists; split; [reflexivity|]; cbn [json_Unmarshal json_codec message_of_json]).
  all: unfold get_round_onion, get_round_err, put_round_onion, put_round_err.
  all: cbn [get_struct get_fields].
  all: repeat match goal with |- context [same_name ?a ?b] =>
    let x := eval vm_compute in (same_name a b) in change (same_name a b) with x; cbn beta iota end.
  all: repeat match goal with
    | H : _ /\ _ |- _ => destruct H
    | |- context [get_uint] => rewrite get_uint_ok by (split; lia); cbn [res_map fst snd]
    | |- context [get_bytes] => rewrite get_bytes_ok
    | |- context [put_string] => rewrite put_string_valid by done
    end; cbn [res_map get_string fst snd].
  all: try (by destruct v).
  cbn [get_slice_of_arrays]. rewrite get_arrays_ok; [by destruct v|].
  eapply Forall_impl; [eassumption|]. intros i Hi. unfold zlen in Hi. lia.
Qed.

Lemma envelope_roundtrip_witness :
  exists e, Envelop (VConvoRequest (mkConvoRequest 7 [x01; x02])) = Ok e /\
    Envelope_Open e = Ok (VConvoRequest (mkConvoRequest 7 [x01; x02])).
Proof.
  apply (envelope_roundtrip (VConvoRequest (mkConvoRequest 7 [x01; x02]))).
  split; [discriminate | reflexivity].
Defined.

(** A text that is not valid UTF-8 does not come back. *)
Example text_is_coerced :
  match Envelop (VBadRequestError (mkBadRequestError (String.string_of_list_byte [x61; xff; x62]))) with
  | Ok e => Envelope_Open e = Ok (VBadRequestError (mkBadRequestError (String.string_of_list_byte [x61; xef; xbf; xbd; x62])))
  | Err _ => False
  end.
Proof. vm_compute. reflexivity. Qed.

Example valid_text : utf8_valid [x61; xc3; xa9; xe2; x82; xac; xf0; x9f; x98; x80] = true /\ utf8_valid [xed; xa0; x80] = false.
Proof. split; reflexivity. Qed.
