(* ===== verification/BoxKeys.v ===== *)
(** * BoxKeys: the text form of keys

    Models the rest of [boxkey.go]: keys as base32 text and as JSON strings. The
    base32 package is third-party code and a parameter, with the law that decoding
    undoes encoding. *)

From stdpp Require Import numbers strings gmap list.
From Stdlib Require Import Strings.Byte.
From S2P Require Import Prelude Binary Wire Rand OnionBox EntryApi Json.

Class Base32 := {
  EncodeToString : bytes -> string;
  DecodeString : string -> result bytes;
}.

Class Base32Laws `{Base32} := Decode_Encode : forall bs, DecodeString (EncodeToString bs) = Ok bs.

(** [GenerateBoxKey]: [box.GenerateKey] with the pointers converted. *)
Definition GenerateBoxKey {R} `{KeyGen R} : GoM R (result (BoxKey * BoxKey)) := GenerateKey.

Section Keys.
Context `{Base32}.

Definition BoxKey_String (k : BoxKey) : string := EncodeToString k.

(** [copy(key[:], b) < 32] counts the bytes copied: at most 32 of [b]. *)
Definition KeyFromString (s : string) : result BoxKey :=
  match DecodeString s with
  | Err e => Err ("base32 decode error: " +:+ e)
  | Ok b =>
      let key := go_copy zero_key b in
      if decide (Z.min 32 (zlen b) < 32) then Err "short key" else Ok key
  end.

Definition BoxKey_MarshalJSON (k : BoxKey) : json := JStr (BoxKey_String k).

(** [UnmarshalJSON]: the new contents of [k] and the error. [json.Unmarshal] into a
    string leaves it empty on [null]; a short key has already been copied when the
    error is found. *)
Definition BoxKey_UnmarshalJSON (b : json) (k : BoxKey) : BoxKey * option string :=
  let decode (s : string) :=
    match DecodeString s with
    | Err e => (k, Some ("base32 decode error: " +:+ e))
    | Ok bs => (go_copy k bs, if decide (Z.min 32 (zlen bs) < 32) then Some "short key" else None)
    end in
  match b with
  | JStr s => decode s
  | JNull => decode ""
  | _ => (k, Some ("json: cannot unmarshal " +:+ json_kind b +:+ " into Go value of type string"))
  end.

End Keys.

(** The text form of a key is lossless: parsing what [String] printed, as text or as
    a JSON string, gives the key back whatever was in the destination; and a text
    that decodes to fewer than 32 bytes is always rejected, while more than 32 bytes
    are accepted and cut. *)
Lemma key_text_roundtrip `{Base32Laws} (k k0 : BoxKey) (s : string) (bs : bytes) :
  length k = 32%nat -> length k0 = 32%nat -> DecodeString s = Ok bs ->
  KeyFromString (BoxKey_String k) = Ok k /\
  BoxKey_UnmarshalJSON (BoxKey_MarshalJSON k) k0 = (k, None) /\
  (zlen bs < 32 -> KeyFromString s = Err "short key" /\ (BoxKey_UnmarshalJSON (JStr s) k0).2 = Some "short key") /\
  (32 <= zlen bs -> KeyFromString s = Ok (take 32 bs)).
Proof.
  intros Hk Hk0 Hs. unfold KeyFromString, BoxKey_UnmarshalJSON, BoxKey_MarshalJSON, BoxKey_String.
  rewrite Hs, !Decode_Encode. unfold zlen. rewrite !Hk.
  split_and!.
  - rewrite decide_False by done. by rewrite go_copy_full.
  - rewrite decide_False by done. rewrite go_copy_full; [done|]. by rewrite Hk0.
  - intros Hl. rewrite !decide_True by lia. done.
  - intros Hl. rewrite !decide_False by lia. unfold go_copy, zero_key.
    rewrite length_replicate, drop_ge, app_nil_r by (rewrite length_replicate; lia). done.
Qed.

(** A concrete base32 of two letters per byte. *)
Definition toy_letters (b : byte) : list Ascii.ascii :=
  [Ascii.ascii_of_N (Z.to_N (97 + Z_of_byte b / 16)); Ascii.ascii_of_N (Z.to_N (97 + Z_of_byte b mod 16))].
Fixpoint toy_decode (s : list Ascii.ascii) : result bytes :=
  match s with
  | [] => Ok []
  | a :: b :: s' =>
      match toy_decode s' with
      | Ok bs => Ok (byte_of_Z ((Z.of_N (Ascii.N_of_ascii a) - 97) * 16 + (Z.of_N (Ascii.N_of_ascii b) - 97)) :: bs)
      | Err e => Err e
      end
  | _ => Err "odd length"
  end.
#[export] Instance toy_base32 : Base32 := {|
  EncodeToString bs := String.string_of_list_ascii (bs ≫= toy_letters);
  DecodeString s := toy_decode (String.list_ascii_of_string s) |}.

#[export] Instance toy_base32_laws : Base32Laws.
Proof.
  intros bs. cbn. rewrite String.list_ascii_of_string_of_list_ascii.
  induction bs as [|b bs IH]; [done|]. rewrite bind_cons. cbn [toy_letters app toy_decode]. rewrite IH.
  pose proof (Z_of_byte_range b) as Hb.
  assert (0 <= Z_of_byte b / 16 < 16) by (split; [apply Z.div_pos; lia | apply Z.div_lt_upper_bound; lia]).
  pose proof (Z.mod_pos_bound (Z_of_byte b) 16 eq_refl).
  rewrite !Ascii.N_ascii_embedding by lia. rewrite !Z2N.id by lia.
  replace ((97 + Z_of_byte b / 16 - 97) * 16 + (97 + Z_of_byte b mod 16 - 97)) with (Z_of_byte b).
  - by rewrite byte_of_Z_of_byte.
  - rewrite (Z.div_mod (Z_of_byte b) 16) at 1; lia.
Qed.

Lemma key_text_roundtrip_witness :
  KeyFromString (BoxKey_String (replicate 32 x07)) = Ok (replicate 32 x07) /\
  KeyFromString "aa" = Err "short key".
Proof.
  destruct (key_text_roundtrip (replicate 32 x07) (replicate 32 x00) "aa" [x00]) as (H1 & _ & H2 & _).
  - reflexivity.
  - reflexivity.
  - reflexivity.
  - split; [exact H1|]. apply H2. reflexivity.
Defined.
