(* ===== verification/Conversation.v ===== *)
(** * Conversation: one conversation of a client

    Models [vuvuzela-client/conversation.go]: the messages inside an exchange, the
    queue of outgoing texts, the request for a round and the handling of its
    response, the roles of the two peers and the dead drop they share. The
    terminal is the text of its main view, on which the log hook of [gui.go] prints
    every log entry; the entries are also kept as a list. *)

From stdpp Require Import numbers strings pretty gmap list.
From Stdlib Require Import Strings.Byte SpecFloat.
From S2P Require Import Prelude Binary Wire Sha256 Rand OnionBox Pki Laplace Log EntryApi.

(** ** Time *)

(** [time.Time]: seconds since January 1 of year 1 ([int64]) and nanoseconds. *)
Record Time := mkTime { t_sec : Z; t_nsec : Z }.

Definition unixToInternal : Z := (1969 * 365 + 1969 / 4 - 1969 / 100 + 1969 / 400) * 86400.

(** [time.Unix(sec, 0)] and [t.Unix()]. *)
Definition time_Unix (sec : Z) : Time := mkTime (i64 (sec + unixToInternal)) 0.
Definition Time_Unix (t : Time) : Z := i64 (t_sec t - unixToInternal).

(** [t.Sub(u)]: nanoseconds, held at the bounds of [int64]. *)
Definition Time_Sub (t u : Time) : Z :=
  Z.max (- 2 ^ 63) (Z.min (2 ^ 63 - 1) ((t_sec t - t_sec u) * 10 ^ 9 + (t_nsec t - t_nsec u))).

(** ** Messages *)

(** The dynamic type of [ConvoMessage.Body]; [NoBody] is nil. *)
Inductive Body :=
| TextMessage (Message : bytes)
| TimestampMessage (Timestamp : Time)
| NoBody.

(** [copy(msg[1:], src)] on an array. *)
Definition copy_from_1 (msg src : bytes) : bytes := take 1 msg ++ go_copy (drop 1 msg) src.

Definition ConvoMessage_Marshal (body : Body) : bytes :=
  let msg := replicate (Z.to_nat SizeMessage) x00 in
  match body with
  | TimestampMessage t => copy_from_1 (<[0%nat := x00]> msg) (PutVarint (Time_Unix t))
  | TextMessage m => copy_from_1 (<[0%nat := x01]> msg) m
  | NoBody => msg
  end.

Definition ConvoMessage_Unmarshal (msg : bytes) : outcome (result Body) :=
  ty ← go_index msg 0;
  if decide (ty = x00) then
    rest ← go_slice msg 1 (zlen msg);
    Ret (Ok (TimestampMessage (time_Unix (Varint rest).1)))
  else if decide (ty = x01) then
    rest ← go_slice msg 1 (zlen msg);
    Ret (Ok (TextMessage rest))
  else Ret (Err ("unexpected message type: " +:+ pretty (Z_of_byte ty))).

(** [strings.TrimRight(s, "\x00")] *)
Fixpoint trim_right (s : bytes) : bytes :=
  match s with
  | [] => []
  | b :: s' =>
      match trim_right s' with
      | [] => if decide (b = x00) then [] else [b]
      | t => b :: t
      end
  end.

(** ** The terminal *)

(** [main_view]: the text of the view named main, absent before the first layout.
    [logged]: the entries given to the logger. [time_Local]: seconds to add to UTC at a
    time, as the machine's time zone says. *)
Record Gui := mkGui {
  main_view : option bytes;
  logged : list entry;
  time_Local : Time -> Z;
}.

Definition str (s : string) : bytes := String.list_byte_of_string s.

(** [gc.Printf] and [gc.Warnf] with the formatted text: nothing happens without the view. *)
Definition gui_Printf (text : bytes) (g : Gui) : Gui :=
  mkGui ((fun t => t ++ text) <$> main_view g) (logged g) (time_Local g).
Definition gui_Warnf (text : bytes) (g : Gui) : Gui := gui_Printf (str "-!- " ++ text) g.

(** *** Logging *)

(** [t.Format("15:04:05")] *)
Definition two_digits (n : Z) : string := if decide (n < 10) then "0" +:+ pretty n else pretty n.
Definition clock_text (zone : Time -> Z) (t : Time) : string :=
  let s := (t_sec t + zone t) mod 86400 in
  two_digits (s / 3600) +:+ ":" +:+ two_digits (s / 60 mod 60) +:+ ":" +:+ two_digits (s mod 60).

(** What [fmt] prints for the values the client logs besides texts, which are numbers
    and booleans; texts appear only under the key [call], which is printed as it is. *)
Definition print_plain (v : field) : string :=
  match v with
  | FString s | FError s | FOther s => s
  | FBool b => if b then "true" else "false"
  | FUint32 n => pretty n
  end.
Definition plain_fmt : Fmt := {| Sprintf1 _ v := print_plain v; Sprint v := print_plain v |}.
Definition log_line (e : entry) : string :=
  (@GuiFormatter_Format plain_fmt (fst <$> map_to_list (en_Data e)) e).1.

(** [gc.Fire], the hook: the line is used as a format; [Sprintf0] is [fmt.Sprintf]
    without arguments. *)
Definition Fire (Sprintf0 : string -> string) (e : entry) (g : Gui) : Gui :=
  gui_Warnf (str (Sprintf0 (log_line e))) g.

(** An entry given to the logger at time [now]. The first [layout] creates the view and
    installs the hook; before it neither exists and the screen stays as it is. *)
Definition gui_log (Sprintf0 : string -> string) (lvl : level) (msg : string) (data : gmap string field) (now : Time)
    (g : Gui) : Gui :=
  let e := mkEntry (clock_text (time_Local g) now) lvl msg data in
  Fire Sprintf0 e (mkGui (main_view g) (logged g ++ [e]) (time_Local g)).

(** [log.WithFields(log.Fields{"round": round}).Error(msg)] for a constant [msg]: the line
    has no percent sign, so that as a format it prints itself. *)
Definition log_round_error (round : Z) (msg : string) (now : Time) : Gui -> Gui :=
  gui_log (fun line => line) ErrorLevel msg {["round" := FUint32 round]} now.

(** ** The state *)

Record pendingRound := mkPendingRound {
  pr_onionSharedKeys : list BoxKey;
  pr_sentMessage : bytes;
}.

(** [outQueue] is a channel with room for 64 texts. *)
Record Conversation := mkConversation {
  c_pki : PKI;
  c_peerName : string;
  c_peerPublicKey : BoxKey;
  c_myPublicKey : BoxKey;
  c_myPrivateKey : BoxKey;
  c_outQueue : list bytes;
  c_pendingRounds : gmap Z pendingRound;
  c_lastPeerResponding : bool;
  c_lastLatency : Z;
  c_lastRound : Z;
}.

Definition set_outQueue (q : list bytes) (c : Conversation) : Conversation :=
  mkConversation (c_pki c) (c_peerName c) (c_peerPublicKey c) (c_myPublicKey c) (c_myPrivateKey c)
    q (c_pendingRounds c) (c_lastPeerResponding c) (c_lastLatency c) (c_lastRound c).
Definition set_pendingRounds (m : gmap Z pendingRound) (c : Conversation) : Conversation :=
  mkConversation (c_pki c) (c_peerName c) (c_peerPublicKey c) (c_myPublicKey c) (c_myPrivateKey c)
    (c_outQueue c) m (c_lastPeerResponding c) (c_lastLatency c) (c_lastRound c).
Definition set_lastPeerResponding (b : bool) (c : Conversation) : Conversation :=
  mkConversation (c_pki c) (c_peerName c) (c_peerPublicKey c) (c_myPublicKey c) (c_myPrivateKey c)
    (c_outQueue c) (c_pendingRounds c) b (c_lastLatency c) (c_lastRound c).
Definition set_lastLatency (d : Z) (c : Conversation) : Conversation :=
  mkConversation (c_pki c) (c_peerName c) (c_peerPublicKey c) (c_myPublicKey c) (c_myPrivateKey c)
    (c_outQueue c) (c_pendingRounds c) (c_lastPeerResponding c) d (c_lastRound c).
Definition set_lastRound (r : Z) (c : Conversation) : Conversation :=
  mkConversation (c_pki c) (c_peerName c) (c_peerPublicKey c) (c_myPublicKey c) (c_myPrivateKey c)
    (c_outQueue c) (c_pendingRounds c) (c_lastPeerResponding c) (c_lastLatency c) r.

Definition Conversation_Init (c : Conversation) : Conversation :=
  set_lastPeerResponding false (set_pendingRounds ∅ (set_outQueue [] c)).

Definition outQueue_cap : Z := 64.

(** [c.outQueue <- msg] blocks while the channel is full. *)
Definition QueueTextMessage (msg : bytes) : GoM Conversation unit := fun c =>
  if decide (zlen (c_outQueue c) < outQueue_cap) then Ret (tt, set_outQueue (c_outQueue c ++ [msg]) c)
  else Block.

(** ** Roles, keys and dead drops *)

Definition Solo (c : Conversation) : bool :=
  bool_decide (bytes_compare (c_myPublicKey c) (c_peerPublicKey c) = 0).

Definition myRole (c : Conversation) : byte :=
  if decide (bytes_compare (c_myPublicKey c) (c_peerPublicKey c) < 0) then x00 else x01.
Definition theirRole (c : Conversation) : byte :=
  if decide (bytes_compare (c_peerPublicKey c) (c_myPublicKey c) < 0) then x00 else x01.

(** [PutUint32(nonce[:], round); nonce[23] = role]. *)
Definition role_nonce (round : Z) (role : byte) : Nonce :=
  <[23%nat := role]> (be_put 4 round ++ drop 4 (replicate 24 x00)).

Section Convo.
Context {R : Type} `{Reader R, Box, !KeyGen R}.

Definition Conversation_Seal (c : Conversation) (message : bytes) (round : Z) (role : byte) : bytes :=
  box_Seal message (role_nonce round role) (c_peerPublicKey c) (c_myPrivateKey c).
Definition Conversation_Open (c : Conversation) (ctxt : bytes) (round : Z) (role : byte) : option bytes :=
  box_Open ctxt (role_nonce round role) (c_peerPublicKey c) (c_myPrivateKey c).

(** A random dead drop in a conversation with oneself, else the first half of the
    HMAC of the round under the shared key. *)
Definition deadDrop (c : Conversation) (round : Z) : GoM R DeadDrop :=
  if Solo c then rand_Read 16
  else
    let sharedKey := Precompute (c_peerPublicKey c) (c_myPrivateKey c) in
    gret (go_copy (replicate 16 x00) (hmac_sha256 sharedKey (be_put 4 round))).

(** ** The handlers

    The state is the conversation, the terminal and the source of randomness;
    [now] is what [time.Now()] returns. *)

Definition cstate : Type := Conversation * Gui * R.

Definition get_convo : GoM cstate Conversation := fun s => Ret (s.1.1, s).
Definition put_convo (f : Conversation -> Conversation) : GoM cstate unit :=
  fun s => Ret (tt, (f s.1.1, s.1.2, s.2)).
Definition put_gui (f : Gui -> Gui) : GoM cstate unit :=
  fun s => Ret (tt, (s.1.1, f s.1.2, s.2)).
Definition c_on_rand {A} : GoM R A -> GoM cstate A := gzoom snd (fun r s => (s.1, r)).

(** The [select] that takes a queued text or else the time. *)
Definition next_body (now : Time) : GoM cstate Body :=
  (let! c := get_convo in
   match c_outQueue c with
   | m :: q => put_convo (set_outQueue q) ;;; gret (TextMessage m)
   | [] => gret (TimestampMessage now)
   end)%go.

Definition NextConvoRequest (round : Z) (now : Time) : GoM cstate ConvoRequest :=
  (put_convo (set_lastRound round) ;;;
   let! body := next_body now in
   let msgdata := ConvoMessage_Marshal body in
   let! c := get_convo in
   let ctxt := Conversation_Seal c msgdata round (myRole c) in
   let encmsg := go_copy (replicate (Z.to_nat SizeEncryptedMessage) x00) ctxt in
   let! dd := c_on_rand (deadDrop c round) in
   let exchange := mkConvoExchange dd encmsg in
   let! keys := glift (ServerKeys (c_pki c)) in
   let! (onion, sharedKeys) :=
     c_on_rand (onion_Seal (ConvoExchange_Marshal exchange) (ForwardNonce round) (Keys keys)) in
   let pr := mkPendingRound sharedKeys encmsg in
   put_convo (fun c => set_pendingRounds (<[round := pr]> (c_pendingRounds c)) c) ;;;
   gret (mkConvoRequest round onion))%go.

(** The body of [HandleConvoResponse] after the pending round was taken: the value
    of [responding] when it returns. *)
Definition handle_pending (r : ConvoResponse) (pr : pendingRound) (now : Time) : GoM cstate bool :=
  (match onion_Open (cp_Onion r) (BackwardNonce (cp_Round r)) (pr_onionSharedKeys pr) with
   | None => put_gui (log_round_error (cp_Round r) "decrypting onion failed" now) ;;; gret false
   | Some encmsg =>
       let! c := get_convo in
       if decide (bytes_compare encmsg (pr_sentMessage pr) = 0 /\ Solo c = false) then gret false
       else
         match Conversation_Open c encmsg (cp_Round r) (theirRole c) with
         | None => put_gui (log_round_error (cp_Round r) "decrypting peer message failed" now) ;;; gret false
         | Some msgdata =>
             let! msg := glift (ConvoMessage_Unmarshal msgdata) in
             match msg with
             | Err _ => put_gui (log_round_error (cp_Round r) "unmarshaling peer message failed" now) ;;; gret false
             | Ok (TextMessage m) =>
                 put_gui (gui_Printf (str "<" ++ str (c_peerName c) ++ str "> " ++ trim_right m ++ [x0a])) ;;;
                 gret true
             | Ok (TimestampMessage t) =>
                 put_convo (set_lastLatency (Time_Sub now t)) ;;; gret true
             | Ok NoBody => gret true
             end
         end
   end)%go.

Definition HandleConvoResponse (r : ConvoResponse) (now : Time) : GoM cstate unit :=
  (let! c := get_convo in
   let pr := c_pendingRounds c !! cp_Round r in
   put_convo (set_pendingRounds (delete (cp_Round r) (c_pendingRounds c))) ;;;
   let! responding :=
     match pr with
     | None => put_gui (log_round_error (cp_Round r) "round not found" now) ;;; gret false
     | Some pr => handle_pending r pr now
     end in
   put_convo (set_lastPeerResponding responding))%go.

End Convo.
Arguments cstate : clear implicits.

(** ** Status *)

Record Status := mkStatus {
  st_PeerResponding : bool;
  st_Round : Z;
  st_Latency : float64;
}.

Definition Conversation_Status (c : Conversation) : Status :=
  mkStatus (c_lastPeerResponding c) (c_lastRound c)
    (fdiv (float_of_Z (c_lastLatency c)) (float_of_Z (10 ^ 9))).

(** ** Lemmas: messages *)

Lemma copy_from_1_shape ty src :
  copy_from_1 (<[0%nat := ty]> (replicate (Z.to_nat SizeMessage) x00)) src =
  ty :: go_copy (replicate 239 x00) src.
Proof. reflexivity. Qed.

Lemma Marshal_length body : length (ConvoMessage_Marshal body) = 240%nat.
Proof.
  destruct body; cbn [ConvoMessage_Marshal]; [rewrite copy_from_1_shape..|by rewrite length_replicate];
    cbn [length]; by rewrite go_copy_length.
Qed.

Lemma go_copy_pad (src : bytes) n :
  go_copy (replicate n x00) src = take n src ++ replicate (n - length src) x00.
Proof. unfold go_copy. by rewrite length_replicate, drop_replicate. Qed.

Lemma trim_right_zeroes s n : trim_right (s ++ replicate n x00) = trim_right s.
Proof.
  induction s as [|b s IH]; cbn [app trim_right]; [|by rewrite IH].
  induction n as [|n IH]; [done|]. cbn [replicate trim_right]. by rewrite IH.
Qed.

Lemma trim_right_id s : last s <> Some x00 -> trim_right s = s.
Proof.
  induction s as [|b s IH]; intros Hl; [done|]. cbn [trim_right].
  destruct s as [|b' s].
  - cbn [trim_right]. rewrite decide_False; [done|]. intros ->. by apply Hl.
  - rewrite IH by (by rewrite last_cons_cons in Hl). done.
Qed.

Lemma trim_right_last s : last (trim_right s) <> Some x00.
Proof.
  induction s as [|b s IH]; [done|]. cbn [trim_right].
  destruct (trim_right s) as [|b' t]; [case_decide; [done|cbn; congruence]|by rewrite last_cons_cons].
Qed.

Lemma unmarshal_text rest : ConvoMessage_Unmarshal (x01 :: rest) = Ret (Ok (TextMessage rest)).
Proof.
  unfold ConvoMessage_Unmarshal. rewrite (go_index_lookup _ 0 x01) by done. cbn [mbind outcome_bind].
  rewrite decide_False, decide_True by done.
  assert (go_slice (x01 :: rest) 1 (zlen (x01 :: rest)) = Ret rest) as ->; [|done].
  apply go_slice_ret. unfold zlen. cbn [length]. split; [lia|].
  change (drop (Z.to_nat 1) (_ :: rest)) with rest. by rewrite take_ge by lia.
Qed.

Lemma unmarshal_time rest :
  ConvoMessage_Unmarshal (x00 :: rest) = Ret (Ok (TimestampMessage (time_Unix (Varint rest).1))).
Proof.
  unfold ConvoMessage_Unmarshal. rewrite (go_index_lookup _ 0 x00) by done. cbn [mbind outcome_bind].
  rewrite decide_True by done.
  assert (go_slice (x00 :: rest) 1 (zlen (x00 :: rest)) = Ret rest) as ->; [|done].
  apply go_slice_ret. unfold zlen. cbn [length]. split; [lia|].
  change (drop (Z.to_nat 1) (_ :: rest)) with rest. by rewrite take_ge by lia.
Qed.

Lemma i64_range z : - 2 ^ 63 <= i64 z < 2 ^ 63.
Proof. unfold i64. pose proof (Z.mod_pos_bound (z + 2 ^ 63) (2 ^ 64)). lia. Qed.

Lemma i64_add x y : i64 (i64 x + y) = i64 (x + y).
Proof.
  unfold i64. f_equal.
  replace ((x + 2 ^ 63) mod 2 ^ 64 - 2 ^ 63 + y + 2 ^ 63) with ((x + 2 ^ 63) mod 2 ^ 64 + y) by lia.
  rewrite Zplus_mod_idemp_l. f_equal. lia.
Qed.

Lemma time_Unix_Unix t : - 2 ^ 63 <= t_sec t < 2 ^ 63 -> time_Unix (Time_Unix t) = mkTime (t_sec t) 0.
Proof.
  intros Ht. unfold time_Unix, Time_Unix. rewrite i64_add, Z.sub_add. by rewrite i64_small.
Qed.

(** What the peer decodes from a marshalled body: a text cut to 239 bytes and
    padded, a time in whole seconds. *)
Definition decoded (body : Body) : Body :=
  match body with
  | TextMessage m => TextMessage (go_copy (replicate 239 x00) m)
  | TimestampMessage t => TimestampMessage (mkTime (t_sec t) 0)
  | NoBody => TimestampMessage (time_Unix 0)
  end.

Definition body_ok (body : Body) : Prop :=
  match body with TimestampMessage t => - 2 ^ 63 <= t_sec t < 2 ^ 63 | _ => True end.

Lemma Unmarshal_Marshal body :
  body_ok body -> ConvoMessage_Unmarshal (ConvoMessage_Marshal body) = Ret (Ok (decoded body)).
Proof.
  intros Hb. destruct body as [m|t|]; cbn [ConvoMessage_Marshal decoded].
  - rewrite copy_from_1_shape. apply unmarshal_text.
  - rewrite copy_from_1_shape, unmarshal_time, go_copy_pad. pose proof (PutVarint_length (Time_Unix t)).
    rewrite take_ge by lia. rewrite Varint_PutVarint by apply i64_range.
    cbn [fst]. by rewrite time_Unix_Unix.
  - change (replicate (Z.to_nat SizeMessage) x00) with (x00 :: replicate 239 x00).
    rewrite unmarshal_time. done.
Qed.

(** The text the peer sees. *)
Lemma displayed_text m : trim_right (go_copy (replicate 239 x00) m) = trim_right (take 239 m).
Proof. by rewrite go_copy_pad, trim_right_zeroes. Qed.

(** C26. Message format: every message is 240 bytes long; a time comes back in whole
    seconds (every [int64] number of seconds, through the variable-length
    encoding); a text comes back padded to 239 bytes, and the peer shows it
    unchanged when it has at most 239 bytes and does not end in a zero byte, but
    never when it is longer: the rest is cut off without notice; a first byte
    above 1 is an error and an empty message an index panic. *)
Theorem convo_message_roundtrip (m : bytes) (t : Time) (ty : byte) (rest : bytes) :
  - 2 ^ 63 <= t_sec t < 2 ^ 63 ->
  zlen (ConvoMessage_Marshal (TextMessage m)) = SizeMessage /\
  zlen (ConvoMessage_Marshal (TimestampMessage t)) = SizeMessage /\
  ConvoMessage_Unmarshal (ConvoMessage_Marshal (TimestampMessage t)) =
    Ret (Ok (TimestampMessage (mkTime (t_sec t) 0))) /\
  (exists padded,
     ConvoMessage_Unmarshal (ConvoMessage_Marshal (TextMessage m)) = Ret (Ok (TextMessage padded)) /\
     zlen padded = SizeMessage - 1 /\
     (zlen m <= SizeMessage - 1 -> last m <> Some x00 -> trim_right padded = m) /\
     (SizeMessage - 1 < zlen m -> trim_right padded <> m)) /\
  (1 < Z_of_byte ty ->
   ConvoMessage_Unmarshal (ty :: rest) = Ret (Err ("unexpected message type: " +:+ pretty (Z_of_byte ty)))) /\
  ConvoMessage_Unmarshal [] = Panic index_panic.
Proof.
  intros Ht. split_and!; [unfold zlen; by rewrite Marshal_length..|by apply Unmarshal_Marshal| |  |done].
  - eexists. split; [by apply (Unmarshal_Marshal (TextMessage m))|]. rewrite displayed_text.
    unfold zlen, SizeMessage. rewrite go_copy_length, length_replicate. split_and!; [done|..].
    + intros Hm Hl. rewrite take_ge by lia. by apply trim_right_id.
    + intros Hm Heq. apply (f_equal length) in Heq.
      assert (forall s, (length (trim_right s) <= length s)%nat) as Hle.
      { clear. induction s as [|b s IH]; [done|]. cbn [trim_right].
        destruct (trim_right s); cbn [length] in *; [case_decide; cbn|]; lia. }
      specialize (Hle (take 239 m)). rewrite length_take in Hle. lia.
  - intros Hty. unfold ConvoMessage_Unmarshal. rewrite (go_index_lookup _ 0 ty) by done.
    cbn [mbind outcome_bind]. rewrite !decide_False; [done|..];
      intros ->; [change (Z_of_byte x01) with 1 in Hty | change (Z_of_byte x00) with 0 in Hty]; lia.
Qed.

Lemma convo_message_roundtrip_witness :
  ConvoMessage_Unmarshal (ConvoMessage_Marshal (TimestampMessage (time_Unix (-5)))) =
    Ret (Ok (TimestampMessage (time_Unix (-5)))) /\
  exists padded,
    ConvoMessage_Unmarshal (ConvoMessage_Marshal (TextMessage [x48; x69])) = Ret (Ok (TextMessage padded)) /\
    trim_right padded = [x48; x69].
Proof.
  destruct (convo_message_roundtrip [x48; x69] (time_Unix (-5)) x05 [])
    as (_ & _ & H1 & (padded & H2 & _ & H3 & _) & _).
  - split; [discriminate|reflexivity].
  - split; [exact H1|]. exists padded. split; [exact H2|]. apply H3; [discriminate|discriminate].
Defined.

(** ** Lemmas: roles *)

Lemma role_nonce_shape r role :
  role_nonce r role = be_put 4 r ++ replicate 19 x00 ++ [role].
Proof.
  unfold role_nonce. rewrite insert_app_r_alt by (rewrite be_put_length; lia). by rewrite be_put_length.
Qed.

Lemma role_nonce_inj r r' b b' :
  0 <= r < 2 ^ 32 -> 0 <= r' < 2 ^ 32 -> role_nonce r b = role_nonce r' b' -> r = r' /\ b = b'.
Proof.
  intros Hr Hr'. rewrite !role_nonce_shape. intros [H1 H2]%app_inj_1; [|by rewrite !be_put_length].
  apply app_inj_1 in H2 as [_ [= ->]]; [|done]. split; [|done]. by apply (be_put_inj 4).
Qed.

Lemma Solo_spec c : Solo c = true <-> c_myPublicKey c = c_peerPublicKey c.
Proof. unfold Solo. by rewrite bool_decide_eq_true, bytes_compare_eq. Qed.

Lemma Solo_spec_false c : Solo c = false <-> c_myPublicKey c <> c_peerPublicKey c.
Proof. unfold Solo. by rewrite bool_decide_eq_false, bytes_compare_eq. Qed.

Section Peers.
Context `{HBL : BoxLaws}.

(** [c] and [d] are the two ends of one conversation. *)
Definition mirrored (c d : Conversation) : Prop :=
  c_peerPublicKey c = c_myPublicKey d /\ c_peerPublicKey d = c_myPublicKey c /\
  keypair (c_myPublicKey c) (c_myPrivateKey c) /\ keypair (c_myPublicKey d) (c_myPrivateKey d).

Lemma mirrored_sym c d : mirrored c d -> mirrored d c.
Proof. unfold mirrored. tauto. Qed.

Lemma mirrored_roles c d : mirrored c d -> myRole c = theirRole d /\ theirRole c = myRole d.
Proof. intros (H1 & H2 & _). unfold myRole, theirRole. by rewrite H1, H2. Qed.

Lemma mirrored_secret c d : mirrored c d ->
  Precompute (c_peerPublicKey c) (c_myPrivateKey c) = Precompute (c_peerPublicKey d) (c_myPrivateKey d).
Proof using HBL. intros (-> & -> & Hc & Hd). by apply Precompute_agree. Qed.

Lemma mirrored_open c d m r :
  mirrored c d -> Conversation_Open d (Conversation_Seal c m r (myRole c)) r (theirRole d) = Some m.
Proof using HBL.
  intros Hm. unfold Conversation_Open, Conversation_Seal, box_Open, box_Seal.
  destruct (mirrored_roles _ _ Hm) as [-> _]. rewrite (mirrored_secret _ _ Hm). apply Open_Seal.
Qed.

Lemma Seal_size c body r role :
  length (Conversation_Seal c (ConvoMessage_Marshal body) r role) = Z.to_nat SizeEncryptedMessage.
Proof using HBL.
  pose proof (Seal_length (ConvoMessage_Marshal body) (role_nonce r role)
    (Precompute (c_peerPublicKey c) (c_myPrivateKey c))) as Hs.
  unfold zlen in Hs. rewrite Marshal_length in Hs.
  unfold Conversation_Seal, box_Seal, SizeEncryptedMessage, SizeMessage, box_Overhead in *. lia.
Qed.

(** C24. The two ends of a conversation agree and keep their directions apart: what
    one seals in a round the other opens; when their keys differ they use the
    same 16-byte dead drop in every round without drawing randomness, the role of one
    is not the role of the other, and over all rounds no nonce of one direction
    equals a nonce of the other or of another round. *)
Theorem peers_agree {R} `{Reader R} (c d : Conversation) (m : bytes) (r r' : Z) (g : R) :
  mirrored c d -> 0 <= r < 2 ^ 32 -> 0 <= r' < 2 ^ 32 ->
  Conversation_Open d (Conversation_Seal c m r (myRole c)) r (theirRole d) = Some m /\
  (c_myPublicKey c <> c_myPublicKey d ->
   (exists dd, deadDrop c r g = Ret (dd, g) /\ deadDrop d r g = Ret (dd, g) /\ length dd = 16%nat) /\
   myRole c <> myRole d /\
   role_nonce r (myRole c) <> role_nonce r' (myRole d) /\
   (role_nonce r (myRole c) = role_nonce r' (myRole c) <-> r = r')).
Proof using HBL.
  intros Hm Hr Hr'. split; [by apply mirrored_open|]. intros Hne.
  assert (myRole c <> myRole d) as Hrole.
  { destruct Hm as (H1 & H2 & _). unfold myRole. rewrite H1, H2.
    rewrite (bytes_compare_antisym (c_myPublicKey c)).
    assert (bytes_compare (c_myPublicKey c) (c_myPublicKey d) <> 0) by (by rewrite bytes_compare_eq).
    do 2 case_decide; done || lia. }
  assert (Solo c = false /\ Solo d = false) as [Sc Sd].
  { rewrite !Solo_spec_false. destruct Hm as (-> & -> & _). done. }
  split_and!; [|done|..].
  - eexists. unfold deadDrop. rewrite Sc, Sd, (mirrored_secret _ _ Hm). split_and!; [done|done|].
    by rewrite go_copy_length, length_replicate.
  - intros [_ ?]%role_nonce_inj; done.
  - split; [by intros [? _]%role_nonce_inj|by intros ->].
Qed.

End Peers.

Section PeersWitness.
#[local] Existing Instances toy_box toy_laws counter_reader.

Definition toy_convo (me peer : byte) : Conversation :=
  Conversation_Init (mkConversation example_pki "peer" (replicate 32 peer) (replicate 32 me) (replicate 32 me)
    [] ∅ true 0 0).

Lemma toy_mirrored a b : mirrored (toy_convo a b) (toy_convo b a).
Proof. done. Qed.

Lemma peers_agree_witness :
  Conversation_Open (toy_convo x05 x03) (Conversation_Seal (toy_convo x03 x05) [x61] 7 (myRole (toy_convo x03 x05)))
    7 (theirRole (toy_convo x05 x03)) = Some [x61] /\
  myRole (toy_convo x03 x05) <> myRole (toy_convo x05 x03).
Proof.
  destruct (peers_agree (toy_convo x03 x05) (toy_convo x05 x03) [x61] 7 8 0) as [H1 H2].
  - apply toy_mirrored.
  - lia.
  - lia.
  - split; [exact H1|]. apply H2. discriminate.
Defined.
End PeersWitness.

(** ** Requests *)

(** The body the next request carries, and the exchange around it. *)
Definition next_of (now : Time) (c : Conversation) : Body :=
  match c_outQueue c with m :: _ => TextMessage m | [] => TimestampMessage now end.

Definition sent_message `{Box} (c : Conversation) (round : Z) (body : Body) : bytes :=
  Conversation_Seal c (ConvoMessage_Marshal body) round (myRole c).

(** The state after a request. *)
Definition requested (round : Z) (pr : pendingRound) (c : Conversation) : Conversation :=
  set_pendingRounds (<[round := pr]> (c_pendingRounds c)) (set_outQueue (tail (c_outQueue c)) (set_lastRound round c)).

(** The dead drop of a conversation with another key. *)
Definition shared_drop `{Box} (c : Conversation) (round : Z) : DeadDrop :=
  go_copy (replicate 16 x00)
    (hmac_sha256 (Precompute (c_peerPublicKey c) (c_myPrivateKey c)) (be_put 4 round)).

Section Requests.
Context {R : Type} `{HKL : KeyGenLaws R}.

Lemma deadDrop_ok c round (g : R) : reader_ok g ->
  exists dd g', deadDrop c round g = Ret (dd, g') /\ length dd = 16%nat /\ reader_ok g' /\
    (Solo c = false -> dd = shared_drop c round).
Proof.
  intros Hg. unfold deadDrop. destruct (Solo c).
  - destruct (read_full 16 g Hg) as (bs & g' & Hr & Hl & Hg'). exists bs, g'.
    unfold rand_Read. by rewrite (gbind_eq _ _ _ _ _ Hr).
  - eexists _, g. split_and!; [done| |done|done]. by rewrite go_copy_length, length_replicate.
Qed.

Lemma next_body_eq now c gui (g : R) :
  next_body now (c, gui, g) = Ret (next_of now c, (set_outQueue (tail (c_outQueue c)) c, gui, g)).
Proof.
  unfold next_body, next_of, gbind, get_convo, put_convo, gret. cbn [fst snd].
  destruct c as [? ? ? ? ? [|m q] ? ? ? ?]; done.
Qed.

Lemma NextConvoRequest_ok (kps : list (BoxKey * BoxKey)) round now c gui (g : R) :
  pki_keys (c_pki c) (fst <$> kps) -> Forall (fun k => keypair k.1 k.2) kps -> reader_ok g ->
  let ex dd := mkConvoExchange dd (sent_message c round (next_of now c)) in
  exists dd onion shared g1 g',
    NextConvoRequest round now (c, gui, g) =
      Ret (mkConvoRequest round onion,
           (requested round (mkPendingRound shared (sent_message c round (next_of now c))) c, gui, g')) /\
    exchange_valid (ex dd) /\ (Solo c = false -> dd = shared_drop c round) /\
    reader_ok g1 /\ reader_ok g' /\
    onion_Seal (ConvoExchange_Marshal (ex dd)) (ForwardNonce round) ((fun k => Some k.1) <$> kps) g1 =
      Ret ((onion, shared), g').
Proof using HKL.
  intros Hk Hkp Hg ex.
  destruct (deadDrop_ok c round g Hg) as (dd & g1 & Hdd & Hddl & Hg1 & Hsolo).
  destruct (onion_Seal_peel (ConvoExchange_Marshal (ex dd)) (ForwardNonce round) kps g1 Hg1 Hkp)
    as (onion & shared & g' & Hs & _ & _ & _ & Hg').
  assert (exchange_valid (ex dd)) as Hv by (split; [done|apply Seal_size]).
  exists dd, onion, shared, g1, g'. split; [|done].
  unfold NextConvoRequest. rewrite (gbind_eq (put_convo _) _ _ tt (set_lastRound round c, gui, g)) by done.
  rewrite (gbind_eq _ _ _ _ _ (next_body_eq _ _ _ _)).
  set (c1 := set_outQueue _ _). rewrite (gbind_eq get_convo _ _ c1 (c1, gui, g)) by done.
  change (next_of now (set_lastRound round c)) with (next_of now c).
  change (Conversation_Seal c1 _ round (myRole c1)) with (sent_message c round (next_of now c)).
  rewrite go_copy_full by (unfold sent_message; by rewrite Seal_size, length_replicate).
  rewrite (gbind_eq (c_on_rand _) _ _ dd (c1, gui, g1)) by (unfold c_on_rand; by apply gzoom_eq with (t := g1)).
  rewrite (gbind_eq (glift _) _ _ ((fun k => Some k.1) <$> kps) (c1, gui, g1)).
  2: { apply glift_ret. split; [|done]. change (c_pki c1) with (c_pki c). unfold ServerKeys.
       rewrite (server_keys_ret _ _ _ Hk). by rewrite <- list_fmap_compose. }
  rewrite (gbind_eq (c_on_rand _) _ _ (onion, shared) (c1, gui, g')).
  2: { unfold c_on_rand. apply gzoom_eq with (t := g'). unfold Keys. by rewrite list_fmap_id. }
  done.
Qed.

End Requests.

(** ** Responses *)

(** What a delivered body does to the conversation and to the terminal. *)
Definition heard (now : Time) (body : Body) (c : Conversation) : Conversation :=
  match body with
  | TextMessage _ => c
  | TimestampMessage t => set_lastLatency (Time_Sub now (mkTime (t_sec t) 0)) c
  | NoBody => set_lastLatency (Time_Sub now (time_Unix 0)) c
  end.
Definition shown (c : Conversation) (body : Body) (gui : Gui) : Gui :=
  match body with
  | TextMessage m =>
      gui_Printf (str "<" ++ str (c_peerName c) ++ str "> " ++ trim_right (take 239 m) ++ [x0a]) gui
  | _ => gui
  end.

(** The conversation after its round was taken. *)
Definition taken (round : Z) (c : Conversation) : Conversation :=
  set_pendingRounds (delete round (c_pendingRounds c)) c.

Section Responses.
Context {R : Type} `{HR : Reader R, HB : Box, HK : !KeyGen R}.

Lemma HandleConvoResponse_eq resp now c gui (g : R) :
  HandleConvoResponse resp now (c, gui, g) =
  (let! responding :=
     match c_pendingRounds c !! cp_Round resp with
     | None => put_gui (log_round_error (cp_Round resp) "round not found" now) ;;; gret false
     | Some pr => handle_pending resp pr now
     end in
   put_convo (set_lastPeerResponding responding))%go (taken (cp_Round resp) c, gui, g).
Proof. reflexivity. Qed.

(** What the handler reports as an error. *)
Definition response_errors : list string :=
  ["round not found"; "decrypting onion failed"; "decrypting peer message failed"; "unmarshaling peer message failed"]%string.

(** How a response changes the terminal: nothing or one line for an error when the peer
    is not responding, nothing or the peer's text, and no log entry, when it is. *)
Definition screen_effect (round : Z) (now : Time) (responding : bool) (gui gui' : Gui) : Prop :=
  gui' = gui \/
  if responding then exists text, gui' = gui_Printf text gui
  else exists msg, msg ∈ response_errors /\ gui' = log_round_error round msg now gui.

(** A handler step that keeps everything but the latency and the terminal. *)
Definition quiet (round : Z) (now : Time) (s s' : cstate R) (responding : bool) : Prop :=
  set_lastLatency 0 s'.1.1 = set_lastLatency 0 s.1.1 /\ s'.2 = s.2 /\
  (responding = false -> c_lastLatency s'.1.1 = c_lastLatency s.1.1) /\
  screen_effect round now responding s.1.2 s'.1.2.

Lemma error_shown round now msg gui : msg ∈ response_errors -> screen_effect round now false gui (log_round_error round msg now gui).
Proof. intros Hm. right. by exists msg. Qed.

(** The handler of a pending round returns unless the peer sealed an empty message. *)
Lemma handle_pending_total resp pr now (s : cstate R) :
  (exists b s', handle_pending resp pr now s = Ret (b, s') /\ quiet (cp_Round resp) now s s' b) \/
  (exists encmsg, handle_pending resp pr now s = Panic index_panic /\
     onion_Open (cp_Onion resp) (BackwardNonce (cp_Round resp)) (pr_onionSharedKeys pr) = Some encmsg /\
     Conversation_Open s.1.1 encmsg (cp_Round resp) (theirRole s.1.1) = Some []).
Proof.
  destruct s as [[c gui] g]. unfold handle_pending.
  assert (forall msg, msg ∈ response_errors -> exists b s',
    (put_gui (log_round_error (cp_Round resp) msg now) ;;; gret false)%go (c, gui, g) = Ret (b, s') /\
    quiet (cp_Round resp) now (c, gui, g) s' b) as Hlog.
  { intros msg Hm. eexists false, _. split; [done|]. split_and!; [done..|]. by apply error_shown. }
  destruct (onion_Open _ _ _) as [encmsg|]; [|left; apply Hlog; set_solver].
  rewrite (gbind_eq get_convo _ _ c (c, gui, g)) by done. case_decide.
  { left. eexists false, _. split; [done|]. split_and!; [done..|]. by left. }
  destruct (Conversation_Open c encmsg _ _) as [[|ty rest]|] eqn:Ho; [|left|left; apply Hlog; set_solver].
  { right. exists encmsg. done. }
  unfold ConvoMessage_Unmarshal. rewrite (go_index_lookup _ 0 ty) by done. cbn [mbind outcome_bind].
  assert (forall x, exists l, go_slice (x :: rest) 1 (zlen (x :: rest)) = Ret l) as Hsl.
  { intros x. eexists. apply go_slice_ret. split; [|done]. unfold zlen. cbn [length]. lia. }
  destruct (Hsl ty) as [l Hl]. rewrite Hl. cbn [mbind outcome_bind].
  repeat case_decide; unfold gbind, glift.
  - eexists true, _. split; [done|]. split_and!; [done..|]. by left.
  - eexists true, _. split; [done|]. split_and!; [done..|]. right. by eexists.
  - apply Hlog. set_solver.
Qed.

Lemma handle_response_cases resp now c gui (g : R) :
  (exists c' gui', HandleConvoResponse resp now (c, gui, g) = Ret (tt, (c', gui', g)) /\
     c' = set_lastPeerResponding (c_lastPeerResponding c')
            (set_lastLatency (c_lastLatency c') (taken (cp_Round resp) c)) /\
     screen_effect (cp_Round resp) now (c_lastPeerResponding c') gui gui' /\
     (c_lastPeerResponding c' = false -> c_lastLatency c' = c_lastLatency c) /\
     (c_pendingRounds c !! cp_Round resp = None ->
        c_lastPeerResponding c' = false /\ gui' = log_round_error (cp_Round resp) "round not found" now gui)) \/
  (exists pr encmsg, HandleConvoResponse resp now (c, gui, g) = Panic index_panic /\
     c_pendingRounds c !! cp_Round resp = Some pr /\
     onion_Open (cp_Onion resp) (BackwardNonce (cp_Round resp)) (pr_onionSharedKeys pr) = Some encmsg /\
     Conversation_Open c encmsg (cp_Round resp) (theirRole c) = Some []).
Proof.
  rewrite HandleConvoResponse_eq. destruct (c_pendingRounds c !! cp_Round resp) as [pr|] eqn:Hpr.
  - destruct (handle_pending_total resp pr now (taken (cp_Round resp) c, gui, g))
      as [(b & [[c' gui'] g'] & Hh & Hq)|(encmsg & Hh & Ho & Hc)].
    + left. exists (set_lastPeerResponding b c'), gui'. rewrite (gbind_eq _ _ _ _ _ Hh).
      destruct Hq as (Hc & Hg & Hb & Ht). cbn in *. subst g'. split; [done|].
      split; [|split_and!; [done|done|done]].
      destruct c', c. unfold set_lastLatency, taken, set_lastPeerResponding, set_pendingRounds in *. cbn in *.
      clear -Hc. injection Hc. by intros; subst.
    + right. exists pr, encmsg. unfold gbind. rewrite Hh. done.
  - left. eexists _, _. split; [done|]. split; [by destruct c|]. split_and!; [|done|done]. cbn. apply error_shown. set_solver.
Qed.

(** C25. Handling a response is safe: it returns for every response whatsoever, unless
    the peer itself sealed an empty message, which panics; the round is no longer
    pending, all other pending rounds, the queue, the keys, the round shown and the
    source of randomness are unchanged. When the peer is then shown as responding, at
    most a text was added to the screen and nothing was logged; when not, the latency is
    unchanged and the screen is unchanged but for the line of at most one of the four
    errors, logged with the round. A response for a round that is not pending is never
    opened and is always such an error. *)
Theorem HandleConvoResponse_safe resp now c gui (g : R) :
  (exists c' gui', HandleConvoResponse resp now (c, gui, g) = Ret (tt, (c', gui', g)) /\
     c' = set_lastPeerResponding (c_lastPeerResponding c')
            (set_lastLatency (c_lastLatency c') (taken (cp_Round resp) c)) /\
     (gui' = gui \/
      if c_lastPeerResponding c' then exists text, gui' = gui_Printf text gui
      else exists msg, msg ∈ response_errors /\ gui' = log_round_error (cp_Round resp) msg now gui) /\
     (c_lastPeerResponding c' = false -> c_lastLatency c' = c_lastLatency c) /\
     (c_pendingRounds c !! cp_Round resp = None ->
        c_lastPeerResponding c' = false /\ gui' = log_round_error (cp_Round resp) "round not found" now gui)) \/
  (exists pr encmsg, HandleConvoResponse resp now (c, gui, g) = Panic index_panic /\
     c_pendingRounds c !! cp_Round resp = Some pr /\
     onion_Open (cp_Onion resp) (BackwardNonce (cp_Round resp)) (pr_onionSharedKeys pr) = Some encmsg /\
     Conversation_Open c encmsg (cp_Round resp) (theirRole c) = Some []).
Proof. exact (handle_response_cases resp now c gui g). Qed.

(** The line of an error as it appears on the screen, in a time zone an hour east. *)
Example error_line :
  main_view (log_round_error 7 "round not found" (time_Unix 3661) (mkGui (Some []) [] (fun _ => 3600))) =
  Some (str "-!- 02:01:01 error | round not found | round=7 " ++ [x0a]).
Proof. vm_compute. reflexivity. Qed.

End Responses.

Section Delivery.
Context {R : Type} `{HKL : KeyGenLaws R}.

Lemma HandleConvoResponse_deliver resp now c d gui (g : R) pr body :
  mirrored c d -> c_pendingRounds c !! cp_Round resp = Some pr -> body_ok body ->
  onion_Open (cp_Onion resp) (BackwardNonce (cp_Round resp)) (pr_onionSharedKeys pr) =
    Some (sent_message d (cp_Round resp) body) ->
  sent_message d (cp_Round resp) body <> pr_sentMessage pr \/ Solo c = true ->
  HandleConvoResponse resp now (c, gui, g) =
    Ret (tt, (set_lastPeerResponding true (heard now body (taken (cp_Round resp) c)), shown c body gui, g)).
Proof using HKL.
  intros Hm Hpr Hb Ho Hne. rewrite HandleConvoResponse_eq, Hpr. unfold handle_pending. rewrite Ho.
  set (c0 := taken _ c).
  assert (Conversation_Open c0 (sent_message d (cp_Round resp) body) (cp_Round resp) (theirRole c0) =
    Some (ConvoMessage_Marshal body)) as Hop.
  { apply (mirrored_open d c0). by apply mirrored_sym. }
  unfold gbind at 1 2. cbn [get_convo fst snd].
  rewrite decide_False.
  2: { rewrite bytes_compare_eq. intros [He Hs]. change (Solo c0) with (Solo c) in Hs. destruct Hne; congruence. }
  rewrite Hop. unfold gbind at 1. rewrite Unmarshal_Marshal by done. cbn [glift].
  destruct body as [m|t|]; cbn [decoded heard shown]; [|done..].
  rewrite displayed_text. done.
Qed.

End Delivery.
