(* ===== verification/ConvoPeers.v ===== *)
(** * ConvoPeers: conversations over time and through the chain

    Histories of one conversation (texts leave in the order they were queued), and
    two ends of a conversation that talk through a chain of servers: the client of
    [Conversation] on top of the servers of [ConvoChain]. *)

From stdpp Require Import numbers strings pretty gmap list.
From Stdlib Require Import Strings.Byte.
From S2P Require Import Prelude Binary Wire Sha256 Rand Shuffle OnionBox Pki Laplace Convo DeadDrops ConvoRounds ConvoChain EntryApi Conversation.

(** ** Histories of one conversation *)

Inductive convo_event :=
| EQueue (msg : bytes)
| ENext (round : Z) (now : Time)
| EResponse (resp : ConvoResponse) (now : Time).

(** [QueueTextMessage] called from the terminal, the two handlers from the network. *)
Definition convo_do {R} `{Reader R, Box, !KeyGen R} (e : convo_event) : GoM (cstate R) (option ConvoRequest) :=
  match e with
  | EQueue msg => (gzoom (fun s => s.1.1) (fun c s => (c, s.1.2, s.2)) (QueueTextMessage msg) ;;; gret None)%go
  | ENext round now => (let! q := NextConvoRequest round now in gret (Some q))%go
  | EResponse resp now => (HandleConvoResponse resp now ;;; gret None)%go
  end.

Definition queued (e : convo_event) : list bytes :=
  match e with EQueue m => [m] | _ => [] end.
Definition texts (body : Body) : list bytes :=
  match body with TextMessage m => [m] | _ => [] end.

(** What no step of a conversation changes. *)
Definition same_ends (c c' : Conversation) : Prop :=
  c_pki c' = c_pki c /\ c_peerName c' = c_peerName c /\ c_peerPublicKey c' = c_peerPublicKey c /\
  c_myPublicKey c' = c_myPublicKey c /\ c_myPrivateKey c' = c_myPrivateKey c.

#[export] Instance same_ends_preorder : PreOrder same_ends.
Proof. split; [done|]. unfold same_ends. intros ???. intuition congruence. Qed.

Section Histories.
Context {R : Type} `{HKL : KeyGenLaws R}.
Context (kps : list (BoxKey * BoxKey)).

(** The servers peel the request [q] to an exchange with [body] sealed for the peer of [c]. *)
Definition request_carries (c : Conversation) (q : ConvoRequest) (body : Body) : Prop :=
  exists dd shared, peel_all (snd <$> kps) (ForwardNonce (cq_Round q)) (cq_Onion q) =
    Some (ConvoExchange_Marshal (mkConvoExchange dd (sent_message c (cq_Round q) body)), shared).

Lemma sent_message_ends c c' r body : same_ends c c' -> sent_message c' r body = sent_message c r body.
Proof.
  intros (_ & _ & E1 & E2 & E3). unfold sent_message, Conversation_Seal, myRole. by rewrite E1, E2, E3.
Qed.

(** One step: the queue, the bodies that left, and what stays. *)
Definition step_sends (c : Conversation) (e : convo_event) (out : option ConvoRequest) (c' : Conversation) : Prop :=
  same_ends c c' /\
  (zlen (c_outQueue c) <= outQueue_cap -> zlen (c_outQueue c') <= outQueue_cap) /\
  exists bodies, Forall2 (request_carries c) (option_list out) bodies /\
    c_outQueue c ++ queued e = (bodies ≫= texts) ++ c_outQueue c' /\
    (c_outQueue c <> [] -> Forall (fun b => texts b <> []) bodies).

Lemma step_sends_ok e (s s' : cstate R) out :
  pki_keys (c_pki s.1.1) (fst <$> kps) -> Forall (fun k => keypair k.1 k.2) kps -> reader_ok s.2 ->
  convo_do e s = Ret (out, s') -> step_sends s.1.1 e out s'.1.1 /\ reader_ok s'.2.
Proof using HKL.
  intros Hk Hkp Hg. destruct s as [[c gui] g]. cbn [fst snd] in *. destruct e as [m|round now|resp now]; cbn [convo_do].
  - intros (? & ? & Hz & [-> ->]%gret_ret)%gbind_ret. apply gzoom_ret in Hz as (c' & Hq & ->). unfold QueueTextMessage in Hq. cbn [fst snd] in Hq.
    case_decide as Hcap; [|done]. injection Hq as _ <-. cbn [fst snd]. split; [|done].
    split_and!; [done| |].
    + intros _. cbn. rewrite zlen_app. change (zlen [m]) with 1. lia.
    + exists []. by repeat constructor.
  - destruct (NextConvoRequest_ok kps round now c gui g Hk Hkp Hg)
      as (dd & onion & shared & g1 & g' & Hn & _ & _ & Hg1 & Hg' & Hs).
    rewrite (gbind_eq _ _ _ _ _ Hn). intros [= <- <-]. cbn [fst snd]. split; [|done].
    destruct (onion_Seal_peel (ConvoExchange_Marshal (mkConvoExchange dd (sent_message c round (next_of now c))))
      (ForwardNonce round) kps g1 Hg1 Hkp) as (o & sh & g2 & Hs' & _ & _ & Hp & _).
    rewrite Hs in Hs'. injection Hs' as -> -> _.
    split_and!; [done| |].
    + cbn. unfold zlen. destruct (c_outQueue c); cbn [length tail]; lia.
    + exists [next_of now c]. split_and!.
      * repeat constructor. by exists dd, sh.
      * cbn. unfold next_of. rewrite app_nil_r. by destruct (c_outQueue c).
      * intros Hne. unfold next_of. destruct (c_outQueue c); [done|]. by repeat constructor.
  - intros (? & ? & Hh & [-> ->]%gret_ret)%gbind_ret.
    destruct (handle_response_cases resp now c gui g) as [(c' & gui' & Hr & Hc' & _)|(? & ? & Hr & _)];
      [|congruence].
    rewrite Hr in Hh. injection Hh as _ <-. cbn [fst snd]. split; [|done].
    assert (same_ends c c' /\ c_outQueue c' = c_outQueue c) as [He Hq] by (rewrite Hc'; done).
    split_and!; [done|by rewrite Hq|]. exists []. rewrite Hq. cbn. rewrite app_nil_r. by repeat constructor.
Qed.

Lemma request_carries_ends c c' q body : same_ends c c' -> request_carries c' q body -> request_carries c q body.
Proof. intros He (dd & sh & Hp). exists dd, sh. by rewrite <- (sent_message_ends _ _ _ _ He). Qed.

(** C23. Texts leave in order: over any history of queueing, requests and responses of
    a conversation with configured servers, the requests carry, each peeled by the
    servers to a message sealed for the peer, bodies whose texts are exactly a prefix of the texts
    queued so far, in order and without loss or repetition, and the queue holds the
    rest, never more than 64. *)
Theorem outgoing_fifo (events : list convo_event) (s s' : cstate R) (outs : list (option ConvoRequest)) :
  pki_keys (c_pki s.1.1) (fst <$> kps) -> Forall (fun k => keypair k.1 k.2) kps -> reader_ok s.2 ->
  go_map convo_do events s = Ret (outs, s') ->
  (zlen (c_outQueue s.1.1) <= outQueue_cap -> zlen (c_outQueue s'.1.1) <= outQueue_cap) /\
  exists bodies, Forall2 (request_carries s.1.1) (outs ≫= option_list) bodies /\
    c_outQueue s.1.1 ++ (events ≫= queued) = (bodies ≫= texts) ++ c_outQueue s'.1.1.
Proof using HKL.
  intros Hk Hkp. revert s outs Hk. induction events as [|e events IH]; intros s outs Hk Hg; cbn [go_map].
  { intros [= <- <-]. split; [done|]. exists []. split; [constructor|]. cbn. by rewrite app_nil_r. }
  intros (out & s1 & He & Hrest)%gbind_ret. apply gbind_ret in Hrest as (outs' & s2 & Hrest & [-> ->]%gret_ret).
  destruct (step_sends_ok e s s1 out Hk Hkp Hg He) as [(Hends & Hcap & bodies1 & Hb1 & Hq1 & _) Hg1].
  destruct (IH s1 outs') as (Hcap2 & bodies2 & Hb2 & Hq2); [|done|done|].
  { destruct Hends as (-> & _). done. }
  split; [auto|]. exists (bodies1 ++ bodies2). rewrite !bind_cons, bind_app. split.
  - apply Forall2_app; [done|]. eapply Forall2_impl; [exact Hb2|].
    intros q b. by apply request_carries_ends.
  - by rewrite app_assoc, Hq1, <- !app_assoc, Hq2.
Qed.

End Histories.

(** ** Two peers and the chain *)

Section Talk.
Context {R : Type} `{HF : Fuel, HR : Reader R, HFR : !FullReader R, HLR : !LiveReader R fuel, HB : Box, HL : !BoxLaws, HK : !KeyGen R,
  HKL : !KeyGenLaws R, HE : FloatEnv}.
Context (cap : Z).

Lemma request_sealed kps round now c gui (g : R) q s' :
  pki_keys (c_pki c) (fst <$> kps) -> Forall (fun k => keypair k.1 k.2) kps -> reader_ok g -> Solo c = false ->
  NextConvoRequest round now (c, gui, g) = Ret (q, s') ->
  exists shared g',
    cq_Round q = round /\ reader_ok g' /\
    s' = (requested round (mkPendingRound shared (sent_message c round (next_of now c))) c, gui, g') /\
    sealed_for (R := R) kps round (mkConvoExchange (shared_drop c round) (sent_message c round (next_of now c)))
      (cq_Onion q) shared.
Proof using HKL.
  intros Hk Hkp Hg Hsolo Hq.
  destruct (NextConvoRequest_ok kps round now c gui g Hk Hkp Hg)
    as (dd & onion & shared & g1 & g' & Hn & Hv & Hdd & Hg1 & Hg' & Hs).
  rewrite Hq in Hn. injection Hn as -> ->. rewrite (Hdd Hsolo) in Hv, Hs.
  exists shared, g'. split_and!; [done|done|done|]. split; [done|]. by exists g1, g'.
Qed.

(** The state after a request and its response with [body]: the round is no longer
    pending, the peer is responding, and a time updates the latency. *)
Definition exchanged (round : Z) (pr : pendingRound) (now : Time) (body : Body) (c : Conversation) : Conversation :=
  set_lastPeerResponding true (heard now body (taken round (requested round pr c))).

Lemma respond_ok round now a b gui (g : R) pr ri body :
  mirrored a b -> body_ok body ->
  onion_Open ri (BackwardNonce round) (pr_onionSharedKeys pr) = Some (sent_message b round body) ->
  sent_message b round body <> pr_sentMessage pr ->
  HandleConvoResponse (mkConvoResponse round ri) now (requested round pr a, gui, g) =
    Ret (tt, (exchanged round pr now body a, shown a body gui, g)).
Proof using HKL.
  intros Hm Hb Ho Hne.
  apply (HandleConvoResponse_deliver (mkConvoResponse round ri) now (requested round pr a) b gui g pr body); try done.
  - cbn. apply lookup_insert_eq.
  - by left.
Qed.

Lemma mirrored_solo a b : mirrored a b -> c_myPublicKey a <> c_myPublicKey b -> Solo a = false.
Proof. intros (Hp & _) Hne. apply Solo_spec_false. congruence. Qed.

Lemma peers_talk_ok (n : nat) (kps : list (BoxKey * BoxKey)) (P : Z -> Prop) (r : Z) (c : chain R n)
    (onions : list bytes) (i j : nat) (a b : Conversation) (ga gb : Gui) (ra rb : R)
    (ta tb ta' tb' : Time) (qa qb : ConvoRequest) (sa sb : cstate R) :
  0 <= cap < 2 ^ 31 -> length kps = S n -> chain_ready cap n kps P c -> P r -> batch_ok cap kps onions ->
  mirrored a b -> c_myPublicKey a <> c_myPublicKey b ->
  pki_keys (c_pki a) (fst <$> kps) -> pki_keys (c_pki b) (fst <$> kps) -> reader_ok ra -> reader_ok rb ->
  body_ok (next_of ta a) -> body_ok (next_of tb b) ->
  NextConvoRequest r ta (a, ga, ra) = Ret (qa, sa) -> NextConvoRequest r tb (b, gb, rb) = Ret (qb, sb) ->
  sent_message a r (next_of ta a) <> sent_message b r (next_of tb b) ->
  onions !! i = Some (cq_Onion qa) -> onions !! j = Some (cq_Onion qb) -> i <> j ->
  exists c1, NewConvoRound r c = Ret (Ok tt, c1) /\
  (RunConvoRound r onions c1 = Panic slice_panic \/
   exists replies c2 hops msgs,
     RunConvoRound r onions c1 = Ret (Ok replies, c2) /\
     first_batch hops msgs = onions /\ chain_rel r (snd <$> kps) hops msgs replies /\
     (~ lost r (snd <$> kps) hops i -> ~ lost r (snd <$> kps) hops j ->
      length (accesses (shared_drop a r) (unmarshal_exchange <$> msgs) 0) = 2%nat ->
      exists ri rj pa pb, replies !! i = Some ri /\ replies !! j = Some rj /\
        HandleConvoResponse (mkConvoResponse r ri) ta' sa =
          Ret (tt, (exchanged r pa ta' (next_of tb b) a, shown a (next_of tb b) ga, sa.2)) /\
        HandleConvoResponse (mkConvoResponse r rj) tb' sb =
          Ret (tt, (exchanged r pb tb' (next_of ta a) b, shown b (next_of ta a) gb, sb.2)))).
Proof using HKL HLR.
  intros Hcap Hl Hready HP Hb Hm Hne Hka Hkb Hra Hrb Hba Hbb Hqa Hqb Hsent Hi Hj Hij.
  pose proof (mirrored_sym _ _ Hm) as Hm'.
  pose proof (chain_ready_keypairs _ _ _ _ _ Hready) as Hkp.
  destruct (request_sealed kps r ta a ga ra qa sa Hka Hkp Hra (mirrored_solo _ _ Hm Hne) Hqa)
    as (sha & ra' & _ & _ & -> & Hsa).
  destruct (request_sealed kps r tb b gb rb qb sb Hkb Hkp Hrb (mirrored_solo _ _ Hm' ltac:(done)) Hqb)
    as (shb & rb' & _ & _ & -> & Hsb).
  assert (shared_drop a r = shared_drop b r) as Hdd by (unfold shared_drop; by rewrite (mirrored_secret _ _ Hm)).
  destruct (users_meet cap n kps P r c onions i j _ _ _ _ _ _ Hcap Hl Hready HP Hb Hsa Hsb Hdd Hi Hj Hij)
    as (c1 & Hnew & Hrun).
  exists c1. split; [done|]. destruct Hrun as [Hp|(replies & c2 & hops & msgs & Hrun & Hfb & Hrel & Hmeet)]; [by left|].
  right. exists replies, c2, hops, msgs. split_and!; [done..|]. intros Hli Hlj Hacc.
  destruct (Hmeet Hli Hlj Hacc) as (ri & rj & Hri & Hrj & Hoi & Hoj).
  eexists ri, rj, _, _. split_and!; [done|done|..].
  - by apply respond_ok with (b := b).
  - by apply respond_ok with (b := a).
Qed.


End Talk.

(** ** Two users and two servers *)

Module TalkToy.
Import ConvoChain.Toy.

(** Alice has queued a text, as long as fits, Bob sends the time. *)
Definition alice : Conversation := set_outQueue [replicate 239 x61] (toy_convo x07 x09).
Definition bob : Conversation := toy_convo x09 x07.
Definition screen : Gui := mkGui (Some []) [] (fun _ => 0).
Definition clock : Time := time_Unix 1000.

Definition ask (c : Conversation) : outcome (ConvoRequest * cstate unit) := NextConvoRequest 7 clock (c, screen, tt).
Definition onion_from (c : Conversation) : bytes :=
  match ask c with Ret (q, _) => cq_Onion q | _ => [] end.
Definition batch : list bytes := [onion_from alice; onion_from bob].

Definition run_batch : outcome (result (list bytes) * chain unit 1) :=
  (let! _ := NewConvoRound 7 in RunConvoRound 7 batch)%go two_servers.

(** Alice and Bob handle the replies of the round. *)
Definition answer (c : Conversation) (onion : bytes) : option (option bytes * bool) :=
  match ask c with
  | Ret (_, s) =>
      match HandleConvoResponse (mkConvoResponse 7 onion) (time_Unix 1003) s with
      | Ret (_, s') => Some (main_view s'.1.2, c_lastPeerResponding s'.1.1)
      | _ => None
      end
  | _ => None
  end.

Example alice_and_bob :
  match run_batch with
  | Ret (Ok [ri; rj], _) =>
      answer alice ri = Some (Some [], true) /\
      answer bob rj = Some (Some (str "<peer> " ++ replicate 239 x61 ++ [x0a]), true)
  | _ => False
  end.
Proof. vm_compute. split; reflexivity. Qed.

Lemma run_batch_ok : match run_batch with Ret (Ok _, _) => true | _ => false end = true.
Proof. vm_compute. reflexivity. Qed.

Lemma run_batch_no_panic c1 p :
  NewConvoRound 7 two_servers = Ret (Ok tt, c1) -> RunConvoRound 7 batch c1 <> Panic p.
Proof.
  intros Hnew Hp. pose proof run_batch_ok as Hok. unfold run_batch, gbind in Hok.
  rewrite Hnew, Hp in Hok. discriminate Hok.
Qed.

Lemma ask_ok c : c_pki c = example_pki -> exists q s, NextConvoRequest 7 clock (c, screen, tt) = Ret (q, s) /\ onion_from c = cq_Onion q.
Proof.
  intros Hp. destruct (NextConvoRequest_ok kps 7 clock c screen tt) as (dd & o & sh & g1 & g' & Hn & _).
  - rewrite Hp. exact (proj2 (proj2 example_pki_wf)).
  - exact kps_ok.
  - exact I.
  - unfold onion_from, ask. rewrite Hn. by eexists _, _.
Qed.

Lemma messages_differ : sent_message alice 7 (next_of clock alice) <> sent_message bob 7 (next_of clock bob).
Proof. vm_compute. discriminate. Qed.


(** A queued text, two requests: the second one carries the time. *)
Definition story : list convo_event :=
  [EQueue [x61]; EQueue [x62]; ENext 1 clock; EResponse (mkConvoResponse 9 []) clock; ENext 2 clock; ENext 3 clock].

Lemma story_runs : match go_map convo_do story (bob, screen, tt) with Ret _ => true | _ => false end = true.
Proof. vm_compute. reflexivity. Qed.

Lemma outgoing_fifo_witness :
  exists outs s' bodies, go_map convo_do story (bob, screen, tt) = Ret (outs, s') /\
    Forall2 (request_carries kps bob) (outs ≫= option_list) bodies /\
    [[x61]; [x62]] = (bodies ≫= texts) ++ c_outQueue s'.1.1.
Proof.
  pose proof story_runs as Hok.
  destruct (go_map convo_do story (bob, screen, tt)) as [[outs s']| | |] eqn:Hrun; [|discriminate..].
  destruct (outgoing_fifo kps story (bob, screen, tt) s' outs) as (_ & bodies & Hb & Hq).
  - exact (proj2 (proj2 example_pki_wf)).
  - exact kps_ok.
  - exact I.
  - exact Hrun.
  - exists outs, s', bodies. split; [reflexivity|]. split; [exact Hb|exact Hq].
Defined.

End TalkToy.
