(* ===== verification/Dialer.v ===== *)
(** * Dialer: the dialing side of a client

    Models [vuvuzela-client/dialer.go]: the queue of users to dial, the request for
    a dialing round (a real introduction, or random bytes for a bucket that does not
    exist) and the reading of a bucket. *)

From stdpp Require Import numbers strings pretty gmap list.
From Stdlib Require Import Strings.Byte.
From S2P Require Import Prelude Binary Wire Rand Shuffle OnionBox Pki Laplace Convo ConvoChain Dial DialChain EntryApi Json BoxKeys Conversation.

Record Dialer := mkDialer {
  dl_pki : PKI;
  dl_myPublicKey : BoxKey;
  dl_myPrivateKey : BoxKey;
  dl_userDialRequests : list BoxKey;
}.

Definition set_requests (q : list BoxKey) (d : Dialer) : Dialer :=
  mkDialer (dl_pki d) (dl_myPublicKey d) (dl_myPrivateKey d) q.

Definition Dialer_Init (d : Dialer) : Dialer := set_requests [] d.

Definition userDialRequests_cap : Z := 4.

(** [d.userDialRequests <- publicKey] blocks while the channel is full. *)
Definition QueueRequest (publicKey : BoxKey) : GoM Dialer unit := fun d =>
  if decide (zlen (dl_userDialRequests d) < userDialRequests_cap)
  then Ret (tt, set_requests (dl_userDialRequests d ++ [publicKey]) d)
  else Block.

Section DialerHandlers.
Context {R : Type} `{Reader R, Box, !KeyGen R, Base32}.

Definition dlstate : Type := Dialer * Gui * R.

Definition get_dialer : GoM dlstate Dialer := fun s => Ret (s.1.1, s).
Definition put_dialer (f : Dialer -> Dialer) : GoM dlstate unit :=
  fun s => Ret (tt, (f s.1.1, s.1.2, s.2)).
Definition dl_on_rand {A} : GoM R A -> GoM dlstate A := gzoom snd (fun r s => (s.1, r)).

(** The two cases of the [select]. *)
Definition real_exchange (d : Dialer) (round buckets : Z) (pk : BoxKey) : GoM R DialExchange :=
  (let intro := Introduction_Marshal (mkIntroduction (u32 (round + 4)) (dl_myPublicKey d)) in
   let! (ctxt, _) := onion_Seal intro (ForwardNonce round) (Keys [Some pk]) in
   let! bucket := glift (KeyDialBucket pk buckets) in
   gret (mkDialExchange bucket (go_copy (replicate (Z.to_nat SizeEncryptedIntro) x00) ctxt)))%go.
Definition idle_exchange : GoM R DialExchange :=
  (let! bs := rand_Read (Z.to_nat SizeEncryptedIntro) in
   gret (mkDialExchange (2 ^ 32 - 1) bs))%go.

Definition NextDialRequest (round buckets : Z) : GoM dlstate DialRequest :=
  (let! d := get_dialer in
   let! ex :=
     match dl_userDialRequests d with
     | pk :: q => put_dialer (set_requests q) ;;; dl_on_rand (real_exchange d round buckets pk)
     | [] => dl_on_rand idle_exchange
     end in
   let! keys := glift (ServerKeys (dl_pki d)) in
   let! (onion, _) := dl_on_rand (onion_Seal (DialExchange_Marshal ex) (ForwardNonce round) (Keys keys)) in
   gret (mkDialRequest round onion))%go.

(** What a bucket entry says to this user: the sender's long-term key. *)
Definition open_intro (d : Dialer) (nonce : Nonce) (b : bytes) : outcome (option BoxKey) :=
  pk ← go_slice b 0 32;
  ctxt ← go_slice b 32 (zlen b);
  match box_Open ctxt nonce pk (dl_myPrivateKey d) with
  | None => Ret None
  | Some data =>
      match Introduction_Unmarshal data with
      | Err _ => Ret None
      | Ok intro => Ret (Some (in_LongTermKey intro))
      end
  end.

(** [for name, key := range d.pki.People]: Go leaves the order of the iteration open;
    [people] is the order it takes. *)
Definition intro_notice (people : list (string * BoxKey)) (key : BoxKey) : bytes :=
  match list_find (fun p : string * BoxKey => p.2 = key) people with
  | Some (_, (name, _)) => str ("Received introduction: " +:+ name) ++ [x0a]
  | None => str ("Received introduction: (" +:+ BoxKey_String key +:+ ")") ++ [x0a]
  end.

(** The loop over [db.Intros]; [order i] is the order of the iteration over the
    people for the [i]-th entry. *)
Fixpoint intro_loop (d : Dialer) (nonce : Nonce) (order : nat -> list (string * BoxKey)) (i : nat)
    (intros : list bytes) (gui : Gui) : outcome Gui :=
  match intros with
  | [] => Ret gui
  | b :: intros' =>
      key ← open_intro d nonce b;
      intro_loop d nonce order (S i) intros'
        (match key with
         | Some key => gui_Warnf (intro_notice (order i) key) gui
         | None => gui
         end)
  end.

Definition HandleDialBucket (order : nat -> list (string * BoxKey)) (db : DialBucket) : GoM dlstate unit := fun s =>
  gui ← intro_loop s.1.1 (ForwardNonce (db_Round db)) order 0 (db_Intros db) s.1.2;
  Ret (tt, (s.1.1, gui, s.2)).

End DialerHandlers.
Arguments dlstate : clear implicits.

(** ** Lemmas *)

Section DialerLemmas.
Context `{HB : Box, H32 : Base32}.

Lemma slice_parts (b : bytes) : 32 <= zlen b ->
  go_slice b 0 32 = Ret (take 32 b) /\ go_slice b 32 (zlen b) = Ret (drop 32 b).
Proof.
  intros Hl. split; apply go_slice_ret; (split; [lia|]); [done|].
  rewrite take_ge; [done|]. rewrite length_drop. unfold zlen in *. lia.
Qed.

(** An entry of the right size is opened or ignored, never a panic. *)
Definition received (d : Dialer) (nonce : Nonce) (b : bytes) : option BoxKey :=
  data ← peel (dl_myPrivateKey d) nonce b;
  match Introduction_Unmarshal data with Ok intro => Some (in_LongTermKey intro) | Err _ => None end.

Lemma open_intro_eq d nonce b :
  zlen b = SizeEncryptedIntro -> open_intro d nonce b = Ret (received d nonce b).
Proof.
  intros Hl. unfold open_intro.
  destruct (slice_parts b) as [-> ->]; [rewrite Hl; unfold SizeEncryptedIntro, SizeIntroduction, onionbox_Overhead, box_Overhead; lia|].
  cbn [mbind outcome_bind]. unfold received, peel, peel_key, box_Open.
  destruct (OpenAfterPrecomputation _ _ _) as [data|]; [|done]. cbn [mbind option_bind].
  by destruct (Introduction_Unmarshal data).
Qed.

(** The text printed for one entry. *)
Definition notice_of (d : Dialer) (nonce : Nonce) (people : list (string * BoxKey)) (b : bytes) : bytes :=
  match received d nonce b with
  | Some key => str "-!- " ++ intro_notice people key
  | None => []
  end.

Lemma intro_loop_ok d nonce order i intros gui :
  Forall (fun b => zlen b = SizeEncryptedIntro) intros ->
  intro_loop d nonce order i intros gui =
  Ret (gui_Printf (concat (imap (fun j => notice_of d nonce (order (i + j)%nat)) intros)) gui).
Proof.
  intros Hl. revert i gui. induction Hl as [|b intros Hb _ IH]; intros i gui; cbn [intro_loop].
  { destruct gui as [[t|] lg z]; unfold gui_Printf; cbn; by rewrite ?app_nil_r. }
  rewrite open_intro_eq by done. cbn [mbind outcome_bind]. rewrite IH. f_equal.
  rewrite imap_cons. cbn [concat]. rewrite Nat.add_0_r.
  assert (imap ((fun j => notice_of d nonce (order (i + j)%nat)) ∘ S) intros =
          imap (fun j => notice_of d nonce (order (S i + j)%nat)) intros) as ->.
  { apply imap_ext. intros j b' _. cbn. by rewrite Nat.add_succ_r. }
  unfold notice_of at 2. destruct (received d nonce b), gui as [[t|] lg z]; unfold gui_Printf; cbn; by rewrite <- ?app_assoc.
Qed.

(** A person whose key it is gets named, whatever the order. *)
Lemma notice_known people (m : gmap string BoxKey) key name :
  people ≡ₚ map_to_list m -> m !! name = Some key ->
  exists name', m !! name' = Some key /\
    intro_notice people key = str ("Received introduction: " +:+ name') ++ [x0a].
Proof.
  intros Hp Hn. unfold intro_notice. destruct (list_find _ _) as [[j [name' k]]|] eqn:E.
  - apply list_find_Some in E as (Hj & Hk & _). cbn in Hk. subst k. exists name'. split; [|done].
    apply elem_of_map_to_list. rewrite <- Hp. by eapply list_elem_of_lookup_2.
  - exfalso. apply list_find_None in E. rewrite Forall_forall in E. apply (E (name, key)); [|done].
    rewrite Hp. by apply elem_of_map_to_list.
Qed.

End DialerLemmas.

(** Reading a bucket: for any entries of the right size, sealed for whomever, and
    whatever the order in which Go visits the people, the handler returns, changes
    nothing but the terminal, and prints one line for each entry that opens with
    the user's key and decodes, in the order of the entries: the name of a person with the
    sender's key, or the key itself when nobody has it. *)
Lemma HandleDialBucket_spec {R} `{Box, Base32} (order : nat -> list (string * BoxKey)) (db : DialBucket)
    (d : Dialer) (gui : Gui) (g : R) :
  Forall (fun b => zlen b = SizeEncryptedIntro) (db_Intros db) ->
  (forall i, order i ≡ₚ map_to_list (pki_People (dl_pki d))) ->
  HandleDialBucket order db (d, gui, g) =
    Ret (tt, (d, gui_Printf (concat (imap (fun i => notice_of d (ForwardNonce (db_Round db)) (order i)) (db_Intros db))) gui, g)) /\
  (forall i key, (forall name, pki_People (dl_pki d) !! name <> Some key) ->
     intro_notice (order i) key = str ("Received introduction: (" +:+ BoxKey_String key +:+ ")") ++ [x0a]) /\
  (forall i key name, pki_People (dl_pki d) !! name = Some key ->
     exists name', pki_People (dl_pki d) !! name' = Some key /\
       intro_notice (order i) key = str ("Received introduction: " +:+ name') ++ [x0a]).
Proof.
  intros Hl Hord. split_and!.
  - unfold HandleDialBucket. cbn [fst snd]. by rewrite intro_loop_ok.
  - intros i key Hno. unfold intro_notice. destruct (list_find _ _) as [[j [name k]]|] eqn:E; [|done].
    apply list_find_Some in E as (Hj & Hk & _). cbn in Hk. subst k. exfalso. apply (Hno name).
    apply elem_of_map_to_list. rewrite <- (Hord i). by eapply list_elem_of_lookup_2.
  - intros i key name. apply notice_known, Hord.
Qed.

(** ** Requests *)

Section DialRequests.
Context {R : Type} `{HKL : KeyGenLaws R}.

Lemma KeyDialBucket_ok pk buckets : length pk = 32%nat -> 0 < buckets ->
  KeyDialBucket pk buckets = Ret (be_get (drop 28 pk) mod buckets).
Proof.
  intros Hl Hb. unfold KeyDialBucket.
  assert (go_slice pk 28 32 = Ret (drop 28 pk)) as ->.
  { apply go_slice_ret. unfold zlen. rewrite Hl. split; [lia|].
    rewrite take_ge; [done|]. rewrite length_drop, Hl. lia. }
  cbn [mbind outcome_bind]. unfold Uint32. rewrite decide_True by (rewrite length_drop, Hl; lia).
  cbn [mbind outcome_bind]. rewrite decide_False by lia.
  by rewrite take_ge by (rewrite length_drop, Hl; lia).
Qed.

(** The introduction of [d] for the owner of [pk]. *)
Lemma real_exchange_ok d round buckets pk sk (g : R) :
  reader_ok g -> keypair pk sk -> length pk = 32%nat -> length (dl_myPublicKey d) = 32%nat ->
  0 < buckets <= 2 ^ 32 ->
  exists ex g', real_exchange d round buckets pk g = Ret (ex, g') /\ reader_ok g' /\ dial_valid ex /\
    de_Bucket ex = be_get (drop 28 pk) mod buckets /\
    forall e, keypair pk (dl_myPrivateKey e) ->
      received e (ForwardNonce round) (de_EncryptedIntro ex) = Some (dl_myPublicKey d).
Proof using HKL.
  intros Hg Hkp Hl Hme Hb. set (i := mkIntroduction (u32 (round + 4)) (dl_myPublicKey d)).
  assert (intro_valid i) as Hi by (split; [apply u32_range|done]).
  destruct (onion_Seal_peel (Introduction_Marshal i) (ForwardNonce round) [(pk, sk)] g Hg)
    as (onion & shared & g' & Hs & Hlen & _ & Hp & Hg'); [by repeat constructor|].
  assert (zlen onion = SizeEncryptedIntro) as Hz.
  { rewrite Hlen. unfold zlen, Introduction_Marshal, binary_Write.
    by rewrite (@fput_length _ intro_fixed i Hi). }
  exists (mkDialExchange (be_get (drop 28 pk) mod buckets) onion), g'.
  pose proof (Z.mod_pos_bound (be_get (drop 28 pk)) buckets) as Hmod.
  assert (dial_valid (mkDialExchange (be_get (drop 28 pk) mod buckets) onion)) as Hv.
  { split; cbn [de_Bucket de_EncryptedIntro]; [lia|unfold zlen in Hz; lia]. }
  split; [|split; [done|split; [done|split; [done|]]]].
  - unfold real_exchange. change (Keys [Some pk]) with ((fun k : BoxKey * BoxKey => Some k.1) <$> [(pk, sk)]).
    rewrite (gbind_eq _ _ _ _ _ Hs), KeyDialBucket_ok by (done || lia).
    unfold gbind, glift, gret. rewrite go_copy_full; [done|]. rewrite length_replicate. unfold zlen in Hz. lia.
  - intros e He. cbn [de_EncryptedIntro].
    destruct (onion_Seal_peel (Introduction_Marshal i) (ForwardNonce round) [(pk, dl_myPrivateKey e)] g Hg)
      as (onion' & shared' & g2 & Hs' & _ & _ & Hp' & _); [by repeat constructor|].
    change ((fun k : BoxKey * BoxKey => Some k.1) <$> [(pk, dl_myPrivateKey e)]) with
      ((fun k : BoxKey * BoxKey => Some k.1) <$> [(pk, sk)]) in Hs'.
    rewrite Hs in Hs'. injection Hs' as <- <- _.
    unfold received. cbn [fmap list_fmap snd peel_all] in Hp'.
    destruct (peel (dl_myPrivateKey e) (ForwardNonce round) onion) as [data|]; [|done].
    cbn [mbind option_bind fst] in Hp' |- *. injection Hp' as -> _.
    unfold Introduction_Unmarshal, Introduction_Marshal.
    rewrite <- (app_nil_r (binary_Write i)), Read_Write by done. done.
Qed.

Lemma idle_exchange_ok (g : R) : reader_ok g ->
  exists ex g', idle_exchange g = Ret (ex, g') /\ reader_ok g' /\ dial_valid ex /\ de_Bucket ex = 2 ^ 32 - 1.
Proof using Type.
  intros Hg. destruct (read_full (Z.to_nat SizeEncryptedIntro) g Hg) as (bs & g' & Hr & Hl & Hg').
  exists (mkDialExchange (2 ^ 32 - 1) bs), g'. split; [|split; [done|split; [|done]]].
  - unfold idle_exchange, rand_Read, gbind. by rewrite Hr.
  - split; cbn [de_Bucket de_EncryptedIntro]; [lia|done].
Qed.

(** An exchange for bucket [2^32 - 1] is in no bucket. *)
Lemma idle_discarded ex bs : dial_valid ex -> de_Bucket ex = 2 ^ 32 - 1 -> bucket_add (DialExchange_Marshal ex) bs = Ret bs.
Proof using Type.
  intros Hv Hb. unfold bucket_add. case_decide; [|done]. unfold DialExchange_Unmarshal, DialExchange_Marshal.
  rewrite <- (app_nil_r (binary_Write ex)), Read_Write by done. pose proof (u32_range (zlen bs)).
  by rewrite decide_True by lia.
Qed.

(** What a request leaves of the queue, and the exchange it carries. *)
Definition dial_carried (d : Dialer) (round buckets : Z) (ex : DialExchange) : Prop :=
  dial_valid ex /\
  match dl_userDialRequests d with
  | [] => de_Bucket ex = 2 ^ 32 - 1
  | pk :: _ => de_Bucket ex = be_get (drop 28 pk) mod buckets /\
      forall e, keypair pk (dl_myPrivateKey e) ->
        received e (ForwardNonce round) (de_EncryptedIntro ex) = Some (dl_myPublicKey d)
  end.

(** The user to dial, if any, has a key pair of its own. *)
Definition dialable (d : Dialer) : Prop :=
  length (dl_myPublicKey d) = 32%nat /\
  forall pk q, dl_userDialRequests d = pk :: q -> length pk = 32%nat /\ exists sk, keypair pk sk.

Lemma dl_on_rand_eq {A} (m : GoM R A) d gui (g : R) a g' :
  m g = Ret (a, g') -> dl_on_rand m (d, gui, g) = Ret (a, (d, gui, g')).
Proof using Type. intros Hm. unfold dl_on_rand. by apply gzoom_eq with (t := g'). Qed.

(** The [select]: either case leaves an exchange and the rest of the queue. *)
Lemma next_exchange_ok d round buckets gui (g : R) :
  dialable d -> reader_ok g -> 0 < buckets <= 2 ^ 32 ->
  exists ex g',
    (match dl_userDialRequests d with
     | pk :: q => put_dialer (set_requests q) ;;; dl_on_rand (real_exchange d round buckets pk)
     | [] => dl_on_rand idle_exchange
     end)%go (d, gui, g) = Ret (ex, (set_requests (tail (dl_userDialRequests d)) d, gui, g')) /\
    reader_ok g' /\ dial_carried d round buckets ex.
Proof using HKL.
  intros [Hme Hd] Hg Hb. unfold dial_carried. destruct (dl_userDialRequests d) as [|pk q] eqn:Eq.
  - destruct (idle_exchange_ok g Hg) as (ex & g' & Hi & Hg' & Hv & Hbk). exists ex, g'. split; [|done].
    rewrite (dl_on_rand_eq _ _ _ _ _ _ Hi). cbn [tail]. rewrite <- Eq. by destruct d.
  - destruct (Hd pk q eq_refl) as (Hl & sk & Hkp).
    destruct (real_exchange_ok d round buckets pk sk g Hg Hkp Hl Hme Hb) as (ex & g' & Hr & Hg' & Hv & Hbk & Hrec).
    exists ex, g'. split; [|done]. unfold gbind. cbn [put_dialer fst snd]. by rewrite (dl_on_rand_eq _ _ _ _ _ _ Hr).
Qed.

Lemma NextDialRequest_ok (kps : list (BoxKey * BoxKey)) d round buckets gui (g : R) :
  pki_keys (dl_pki d) (fst <$> kps) -> Forall (fun k => keypair k.1 k.2) kps ->
  dialable d -> reader_ok g -> 0 < buckets <= 2 ^ 32 ->
  exists ex onion shared g',
    NextDialRequest round buckets (d, gui, g) =
      Ret (mkDialRequest round onion, (set_requests (tail (dl_userDialRequests d)) d, gui, g')) /\
    reader_ok g' /\ dial_carried d round buckets ex /\
    zlen onion = SizeDialExchange + zlen kps * onionbox_Overhead /\
    peel_all (snd <$> kps) (ForwardNonce round) onion = Some (DialExchange_Marshal ex, shared).
Proof using HKL.
  intros Hk Hkp Hd Hg Hb.
  destruct (next_exchange_ok d round buckets gui g Hd Hg Hb) as (ex & g1 & Hex & Hg1 & Hc).
  destruct (onion_Seal_peel (DialExchange_Marshal ex) (ForwardNonce round) kps g1 Hg1 Hkp)
    as (onion & shared & g' & Hs & Hlen & _ & Hp & Hg').
  exists ex, onion, shared, g'. split; [|split; [done|split; [done|split; [|done]]]].
  - unfold NextDialRequest. rewrite (gbind_eq get_dialer _ _ d (d, gui, g)) by done.
    rewrite (gbind_eq _ _ _ _ _ Hex). set (d1 := set_requests _ d).
    rewrite (gbind_eq (glift _) _ _ ((fun k => Some k.1) <$> kps) (d1, gui, g1)).
    2: { apply glift_ret. split; [|done]. unfold ServerKeys.
         rewrite (server_keys_ret _ _ _ Hk). by rewrite <- list_fmap_compose. }
    rewrite (gbind_eq _ _ _ (onion, shared) (d1, gui, g')); [done|].
    apply dl_on_rand_eq. unfold Keys. by rewrite list_fmap_id.
  - rewrite Hlen. f_equal. destruct Hc as [Hv _]. unfold zlen, DialExchange_Marshal, binary_Write.
    by rewrite (@fput_length _ dial_fixed ex Hv).
Qed.

(** C31. Dial requests look alike: whether the user dials somebody or not, a request
    for a round is returned, has exactly the same size, and is peeled by the servers
    to a full exchange; with an empty queue the exchange is for bucket [2^32 - 1], and
    the loop of [Buckets] puts it in no bucket, however many there are; else the first
    queued key is taken from the queue, the exchange is for its bucket and carries the
    user's key, which the owner of the queued key reads from it. *)
Theorem NextDialRequest_uniform (kps : list (BoxKey * BoxKey)) d round buckets gui (g : R) :
  pki_keys (dl_pki d) (fst <$> kps) -> Forall (fun k => keypair k.1 k.2) kps ->
  dialable d -> reader_ok g -> 0 < buckets <= 2 ^ 32 ->
  exists ex onion shared g',
    NextDialRequest round buckets (d, gui, g) =
      Ret (mkDialRequest round onion, (set_requests (tail (dl_userDialRequests d)) d, gui, g')) /\
    zlen onion = SizeDialExchange + zlen kps * onionbox_Overhead /\
    peel_all (snd <$> kps) (ForwardNonce round) onion = Some (DialExchange_Marshal ex, shared) /\
    dial_valid ex /\
    match dl_userDialRequests d with
    | [] => de_Bucket ex = 2 ^ 32 - 1 /\ forall bs, bucket_add (DialExchange_Marshal ex) bs = Ret bs
    | pk :: _ => KeyDialBucket pk buckets = Ret (de_Bucket ex) /\
        forall e, keypair pk (dl_myPrivateKey e) ->
          open_intro e (ForwardNonce round) (de_EncryptedIntro ex) = Ret (Some (dl_myPublicKey d))
    end.
Proof using HKL.
  intros Hk Hkp Hd Hg Hb.
  destruct (NextDialRequest_ok kps d round buckets gui g Hk Hkp Hd Hg Hb)
    as (ex & onion & shared & g' & Hn & _ & [Hv Hc] & Hl & Hp).
  exists ex, onion, shared, g'. split; [done|]. split; [done|]. split; [done|]. split; [done|].
  destruct (dl_userDialRequests d) as [|pk q] eqn:Eq; [split; [done|intros bs; by apply idle_discarded]|]. destruct Hc as [Hbk Hrec].
  destruct Hd as [_ Hd]. destruct (Hd pk q Eq) as [Hpk _]. split.
  - rewrite Hbk. apply KeyDialBucket_ok; [done|lia].
  - intros e He. rewrite open_intro_eq by (unfold zlen; destruct Hv as [_ Hv]; by rewrite Hv). by rewrite Hrec.
Qed.

End DialRequests.

(** ** A caller, the chain and the callee *)

Section DialReaches.
Context {R : Type} `{HF : Fuel, HR : Reader R, HFR : !FullReader R, HLR : !LiveReader R fuel, HB : Box, HL : !BoxLaws, HK : !KeyGen R,
  HKL : !KeyGenLaws R, HE : FloatEnv, H32 : Base32}.
Context (cap : Z).

(** An entry of the bucket that opens gives a line of its own. *)
Lemma notice_in d nonce order intros b key :
  b ∈ intros -> received d nonce b = Some key ->
  exists i before after,
    concat (imap (fun i => notice_of d nonce (order i)) intros) =
    before ++ (str "-!- " ++ intro_notice (order i) key) ++ after.
Proof using Type.
  intros Hin Hr. revert order. induction intros as [|x intros IH]; intros order; [by apply elem_of_nil in Hin|].
  rewrite imap_cons. cbn [concat]. apply elem_of_cons in Hin as [<-|Hin].
  - exists 0%nat, [], (concat (imap ((fun i => notice_of d nonce (order i)) ∘ S) intros)).
    unfold notice_of at 1. by rewrite Hr.
  - destruct (IH Hin (fun i => order (S i))) as (i & before & after & Heq).
    exists (S i), (notice_of d nonce (order 0%nat) x ++ before), after. rewrite <- app_assoc, <- Heq. done.
Qed.


End DialReaches.

(** ** Alice dials Bob *)

Module DialerToy.
Import ConvoChain.Toy DialChain.DialToy.

Definition people_pki : PKI :=
  mkPKI {["alice" := replicate 32 x07]} (pki_Servers example_pki) (pki_ServerOrder example_pki)
    (pki_EntryServer example_pki).
Definition dialer (me : byte) (q : list BoxKey) : Dialer :=
  mkDialer people_pki (replicate 32 me) (replicate 32 me) q.
Definition alice : Dialer := dialer x07 [replicate 32 x09].
Definition bob : Dialer := Dialer_Init (dialer x09 []).
Definition screen : Gui := mkGui (Some []) [] (fun _ => 0).

Lemma people_pki_keys : pki_keys people_pki (fst <$> kps).
Proof. exact (proj2 (proj2 example_pki_wf)). Qed.

Lemma alice_dialable : dialable alice.
Proof. split; [done|]. intros pk q [= <- <-]. split; [done|]. by exists (replicate 32 x09). Qed.

Definition alice_asks : outcome (DialRequest * dlstate unit) := NextDialRequest 7 1 (alice, screen, tt).
Definition onion : bytes := match alice_asks with Ret (q, _) => dq_Onion q | _ => [] end.

Lemma alice_asks_ok : exists q s, NextDialRequest 7 1 (alice, screen, tt) = Ret (q, s) /\ onion = dq_Onion q.
Proof.
  destruct (NextDialRequest_ok kps alice 7 1 screen tt) as (ex & o & sh & g' & Hn & _).
  - exact people_pki_keys.
  - exact kps_ok.
  - exact alice_dialable.
  - exact I.
  - lia.
  - unfold onion, alice_asks. rewrite Hn. by eexists _, _.
Qed.

Lemma NextDialRequest_uniform_witness :
  exists q s, NextDialRequest 7 1 (alice, screen, tt) = Ret (q, s) /\ zlen (dq_Onion q) = 88 + 2 * 48.
Proof.
  destruct (NextDialRequest_uniform kps alice 7 1 screen tt) as (ex & o & sh & g' & Hn & Hl & _).
  - exact people_pki_keys.
  - exact kps_ok.
  - exact alice_dialable.
  - exact I.
  - lia.
  - eexists _, _. split; [exact Hn|exact Hl].
Defined.

Lemma HandleDialBucket_spec_witness :
  HandleDialBucket (fun _ => map_to_list (pki_People people_pki)) (mkDialBucket 7 [replicate 84 x00]) (bob, screen, tt) =
    Ret (tt, (bob, screen, tt)) /\
  exists name', pki_People people_pki !! name' = Some (replicate 32 x07).
Proof.
  destruct (HandleDialBucket_spec (fun _ => map_to_list (pki_People people_pki)) (mkDialBucket 7 [replicate 84 x00])
    bob screen tt) as (H1 & _ & H2).
  - repeat constructor.
  - intros _. reflexivity.
  - split; [exact H1|]. destruct (H2 0%nat (replicate 32 x07) "alice") as (name' & Hn & _); [reflexivity|].
    exists name'. exact Hn.
Defined.

(** Bob reads the only bucket after the round. *)
Example bob_is_dialled :
  match (let! _ := NewDialRound 7 in RunDialRound 7 [onion])%go two_dial_servers with
  | Ret (Ok tt, c2) =>
      match dchain_buckets 1 7 c2 with
      | Ret (Ok [bucket]) =>
          match HandleDialBucket (fun _ => map_to_list (pki_People people_pki)) (mkDialBucket 7 bucket) (bob, screen, tt) with
          | Ret (_, (_, gui, _)) => main_view gui = Some (str "-!- Received introduction: alice" ++ [x0a])
          | _ => False
          end
      | _ => False
      end
  | _ => False
  end.
Proof. vm_compute. reflexivity. Qed.


End DialerToy.
