(* ===== verification/EntryServer.v ===== *)
(** * EntryServer: the server the clients connect to

    Models [vuvuzela-entry-server/server.go]: the registry of connections, the
    requests collected for the current conversation and dialing rounds, the two
    round loops and the goroutines that run a round and send the replies. The mix
    servers are reached through interfaces. A web socket is an identity and a
    key; the environment decides which sockets still accept writes. Each handler,
    each half of an iteration of a round loop (up to the wait for requests and after
    it) and each goroutine that runs a round is one step; the steps of all of them
    interleave freely. *)

From stdpp Require Import numbers strings pretty gmap list.
From Stdlib Require Import Strings.Byte.
From S2P Require Import Prelude Binary Wire Rand Shuffle OnionBox Pki Convo Dial EntryApi Json BoxKeys.

(** A [*connection]: the identity of the pointer and the client's public key. *)
Definition connection : Type := Z * BoxKey.

(** A request of either kind: [convoReq] and [dialReq] have the same fields. *)
Record entryReq := mkEntryReq { rq_conn : connection; rq_onion : bytes }.

(** The RPC to the last server, [lastServer.Call("DialService.Buckets", ...)]. *)
Class BucketsRemote (C : Type) := rpc_Buckets : Z -> GoM C (result (list (list bytes))).

(** A goroutine [runConvoRound(round, requests)] or [runDialRound(round, requests)]
    that has been started, and where a round loop stands. *)
Inductive job := ConvoJob (round : Z) (requests : list entryReq) | DialJob (round : Z) (requests : list entryReq).
Inductive phase := Starting | Collecting.

(** What became of an HTTP request. *)
Inductive http_answer := HttpError (text : string) (code : Z) | NotUpgraded | Upgraded.

Section Entry.
Context {C : Type} `{ConvoRemote C, DialRemote C, BucketsRemote C, JsonCodec, Base32}.

(** [sv_broken]: the sockets on which a write fails. [sv_sent]: the envelopes written,
    in order. [sv_net]: the mix servers behind [firstServer] and [lastServer]. *)
Record server := mkServer {
  sv_connections : gset connection;
  sv_convoRound : Z;
  sv_convoRequests : list entryReq;
  sv_dialRound : Z;
  sv_dialRequests : list entryReq;
  sv_convoPhase : phase;
  sv_dialPhase : phase;
  sv_jobs : list job;
  sv_broken : gset connection;
  sv_sent : list (connection * Envelope);
  sv_net : C;
}.

Definition sv_set_connections (x : gset connection) (s : server) : server :=
  mkServer x (sv_convoRound s) (sv_convoRequests s) (sv_dialRound s) (sv_dialRequests s) (sv_convoPhase s)
    (sv_dialPhase s) (sv_jobs s) (sv_broken s) (sv_sent s) (sv_net s).
Definition sv_set_convo (round : Z) (reqs : list entryReq) (s : server) : server :=
  mkServer (sv_connections s) round reqs (sv_dialRound s) (sv_dialRequests s) (sv_convoPhase s)
    (sv_dialPhase s) (sv_jobs s) (sv_broken s) (sv_sent s) (sv_net s).
Definition sv_set_dial (round : Z) (reqs : list entryReq) (s : server) : server :=
  mkServer (sv_connections s) (sv_convoRound s) (sv_convoRequests s) round reqs (sv_convoPhase s)
    (sv_dialPhase s) (sv_jobs s) (sv_broken s) (sv_sent s) (sv_net s).
Definition sv_set_phases (p q : phase) (s : server) : server :=
  mkServer (sv_connections s) (sv_convoRound s) (sv_convoRequests s) (sv_dialRound s) (sv_dialRequests s) p
    q (sv_jobs s) (sv_broken s) (sv_sent s) (sv_net s).
Definition sv_set_jobs (j : list job) (s : server) : server :=
  mkServer (sv_connections s) (sv_convoRound s) (sv_convoRequests s) (sv_dialRound s) (sv_dialRequests s)
    (sv_convoPhase s) (sv_dialPhase s) j (sv_broken s) (sv_sent s) (sv_net s).
Definition sv_set_broken (x : gset connection) (s : server) : server :=
  mkServer (sv_connections s) (sv_convoRound s) (sv_convoRequests s) (sv_dialRound s) (sv_dialRequests s)
    (sv_convoPhase s) (sv_dialPhase s) (sv_jobs s) x (sv_sent s) (sv_net s).
Definition sv_set_sent (x : list (connection * Envelope)) (s : server) : server :=
  mkServer (sv_connections s) (sv_convoRound s) (sv_convoRequests s) (sv_dialRound s) (sv_dialRequests s)
    (sv_convoPhase s) (sv_dialPhase s) (sv_jobs s) (sv_broken s) x (sv_net s).
Definition sv_set_net (c : C) (s : server) : server :=
  mkServer (sv_connections s) (sv_convoRound s) (sv_convoRequests s) (sv_dialRound s) (sv_dialRequests s)
    (sv_convoPhase s) (sv_dialPhase s) (sv_jobs s) (sv_broken s) (sv_sent s) c.

Definition get_server : GoM server server := gget.
Definition put_server (f : server -> server) : GoM server unit := fun s => Ret (tt, f s).
Definition on_net {A} : GoM C A -> GoM server A := gzoom sv_net sv_set_net.

(** The state [main] builds. *)
Definition new_server (net : C) : server :=
  mkServer ∅ 0 [] 0 [] Starting Starting [] ∅ [] net.

(** [main] up to the HTTP server: [dial addr] is the outcome of [vrpc.Dial] to [addr];
    [Err] ends the process. *)
Definition entry_main (pki_file : result PKI) (dial : string -> result unit) (net : C) : outcome (result server) :=
  match pki_file with
  | Err e => Ret (Err e)
  | Ok pki0 =>
      match ReadPKI pki0 with
      | Err e => Ret (Err e)
      | Ok pki =>
          first ← FirstServer pki;
          match dial first with
          | Err e => Ret (Err ("vrpc.Dial: " +:+ e))
          | Ok _ =>
              last ← LastServer_addr pki;
              match dial last with
              | Err e => Ret (Err ("vrpc.Dial: " +:+ e))
              | Ok _ => Ret (Ok (new_server net))
              end
          end
      end
  end.

(** ** Connections *)

Definition register (c : connection) : GoM server unit :=
  put_server (fun s => sv_set_connections ({[c]} ∪ sv_connections s) s).

Definition allConnections : GoM server (list connection) :=
  (let! s := get_server in gret (elements (sv_connections s)))%go.

(** [c.ws.Close()] makes later writes fail; then the connection is forgotten. *)
Definition connection_Close (c : connection) : GoM server unit :=
  put_server (fun s => sv_set_connections (sv_connections s ∖ {[c]}) (sv_set_broken ({[c]} ∪ sv_broken s) s)).

Definition connection_Send (c : connection) (v : message) : GoM server unit :=
  match Envelop v with
  | Err _ => gret tt
  | Ok e =>
      (let! s := get_server in
       if decide (c ∈ sv_broken s) then connection_Close c
       else put_server (fun s => sv_set_sent (sv_sent s ++ [(c, e)]) s))%go
  end.

Definition broadcast (conns : list connection) (v : message) : GoM server unit :=
  go_each (fun c => connection_Send c v) conns.

(** ** Requests *)

Definition wrong_round (currRound : Z) : string := "wrong round (currently " +:+ pretty currRound +:+ ")".

Definition handleConvoRequest (c : connection) (r : ConvoRequest) : GoM server unit :=
  (let! s := get_server in
   let currRound := sv_convoRound s in
   if decide (cq_Round r = currRound) then
     put_server (fun s => sv_set_convo (sv_convoRound s) (sv_convoRequests s ++ [mkEntryReq c (cq_Onion r)]) s)
   else connection_Send c (VConvoError (mkConvoError (cq_Round r) (wrong_round currRound))))%go.

Definition handleDialRequest (c : connection) (r : DialRequest) : GoM server unit :=
  (let! s := get_server in
   let currRound := sv_dialRound s in
   if decide (dq_Round r = currRound) then
     put_server (fun s => sv_set_dial (sv_dialRound s) (sv_dialRequests s ++ [mkEntryReq c (dq_Onion r)]) s)
   else connection_Send c (VDialError (mkDialError (dq_Round r) (wrong_round currRound))))%go.

Definition handleRequest (c : connection) (v : message) : GoM server unit :=
  match v with
  | VConvoRequest r => handleConvoRequest c r
  | VDialRequest r => handleDialRequest c r
  | _ => gret tt
  end.

(** One iteration of [readLoop]: what [ReadJSON] delivered, or its error. After a
    failed [Open] the request handler is started with a nil value, which has no case. *)
Definition readLoop_body (c : connection) (read : option Envelope) : GoM server unit :=
  match read with
  | None => connection_Close c
  | Some e =>
      match Envelope_Open e with
      | Err err => connection_Send c (VBadRequestError (mkBadRequestError ("error parsing request: " +:+ err)))
      | Ok v => handleRequest c v
      end
  end.

(** [wsHandler] up to the loop over incoming messages. [id] is the new connection;
    [upgraded] whether [upgrader.Upgrade] succeeds, which answers the request itself. *)
Definition wsHandler (method publickey : string) (upgraded : bool) (id : Z) : GoM server http_answer :=
  if decide (method = "GET") then
    match KeyFromString publickey with
    | Err _ => gret (HttpError "expecting box key in publickey query parameter" 400)
    | Ok pk => if upgraded then (register (id, pk) ;;; gret Upgraded)%go else gret NotUpgraded
    end
  else gret (HttpError "Method not allowed" 405).

(** ** Round loops *)

(** [convoRoundLoop] up to the wait for requests: whether the round was announced. *)
Definition convoRound_announce : GoM server bool :=
  (let! s := get_server in
   let! err := on_net (NewConvoRound (sv_convoRound s)) in
   match err with
   | Err _ => gret false
   | Ok _ =>
       let! conns := allConnections in
       broadcast conns (VAnnounceConvoRound (mkAnnounceConvoRound (sv_convoRound s))) ;;;
       gret true
   end)%go.

(** ... and after it: the goroutine is started and the next round begins. *)
Definition convoRound_close : GoM server unit :=
  put_server (fun s => sv_set_convo (u32 (sv_convoRound s + 1)) []
    (sv_set_jobs (sv_jobs s ++ [ConvoJob (sv_convoRound s) (sv_convoRequests s)]) s)).

Definition dialRound_announce : GoM server bool :=
  (let! s := get_server in
   let! err := on_net (NewDialRound (sv_dialRound s)) in
   match err with
   | Err _ => gret false
   | Ok _ =>
       let! conns := allConnections in
       broadcast conns (VAnnounceDialRound (mkAnnounceDialRound (sv_dialRound s) TotalDialBuckets)) ;;;
       gret true
   end)%go.

Definition dialRound_close : GoM server unit :=
  put_server (fun s => sv_set_dial (u32 (sv_dialRound s + 1)) []
    (sv_set_jobs (sv_jobs s ++ [DialJob (sv_dialRound s) (sv_dialRequests s)]) s)).

(** ** Running a round *)

Definition server_error : string := "server error".

Definition runConvoRound (round : Z) (requests : list entryReq) : GoM server unit :=
  (let conns := rq_conn <$> requests in
   let onions := rq_onion <$> requests in
   let! replies := on_net (RunConvoRound round onions) in
   match replies with
   | Err _ => broadcast conns (VConvoError (mkConvoError round server_error))
   | Ok replies =>
       go_each (fun i =>
         let! reply := glift (go_index replies i) in
         let! c := glift (go_index conns i) in
         connection_Send c (VConvoResponse (mkConvoResponse round reply))) (seqZ 0 (zlen replies))
   end)%go.

(** One iteration of the last loop of [runDialRound]. *)
Definition send_bucket (round : Z) (buckets : list (list bytes)) (c : connection) : GoM server unit :=
  (let! bi := glift (KeyDialBucket c.2 TotalDialBuckets) in
   let! intros := glift (go_index buckets bi) in
   connection_Send c (VDialBucket (mkDialBucket round intros)))%go.

Definition runDialRound (round : Z) (requests : list entryReq) : GoM server unit :=
  (let conns := rq_conn <$> requests in
   let onions := rq_onion <$> requests in
   let! err := on_net (RunDialRound round onions) in
   match err with
   | Err _ => broadcast conns (VDialError (mkDialError round server_error))
   | Ok _ =>
       let! result := on_net (rpc_Buckets round) in
       match result with
       | Err _ => broadcast conns (VDialError (mkDialError round server_error))
       | Ok buckets => go_each (send_bucket round buckets) conns
       end
   end)%go.

(** ** The steps of the process *)

Definition take_job (k : nat) (s : server) : server :=
  sv_set_jobs (delete k (sv_jobs s)) s.

(** What a step does, as far as requests and batches go. *)
Inductive label :=
| LRead (c : connection) (v : message)
| LConvoClose (round : Z) (requests : list entryReq)
| LDialClose (round : Z) (requests : list entryReq)
| LRun (j : job)
| LOther.

Definition read_label (c : connection) (read : option Envelope) : label :=
  match read with
  | Some e => match Envelope_Open e with Ok v => LRead c v | Err _ => LOther end
  | None => LOther
  end.

Inductive entry_step : server -> label -> server -> Prop :=
| step_http method publickey upgraded id answer s s' :
    wsHandler method publickey upgraded id s = Ret (answer, s') -> entry_step s LOther s'
| step_read c read s s' :
    readLoop_body c read s = Ret (tt, s') -> entry_step s (read_label c read) s'
| step_break c s :
    entry_step s LOther (sv_set_broken ({[c]} ∪ sv_broken s) s)
| step_convo_announce s s' b :
    sv_convoPhase s = Starting -> convoRound_announce s = Ret (b, s') ->
    entry_step s LOther (sv_set_phases (if b then Collecting else Starting) (sv_dialPhase s') s')
| step_convo_close s s' :
    sv_convoPhase s = Collecting -> convoRound_close s = Ret (tt, s') ->
    entry_step s (LConvoClose (sv_convoRound s) (sv_convoRequests s)) (sv_set_phases Starting (sv_dialPhase s') s')
| step_dial_announce s s' b :
    sv_dialPhase s = Starting -> dialRound_announce s = Ret (b, s') ->
    entry_step s LOther (sv_set_phases (sv_convoPhase s') (if b then Collecting else Starting) s')
| step_dial_close s s' :
    sv_dialPhase s = Collecting -> dialRound_close s = Ret (tt, s') ->
    entry_step s (LDialClose (sv_dialRound s) (sv_dialRequests s)) (sv_set_phases (sv_convoPhase s') Starting s')
| step_convo_run k round requests s s' :
    sv_jobs s !! k = Some (ConvoJob round requests) -> runConvoRound round requests (take_job k s) = Ret (tt, s') ->
    entry_step s (LRun (ConvoJob round requests)) s'
| step_dial_run k round requests s s' :
    sv_jobs s !! k = Some (DialJob round requests) -> runDialRound round requests (take_job k s) = Ret (tt, s') ->
    entry_step s (LRun (DialJob round requests)) s'.

(** The process from a state on, with what it did, in order. *)
Inductive entry_trace (s0 : server) : list label -> server -> Prop :=
| trace_start : entry_trace s0 [] s0
| trace_step ls s l s' : entry_trace s0 ls s -> entry_step s l s' -> entry_trace s0 (ls ++ [l]) s'.

End Entry.
Arguments server C {_}.

(** ** What the handlers keep *)

(** Sending and calling the mix servers leave the rounds and the goroutines alone. *)
Definition same_rounds {C} `{JsonCodec} (s s' : server C) : Prop :=
  sv_convoRound s' = sv_convoRound s /\ sv_convoRequests s' = sv_convoRequests s /\
  sv_dialRound s' = sv_dialRound s /\ sv_dialRequests s' = sv_dialRequests s /\ sv_jobs s' = sv_jobs s.

#[export] Instance same_rounds_preorder {C} `{JsonCodec} : PreOrder (same_rounds (C := C)).
Proof. split; [done|]. unfold same_rounds. intros ???. intuition congruence. Qed.

Section EntryLemmas.
Context {C : Type} `{HC : ConvoRemote C, HD : DialRemote C, HBR : BucketsRemote C, HJ : JsonCodec, H32 : Base32}.
Implicit Types (s : server C) (c : connection) (v : message).

(** The envelope of a message that can be sent. *)
Definition env_of v : option Envelope := match Envelop v with Ok e => Some e | Err _ => None end.

(** What a list of sends leaves: an envelope for every socket that works, and the
    others closed. *)
Definition written (broken : gset connection) (p : connection * message) : option (connection * Envelope) :=
  if decide (p.1 ∈ broken) then None else pair p.1 <$> env_of p.2.
Definition dropped (broken : gset connection) (sends : list (connection * message)) : gset connection :=
  list_to_set (fst <$> filter (fun p => p.1 ∈ broken /\ is_Some (env_of p.2)) sends).
Definition delivered (sends : list (connection * message)) s : server C :=
  sv_set_sent (sv_sent s ++ omap (written (sv_broken s)) sends)
    (sv_set_connections (sv_connections s ∖ dropped (sv_broken s) sends) s).

(** [main] never panics; it serves as soon as both ends of the chain can be dialed. *)
Lemma entry_main_starts pki_file (dial : string -> result unit) (net : C) :
  exists res, entry_main pki_file dial net = Ret res /\
    (forall pki0 pki, pki_file = Ok pki0 -> ReadPKI pki0 = Ok pki -> (forall addr, dial addr = Ok tt) -> res = Ok (new_server net)).
Proof using Type.
  unfold entry_main. destruct pki_file as [pki0|e]; [|by exists (Err e)].
  destruct (ReadPKI pki0) as [pki|e] eqn:E; [|exists (Err e); split; [done|intros ? ? [= <-] ?; congruence]].
  destruct (ReadPKI_ends _ _ E) as (first & last & -> & -> & _). cbn [mbind outcome_bind].
  destruct (dial first) as [[]|e1] eqn:E1; [destruct (dial last) as [[]|e2] eqn:E2|];
    eexists; (split; [done|]); intros pki1 pki2 _ _ Hd; [done|by rewrite Hd in E2|by rewrite Hd in E1].
Qed.

Lemma Send_eq c v s : connection_Send c v s = Ret (tt, delivered [(c, v)] s).
Proof using Type.
  unfold connection_Send, delivered, dropped, written, env_of. cbn [omap list_omap fst snd].
  destruct (Envelop v) as [e|err] eqn:E.
  - unfold gbind, get_server, gget. case_decide as Hb.
    + rewrite filter_cons_True by (cbn [fst snd]; rewrite E; eauto). cbn [fmap list_fmap filter list_filter fst].
      unfold connection_Close, put_server. rewrite app_nil_r. do 2 f_equal.
      replace ({[c]} ∪ sv_broken s) with (sv_broken s) by set_solver. destruct s. cbn.
      unfold sv_set_connections, sv_set_broken, sv_set_sent. cbn. f_equal. set_solver.
    + rewrite filter_cons_False by (cbn [fst]; tauto). cbn. unfold put_server. do 2 f_equal.
      destruct s. unfold sv_set_connections, sv_set_sent. cbn. f_equal. set_solver.
  - rewrite filter_cons_False by (cbn [fst snd]; rewrite E; intros [_ [? ?]]; done).
    cbn [fmap list_fmap filter list_filter fst option_fmap option_map].
    assert ((if decide (c ∈ sv_broken s) then None else None) = (None : option (connection * Envelope))) as ->
      by (by case_decide).
    unfold gret. rewrite app_nil_r. do 2 f_equal. destruct s. unfold sv_set_connections, sv_set_sent. cbn.
    f_equal. set_solver.
Qed.

Lemma delivered_nil s : delivered [] s = s.
Proof using Type.
  unfold delivered. cbn. rewrite app_nil_r. destruct s. unfold sv_set_connections, sv_set_sent. cbn. f_equal. set_solver.
Qed.

Lemma delivered_app l1 l2 s : delivered l2 (delivered l1 s) = delivered (l1 ++ l2) s.
Proof using Type.
  unfold delivered. destruct s. unfold sv_set_connections, sv_set_sent, dropped. cbn.
  rewrite omap_app, app_assoc, filter_app, fmap_app, list_to_set_app_L. f_equal. set_solver.
Qed.

Lemma sends_eq {A} (f : A -> GoM (server C) unit) (g : A -> connection * message) (l : list A) s :
  (forall x s, x ∈ l -> f x s = Ret (tt, delivered [g x] s)) ->
  go_each f l s = Ret (tt, delivered (g <$> l) s).
Proof using Type.
  revert s. induction l as [|x l IH]; intros s Hf; cbn [go_each].
  { by rewrite delivered_nil. }
  unfold gbind. rewrite Hf by set_solver. rewrite IH by (intros; apply Hf; set_solver).
  by rewrite delivered_app.
Qed.

Lemma broadcast_eq conns v s : broadcast conns v s = Ret (tt, delivered ((fun c => (c, v)) <$> conns) s).
Proof using Type. apply sends_eq. intros. apply Send_eq. Qed.

Lemma delivered_same sends s : same_rounds s (delivered sends s).
Proof using Type. done. Qed.

Lemma on_net_same {A} (m : GoM C A) s a s' : on_net m s = Ret (a, s') -> same_rounds s s' /\ sv_sent s' = sv_sent s.
Proof using Type. intros (c & _ & ->)%gzoom_ret. done. Qed.

Lemma announce_same s b s' :
  convoRound_announce s = Ret (b, s') \/ dialRound_announce s = Ret (b, s') -> same_rounds s s'.
Proof using Type.
  intros [Ha|Ha]; apply gbind_ret in Ha as (s1 & s2 & [= <- <-] & Ha);
    apply gbind_ret in Ha as (err & s2 & [Hn _]%on_net_same & Ha); destruct err; [|by apply gret_ret in Ha as [_ ->]| |by apply gret_ret in Ha as [_ ->]];
    apply gbind_ret in Ha as (conns & s3 & Hc & Ha); apply gbind_ret in Hc as (? & ? & [= <- <-] & [-> ->]%gret_ret);
    apply gbind_ret in Ha as (? & s4 & Hb & [-> ->]%gret_ret); rewrite broadcast_eq in Hb; injection Hb as _ <-;
    (etrans; [exact Hn|apply delivered_same]).
Qed.

Lemma run_same s s' round reqs :
  runConvoRound round reqs s = Ret (tt, s') \/ runDialRound round reqs s = Ret (tt, s') -> same_rounds s s'.
Proof using Type.
  intros [Hr|Hr]; apply gbind_ret in Hr as (res & s1 & [Hn _]%on_net_same & Hr); (etrans; [exact Hn|]); destruct res as [x|e].
  - eapply (go_each_keeps same_rounds); [|exact Hr]. intros i t u t' Hi.
    apply gbind_ret in Hi as (reply & t1 & [_ ->]%glift_ret & Hi).
    apply gbind_ret in Hi as (c & t2 & [_ ->]%glift_ret & Hi). rewrite Send_eq in Hi. by injection Hi as _ <-.
  - rewrite broadcast_eq in Hr. by injection Hr as <-.
  - apply gbind_ret in Hr as (res & s2 & [Hn2 _]%on_net_same & Hr). etrans; [exact Hn2|]. destruct res as [buckets|e].
    + eapply (go_each_keeps same_rounds); [|exact Hr]. intros c t u t' Hi. unfold send_bucket in Hi.
      apply gbind_ret in Hi as (bi & t1 & [_ ->]%glift_ret & Hi).
      apply gbind_ret in Hi as (intros & t2 & [_ ->]%glift_ret & Hi). rewrite Send_eq in Hi. by injection Hi as _ <-.
    + rewrite broadcast_eq in Hr. by injection Hr as <-.
  - rewrite broadcast_eq in Hr. by injection Hr as <-.
Qed.

End EntryLemmas.

(** ** Collecting requests: the specification *)

(** The current round and its requests, as a function of what was read and closed. *)
Definition convo_collect (st : Z * list entryReq) (l : label) : Z * list entryReq :=
  match l with
  | LRead c (VConvoRequest r) =>
      if decide (cq_Round r = st.1) then (st.1, st.2 ++ [mkEntryReq c (cq_Onion r)]) else st
  | LConvoClose _ _ => (u32 (st.1 + 1), [])
  | _ => st
  end.
Definition dial_collect (st : Z * list entryReq) (l : label) : Z * list entryReq :=
  match l with
  | LRead c (VDialRequest r) =>
      if decide (dq_Round r = st.1) then (st.1, st.2 ++ [mkEntryReq c (dq_Onion r)]) else st
  | LDialClose _ _ => (u32 (st.1 + 1), [])
  | _ => st
  end.

(** The batches handed to goroutines, and those whose goroutine has run. *)
Definition started_job (l : label) : option job :=
  match l with
  | LConvoClose r reqs => Some (ConvoJob r reqs)
  | LDialClose r reqs => Some (DialJob r reqs)
  | _ => None
  end.
Definition ran_job (l : label) : option job := match l with LRun j => Some j | _ => None end.

(** A step of the process is a step of the specification. *)
Definition entry_refines {C} `{JsonCodec} (s : server C) (l : label) (s' : server C) : Prop :=
  (sv_convoRound s', sv_convoRequests s') = convo_collect (sv_convoRound s, sv_convoRequests s) l /\
  (sv_dialRound s', sv_dialRequests s') = dial_collect (sv_dialRound s, sv_dialRequests s) l /\
  (forall r reqs, l = LConvoClose r reqs -> (r, reqs) = (sv_convoRound s, sv_convoRequests s)) /\
  (forall r reqs, l = LDialClose r reqs -> (r, reqs) = (sv_dialRound s, sv_dialRequests s)) /\
  sv_jobs s ++ option_list (started_job l) ≡ₚ option_list (ran_job l) ++ sv_jobs s'.

Section EntrySpec.
Context {C : Type} `{HC : ConvoRemote C, HD : DialRemote C, HBR : BucketsRemote C, HJ : JsonCodec, H32 : Base32}.
Implicit Types (s : server C).

Lemma other_refines s s' : same_rounds s s' -> entry_refines s LOther s'.
Proof using Type.
  intros (H1 & H2 & H3 & H4 & H5). unfold entry_refines. rewrite H1, H2, H3, H4, H5. cbn. by rewrite app_nil_r.
Qed.

Lemma read_refines c read s s' : readLoop_body c read s = Ret (tt, s') -> entry_refines s (read_label c read) s'.
Proof using Type.
  unfold readLoop_body, read_label. destruct read as [e|]; [|intros [= <-]; by apply other_refines].
  destruct (Envelope_Open e) as [v|err]; [|rewrite Send_eq; intros [= <-]; by apply other_refines].
  unfold entry_refines. destruct v; cbn [handleRequest]; try (intros [= <-]; cbn; by rewrite app_nil_r).
  - unfold handleConvoRequest, gbind, get_server, gget. cbn [convo_collect dial_collect fst snd]. case_decide.
    + intros [= <-]. cbn. by rewrite app_nil_r.
    + rewrite Send_eq. intros [= <-]. cbn. by rewrite app_nil_r.
  - unfold handleDialRequest, gbind, get_server, gget. cbn [convo_collect dial_collect fst snd]. case_decide.
    + intros [= <-]. cbn. by rewrite app_nil_r.
    + rewrite Send_eq. intros [= <-]. cbn. by rewrite app_nil_r.
Qed.

Lemma run_refines k j s s' :
  sv_jobs s !! k = Some j -> same_rounds (take_job k s) s' -> entry_refines s (LRun j) s'.
Proof using Type.
  intros Hk (H1 & H2 & H3 & H4 & H5). unfold entry_refines. rewrite H1, H2, H3, H4, H5. cbn.
  rewrite app_nil_r. split_and!; try done. by apply delete_Permutation.
Qed.

Lemma step_refines s l s' : entry_step s l s' -> entry_refines s l s'.
Proof using Type.
  intros Hstep. destruct Hstep as [method pk up id ans s s' Hs|c read s s' Hs|c s|s s' b Hp Hs|s s' Hp Hs|s s' b Hp Hs|s s' Hp Hs
    |k r reqs s s' Hk Hs|k r reqs s s' Hk Hs].
  - apply other_refines. unfold wsHandler in Hs. case_decide; [|by injection Hs as _ <-].
    destruct (KeyFromString pk); [|by injection Hs as _ <-]. destruct up; by injection Hs as _ <-.
  - by apply read_refines.
  - by apply other_refines.
  - apply other_refines. etrans; [apply (announce_same s b); by left|done].
  - injection Hs as <-. unfold entry_refines. cbn. split_and!; try done. by intros r reqs [= <- <-].
  - apply other_refines. etrans; [apply (announce_same s b); by right|done].
  - injection Hs as <-. unfold entry_refines. cbn. split_and!; try done. by intros r reqs [= <- <-].
  - eapply run_refines; [done|]. eapply run_same. by left.
  - eapply run_refines; [done|]. eapply run_same. by right.
Qed.

(** C8. The entry server batches requests correctly: however connections, requests, the
    two round loops and the running rounds interleave, the current round and its
    requests are what the specification computes from the requests read so far (a
    request is kept exactly when it names the current round, a closed round is
    followed by the next one with no requests); every batch handed to a goroutine is
    the complete list of the requests kept for its round, in order; and every
    batch is run at most once, the ones not yet run being the goroutines left. *)
Theorem entry_batches_exact (net : C) (ls : list label) (s : server C) :
  entry_trace (new_server net) ls s ->
  (sv_convoRound s, sv_convoRequests s) = foldl convo_collect (0, []) ls /\
  (sv_dialRound s, sv_dialRequests s) = foldl dial_collect (0, []) ls /\
  (forall before r reqs after, ls = before ++ LConvoClose r reqs :: after ->
     (r, reqs) = foldl convo_collect (0, []) before) /\
  (forall before r reqs after, ls = before ++ LDialClose r reqs :: after ->
     (r, reqs) = foldl dial_collect (0, []) before) /\
  omap started_job ls ≡ₚ omap ran_job ls ++ sv_jobs s.
Proof using Type.
  intros Htr. induction Htr as [|ls s l s' _ (IH1 & IH2 & IH3 & IH4 & IH5) Hstep].
  { split_and!; try done; intros [|? before] r reqs after [=]. }
  destruct (step_refines _ _ _ Hstep) as (R1 & R2 & R3 & R4 & R5).
  rewrite !foldl_app, !omap_app. cbn [foldl]. rewrite <- IH1, <- IH2. split_and!; [done|done|..].
  - intros before r reqs after Heq. destruct after as [|x after _] using rev_ind.
    + apply app_inj_tail in Heq as [<- ->]. rewrite <- IH1. by apply R3.
    + rewrite app_comm_cons, app_assoc in Heq. apply app_inj_tail in Heq as [-> _]. by eapply IH3.
  - intros before r reqs after Heq. destruct after as [|x after _] using rev_ind.
    + apply app_inj_tail in Heq as [<- ->]. rewrite <- IH2. by apply R4.
    + rewrite app_comm_cons, app_assoc in Heq. apply app_inj_tail in Heq as [-> _]. by eapply IH4.
  - assert (omap started_job [l] = option_list (started_job l)) as -> by (by cbn; destruct (started_job l)).
    assert (omap ran_job [l] = option_list (ran_job l)) as -> by (by cbn; destruct (ran_job l)).
    rewrite IH5, <- !app_assoc. by rewrite R5.
Qed.

End EntrySpec.

(** ** Answers *)

Section Answers.
Context {C : Type} `{HC : ConvoRemote C, HD : DialRemote C, HBR : BucketsRemote C, HJ : JsonCodec, HJL : !JsonLaws}.
Implicit Types (s : server C).

Lemma env_of_ok v : message_valid v -> (forall e, v <> VDialError e) ->
  exists e, env_of v = Some e /\ Envelope_Open e = Ok v.
Proof using HJL.
  intros Hv Hne. destruct (envelope_opens v Hv) as (e & He & Ho). exists e. unfold env_of. rewrite He. split; [done|].
  destruct v; try done. by destruct (Hne v).
Qed.

(** The envelopes written for a list of messages that can be opened again. *)
Lemma written_opens (broken : gset connection) (sends : list (connection * message)) :
  Forall (fun p => message_valid p.2 /\ forall e, p.2 <> VDialError e) sends ->
  Forall2 (fun out p => out.1 = p.1 /\ Envelope_Open out.2 = Ok p.2)
    (omap (written broken) sends) (filter (fun p => p.1 ∉ broken) sends).
Proof using HJL.
  induction 1 as [|[c v] sends [Hv Hne] _ IH]; [constructor|]. cbn [omap list_omap]. unfold written at 1. cbn [fst snd].
  case_decide as Hb.
  - by rewrite filter_cons_False by (cbn; tauto).
  - rewrite filter_cons_True by done. destruct (env_of_ok v Hv Hne) as (e & -> & Ho). cbn.
    by constructor.
Qed.

(** The responses of a round. *)
Definition responses (round : Z) (requests : list entryReq) (replies : list bytes) : list (connection * message) :=
  zip_with (fun q reply => (rq_conn q, VConvoResponse (mkConvoResponse round reply))) requests replies.

Lemma send_replies round requests replies s :
  length replies = length requests ->
  go_each (fun i =>
    let! reply := glift (go_index replies i) in
    let! c := glift (go_index (rq_conn <$> requests) i) in
    connection_Send c (VConvoResponse (mkConvoResponse round reply)))%go (seqZ 0 (zlen replies)) s =
  Ret (tt, delivered (responses round requests replies) s).
Proof using Type.
  intros Hl. set (dummy := (0, @nil byte) : connection).
  set (g := fun i : Z => (default dummy ((rq_conn <$> requests) !! Z.to_nat i),
                          VConvoResponse (mkConvoResponse round (default [] (replies !! Z.to_nat i))))).
  rewrite (sends_eq _ g).
  - do 2 f_equal. assert (g <$> seqZ 0 (zlen replies) = responses round requests replies) as ->; [|done].
    apply list_eq. intros k. unfold responses. rewrite lookup_zip_with, list_lookup_fmap.
    destruct (decide (k < length replies)%nat) as [Hk|Hk].
    + rewrite lookup_seqZ_lt by (unfold zlen; lia). cbn. unfold g. rewrite Z.add_0_l, Nat2Z.id.
      destruct (lookup_lt_is_Some_2 replies k Hk) as [reply ->].
      destruct (lookup_lt_is_Some_2 requests k) as [q Hq]; [lia|]. by rewrite list_lookup_fmap, Hq.
    + rewrite lookup_seqZ_ge by (unfold zlen; lia). cbn.
      rewrite (lookup_ge_None_2 requests) by lia. done.
  - intros i t [Hi1 Hi2]%elem_of_seqZ. unfold zlen in Hi2. rewrite Z.add_0_l in Hi2.
    destruct (lookup_lt_is_Some_2 replies (Z.to_nat i)) as [reply Hr]; [lia|].
    destruct (lookup_lt_is_Some_2 requests (Z.to_nat i)) as [q Hq]; [lia|].
    unfold g. rewrite list_lookup_fmap, Hq, Hr. cbn [fmap option_fmap option_map default].
    rewrite (gbind_eq _ _ _ reply t) by (apply glift_ret; split; [by apply go_index_ret|done]).
    rewrite (gbind_eq _ _ _ (rq_conn q) t).
    2: { apply glift_ret. split; [|done]. apply go_index_ret. by rewrite list_lookup_fmap, Hq. }
    apply Send_eq.
Qed.

Lemma run_answers round requests s replies c' :
  RunConvoRound round (rq_onion <$> requests) (sv_net s) = Ret (Ok replies, c') -> length replies = length requests ->
  runConvoRound round requests s = Ret (tt, delivered (responses round requests replies) (sv_set_net c' s)).
Proof using Type.
  intros Hr Hl. unfold runConvoRound.
  rewrite (gbind_eq _ _ _ (Ok replies) (sv_set_net c' s)) by (unfold on_net; by apply gzoom_eq with (t := c')).
  cbn beta iota. by apply send_replies.
Qed.

Lemma run_error round requests s e c' :
  RunConvoRound round (rq_onion <$> requests) (sv_net s) = Ret (Err e, c') ->
  runConvoRound round requests s =
    Ret (tt, delivered ((fun c => (c, VConvoError (mkConvoError round server_error))) <$> (rq_conn <$> requests))
               (sv_set_net c' s)).
Proof using Type.
  intros Hr. unfold runConvoRound.
  rewrite (gbind_eq _ _ _ (Err e) (sv_set_net c' s)) by (unfold on_net; by apply gzoom_eq with (t := c')).
  apply broadcast_eq.
Qed.

Lemma delivered_connections sends s c :
  Forall (fun p => is_Some (env_of p.2)) sends ->
  c ∈ sv_connections (delivered sends s) <->
  c ∈ sv_connections s /\ ~ (c ∈ sv_broken s /\ c ∈ fst <$> sends).
Proof using Type.
  intros Henv. rewrite Forall_forall in Henv. unfold delivered, dropped. cbn.
  rewrite elem_of_difference, elem_of_list_to_set, !list_elem_of_fmap. split; intros [Hc Hn]; (split; [done|]).
  - intros [Hb (p & -> & Hp)]. apply Hn. exists p. split; [done|]. apply list_elem_of_filter. eauto.
  - intros (p & -> & [[Hb _] Hp]%list_elem_of_filter). apply Hn. eauto.
Qed.

Lemma responses_valid round requests replies :
  0 <= round < 2 ^ 32 ->
  Forall (fun p => message_valid p.2 /\ forall e, p.2 <> VDialError e) (responses round requests replies).
Proof using Type.
  intros Hr. apply Forall_forall. intros p Hp. unfold responses in Hp.
  apply list_elem_of_lookup_1 in Hp as [k Hk]. apply lookup_zip_with_Some in Hk as (q & reply & -> & _). done.
Qed.

Lemma valid_env sends :
  Forall (fun p : connection * message => message_valid p.2 /\ forall e, p.2 <> VDialError e) sends ->
  Forall (fun p => is_Some (env_of p.2)) sends.
Proof using HJL.
  intros Hs. eapply Forall_impl; [exact Hs|]. intros p [Hv Hne]. destruct (env_of_ok _ Hv Hne) as (e & -> & _). eauto.
Qed.

Lemma responses_conns round requests replies :
  length replies = length requests -> fst <$> responses round requests replies = rq_conn <$> requests.
Proof using Type.
  unfold responses. revert replies. induction requests as [|q requests IH]; intros [|reply replies] [=]; cbn; [done|].
  f_equal. by apply IH.
Qed.

(** C9. Every request of a round is answered: when the mix servers return one reply for
    each onion, the client of the [i]-th request is sent the [i]-th reply in an
    envelope that opens to it, and when they fail every client of the round is sent
    the error; nobody else is sent anything, in the order of the requests; clients
    whose socket no longer accepts writes are unregistered and all others stay. *)
Theorem entry_answers (round : Z) (requests : list entryReq) (s : server C) (res : result (list bytes)) (c' : C) :
  0 <= round < 2 ^ 32 ->
  RunConvoRound round (rq_onion <$> requests) (sv_net s) = Ret (res, c') ->
  (forall replies, res = Ok replies -> length replies = length requests) ->
  exists s' out, runConvoRound round requests s = Ret (tt, s') /\ sv_net s' = c' /\
    sv_sent s' = sv_sent s ++ out /\
    Forall2 (fun o p => o.1 = p.1 /\ Envelope_Open o.2 = Ok p.2) out
      (filter (fun p => p.1 ∉ sv_broken s)
        (match res with
         | Ok replies => zip_with (fun q reply => (rq_conn q, VConvoResponse (mkConvoResponse round reply))) requests replies
         | Err _ => (fun q => (rq_conn q, VConvoError (mkConvoError round "server error"))) <$> requests
         end)) /\
    forall c, c ∈ sv_connections s' <->
      c ∈ sv_connections s /\ ~ (c ∈ sv_broken s /\ c ∈ rq_conn <$> requests).
Proof using HJL.
  intros Hr Hrun Hl. destruct res as [replies|e].
  - specialize (Hl replies eq_refl). pose proof (responses_valid round requests replies Hr) as Hv.
    eexists _, _. split; [by apply run_answers|]. split; [done|]. split; [done|]. split; [by apply written_opens|].
    intros c. rewrite delivered_connections by (by apply valid_env). by rewrite responses_conns.
  - assert (Forall (fun p => message_valid p.2 /\ forall e, p.2 <> VDialError e)
      ((fun c : connection => (c, VConvoError (mkConvoError round server_error))) <$> (rq_conn <$> requests))) as Hv.
    { rewrite !Forall_fmap. apply Forall_true. intros q. split; [by split|done]. }
    eexists _, _. split; [by eapply run_error|]. split; [done|]. split; [done|]. split.
    + rewrite <- list_fmap_compose in *. by apply written_opens.
    + intros c. rewrite delivered_connections by (by apply valid_env). rewrite <- list_fmap_compose.
      change ((fst ∘ fun c : connection => (c, VConvoError (mkConvoError round server_error)))) with (fun c : connection => c).
      by rewrite list_fmap_id.
Qed.

End Answers.

(** ** A concrete process *)

Module EntryToy.

(** Mix servers that accept everything and reply with empty onions. *)
#[export] Instance toy_net : ConvoRemote unit := {|
  rpc_NewRound _ := gret (Ok tt); rpc_Open _ := gret (Ok tt); rpc_Add _ := gret (Ok tt);
  rpc_Close _ := gret (Ok tt); rpc_Get args := gret (Ok (replicate (Z.to_nat (ga_Count args)) []));
  rpc_Delete _ := gret (Ok tt) |}.
#[export] Instance toy_dial_net : DialRemote unit := {|
  rpc_DialNewRound _ := gret (Ok tt); rpc_DialAdd _ := gret (Ok tt); rpc_DialClose _ := gret (Ok tt) |}.
#[export] Instance toy_buckets : BucketsRemote unit := fun _ => gret (Ok [[]]).

Definition client : connection := (1, replicate 32 x07).
Definition ask (round : Z) : Envelope :=
  mkEnvelope _ 0 (JObj [("Round", JNum round); ("Onion", JStr "YWI=")]).

(** The loop starts round 0, the client asks for rounds 0 and 5, the round is closed
    and run. *)
Definition s0 : server unit := new_server tt.
Definition s1 : server unit := sv_set_phases Collecting Starting s0.
Definition s2 : server unit := sv_set_convo 0 [mkEntryReq client [x61; x62]] s1.
Definition s3 : server unit := delivered [(client, VConvoError (mkConvoError 5 (wrong_round 0)))] s2.
Definition s4 : server unit :=
  sv_set_phases Starting Starting
    (sv_set_convo 1 [] (sv_set_jobs [ConvoJob 0 [mkEntryReq client [x61; x62]]] s3)).
Definition s5 : server unit := delivered [(client, VConvoResponse (mkConvoResponse 0 []))] (take_job 0 s4).

Definition story : list label :=
  (((([] ++ [LOther]) ++ [LRead client (VConvoRequest (mkConvoRequest 0 [x61; x62]))]) ++
    [LRead client (VConvoRequest (mkConvoRequest 5 [x61; x62]))]) ++
    [LConvoClose 0 [mkEntryReq client [x61; x62]]]) ++ [LRun (ConvoJob 0 [mkEntryReq client [x61; x62]])].

Lemma toy_trace : entry_trace s0 story s5.
Proof.
  eapply trace_step; [eapply trace_step; [eapply trace_step; [eapply trace_step; [eapply trace_step;
    [constructor|]|]|]|]|].
  - exact (step_convo_announce s0 s0 true eq_refl eq_refl).
  - exact (step_read client (Some (ask 0)) s1 s2 eq_refl).
  - refine (step_read client (Some (ask 5)) s2 s3 _).
    assert (Envelope_Open (ask 5) = Ok (VConvoRequest (mkConvoRequest 5 [x61; x62]))) as Ho by (vm_compute; reflexivity).
    unfold readLoop_body. rewrite Ho. cbn [handleRequest]. unfold handleConvoRequest, gbind, get_server, gget.
    rewrite decide_False by discriminate. apply Send_eq.
  - exact (step_convo_close s3 (sv_set_convo 1 [] (sv_set_jobs [ConvoJob 0 [mkEntryReq client [x61; x62]]] s3))
      eq_refl eq_refl).
  - refine (step_convo_run 0 0 [mkEntryReq client [x61; x62]] s4 s5 eq_refl _).
    exact (run_answers 0 [mkEntryReq client [x61; x62]] (take_job 0 s4) [[]] tt eq_refl eq_refl).
Qed.

Lemma entry_batches_exact_witness :
  (0, [mkEntryReq client [x61; x62]]) =
    foldl convo_collect (0, []) [LOther; LRead client (VConvoRequest (mkConvoRequest 0 [x61; x62]));
                                 LRead client (VConvoRequest (mkConvoRequest 5 [x61; x62]))] /\
  sv_jobs s5 = [].
Proof.
  destruct (entry_batches_exact tt story s5 toy_trace) as (_ & _ & H3 & _ & _).
  split; [|reflexivity]. apply (H3 _ _ _ [LRun (ConvoJob 0 [mkEntryReq client [x61; x62]])]). reflexivity.
Defined.

Lemma entry_answers_witness :
  exists s' out, runConvoRound 0 [mkEntryReq client [x61; x62]] s0 = Ret (tt, s') /\
    Forall2 (fun o p => o.1 = p.1 /\ Envelope_Open o.2 = Ok p.2) out
      [(client, VConvoResponse (mkConvoResponse 0 []))].
Proof.
  destruct (entry_answers 0 [mkEntryReq client [x61; x62]] s0 (Ok [[]]) tt) as (s' & out & H1 & _ & _ & H2 & _).
  - lia.
  - reflexivity.
  - intros replies [= <-]. reflexivity.
  - exists s', out. split; [exact H1|exact H2].
Defined.

End EntryToy.
