(* ===== verification/System.v ===== *)
(** * System: clients, entry server and mix servers together

    One conversation round of the whole system: the requests of the clients
    ([Conversation]) are in a batch of the entry server ([EntryServer]), which runs the
    round on the chain of mix servers ([ConvoChain]) and sends the replies back to
    the clients in envelopes ([EntryApi]). *)

From stdpp Require Import numbers strings pretty gmap list.
From Stdlib Require Import Strings.Byte.
From S2P Require Import Prelude Binary Wire Sha256 Rand Shuffle OnionBox Pki Laplace Convo DeadDrops ConvoRounds ConvoChain EntryApi Json BoxKeys Conversation ConvoPeers EntryServer.

Section System.
Context {R : Type} `{HF : Fuel, HR : Reader R, HFR : !FullReader R, HLR : !LiveReader R fuel, HB : Box, HL : !BoxLaws, HK : !KeyGen R,
  HKL : !KeyGenLaws R, HE : FloatEnv, HJ : JsonCodec, HJL : !JsonLaws}.
Context (cap : Z).

(** A response in the batch is written to a socket that works. *)
Lemma response_sent round requests replies (i : nat) q reply broken :
  requests !! i = Some q -> replies !! i = Some reply -> rq_conn q ∉ broken -> 0 <= round < 2 ^ 32 ->
  exists e, (rq_conn q, e) ∈ omap (written broken) (responses round requests replies) /\
    Envelope_Open e = Ok (VConvoResponse (mkConvoResponse round reply)).
Proof using HJL.
  intros Hq Hr Hb Hround.
  destruct (env_of_ok (VConvoResponse (mkConvoResponse round reply)) Hround ltac:(done)) as (e & He & Ho).
  exists e. split; [|done]. apply list_elem_of_omap.
  exists (rq_conn q, VConvoResponse (mkConvoResponse round reply)). split.
  - apply list_elem_of_lookup_2 with i. unfold responses. by rewrite lookup_zip_with, Hq, Hr.
  - unfold written. cbn [fst snd]. by rewrite decide_False, He.
Qed.


End System.

(** ** Alice, Bob, one entry server and two mix servers *)

Module SystemToy.
Import ConvoChain.Toy ConvoPeers.TalkToy.

Definition alice_conn : connection := (1, replicate 32 x07).
Definition bob_conn : connection := (2, replicate 32 x09).
Definition requests : list entryReq :=
  [mkEntryReq alice_conn (onion_from alice); mkEntryReq bob_conn (onion_from bob)].

Lemma new_round_ok : exists c1, NewConvoRound 7 two_servers = Ret (Ok tt, c1).
Proof.
  pose proof run_batch_ok as Hok. unfold run_batch, gbind in Hok.
  assert (match NewConvoRound 7 two_servers with Ret (Ok _, _) => true | _ => false end = true) as Hn
    by (vm_compute; reflexivity).
  destruct (NewConvoRound 7 two_servers) as [[[[]|e] c1]| | |]; [|discriminate Hn..]. by exists c1.
Qed.

Lemma run_batch_replies c1 replies c2 :
  NewConvoRound 7 two_servers = Ret (Ok tt, c1) -> RunConvoRound 7 batch c1 = Ret (Ok replies, c2) ->
  length replies = 2%nat.
Proof.
  intros Hnew Hrun.
  destruct (chain_round_rel 4 1 kps (fun r => 0 <= r) 7 two_servers batch ltac:(lia) eq_refl two_servers_ready
    ltac:(cbn beta; lia) eq_refl) as (c1' & Hnew' & [Hp|(replies' & c2' & hops & msgs & Hrun' & _ & Hfb & Hrel)]).
  - rewrite Hnew in Hnew'. injection Hnew' as <-. by destruct (run_batch_no_panic _ _ Hnew Hp).
  - rewrite Hnew in Hnew'. injection Hnew' as <-. rewrite Hrun in Hrun'. injection Hrun' as <- <-.
    destruct (chain_rel_replies _ _ _ _ _ Hrel) as [Hl _]. rewrite Hl, Hfb. reflexivity.
Qed.

Lemma requests_batch : rq_onion <$> requests = batch.
Proof. reflexivity. Qed.

Lemma run_requests_no_panic c1 p :
  NewConvoRound 7 two_servers = Ret (Ok tt, c1) -> runConvoRound 7 requests (new_server c1) <> Panic p.
Proof.
  intros Hnew Hp. set (sv := new_server c1) in *.
  assert (sv_net sv = c1) as Hnet by reflexivity. clearbody sv.
  destruct (RunConvoRound 7 (rq_onion <$> requests) (sv_net sv)) as [[[replies|e] c2]|p'| |] eqn:Hrun.
  - rewrite (run_answers 7 requests sv replies c2 Hrun) in Hp; [discriminate Hp|].
    rewrite requests_batch, Hnet in Hrun. exact (run_batch_replies c1 replies c2 Hnew Hrun).
  - rewrite (run_error 7 requests sv e c2 Hrun) in Hp. discriminate Hp.
  - rewrite requests_batch, Hnet in Hrun. exact (run_batch_no_panic _ _ Hnew Hrun).
  - unfold runConvoRound, gbind, on_net, gzoom in Hp. rewrite Hrun in Hp. discriminate Hp.
  - unfold runConvoRound, gbind, on_net, gzoom in Hp. rewrite Hrun in Hp. discriminate Hp.
Qed.


End SystemToy.
