(* ===== verification/ClientApp.v ===== *)
(** * ClientApp: the client process

    Models [vuvuzela-client/client.go] and the state-changing parts of
    [vuvuzela-client/gui.go]: the conversations by name, the selected one, the
    commands typed by the user, and the dispatch of the entry server's messages to the
    conversation that made the request of the round. A conversation is a pointer in
    the program; here it is its name, the key of the shared table
    [gc_conversations], so that the table, the selected conversation and the
    handlers of the rounds refer to one state. *)

From stdpp Require Import numbers strings pretty gmap list.
From Stdlib Require Import Strings.Byte Strings.Ascii.
From S2P Require Import Prelude Binary Wire Rand OnionBox Pki Laplace Log ConvoChain EntryApi Json BoxKeys Conversation Dialer.

(** ** Strings *)

(** [strings.TrimSpace]: the UTF-8 encodings of the white space of Unicode. *)
Definition spaces : list bytes :=
  [[x09]; [x0a]; [x0b]; [x0c]; [x0d]; [x20]; [xc2; x85]; [xc2; xa0]; [xe1; x9a; x80];
   [xe2; x80; x80]; [xe2; x80; x81]; [xe2; x80; x82]; [xe2; x80; x83]; [xe2; x80; x84]; [xe2; x80; x85];
   [xe2; x80; x86]; [xe2; x80; x87]; [xe2; x80; x88]; [xe2; x80; x89]; [xe2; x80; x8a]; [xe2; x80; xa8];
   [xe2; x80; xa9]; [xe2; x80; xaf]; [xe2; x81; x9f]; [xe3; x80; x80]].

Fixpoint strip_prefix (p s : bytes) : option bytes :=
  match p, s with
  | [], _ => Some s
  | a :: p', b :: s' => if decide (a = b) then strip_prefix p' s' else None
  | _ :: _, [] => None
  end.

(** One space of [sps] taken from the front, if there is one. *)
Fixpoint strip_one (sps : list bytes) (s : bytes) : option bytes :=
  match sps with
  | [] => None
  | sp :: sps' => match strip_prefix sp s with Some s' => Some s' | None => strip_one sps' s end
  end.
Fixpoint strip_all (fuel : nat) (sps : list bytes) (s : bytes) : bytes :=
  match fuel with
  | O => s
  | S fuel' => match strip_one sps s with Some s' => strip_all fuel' sps s' | None => s end
  end.

(** Each space has at least one byte, so the length of the text is enough fuel. *)
Definition TrimSpace (s : bytes) : bytes :=
  let left := strip_all (length s) spaces s in
  reverse (strip_all (length left) (reverse <$> spaces) (reverse left)).

(** ** State *)

(** [cl_ws]: [None] until [Connect] succeeds, then whether writes succeed.
    [cl_sent]: the envelopes written. A handler of a round that is [None] is a nil
    interface. *)
Record Client `{JsonCodec} := mkClient {
  cl_roundHandlers : gmap Z (option string);
  cl_convoHandler : option string;
  cl_dialHandler : bool;
  cl_ws : option bool;
  cl_sent : list Envelope;
}.

Record GuiClient {R : Type} `{JsonCodec} := mkGuiClient {
  gc_pki : PKI;
  gc_myName : string;
  gc_myPublicKey : BoxKey;
  gc_myPrivateKey : BoxKey;
  gc_gui : Gui;
  gc_client : option Client;
  gc_selectedConvo : option string;
  gc_conversations : gmap string Conversation;
  gc_dialer : Dialer;
  gc_rand : R;
}.
Arguments GuiClient R {_}.

Section App.
Context {R : Type} `{HR : Reader R, HB : Box, HK : !KeyGen R, H32 : Base32, HJ : JsonCodec}.

(** [strconv.Quote], used by [%q], [fmt.Sprintf] without arguments, and the flag [-pki]. *)
Context (Quote Sprintf0 : string -> string) (pkiPath : string).

Definition app : Type := GuiClient R.

Definition set_gui (g : Gui) (a : app) : app :=
  mkGuiClient _ _ (gc_pki a) (gc_myName a) (gc_myPublicKey a) (gc_myPrivateKey a) g (gc_client a) (gc_selectedConvo a)
    (gc_conversations a) (gc_dialer a) (gc_rand a).
Definition set_client (c : option Client) (a : app) : app :=
  mkGuiClient _ _ (gc_pki a) (gc_myName a) (gc_myPublicKey a) (gc_myPrivateKey a) (gc_gui a) c (gc_selectedConvo a)
    (gc_conversations a) (gc_dialer a) (gc_rand a).
Definition set_selected (p : option string) (a : app) : app :=
  mkGuiClient _ _ (gc_pki a) (gc_myName a) (gc_myPublicKey a) (gc_myPrivateKey a) (gc_gui a) (gc_client a) p
    (gc_conversations a) (gc_dialer a) (gc_rand a).
Definition set_conversations (m : gmap string Conversation) (a : app) : app :=
  mkGuiClient _ _ (gc_pki a) (gc_myName a) (gc_myPublicKey a) (gc_myPrivateKey a) (gc_gui a) (gc_client a)
    (gc_selectedConvo a) m (gc_dialer a) (gc_rand a).
Definition set_dialer (d : Dialer) (a : app) : app :=
  mkGuiClient _ _ (gc_pki a) (gc_myName a) (gc_myPublicKey a) (gc_myPrivateKey a) (gc_gui a) (gc_client a)
    (gc_selectedConvo a) (gc_conversations a) d (gc_rand a).
Definition set_rand (r : R) (a : app) : app :=
  mkGuiClient _ _ (gc_pki a) (gc_myName a) (gc_myPublicKey a) (gc_myPrivateKey a) (gc_gui a) (gc_client a)
    (gc_selectedConvo a) (gc_conversations a) (gc_dialer a) r.

Definition set_handlers (m : gmap Z (option string)) (c : Client) : Client :=
  mkClient _ m (cl_convoHandler c) (cl_dialHandler c) (cl_ws c) (cl_sent c).
Definition set_convoHandler (h : option string) (c : Client) : Client :=
  mkClient _ (cl_roundHandlers c) h (cl_dialHandler c) (cl_ws c) (cl_sent c).
Definition set_dialHandler (b : bool) (c : Client) : Client :=
  mkClient _ (cl_roundHandlers c) (cl_convoHandler c) b (cl_ws c) (cl_sent c).
Definition set_ws (w : option bool) (c : Client) : Client :=
  mkClient _ (cl_roundHandlers c) (cl_convoHandler c) (cl_dialHandler c) w (cl_sent c).
Definition add_sent (e : Envelope) (c : Client) : Client :=
  mkClient _ (cl_roundHandlers c) (cl_convoHandler c) (cl_dialHandler c) (cl_ws c) (cl_sent c ++ [e]).

Definition get_app : GoM app app := gget.
Definition put_app (f : app -> app) : GoM app unit := fun a => Ret (tt, f a).
Definition app_Warnf (text : bytes) : GoM app unit := put_app (fun a => set_gui (gui_Warnf text (gc_gui a)) a).
Definition app_Printf (text : bytes) : GoM app unit := put_app (fun a => set_gui (gui_Printf text (gc_gui a)) a).

(** An entry given to the logger (at a level that is enabled, which [Debug] is not). *)
Definition app_log (lvl : level) (msg : string) (data : gmap string field) (now : Time) : GoM app unit :=
  put_app (fun a => set_gui (gui_log Sprintf0 lvl msg data now (gc_gui a)) a).

(** A method call on the conversation [h], which works on the shared table. A name
    that is not in the table is a nil pointer. *)
Definition on_convo {A} (h : string) (m : GoM (cstate R) A) : GoM app A := fun a =>
  match gc_conversations a !! h with
  | None => Panic nil_panic
  | Some c =>
      match m (c, gc_gui a, gc_rand a) with
      | Ret (x, (c', g', r')) =>
          Ret (x, set_rand r' (set_gui g' (set_conversations (<[h := c']> (gc_conversations a)) a)))
      | Panic p => Panic p
      | Block => Block
      | NoFuel => NoFuel
      end
  end.

(** A method call on the dialer. *)
Definition on_dialer {A} (m : GoM (dlstate R) A) : GoM app A :=
  gzoom (fun a => (gc_dialer a, gc_gui a, gc_rand a))
        (fun s a => set_rand s.2 (set_gui s.1.2 (set_dialer s.1.1 a))) m.

(** The client, a nil pointer before [Connect]. *)
Definition on_client {A} (m : GoM Client A) : GoM app A := fun a =>
  match gc_client a with
  | None => Panic nil_panic
  | Some c =>
      match m c with
      | Ret (x, c') => Ret (x, set_client (Some c') a)
      | Panic p => Panic p
      | Block => Block
      | NoFuel => NoFuel
      end
  end.

(** ** client.go *)

Definition NewClient : Client := mkClient _ ∅ None false None [].
Definition SetConvoHandler (h : string) : GoM Client unit := fun c => Ret (tt, set_convoHandler (Some h) c).
Definition SetDialHandler : GoM Client unit := fun c => Ret (tt, set_dialHandler true c).

(** [Connect]: [dialed] is the result of dialing the web socket. *)
Definition Client_Connect (dialed : result unit) : GoM Client (result unit) := fun c =>
  match cl_convoHandler c with
  | None => Ret (Err "no convo handler", c)
  | Some _ =>
      if cl_dialHandler c then
        match dialed with
        | Err e => Ret (Err e, c)
        | Ok _ => Ret (Ok tt, set_ws (Some true) c)
        end
      else Ret (Err "no dial handler", c)
  end.

(** [Send]: a failed write closes the socket. *)
Definition Client_write (e : Envelope) : GoM Client unit := fun c =>
  match cl_ws c with
  | None => Panic nil_panic
  | Some true => Ret (tt, add_sent e c)
  | Some false => Ret (tt, set_ws (Some false) c)
  end.
Definition Client_Send (v : message) (now : Time) : GoM app unit :=
  match Envelop v with
  | Err err => app_log ErrorLevel err {["bug" := FBool true; "call" := FString "Envelop"]} now
  | Ok e => on_client (Client_write e)
  end.

(** The two halves of [nextConvoRequest]: under the lock the handler of the round is
    recorded; the handler that makes the request is read again after it. *)
Definition register_round (round : Z) : GoM Client unit := fun c =>
  Ret (tt, set_handlers (<[round := cl_convoHandler c]> (cl_roundHandlers c)) c).
Definition make_request (round : Z) (now : Time) : GoM app ConvoRequest :=
  (let! c := on_client gget in
   match cl_convoHandler c with
   | None => glift (Panic nil_panic)
   | Some h => on_convo h (NextConvoRequest round now)
   end)%go.
Definition nextConvoRequest (round : Z) (now : Time) : GoM app ConvoRequest :=
  (on_client (register_round round) ;;; make_request round now)%go.

Definition deliverConvoResponse (r : ConvoResponse) (now : Time) : GoM app unit :=
  (let! c := on_client gget in
   let convo := cl_roundHandlers c !! cp_Round r in
   on_client (fun c => Ret (tt, set_handlers (delete (cp_Round r) (cl_roundHandlers c)) c)) ;;;
   match convo with
   | None => put_app (fun a => set_gui (log_round_error (cp_Round r) "round not found" now (gc_gui a)) a)
   | Some None => glift (Panic nil_panic)
   | Some (Some h) => on_convo h (HandleConvoResponse r now)
   end)%go.

(** [order]: the order in which Go visits the people (see [Dialer]). *)
Definition handleResponse (v : message) (now : Time) (order : nat -> list (string * BoxKey)) : GoM app unit :=
  match v with
  | VBadRequestError e => app_log InfoLevel ("bad request error: " +:+ BadRequestError_Error e) ∅ now
  | VAnnounceConvoRound a =>
      (let! q := nextConvoRequest (ac_Round a) now in Client_Send (VConvoRequest q) now)%go
  | VAnnounceDialRound a =>
      (let! q := on_dialer (NextDialRequest (ad_Round a) (ad_Buckets a)) in
       Client_Send (VDialRequest q) now)%go
  | VConvoResponse r => deliverConvoResponse r now
  | VDialBucket db => on_dialer (HandleDialBucket order db)
  | _ => gret tt
  end.

(** One iteration of [readLoop]: what [ReadJSON] delivered, or its error. *)
Definition client_readLoop (read : option Envelope) (now : Time) (order : nat -> list (string * BoxKey)) : GoM app unit :=
  match read with
  | None => on_client (fun c => Ret (tt, set_ws (Some false) c))
  | Some e =>
      match Envelope_Open e with
      | Err err => app_log ErrorLevel err {["call" := FString "Envelope.Open"]} now
      | Ok v => handleResponse v now order
      end
  end.

(** ** gui.go *)

Definition activateConvo (h : string) : GoM app unit :=
  (let! a := get_app in
   match gc_client a with
   | None => gret tt
   | Some _ =>
       on_convo h (put_convo (fun c => set_lastLatency 0 (set_lastPeerResponding false c))) ;;;
       on_client (SetConvoHandler h)
   end)%go.

Definition switchConversation (peer : string) : GoM app unit :=
  (let! a := get_app in
   let enter :=
     put_app (set_selected (Some peer)) ;;;
     activateConvo peer ;;;
     app_Warnf (str ("Now talking to " +:+ peer) ++ [x0a]) in
   match gc_conversations a !! peer with
   | Some _ => enter
   | None =>
       match pki_People (gc_pki a) !! peer with
       | None => app_Warnf (str ("unknown user: " +:+ peer))
       | Some peerPublicKey =>
           let convo := Conversation_Init
             (mkConversation (gc_pki a) peer peerPublicKey (gc_myPublicKey a) (gc_myPrivateKey a) [] ∅ false 0 0) in
           put_app (set_conversations (<[peer := convo]> (gc_conversations a))) ;;;
           enter
       end
   end)%go.

(** What the prefix test leaves: [line[6:]]. *)
Definition after_prefix (p line : string) : option string :=
  if String.prefix p line then Some (String.substring (String.length p) (String.length line - String.length p) line)
  else None.

(** [handleLine]: [true] is [gocui.Quit]. *)
Definition handleLine (line : string) : GoM app bool :=
  if decide (line = "/quit") then gret true
  else
    match after_prefix "/talk " line, after_prefix "/dial " line with
    | Some peer, _ => (switchConversation peer ;;; gret false)%go
    | None, Some peer =>
        (let! a := get_app in
         match pki_People (gc_pki a) !! peer with
         | None =>
             app_Warnf (str ("Unknown user: " +:+ Quote peer +:+ " (see " +:+ pkiPath +:+ ")") ++ [x0a]) ;;;
             gret false
         | Some pk =>
             app_Warnf (str ("Dialing user: " +:+ peer) ++ [x0a]) ;;;
             gzoom gc_dialer set_dialer (QueueRequest pk) ;;;
             gret false
         end)%go
    | None, None =>
        (let msg := TrimSpace (str line) in
         let! a := get_app in
         match gc_selectedConvo a with
         | None => glift (Panic nil_panic)
         | Some h =>
             on_convo h (gzoom (fun s => s.1.1) (fun c s => (c, s.1.2, s.2)) (QueueTextMessage msg)) ;;;
             app_Printf (str "<" ++ str (gc_myName a) ++ str "> " ++ msg ++ [x0a]) ;;;
             gret false
         end)%go
    end.

(** [readLine] with the line under the cursor: an empty one is ignored. *)
Definition readLine (line : string) : GoM app bool :=
  if decide (line = "") then gret false else handleLine line.

(** [gc.Connect]. *)
Definition gui_Connect (dialed : result unit) : GoM app (result unit) :=
  (let! a := get_app in
   match gc_client a with
   | None => put_app (set_client (Some NewClient)) ;;; on_client SetDialHandler
   | Some _ => gret tt
   end ;;;
   match gc_selectedConvo a with
   | None => glift (Panic nil_panic)
   | Some h => activateConvo h
   end ;;;
   on_client (Client_Connect dialed))%go.

(** The beginning of [Run]: the user talks to itself, and the dialer is set up. *)
Definition gui_Run : GoM app unit :=
  (put_app (set_conversations ∅) ;;;
   let! a := get_app in
   switchConversation (gc_myName a) ;;;
   put_app (fun a => set_dialer (Dialer_Init (mkDialer (gc_pki a) (gc_myPublicKey a) (gc_myPrivateKey a) [])) a))%go.

End App.

(** ** Routing of responses *)

Section Routing.
Context {R : Type} `{HR : Reader R, HB : Box, HK : !KeyGen R, H32 : Base32, HJ : JsonCodec}.
Context (Quote Sprintf0 : string -> string) (pkiPath : string).
Implicit Types (a : app (R := R)).

Definition handlers a : gmap Z (option string) :=
  match gc_client a with Some cl => cl_roundHandlers cl | None => ∅ end.
(** The conversation that makes requests now. *)
Definition active a : option string := gc_client a ≫= cl_convoHandler.
Definition pend a (h : string) (r : Z) : Prop :=
  exists c, gc_conversations a !! h = Some c /\ is_Some (c_pendingRounds c !! r).

(** A step that starts and ends no round. *)
Definition no_round a a' : Prop :=
  handlers a' = handlers a /\ forall h r, pend a h r -> pend a' h r.

#[local] Instance no_round_preorder : PreOrder no_round.
Proof using Type. split; [done|]. intros ??? [E1 H1] [E2 H2]. split; [congruence|auto]. Qed.

(** A method of a conversation that keeps the pending rounds. *)
Lemma on_convo_no_round {A} h (m : GoM (cstate R) A) x a a' :
  (forall s y s', m s = Ret (y, s') -> c_pendingRounds s'.1.1 = c_pendingRounds s.1.1) ->
  on_convo h m a = Ret (x, a') -> no_round a a'.
Proof using Type.
  intros Hm Ha. unfold on_convo in Ha. destruct (gc_conversations a !! h) as [c|] eqn:Hc; [|done].
  destruct (m (c, gc_gui a, gc_rand a)) as [[y [[c' g'] r']]| | |] eqn:Em; [|done..]. injection Ha as <- <-.
  split; [done|]. intros h' r (c0 & Hc0 & Hr). unfold pend. cbn. destruct (decide (h' = h)) as [->|Hne].
  - exists c'. rewrite lookup_insert_eq. split; [done|]. apply Hm in Em. cbn in Em. rewrite Em.
    rewrite Hc in Hc0. by injection Hc0 as ->.
  - exists c0. by rewrite lookup_insert_ne.
Qed.

Lemma on_client_no_round {A} (m : GoM Client A) x a a' :
  (forall c y c', m c = Ret (y, c') -> cl_roundHandlers c' = cl_roundHandlers c) ->
  on_client m a = Ret (x, a') -> no_round a a'.
Proof using Type.
  intros Hm Ha. unfold on_client in Ha. destruct (gc_client a) as [cl|] eqn:Hc; [|done].
  destruct (m cl) as [[y cl']| | |] eqn:Em; [|done..]. injection Ha as <- <-. split; [|done].
  unfold handlers. cbn. rewrite Hc. by apply Hm in Em.
Qed.

Lemma gui_no_round (f : Gui -> Gui) a : no_round a (set_gui (f (gc_gui a)) a).
Proof using Type. done. Qed.

Lemma on_dialer_no_round {A} (m : GoM (dlstate R) A) x a a' : on_dialer m a = Ret (x, a') -> no_round a a'.
Proof using Type. intros (s & _ & ->)%gzoom_ret. done. Qed.

Lemma Send_no_round v now u a a' : Client_Send Sprintf0 v now a = Ret (u, a') -> no_round a a'.
Proof using Type.
  unfold Client_Send. destruct (Envelop v); [|by intros [= _ <-]].
  apply on_client_no_round. intros c y c' Hc. unfold Client_write in Hc.
  destruct (cl_ws c) as [[]|]; [by injection Hc as _ <-..|done].
Qed.

Lemma activate_no_round h u a a' : activateConvo h a = Ret (u, a') -> no_round a a'.
Proof using Type.
  intros (a1 & a2 & [= <- <-] & Ha)%gbind_ret. destruct (gc_client a); [|by injection Ha as _ <-].
  apply gbind_ret in Ha as (v & a3 & Hc & Ha). etrans.
  - eapply on_convo_no_round; [|exact Hc]. intros s y s' Hs. by injection Hs as _ <-.
  - eapply on_client_no_round; [|exact Ha]. intros c0 y c' Hs. by injection Hs as _ <-.
Qed.

Lemma switch_no_round peer u a a' : switchConversation peer a = Ret (u, a') -> no_round a a'.
Proof using Type.
  intros (a1 & a2 & [= <- <-] & Ha)%gbind_ret.
  assert (forall b b' v, (put_app (set_selected (Some peer)) ;;; activateConvo peer ;;;
    app_Warnf (str ("Now talking to " +:+ peer) ++ [x0a]))%go b = Ret (v, b') -> no_round b b') as Henter.
  { intros b b' v (v1 & b1 & [= _ <-] & Hb)%gbind_ret. apply gbind_ret in Hb as (v2 & b2 & Hb & [= _ <-]).
    apply activate_no_round in Hb. etrans; [exact Hb|done]. }
  destruct (gc_conversations a !! peer) eqn:Hp; [by eapply Henter|].
  destruct (pki_People (gc_pki a) !! peer); [|by injection Ha as _ <-].
  apply gbind_ret in Ha as (v & a3 & [= _ <-] & Ha). etrans; [|by eapply Henter].
  split; [done|]. intros h r (c & Hc & Hr). exists c. split; [|done]. cbn. rewrite lookup_insert_ne; [done|]. congruence.
Qed.

Lemma handleLine_no_round line b a a' : handleLine Quote pkiPath line a = Ret (b, a') -> no_round a a'.
Proof using Type.
  unfold handleLine. case_decide; [by intros [= _ <-]|].
  destruct (after_prefix "/talk " line) as [peer|].
  { intros (u & a1 & Ha & [= _ <-])%gbind_ret. by eapply switch_no_round. }
  destruct (after_prefix "/dial " line) as [peer|].
  - intros (a1 & a2 & [= <- <-] & Ha)%gbind_ret. destruct (pki_People (gc_pki a) !! peer).
    + apply gbind_ret in Ha as (u & a3 & [= _ <-] & Ha). apply gbind_ret in Ha as (u' & a4 & Hq & [= _ <-]).
      apply gzoom_ret in Hq as (d & _ & ->). done.
    + apply gbind_ret in Ha as (u & a3 & [= _ <-] & [= _ <-]). done.
  - intros (a1 & a2 & [= <- <-] & Ha)%gbind_ret. destruct (gc_selectedConvo a) as [h|]; [|done].
    apply gbind_ret in Ha as (u & a3 & Hq & Ha). apply gbind_ret in Ha as (u' & a4 & [= _ <-] & [= _ <-]).
    transitivity a3; [|done]. eapply on_convo_no_round; [|exact Hq]. intros s y s' Hs.
    apply gzoom_ret in Hs as (c & Hc & ->). unfold QueueTextMessage in Hc. case_decide; [|done]. by injection Hc as _ <-.
Qed.

Lemma Connect_no_round dialed x a a' : gui_Connect dialed a = Ret (x, a') -> no_round a a'.
Proof using Type.
  intros (a1 & a2 & [= <- <-] & Ha)%gbind_ret. apply gbind_ret in Ha as (u & a3 & Hnew & Ha).
  apply gbind_ret in Ha as (u' & a4 & Hact & Ha). transitivity a3; [|transitivity a4].
  - destruct (gc_client a) as [cl|] eqn:Hc; [by injection Hnew as _ <-|].
    apply gbind_ret in Hnew as (v & a5 & [= _ <-] & Hnew). injection Hnew as _ <-. split; [|done].
    unfold handlers. cbn. by rewrite Hc.
  - destruct (gc_selectedConvo a); [|done]. by eapply activate_no_round.
  - eapply on_client_no_round; [|exact Ha]. intros c y c' Hs. unfold Client_Connect in Hs.
    destruct (cl_convoHandler c); [|by injection Hs as _ <-]. destruct (cl_dialHandler c); [|by injection Hs as _ <-].
    destruct dialed; by injection Hs as _ <-.
Qed.

(** The request of a round leaves the round pending. *)
Lemma NextConvoRequest_pending round now (s s' : cstate R) q :
  NextConvoRequest round now s = Ret (q, s') ->
  exists pr, c_pendingRounds s'.1.1 = <[round := pr]> (c_pendingRounds s.1.1).
Proof using Type.
  destruct s as [[c gui] g]. intros (u & s1 & [= _ <-] & Hs)%gbind_ret.
  apply gbind_ret in Hs as (body & s2 & Hbody & Hs). rewrite next_body_eq in Hbody. injection Hbody as _ <-.
  apply gbind_ret in Hs as (c1 & s3 & [= <- <-] & Hs).
  apply gbind_ret in Hs as (dd & s4 & (g4 & _ & ->)%gzoom_ret & Hs).
  apply gbind_ret in Hs as (keys & s5 & [_ ->]%glift_ret & Hs).
  apply gbind_ret in Hs as ([onion sh] & s6 & (g6 & _ & ->)%gzoom_ret & Hs).
  apply gbind_ret in Hs as (v & s7 & [= _ <-] & [= _ <-]). by eexists.
Qed.

(** The second half of a request: the active conversation then waits for the round. *)
Lemma make_request_ok round now q a a' :
  make_request round now a = Ret (q, a') -> no_round a a' /\ exists h, active a = Some h /\ pend a' h round.
Proof using Type.
  intros (cl1 & a2 & Hg & Ha)%gbind_ret. unfold on_client in Hg. unfold active.
  destruct (gc_client a) as [cl|] eqn:Hcl; [|done]. injection Hg as <- <-. cbn [mbind option_bind].
  destruct (cl_convoHandler cl) as [h|]; [|done]. unfold on_convo in Ha. cbn [set_client gc_conversations gc_gui gc_rand] in Ha.
  destruct (gc_conversations a !! h) as [c|] eqn:Hc; [|done].
  destruct (NextConvoRequest round now (c, gc_gui a, gc_rand a)) as [[q' [[c' g'] r']]| | |] eqn:Hn; [|done..]. injection Ha as <- <-.
  destruct (NextConvoRequest_pending _ _ _ _ _ Hn) as [pr Hpr]. cbn in Hpr. split.
  - split; [unfold handlers; cbn; by rewrite Hcl|]. intros h0 r0 (c0 & Hc0 & Hp0). unfold pend. cbn.
    destruct (decide (h0 = h)) as [->|Hne]; [|exists c0; by rewrite lookup_insert_ne].
    exists c'. rewrite lookup_insert_eq, Hpr. split; [done|]. rewrite Hc in Hc0. injection Hc0 as <-.
    destruct (decide (r0 = round)) as [->|Hner]; [by rewrite lookup_insert_eq|by rewrite lookup_insert_ne].
  - exists h. split; [done|]. exists c'. cbn. rewrite lookup_insert_eq, Hpr, lookup_insert_eq. eauto.
Qed.

(** Delivery: the recorded conversation handles the response, nobody else changes, and
    no other round is forgotten. *)
Lemma deliver_ok resp now a a' :
  deliverConvoResponse resp now a = Ret (tt, a') ->
  handlers a' = delete (cp_Round resp) (handlers a) /\
  (forall h r, r <> cp_Round resp -> pend a h r -> pend a' h r) /\
  match handlers a !! cp_Round resp with
  | None => gc_conversations a' = gc_conversations a
  | Some None => False
  | Some (Some h) => exists c c' g' r', gc_conversations a !! h = Some c /\
      HandleConvoResponse resp now (c, gc_gui a, gc_rand a) = Ret (tt, (c', g', r')) /\
      gc_conversations a' = <[h := c']> (gc_conversations a)
  end.
Proof using Type.
  intros (cl & a1 & Hg & Ha)%gbind_ret. unfold on_client in Hg.
  destruct (gc_client a) as [cl0|] eqn:Hcl; [|done]. injection Hg as <- <-.
  assert (handlers a = cl_roundHandlers cl0) as -> by (unfold handlers; by rewrite Hcl).
  apply gbind_ret in Ha as (u & a2 & Hd & Ha). unfold on_client in Hd. cbn [set_client gc_client] in Hd. injection Hd as _ <-.
  destruct (cl_roundHandlers cl0 !! cp_Round resp) as [[h|]|] eqn:Hhr; [|done|].
  - unfold on_convo in Ha. cbn [set_client gc_conversations gc_gui gc_rand] in Ha.
    destruct (gc_conversations a !! h) as [c|] eqn:Hc; [|done].
    destruct (HandleConvoResponse resp now (c, gc_gui a, gc_rand a)) as [[[] [[c' g'] r']]| | |] eqn:Hhr'; [|done..]. injection Ha as <-.
    assert (c_pendingRounds c' = delete (cp_Round resp) (c_pendingRounds c)) as Hp'.
    { destruct (handle_response_cases resp now c (gc_gui a) (gc_rand a)) as [(c2 & g2 & He & Hc2 & _)|(? & ? & He & _)];
        rewrite Hhr' in He; [|done]. injection He as -> -> ->. by rewrite Hc2. }
    split; [done|]. split; [|by eexists c, c', g', r'].
    intros h0 r0 Hne (c0 & Hc0 & Hp0). unfold pend. cbn. destruct (decide (h0 = h)) as [->|Hneh].
    + exists c'. rewrite lookup_insert_eq, Hp', lookup_delete_ne by done. rewrite Hc in Hc0. by injection Hc0 as ->.
    + exists c0. by rewrite lookup_insert_ne.
  - injection Ha as <-. done.
Qed.

(** ** Histories of the process

    Every message of the entry server is handled by a goroutine of its own. One that
    announces a conversation round gives up the lock in [nextConvoRequest] before it
    reads the handler again; there it is cut in two, and [pc_started] are the rounds of
    the goroutines that are between the halves. *)

Definition proc : Type := app (R := R) * list Z.
Definition pc_started (s : proc) : list Z := s.2.
Definition on_app {A} : GoM (app (R := R)) A -> GoM proc A := gzoom fst (fun a s => (a, s.2)).
Definition put_started (f : list Z -> list Z) : GoM proc unit := fun s => Ret (tt, (s.1, f s.2)).

Fixpoint remove_first (r : Z) (l : list Z) : list Z :=
  match l with
  | [] => []
  | x :: l' => if decide (x = r) then l' else x :: remove_first r l'
  end.

Inductive app_event :=
| ELine (line : string)
| EServer (read : option Envelope) (now : Time) (order : nat -> list (string * BoxKey))
| ERequest (round : Z) (now : Time)
| EConnect (dialed : result unit).

(** The round a message announces. *)
Definition announced (read : option Envelope) : option Z :=
  e ← read;
  match Envelope_Open e with Ok (VAnnounceConvoRound a) => Some (ac_Round a) | _ => None end.

Definition app_do (e : app_event) : GoM proc unit :=
  match e with
  | ELine line => (on_app (readLine Quote pkiPath line) ;;; gret tt)%go
  | EServer read now order =>
      match announced read with
      | Some r => (on_app (on_client (register_round r)) ;;; put_started (cons r))%go
      | None => on_app (client_readLoop Sprintf0 read now order)
      end
  | ERequest r now => fun s =>
      if decide (r ∈ pc_started s) then
        (put_started (remove_first r) ;;;
         on_app (let! q := make_request r now in Client_Send Sprintf0 (VConvoRequest q) now))%go s
      else Block
  | EConnect dialed => (on_app (gui_Connect dialed) ;;; gret tt)%go
  end.

(** The two halves one after the other are [client_readLoop]. *)
Lemma announcement_halves read now order r a l :
  announced read = Some r ->
  (app_do (EServer read now order) ;;; app_do (ERequest r now))%go (a, l) = on_app (client_readLoop Sprintf0 read now order) (a, l).
Proof using Type.
  unfold announced. intros Hr. unfold app_do, announced. rewrite Hr. destruct read as [e|]; [|done].
  unfold client_readLoop. cbn [mbind option_bind] in Hr.
  destruct (Envelope_Open e) as [[| | | | | | |[r']| |]|]; try done. injection Hr as ->. cbn [handleResponse ac_Round].
  unfold nextConvoRequest, on_app, gzoom, put_started, gbind. cbn [fst snd pc_started].
  destruct (on_client (register_round r) a) as [[[] a1]| | |]; [|done..]. cbn [fst snd].
  rewrite decide_True by set_solver. cbn [remove_first]. rewrite decide_True by done. done.
Qed.

(** The conversation recorded for the round [r] waits for it, unless the request is
    still to be made. *)
Definition waits (r : Z) (s : proc) : Prop :=
  forall h, handlers s.1 !! r = Some (Some h) -> r ∈ s.2 \/ pend s.1 h r.

(** Whenever the request of round [r] is made, the conversation that makes it is the one
    recorded for the round: the user did not switch between the two. *)
Fixpoint undisturbed (r : Z) (events : list app_event) (s : proc) : Prop :=
  match events with
  | [] => True
  | e :: events' =>
      match e with
      | ERequest r' _ => r' = r -> forall h, handlers s.1 !! r = Some h -> active s.1 = h
      | _ => True
      end /\
      forall u s', app_do e s = Ret (u, s') -> undisturbed r events' s'
  end.

Lemma no_round_waits r a a' l : no_round a a' -> waits r (a, l) -> waits r (a', l).
Proof using Type. intros [E Hp] Hw h Hh. cbn in *. rewrite E in Hh. destruct (Hw h Hh); auto. Qed.

Lemma on_app_ret {A} (m : GoM (app (R := R)) A) x a l s' :
  on_app m (a, l) = Ret (x, s') -> exists a', m a = Ret (x, a') /\ s' = (a', l).
Proof using Type. intros (a' & Hm & ->)%gzoom_ret. by exists a'. Qed.

Lemma remove_first_other r r' l : r' <> r -> r' ∈ l -> r' ∈ remove_first r l.
Proof.
  intros Hne. induction l as [|x l IH]; [done|]. cbn. rewrite elem_of_cons. case_decide; intros [->|Hin]; try done; set_solver.
Qed.

(** What one message does, an announcement of a conversation round apart. *)
Lemma readLoop_waits r read now order u a a' l :
  announced read = None -> client_readLoop Sprintf0 read now order a = Ret (u, a') -> waits r (a, l) -> waits r (a', l).
Proof using Type.
  unfold announced, client_readLoop. destruct read as [e|]; cbn [mbind option_bind].
  2: { intros _ Ha. apply no_round_waits. eapply on_client_no_round; [|exact Ha]. intros c y c' Hs. by injection Hs as _ <-. }
  destruct (Envelope_Open e) as [v|err]; [|by intros _ [= _ <-]]. intros Hv Ha Hw.
  destruct v as [| | | |resp| |db|ann|ann|]; cbn [handleResponse] in Ha; try (by injection Ha as _ <-); try done.
  - destruct u. destruct (deliver_ok resp now a a' Ha) as (Hh & Hp & _). intros h. cbn in *. rewrite Hh.
    intros [Hne H0]%lookup_delete_Some. destruct (Hw h H0) as [?|?]; [by left|right]. by apply Hp.
  - eapply no_round_waits; [|exact Hw]. by eapply on_dialer_no_round.
  - apply gbind_ret in Ha as (q & a1 & Hq & Ha). eapply no_round_waits; [|exact Hw].
    etrans; [by eapply on_dialer_no_round|by eapply Send_no_round].
Qed.

Lemma app_do_waits r e u s s' :
  match e with ERequest r' _ => r' = r -> forall h, handlers s.1 !! r = Some h -> active s.1 = h | _ => True end ->
  app_do e s = Ret (u, s') -> waits r s -> waits r s'.
Proof using Type.
  destruct s as [a l]. intros Hu. destruct e as [line|read now order|r' now|dialed]; cbn [app_do].
  - intros (b & s1 & (a' & Ha & ->)%on_app_ret & [= _ <-])%gbind_ret. apply no_round_waits.
    unfold readLine in Ha. case_decide; [by injection Ha as _ <-|]. by eapply handleLine_no_round.
  - destruct (announced read) as [r'|] eqn:Hr.
    + intros (v & s1 & (a' & Ha & ->)%on_app_ret & [= _ <-])%gbind_ret. cbn [fst snd]. intros Hw h. cbn [fst snd].
      unfold on_client in Ha. destruct (gc_client a) as [cl|] eqn:Hcl; [|done]. injection Ha as _ <-. unfold handlers. cbn.
      destruct (decide (r' = r)) as [->|Hne]; [left; set_solver|]. rewrite lookup_insert_ne by done. intros Hh.
      destruct (Hw h) as [Hin|Hp]; [unfold handlers; cbn; by rewrite Hcl|left; set_solver|by right].
    + intros (a' & Ha & ->)%on_app_ret. by eapply readLoop_waits.
  - case_decide; [|done]. intros (v & s1 & [= _ <-] & (a' & Ha & ->)%on_app_ret)%gbind_ret Hw.
    apply gbind_ret in Ha as (q & a1 & Hq & Ha). cbn [fst snd] in *.
    destruct (make_request_ok _ _ _ _ _ Hq) as [Hno (h & Hact & Hp)].
    eapply no_round_waits; [by eapply Send_no_round|]. intros h0. cbn [fst snd]. destruct Hno as [E Hmono]. rewrite E. intros Hh0.
    destruct (decide (r' = r)) as [->|Hne].
    + right. rewrite (Hu eq_refl _ Hh0) in Hact. by injection Hact as ->.
    + destruct (Hw h0 Hh0) as [Hin|Hp0]; [left|right; by apply Hmono]. by apply remove_first_other.
  - intros (b & s1 & (a' & Ha & ->)%on_app_ret & [= _ <-])%gbind_ret. apply no_round_waits. by eapply Connect_no_round.
Qed.

Lemma history_waits r events outs s s' :
  undisturbed r events s -> go_map app_do events s = Ret (outs, s') -> waits r s -> waits r s'.
Proof using Type.
  revert s outs. induction events as [|e events IH]; intros s outs Hu; cbn [go_map]; [by intros [= _ <-]|].
  destruct Hu as [He Hu]. intros (u & s1 & Hs & Ha)%gbind_ret Hw. apply gbind_ret in Ha as (us & s2 & Ha & [= _ <-]).
  eapply IH; [by eapply Hu|exact Ha|]. by eapply app_do_waits.
Qed.

(** C22. Responses find the conversation recorded for their round: after any history of a
    fresh client, with typed lines, connections and server messages interleaved with the
    two halves of the requests, a response is handled by the conversation that was recorded
    for its round, also when the user has switched to others since; it changes no other
    conversation and ends the round; a response for a round without a record changes no
    conversation. If the request of the round was made, and the user did not switch
    between the two halves of making it, then the conversation is one that waits for the
    round and has its keys. *)
Theorem response_routing (events : list app_event) outs a0 a started resp now a' :
  gc_client a0 = None -> go_map app_do events (a0, []) = Ret (outs, (a, started)) ->
  deliverConvoResponse resp now a = Ret (tt, a') ->
  handlers a' = delete (cp_Round resp) (handlers a) /\
  match handlers a !! cp_Round resp with
  | None => gc_conversations a' = gc_conversations a
  | Some None => False
  | Some (Some h) => exists c c' g' r', gc_conversations a !! h = Some c /\
      HandleConvoResponse resp now (c, gc_gui a, gc_rand a) = Ret (tt, (c', g', r')) /\
      gc_conversations a' = <[h := c']> (gc_conversations a) /\
      (undisturbed (cp_Round resp) events (a0, []) -> cp_Round resp ∉ started -> is_Some (c_pendingRounds c !! cp_Round resp))
  end.
Proof using Type.
  intros H0 Hev Hd. destruct (deliver_ok resp now a a' Hd) as (Hh & _ & Hm). split; [exact Hh|].
  destruct (handlers a !! cp_Round resp) as [[h|]|] eqn:Hr; [|done|done].
  destruct Hm as (c & c' & g' & r' & Hc & He & Hc'). exists c, c', g', r'. split_and!; [done..|]. intros Hu Hns.
  destruct (history_waits _ _ _ _ _ Hu Hev) with (h := h) as [Hin|(c0 & Hc0 & Hp)]; [|exact Hr|done|].
  - intros h0. unfold handlers. cbn. by rewrite H0, lookup_empty.
  - cbn in Hc0. rewrite Hc in Hc0. by injection Hc0 as <-.
Qed.

(** ** The request of a round is made outside the lock *)

(** Switching to a conversation that exists, once connected. *)
Lemma switch_existing h c cl a :
  gc_client a = Some cl -> gc_conversations a !! h = Some c ->
  exists a', switchConversation h a = Ret (tt, a') /\
    gc_client a' = Some (set_convoHandler (Some h) cl) /\
    gc_conversations a' =
      <[h := set_lastLatency 0 (set_lastPeerResponding false c)]> (gc_conversations a).
Proof using Type.
  intros Hcl Hc. unfold switchConversation, gbind, get_app, gget, put_app, activateConvo. rewrite Hc.
  unfold gbind, on_convo, on_client, put_convo, SetConvoHandler, app_Warnf, put_app, gget, get_app.
  unfold gget. cbn [set_selected gc_client gc_conversations]. rewrite Hcl.
  cbn [set_selected gc_client gc_conversations]. rewrite Hc. cbn [set_rand set_gui set_conversations set_selected gc_client fst snd]. rewrite Hcl. by eexists.
Qed.

(** C32. A race in the client: [nextConvoRequest] records the handler of a round under the
    lock but reads it again, without the lock, to make the request. When the user switches to
    another conversation between the two, the request comes from the new
    conversation but the response goes to the old one, which does not know the
    round: it logs an error, which is all that appears on the screen, and the new
    conversation, whose round no handler is recorded for, goes on waiting. *)
Theorem nextConvoRequest_race (h h' : string) (c c2 : Conversation) (cl : Client) (r : Z) (now now' : Time)
    (onion : bytes) q a a1 :
  gc_client a = Some cl -> cl_convoHandler cl = Some h -> h <> h' ->
  gc_conversations a !! h = Some c -> c_pendingRounds c !! r = None -> gc_conversations a !! h' = Some c2 ->
  (on_client (register_round r) ;;; switchConversation h' ;;; make_request r now)%go a = Ret (q, a1) ->
  exists a2, deliverConvoResponse (mkConvoResponse r onion) now' a1 = Ret (tt, a2) /\
    gc_gui a2 = log_round_error r "round not found" now' (gc_gui a1) /\
    pend a1 h' r /\ pend a2 h' r /\ handlers a2 !! r = None.
Proof using Type.
  intros Hcl Hh Hne Hc Hp Hc2 (u & b1 & Hreg & Hrest)%gbind_ret.
  unfold on_client in Hreg. rewrite Hcl in Hreg. unfold register_round in Hreg. rewrite Hh in Hreg. injection Hreg as _ <-.
  set (cl1 := set_handlers _ cl) in Hrest.
  apply gbind_ret in Hrest as (u' & b2 & Hsw & Hreq).
  destruct (switch_existing h' c2 cl1 (set_client (Some cl1) a) eq_refl Hc2) as (b2' & Hsw' & Hcl2 & Hconv2).
  rewrite Hsw in Hsw'. injection Hsw' as _ <-. cbn [set_client gc_conversations] in Hconv2.
  apply gbind_ret in Hreq as (cl2 & b3 & Hg & Hreq). unfold on_client in Hg. rewrite Hcl2 in Hg.
  injection Hg as <- <-. cbn [cl_convoHandler set_convoHandler] in Hreq.
  unfold on_convo in Hreq. cbn [set_client gc_conversations gc_gui gc_rand] in Hreq. rewrite Hconv2, lookup_insert_eq in Hreq.
  set (c3 := set_lastLatency 0 _) in *.
  destruct (NextConvoRequest r now (c3, gc_gui b2, gc_rand b2)) as [[q' [[c4 g4] r4]]| | |] eqn:Hn; [|done..].
  injection Hreq as <- <-. destruct (NextConvoRequest_pending _ _ _ _ _ Hn) as [pr Hpr]. cbn [fst] in Hpr.
  assert (c_pendingRounds c4 !! r = Some pr) as Hr4 by (by rewrite Hpr, lookup_insert_eq).
  eexists. split.
  - unfold deliverConvoResponse, gbind, on_client, gget.
    cbn [set_rand set_gui set_conversations set_client gc_client set_convoHandler set_handlers cl_roundHandlers cl1 cp_Round].
    rewrite lookup_insert_eq. unfold on_convo.
    cbn [set_rand set_gui set_conversations set_client gc_client gc_conversations].
    rewrite !lookup_insert_ne by done. rewrite Hc. rewrite HandleConvoResponse_eq. cbn [cp_Round]. rewrite Hp. reflexivity.
  - unfold pend, handlers. cbn. split_and!; [done|..].
    + exists c4. rewrite lookup_insert_eq. eauto.
    + exists c4. rewrite lookup_insert_ne, lookup_insert_eq by done. eauto.
    + apply lookup_delete_eq.
Qed.

End Routing.

(** ** A concrete client *)

Module AppToy.
Import ConvoChain.Toy.

Definition people : gmap string BoxKey := {["me" := replicate 32 x07; "bob" := replicate 32 x09]}.
Definition my_pki : PKI :=
  mkPKI people (pki_Servers example_pki) (pki_ServerOrder example_pki) (pki_EntryServer example_pki).
Definition blank : app (R := unit) :=
  mkGuiClient _ _ my_pki "me" (replicate 32 x07) (replicate 32 x07) (mkGui (Some []) [] (fun _ => 0)) None None ∅
    (mkDialer my_pki (replicate 32 x07) (replicate 32 x07) []) tt.
Definition fresh : app (R := unit) :=
  match gui_Run blank with Ret (_, a) => a | _ => blank end.

Definition announce (round : Z) : option Envelope := Some (mkEnvelope _ 7 (JObj [("Round", JNum round)])).
Definition no_order : nat -> list (string * BoxKey) := fun _ => [].
Definition no_quote : string -> string := fun s => s.
Definition clock : Time := time_Unix 1000.

(** The user switches to Bob while round 7, asked for by the conversation with
    itself, is under way. *)
Definition events : list app_event :=
  [EConnect (Ok tt); EServer (announce 7) clock no_order; ERequest 7 clock; ELine "/talk bob"; ELine " hi "].
Definition reply : ConvoResponse := mkConvoResponse 7 [].

Definition run_events : outcome (list unit * proc (R := unit)) := go_map (app_do no_quote no_quote "pki.conf") events (fresh, []).

Example routed_to_me :
  match run_events with
  | Ret (_, (a, _)) =>
      handlers a !! 7 = Some (Some "me") /\ gc_selectedConvo a = Some "bob" /\
      (c_outQueue <$> gc_conversations a !! "bob") = Some [[x68; x69]] /\
      match deliverConvoResponse reply clock a with
      | Ret (_, a') => (en_Message <$> logged (gc_gui a')) = ["decrypting onion failed"]%string /\ handlers a' !! 7 = None
      | _ => False
      end
  | _ => False
  end.
Proof. vm_compute. repeat split. Qed.

Lemma run_events_ok :
  match run_events with
  | Ret (_, (a, l)) =>
      match handlers a !! 7, l, deliverConvoResponse reply clock a with
      | Some (Some _), [], Ret _ => true
      | _, _, _ => false
      end
  | _ => false
  end = true.
Proof. vm_compute. reflexivity. Qed.

(** The conversation that makes the request of the run is the recorded one. *)
Lemma recorded_ok :
  match app_do no_quote no_quote "pki.conf" (EConnect (Ok tt)) (fresh, []) with
  | Ret (_, s1) =>
      match app_do no_quote no_quote "pki.conf" (EServer (announce 7) clock no_order) s1 with
      | Ret (_, s2) => match handlers s2.1 !! 7 with Some h => bool_decide (active s2.1 = h) | None => true end
      | _ => true
      end
  | _ => true
  end = true.
Proof. vm_compute. reflexivity. Qed.

Lemma undisturbed_events : undisturbed no_quote no_quote "pki.conf" 7 events (fresh, []).
Proof.
  split; [exact I|]. intros u1 s1 H1. split; [exact I|]. intros u2 s2 H2. split.
  - intros _ h Hh. pose proof recorded_ok as Hb. rewrite H1, H2, Hh in Hb. exact (bool_decide_eq_true_1 _ Hb).
  - intros u3 s3 _. split; [exact I|]. intros u4 s4 _. split; [exact I|]. intros u5 s5 _. exact I.
Qed.

Lemma response_routing_witness :
  exists outs a a' h c, run_events = Ret (outs, (a, [])) /\ deliverConvoResponse reply clock a = Ret (tt, a') /\
    handlers a !! 7 = Some (Some h) /\ gc_conversations a !! h = Some c /\ is_Some (c_pendingRounds c !! 7) /\
    handlers a' = delete 7 (handlers a).
Proof.
  pose proof run_events_ok as Hok. unfold run_events in *.
  destruct (go_map (app_do no_quote no_quote "pki.conf") events (fresh, [])) as [[outs [a l]]| | |] eqn:Hrun; [|discriminate Hok..].
  destruct (handlers a !! 7) as [[h|]|] eqn:Hh; [|discriminate Hok..]. destruct l; [|discriminate Hok].
  destruct (deliverConvoResponse reply clock a) as [[[] a']| | |] eqn:Hd; [|discriminate Hok..].
  pose proof (response_routing no_quote no_quote "pki.conf" events outs fresh a [] reply clock a' eq_refl Hrun Hd) as [H1 H2].
  change (cp_Round reply) with 7 in H1, H2. rewrite Hh in H2. destruct H2 as (c & c' & g' & r' & Hc & _ & _ & Hp).
  exists outs, a, a', h, c. split; [reflexivity|]. split; [exact Hd|]. split; [exact Hh|]. split; [exact Hc|]. split; [|exact H1].
  apply Hp; [exact undisturbed_events|]. apply not_elem_of_nil.
Defined.

(** Round 7 is registered for the conversation with itself, then the user switches. *)
Definition me_convo : Conversation :=
  Conversation_Init (mkConversation my_pki "me" (replicate 32 x07) (replicate 32 x07) (replicate 32 x07) [] ∅ false 0 0).
Definition bob_convo : Conversation :=
  Conversation_Init (mkConversation my_pki "bob" (replicate 32 x09) (replicate 32 x07) (replicate 32 x07) [] ∅ false 0 0).
Definition connected : app (R := unit) :=
  set_conversations {["me" := me_convo; "bob" := bob_convo]}
    (set_client (Some (mkClient _ ∅ (Some "me") true (Some true) [])) blank).
Definition racing : outcome (ConvoRequest * app (R := unit)) :=
  (on_client (register_round 7) ;;; switchConversation "bob" ;;; make_request 7 clock)%go connected.

Lemma racing_ok : match racing with Ret _ => true | _ => false end = true.
Proof. vm_compute. reflexivity. Qed.

Lemma nextConvoRequest_race_witness :
  exists q a1 a2, racing = Ret (q, a1) /\
    deliverConvoResponse reply clock a1 = Ret (tt, a2) /\
    gc_gui a2 = log_round_error 7 "round not found" clock (gc_gui a1) /\ pend a2 "bob" 7.
Proof.
  pose proof racing_ok as Hok. unfold racing in *.
  destruct ((on_client (register_round 7) ;;; switchConversation "bob" ;;; make_request 7 clock)%go connected)
    as [[q a1]| | |] eqn:Hrace; [|discriminate Hok..].
  destruct (nextConvoRequest_race "me" "bob" me_convo bob_convo (mkClient _ ∅ (Some "me") true (Some true) []) 7 clock clock [] q
    connected a1) as (a2 & H1 & H2 & _ & H3 & _).
  - reflexivity.
  - reflexivity.
  - discriminate.
  - reflexivity.
  - reflexivity.
  - reflexivity.
  - exact Hrace.
  - exists q, a1, a2. split; [reflexivity|]. split; [exact H1|]. split; [exact H2|exact H3].
Defined.

End AppToy.
