(* ===== verification/ClientMain.v ===== *)
(** * ClientMain: starting the client and drawing its screen

    Models [vuvuzela-client/main.go] and the rest of [gui.go]: the configuration file
    and [main], the goroutine of [Run] that connects, and the text [layout] draws. The
    terminal library is reduced to what is written to its views and the errors it
    returns. *)

From stdpp Require Import numbers strings pretty gmap list.
From Stdlib Require Import Strings.Byte SpecFloat.
From S2P Require Import Prelude Binary Wire Rand OnionBox Pki Laplace Log EntryApi Json BoxKeys Conversation Dialer ClientApp.

(** ** main.go *)

Record ClientConf := mkClientConf {
  cc_MyName : string;
  cc_MyPublicKey : option BoxKey;
  cc_MyPrivateKey : option BoxKey;
}.

Inductive client_start (A : Type) :=
| ClientFatal (msg : string)
| ClientWrote (path : string) (conf : ClientConf)
| ClientRuns (a : A).
Arguments ClientFatal {A}. Arguments ClientWrote {A}. Arguments ClientRuns {A}.

(** The text of the two views [layout] writes, and whether the partner is shown in
    green. *)
Record screen := mkScreen {
  sc_status : string;
  sc_partner : string;
  sc_green : bool;
}.

Section Client.
Context {R : Type} `{HR : Reader R, HB : Box, HK : !KeyGen R, H32 : Base32, HJ : JsonCodec}.
Context (Quote Sprintf0 : string -> string) (pkiPath : string).

Definition client_WriteDefaultConf (path : string) : GoM R (client_start (GuiClient R)) :=
  (let! kp := GenerateBoxKey in
   match kp with
   | Err e => gret (ClientFatal ("GenerateBoxKey: " +:+ e))
   | Ok (myPublicKey, myPrivateKey) =>
       gret (ClientWrote path (mkClientConf "" (Some myPublicKey) (Some myPrivateKey)))
   end)%go.

(** The fields [main] does not set are nil; nothing reads the dialer before [Run] sets it.
    [zone] is the time zone of the machine. *)
Definition new_GuiClient (pki : PKI) (name : string) (pk sk : BoxKey) (zone : Time -> Z) (g : R) : GuiClient R :=
  mkGuiClient _ _ pki name pk sk (mkGui None [] zone) None None ∅ (mkDialer pki pk sk []) g.

Definition client_main (confPath : string) (doInit : bool) (zone : Time -> Z) (pki_file : result PKI)
    (conf_file : result ClientConf) : GoM R (client_start (GuiClient R)) :=
  (if doInit then client_WriteDefaultConf confPath
   else
     match pki_file with
     | Err e => gret (ClientFatal e)
     | Ok pki0 =>
     match ReadPKI pki0 with
     | Err e => gret (ClientFatal e)
     | Ok pki =>
     match conf_file with
     | Err e => gret (ClientFatal e)
     | Ok conf =>
     match decide (cc_MyName conf = ""), cc_MyPublicKey conf, cc_MyPrivateKey conf with
     | right _, Some pk, Some sk =>
         let! g := gget in gret (ClientRuns (new_GuiClient pki (cc_MyName conf) pk sk zone g))
     | _, _, _ => gret (ClientFatal ("missing required fields: " +:+ confPath))
     end
     end
     end
     end)%go.

(** ** gui.go *)

(** The goroutine of [Run]. *)
Definition connect_later (dialed : result unit) : GoM (app (R := R)) unit :=
  (let! err := gui_Connect dialed in
   match err with
   | Err e => app_Warnf (str ("Failed to connect: " +:+ e) ++ [x0a])
   | Ok _ => gret tt
   end ;;;
   let! a := get_app in
   app_Warnf (str ("Connected: " +:+ pki_EntryServer (gc_pki a)) ++ [x0a]))%go.

(** The main view is created by the first [layout], which also adds the log hook,
    discards the output of the logger and sets its formatter: from then on log entries
    appear on the view (see [gui_log]). *)
Definition open_main (g : Gui) : Gui := mkGui (Some (default [] (main_view g))) (logged g) (time_Local g).

(** [layout]. [SetView]: for each view, the error of placing it, if it is not the one that
    says that the view is new. [SetCurrentView]: the error of selecting the input view, if
    it is new and there is one. [latency_text] is [fmt.Sprintf("%.1fs", latency)]. Colours and
    sizes are left out. *)
Definition layout (latency_text : float64 -> string) (SetView : string -> option string) (SetCurrentView : option string)
    : GoM (app (R := R)) (result screen) :=
  (match SetView "main" with
   | Some err => gret (Err err)
   | None =>
   put_app (fun a => set_gui (open_main (gc_gui a)) a) ;;;
   match SetView "status" with
   | Some err => gret (Err err)
   | None =>
   let! a := get_app in
   match gc_selectedConvo a ≫= fun h => gc_conversations a !! h with
   | None => glift (Panic nil_panic)
   | Some c =>
       let st := Conversation_Status c in
       let latency := if SFeqb (st_Latency st) (S754_zero false) then "-" else latency_text (st_Latency st) in
       let round := if decide (st_Round st = 0) then "-" else pretty (st_Round st) in
       let status := " [" +:+ gc_myName a +:+ "]  [round: " +:+ round +:+ "]  [latency: " +:+ latency +:+ "]" in
       let partner := if Solo c then "(no partner)" else c_peerName c in
       match SetView "partner" with
       | Some err => gret (Err err)
       | None =>
       match SetView "input" with
       | Some err => gret (Err err)
       | None =>
       match SetCurrentView with
       | Some err => gret (Err err)
       | None => gret (Ok (mkScreen status (partner +:+ ">") (st_PeerResponding st)))
       end
       end
       end
   end
   end
   end)%go.

Definition Levels : list level := [PanicLevel; FatalLevel; ErrorLevel; WarnLevel; InfoLevel; DebugLevel].

(** ** There is always a conversation to draw *)

(** The selected conversation is in the table. *)
Definition selected_ok (a : app (R := R)) : Prop :=
  exists h, gc_selectedConvo a = Some h /\ is_Some (gc_conversations a !! h).

Lemma keep_put f : (forall a, selected_ok a -> selected_ok (f a)) -> gsim eq (keeping selected_ok) (put_app f) (put_app f).
Proof. intros Hf a ? [<- Ha]. split; [done|]. split; [done|by apply Hf]. Qed.

Lemma keep_log lvl msg data now : gsim eq (keeping selected_ok) (app_log Sprintf0 lvl msg data now) (app_log Sprintf0 lvl msg data now).
Proof. apply keep_put. by intros a (h & ? & ?); exists h. Qed.

Lemma keep_gui (f : Gui -> Gui) :
  gsim eq (keeping selected_ok) (put_app (fun a => set_gui (f (gc_gui a)) a)) (put_app (fun a => set_gui (f (gc_gui a)) a)).
Proof. apply keep_put. by intros a (h & ? & ?); exists h. Qed.

Lemma keep_get : gsim eq (keeping selected_ok) get_app get_app.
Proof. by intros a ? [<- Ha]. Qed.

Lemma keep_client {A} (m : GoM Client A) : gsim eq (keeping selected_ok) (on_client m) (on_client m).
Proof.
  intros a ? [<- Ha]. unfold on_client. destruct (gc_client a) as [c|]; [|done]. unfold osim.
  destruct (m c) as [[x c']| | |]; [|done..]. split; [done|]. split; [done|]. by destruct Ha as (h & ? & ?); exists h.
Qed.

Lemma keep_convo {A} h (m : GoM (cstate R) A) : gsim eq (keeping selected_ok) (on_convo h m) (on_convo h m).
Proof.
  intros a ? [<- Ha]. unfold on_convo. destruct (gc_conversations a !! h) as [c|]; [|done]. unfold osim.
  destruct (m _) as [[x [[c' g'] r']]| | |]; [|done..]. split; [done|]. split; [done|].
  destruct Ha as (h0 & Hs & Hc). exists h0. split; [exact Hs|]. cbn.
  destruct (decide (h0 = h)) as [->|Hne]; [by rewrite lookup_insert_eq|by rewrite lookup_insert_ne].
Qed.

Lemma keep_dialer {A} (m : GoM (dlstate R) A) : gsim eq (keeping selected_ok) (on_dialer m) (on_dialer m).
Proof.
  unfold on_dialer. apply (gsim_zoom _ eq); [by intros a ? [<- _]| |apply gsim_refl].
  intros a ? s ? [<- (h & ? & ?)] <-. split; [done|]. by exists h.
Qed.

Lemma keep_queue pk : gsim eq (keeping selected_ok) (gzoom gc_dialer set_dialer (QueueRequest pk))
  (gzoom gc_dialer set_dialer (QueueRequest pk)).
Proof.
  apply (gsim_zoom _ eq); [by intros a ? [<- _]| |apply gsim_refl].
  intros a ? s ? [<- (h & ? & ?)] <-. split; [done|]. by exists h.
Qed.

Hint Resolve keep_gui keep_log keep_get keep_client keep_convo keep_dialer keep_queue : sim.

Lemma keep_activate h : gsim eq (keeping selected_ok) (activateConvo h) (activateConvo h).
Proof. unfold activateConvo. sim. Qed.
Hint Resolve keep_activate : sim.

(** Entering a conversation that is in the table. *)
Lemma enter_selected peer a u a' : is_Some (gc_conversations a !! peer) ->
  (put_app (set_selected (Some peer)) ;;; activateConvo peer ;;;
   app_Warnf (str ("Now talking to " +:+ peer) ++ [x0a]))%go a = Ret (u, a') -> selected_ok a'.
Proof.
  intros Hc H. apply gbind_ret in H as (u1 & a1 & [= _ <-] & H).
  eapply (keeping_run _ _ _ _ _ _ _ H). Unshelve.
  - unfold app_Warnf. sim.
  - by exists peer.
Qed.

Lemma switch_selected peer a u a' :
  switchConversation peer a = Ret (u, a') ->
  is_Some (gc_conversations a !! peer) \/ is_Some (pki_People (gc_pki a) !! peer) \/ selected_ok a -> selected_ok a'.
Proof.
  unfold switchConversation, get_app, gget, gbind at 1. cbn beta iota zeta. intros H Hor.
  destruct (gc_conversations a !! peer) as [c|] eqn:Ec; [eapply enter_selected; [|exact H]; by rewrite Ec|].
  destruct (pki_People (gc_pki a) !! peer) as [pk|] eqn:Ep.
  - apply gbind_ret in H as (u1 & a1 & [= _ <-] & H). eapply enter_selected; [|exact H]. cbn.
    by rewrite lookup_insert_eq.
  - injection H as _ <-. destruct Hor as [[? [=]]|[[? [=]]|(h & ? & ?)]]. by exists h.
Qed.

Lemma keep_switch peer : gsim eq (keeping selected_ok) (switchConversation peer) (switchConversation peer).
Proof. apply keeping_of. intros a u a' Ha H. eapply switch_selected; [exact H|]. by right; right. Qed.
Hint Resolve keep_switch : sim.

Lemma keep_line line : gsim eq (keeping selected_ok) (readLine Quote pkiPath line) (readLine Quote pkiPath line).
Proof. unfold readLine, handleLine, app_Warnf, app_Printf. sim. Qed.

Lemma keep_connect dialed : gsim eq (keeping selected_ok) (gui_Connect dialed) (gui_Connect dialed).
Proof.
  unfold gui_Connect. sim. apply keep_put. by intros b (h & ? & ?); exists h.
Qed.

Lemma keep_send v now : gsim eq (keeping selected_ok) (Client_Send Sprintf0 v now) (Client_Send Sprintf0 v now).
Proof. unfold Client_Send. destruct (Envelop v); sim. Qed.
Hint Resolve keep_send : sim.

Lemma keep_make round now : gsim eq (keeping selected_ok) (make_request round now) (make_request round now).
Proof. unfold make_request. sim. Qed.
Hint Resolve keep_make : sim.

Lemma keep_server read now order :
  gsim eq (keeping selected_ok) (client_readLoop Sprintf0 read now order) (client_readLoop Sprintf0 read now order).
Proof.
  unfold client_readLoop. destruct read as [e|]; [|sim]. destruct (Envelope_Open e) as [v|]; [|sim].
  unfold handleResponse. destruct v; unfold deliverConvoResponse, nextConvoRequest; sim.
Qed.
Hint Resolve keep_line keep_connect keep_server : sim.

Lemma keep_on_app {A} (m : GoM (app (R := R)) A) : gsim eq (keeping selected_ok) m m ->
  gsim eq (keeping (fun s : proc => selected_ok s.1)) (on_app m) (on_app m).
Proof.
  intros Hm. unfold on_app. apply (gsim_zoom _ (keeping selected_ok)); [by intros s ? [<- Hs]| |exact Hm].
  intros s ? a ? [<- _] [<- Ha]. by split.
Qed.

Lemma keep_started f : gsim eq (keeping (fun s : proc (R := R) => selected_ok s.1)) (put_started f) (put_started f).
Proof. by intros s ? [<- Hs]. Qed.
Hint Resolve keep_on_app keep_started : sim.

Lemma keep_event e :
  gsim eq (keeping (fun s : proc => selected_ok s.1)) (app_do Quote Sprintf0 pkiPath e) (app_do Quote Sprintf0 pkiPath e).
Proof.
  destruct e as [line|read now order|r now|dialed]; cbn [app_do]; [sim| |intros s ? [<- Hs]|sim].
  - destruct (announced read); sim.
  - case_decide; [|done].
    assert (gsim eq (keeping (fun s : proc => selected_ok s.1))
      (put_started (remove_first r) ;;; on_app (let! q := make_request r now in Client_Send Sprintf0 (VConvoRequest q) now))%go
      (put_started (remove_first r) ;;; on_app (let! q := make_request r now in Client_Send Sprintf0 (VConvoRequest q) now))%go) as H0.
    { apply gsim_bind_eq; [apply keep_started|]. intros _. apply keep_on_app. sim. }
    exact (H0 s s (conj eq_refl Hs)).
Qed.

Lemma keep_events events :
  gsim eq (keeping (fun s : proc => selected_ok s.1)) (go_map (app_do Quote Sprintf0 pkiPath) events) (go_map (app_do Quote Sprintf0 pkiPath) events).
Proof. apply gsim_map, keep_event. Qed.

Lemma client_main_runs confPath doInit zone pki_file conf_file g a g' :
  client_main confPath doInit zone pki_file conf_file g = Ret (ClientRuns a, g') ->
  exists pki name pk sk, a = new_GuiClient pki name pk sk zone g.
Proof.
  unfold client_main, client_WriteDefaultConf. intros H. destruct doInit.
  { apply gbind_ret in H as ([[pk sk]|e] & s1 & _ & H); by apply gret_ret in H as [? _]. }
  destruct pki_file as [pki0|e]; [|by apply gret_ret in H as [? _]].
  destruct (ReadPKI pki0) as [pki|e]; [|by apply gret_ret in H as [? _]].
  destruct conf_file as [conf|e]; [|by apply gret_ret in H as [? _]].
  destruct (decide _), (cc_MyPublicKey conf), (cc_MyPrivateKey conf); try (by apply gret_ret in H as [? _]).
  apply gbind_ret in H as (g1 & s2 & [= <- <-] & H). apply gret_ret in H as [[= ->] _]. eauto.
Qed.

Lemma gui_Run_selected (a a1 : app (R := R)) u :
  gui_Run a = Ret (u, a1) -> is_Some (pki_People (gc_pki a) !! gc_myName a) -> selected_ok a1.
Proof.
  unfold gui_Run. intros H Hn. apply gbind_ret in H as (u1 & b1 & [= _ <-] & H).
  apply gbind_ret in H as (b & b2 & [= <- <-] & H). apply gbind_ret in H as (u2 & b3 & Hs & H).
  destruct (switch_selected _ _ _ _ Hs) as (h & ? & ?); [right; left; exact Hn|]. injection H as _ <-. by exists h.
Qed.

Lemma layout_draws latency_text SetView SetCurrentView (a : app (R := R)) : selected_ok a ->
  exists res a', layout latency_text SetView SetCurrentView a = Ret (res, a') /\
    ((forall v, SetView v = None) -> SetCurrentView = None ->
     exists scr h c, res = Ok scr /\ a' = set_gui (open_main (gc_gui a)) a /\
       gc_selectedConvo a = Some h /\ gc_conversations a !! h = Some c /\
       sc_partner scr = (if Solo c then "(no partner)>" else c_peerName c +:+ ">")).
Proof.
  intros (h & Hs & [c Hc]). unfold layout.
  destruct (SetView "main") eqn:E1; [eexists _, _; split; [reflexivity|]; intros Hv; by rewrite Hv in E1|].
  unfold gbind, put_app, get_app, gget. cbn beta iota.
  destruct (SetView "status") eqn:E2; [eexists _, _; split; [reflexivity|]; intros Hv; by rewrite Hv in E2|].
  cbn [set_gui gc_selectedConvo gc_conversations]. rewrite Hs. cbn [mbind option_bind]. rewrite Hc.
  destruct (SetView "partner") eqn:E3; [eexists _, _; split; [reflexivity|]; intros Hv; by rewrite Hv in E3|].
  destruct (SetView "input") eqn:E4; [eexists _, _; split; [reflexivity|]; intros Hv; by rewrite Hv in E4|].
  destruct SetCurrentView; [by eexists _, _|]. eexists _, _. split; [reflexivity|]. intros _ _. eexists _, h, c.
  split_and!; [done..|]. cbn. by destruct (Solo c).
Qed.

(** C34. The client's screen: a user who is listed in the PKI under the configured
    name always has a screen. After [main] and [Run] and any history of typed lines,
    connections and server messages, [layout] returns, and on a terminal where the views
    can be placed it draws and shows the partner of the selected conversation. A user who
    is not listed crashes at the first drawing that places the main view and the status
    line, before any line can be typed. *)
Theorem client_draws confPath doInit zone pki_file conf_file g a0 g' (u : unit) a1 latency_text SetView SetCurrentView :
  client_main confPath doInit zone pki_file conf_file g = Ret (ClientRuns a0, g') -> gui_Run a0 = Ret (u, a1) ->
  match pki_People (gc_pki a0) !! gc_myName a0 with
  | Some _ => forall events outs a started, go_map (app_do Quote Sprintf0 pkiPath) events (a1, []) = Ret (outs, (a, started)) ->
      exists res a', layout latency_text SetView SetCurrentView a = Ret (res, a') /\
        ((forall v, SetView v = None) -> SetCurrentView = None ->
         exists scr h c, res = Ok scr /\ gc_selectedConvo a = Some h /\ gc_conversations a !! h = Some c /\
           sc_partner scr = (if Solo c then "(no partner)>" else c_peerName c +:+ ">"))
  | None => SetView "main" = None -> SetView "status" = None ->
      layout latency_text SetView SetCurrentView a1 = Panic nil_panic
  end.
Proof.
  intros (pki & name & pk & sk & ->)%client_main_runs Hrun.
  destruct (pki_People (gc_pki (new_GuiClient pki name pk sk zone g)) !! gc_myName (new_GuiClient pki name pk sk zone g)) as [k|] eqn:Ek.
  - intros events outs a started Hev. pose proof (gui_Run_selected _ _ _ Hrun ltac:(by rewrite Ek)) as H1.
    pose proof (keeping_run _ _ (a1, []) _ _ (keep_events events) H1 Hev) as Ha.
    destruct (layout_draws latency_text SetView SetCurrentView a Ha) as (res & a' & Hl & Hp). exists res, a'.
    split; [done|]. intros Hv Hc. destruct (Hp Hv Hc) as (scr & h & c & ? & _ & ? & ? & ?). by exists scr, h, c.
  - cbn in Ek. unfold gui_Run, switchConversation, gbind, put_app, get_app, gget in Hrun. cbn in Hrun.
    rewrite lookup_empty in Hrun. rewrite Ek in Hrun. injection Hrun as _ <-. intros E1 E2. unfold layout. rewrite E1, E2. reflexivity.
Qed.

(** The goroutine of [Run] announces a connection also when there is none. *)
Lemma connect_later_announces dialed (a a1 : app (R := R)) e text :
  gui_Connect dialed a = Ret (Err e, a1) -> main_view (gc_gui a1) = Some text ->
  exists a2, connect_later dialed a = Ret (tt, a2) /\
    main_view (gc_gui a2) = Some ((text ++ str "-!- " ++ str ("Failed to connect: " +:+ e) ++ [x0a])
                                  ++ str "-!- " ++ str ("Connected: " +:+ pki_EntryServer (gc_pki a1)) ++ [x0a]).
Proof.
  intros Hc Hv. unfold connect_later. rewrite (gbind_eq _ _ _ _ _ Hc). eexists. split; [reflexivity|].
  cbn. by rewrite Hv.
Qed.

End Client.

Module ClientToy.
Import ConvoChain.Toy AppToy.

Definition my_conf (name : string) : ClientConf :=
  mkClientConf name (Some (replicate 32 x07)) (Some (replicate 32 x07)).

Definition started_app (name : string) : app (R := unit) :=
  match client_main "client.conf" false (fun _ => 0) (Ok my_pki) (Ok (my_conf name)) tt with
  | Ret (ClientRuns a, _) => a
  | _ => blank
  end.
Definition running_app (name : string) : app (R := unit) :=
  match gui_Run (started_app name) with Ret (_, a) => a | _ => blank end.

Lemma starts name :
  match client_main (R := unit) "client.conf" false (fun _ => 0) (Ok my_pki) (Ok (my_conf name)) tt with Ret (ClientRuns _, _) => true | _ => false end = true ->
  client_main "client.conf" false (fun _ => 0) (Ok my_pki) (Ok (my_conf name)) tt = Ret (ClientRuns (started_app name), tt).
Proof. unfold started_app. by destruct (client_main _ _ _ _ _ _) as [[[m|p c|a] []]| | |]. Qed.

Lemma runs name :
  match gui_Run (started_app name) with Ret _ => true | _ => false end = true ->
  gui_Run (started_app name) = Ret (tt, running_app name).
Proof. unfold running_app. by destruct (gui_Run (started_app name)) as [[[] a]| | |]. Qed.

Lemma me_runs : match gui_Run (started_app "me") with Ret _ => true | _ => false end = true.
Proof. vm_compute. reflexivity. Qed.
Lemma eve_runs : match gui_Run (started_app "eve") with Ret _ => true | _ => false end = true.
Proof. vm_compute. reflexivity. Qed.

(** One user is listed in the PKI, the other is not. *)
Lemma client_draws_witness :
  (exists scr a', layout (fun _ => "") (fun _ => None) None (running_app "me") = Ret (Ok scr, a')) /\
  layout (fun _ => "") (fun _ => None) None (running_app "eve") = Panic nil_panic.
Proof.
  split.
  - pose proof (client_draws no_quote no_quote "pki.conf" _ _ _ _ _ _ _ _ _ _ (fun _ => "") (fun _ => None) None
      (starts "me" eq_refl) (runs "me" me_runs)) as H.
    destruct (pki_People (gc_pki (started_app "me")) !! gc_myName (started_app "me")) as [k|] eqn:E; [|vm_compute in E; discriminate E].
    destruct (H [] [] (running_app "me") [] eq_refl) as (res & a' & Hl & Hp).
    destruct (Hp (fun _ => eq_refl) eq_refl) as (scr & h & c & Hr & _). exists scr, a'. rewrite <- Hr. exact Hl.
  - pose proof (client_draws no_quote no_quote "pki.conf" _ _ _ _ _ _ _ _ _ _ (fun _ => "") (fun _ => None) None
      (starts "eve" eq_refl) (runs "eve" eve_runs)) as H.
    destruct (pki_People (gc_pki (started_app "eve")) !! gc_myName (started_app "eve")) as [k|] eqn:E; [vm_compute in E; discriminate E|].
    exact (H eq_refl eq_refl).
Defined.

End ClientToy.
