(* ===== verification/Histogram.v ===== *)
(** * Histogram: the display of the last server

    Models [vuvuzela-server/histogram.go]: the last server shows how many dead drops
    were accessed once and twice in each of the last 512 rounds. The terminal library
    is reduced to the fields the code sets and the data it hands over; the size of the
    terminal and the events come from outside. *)

From stdpp Require Import numbers strings gmap list.
From S2P Require Import Prelude Binary Wire Rand Shuffle Parallel OnionBox Pki Noise Laplace Vrpc Convo.

(** The fields of a [termui.Sparklines] the code uses, with its one line. *)
Record Sparklines := mkSparklines {
  sp_X : Z;
  sp_Y : Z;
  sp_Width : Z;
  sp_Height : Z;
  sp_Label : string;
  sp_LineHeight : Z;
  sp_Data : list Z;
}.

Record Histogram := mkHistogram {
  hg_Mu : float64;
  hg_NumServers : Z;
  hg_singles : list Z;
  hg_doubles : list Z;
  hg_normalizedSingles : list Z;
  hg_normalizedDoubles : list Z;
  hg_spSingles : Sparklines;
  hg_spDoubles : Sparklines;
}.

Definition set_size (tw th y : Z) (sp : Sparklines) : Sparklines :=
  mkSparklines (sp_X sp) y tw th (sp_Label sp) (if decide (3 < th) then i64 (th - 3) else 1) (sp_Data sp).
Definition set_data (data : list Z) (sp : Sparklines) : Sparklines :=
  mkSparklines (sp_X sp) (sp_Y sp) (sp_Width sp) (sp_Height sp) (sp_Label sp) (sp_LineHeight sp) data.

(** One bar: 0 stays 0, everything else is shifted but never shown as less than 2. *)
Definition normalize (shift s : Z) : Z :=
  if decide (s = 0) then 0
  else let n := i64 (s - shift) in if decide (2 < n) then n else 2.

Section Run.
Context `{FloatEnv}.

Definition singleShift (h : Histogram) : Z :=
  i64 ((hg_NumServers h - 1) * int_of_float (hg_Mu h) - sp_Height (hg_spSingles h) - 32).
Definition doubleShift (h : Histogram) : Z :=
  i64 ((hg_NumServers h - 1) * int_of_float (fdiv (hg_Mu h) ftwo) - sp_Height (hg_spDoubles h) - 16).

(** One iteration of the loop of [render], on the two normalized slices. *)
Definition render_bar (h : Histogram) (i : Z) (ns : list Z * list Z) : outcome (list Z * list Z) :=
  s ← go_index (hg_singles h) i;
  ns1 ← go_store ns.1 i (normalize (singleShift h) s);
  d ← go_index (hg_doubles h) i;
  ns2 ← go_store ns.2 i (normalize (doubleShift h) d);
  Ret (ns1, ns2).

(** [render]: the normalized slices are filled and become the data of the two lines. *)
Definition render (h : Histogram) : outcome Histogram :=
  ns ← go_for (render_bar h) (seqZ 0 (zlen (hg_singles h))) (hg_normalizedSingles h, hg_normalizedDoubles h);
  Ret (mkHistogram (hg_Mu h) (hg_NumServers h) (hg_singles h) (hg_doubles h) ns.1 ns.2
         (set_data ns.1 (hg_spSingles h)) (set_data ns.2 (hg_spDoubles h))).

(** [resize] on a terminal of [w] columns and [t] rows. *)
Definition resize (w t : Z) (h : Histogram) : outcome Histogram :=
  let tw := i64 (w - 4) in
  let th := i64 (Z.quot t 2 - 1) in
  render (mkHistogram (hg_Mu h) (hg_NumServers h) (hg_singles h) (hg_doubles h)
            (hg_normalizedSingles h) (hg_normalizedDoubles h)
            (set_size tw th (sp_Y (hg_spSingles h)) (hg_spSingles h))
            (set_size tw th (i64 (th + 2)) (hg_spDoubles h))).

(** The state [run] sets up before the first [resize]. [initialized] is what
    [termui.Init] returned; an error is a panic. Colours and the log level are left out. *)
Definition run_init (initialized : result unit) (mu : float64) (numServers : Z) : outcome Histogram :=
  let zeros := replicate 512 0 in
  match initialized with
  | Err e => Panic e
  | Ok _ =>
      Ret (mkHistogram mu numServers zeros zeros zeros zeros
             (mkSparklines 2 1 0 0 "Idle Users" 0 zeros) (mkSparklines 2 0 0 0 "Active Users" 0 zeros))
  end.

(** What the [select] of [run] receives. *)
Inductive event :=
| EvKey (Ch : Z) (ctrlC : bool)
| EvResize (w t : Z)
| EvOther
| EvCount (a : AccessCount).

Inductive running := Running (h : Histogram) | Returned (h : Histogram) | Exited.

(** [append(l[1:], x)] *)
Definition slide (l : list Z) (x : Z) : outcome (list Z) :=
  t ← go_slice l 1 (zlen l);
  Ret (t ++ [x]).

(** One turn of the loop; ['q'] is 113. *)
Definition run_event (e : event) (h : Histogram) : outcome running :=
  match e with
  | EvKey Ch ctrlC =>
      if decide (Ch = 113) then Ret (Returned h) else if ctrlC then Ret Exited else Ret (Running h)
  | EvResize w t => h' ← resize w t h; Ret (Running h')
  | EvOther => Ret (Running h)
  | EvCount a =>
      singles ← slide (hg_singles h) (ac_Singles a);
      doubles ← slide (hg_doubles h) (ac_Doubles a);
      h' ← render (mkHistogram (hg_Mu h) (hg_NumServers h) singles doubles (hg_normalizedSingles h)
                     (hg_normalizedDoubles h) (hg_spSingles h) (hg_spDoubles h));
      Ret (Running h')
  end.

Fixpoint run_loop (events : list event) (h : Histogram) : outcome running :=
  match events with
  | [] => Ret (Running h)
  | e :: events' =>
      r ← run_event e h;
      match r with Running h' => run_loop events' h' | _ => Ret r end
  end.

Definition run (initialized : result unit) (mu : float64) (numServers w t : Z) (events : list event) : outcome running :=
  h0 ← run_init initialized mu numServers;
  h ← resize w t h0;
  run_loop events h.

(** ** What is shown *)

(** The last 512 of a list of counts, with zeros before the first. *)
Definition window (counts : list Z) : list Z := drop (length counts) (replicate 512 0 ++ counts).

Definition singles_of (events : list event) : list Z :=
  omap (fun e => match e with EvCount a => Some (ac_Singles a) | _ => None end) events.
Definition doubles_of (events : list event) : list Z :=
  omap (fun e => match e with EvCount a => Some (ac_Doubles a) | _ => None end) events.

(** An event that ends [run]. *)
Definition stops (e : event) : bool :=
  match e with EvKey Ch ctrlC => bool_decide (Ch = 113) || ctrlC | _ => false end.

Record shows (singles doubles : list Z) (h : Histogram) : Prop := {
  sh_singles : hg_singles h = window singles;
  sh_doubles : hg_doubles h = window doubles;
  sh_lens : length (hg_normalizedSingles h) = 512%nat /\ length (hg_normalizedDoubles h) = 512%nat;
  sh_line1 : sp_Data (hg_spSingles h) = normalize (singleShift h) <$> window singles;
  sh_line2 : sp_Data (hg_spDoubles h) = normalize (doubleShift h) <$> window doubles;
}.

Lemma window_length l : length (window l) = 512%nat.
Proof. unfold window. rewrite length_drop, length_app, length_replicate. lia. Qed.

Lemma slide_window l x : slide (window l) x = Ret (window (l ++ [x])).
Proof.
  unfold slide, go_slice. unfold zlen. rewrite window_length. rewrite decide_True by lia. cbn [mbind outcome_bind].
  f_equal. rewrite take_ge by (rewrite length_drop, window_length; lia).
  unfold window. rewrite drop_drop, length_app. cbn [length]. change (Z.to_nat 1) with 1%nat.
  rewrite app_assoc, (drop_app_le (replicate 512 0 ++ l)); [done|]. rewrite length_app, length_replicate. lia.
Qed.

(** One more bar of a slice filled up to [k]. *)
Lemma fill_next (f : Z -> Z) (l ns : list Z) (k : nat) s :
  l !! k = Some s -> (k < length ns)%nat ->
  <[k := f s]> ((f <$> take k l) ++ drop k ns) = (f <$> take (S k) l) ++ drop (S k) ns.
Proof.
  intros Hs Hk. assert (length (f <$> take k l) = k) as Hl.
  { apply lookup_lt_Some in Hs. rewrite length_fmap, length_take. lia. }
  rewrite insert_app_r_alt, Hl, Nat.sub_diag by lia. rewrite (take_S_r _ _ _ Hs), fmap_app, <- app_assoc. f_equal.
  destruct (lookup_lt_is_Some_2 ns k) as [y Hy]; [lia|]. by rewrite (drop_S _ _ _ Hy).
Qed.

(** The loop of [render] on the first [k] bars. *)
Lemma render_bars h (k : nat) (ns1 ns2 : list Z) :
  length (hg_singles h) = 512%nat -> length (hg_doubles h) = 512%nat -> (k <= 512)%nat ->
  length ns1 = 512%nat -> length ns2 = 512%nat ->
  go_for (render_bar h) (seqZ 0 (Z.of_nat k)) (ns1, ns2) =
  Ret ((normalize (singleShift h) <$> take k (hg_singles h)) ++ drop k ns1,
       (normalize (doubleShift h) <$> take k (hg_doubles h)) ++ drop k ns2).
Proof.
  intros H1 H2 Hk Hn1 Hn2. induction k as [|k IH]; [done|].
  replace (Z.of_nat (S k)) with (Z.of_nat k + 1) by lia. rewrite seqZ_app by lia. rewrite go_for_app, IH by lia.
  cbn [mbind outcome_bind seqZ]. change (seqZ (0 + Z.of_nat k) 1) with [0 + Z.of_nat k]. cbn [go_for].
  destruct (lookup_lt_is_Some_2 (hg_singles h) k) as [s Hs]; [lia|].
  destruct (lookup_lt_is_Some_2 (hg_doubles h) k) as [d Hd]; [lia|].
  assert (forall l (ns : list Z) f s0, l !! k = Some s0 -> length l = 512%nat -> length ns = 512%nat ->
    go_store ((normalize f <$> take k l) ++ drop k ns) (0 + Z.of_nat k) (normalize f s0) =
    Ret ((normalize f <$> take (S k) l) ++ drop (S k) ns)) as Hstore.
  { intros l ns f s0 Hl0 Hl Hns. apply go_store_ret. split.
    - unfold zlen. rewrite length_app, length_fmap, length_take, length_drop. lia.
    - replace (Z.to_nat (0 + Z.of_nat k)) with k by lia. symmetry. apply fill_next; [done|lia]. }
  unfold render_bar. cbn [fst snd]. rewrite !Z.add_0_l. rewrite (go_index_lookup _ _ _ Hs), (go_index_lookup _ _ _ Hd).
  cbn [mbind outcome_bind]. rewrite <- (Z.add_0_l (Z.of_nat k)), !Hstore by done. done.
Qed.

Lemma render_shows singles doubles h :
  hg_singles h = window singles -> hg_doubles h = window doubles ->
  length (hg_normalizedSingles h) = 512%nat -> length (hg_normalizedDoubles h) = 512%nat ->
  exists h', render h = Ret h' /\ shows singles doubles h' /\
    sp_Height (hg_spSingles h') = sp_Height (hg_spSingles h).
Proof.
  intros Hs Hd H1 H2. unfold render.
  assert (length (hg_singles h) = 512%nat) as Hl1 by (rewrite Hs; apply window_length).
  assert (length (hg_doubles h) = 512%nat) as Hl2 by (rewrite Hd; apply window_length).
  unfold zlen. rewrite (render_bars h (length (hg_singles h))) by lia. cbn [mbind outcome_bind fst snd].
  eexists. split; [reflexivity|]. split; [|done].
  rewrite take_ge, drop_ge, (take_ge (hg_doubles h)), (drop_ge (hg_normalizedDoubles h)), !app_nil_r by lia.
  split; cbn; [done|done| |by rewrite Hs|by rewrite Hd]. by rewrite !length_fmap.
Qed.

Lemma run_event_shows e singles doubles h :
  stops e = false -> shows singles doubles h ->
  exists h', run_event e h = Ret (Running h') /\ shows (singles ++ singles_of [e]) (doubles ++ doubles_of [e]) h'.
Proof.
  intros He Hsh. pose proof Hsh as [Hs Hd [H1 H2] _ _].
  destruct e as [Ch cc|w t| |a]; cbn [run_event singles_of doubles_of omap list_omap]; rewrite ?app_nil_r.
  - cbn in He. apply orb_false_iff in He as [Hq ->]. apply bool_decide_eq_false in Hq. rewrite decide_False by done. eauto.
  - unfold resize. match goal with |- context [render ?x] => destruct (render_shows singles doubles x) as (h' & Hr & Hsh' & _) end;
      [done..|]. rewrite Hr. cbn [mbind outcome_bind]. eauto.
  - eauto.
  - rewrite Hs, Hd, !slide_window. cbn [mbind outcome_bind].
    match goal with |- context [render ?x] => destruct (render_shows (singles ++ [ac_Singles a]) (doubles ++ [ac_Doubles a]) x)
      as (h' & Hr & Hsh' & _) end; [done..|]. rewrite Hr. cbn [mbind outcome_bind]. eauto.
Qed.

Lemma normalize_bar shift s : (normalize shift s = 0 <-> s = 0) /\ (s <> 0 -> 2 <= normalize shift s).
Proof. unfold normalize. repeat case_decide; lia. Qed.

(** C35. The display of the last server follows the rounds: whatever the terminal
    size, the resizes and the other events, once the terminal is initialized and until
    a key ends it, the histogram never fails; its two lines have exactly 512 bars, for
    the last 512 rounds in order, with zeros before the first round; and a bar is 0
    only for a count of 0 and otherwise at least 2. When the terminal cannot be
    initialized the process panics. *)
Theorem histogram_shows_last_rounds (mu : float64) (numServers w t : Z) (events : list event) :
  Forall (fun e => stops e = false) events ->
  (forall e, run (Err e) mu numServers w t events = Panic e) /\
  exists h, run (Ok tt) mu numServers w t events = Ret (Running h) /\
    hg_singles h = window (singles_of events) /\ hg_doubles h = window (doubles_of events) /\
    sp_Data (hg_spSingles h) = normalize (singleShift h) <$> window (singles_of events) /\
    sp_Data (hg_spDoubles h) = normalize (doubleShift h) <$> window (doubles_of events) /\
    length (sp_Data (hg_spSingles h)) = 512%nat /\ length (sp_Data (hg_spDoubles h)) = 512%nat /\
    (forall i s bar, window (singles_of events) !! i = Some s -> sp_Data (hg_spSingles h) !! i = Some bar ->
       (bar = 0 <-> s = 0) /\ (s <> 0 -> 2 <= bar)) /\
    (forall i s bar, window (doubles_of events) !! i = Some s -> sp_Data (hg_spDoubles h) !! i = Some bar ->
       (bar = 0 <-> s = 0) /\ (s <> 0 -> 2 <= bar)).
Proof.
  intros Hev. split; [done|]. unfold run, run_init, resize. cbn [mbind outcome_bind].
  match goal with |- context [render ?x] => destruct (render_shows [] [] x) as (h0 & Hr & Hsh & _) end; [done..|].
  rewrite Hr. cbn [mbind outcome_bind]. clear Hr.
  cut (exists h, run_loop events h0 = Ret (Running h) /\ shows ([] ++ singles_of events) ([] ++ doubles_of events) h).
  { cbn [app]. intros (h & Hrun & [Hs Hd _ Hl1 Hl2]). exists h. rewrite Hl1, Hl2, !length_fmap, !window_length.
    split_and!; [done..| |]; intros i s bar Hi; rewrite list_lookup_fmap, Hi; intros [= <-]; apply normalize_bar. }
  clear w t. revert h0 Hsh. generalize (@nil Z) at 1 3. generalize (@nil Z).
  induction Hev as [|e events He Hev IH]; intros doubles singles h0 Hsh; cbn [run_loop].
  - exists h0. split; [done|]. cbn. by rewrite !app_nil_r.
  - destruct (run_event_shows e singles doubles h0 He Hsh) as (h1 & H1 & Hsh1). rewrite H1. cbn [mbind outcome_bind].
    destruct (IH _ _ _ Hsh1) as (h2 & H2 & Hsh2). exists h2. split; [done|].
    rewrite <- !app_assoc in Hsh2. unfold singles_of, doubles_of in *. by rewrite <- !omap_app in Hsh2.
Qed.

End Run.

Module HistogramToy.
#[local] Existing Instance toy_float.

Lemma histogram_shows_last_rounds_witness :
  exists h, run (Ok tt) (float_of_Z 10) 3 80 24 [EvCount (mkAccessCount 40 7); EvResize 100 40; EvCount (mkAccessCount 0 9)] =
    Ret (Running h) /\ hg_singles h = window [40; 0].
Proof.
  destruct (histogram_shows_last_rounds (float_of_Z 10) 3 80 24
    [EvCount (mkAccessCount 40 7); EvResize 100 40; EvCount (mkAccessCount 0 9)]) as (_ & h & H1 & H2 & _).
  - repeat constructor.
  - exists h. split; [exact H1|exact H2].
Defined.

End HistogramToy.
