(* ===== verification/MixServer.v ===== *)
(** * MixServer: the process of a mix server

    Models [vuvuzela-server/server.go]: the configuration file, [main], and the
    process [main] leaves running, in which the conversation service and the dialing
    service answer RPC calls and share one lock [Idle], one client of the next server
    and one source of random bytes.

    The two services hold pointers to the same mutex and client. [mix] keeps these
    once; a call loads them into the record of the service it is for and stores them
    back. *)

From stdpp Require Import numbers strings pretty gmap relations list.
From Stdlib Require Import Strings.Byte SpecFloat.
From S2P Require Import Prelude Binary Wire Rand Shuffle Parallel OnionBox Pki Noise Laplace Vrpc Convo DeadDrops ConvoRounds ConvoChain Dial DialChain EntryApi Json BoxKeys.

(** ** Configuration *)

Record Conf := mkConf {
  cf_ServerName : string;
  cf_PublicKey : option BoxKey;
  cf_PrivateKey : option BoxKey;
  cf_ListenAddr : string;
  cf_DebugAddr : string;
  cf_ConvoMu : float64;
  cf_ConvoB : float64;
  cf_DialMu : float64;
  cf_DialB : float64;
}.

Definition DefaultServerAddr : string := ":2718".

(** ** The process *)

Record mix (C R : Type) := mkMix {
  mx_convo : ConvoService C;
  mx_dial : DialService C;
  mx_idle : bool;
  mx_client : C;
  mx_rand : R;
}.
Arguments mkMix {C R}. Arguments mx_convo {C R}. Arguments mx_dial {C R}.
Arguments mx_idle {C R}. Arguments mx_client {C R}. Arguments mx_rand {C R}.

(** A client may be nil; every method on it then panics. *)
Definition on_nil {C A} (f : GoM C A) : GoM (option C) A := fun c =>
  match c with
  | None => Panic nil_panic
  | Some c => gzoom (fun _ => c) (fun c _ => Some c) f (Some c)
  end.

#[export] Instance nilable_convo {C} `{ConvoRemote C} : ConvoRemote (option C) := {|
  rpc_NewRound r := on_nil (rpc_NewRound r);
  rpc_Open a := on_nil (rpc_Open a);
  rpc_Add a := on_nil (rpc_Add a);
  rpc_Close r := on_nil (rpc_Close r);
  rpc_Get a := on_nil (rpc_Get a);
  rpc_Delete r := on_nil (rpc_Delete r);
|}.

#[export] Instance nilable_dial {C} `{DialRemote C} : DialRemote (option C) := {|
  rpc_DialNewRound r := on_nil (rpc_DialNewRound r);
  rpc_DialAdd a := on_nil (rpc_DialAdd a);
  rpc_DialClose r := on_nil (rpc_DialClose r);
|}.

Section Process.
Context {C R : Type} `{HF : Fuel, HR : Reader R, HB : Box, HK : !KeyGen R, HE : FloatEnv,
  HC : ConvoRemote C, HD : DialRemote C}.

Definition convo_view (m : mix C R) : cstate C R :=
  (set_Client (mx_client m) (set_Idle (mx_idle m) (mx_convo m)), mx_rand m).
Definition dial_view (m : mix C R) : dstate C R :=
  (ds_set_Client (mx_client m) (ds_set_Idle (mx_idle m) (mx_dial m)), mx_rand m).

Definition convo_store (s : cstate C R) (m : mix C R) : mix C R :=
  mkMix s.1 (mx_dial m) (cs_Idle s.1) (cs_Client s.1) s.2.
Definition dial_store (s : dstate C R) (m : mix C R) : mix C R :=
  mkMix (mx_convo m) s.1 (ds_Idle s.1) (ds_Client s.1) s.2.

Definition on_convo {A} : GoM (cstate C R) A -> GoM (mix C R) A := gzoom convo_view convo_store.
Definition on_dial {A} : GoM (dstate C R) A -> GoM (mix C R) A := gzoom dial_view dial_store.

(** [rpc.Register(dialService)], [rpc.Register(convoService)]: the process answers
    the calls to both. *)
#[export] Instance mix_convo_remote : ConvoRemote (mix C R) := {|
  rpc_NewRound r := on_convo (NewRound r);
  rpc_Open a := on_convo (Open a);
  rpc_Add a := on_convo (Add a);
  rpc_Close r := on_convo (Close r);
  rpc_Get a := on_convo (Get a);
  rpc_Delete r := on_convo (Delete r);
|}.

#[export] Instance mix_dial_remote : DialRemote (mix C R) := {|
  rpc_DialNewRound r := on_dial (Dial_NewRound r);
  rpc_DialAdd a := on_dial (Dial_Add a);
  rpc_DialClose r := on_dial (Dial_Close r);
|}.

End Process.

(** ** main *)

(** How [main] ends: the process exits with a message, or has written a file, or
    serves. [h_Mu] and [h_NumServers] are the fields [main] gives the histogram. *)
Record histogram_args := mkHistogramArgs { h_Mu : float64; h_NumServers : Z }.

Inductive started (M : Type) :=
| Fatal (msg : string)
| Wrote (path : string) (conf : Conf)
| Serves (ListenAddr : string) (DebugAddr : option string) (histogram : option histogram_args) (m : M).
Arguments Fatal {M}. Arguments Wrote {M}. Arguments Serves {M}.

Section Main.
Context {C R : Type} `{HK : KeyGen R}.

Definition zero_float : float64 := S754_zero false.

Definition WriteDefaultConf (path : string) : GoM R (started (mix (option C) R)) :=
  (let! kp := GenerateBoxKey in
   match kp with
   | Err e => gret (Fatal ("GenerateKey: " +:+ e))
   | Ok (myPublicKey, myPrivateKey) =>
       gret (Wrote path (mkConf "mit" (Some myPublicKey) (Some myPrivateKey) "" ""
                           zero_float zero_float zero_float zero_float))
   end)%go.

Definition is_nil {A} (o : option A) : bool := match o with None => true | Some _ => false end.

(** The two services of [main]. *)
Definition services (pki : PKI) (conf : Conf) (privateKey : BoxKey) (convoMu : float64) (client : option C)
    (g : R) : mix (option C) R :=
  mkMix
    (InitConvoService (mkConvoService ∅ false convoMu (cf_ConvoB conf) pki (cf_ServerName conf) privateKey
                         client (is_nil client) []))
    (InitDialService (mkDialService ∅ false (cf_DialMu conf) (cf_DialB conf) pki (cf_ServerName conf) privateKey
                        client (is_nil client)))
    false client g.

(** [muOverride >= 0] *)
Definition override_mu (muOverride : float64) (conf : Conf) : float64 :=
  if SFleb zero_float muOverride then muOverride else cf_ConvoMu conf.

(** [pki_file] and [conf_file]: the two files, decoded; [connect addr]:
    [vrpc.Dial("tcp", addr, runtime.NumCPU())]. *)
Definition main (confPath : string) (doInit : bool) (muOverride : float64)
    (pki_file : result PKI) (conf_file : result Conf) (connect : string -> result C)
    : GoM R (started (mix (option C) R)) :=
  (if decide (confPath = "") then gret (Fatal "must specify -conf flag")
   else if doInit then WriteDefaultConf confPath
   else
     match pki_file with
     | Err e => gret (Fatal e)
     | Ok pki0 =>
     match ReadPKI pki0 with
     | Err e => gret (Fatal e)
     | Ok pki =>
     match conf_file with
     | Err e => gret (Fatal e)
     | Ok conf =>
     match decide (cf_ServerName conf = ""), cf_PublicKey conf, cf_PrivateKey conf with
     | right _, Some _, Some privateKey =>
       let convoMu := override_mu muOverride conf in
       let! addr := glift (NextServer pki (cf_ServerName conf)) in
       match (if decide (addr = "") then Ok None
              else match connect addr with Ok c => Ok (Some c) | Err e => Err e end) with
       | Err e => gret (Fatal ("vrpc.Dial: " +:+ e))
       | Ok client =>
         let! g := gget in
         gret (Serves
           (if decide (cf_ListenAddr conf = "") then DefaultServerAddr else cf_ListenAddr conf)
           (if decide (cf_DebugAddr conf = "") then None else Some (cf_DebugAddr conf))
           (if is_nil client then Some (mkHistogramArgs convoMu (zlen (pki_ServerOrder pki))) else None)
           (services pki conf privateKey convoMu client g))
       end
     | _, _, _ => gret (Fatal ("missing required fields: " +:+ confPath))
     end
     end
     end
     end)%go.

End Main.

(** ** What [main] sets up *)

Section Wiring.
Context {C R : Type} `{HF : Fuel, HR : Reader R, HFR : !FullReader R, HB : Box, HL : !BoxLaws, HK : !KeyGen R,
  HE : FloatEnv, HC : ConvoRemote C, HD : DialRemote C}.

Lemma main_serves confPath doInit mu pki_file conf_file (connect : string -> result C) g l d h m g' :
  main confPath doInit mu pki_file conf_file connect g = Ret (Serves l d h m, g') ->
  cs_rounds (mx_convo m) = ∅ /\ ds_rounds (mx_dial m) = ∅ /\ mx_idle m = false.
Proof.
  unfold main, WriteDefaultConf. intros H. case_decide; [by apply gret_ret in H as [? _]|]. destruct doInit.
  { apply gbind_ret in H as ([[pk sk]|e] & s1 & _ & H); by apply gret_ret in H as [? _]. }
  destruct pki_file as [pki0|e]; [|by apply gret_ret in H as [? _]].
  destruct (ReadPKI pki0) as [pki|e]; [|by apply gret_ret in H as [? _]].
  destruct conf_file as [conf|e]; [|by apply gret_ret in H as [? _]].
  destruct (decide _), (cf_PublicKey conf), (cf_PrivateKey conf); try (by apply gret_ret in H as [? _]).
  apply gbind_ret in H as (addr & s1 & [_ ->]%glift_ret & H).
  destruct (if decide (addr = "") then _ else _) as [client|e]; [|by apply gret_ret in H as [? _]].
  apply gbind_ret in H as (g1 & s2 & _ & H). apply gret_ret in H as [[= _ _ _ ->] _]. done.
Qed.

Lemma main_runs (cap : Z) (kps : list (BoxKey * BoxKey)) (j : nat) confPath mu pki0 pki conf pk pk' sk
    (connect : string -> result C) (g : R) :
  confPath <> "" -> pki_wf pki0 (fst <$> kps) -> ReadPKI pki0 = Ok pki -> Forall (fun k => keypair k.1 k.2) kps ->
  cf_ServerName conf <> "" -> pki_ServerOrder pki0 !! j = Some (cf_ServerName conf) ->
  kps !! j = Some (pk, sk) -> cf_PrivateKey conf = Some sk -> cf_PublicKey conf = Some pk' ->
  noise_live (R := R) cap (override_mu mu conf) (cf_ConvoB conf) ->
  noise_live (R := R) cap (cf_DialMu conf) (cf_DialB conf) ->
  (forall s info, pki_ServerOrder pki !! S j = Some s -> pki_Servers pki !! s = Some info ->
     exists c, connect (si_Address info) = Ok c) ->
  exists l d h m, main confPath false mu (Ok pki0) (Ok conf) connect g = Ret (Serves l d h m, g) /\
    server_cfg R cap (drop j kps) (convo_view m).1 /\ dial_cfg R cap (drop j kps) (dial_view m).1 /\
    cs_rounds (mx_convo m) = ∅ /\ ds_rounds (mx_dial m) = ∅ /\ mx_idle m = false /\ mx_rand m = g /\
    match pki_ServerOrder pki !! S j with
    | None => mx_client m = None /\ h = Some (mkHistogramArgs (override_mu mu conf) (zlen kps))
    | Some s => h = None /\ exists info c, pki_Servers pki !! s = Some info /\
                  connect (si_Address info) = Ok c /\ mx_client m = Some c
    end.
Proof.
  intros Hp Hwf Hread Hkp Hname Hj Hk Hsk Hpk Hn1 Hn2 Hconn.
  destruct (ReadPKI_wf _ _ _ Hwf Hread) as (Hwf' & Hord & Haddr).
  pose proof Hwf' as (_ & Hnd & Hkeys). pose proof (pki_keys_length _ _ Hkeys) as Hlen. rewrite length_fmap in Hlen.
  assert (pki_ServerOrder pki !! j = Some (cf_ServerName conf)) as Hj' by (by rewrite Hord).
  rewrite <- Hord in Haddr. pose proof (NextServer_next _ _ _ Hnd Hj' Haddr) as Hnext.
  assert (forall client, is_nil (A := C) client = bool_decide (S j = length kps) ->
    server_cfg R cap (drop j kps) (convo_view (services pki conf sk (override_mu mu conf) client g)).1 /\
    dial_cfg R cap (drop j kps) (dial_view (services pki conf sk (override_mu mu conf) client g)).1) as Hcfg.
  { intros client Hnil. split; [by eapply server_cfg_pki|by eapply dial_cfg_pki]. }
  unfold main. rewrite (decide_False (P := confPath = "")), Hread by done.
  destruct (decide (cf_ServerName conf = "")); [done|]. rewrite Hpk, Hsk. destruct (pki_ServerOrder pki !! S j) as [s|] eqn:Es.
  - destruct Hnext as (info & Hi & Ha & Hnx). rewrite Hnx. unfold glift, gbind, gget, gret.
    rewrite decide_False by done. destruct (Hconn s info eq_refl Hi) as [c Hc]. rewrite Hc.
    eexists _, _, _, _. split; [reflexivity|]. destruct (Hcfg (Some c)) as [H1 H2].
    { symmetry. apply bool_decide_eq_false. apply lookup_lt_Some in Es. lia. }
    split_and!; [exact H1|exact H2|done..|]. by exists info, c.
  - rewrite Hnext. unfold glift, gbind, gget, gret. rewrite decide_True by done.
    eexists _, _, _, _. split; [reflexivity|]. destruct (Hcfg None) as [H1 H2].
    { symmetry. apply bool_decide_eq_true. apply lookup_lt_Some in Hj'. apply lookup_ge_None in Es. lia. }
    split_and!; [exact H1|exact H2|done..|]. unfold zlen. by rewrite Hlen.
Qed.

End Wiring.
