(* ===== verification/MixLock.v ===== *)
(** * MixLock: one round is let in at a time

    The two services of a mix server share the lock [Idle] ([vuvuzela-server/server.go]):
    [NewRound] of either takes it and [Close] of either gives it back. Here the calls to
    both services interleave, and a [Close] of a server that is not the last is cut where
    it gives the lock back ([convo.go], [dial.go]): its second half, which waits for the
    next server, runs at any time later. Calls may fail. *)

From stdpp Require Import numbers strings pretty gmap relations list.
From Stdlib Require Import Strings.Byte SpecFloat.
From S2P Require Import Prelude Binary Wire Rand Shuffle Parallel OnionBox Pki Noise Laplace Vrpc Convo DeadDrops ConvoRounds ConvoChain ConvoPipeline Dial DialChain EntryApi Json BoxKeys MixServer.

(** ** Calls *)

Inductive dial_op :=
| DialOpNewRound (Round : Z)
| DialOpAdd (args : DialAddArgs)
| DialOpClose (Round : Z)
| DialOpBuckets (Round : Z).

Definition dial_op_round (op : dial_op) : Z :=
  match op with DialOpNewRound r | DialOpClose r | DialOpBuckets r => r | DialOpAdd a => da_Round a end.

(** What a step does to the lock. [true] is the conversation service. [Fails]: a [Close]
    that found its round open returned an error. *)
Inductive label :=
| Acquire (k : bool) (r : Z)
| Release (k : bool) (r : Z)
| Fails (k : bool) (r : Z)
| Other.

(** The second half of a [Close] that has given the lock back. *)
Inductive closing_call :=
| ClosingConvo (r : Z) (p : Shuffler * list bytes * ConvoRound)
| ClosingDial (r : Z) (incoming : list bytes).

Definition closing_key (c : closing_call) : bool * Z :=
  match c with ClosingConvo r _ => (true, r) | ClosingDial r _ => (false, r) end.

Section Calls.
Context {C R : Type} `{HF : Fuel, HR : Reader R, HB : Box, HK : !KeyGen R, HE : FloatEnv,
  HC : ConvoRemote C, HD : DialRemote C}.

(** A call of the dialing service; the results are only told apart by success. *)
Definition dial_serve (op : dial_op) : GoM (dstate C R) (result unit) :=
  match op with
  | DialOpNewRound r => Dial_NewRound r
  | DialOpAdd a => Dial_Add a
  | DialOpClose r => Dial_Close r
  | DialOpBuckets r => (let! b := Dial_Buckets r in on_ok b (fun e => e) (fun _ => gret (Ok tt)))%go
  end.

(** [Close] of the dialing service on a server that is not the last, up to
    [srv.Idle.Unlock()], and the rest. *)
Definition dial_close_begin (Round : Z) : GoM (dstate C R) (result (list bytes)) :=
  (let! round := dial_getRound Round dialRoundOpen in
   on_ok round (fun e => e) (fun round =>
   let! round := glift (dial_filterIncoming round) in
   let incoming := dr_incoming round ++ dr_noise round in
   let! shuffler := d_on_rand (NewShuffler fuel (zlen incoming)) in
   let! incoming := glift (Shuffle shuffler incoming) in
   d_put_round Round (mkDialRound (dr_status round) incoming (dr_noise round)) ;;;
   let! err := d_on_client (NewDialRound Round) in
   on_ok err (fun e => "NewDialRound: " +:+ e) (fun _ =>
   d_Idle_Unlock ;;;
   gret (Ok incoming))))%go.

Definition dial_close_end (Round : Z) (incoming : list bytes) : GoM (dstate C R) (result unit) :=
  (let! err := d_on_client (RunDialRound Round incoming) in
   on_ok err (fun e => "RunDialRound: " +:+ e) (fun _ =>
   d_put_round Round (mkDialRound dialRoundClosed [] []) ;;;
   gret (Ok tt)))%go.

Lemma dial_close_split Round srv g : ds_LastServer srv = false ->
  Dial_Close Round (srv, g) = (let! x := dial_close_begin Round in on_ok x (fun e => e) (dial_close_end Round))%go (srv, g).
Proof.
  intros Hl. unfold Dial_Close, dial_close_begin, dial_close_end. unfold gbind.
  destruct (dial_getRound Round dialRoundOpen (srv, g)) as [[[rd|e] s0]| | |] eqn:Hg; [|done..].
  assert (s0 = (srv, g)) as ->.
  { unfold dial_getRound, d_get_srv, gbind in Hg. cbn in Hg. destruct (ds_rounds srv !! Round); [|done].
    case_decide; [|done]. by injection Hg as _ <-. }
  cbn [on_ok]. unfold gbind, d_on_rand, gzoom. cbn [fst snd]. destruct (dial_filterIncoming rd) as [rd1| | |]; [|done..].
  cbn [glift]. destruct (NewShuffler _ _ _) as [[sh g1]| | |]; [|done..]. cbn [fst snd].
  destruct (Shuffle sh _) as [inc| | |]; [|done..]. cbn [glift]. unfold d_put_round, d_put_srv, d_get_srv. cbn [fst snd].
  change (ds_LastServer (ds_set_rounds _ _)) with (ds_LastServer srv). rewrite Hl.
  destruct (d_on_client _ _) as [[[[]|e] s5]| | |]; [|done..]. cbn [on_ok].
  by destruct (d_Idle_Unlock s5) as [[[] s6]| | |].
Qed.

Definition dial_open_at (srv : DialService C) (r : Z) : Prop := dial_status_at srv r = Some dialRoundOpen.

(** ** Steps *)

Definition convo_label (op : convo_op) (res : result (list bytes)) : label :=
  match op, res with
  | OpNewRound r, _ => Acquire true r
  | OpClose r, Ok _ => Release true r
  | _, _ => Other
  end.
Definition dial_label (op : dial_op) (res : result unit) : label :=
  match op, res with
  | DialOpNewRound r, _ => Acquire false r
  | DialOpClose r, Ok _ => Release false r
  | _, _ => Other
  end.
Definition begin_label {A} (k : bool) (r : Z) (found : bool) (x : result A) : label :=
  match x with Ok _ => Release k r | Err _ => if found then Fails k r else Other end.
Definition end_label (k : bool) (r : Z) (res : result unit) : label :=
  match res with Ok _ => Other | Err _ => Fails k r end.

(** A process and the second halves that are still to run. *)
Definition mstate : Type := mix C R * list closing_call.

(** A call that returns, or a half of a [Close]. No call is for a round of which a
    [Close] is between its halves. *)
Inductive mix_step : label -> mstate -> mstate -> Prop :=
| step_convo op res m m' cl :
    (true, op_round op) ∉ closing_key <$> cl ->
    (forall r, op = OpClose r -> cs_LastServer (mx_convo m) = true) ->
    on_convo (serve op) m = Ret (res, m') ->
    mix_step (convo_label op res) (m, cl) (m', cl)
| step_convo_begin r x m m' cl :
    (true, r) ∉ closing_key <$> cl -> cs_LastServer (mx_convo m) = false ->
    on_convo (close_begin r) m = Ret (x, m') ->
    mix_step (begin_label true r (bool_decide (status_at (mx_convo m) r = Some convoRoundOpen)) x) (m, cl)
      (m', match x with Ok p => ClosingConvo r p :: cl | Err _ => cl end)
| step_convo_end r p res m m' cl1 cl2 :
    on_convo (close_end r p) m = Ret (res, m') ->
    mix_step (end_label true r res) (m, cl1 ++ ClosingConvo r p :: cl2) (m', cl1 ++ cl2)
| step_dial op res m m' cl :
    (false, dial_op_round op) ∉ closing_key <$> cl ->
    (forall r, op = DialOpClose r -> ds_LastServer (mx_dial m) = true) ->
    on_dial (dial_serve op) m = Ret (res, m') ->
    mix_step (dial_label op res) (m, cl) (m', cl)
| step_dial_begin r x m m' cl :
    (false, r) ∉ closing_key <$> cl -> ds_LastServer (mx_dial m) = false ->
    on_dial (dial_close_begin r) m = Ret (x, m') ->
    mix_step (begin_label false r (bool_decide (dial_status_at (mx_dial m) r = Some dialRoundOpen)) x) (m, cl)
      (m', match x with Ok inc => ClosingDial r inc :: cl | Err _ => cl end)
| step_dial_end r inc res m m' cl1 cl2 :
    on_dial (dial_close_end r inc) m = Ret (res, m') ->
    mix_step (end_label false r res) (m, cl1 ++ ClosingDial r inc :: cl2) (m', cl1 ++ cl2).

Inductive mix_steps : list label -> mstate -> mstate -> Prop :=
| steps_nil s : mix_steps [] s s
| steps_cons l ls s1 s2 s3 : mix_step l s1 s2 -> mix_steps ls s2 s3 -> mix_steps (l :: ls) s1 s3.

(** ** What is claimed *)

(** The lock after these steps, if they take it when it is free and give it back when it
    is held. *)
Fixpoint lock_run (held : bool) (ls : list label) : option bool :=
  match ls with
  | [] => Some held
  | Acquire _ _ :: ls' => if held then None else lock_run true ls'
  | Release _ _ :: ls' => if held then lock_run false ls' else None
  | _ :: ls' => lock_run held ls'
  end.

(** The rounds that collect messages, of both services: those that are new or open and of
    which no [Close] has given back the lock. *)
Definition collecting (s : mstate) (k : bool) (r : Z) : Prop :=
  (if k then pending_at (mx_convo s.1) r else dial_open_at (mx_dial s.1) r) /\ (k, r) ∉ closing_key <$> s.2.

Definition no_failure (l : label) : Prop := match l with Fails _ _ => False | _ => True end.

(** What a step of service [k] does to the lock and to its collecting rounds. *)
Definition effect (k : bool) (l : label) (idle : bool) (Q : Z -> Prop) (idle' : bool) (Q' : Z -> Prop) : Prop :=
  match l with
  | Acquire k' r => k' = k /\ idle = false /\ idle' = true /\ forall r', Q' r' -> r' = r \/ Q r'
  | Release k' r => k' = k /\ idle = true /\ idle' = false /\ Q r /\ forall r', Q' r' -> Q r' /\ r' <> r
  | Fails _ _ => idle' = idle
  | Other => idle' = idle /\ forall r', Q' r' -> Q r'
  end.

(** ** The conversation service *)

Lemma pending_elsewhere r0 r (srv srv' : ConvoService C) :
  r <> r0 -> cs_rounds srv' !! r = cs_rounds srv !! r -> pending_at srv' r -> pending_at srv r.
Proof. intros _ Hr. unfold pending_at, status_at. by rewrite Hr. Qed.

Lemma pending_stored r rd rd' srv r' : pending (cr_status rd) -> cs_rounds srv !! r = Some rd ->
  pending_at (with_round r rd' srv : ConvoService C) r' -> pending_at srv r'.
Proof.
  intros Hp Hr Hr'. destruct (decide (r' = r)) as [->|Hne]; [by eapply pending_at_of|].
  eapply (pending_elsewhere r); [done| |exact Hr']. cbn. by rewrite lookup_insert_ne.
Qed.

(** [Close] of the last server. *)
Lemma Close_last_cases r srv (g : R) res srv' g' : cs_LastServer srv = true -> Close r (srv, g) = Ret (res, (srv', g')) ->
  (exists e, res = Err e /\ srv' = srv) \/
  (res = Ok tt /\ cs_Idle srv = true /\ cs_Idle srv' = false /\ pending_at srv r /\ ~ pending_at srv' r /\
   forall r', r' <> r -> cs_rounds srv' !! r' = cs_rounds srv !! r').
Proof.
  intros Hlast H. pose proof H as Hc.
  apply Close_ret in H as [(e & _ & -> & [= -> _])|(rd & rd1 & Hr & Hs & Hf & [_ Hsame] & Hor)]; [left; by eexists|right].
  destruct Hor as [(e & -> & _)|(rd' & -> & Hi & Hi' & Hl & _ & Hst & _)].
  - exfalso. unfold Close, getRound, get_srv, gbind in Hc. cbn [fst] in Hc. rewrite Hr in Hc.
    destruct (decide (cr_status rd = convoRoundOpen)); [|done]. cbn [on_ok gret] in Hc. rewrite Hf in Hc. cbn [glift] in Hc.
    unfold put_round, put_srv in Hc. cbn [fst snd] in Hc. change (cs_LastServer (set_rounds _ srv)) with (cs_LastServer srv) in Hc.
    rewrite Hlast in Hc. apply close_last_ret in Hc as (_ & [=] & _).
  - cbn [fst] in *. split_and!; [done|done|done|apply (pending_at_of _ _ _ Hr); rewrite Hs; by right| |done].
    intros (st & Hs' & [->| ->]); rewrite (status_of _ _ _ Hl), Hst in Hs'; discriminate.
Qed.

Lemma convo_effect op srv (g : R) res srv' g' (out : Z -> Prop) :
  serve op (srv, g) = Ret (res, (srv', g')) -> (forall r, op = OpClose r -> cs_LastServer srv = true) -> ~ out (op_round op) ->
  effect true (convo_label op res) (cs_Idle srv) (fun r => pending_at srv r /\ ~ out r)
    (cs_Idle srv') (fun r => pending_at srv' r /\ ~ out r).
Proof.
  intros H Hlast Hout. destruct op as [r|a|a|r|a|r]; cbn [serve op_round] in *;
    try (apply forget_ret in H as [(u & H & ->)|(e & H & ->)]); cbn [convo_label effect].
  - apply NewRound_ret in H as (Hid & [(rd & Hr & [=] & _)|(Hn & _ & rd & g1 & Hf & [= -> _])]).
    split_and!; [done..|]. intros r' [Hr' Ho]. destruct (decide (r' = r)) as [->|Hne]; [by left|right]. split; [|done].
    eapply (pending_elsewhere r); [done| |exact Hr']. cbn. by rewrite lookup_insert_ne.
  - apply NewRound_ret in H as (Hid & [(rd & Hr & _ & [= -> _])|(Hn & [=] & _)]). split_and!; [done..|]. by right.
  - apply Open_ret in H as [(e & _ & [=] & _)|(rd & Hr & Hs & Hn & _ & [= -> _])]. split; [done|]. intros r' [Hr' Ho].
    split; [|done]. eapply pending_stored; [|exact Hr|exact Hr']. rewrite Hs. by left.
  - by apply Open_ret in H as [(e' & _ & _ & [= -> _])|(rd & _ & _ & _ & [=] & _)].
  - apply Add_ret in H as [(e & _ & [=] & _)|(rd & Hr & Hs & [(_ & _ & [=])|(sl & Hf & _ & [= -> _])])].
    split; [done|]. intros r' [Hr' Ho]. split; [|done]. eapply pending_stored; [|exact Hr|exact Hr']. rewrite Hs. by right.
  - by apply Add_ret in H as [(e' & _ & _ & [= -> _])|(rd & _ & _ & [(_ & [= -> _] & _)|(sl & _ & [=] & _)])].
  - apply Close_last_cases in H as [(e & [=] & _)|(_ & Hi & Hi' & Hp & Hnp & Hsame)]; [|by eapply Hlast].
    split_and!; [done..|]. intros r' [Hr' Ho]. destruct (decide (r' = r)) as [->|Hne]; [done|]. split; [|done].
    split; [|done]. eapply (pending_elsewhere r); [done|by apply Hsame|done].
  - apply Close_last_cases in H as [(e' & _ & ->)|([=] & _)]; [done|by eapply Hlast].
  - apply Get_ret in H as (Hsrv & _). cbn in Hsrv. by subst.
  - injection H as _ <- _. split; [done|]. intros r' [(st & Hs & Hp) Ho]. split; [|done]. unfold status_at in Hs. cbn in Hs.
    destruct (decide (r' = r)) as [->|Hne]; [by rewrite lookup_delete_eq in Hs|]. rewrite lookup_delete_ne in Hs by done.
    by exists st.
  - done.
Qed.

(** The first half leaves every status as it is. *)
Lemma close_begin_ret r srv (g : R) x srv' g' : close_begin r (srv, g) = Ret (x, (srv', g')) ->
  match x with
  | Ok _ => cs_Idle srv = true /\ cs_Idle srv' = false /\ status_at srv r = Some convoRoundOpen /\
      forall r', status_at srv' r' = status_at srv r'
  | Err _ => cs_Idle srv' = cs_Idle srv /\ (status_at srv r <> Some convoRoundOpen -> srv' = srv)
  end.
Proof.
  unfold close_begin. intros H. apply gbind_ret in H as (rd & s1 & Hg & H).
  apply getRound_ret in Hg as [-> [(rd0 & -> & Hr & Hs & _)|(e & -> & He)]]; cbn [on_ok] in H.
  2: { apply gret_ret in H as [-> [= -> _]]. done. }
  assert (status_at srv r = Some convoRoundOpen) as Hopen by (by rewrite (status_of _ _ _ Hr), Hs).
  apply gbind_ret in H as (rd1 & s2 & [Hf ->]%glift_ret & H). apply gbind_ret in H as (u & s3 & [= _ <-] & H).
  cbn [fst snd] in H. apply gbind_ret in H as (sh & s4 & (g1 & _ & ->)%on_rand_ret & H).
  apply gbind_ret in H as (out & s5 & [_ ->]%glift_ret & H). apply gbind_ret in H as (u2 & s6 & [= _ <-] & H).
  cbn [fst snd] in H. apply gbind_ret in H as (err & s7 & (c & _ & ->)%on_client_ret & H).
  apply on_ok_ret in H as [(v & -> & H)|(e & -> & -> & [= -> _])]; [|by split].
  apply gbind_ret in H as (u3 & s8 & Hu & H). unfold Idle_Unlock in Hu. cbn in Hu.
  destruct (cs_Idle srv) eqn:Hid; [|done]. injection Hu as _ <-. apply gret_ret in H as [-> [= -> _]].
  split_and!; [done..|]. intros r'. unfold status_at. cbn.
  destruct (decide (r' = r)) as [->|Hne]; [|by rewrite !lookup_insert_ne by done].
  rewrite lookup_insert_eq, Hr. cbn. f_equal.
  destruct (alias_incoming_same (closed_round rd1 [] (cr_replies rd1) (cr_status rd1)) out) as [_ ->]. cbn.
  apply filterIncoming_ret in Hf as (v0 & i0 & _ & ->). done.
Qed.

(** The second half leaves the lock and the other rounds as they are. *)
Lemma close_end_ret r p srv (g : R) res srv' g' : close_end r p (srv, g) = Ret (res, (srv', g')) ->
  cs_Idle srv' = cs_Idle srv /\
  match res with
  | Ok _ => status_at srv' r = Some convoRoundClosed /\ forall r', r' <> r -> cs_rounds srv' !! r' = cs_rounds srv !! r'
  | Err _ => True
  end.
Proof.
  destruct p as [[sh out] rd]. unfold close_end. intros H.
  apply gbind_ret in H as (x & s1 & (c & _ & ->)%on_client_ret & H).
  apply on_ok_ret in H as [(replies & -> & H)|(e & -> & -> & [= -> _])]; [|done].
  apply gbind_ret in H as (rs & s2 & [_ ->]%glift_ret & H). apply gbind_ret in H as (rs' & s3 & [_ ->]%glift_ret & H).
  apply gbind_ret in H as (u & s4 & [= _ <-] & H). apply gret_ret in H as [-> [= -> _]]. split_and!; [done| |].
  - unfold status_at. cbn. by rewrite lookup_insert_eq.
  - intros r' Hne. cbn. by rewrite lookup_insert_ne.
Qed.

(** ** The dialing service *)

Lemma d_on_rand_ret {A} (m : GoM R A) (srv : DialService C) g a (s' : dstate C R) :
  d_on_rand m (srv, g) = Ret (a, s') -> exists g', s' = (srv, g').
Proof. unfold d_on_rand. intros (t & _ & ->)%gzoom_ret. by exists t. Qed.

Lemma dial_getRound_ret round st (srv : DialService C) (g : R) res s' :
  dial_getRound round st (srv, g) = Ret (res, s') ->
  s' = (srv, g) /\ ((exists rd, res = Ok rd /\ ds_rounds srv !! round = Some rd /\ dr_status rd = st) \/
                    (exists e, res = Err e /\ dial_status_at srv round <> Some st)).
Proof.
  unfold dial_getRound, d_get_srv, gbind, dial_status_at. cbn [fst].
  destruct (ds_rounds srv !! round) as [rd|]; [case_decide as Hd|]; intros [-> ->]%gret_ret; (split; [done|]);
    [left; by eexists|right; eexists; split; [done|cbn; congruence]|right; by eexists].
Qed.

Lemma dial_noise_ret round srv0 (srv : DialService C) g noise s' :
  dial_noise round srv0 (srv, g) = Ret (noise, s') -> exists g', s' = (srv, g').
Proof.
  unfold dial_noise. intros H. apply gbind_ret in H as (counts & s1 & Hm & H).
  assert (s1.1 = srv) as Hs1.
  { eapply (go_map_keeps (fun s s' => s'.1 = s.1)) in Hm; [done|done|congruence|].
    intros i [srv1 g1] o s2 Ho. by apply d_on_rand_ret in Ho as [g2 ->]. }
  destruct s1 as [srv1 g1]. cbn in Hs1. subst srv1.
  apply gbind_ret in H as (n & s2 & [_ ->]%glift_ret & H). apply gbind_ret in H as (ks & s3 & [_ ->]%glift_ret & H).
  by apply d_on_rand_ret in H.
Qed.

Lemma dial_filter_status rd rd1 : dial_filterIncoming rd = Ret rd1 -> dr_status rd1 = dr_status rd.
Proof. unfold dial_filterIncoming. by intros (valid & _ & [= <-])%obind_ret. Qed.

Lemma dial_open_stored r rd rd' (srv : DialService C) r' : ds_rounds srv !! r = Some rd -> dr_status rd = dialRoundOpen ->
  dial_open_at (dwith_round r rd' srv) r' -> dial_open_at srv r'.
Proof.
  intros Hr Hs. unfold dial_open_at, dial_status_at. cbn.
  destruct (decide (r' = r)) as [->|Hne]; [rewrite Hr; cbn; by rewrite Hs|]. by rewrite lookup_insert_ne.
Qed.

(** [Close] up to the lock: the filtered and shuffled messages are stored. *)
Lemma dial_close_begin_ret r srv (g : R) x srv' g' : dial_close_begin r (srv, g) = Ret (x, (srv', g')) ->
  match x with
  | Ok _ => ds_Idle srv = true /\ ds_Idle srv' = false /\ dial_open_at srv r /\
      forall r', dial_status_at srv' r' = dial_status_at srv r'
  | Err _ => ds_Idle srv' = ds_Idle srv /\ (~ dial_open_at srv r -> srv' = srv)
  end.
Proof.
  unfold dial_close_begin. intros H. apply gbind_ret in H as (rd & s1 & Hg & H).
  apply dial_getRound_ret in Hg as [-> [(rd0 & -> & Hr & Hs)|(e & -> & He)]]; cbn [on_ok] in H.
  2: { apply gret_ret in H as [-> [= -> _]]. done. }
  assert (dial_open_at srv r) as Hopen by (unfold dial_open_at, dial_status_at; rewrite Hr; cbn; by rewrite Hs).
  apply gbind_ret in H as (rd1 & s2 & [Hf ->]%glift_ret & H). apply gbind_ret in H as (sh & s3 & [g1 ->]%d_on_rand_ret & H).
  apply gbind_ret in H as (inc & s4 & [_ ->]%glift_ret & H). apply gbind_ret in H as (u & s5 & [= _ <-] & H).
  apply gbind_ret in H as (err & s6 & Hn & H). unfold d_on_client in Hn. apply gzoom_ret in Hn as (c1 & _ & ->).
  apply on_ok_ret in H as [(v & -> & H)|(e & -> & -> & [= -> _])]; [|by split].
  apply gbind_ret in H as (u3 & s8 & Hu & H). unfold d_Idle_Unlock in Hu. cbn in Hu.
  destruct (ds_Idle srv) eqn:Hid; [|done]. injection Hu as _ <-. apply gret_ret in H as [-> [= -> _]].
  split_and!; [done..|]. intros r'. unfold dial_status_at. cbn.
  destruct (decide (r' = r)) as [->|Hne]; [|by rewrite lookup_insert_ne by done].
  rewrite lookup_insert_eq, Hr. cbn. by rewrite (dial_filter_status _ _ Hf).
Qed.

Lemma dial_close_end_ret r inc srv (g : R) res srv' g' : dial_close_end r inc (srv, g) = Ret (res, (srv', g')) ->
  ds_Idle srv' = ds_Idle srv /\
  match res with
  | Ok _ => dial_status_at srv' r = Some dialRoundClosed /\ forall r', r' <> r -> ds_rounds srv' !! r' = ds_rounds srv !! r'
  | Err _ => True
  end.
Proof.
  unfold dial_close_end. intros H. apply gbind_ret in H as (x & s1 & Hn & H). unfold d_on_client in Hn.
  apply gzoom_ret in Hn as (c1 & _ & ->). apply on_ok_ret in H as [(v & -> & H)|(e & -> & -> & [= -> _])]; [|done].
  apply gbind_ret in H as (u & s4 & [= _ <-] & H). apply gret_ret in H as [-> [= -> _]]. split_and!; [done| |].
  - unfold dial_status_at. cbn. by rewrite lookup_insert_eq.
  - intros r' Hne. cbn. by rewrite lookup_insert_ne.
Qed.

(** [Close] of the last server. *)
Lemma Dial_Close_last_cases r srv (g : R) res srv' g' :
  ds_LastServer srv = true -> Dial_Close r (srv, g) = Ret (res, (srv', g')) ->
  (exists e, res = Err e /\ srv' = srv) \/
  (res = Ok tt /\ ds_Idle srv = true /\ ds_Idle srv' = false /\ dial_open_at srv r /\ ~ dial_open_at srv' r /\
   forall r', r' <> r -> ds_rounds srv' !! r' = ds_rounds srv !! r').
Proof.
  unfold Dial_Close. intros Hlast H. apply gbind_ret in H as (x & s1 & Hg & H).
  apply dial_getRound_ret in Hg as [-> [(rd & -> & Hr & Hs)|(e & -> & _)]]; cbn [on_ok] in H.
  2:{ apply gret_ret in H as [-> [= -> _]]. left. by eexists. }
  right. apply gbind_ret in H as (rd1 & s2 & [_ ->]%glift_ret & H). apply gbind_ret in H as (sh & s3 & [g1 ->]%d_on_rand_ret & H).
  apply gbind_ret in H as (inc & s4 & [_ ->]%glift_ret & H). apply gbind_ret in H as (u & s5 & [= _ <-] & H).
  unfold d_get_srv at 1, gbind at 1 in H. cbn [fst snd] in H.
  change (ds_LastServer (ds_set_rounds _ srv)) with (ds_LastServer srv) in H. rewrite Hlast in H.
  apply gbind_ret in H as (u1 & s6 & Hu & H). unfold d_Idle_Unlock in Hu. cbn in Hu.
  destruct (ds_Idle srv) eqn:Hid; [|done]. injection Hu as _ <-.
  apply gbind_ret in H as (u2 & s7 & [= _ <-] & H). apply gret_ret in H as [-> [= -> _]].
  unfold dial_open_at, dial_status_at. cbn. rewrite Hr, lookup_insert_eq. cbn. rewrite Hs. split_and!; [done..|].
  intros r' Hne. by rewrite !lookup_insert_ne.
Qed.

Lemma dial_effect op srv (g : R) res srv' g' (out : Z -> Prop) :
  dial_serve op (srv, g) = Ret (res, (srv', g')) -> (forall r, op = DialOpClose r -> ds_LastServer srv = true) ->
  ~ out (dial_op_round op) ->
  effect false (dial_label op res) (ds_Idle srv) (fun r => dial_open_at srv r /\ ~ out r)
    (ds_Idle srv') (fun r => dial_open_at srv' r /\ ~ out r).
Proof.
  intros H Hlast Hout. destruct op as [r|a|r|r]; cbn [dial_serve dial_op_round dial_label] in *.
  - unfold Dial_NewRound, d_Idle_Lock in H. apply gbind_ret in H as (u & s1 & Hl & H). cbn [fst snd] in Hl.
    destruct (ds_Idle srv); [done|]. injection Hl as _ <-. cbn [effect].
    unfold d_get_srv at 1, gbind at 1 in H. cbn [fst ds_rounds ds_set_Idle] in H.
    destruct (ds_rounds srv !! r) as [rd|] eqn:Hr.
    { apply gret_ret in H as [_ [= -> _]]. split_and!; [done..|]. by right. }
    apply gbind_ret in H as (noise & s2 & [g1 ->]%dial_noise_ret & H).
    apply gbind_ret in H as (u1 & s3 & [= _ <-] & H). apply gret_ret in H as [_ [= -> _]]. split_and!; [done..|].
    intros r' [Hr' Ho]. destruct (decide (r' = r)) as [->|Hne]; [by left|right]. split; [|done].
    unfold dial_open_at, dial_status_at in *. cbn in Hr'. by rewrite lookup_insert_ne in Hr'.
  - unfold Dial_Add in H. apply gbind_ret in H as (x & s1 & Hg & H).
    apply dial_getRound_ret in Hg as [-> [(rd & -> & Hr & Hs)|(e & -> & _)]]; cbn [on_ok] in H.
    2:{ by apply gret_ret in H as [-> [= -> _]]. }
    unfold d_get_srv at 1, gbind at 1 in H. cbn [fst] in H. apply gbind_ret in H as (ms & s2 & [_ ->]%glift_ret & H).
    apply gbind_ret in H as (u1 & s3 & [= _ <-] & H). apply gret_ret in H as [-> [= -> _]].
    split; [done|]. intros r' [Hr' Ho]. split; [|done]. by eapply dial_open_stored.
  - apply Dial_Close_last_cases in H as [(e & -> & ->)|(-> & Hi & Hi' & Hp & Hnp & Hsame)]; [done| |by eapply Hlast].
    split_and!; [done..|]. intros r' [Hr' Ho]. destruct (decide (r' = r)) as [->|Hne]; [done|]. split; [|done].
    split; [|done]. unfold dial_open_at, dial_status_at in *. by rewrite <- Hsame.
  - apply gbind_ret in H as (b & s1 & Hb & H). assert (s1 = (srv, g)) as ->.
    { unfold Dial_Buckets, d_get_srv in Hb. unfold gbind at 1 in Hb. cbn [fst] in Hb.
      destruct (ds_LastServer srv); [|by apply gret_ret in Hb as [_ ->]].
      apply gbind_ret in Hb as (x & s2 & Hg & Hb). apply dial_getRound_ret in Hg as [-> [(rd & -> & _)|(e & -> & _)]];
        cbn [on_ok] in Hb; [|by apply gret_ret in Hb as [_ ->]].
      apply gbind_ret in Hb as (bs & s3 & [_ ->]%glift_ret & Hb). apply gbind_ret in Hb as (bs' & s4 & [_ ->]%glift_ret & Hb).
      by apply gret_ret in Hb as [_ ->]. }
    destruct b; cbn [on_ok] in H; by apply gret_ret in H as [-> [= -> _]].
Qed.

(** ** Both *)

(** One step: its effect on its service, and none on the other. *)
Lemma step_effect l s s' : mix_step l s s' ->
  exists k, effect k l (mx_idle s.1) (collecting s k) (mx_idle s'.1) (collecting s' k) /\
    forall r, collecting s' (negb k) r -> collecting s (negb k) r.
Proof.
  unfold collecting. intros [op res m m' cl Ho Hl H|r x m m' cl Ho Hl H|r p res m m' cl1 cl2 H
    |op res m m' cl Ho Hl H|r x m m' cl Ho Hl H|r inc res m m' cl1 cl2 H]; cbn [fst snd].
  - exists true. unfold on_convo in H. apply gzoom_ret in H as ([srv' g'] & H & ->). split; [|done].
    exact (convo_effect op _ _ _ _ _ (fun r => (true, r) ∈ closing_key <$> cl) H Hl Ho).
  - exists true. unfold on_convo in H. apply gzoom_ret in H as ([srv' g'] & H & ->).
    apply close_begin_ret in H. destruct x as [p|e]; cbn [begin_label effect fst snd closing_key fmap list_fmap] in *.
    + destruct H as (Hi & Hi' & Hs & Hsame). split.
      * do 3 (split; [done|]). split; [split; [exists convoRoundOpen; split; [exact Hs|by right]|done]|].
        intros r' [(st & Hst & Hp) Hn]. rewrite Hsame in Hst. rewrite not_elem_of_cons in Hn. destruct Hn as [Hne Hn].
        split; [split; [by exists st|done]|]. intros ->. by apply Hne.
      * intros r' [Hr' Hn]. rewrite not_elem_of_cons in Hn. destruct Hn as [_ Hn]. by split.
    + destruct H as [Hi Hsame]. split; [|done]. case_bool_decide as Hb; cbn [effect]; [done|].
      split; [done|]. by rewrite (Hsame Hb).
  - exists true. unfold on_convo in H. apply gzoom_ret in H as ([srv' g'] & H & ->).
    apply close_end_ret in H as [Hi H]. rewrite !fmap_app. cbn [fmap list_fmap closing_key].
    split; [|intros r' [Hr' Hn]; split; [done|]; rewrite not_elem_of_app, not_elem_of_cons in *; naive_solver].
    destruct res as [[]|e]; cbn [end_label effect]; [|done]. destruct H as [Hs Hsame]. split; [done|]. intros r' [Hr' Hn].
    destruct (decide (r' = r)) as [->|Hne]; [destruct Hr' as (st & Hst & [->| ->]); cbn in Hst; rewrite Hs in Hst; discriminate|].
    split; [eapply (pending_elsewhere r); [done|by apply Hsame|done]|].
    rewrite not_elem_of_app, not_elem_of_cons in *. split; [tauto|]. split; [congruence|tauto].
  - exists false. unfold on_dial in H. apply gzoom_ret in H as ([srv' g'] & H & ->). split; [|done].
    exact (dial_effect op _ _ _ _ _ (fun r => (false, r) ∈ closing_key <$> cl) H Hl Ho).
  - exists false. unfold on_dial in H. apply gzoom_ret in H as ([srv' g'] & H & ->).
    apply dial_close_begin_ret in H. destruct x as [p|e]; cbn [begin_label effect fst snd closing_key fmap list_fmap] in *.
    + destruct H as (Hi & Hi' & Hs & Hsame). split.
      * do 3 (split; [done|]). split; [by split|].
        intros r' [Hr' Hn]. unfold dial_open_at in *. cbn in Hr'. rewrite Hsame in Hr'. rewrite not_elem_of_cons in Hn. destruct Hn as [Hne Hn].
        split; [by split|]. intros ->. by apply Hne.
      * intros r' [Hr' Hn]. rewrite not_elem_of_cons in Hn. destruct Hn as [_ Hn]. by split.
    + destruct H as [Hi Hsame]. split; [|done]. case_bool_decide as Hb; cbn [effect]; [done|].
      split; [done|]. by rewrite (Hsame Hb).
  - exists false. unfold on_dial in H. apply gzoom_ret in H as ([srv' g'] & H & ->).
    apply dial_close_end_ret in H as [Hi H]. rewrite !fmap_app. cbn [fmap list_fmap closing_key].
    split; [|intros r' [Hr' Hn]; split; [done|]; rewrite not_elem_of_app, not_elem_of_cons in *; naive_solver].
    destruct res as [[]|e]; cbn [end_label effect]; [|done]. destruct H as [Hs Hsame]. split; [done|]. intros r' [Hr' Hn].
    unfold dial_open_at, dial_status_at in *. cbn in Hr', Hs.
    destruct (decide (r' = r)) as [->|Hne]; [rewrite Hs in Hr'; discriminate|].
    split; [cbn; by rewrite <- Hsame|].
    rewrite not_elem_of_app, not_elem_of_cons in *. split; [tauto|]. split; [congruence|tauto].
Qed.

Definition exclusive (s : mstate) : Prop :=
  (forall k r k' r', collecting s k r -> collecting s k' r' -> k = k' /\ r = r') /\
  (forall k r, collecting s k r -> mx_idle s.1 = true).

Lemma step_keeps l s s' : mix_step l s s' -> no_failure l -> exclusive s -> exclusive s'.
Proof.
  intros (k & He & Hother)%step_effect Hl [H1 H2].
  assert (forall k' r, collecting s' k' r -> k' = k /\ collecting s' k r \/ k' = negb k /\ collecting s (negb k) r) as Hcase.
  { intros k' r Hc. destruct (decide (k' = k)) as [->|Hn]; [by left|right].
    assert (k' = negb k) as -> by (by destruct k, k'). split; [done|by apply Hother]. }
  destruct l as [k0 r0|k0 r0|k0 r0|]; cbn [effect] in He; [| |done|].
  - destruct He as (-> & Hi & Hi' & Hsub).
    assert (forall k' r, ~ collecting s k' r) as Hnone by (intros k' r Hc; apply H2 in Hc; congruence).
    assert (forall k' r, collecting s' k' r -> k' = k /\ r = r0) as Hall.
    { intros k' r [[-> Hr]|[_ Hr]]%Hcase; [|by apply Hnone in Hr]. split; [done|].
      destruct (Hsub r Hr) as [?|?]; [done|by edestruct Hnone]. }
    split; [|done]. intros k1 r1 k2 r2 [-> ->]%Hall [-> ->]%Hall. done.
  - destruct He as (-> & Hi & Hi' & Hr0 & Hsub).
    assert (forall k' r, ~ collecting s' k' r) as Hall; [|split; [intros k1 r1 k2 r2 ?%Hall|intros k1 r1 ?%Hall]; done].
    intros k' r [[-> Hr]|[-> Hr]]%Hcase.
    + destruct (Hsub r Hr) as [Hp Hne]. apply Hne. by apply (H1 k r k r0).
    + destruct (H1 _ _ k r0 Hr Hr0) as [Hk _]. by destruct k.
  - destruct He as [Hii Hsub].
    assert (forall k' r, collecting s' k' r -> collecting s k' r) as Hall.
    { intros k' r [[-> Hr]|[-> Hr]]%Hcase; auto. }
    split; [intros k1 r1 k2 r2 ?%Hall ?%Hall; eauto|intros k1 r1 ?%Hall; rewrite Hii; eauto].
Qed.

Lemma steps_exclusive ls s s' : mix_steps ls s s' -> Forall no_failure ls -> exclusive s -> exclusive s'.
Proof.
  induction 1 as [|l ls s1 s2 s3 Hs _ IH]; [done|]. intros [Hl Hls]%Forall_cons He. apply IH; [done|]. by eapply step_keeps.
Qed.

Lemma steps_lock ls s s' : mix_steps ls s s' -> lock_run (mx_idle s.1) ls = Some (mx_idle s'.1).
Proof.
  induction 1 as [|l ls s1 s2 s3 Hs _ IH]; [done|]. apply step_effect in Hs as (k & He & _).
  destruct l as [k0 r0|k0 r0|k0 r0|]; cbn [effect lock_run] in *.
  - destruct He as (_ & -> & E & _). by rewrite E in IH.
  - destruct He as (_ & -> & E & _). by rewrite E in IH.
  - by rewrite He in IH.
  - destruct He as [E _]. by rewrite E in IH.
Qed.

Lemma held_blocks (m : mix C R) r : mx_idle m = true -> rpc_NewRound r m = Block /\ rpc_DialNewRound r m = Block.
Proof.
  intros Hid. cbn [rpc_NewRound rpc_DialNewRound mix_convo_remote mix_dial_remote].
  unfold on_convo, on_dial, gzoom, NewRound, Dial_NewRound, Idle_Lock, d_Idle_Lock, gbind. cbn. by rewrite Hid.
Qed.

End Calls.

(** C14. The lock [Idle] that [main] gives to both services lets one round in at a time.
    From the state [main] starts with, after any interleaving of calls to either service,
    failed ones included, and of the two halves of [Close] (no call being for a round of
    which a [Close] is between its halves): the calls of [NewRound] that returned, of both
    services together, and the calls of [Close] that passed their [Unlock] alternate, and
    the lock is held exactly after a [NewRound]; while it is held every [NewRound] of
    either service blocks. If no [Close] of an open round has failed, then moreover at most
    one round of the two services is collecting messages (it is new or open, and no [Close]
    of it has given the lock back), and while one is the lock is held. *)
Theorem one_round_at_a_time {C R : Type} `{HF : Fuel, HR : Reader R, HFR : !FullReader R, HB : Box, HL : !BoxLaws,
    HK : !KeyGen R, HE : FloatEnv, HC : ConvoRemote C, HD : DialRemote C}
    confPath doInit mu pki_file conf_file (connect : string -> result C) g l d h (m0 : mix (option C) R) g'
    ls (m : mix (option C) R) closing :
  main confPath doInit mu pki_file conf_file connect g = Ret (Serves l d h m0, g') ->
  mix_steps ls (m0, []) (m, closing) ->
  lock_run false ls = Some (mx_idle m) /\
  (mx_idle m = true -> forall r, rpc_NewRound r m = Block /\ rpc_DialNewRound r m = Block) /\
  (Forall no_failure ls ->
   (forall k r k' r', collecting (m, closing) k r -> collecting (m, closing) k' r' -> k = k' /\ r = r') /\
   (forall k r, collecting (m, closing) k r -> mx_idle m = true)).
Proof.
  intros (Hc & Hd & Hi)%main_serves Hs. split; [|split].
  - rewrite <- Hi. exact (steps_lock _ _ _ Hs).
  - intros Hm r. by apply held_blocks.
  - intros Hls. apply (steps_exclusive _ _ _ Hs Hls).
    split; intros *; [intros H _; exfalso|intros H; exfalso]; destruct H as [H _]; cbn in H; destruct k;
      [destruct H as (st & Hst & _); unfold status_at in Hst; by rewrite Hc, lookup_empty in Hst
      |unfold dial_open_at, dial_status_at in H; by rewrite Hd, lookup_empty in H..
      |destruct H as (st & Hst & _); unfold status_at in Hst; by rewrite Hc, lookup_empty in Hst
      |unfold dial_open_at, dial_status_at in H; by rewrite Hd, lookup_empty in H].
Qed.
