(* ===== verification/MixSim.v ===== *)
(** * MixSim: the handlers do not depend on what is behind the client

    The handlers of [convo.go] and [dial.go] reach the next server only through
    their RPC interface. Two services that differ only in their clients, with clients
    that answer alike, therefore answer alike. [MixChain] uses this to relate the
    chain of server processes, in which both services share a lock and a client, with
    the chains of [ConvoChain] and [DialChain]. *)

From stdpp Require Import numbers strings pretty gmap relations list.
From Stdlib Require Import Strings.Byte.
From S2P Require Import Prelude Binary Wire Rand Shuffle Parallel OnionBox Pki Noise Laplace Vrpc Convo Dial.

Lemma CallMany_sim {S1 S2 A B} (I : S1 -> S2 -> Prop) (f1 : A -> GoM S1 (result B)) f2 l :
  (forall a, gsim eq I (f1 a) (f2 a)) -> gsim eq I (CallMany f1 l) (CallMany f2 l).
Proof. intros Hf. induction l as [|a l IH]; cbn [CallMany]; sim. Qed.
#[export] Hint Resolve CallMany_sim : sim.

(** ** Servers that answer alike *)

Class ConvoSim {C1 C2} `{ConvoRemote C1, ConvoRemote C2} (I : C1 -> C2 -> Prop) : Prop := {
  sim_NewRound r : gsim eq I (rpc_NewRound r) (rpc_NewRound r);
  sim_Open a : gsim eq I (rpc_Open a) (rpc_Open a);
  sim_Add a : gsim eq I (rpc_Add a) (rpc_Add a);
  sim_Close r : gsim eq I (rpc_Close r) (rpc_Close r);
  sim_Get a : gsim eq I (rpc_Get a) (rpc_Get a);
  sim_Delete r : gsim eq I (rpc_Delete r) (rpc_Delete r);
}.
#[export] Hint Resolve sim_NewRound sim_Open sim_Add sim_Close sim_Get sim_Delete : sim.

Class DialSim {C1 C2} `{DialRemote C1, DialRemote C2} (I : C1 -> C2 -> Prop) : Prop := {
  sim_DialNewRound r : gsim eq I (rpc_DialNewRound r) (rpc_DialNewRound r);
  sim_DialAdd a : gsim eq I (rpc_DialAdd a) (rpc_DialAdd a);
  sim_DialClose r : gsim eq I (rpc_DialClose r) (rpc_DialClose r);
}.
#[export] Hint Resolve sim_DialNewRound sim_DialAdd sim_DialClose : sim.

Lemma NewConvoRound_sim {C1 C2} (I : C1 -> C2 -> Prop) `{ConvoSim C1 C2 I} r :
  gsim eq I (NewConvoRound r) (NewConvoRound r).
Proof. apply sim_NewRound. Qed.

Lemma RunConvoRound_sim {C1 C2} (I : C1 -> C2 -> Prop) `{ConvoSim C1 C2 I} r onions :
  gsim eq I (RunConvoRound r onions) (RunConvoRound r onions).
Proof. unfold RunConvoRound. sim. Qed.

Lemma NewDialRound_sim {C1 C2} (I : C1 -> C2 -> Prop) `{DialSim C1 C2 I} r :
  gsim eq I (NewDialRound r) (NewDialRound r).
Proof. apply sim_DialNewRound. Qed.

Lemma RunDialRound_sim {C1 C2} (I : C1 -> C2 -> Prop) `{DialSim C1 C2 I} r onions :
  gsim eq I (RunDialRound r onions) (RunDialRound r onions).
Proof. unfold RunDialRound. sim. Qed.
#[export] Hint Resolve NewConvoRound_sim RunConvoRound_sim NewDialRound_sim RunDialRound_sim : sim.

(** ** The conversation service *)

Definition with_client {C D} (d : D) (srv : ConvoService C) : ConvoService D :=
  mkConvoService (cs_rounds srv) (cs_Idle srv) (cs_LaplaceMu srv) (cs_LaplaceB srv) (cs_PKI srv) (cs_ServerName srv)
    (cs_PrivateKey srv) d (cs_LastServer srv) (cs_AccessCounts srv).

Section ConvoHandlers.
Context {C1 C2 R : Type} `{HF : Fuel, HR : Reader R, HB : Box, HK : !KeyGen R, HE : FloatEnv,
  HC1 : ConvoRemote C1, HC2 : ConvoRemote C2} (I : C1 -> C2 -> Prop) `{HS : !ConvoSim I}.

(** The same state but for the clients, which are related. *)
Inductive cs_sim : cstate C1 R -> cstate C2 R -> Prop :=
| cs_sim_intro srv c2 g : I (cs_Client srv) c2 -> cs_sim (srv, g) (with_client c2 srv, g).

Lemma cs_sim_inv s1 s2 : cs_sim s1 s2 -> I (cs_Client s1.1) (cs_Client s2.1) /\ s2 = (with_client (cs_Client s2.1) s1.1, s1.2).
Proof. by intros []. Qed.

Lemma on_rand_sim {A} (m : GoM R A) : gsim eq cs_sim (on_rand m) (on_rand m).
Proof.
  unfold on_rand. apply (gsim_zoom _ eq); [by intros ? ? []| |apply gsim_refl].
  intros s1 s2 g ? [] <-. by constructor.
Qed.

Lemma on_client_sim {A} (m1 : GoM C1 A) m2 : gsim eq I m1 m2 -> gsim eq cs_sim (on_client m1) (on_client m2).
Proof.
  unfold on_client. apply (gsim_zoom _ I); [by intros ? ? []|].
  intros s1 s2 c1 c2 [] Hc. exact (cs_sim_intro (set_Client c1 srv) c2 g Hc).
Qed.

Lemma get_srv_sim {A} (k1 : ConvoService C1 -> GoM _ A) (k2 : ConvoService C2 -> GoM _ A) :
  (forall srv c2, gsim eq cs_sim (k1 srv) (k2 (with_client c2 srv))) ->
  gsim eq cs_sim (gbind get_srv k1) (gbind get_srv k2).
Proof.
  intros Hk. apply (gsim_bind _ (fun srv srv2 => exists c2, srv2 = with_client c2 srv)).
  - intros s1 s2 [srv c2 g Hc]. cbn. split; [by exists c2|by constructor].
  - intros srv ? [c2 ->]. apply Hk.
Qed.

Lemma put_srv_sim f1 f2 :
  (forall srv c2, f2 (with_client c2 srv) = with_client c2 (f1 srv)) -> (forall srv, cs_Client (f1 srv) = cs_Client srv) ->
  gsim eq cs_sim (put_srv f1) (put_srv f2).
Proof.
  intros Hf Hc s1 s2 [srv c2 g HI]. cbn. split; [done|]. rewrite Hf. constructor. by rewrite Hc.
Qed.

Lemma put_round_sim r rd : gsim eq cs_sim (put_round r rd) (put_round r rd).
Proof. by apply put_srv_sim. Qed.

Lemma Idle_Lock_sim : gsim eq cs_sim Idle_Lock Idle_Lock.
Proof.
  intros s1 s2 [srv c2 g HI]. unfold Idle_Lock. cbn. destruct (cs_Idle srv); [done|]. split; [done|].
  exact (cs_sim_intro (set_Idle true srv) c2 g HI).
Qed.

Lemma Idle_Unlock_sim : gsim eq cs_sim Idle_Unlock Idle_Unlock.
Proof.
  intros s1 s2 [srv c2 g HI]. unfold Idle_Unlock. cbn. destruct (cs_Idle srv); [|done]. split; [done|].
  exact (cs_sim_intro (set_Idle false srv) c2 g HI).
Qed.

Hint Resolve on_rand_sim on_client_sim put_round_sim Idle_Lock_sim Idle_Unlock_sim : sim.

Lemma getRound_sim r st : gsim eq cs_sim (getRound r st) (getRound r st).
Proof. unfold getRound. apply get_srv_sim. intros srv c2. cbn. sim. Qed.
Hint Resolve getRound_sim : sim.

Lemma NewRound_sim r : gsim eq cs_sim (NewRound r) (NewRound r).
Proof using HS.
  unfold NewRound, new_noise. apply gsim_bind_eq; [sim|]. intros _. apply get_srv_sim. intros srv c2.
  cbn [with_client cs_rounds cs_LastServer cs_LaplaceMu cs_LaplaceB cs_PKI cs_ServerName]. sim.
Qed.

Lemma Open_sim a : gsim eq cs_sim (Open a) (Open a).
Proof using HS. unfold Open. sim. Qed.

Lemma Add_sim a : gsim eq cs_sim (Add a) (Add a).
Proof using HS.
  unfold Add. apply gsim_bind_eq; [sim|]. intros rd. apply gsim_on_ok. intros rd0. apply get_srv_sim.
  intros srv c2. cbn [with_client cs_PrivateKey cs_PKI cs_ServerName]. sim.
Qed.

Lemma Close_sim r : gsim eq cs_sim (Close r) (Close r).
Proof using HS.
  unfold Close. apply gsim_bind_eq; [sim|]. intros rd. apply gsim_on_ok. intros rd0.
  apply gsim_bind_eq; [sim|]. intros rd1. apply gsim_bind_eq; [sim|]. intros _. apply get_srv_sim.
  intros srv c2. cbn [with_client cs_LastServer]. unfold close_last, close_forward. destruct (cs_LastServer srv).
  - apply gsim_bind_eq; [sim|]. intros [replies ac]. apply gsim_bind_eq; [sim|]. intros _.
    apply gsim_bind_eq; [|sim]. apply put_srv_sim; intros; unfold send_AccessCount; cbn; by case_decide.
  - sim.
Qed.

Lemma get_onion_sim rd nonce size i : gsim eq cs_sim (get_onion rd nonce size i) (get_onion rd nonce size i).
Proof using HS. unfold get_onion. sim. Qed.
Hint Resolve get_onion_sim : sim.

Lemma Get_sim a : gsim eq cs_sim (Get a) (Get a).
Proof using HS.
  unfold Get. apply gsim_bind_eq; [sim|]. intros rd. apply gsim_on_ok. intros rd0. apply get_srv_sim.
  intros srv c2. cbn [with_client cs_PKI cs_ServerName]. sim.
Qed.

Lemma Delete_sim r : gsim eq cs_sim (Delete r) (Delete r).
Proof using HS. unfold Delete. apply gsim_bind_eq; [by apply put_srv_sim|sim]. Qed.

#[export] Instance cs_sim_ok : ConvoSim cs_sim.
Proof using HS.
  split; intros; [apply NewRound_sim|apply Open_sim|apply Add_sim|apply Close_sim|apply Get_sim|apply Delete_sim].
Qed.

End ConvoHandlers.

(** ** The dialing service *)

Definition ds_with_client {C D} (d : D) (srv : DialService C) : DialService D :=
  mkDialService (ds_rounds srv) (ds_Idle srv) (ds_LaplaceMu srv) (ds_LaplaceB srv) (ds_PKI srv) (ds_ServerName srv)
    (ds_PrivateKey srv) d (ds_LastServer srv).

Section DialHandlers.
Context {C1 C2 R : Type} `{HF : Fuel, HR : Reader R, HB : Box, HK : !KeyGen R, HE : FloatEnv,
  HC1 : DialRemote C1, HC2 : DialRemote C2} (I : C1 -> C2 -> Prop) `{HS : !DialSim I}.

Inductive ds_sim : dstate C1 R -> dstate C2 R -> Prop :=
| ds_sim_intro srv c2 g : I (ds_Client srv) c2 -> ds_sim (srv, g) (ds_with_client c2 srv, g).

Lemma ds_sim_inv s1 s2 :
  ds_sim s1 s2 -> I (ds_Client s1.1) (ds_Client s2.1) /\ s2 = (ds_with_client (ds_Client s2.1) s1.1, s1.2).
Proof. by intros []. Qed.

Lemma d_on_rand_sim {A} (m : GoM R A) : gsim eq ds_sim (d_on_rand m) (d_on_rand m).
Proof.
  unfold d_on_rand. apply (gsim_zoom _ eq); [by intros ? ? []| |apply gsim_refl].
  intros s1 s2 g ? [] <-. by constructor.
Qed.

Lemma d_on_client_sim {A} (m1 : GoM C1 A) m2 : gsim eq I m1 m2 -> gsim eq ds_sim (d_on_client m1) (d_on_client m2).
Proof.
  unfold d_on_client. apply (gsim_zoom _ I); [by intros ? ? []|].
  intros s1 s2 c1 c2 [] Hc. exact (ds_sim_intro (ds_set_Client c1 srv) c2 g Hc).
Qed.

Lemma d_get_srv_sim {A} (k1 : DialService C1 -> GoM _ A) (k2 : DialService C2 -> GoM _ A) :
  (forall srv c2, gsim eq ds_sim (k1 srv) (k2 (ds_with_client c2 srv))) ->
  gsim eq ds_sim (gbind d_get_srv k1) (gbind d_get_srv k2).
Proof.
  intros Hk. apply (gsim_bind _ (fun srv srv2 => exists c2, srv2 = ds_with_client c2 srv)).
  - intros s1 s2 [srv c2 g Hc]. cbn. split; [by exists c2|by constructor].
  - intros srv ? [c2 ->]. apply Hk.
Qed.

Lemma d_put_round_sim r rd : gsim eq ds_sim (d_put_round r rd) (d_put_round r rd).
Proof.
  intros s1 s2 [srv c2 g HI]. cbn. split; [done|].
  exact (ds_sim_intro (ds_set_rounds (<[r := rd]> (ds_rounds srv)) srv) c2 g HI).
Qed.

Lemma d_Idle_Lock_sim : gsim eq ds_sim d_Idle_Lock d_Idle_Lock.
Proof.
  intros s1 s2 [srv c2 g HI]. unfold d_Idle_Lock. cbn. destruct (ds_Idle srv); [done|]. split; [done|].
  exact (ds_sim_intro (ds_set_Idle true srv) c2 g HI).
Qed.

Lemma d_Idle_Unlock_sim : gsim eq ds_sim d_Idle_Unlock d_Idle_Unlock.
Proof.
  intros s1 s2 [srv c2 g HI]. unfold d_Idle_Unlock. cbn. destruct (ds_Idle srv); [|done]. split; [done|].
  exact (ds_sim_intro (ds_set_Idle false srv) c2 g HI).
Qed.

Hint Resolve d_on_rand_sim d_on_client_sim d_put_round_sim d_Idle_Lock_sim d_Idle_Unlock_sim : sim.

Lemma dial_getRound_sim r st : gsim eq ds_sim (dial_getRound r st) (dial_getRound r st).
Proof. unfold dial_getRound. apply d_get_srv_sim. intros srv c2. cbn. sim. Qed.
Hint Resolve dial_getRound_sim : sim.

Lemma Dial_NewRound_sim r : gsim eq ds_sim (Dial_NewRound r) (Dial_NewRound r).
Proof using HS.
  unfold Dial_NewRound, dial_noise. apply gsim_bind_eq; [sim|]. intros _. apply d_get_srv_sim. intros srv c2.
  cbn [ds_with_client ds_rounds ds_LaplaceMu ds_LaplaceB ds_PKI ds_ServerName]. sim.
Qed.

Lemma Dial_Add_sim a : gsim eq ds_sim (Dial_Add a) (Dial_Add a).
Proof using HS.
  unfold Dial_Add. apply gsim_bind_eq; [sim|]. intros rd. apply gsim_on_ok. intros rd0. apply d_get_srv_sim.
  intros srv c2. cbn [ds_with_client ds_PrivateKey ds_PKI ds_ServerName]. sim.
Qed.

Lemma Dial_Close_sim r : gsim eq ds_sim (Dial_Close r) (Dial_Close r).
Proof using HS.
  unfold Dial_Close. apply gsim_bind_eq; [sim|]. intros rd. apply gsim_on_ok. intros rd0.
  do 4 (apply gsim_bind_eq; [sim|]; intros ?). apply d_get_srv_sim.
  intros srv c2. cbn [ds_with_client ds_LastServer]. sim.
Qed.

Lemma Dial_Buckets_sim r : gsim eq ds_sim (Dial_Buckets r) (Dial_Buckets r).
Proof using HS.
  unfold Dial_Buckets. apply d_get_srv_sim. intros srv c2. cbn [ds_with_client ds_LastServer]. sim.
Qed.

#[export] Instance ds_sim_ok : DialSim ds_sim.
Proof using HS. split; intros; [apply Dial_NewRound_sim|apply Dial_Add_sim|apply Dial_Close_sim]. Qed.

End DialHandlers.
