(* ===== verification/MixChain.v ===== *)
(** * MixChain: a chain of server processes

    The processes [main] of [vuvuzela-server/server.go] starts, connected in a chain.
    Each runs the conversation and the dialing service over one lock and one client.
    The chain of processes is shown to behave like the chains of [ConvoChain] and
    [DialChain], and rounds of the two protocols are shown not to disturb each
    other, whatever the schedule of rounds. *)

From stdpp Require Import numbers strings pretty gmap relations list.
From Stdlib Require Import Strings.Byte.
From S2P Require Import Prelude Binary Wire Rand Shuffle Parallel OnionBox Pki Noise Laplace Vrpc Convo DeadDrops ConvoRounds ConvoChain Dial DialChain MixServer MixLock MixSim.

(** ** The chain *)

Fixpoint mchain (R : Type) (n : nat) : Type :=
  match n with
  | O => mix (option unit) R
  | S n' => mix (option (mchain R n')) R
  end.

(** A nil client behaves like no client. *)
Definition nil_sim : option unit -> unit -> Prop := fun o _ => o = None.
Definition some_sim {C1 C2} (I : C1 -> C2 -> Prop) : option C1 -> C2 -> Prop := fun o c => exists c1, o = Some c1 /\ I c1 c.

Lemma on_nil_none {A} (m1 : GoM unit A) : gsim eq nil_sim (on_nil m1) (glift (Panic nil_panic)).
Proof. by intros o [] ->. Qed.

Lemma on_nil_some {C1 C2 A} (I : C1 -> C2 -> Prop) (m1 : GoM C1 A) m2 :
  gsim eq I m1 m2 -> gsim eq (some_sim I) (on_nil m1) m2.
Proof.
  intros Hm ? c (c1 & -> & Hc). unfold on_nil, gzoom. specialize (Hm _ _ Hc). unfold osim in *.
  destruct (m1 c1) as [[a1 t1]| | |], (m2 c) as [[a2 t2]| | |]; try done. destruct Hm as [-> Ht].
  split; [done|]. by exists t1.
Qed.

#[export] Instance nil_convo_sim : ConvoSim nil_sim.
Proof. split; intros; apply on_nil_none. Qed.
#[export] Instance nil_dial_sim : DialSim nil_sim.
Proof. split; intros; apply on_nil_none. Qed.
#[export] Instance some_convo_sim {C1 C2} (I : C1 -> C2 -> Prop) `{ConvoSim C1 C2 I} : ConvoSim (some_sim I).
Proof. split; intros; cbn; apply on_nil_some; eauto with sim. Qed.
#[export] Instance some_dial_sim {C1 C2} (I : C1 -> C2 -> Prop) `{DialSim C1 C2 I} : DialSim (some_sim I).
Proof. split; intros; cbn; apply on_nil_some; eauto with sim. Qed.

Section OneProcess.
Context {C1 C2 R : Type} `{HF : Fuel, HR : Reader R, HB : Box, HK : !KeyGen R, HE : FloatEnv}.

(** The process, seen as one of its services. *)
Definition as_convo (I : C1 -> C2 -> Prop) (m : mix C1 R) (s : cstate C2 R) : Prop := cs_sim I (convo_view m) s.
Definition as_dial (I : C1 -> C2 -> Prop) (m : mix C1 R) (s : dstate C2 R) : Prop := ds_sim I (dial_view m) s.

Lemma convo_view_store (s : cstate C1 R) (m : mix C1 R) : convo_view (convo_store s m) = s.
Proof. by destruct s as [[] g]. Qed.
Lemma dial_view_store (s : dstate C1 R) (m : mix C1 R) : dial_view (dial_store s m) = s.
Proof. by destruct s as [[] g]. Qed.

Lemma on_convo_sim (I : C1 -> C2 -> Prop) {A} (h1 : GoM (cstate C1 R) A) (h2 : GoM (cstate C2 R) A) :
  gsim eq (cs_sim I) h1 h2 -> gsim eq (as_convo I) (on_convo h1) h2.
Proof.
  intros Hh m s Hm. unfold on_convo, gzoom. specialize (Hh _ _ Hm). unfold osim in *.
  destruct (h1 _) as [[a1 t1]| | |], (h2 s) as [[a2 t2]| | |]; try done. destruct Hh as [-> Ht].
  split; [done|]. unfold as_convo. by rewrite convo_view_store.
Qed.

Lemma on_dial_sim (I : C1 -> C2 -> Prop) {A} (h1 : GoM (dstate C1 R) A) (h2 : GoM (dstate C2 R) A) :
  gsim eq (ds_sim I) h1 h2 -> gsim eq (as_dial I) (on_dial h1) h2.
Proof.
  intros Hh m s Hm. unfold on_dial, gzoom. specialize (Hh _ _ Hm). unfold osim in *.
  destruct (h1 _) as [[a1 t1]| | |], (h2 s) as [[a2 t2]| | |]; try done. destruct Hh as [-> Ht].
  split; [done|]. unfold as_dial. by rewrite dial_view_store.
Qed.

#[export] Instance as_convo_sim `{ConvoRemote C1, DialRemote C1, ConvoRemote C2} (I : C1 -> C2 -> Prop) `{!ConvoSim I} :
  ConvoSim (as_convo I).
Proof.
  split; intros; cbn; apply on_convo_sim;
    [apply NewRound_sim|apply Open_sim|apply Add_sim|apply Close_sim|apply Get_sim|apply Delete_sim]; apply _.
Qed.

#[export] Instance as_dial_sim `{ConvoRemote C1, DialRemote C1, DialRemote C2} (I : C1 -> C2 -> Prop) `{!DialSim I} :
  DialSim (as_dial I).
Proof. split; intros; cbn; apply on_dial_sim; [apply Dial_NewRound_sim|apply Dial_Add_sim|apply Dial_Close_sim]; apply _. Qed.

End OneProcess.

(** ** What a call leaves alone *)

Definition on_some {C} (K : C -> Prop) : option C -> Prop := fun o => match o with Some c => K c | None => True end.

Lemma on_nil_keeping {C A} (K : C -> Prop) (m : GoM C A) :
  gsim eq (keeping K) m m -> gsim eq (keeping (on_some K)) (on_nil m) (on_nil m).
Proof.
  intros Hm o ? [<- Ho]. destruct o as [c|]; [|done]. unfold on_nil, gzoom. specialize (Hm c c (conj eq_refl Ho)).
  unfold osim in *. destruct (m c) as [[a t]| | |]; try done. by destruct Hm as (_ & _ & ?).
Qed.

Lemma unit_keeping {A} (p : string) : gsim (A1 := A) eq (keeping (fun _ : unit => True)) (glift (Panic p)) (glift (Panic p)).
Proof. by intros [] [] _. Qed.

#[export] Instance unit_convo_keeping : ConvoSim (keeping (fun _ : unit => True)).
Proof. split; intros; apply unit_keeping. Qed.
#[export] Instance unit_dial_keeping : DialSim (keeping (fun _ : unit => True)).
Proof. split; intros; apply unit_keeping. Qed.
#[export] Instance some_convo_keeping {C} (K : C -> Prop) `{ConvoRemote C, !ConvoSim (keeping K)} :
  ConvoSim (keeping (on_some K)).
Proof. split; intros; cbn; apply on_nil_keeping; eauto with sim. Qed.
#[export] Instance some_dial_keeping {C} (K : C -> Prop) `{DialRemote C, !DialSim (keeping K)} :
  DialSim (keeping (on_some K)).
Proof. split; intros; cbn; apply on_nil_keeping; eauto with sim. Qed.

Section OneProcessKeeps.
Context {C R : Type} `{HF : Fuel, HR : Reader R, HB : Box, HK : !KeyGen R, HE : FloatEnv,
  HC : ConvoRemote C, HD : DialRemote C} (K : C -> Prop).

(** A conversation call keeps what is known of the dialing service, and back. *)
Definition dial_part (Kd : DialService C -> Prop) (m : mix C R) : Prop := Kd (mx_dial m) /\ K (mx_client m).
Definition convo_part (Kc : ConvoService C -> Prop) (m : mix C R) : Prop := Kc (mx_convo m) /\ K (mx_client m).

Lemma cs_sim_keeping (s s' : cstate C R) : cs_sim (keeping K) s s' <-> s = s' /\ K (cs_Client s.1).
Proof.
  split.
  - intros [srv c g [<- Hc]]. split; [by destruct srv|done].
  - destruct s as [srv g]. intros [<- Hc]. assert (srv = with_client (cs_Client srv) srv) as E by (by destruct srv).
    rewrite E at 2. by constructor.
Qed.

Lemma ds_sim_keeping (s s' : dstate C R) : ds_sim (keeping K) s s' <-> s = s' /\ K (ds_Client s.1).
Proof.
  split.
  - intros [srv c g [<- Hc]]. split; [by destruct srv|done].
  - destruct s as [srv g]. intros [<- Hc]. assert (srv = ds_with_client (ds_Client srv) srv) as E by (by destruct srv).
    rewrite E at 2. by constructor.
Qed.

Lemma on_convo_keeping {A} Kd (h : GoM (cstate C R) A) :
  gsim eq (cs_sim (keeping K)) h h -> gsim eq (keeping (dial_part Kd)) (on_convo h) (on_convo h).
Proof.
  unfold on_convo. apply gsim_zoom.
  - intros m ? [<- [_ Hc]]. by apply cs_sim_keeping.
  - intros m ? s s' [<- [Hd _]] [<- Hc]%cs_sim_keeping. by split.
Qed.

Lemma on_dial_keeping {A} Kc (h : GoM (dstate C R) A) :
  gsim eq (ds_sim (keeping K)) h h -> gsim eq (keeping (convo_part Kc)) (on_dial h) (on_dial h).
Proof.
  unfold on_dial. apply gsim_zoom.
  - intros m ? [<- [_ Hc]]. by apply ds_sim_keeping.
  - intros m ? s s' [<- [Hd _]] [<- Hc]%ds_sim_keeping. by split.
Qed.

#[export] Instance dial_part_kept Kd `{!ConvoSim (keeping K)} : ConvoSim (keeping (dial_part Kd)).
Proof.
  split; intros; cbn; apply on_convo_keeping;
    [apply NewRound_sim|apply Open_sim|apply Add_sim|apply Close_sim|apply Get_sim|apply Delete_sim]; apply _.
Qed.

#[export] Instance convo_part_kept Kc `{!DialSim (keeping K)} : DialSim (keeping (convo_part Kc)).
Proof. split; intros; cbn; apply on_dial_keeping; [apply Dial_NewRound_sim|apply Dial_Add_sim|apply Dial_Close_sim]; apply _. Qed.

End OneProcessKeeps.

(** ** Chains of any length *)

Section Chain.
Context {R : Type} `{HF : Fuel, HR : Reader R, HFR : !FullReader R, HLR : !LiveReader R fuel, HB : Box, HL : !BoxLaws, HK : !KeyGen R,
  HKL : !KeyGenLaws R, HE : FloatEnv}.
Context (cap : Z).

#[export] Instance mchain_convo : forall n, ConvoRemote (mchain R n) :=
  fix go n := match n with
              | O => mix_convo_remote (C := option unit)
              | S n' => mix_convo_remote (C := option (mchain R n')) (HC := nilable_convo (H := go n'))
              end.
#[export] Instance mchain_dial : forall n, DialRemote (mchain R n) :=
  fix go n := match n with
              | O => mix_dial_remote (C := option unit)
              | S n' => mix_dial_remote (C := option (mchain R n')) (HD := nilable_dial (H := go n'))
              end.

(** The chain of processes, seen as a chain of one of the services. *)
Fixpoint convo_sim (n : nat) : mchain R n -> chain R n -> Prop :=
  match n with
  | O => as_convo nil_sim
  | S n' => as_convo (some_sim (convo_sim n'))
  end.
Fixpoint dial_sim (n : nat) : mchain R n -> dchain R n -> Prop :=
  match n with
  | O => as_dial nil_sim
  | S n' => as_dial (some_sim (dial_sim n'))
  end.

Lemma convo_sim_ok n : ConvoSim (convo_sim n).
Proof. induction n as [|n IH]; [exact (as_convo_sim nil_sim)|exact (as_convo_sim (some_sim (convo_sim n)))]. Qed.

Lemma dial_sim_ok n : DialSim (dial_sim n).
Proof. induction n as [|n IH]; [exact (as_dial_sim nil_sim)|exact (as_dial_sim (some_sim (dial_sim n)))]. Qed.

(** What a call of one service needs and keeps of the other. *)
Definition convo_idle (kps : list (BoxKey * BoxKey)) (P : Z -> Prop) {C} (srv : ConvoService C) : Prop :=
  server_cfg R cap kps srv /\ forall r, P r -> cs_rounds srv !! r = None.
Definition dial_idle (kps : list (BoxKey * BoxKey)) (P : Z -> Prop) {C} (srv : DialService C) : Prop :=
  dial_cfg R cap kps srv /\ forall r, P r -> ds_rounds srv !! r = None.

Fixpoint convo_frame (n : nat) (kps : list (BoxKey * BoxKey)) (P : Z -> Prop) : mchain R n -> Prop :=
  match n with
  | O => convo_part (on_some (fun _ => True)) (convo_idle kps P)
  | S n' => convo_part (on_some (convo_frame n' (tail kps) P)) (convo_idle kps P)
  end.
Fixpoint dial_frame (n : nat) (kps : list (BoxKey * BoxKey)) (P : Z -> Prop) : mchain R n -> Prop :=
  match n with
  | O => dial_part (on_some (fun _ => True)) (dial_idle kps P)
  | S n' => dial_part (on_some (dial_frame n' (tail kps) P)) (dial_idle kps P)
  end.

Lemma dial_frame_kept n kps P : ConvoSim (keeping (dial_frame n kps P)).
Proof.
  revert kps. induction n as [|n IH]; intros kps; [exact (dial_part_kept (on_some (fun _ : unit => True)) _)|].
  pose proof (IH (tail kps)). exact (dial_part_kept (on_some (dial_frame n (tail kps) P)) _).
Qed.

Lemma convo_frame_kept n kps P : DialSim (keeping (convo_frame n kps P)).
Proof.
  revert kps. induction n as [|n IH]; intros kps; [exact (convo_part_kept (on_some (fun _ : unit => True)) _)|].
  pose proof (IH (tail kps)). exact (convo_part_kept (on_some (convo_frame n (tail kps) P)) _).
Qed.

(** Every process is configured, idle, and has none of the rounds. *)
Definition process_ready {C} (next : option C -> Prop) (kps : list (BoxKey * BoxKey)) (Pc Pd : Z -> Prop)
    (m : mix (option C) R) : Prop :=
  convo_idle kps Pc (mx_convo m) /\ dial_idle kps Pd (mx_dial m) /\ mx_idle m = false /\
  reader_ok (mx_rand m) /\ next (mx_client m).

Fixpoint mix_ready (n : nat) (kps : list (BoxKey * BoxKey)) (Pc Pd : Z -> Prop) : mchain R n -> Prop :=
  match n with
  | O => process_ready (fun o => o = None) kps Pc Pd
  | S n' => process_ready (fun o => exists c, o = Some c /\ mix_ready n' (tail kps) Pc Pd c) kps Pc Pd
  end.

Lemma mix_ready_convo n kps Pc Pd (m : mchain R n) :
  mix_ready n kps Pc Pd m -> dial_frame n kps Pd m /\ exists c, convo_sim n m c /\ chain_ready cap n kps Pc c.
Proof.
  revert kps m. induction n as [|n IH]; intros kps m Hm;
    destruct Hm as ([Hc Hcr] & Hd & Hi & Hok & Hn).
  - split; [split; [exact Hd|by rewrite Hn]|].
    exists (with_client tt (convo_view m).1, mx_rand m). split; [constructor; exact Hn|].
    split; [exact Hc|]. split; [exact Hi|]. split; [exact Hcr|]. done.
  - destruct Hn as (c1 & Hn & (Hf & c & Hs & Hr)%IH).
    split; [split; [exact Hd|by rewrite Hn]|].
    exists (with_client c (convo_view m).1, mx_rand m). split; [constructor; by exists c1|].
    split; [exact Hc|]. split; [exact Hi|]. split; [exact Hcr|]. done.
Qed.

Lemma convo_mix_ready n kps Pc Pd (m : mchain R n) c :
  dial_frame n kps Pd m -> convo_sim n m c -> chain_ready cap n kps Pc c -> mix_ready n kps Pc Pd m.
Proof.
  revert kps m c. induction n as [|n IH]; intros kps m c [Hd Hf] Hs Hready;
    apply cs_sim_inv in Hs as [H Hs]; rewrite Hs in Hready; destruct Hready as (Hc & Hi & Hcr & Hok & Hn).
  - split; [split; [exact Hc|exact Hcr]|]. split_and!; [exact Hd|exact Hi|exact Hok|exact H].
  - destruct H as (c1 & Hc1 & Hs1). split; [split; [exact Hc|exact Hcr]|]. split_and!; [exact Hd|exact Hi|exact Hok|].
    exists c1. split; [exact Hc1|]. cbn in Hc1. rewrite Hc1 in Hf. by eapply IH.
Qed.

Lemma mix_ready_dial n kps Pc Pd (m : mchain R n) :
  mix_ready n kps Pc Pd m -> convo_frame n kps Pc m /\ exists d, dial_sim n m d /\ dchain_ready cap n kps Pd d.
Proof.
  revert kps m. induction n as [|n IH]; intros kps m Hm;
    destruct Hm as (Hc & [Hd Hdr] & Hi & Hok & Hn).
  - split; [split; [exact Hc|by rewrite Hn]|].
    exists (ds_with_client tt (dial_view m).1, mx_rand m). split; [constructor; exact Hn|].
    split; [exact Hd|]. split; [exact Hi|]. split; [exact Hdr|]. done.
  - destruct Hn as (c1 & Hn & (Hf & c & Hs & Hr)%IH).
    split; [split; [exact Hc|by rewrite Hn]|].
    exists (ds_with_client c (dial_view m).1, mx_rand m). split; [constructor; by exists c1|].
    split; [exact Hd|]. split; [exact Hi|]. split; [exact Hdr|]. done.
Qed.

Lemma dial_mix_ready n kps Pc Pd (m : mchain R n) d :
  convo_frame n kps Pc m -> dial_sim n m d -> dchain_ready cap n kps Pd d -> mix_ready n kps Pc Pd m.
Proof.
  revert kps m d. induction n as [|n IH]; intros kps m d [Hc Hf] Hs Hready;
    apply ds_sim_inv in Hs as [H Hs]; rewrite Hs in Hready; destruct Hready as (Hd & Hi & Hdr & Hok & Hn).
  - split; [exact Hc|]. split; [split; [exact Hd|exact Hdr]|]. split_and!; [exact Hi|exact Hok|exact H].
  - destruct H as (c1 & Hc1 & Hs1). split; [exact Hc|]. split; [split; [exact Hd|exact Hdr]|].
    split_and!; [exact Hi|exact Hok|].
    exists c1. split; [exact Hc1|]. cbn in Hc1. rewrite Hc1 in Hf. by eapply IH.
Qed.

(** ** Rounds, one after another *)

Inductive job :=
| ConvoJob (round : Z) (onions : list bytes)
| DialJob (round : Z) (onions : list bytes).

(** A round as the entry server runs it. *)
Definition run_job (n : nat) (j : job) : GoM (mchain R n) (result (list bytes)) :=
  match j with
  | ConvoJob r onions =>
      (let! err := NewConvoRound r in
       on_ok err (fun e => e) (fun _ => RunConvoRound r onions))%go
  | DialJob r onions =>
      (let! err := NewDialRound r in
       on_ok err (fun e => e) (fun _ =>
       let! err := RunDialRound r onions in
       on_ok err (fun e => e) (fun _ => gret (Ok []))))%go
  end.

Definition job_ok (kps : list (BoxKey * BoxKey)) (Pc Pd : Z -> Prop) (j : job) : Prop :=
  match j with
  | ConvoJob r onions => Pc r /\ batch_ok cap kps onions
  | DialJob r onions => Pd r /\ dial_batch_ok cap kps onions
  end.

Definition job_done (kps : list (BoxKey * BoxKey)) (j : job) (res : result (list bytes)) : Prop :=
  match j with
  | ConvoJob _ onions => exists replies, res = Ok replies /\ length replies = length onions /\
                           Forall (fun o => zlen o = reply_len (zlen kps)) replies
  | DialJob _ _ => res = Ok []
  end.

Definition dial_rounds (jobs : list job) : list Z :=
  omap (fun j => match j with DialJob r _ => Some r | ConvoJob _ _ => None end) jobs.

Lemma convo_job_ok n kps Pc Pd r onions (m : mchain R n) :
  0 <= cap < 2 ^ 31 -> length kps = S n -> mix_ready n kps Pc Pd m -> Pc r -> batch_ok cap kps onions ->
  run_job n (ConvoJob r onions) m = Panic slice_panic \/
  exists res m', run_job n (ConvoJob r onions) m = Ret (res, m') /\ job_done kps (ConvoJob r onions) res /\
    mix_ready n kps Pc Pd m'.
Proof using HKL HLR.
  intros Hcap Hl (Hf & c & Hs & Hr)%mix_ready_convo HP Hb.
  pose proof (convo_sim_ok n) as Hsim. pose proof (dial_frame_kept n kps Pd) as Hkeep.
  destruct (convo_round_ok cap n kps Pc r c onions Hcap Hl Hr HP Hb) as (c1 & Hnew & Hrun).
  destruct (gsim_run _ _ _ _ _ _ _ (NewConvoRound_sim _ r) Hs Hnew) as (m1 & Hnew1 & Hs1).
  pose proof (keeping_run _ _ _ _ _ (NewConvoRound_sim _ r) Hf Hnew1) as Hf1.
  unfold run_job. rewrite (gbind_eq _ _ _ _ _ Hnew1). cbn [on_ok].
  destruct Hrun as [Hp|(replies & c2 & hops & msgs & rs & ac & Hrun & Hr2 & Hlen & Hsz & _)].
  - left. exact (gsim_panic _ _ _ _ _ _ (RunConvoRound_sim _ r onions) Hs1 Hp).
  - right. destruct (gsim_run _ _ _ _ _ _ _ (RunConvoRound_sim _ r onions) Hs1 Hrun) as (m2 & Hrun2 & Hs2).
    pose proof (keeping_run _ _ _ _ _ (RunConvoRound_sim _ r onions) Hf1 Hrun2) as Hf2.
    exists (Ok replies), m2. split; [exact Hrun2|]. split; [by exists replies|]. by apply (convo_mix_ready _ _ _ _ _ c2).
Qed.

Lemma dial_job_ok n kps Pc Pd r onions (m : mchain R n) :
  0 <= cap < 2 ^ 31 -> length kps = S n -> mix_ready n kps Pc Pd m -> Pd r -> dial_batch_ok cap kps onions ->
  exists m', run_job n (DialJob r onions) m = Ret (Ok [], m') /\ mix_ready n kps Pc (fun r' => Pd r' /\ r' <> r) m'.
Proof using HKL HLR.
  intros Hcap Hl (Hf & d & Hs & Hr)%mix_ready_dial HP Hb.
  pose proof (dial_sim_ok n) as Hsim. pose proof (convo_frame_kept n kps Pc) as Hkeep.
  destruct (dial_round_ok cap n kps Pd r d onions Hcap Hl Hr HP Hb) as (d1 & d2 & bs & fin & bk & Hnew & Hrun & Hr2 & _).
  destruct (gsim_run _ _ _ _ _ _ _ (NewDialRound_sim _ r) Hs Hnew) as (m1 & Hnew1 & Hs1).
  pose proof (keeping_run _ _ _ _ _ (NewDialRound_sim _ r) Hf Hnew1) as Hf1.
  destruct (gsim_run _ _ _ _ _ _ _ (RunDialRound_sim _ r onions) Hs1 Hrun) as (m2 & Hrun2 & Hs2).
  pose proof (keeping_run _ _ _ _ _ (RunDialRound_sim _ r onions) Hf1 Hrun2) as Hf2.
  exists m2. split; [|by apply (dial_mix_ready _ _ _ _ _ d2)].
  unfold run_job. rewrite (gbind_eq _ _ _ _ _ Hnew1). cbn [on_ok]. by rewrite (gbind_eq _ _ _ _ _ Hrun2).
Qed.

Lemma process_ready_mono {C} (next next' : option C -> Prop) kps Pc Pd (Pd' : Z -> Prop) m :
  (forall o, next o -> next' o) -> (forall r, Pd' r -> Pd r) ->
  process_ready next kps Pc Pd m -> process_ready next' kps Pc Pd' m.
Proof. intros Hn HP (? & [? ?] & ? & ? & ?). split; [done|]. split; [split; auto|]. auto. Qed.

Lemma mix_ready_mono n kps Pc Pd (Pd' : Z -> Prop) (m : mchain R n) :
  (forall r, Pd' r -> Pd r) -> mix_ready n kps Pc Pd m -> mix_ready n kps Pc Pd' m.
Proof.
  intros HP. revert kps m. induction n as [|n IH]; intros kps m; apply process_ready_mono; [done|done| |done].
  intros o (c & -> & Hc). exists c. split; [done|by apply IH].
Qed.

Lemma jobs_ok n kps Pc Pd jobs (m : mchain R n) :
  0 <= cap < 2 ^ 31 -> length kps = S n -> mix_ready n kps Pc Pd m -> Forall (job_ok kps Pc Pd) jobs ->
  NoDup (dial_rounds jobs) ->
  go_map (run_job n) jobs m = Panic slice_panic \/
  exists results m', go_map (run_job n) jobs m = Ret (results, m') /\ Forall2 (job_done kps) jobs results /\
    mix_ready n kps Pc (fun r => Pd r /\ r ∉ dial_rounds jobs) m'.
Proof using HKL HLR.
  intros Hcap Hl. revert Pd m. induction jobs as [|[r onions|r onions] jobs IH]; intros Pd m Hm Hjobs Hnd.
  - right. exists [], m. split_and!; [done|constructor|]. eapply mix_ready_mono; [|exact Hm]. by intros r [? _].
  - apply Forall_cons in Hjobs as [[HP Hb] Hjobs]. cbn [go_map].
    destruct (convo_job_ok n kps Pc Pd r onions m Hcap Hl Hm HP Hb) as [Hp|(res & m1 & H1 & Hd1 & Hm1)].
    { left. unfold gbind. by rewrite Hp. }
    rewrite (gbind_eq _ _ _ _ _ H1). destruct (IH Pd m1 Hm1 Hjobs Hnd) as [Hp|(results & m2 & H2 & Hd2 & Hm2)].
    { left. unfold gbind. by rewrite Hp. }
    right. exists (res :: results), m2. rewrite (gbind_eq _ _ _ _ _ H2). split_and!; [done|by constructor|done].
  - apply Forall_cons in Hjobs as [[HP Hb] Hjobs]. cbn [go_map]. apply NoDup_cons in Hnd as [Hn Hnd].
    destruct (dial_job_ok n kps Pc Pd r onions m Hcap Hl Hm HP Hb) as (m1 & H1 & Hm1).
    rewrite (gbind_eq _ _ _ _ _ H1). destruct (IH _ m1 Hm1) as [Hp|(results & m2 & H2 & Hd2 & Hm2)]; [|done| |].
    { apply Forall_forall. intros j Hj. rewrite Forall_forall in Hjobs. specialize (Hjobs j Hj).
      destruct j as [r' os|r' os]; [done|]. destruct Hjobs as [Hp' Hb']. split; [split; [done|]|done].
      intros ->. apply Hn. apply list_elem_of_omap. by exists (DialJob r os). }
    { left. unfold gbind. by rewrite Hp. }
    right. exists (Ok [] :: results), m2. rewrite (gbind_eq _ _ _ _ _ H2). split_and!; [done|by constructor|].
    eapply mix_ready_mono; [|exact Hm2]. intros r' [? Hr']. cbn in Hr'. rewrite elem_of_cons in Hr'. naive_solver.
Qed.

(** ** The processes [main] starts *)

(** The files of the server at position [j]. *)
Record conf_ok (pki0 : PKI) (kps : list (BoxKey * BoxKey)) (j : nat) (confPath : string) (mu : float64) (conf : Conf) : Prop := {
  ck_path : confPath <> "";
  ck_name : cf_ServerName conf <> "";
  ck_order : pki_ServerOrder pki0 !! j = Some (cf_ServerName conf);
  ck_private : exists pk sk, kps !! j = Some (pk, sk) /\ cf_PrivateKey conf = Some sk;
  ck_public : exists pk, cf_PublicKey conf = Some pk;
  ck_convo : noise_live (R := R) cap (override_mu mu conf) (cf_ConvoB conf);
  ck_dial : noise_live (R := R) cap (cf_DialMu conf) (cf_DialB conf);
}.

(** [m] is what [main] serves, connected to a process in [next] where the PKI lists
    another server. *)
Definition booted_process {C} (next : C -> Prop) (pki0 : PKI) (kps : list (BoxKey * BoxKey)) (j : nat)
    (m : mix (option C) R) : Prop :=
  exists confPath mu conf (connect : string -> result C) g l d h g',
    conf_ok pki0 kps j confPath mu conf /\ reader_ok g /\
    (forall pki s info, ReadPKI pki0 = Ok pki -> pki_ServerOrder pki !! S j = Some s -> pki_Servers pki !! s = Some info ->
       exists c, connect (si_Address info) = Ok c /\ next c) /\
    main confPath false mu (Ok pki0) (Ok conf) connect g = Ret (Serves l d h m, g').

(** The servers from position [j] on, the last ones started first. *)
Fixpoint booted (pki0 : PKI) (kps : list (BoxKey * BoxKey)) (n j : nat) : mchain R n -> Prop :=
  match n with
  | O => booted_process (C := unit) (fun _ => True) pki0 kps j
  | S n' => booted_process (C := mchain R n') (booted pki0 kps n' (S j)) pki0 kps j
  end.

Lemma booted_process_ready {C} (next : C -> Prop) pki0 pki kps j (m : mix (option C) R) Pc Pd :
  pki_wf pki0 (fst <$> kps) -> ReadPKI pki0 = Ok pki -> Forall (fun k => keypair k.1 k.2) kps ->
  booted_process next pki0 kps j m ->
  process_ready (fun o => match pki_ServerOrder pki !! S j with
                          | None => o = None
                          | Some _ => exists c, o = Some c /\ next c
                          end) (drop j kps) Pc Pd m.
Proof.
  intros Hwf Hread Hkp (confPath & mu & conf & connect & g & l & d & h & g' & Hck & Hok & Hconn & Hmain).
  destruct Hck as [Hpath Hname Hord (pk & sk & Hk & Hsk) [pk' Hpk] Hn1 Hn2].
  destruct (main_runs cap kps j confPath mu pki0 pki conf pk pk' sk connect g) as
    (l1 & d1 & h1 & m1 & Hmain1 & Hc & Hd & Hcr & Hdr & Hi & Hg & Hnext); try done.
  { intros s info Hs Hi. destruct (Hconn pki s info Hread Hs Hi) as (c & Hc & _). eauto. }
  rewrite Hmain in Hmain1. injection Hmain1 as <- <- <- <- _.
  split; [split; [exact Hc|intros r _; by rewrite Hcr]|]. split; [split; [exact Hd|intros r _; by rewrite Hdr]|].
  split; [exact Hi|]. split; [by rewrite Hg|].
  destruct (pki_ServerOrder pki !! S j) as [s|] eqn:Es; [|by destruct Hnext].
  destruct Hnext as (_ & info & c & Hi1 & Hc1 & ->).
  destruct (Hconn pki s info Hread Es Hi1) as (c' & Hc' & Hnx). rewrite Hc1 in Hc'. injection Hc' as <-. eauto.
Qed.

Lemma booted_ready pki0 pki kps n j (m : mchain R n) Pc Pd :
  pki_wf pki0 (fst <$> kps) -> ReadPKI pki0 = Ok pki -> Forall (fun k => keypair k.1 k.2) kps ->
  length kps = (j + S n)%nat -> booted pki0 kps n j m -> mix_ready n (drop j kps) Pc Pd m.
Proof.
  intros Hwf Hread Hkp. destruct (ReadPKI_wf _ _ _ Hwf Hread) as ((_ & _ & Hkeys) & _ & _).
  pose proof (pki_keys_length _ _ Hkeys) as Hlen. rewrite length_fmap in Hlen.
  revert j m. induction n as [|n IH]; intros j m Hl Hb.
  - eapply process_ready_mono; [|done|exact (booted_process_ready _ pki0 pki kps j m Pc Pd Hwf Hread Hkp Hb)]. cbn.
    rewrite (lookup_ge_None_2 (pki_ServerOrder pki)) by lia. done.
  - eapply process_ready_mono; [|done|exact (booted_process_ready _ pki0 pki kps j m Pc Pd Hwf Hread Hkp Hb)]. cbn.
    destruct (lookup_lt_is_Some_2 (pki_ServerOrder pki) (S j)) as [s Hs]; [lia|]. rewrite Hs.
    intros o (c & -> & Hc). exists c. split; [done|].
    replace (tail (drop j kps)) with (drop (S j) kps); [apply IH; [lia|done]|].
    destruct (lookup_lt_is_Some_2 kps j) as [kp Hkp0]; [lia|]. by rewrite (drop_S _ _ _ Hkp0).
Qed.

(** C2. The whole deployment, from the configuration files: start one server process
    per entry of a well-formed PKI, each connected to the next, every one running
    both services over one lock. Then any sequence of conversation and dialing rounds,
    in any order (a dialing round number used once), can be run on them. Unless a
    round panics on malformed onions, every round of either protocol completes
    without an error, every conversation round returns one reply of the right size
    per onion, and no round leaves the servers unable to run the next one. *)
Theorem deployment_runs_any_schedule (pki0 pki : PKI) (kps : list (BoxKey * BoxKey)) (n : nat)
    (m : mchain R n) (jobs : list job) :
  0 <= cap < 2 ^ 31 -> length kps = S n -> pki_wf pki0 (fst <$> kps) -> ReadPKI pki0 = Ok pki ->
  Forall (fun k => keypair k.1 k.2) kps -> booted pki0 kps n 0 m ->
  Forall (job_ok kps (fun _ => True) (fun _ => True)) jobs -> NoDup (dial_rounds jobs) ->
  go_map (run_job n) jobs m = Panic slice_panic \/
  exists results m', go_map (run_job n) jobs m = Ret (results, m') /\ Forall2 (job_done kps) jobs results /\
    mix_ready n kps (fun _ => True) (fun r => r ∉ dial_rounds jobs) m'.
Proof using HKL HLR.
  intros Hcap Hl Hwf Hread Hkp Hb Hjobs Hnd.
  pose proof (booted_ready pki0 pki kps n 0 m (fun _ => True) (fun _ => True) Hwf Hread Hkp Hl Hb) as Hm.
  rewrite drop_0 in Hm. destruct (jobs_ok n kps _ _ jobs m Hcap Hl Hm Hjobs Hnd) as [?|(res & m' & H1 & H2 & H3)]; [by left|].
  right. exists res, m'. split_and!; [done|done|]. eapply mix_ready_mono; [|exact H3]. by intros r ?.
Qed.

End Chain.

(** ** Two processes *)

Module MixToy.
Import Toy DialToy.

Definition pki_read : PKI := match ReadPKI example_pki with Ok pki => pki | Err _ => example_pki end.

Definition conf_of (name : string) (key : BoxKey) : Conf :=
  mkConf name (Some key) (Some key) "" "" (float_of_Z 1) (float_of_Z 1) (float_of_Z 1) (float_of_Z 1).
Definition conf_first : Conf := conf_of "first" (replicate 32 x03).
Definition conf_last : Conf := conf_of "last" (replicate 32 x05).

(** [-mu] is not given: its default is -1. *)
Definition no_mu : float64 := float_of_Z (-1).

Definition last_process : mchain unit 0 :=
  services (C := unit) pki_read conf_last (replicate 32 x05) (float_of_Z 1) None tt.
Definition first_process : mchain unit 1 :=
  services (C := mchain unit 0) pki_read conf_first (replicate 32 x03) (float_of_Z 1) (Some last_process) tt.

Lemma read_ok : ReadPKI example_pki = Ok pki_read.
Proof. vm_compute. reflexivity. Qed.

Lemma first_conf_ok : conf_ok 4 example_pki kps 0 "server.conf" no_mu conf_first.
Proof. split; [done|done|done|by eexists _, _|by eexists|exact noise_live_toy|exact noise_live_toy]. Qed.
Lemma last_conf_ok : conf_ok 4 example_pki kps 1 "server.conf" no_mu conf_last.
Proof. split; [done|done|done|by eexists _, _|by eexists|exact noise_live_toy|exact noise_live_toy]. Qed.

Lemma last_main :
  main "server.conf" false no_mu (Ok example_pki) (Ok conf_last) (fun _ : string => Err (A := unit) "unreachable") tt =
  Ret (Serves ":2718" None (Some (mkHistogramArgs (float_of_Z 1) 2)) last_process, tt).
Proof. vm_compute. reflexivity. Qed.

Lemma first_main :
  main "server.conf" false no_mu (Ok example_pki) (Ok conf_first) (fun _ : string => Ok last_process) tt =
  Ret (Serves ":2718" None None first_process, tt).
Proof. vm_compute. reflexivity. Qed.

Lemma two_booted : booted 4 example_pki kps 1 0 first_process.
Proof.
  exists "server.conf", no_mu, conf_first, (fun _ => Ok last_process), tt. eexists _, _, _, _.
  split; [exact first_conf_ok|]. split; [exact I|]. split; [|exact first_main].
  intros pki s info _ _ _. exists last_process. split; [done|].
  exists "server.conf", no_mu, conf_last, (fun _ => Err "unreachable"), tt. eexists _, _, _, _.
  split; [exact last_conf_ok|]. split; [exact I|]. split; [|exact last_main].
  intros pki' s' info' Hr. rewrite read_ok in Hr. injection Hr as <-. done.
Qed.

Definition jobs : list job := [ConvoJob 7 onions; DialJob 7 [dial_onion]; ConvoJob 8 []; DialJob 9 []].

Lemma jobs_run : match go_map (run_job 1) jobs first_process with Ret _ => true | _ => false end = true.
Proof. vm_compute. reflexivity. Qed.

Lemma deployment_runs_any_schedule_witness :
  exists results m', go_map (run_job 1) jobs first_process = Ret (results, m') /\ Forall2 (job_done kps) jobs results.
Proof.
  destruct (deployment_runs_any_schedule 4 example_pki pki_read kps 1 first_process jobs)
    as [Hp|(results & m' & H1 & H2 & _)].
  - lia.
  - reflexivity.
  - exact example_pki_wf.
  - exact read_ok.
  - exact kps_ok.
  - exact two_booted.
  - repeat constructor.
  - cbn. repeat constructor; set_solver.
  - exfalso. pose proof jobs_run as Hr. rewrite Hp in Hr. discriminate Hr.
  - exists results, m'. split; [exact H1|exact H2].
Defined.

(** While a conversation round collects messages on the last process, both kinds of
    round have to wait. *)
Definition collecting_process : mix (option unit) unit :=
  convo_store (with_round 7 empty_round (set_Idle true (convo_view last_process).1), tt) last_process.

Lemma collecting_steps : mix_steps [Acquire true 7] (last_process : mix (option unit) unit, []) (collecting_process, []).
Proof.
  eapply steps_cons; [|apply steps_nil]. refine (step_convo (OpNewRound 7) (Ok []) last_process collecting_process [] _ _ _).
  - apply not_elem_of_nil.
  - done.
  - reflexivity.
Qed.

Lemma one_round_at_a_time_witness :
  rpc_NewRound 8 collecting_process = Block /\ rpc_DialNewRound 9 collecting_process = Block /\
  (forall k r, collecting (collecting_process, []) k r -> k = true /\ r = 7).
Proof.
  destruct (one_round_at_a_time "server.conf" false no_mu (Ok example_pki) (Ok conf_last)
    (fun _ : string => Err (A := unit) "unreachable") tt _ _ _ last_process tt [Acquire true 7] collecting_process [] last_main
    collecting_steps) as (_ & Hb & Hex).
  split; [exact (proj1 (Hb eq_refl 8))|]. split; [exact (proj2 (Hb eq_refl 9))|].
  intros k r Hc. destruct Hex as [Hex _]; [repeat constructor|]. apply (Hex k r true 7 Hc).
  split; [|apply not_elem_of_nil]. exists convoRoundNew. split; [reflexivity|left; reflexivity].
Defined.

End MixToy.
